(* ===== verification/_CoqProject ===== *)
-Q . S2P
Prelude.v
Replay.v
Tai64n.v
Scheduler.v
Packet.v
Crypto.v
Noise.v
NoiseIKpsk2.v
NoiseIK.v
Framing.v
ControlNoise.v
Keys.v
WgMessages.v
Disco.v
DerpFrame.v
WgEnv.v
WgMacs.v
WgSession.v
WgHandshake.v
WgState.v
WgPeer.v
WgEndpoint.v
WgKeys.v
WgInv.v
WgSafety.v
WgDelivery.v
WgFindings.v
Bitset.v
Array256.v
BaseIndex.v
IpNet.v
BartNode.v
IpTrie.v
IpTrieSpec.v
IpTrieMod.v
IpTrieLookup.v
RoutingTable.v
SimpleTable.v
SplitStackTable.v
BartTable.v
DynBitset.v
IdSets.v
PortTrie.v
PortTrieSpec.v
CapLookup.v
PacketFilter.v
DstLookup.v
BartFilter.v
BartFilterSpec.v
BartFilterProof.v
ShadowCrypto.v
Obfs.v
ShadowEndpoint.v
ShadowVpn.v
Tunnel.v
Routers.v
DataPlane.v
DataPlaneSpec.v
DataPlaneProof.v
PeerDb.v
PeerDbSpec.v
PeerDbProof.v
DerpClient.v
PeerTracker.v
TrackerProof.v
Runtime.v
RuntimeSpec.v
RuntimeProof.v
KvValue.v
KvTable.v
KvTableSpec.v
KvIndex.v
KvStorage.v
KvOps.v
KvLaws.v
KvStore.v
KvStoreSpec.v
KvStoreProof.v
KvFindings.v
