(* ===== verification/Prelude.v ===== *)
(** * A verification library for tailscale-rs

    The repository implements a Tailscale node in Rust.  A coordination server tells the node
    its peers, routes and packet filter; the node exchanges sealed packets with its peers,
    directly or over a relay.  This library models the crates between the two ends of that
    path as executable Rocq functions and proves what they do.  Paths below are those of the
    sources.

    ** The program and the files that model it

    - _Foundations._  [Prelude] has the outcomes of Rust functions, the state monad, integers
      as bytes, and the tactics and hints of the library.  [Crypto] states the third-party
      primitives as classes with laws ([Crypto], [CryptoLaws], [CryptoBox]) and has concrete
      instances.  [Packet] is the buffer of ts_packet, [Framing] the contract of a framed
      byte stream (tokio_util::codec), [Keys] the text form of ts_keys.
    - _Noise_ (ts_noise).  [Noise] is core.rs and messages.rs, [NoiseIKpsk2] ikpsk2.rs,
      [NoiseIK] ik.rs.
    - _WireGuard_ (ts_tunnel/src/wireguard).  [Replay] replay.rs, [Tai64n] time.rs,
      [WgMessages] messages.rs, [WgMacs] macs.rs, [WgSession] session.rs, [WgHandshake]
      handshake.rs.  The types of endpoint.rs are in [WgState] (queues, session state,
      identifier map, results), [WgPeer] (the methods of Peer) and [WgEndpoint] (Endpoint:
      add and remove peers, send, recv, dispatch_events).  [WgEnv] is what a call reads of
      clocks and random generators; [Scheduler] is the event queue of ts_time.  [WgKeys],
      [WgInv], [WgSafety] and [WgDelivery] hold the proofs about the endpoint, [WgFindings]
      the corner cases.
    - _ShadowVPN_ (ts_tunnel/src/shadowvpn).  [ShadowCrypto] crypto.rs, [Obfs] obfs.rs,
      [ShadowEndpoint] endpoint.rs, [ShadowVpn] the proofs.  [Tunnel] is ts_tunnel/src/lib.rs:
      the class of operations that either protocol offers, its laws, and the endpoint that
      dispatches to one of them.
    - _Routing tables_ (ts_bitset, ts_array256, ts_bart).  [Bitset], [Array256], [BaseIndex]
      (base_index.rs, allot.rs, lpm.rs), [IpNet] (addresses, and the crate ipnet as a class),
      [BartNode] (node/), [IpTrie] (iptrie/), [RoutingTable] (the trait and its laws),
      [SimpleTable], [SplitStackTable]; proofs in [IpTrieSpec], [IpTrieMod], [IpTrieLookup]
      and [BartTable].
    - _Packet filters_ (ts_packetfilter, ts_packetfilter_state, ts_dynbitset,
      ts_bart_packetfilter).  [PacketFilter] has rules, the traits, the map filter, the
      checking filter and apply_update; [DynBitset], [IdSets], [PortTrie], [CapLookup],
      [DstLookup] and [BartFilter] the filter over bit sets; proofs in [PortTrieSpec],
      [BartFilterSpec], [BartFilterProof].
    - _Data plane_ (ts_overlay_router, ts_underlay_router, ts_dataplane).  [Routers], and
      [DataPlane] for process_outbound, process_inbound and process_events over any tunnel;
      proofs in [DataPlaneSpec], [DataPlaneProof].
    - _Runtime_ (ts_runtime, ts_control/src/node.rs).  [PeerDb] is peer_tracker/peer_db.rs,
      [PeerTracker] the actor of peer_tracker/mod.rs, [Runtime] the handlers of the data
      plane, source filter, route and packet filter actors and the system of all of them with
      their mailboxes; proofs in [PeerDbSpec], [PeerDbProof], [TrackerProof], [RuntimeSpec],
      [RuntimeProof].
    - _Other protocols._  [ControlNoise] is the transport to the coordination server
      (ts_control_noise), [Disco] path discovery (ts_disco_protocol), [DerpFrame] and
      [DerpClient] the relay client (ts_derp), the latter with the transport that maps relay
      keys to peers (ts_transport/src/map_key.rs, the lookup of ts_runtime/src/multiderp.rs).
    - _Key-value store_ (ts_kv_store).  [KvValue] (two-version values), [KvTable] (tables and
      indexes), [KvStorage] (transactions, schema macros), [KvOps] (operations.rs, raw.rs,
      index.rs, transactions.rs), [KvStore] (programs and their specification); proofs in
      [KvTableSpec], [KvIndex], [KvLaws], [KvStoreSpec], [KvStoreProof], [KvFindings].

    ** How the code is read

    A method with [&mut self] is a function from the old state to an outcome and the new
    state; [Panic] is a value, so that the absence of panics is a theorem.  [Result] is a sum
    or an option.  Integers are [Z] or [nat] with the wrap-around, saturation or overflow
    check of the source written out; debug assertions and overflow checks are on.  A [HashMap]
    is a [gmap], and where its iteration order shows the order is a parameter with the law
    that it is a permutation.  A mutable reference into a structure is read, changed and
    written back.  Traits are classes with a second class of laws; clients are proved against
    the laws.  Third-party code (ciphers, ipnet, etherparse, random generators, JSON) is a
    class parameter with its documented behaviour as laws, and a concrete instance shows that
    the laws can hold.

    ** What the theorems show

    - Two WireGuard endpoints that know each other complete a handshake and deliver the queued
      packets; no reachable endpoint panics on any input; identifiers are routed to the peer
      that owns them; a waiting handshake has a timer.  Its parts: the replay window, the
      clock, the scheduler, sessions, messages and the handshake pattern meet their
      specifications.
    - ShadowVPN endpoints deliver to each other, and a data plane over either tunnel delivers
      exactly the packets that are authenticated, filtered and routed.
    - In every interleaving of the runtime's actors what is delivered belongs to the node that
      owns its source address, and the tables of the data plane converge to the tracker's
      peers.  The peer database keeps its indexes consistent.
    - A routing table is a pair of finite maps with longest-prefix lookup; the bit sets and
      arrays below it refine sets and maps; the bit set filter refines the map filter up to
      two stated differences.
    - The key-value store refines finite maps under scripts of calls and transactions.
    - The control stream, the relay's frames and session, disco packets and key texts arrive
      as they were sent, however the byte streams are cut.
    - The findings: exact behaviour where the code departs from its documentation, among them
      [WgFindings], [KvFindings], [BartTable.BartTable.prefix_lookup_strays],
      [Disco.Disco.sealed_packet_unmarked], [RuntimeProof.RuntimeProof.replaced_peer_panics].

    ** Bounds and fuel

    Recursion is structural where the source iterates over data.  The other loops carry a
    count, and running out of it is a panic, so that the theorems that exclude panics show the
    counts suffice: 17 levels for an insertion into a trie (an address has 16 octets), 257
    steps of a prefix iterator (256 base indices), twice the stack for the walk of a lookup,
    9 and 513 steps for the lookup tables of base indices, 40 prefixes of a port range, one
    round per byte of a derived key.  The search for an unused session identifier has no bound
    in the source; its bound is a field of [World], and the theorems assume of the random
    source that it hits an unused identifier within it ([WgInv]).  Counters of 64 bits, the
    nonces of a session and the ids of transactions can run out; the theorems say how many
    operations they allow.

    ** What is not modelled

    Asynchronous execution inside one crate (the channels of ts_dataplane's wrapper, locks,
    select loops; the runtime's actors are modelled as interleaved handlers), the relay
    selection of multiderp.rs, network probes, sockets, TLS and HTTP; derived serialization
    (ts_control_serde, ts_packetfilter_serde and the conversions from them); the smoltcp stack
    and its command channels; the operating system's tunnel device; formatting and logging,
    except where a log statement has an effect; command-line programs and the bindings for
    other languages.  In the modelled crates: capacities and sharing of buffers, statistics
    and descendant iterators of the trie, [for_each_mut] through an index of the store and the
    lock-polling variants of its calls.  The laws of the ciphers state that what is sealed
    opens again, and lengths; nothing is assumed of forgeries, so that authenticated here
    means that the cipher opened a packet under the peer's key. *)

From Stdlib Require Export ZArith Lia Strings.Byte.
From stdpp Require Export base option list numbers gmap sets strings.

#[global] Open Scope Z_scope.

Declare Scope ts_scope.
Delimit Scope ts_scope with ts.

(** ** Rust outcomes

    A Rust function either returns or panics (an explicit [panic!], a failed
    [unwrap] or [assert!], an index out of range, an arithmetic overflow under
    the dev profile's overflow checks).  [outcome] keeps the two apart, so that
    "never panics" is a statement about the model. *)
Inductive outcome (A : Type) : Type :=
| Done (a : A)
| Panic.
Arguments Done {A} _.
Arguments Panic {A}.

#[global] Instance outcome_ret : MRet outcome := fun A a => Done a.

#[global] Instance outcome_bind : MBind outcome := fun A B f m =>
  match m with Done a => f a | Panic => Panic end.

#[global] Instance outcome_fmap : FMap outcome := fun A B f m =>
  match m with Done a => Done (f a) | Panic => Panic end.

(** State passing on top of [outcome]: the shape of a method that takes
    [&mut self] (or another [&mut] argument) of type [S] and returns [A]. *)
Definition ST (S A : Type) : Type := S -> outcome (A * S).

#[global] Instance ST_ret {S} : MRet (ST S) := fun A a s => Done (a, s).

#[global] Instance ST_bind {S} : MBind (ST S) := fun A B f m s =>
  match m s with Done (a, s') => f a s' | Panic => Panic end.

Definition st_get {S} : ST S S := fun s => Done (s, s).
Definition st_put {S} (s' : S) : ST S unit := fun _ => Done (tt, s').
Definition st_panic {S A} : ST S A := fun _ => Panic.
Definition st_lift {S A} (m : outcome A) : ST S A := fun s =>
  match m with Done a => Done (a, s) | Panic => Panic end.

(** Total correctness of a stateful computation: it does not panic, and its result and
    final state satisfy [Q]. *)
Definition wp {S A} (m : ST S A) (Q : A -> S -> Prop) (s : S) : Prop :=
  match m s with Done (a, s') => Q a s' | Panic => False end.

(** [Option::unwrap] and slice indexing. *)
Definition unwrap {A} (o : option A) : outcome A :=
  match o with Some a => Done a | None => Panic end.

Definition index {A} (l : list A) (i : nat) : outcome A := unwrap (l !! i).

(** [l[i] = x]: a panic out of range, where stdpp's [insert] does nothing. *)
Definition store {A} (l : list A) (i : nat) (x : A) : outcome (list A) :=
  if decide (i < length l)%nat then Done (<[i := x]> l) else Panic.

(** ** Machine integers *)
Definition U8 : Z := 2 ^ 8.
Definition U16 : Z := 2 ^ 16.
Definition U32 : Z := 2 ^ 32.
Definition U64 : Z := 2 ^ 64.
Definition u64_max : Z := U64 - 1.

(** Bitwise complement at width [w]: the Rust [!x]. *)
Definition not_w (w x : Z) : Z := Z.lxor x (Z.ones w).

(** Overflow-checked addition ([+] under overflow checks). *)
Definition add_w (w x y : Z) : outcome Z :=
  if x + y <? 2 ^ w then Done (x + y) else Panic.

(** Overflow-checked subtraction of unsigned integers. *)
Definition sub_w (x y : Z) : outcome Z := if y <=? x then Done (x - y) else Panic.

Definition saturating_sub (x y : Z) : Z := Z.max 0 (x - y).

(** ** Bytes *)
Definition byte_to_Z (b : byte) : Z := Z.of_N (Byte.to_N b).

Definition byte_of_Z (z : Z) : byte :=
  match Byte.of_N (Z.to_N (z mod 256)) with Some b => b | None => x00 end.

#[global] Instance byte_eq_dec : EqDecision byte := Byte.byte_eq_dec.

#[global] Program Instance byte_countable : Countable byte :=
  inj_countable Byte.to_N Byte.of_N _.
Next Obligation. intros b. apply Byte.of_to_N. Qed.

(** Little- and big-endian integers of [n] bytes. *)
Fixpoint le_bytes (n : nat) (z : Z) : list byte :=
  match n with
  | O => []
  | S n => byte_of_Z z :: le_bytes n (z / 256)
  end.

Fixpoint le_int (l : list byte) : Z :=
  match l with
  | [] => 0
  | b :: l => byte_to_Z b + 256 * le_int l
  end.

Definition be_bytes (n : nat) (z : Z) : list byte := rev (le_bytes n z).
Definition be_int (l : list byte) : Z := le_int (rev l).

Definition zeroes (n : nat) : list byte := replicate n x00.

(** ** Tactics *)

(** Case analysis on the scrutinee of an [if] or a [match] in the goal or in a
    hypothesis, keeping the equation. *)
Ltac case_goal :=
  match goal with
  | |- context [if ?b then _ else _] => destruct b eqn:?
  | |- context [match ?x with _ => _ end] => destruct x eqn:?
  end.

Ltac case_hyp H :=
  match type of H with
  | context [if ?b then _ else _] => destruct b eqn:?
  | context [match ?x with _ => _ end] => destruct x eqn:?
  end.

(** Boolean comparisons on [Z] and [nat] to propositions, in all hypotheses. *)
Ltac b2p :=
  repeat match goal with
  | H : (_ && _) = true |- _ => apply andb_true_iff in H; destruct H
  | H : (_ || _) = false |- _ => apply orb_false_iff in H; destruct H
  | H : negb _ = true |- _ => apply negb_true_iff in H
  | H : negb _ = false |- _ => apply negb_false_iff in H
  | H : (_ <? _) = true |- _ => apply Z.ltb_lt in H
  | H : (_ <? _) = false |- _ => apply Z.ltb_ge in H
  | H : (_ <=? _) = true |- _ => apply Z.leb_le in H
  | H : (_ <=? _) = false |- _ => apply Z.leb_gt in H
  | H : (_ =? _) = true |- _ => apply Z.eqb_eq in H
  | H : (_ =? _) = false |- _ => apply Z.eqb_neq in H
  end.

(** [lia] with the Euclidean equations of the divisions and remainders. *)
Ltac dlia := Z.to_euclidean_division_equations; lia.

(** Invert [Done _ = Done _] and discard [Panic = Done _]. *)
Ltac done_inv :=
  repeat match goal with
  | H : Done _ = Done _ |- _ => injection H; clear H; intros; subst
  | H : Panic = Done _ |- _ => discriminate H
  | H : Done _ = Panic |- _ => discriminate H
  | H : mret _ = Done _ |- _ => unfold mret, outcome_ret in H
  end.

Create HintDb ts discriminated.
Create Rewrite HintDb ts.

(** ** Lemmas on outcomes *)

Lemma bind_Done {A B} (m : outcome A) (f : A -> outcome B) b :
  (m ≫= f) = Done b <-> exists a, m = Done a /\ f a = Done b.
Proof. destruct m; simpl; naive_solver. Qed.

Lemma st_bind_Done {S A B} (m : ST S A) (f : A -> ST S B) s b s' :
  (m ≫= f) s = Done (b, s') <->
  exists a s1, m s = Done (a, s1) /\ f a s1 = Done (b, s').
Proof. unfold mbind, ST_bind. destruct (m s) as [[a s1]|]; naive_solver. Qed.

Lemma wp_ret {S A} (a : A) (Q : A -> S -> Prop) s : Q a s -> wp (mret a) Q s.
Proof. done. Qed.

Lemma wp_bind {S A B} (m : ST S A) (f : A -> ST S B) Q s :
  wp m (fun a => wp (f a) Q) s -> wp (m ≫= f) Q s.
Proof. unfold wp, mbind, ST_bind. by destruct (m s) as [[a s']|]. Qed.

Lemma wp_mono {S A} (m : ST S A) (P Q : A -> S -> Prop) s :
  wp m P s -> (forall a s', P a s' -> Q a s') -> wp m Q s.
Proof. unfold wp. destruct (m s) as [[a s']|]; auto. Qed.

Lemma wp_and {S A} (m : ST S A) (P Q : A -> S -> Prop) s :
  wp m P s -> wp m Q s -> wp m (fun a s' => P a s' /\ Q a s') s.
Proof. unfold wp. by destruct (m s) as [[a s']|]. Qed.

Lemma wp_partial {S A} (m : ST S A) (P Q : A -> S -> Prop) s :
  wp m P s -> (forall a s', m s = Done (a, s') -> Q a s') -> wp m Q s.
Proof. unfold wp. destruct (m s) as [[a s']|]; [|done]. intros _ H. by apply H. Qed.

Lemma wp_lift {S A} (m : outcome A) (Q : A -> S -> Prop) s :
  (exists a, m = Done a /\ Q a s) -> wp (st_lift m) Q s.
Proof. intros (a & -> & H). exact H. Qed.

Lemma wp_get {S} (Q : S -> S -> Prop) s : Q s s -> wp st_get Q s.
Proof. done. Qed.

Lemma wp_put {S} (s' : S) (Q : unit -> S -> Prop) s : Q tt s' -> wp (st_put s') Q s.
Proof. done. Qed.

Lemma wp_Done {S A} (m : ST S A) Q s :
  wp m Q s <-> exists a s', m s = Done (a, s') /\ Q a s'.
Proof. unfold wp. destruct (m s) as [[a s']|]; naive_solver. Qed.

(** Enter the first computation of a sequence. *)
Ltac wp_step := first [apply wp_bind | apply wp_ret | apply wp_get | apply wp_put]; cbn beta.

#[export] Hint Resolve wp_ret wp_get wp_put : ts.

Lemma index_Done {A} (l : list A) i a : index l i = Done a <-> l !! i = Some a.
Proof. unfold index, unwrap. destruct (l !! i); naive_solver. Qed.

Lemma store_Done {A} (l l' : list A) i a :
  store l i a = Done l' <-> (i < length l)%nat /\ l' = <[i := a]> l.
Proof. unfold store. case_decide; naive_solver. Qed.

Lemma store_in {A} (l : list A) i a :
  (i < length l)%nat -> store l i a = Done (<[i := a]> l).
Proof. intros. unfold store. by rewrite decide_True. Qed.

(** ** Lemmas on bytes *)

Lemma byte_to_Z_range b : 0 <= byte_to_Z b < 256.
Proof.
  unfold byte_to_Z. pose proof (Byte.to_N_bounded b). lia.
Qed.

Lemma byte_of_to b : byte_of_Z (byte_to_Z b) = b.
Proof.
  unfold byte_of_Z. pose proof (byte_to_Z_range b).
  rewrite Z.mod_small by lia. unfold byte_to_Z. rewrite N2Z.id.
  by rewrite Byte.of_to_N.
Qed.

Lemma byte_to_of z : byte_to_Z (byte_of_Z z) = z mod 256.
Proof.
  unfold byte_of_Z, byte_to_Z.
  pose proof (Z.mod_pos_bound z 256 ltac:(lia)).
  destruct (Byte.of_N _) eqn:E.
  - apply Byte.to_of_N in E. lia.
  - apply Byte.of_N_None_iff in E. lia.
Qed.

Lemma byte_of_Z_add z k : byte_of_Z (z + 256 * k) = byte_of_Z z.
Proof. unfold byte_of_Z. by rewrite (Z.mul_comm 256), Z_mod_plus_full. Qed.

Lemma le_bytes_length n z : length (le_bytes n z) = n.
Proof. revert z. induction n; simpl; auto. Qed.

Lemma be_bytes_length n z : length (be_bytes n z) = n.
Proof. unfold be_bytes. by rewrite length_rev, le_bytes_length. Qed.

Lemma le_int_range l : 0 <= le_int l < 256 ^ Z.of_nat (length l).
Proof.
  induction l as [|b l IH]; simpl length; [simpl; lia|].
  rewrite Nat2Z.inj_succ, Z.pow_succ_r by lia. simpl.
  pose proof (byte_to_Z_range b). nia.
Qed.

Lemma le_int_bytes n z : le_int (le_bytes n z) = z mod 256 ^ Z.of_nat n.
Proof.
  revert z. induction n as [|n IH]; intros z; [by rewrite Z.mod_1_r|].
  simpl le_bytes. simpl le_int. rewrite IH, byte_to_of.
  rewrite Nat2Z.inj_succ, Z.pow_succ_r by lia.
  rewrite Z.rem_mul_r by (try apply Z.pow_nonzero; lia). lia.
Qed.

Lemma le_bytes_int l : le_bytes (length l) (le_int l) = l.
Proof.
  induction l as [|b l IH]; [done|]. simpl.
  pose proof (byte_to_Z_range b).
  replace ((byte_to_Z b + 256 * le_int l) / 256) with (le_int l)
    by (apply Z.div_unique_pos with (byte_to_Z b); lia).
  rewrite IH. f_equal.
  by rewrite byte_of_Z_add, byte_of_to.
Qed.

Lemma le_roundtrip n z : 0 <= z < 256 ^ Z.of_nat n -> le_int (le_bytes n z) = z.
Proof. intros. rewrite le_int_bytes. by apply Z.mod_small. Qed.

Lemma be_roundtrip n z : 0 <= z < 256 ^ Z.of_nat n -> be_int (be_bytes n z) = z.
Proof.
  intros. unfold be_int, be_bytes. rewrite rev_involutive. by apply le_roundtrip.
Qed.

Lemma be_bytes_int l : be_bytes (length l) (be_int l) = l.
Proof.
  unfold be_bytes, be_int. rewrite <- (length_rev l), le_bytes_int.
  apply rev_involutive.
Qed.

Lemma le_bytes_inj n a b :
  0 <= a < 256 ^ Z.of_nat n -> 0 <= b < 256 ^ Z.of_nat n ->
  le_bytes n a = le_bytes n b -> a = b.
Proof.
  intros Ha Hb E. rewrite <- (le_roundtrip n a), <- (le_roundtrip n b) by done.
  by rewrite E.
Qed.

(** ** Lemmas on lists *)

Lemma Forall_filter {A} (P Q : A -> Prop) `{!forall x, Decision (Q x)} (l : list A) :
  Forall P l -> Forall P (filter Q l).
Proof.
  induction 1 as [|x l Hx _ IH]; [constructor|].
  rewrite filter_cons. case_decide; [by constructor|done].
Qed.

Lemma filter_none {A} (P : A -> Prop) `{Hd : !forall x, Decision (P x)} (l : list A) :
  (forall x, x ∈ l -> ~ P x) -> filter P l = [].
Proof.
  induction l as [|x l IH]; intros H; [done|].
  rewrite filter_cons_False by (apply H; set_solver). apply IH. set_solver.
Qed.

Lemma filter_ext_in {A} (P Q : A -> Prop) `{Hp : !forall x, Decision (P x)}
    `{Hq : !forall x, Decision (Q x)} (l : list A) :
  (forall x, x ∈ l -> P x <-> Q x) -> filter P l = filter Q l.
Proof.
  induction l as [|x l IH]; intros H; [done|]. rewrite !filter_cons.
  assert (Hx : P x <-> Q x) by (apply H; set_solver).
  rewrite IH by set_solver. destruct (decide (P x)), (decide (Q x)); tauto.
Qed.

#[global] Arguments le_bytes : simpl never.
#[global] Arguments be_bytes : simpl never.
#[global] Arguments zeroes : simpl never.

(** ** [omap] on lists *)

Lemma omap_cons_eq {A B} (f : A -> option B) x l :
  omap f (x :: l) = match f x with Some y => y :: omap f l | None => omap f l end.
Proof. done. Qed.

Lemma omap_filter {A B} (f : A -> option B) (P : A -> Prop) `{Hd : !forall x, Decision (P x)} (l : list A) :
  (forall x, x ∈ l -> is_Some (f x) -> P x) -> omap f l = omap f (filter P l).
Proof.
  induction l as [|x l IH]; intros H; [done|]. rewrite filter_cons. specialize (IH ltac:(set_solver)).
  case_decide as Hp; rewrite !omap_cons_eq, IH; [done|]. destruct (f x) eqn:E; [|done]. exfalso. apply Hp, H; [set_solver|eauto].
Qed.

Lemma omap_app_eq {A B} (f : A -> option B) (l1 l2 : list A) : omap f (l1 ++ l2) = omap f l1 ++ omap f l2.
Proof. induction l1 as [|x l1 IH]; [done|]. simpl app. rewrite !omap_cons_eq, IH. by destruct (f x). Qed.

Lemma omap_ext_in {A B} (f g : A -> option B) (l : list A) : (forall x, x ∈ l -> f x = g x) -> omap f l = omap g l.
Proof.
  induction l as [|x l IH]; intros H; [done|]. rewrite !omap_cons_eq, IH by set_solver.
  by rewrite (H x) by set_solver.
Qed.

Lemma omap_map {A B C} (f : B -> option C) (g : A -> B) (l : list A) : omap f (map g l) = omap (fun x => f (g x)) l.
Proof. induction l as [|x l IH]; [done|]. simpl map. rewrite !omap_cons_eq. by rewrite IH. Qed.

Lemma omap_none {A B} (f : A -> option B) (l : list A) : (forall x, x ∈ l -> f x = None) -> omap f l = [].
Proof.
  induction l as [|x l IH]; intros H; [done|]. rewrite omap_cons_eq, (H x), IH by set_solver. done.
Qed.

Lemma omap_length {A B} (f : A -> option B) (l : list A) : (length (omap f l) <= length l)%nat.
Proof. induction l as [|x l IH]; [done|]. rewrite omap_cons_eq. destruct (f x); simpl; lia. Qed.

(** Exactly one element has a value. *)
Lemma omap_one {A B} `{EqDecision A} (f : A -> option B) (l : list A) x0 v :
  NoDup l -> x0 ∈ l -> (forall x, x ∈ l -> f x = if decide (x = x0) then Some v else None) -> omap f l = [v].
Proof.
  intros Hnd Hin Hf. apply list_elem_of_split in Hin as (l1 & l2 & ->).
  apply NoDup_app in Hnd as (_ & Hd1 & Hnd2). apply NoDup_cons in Hnd2 as [Hx0 _].
  rewrite omap_app_eq, omap_cons_eq, (Hf x0), decide_True by (set_solver || done).
  rewrite !omap_none; [done|..]; intros x Hx; rewrite Hf by set_solver; rewrite decide_False; set_solver.
Qed.

(** The order in which a [HashMap] yields its keys. *)
Class HashOrder (K : Type) `{Countable K} : Type := {
  hash_keys {A} : gmap K A -> list K;
  hash_keys_perm {A} (m : gmap K A) : hash_keys m ≡ₚ map fst (map_to_list m);
}.

(** Keys in the order of the map's own enumeration, for concrete runs. *)
Definition list_order {K} `{Countable K} : HashOrder K.
Proof. refine {| hash_keys A m := map fst (map_to_list m) |}. done. Defined.
