(* ===== verification/Replay.v ===== *)
(** * Replay protection (ts_tunnel/src/wireguard/replay.rs)

    The RFC 6479 sliding window: a ring of four 64-bit blocks, its operations
    [check] and [set], an abstract specification (the set of all accepted
    counters), and the refinement between the two. *)

From S2P Require Import Prelude.

Module ReplayWindow.

(** ** The window and its constants *)

Definition TOTAL_BITS : Z := 256.
Definition N_BLOCKS : Z := TOTAL_BITS / 64.
Definition BIT_IDX_BITMASK : Z := 64 - 1.
Definition BIT_IDX_SHIFT : Z := 6.
Definition BLOCK_IDX_BITMASK : Z := N_BLOCKS - 1.
Definition WINDOW_SIZE : Z := (N_BLOCKS - 1) * 64.

(** [last] and [blocks] are a [u64] and a [[u64; 4]]. *)
Record t := mk { last : Z; blocks : list Z }.

(** [#[derive(Default)]]. *)
Definition default_window : t := mk 0 (replicate (Z.to_nat N_BLOCKS) 0).

Definition smallest_valid (w : t) : Z := saturating_sub (last w) (WINDOW_SIZE - 1).

Definition block_idx_unbounded (counter : Z) : Z := Z.shiftr counter BIT_IDX_SHIFT.

Definition bit_idx (counter : Z) : Z := Z.land counter BIT_IDX_BITMASK.

Definition block_idx_and_bit_mask (counter : Z) : nat * Z :=
  let block_idx := Z.land (block_idx_unbounded counter) BLOCK_IDX_BITMASK in
  (Z.to_nat block_idx, Z.shiftl 1 (bit_idx counter)).

(** Report whether [counter] is a new value that can be processed. *)
Definition check (w : t) (counter : Z) : outcome bool :=
  if last w <? counter then mret true
  else if counter <? smallest_valid w then mret false
  else
    let '(block_idx, bit_mask) := block_idx_and_bit_mask counter in
    b ← index (blocks w) block_idx;
    mret (Z.land b bit_mask =? 0).

(** [for i in cur..cur+n { blocks[(i + 1) & MASK] = 0 }] *)
Fixpoint zero_blocks (n : nat) (i : Z) (bs : list Z) : outcome (list Z) :=
  match n with
  | O => mret bs
  | S n =>
      let idx := Z.land (i + 1) BLOCK_IDX_BITMASK in
      bs ← store bs (Z.to_nat idx) 0;
      zero_blocks n (i + 1) bs
  end.

(** The part of [set] that slides the window forward. *)
Definition advance (w : t) (counter : Z) : outcome t :=
  if last w <? counter then
    let cur_block := block_idx_unbounded (last w) in
    let new_block := block_idx_unbounded counter in
    let delta := new_block - cur_block in
    bs ← (if N_BLOCKS <=? delta then mret (replicate (Z.to_nat N_BLOCKS) 0)
          else zero_blocks (Z.to_nat (new_block - cur_block)) cur_block (blocks w));
    mret (mk counter bs)
  else mret w.

(** Mark [counter] as seen and accepted. *)
Definition set (w : t) (counter : Z) : outcome t :=
  if counter <? smallest_valid w then Panic
  else
    w ← advance w counter;
    let '(block_idx, bit_mask) := block_idx_and_bit_mask counter in
    b ← index (blocks w) block_idx;
    if negb (Z.land b bit_mask =? 0) then Panic
    else
      bs ← store (blocks w) block_idx (Z.lor b bit_mask);
      mret (mk (last w) bs).

(** The protocol every caller follows (and the source's own test helper):
    [check], then [set] when the packet is accepted. *)
Definition check_and_set (w : t) (counter : Z) : outcome (bool * t) :=
  accept ← check w counter;
  if (accept : bool) then w ← set w counter; mret (true, w) else mret (false, w).

(** A sequence of received counters: the verdict on each of them. *)
Fixpoint run (w : t) (cs : list Z) : outcome (list bool * t) :=
  match cs with
  | [] => mret ([], w)
  | c :: cs =>
      '(a, w) ← check_and_set w c;
      '(l, w) ← run w cs;
      mret ((a :: l), w)
  end.

(** ** The specification: perfect memory of the accepted counters

    A counter is accepted iff it was not accepted before and is not older than
    the window that ends at the largest accepted counter ([0] at the start). *)
Module Spec.

Record model := mk { latest : Z; seen : gset Z }.

Definition init : model := mk 0 ∅.

Definition fresh (s : model) (c : Z) : bool :=
  bool_decide (c ∉ seen s) && (latest s - (WINDOW_SIZE - 1) <=? c).

Definition accept (s : model) (c : Z) : model := mk (Z.max (latest s) c) ({[c]} ∪ seen s).

Definition step (s : model) (c : Z) : bool * model :=
  if fresh s c then (true, accept s c) else (false, s).

Fixpoint run (s : model) (cs : list Z) : list bool * model :=
  match cs with
  | [] => ([], s)
  | c :: cs =>
      let '(a, s) := step s c in
      let '(l, s) := run s cs in
      (a :: l, s)
  end.

End Spec.

(** ** Abstraction relation

    Every bit of the four blocks that end at the block of [last] says whether
    the counter it stands for was accepted. *)
Definition bit (bs : list Z) (c : Z) : bool :=
  Z.testbit (default 0 (bs !! Z.to_nat (c / 64 mod 4))) (c mod 64).

Record rep (w : t) (s : Spec.model) : Prop := {
  rep_len : length (blocks w) = 4%nat;
  rep_last : last w = Spec.latest s;
  rep_pos : 0 <= last w;
  rep_seen : forall c, c ∈ Spec.seen s -> 0 <= c <= last w;
  rep_bits : forall c, 0 <= c -> last w / 64 - 3 <= c / 64 <= last w / 64 ->
             bit (blocks w) c = bool_decide (c ∈ Spec.seen s) }.

(** ** Arithmetic of the ring *)

Lemma block_idx_spec c : block_idx_unbounded c = c / 64.
Proof.
  unfold block_idx_unbounded, BIT_IDX_SHIFT. by rewrite Z.shiftr_div_pow2.
Qed.

Lemma bit_idx_spec c : bit_idx c = c mod 64.
Proof.
  unfold bit_idx. change BIT_IDX_BITMASK with (Z.ones 6). by rewrite Z.land_ones.
Qed.

Lemma land3 x : Z.land x BLOCK_IDX_BITMASK = x mod 4.
Proof. change BLOCK_IDX_BITMASK with (Z.ones 2). by rewrite Z.land_ones. Qed.

Lemma mask_spec c :
  block_idx_and_bit_mask c = (Z.to_nat (c / 64 mod 4), Z.shiftl 1 (c mod 64)).
Proof.
  unfold block_idx_and_bit_mask. by rewrite land3, block_idx_spec, bit_idx_spec.
Qed.

Lemma land_mask b n : 0 <= n -> (Z.land b (Z.shiftl 1 n) =? 0) = negb (Z.testbit b n).
Proof.
  intros Hn. rewrite Z.shiftl_1_l.
  destruct (Z.testbit b n) eqn:E; simpl.
  - apply Z.eqb_neq. intros H. apply (f_equal (fun z => Z.testbit z n)) in H.
    rewrite Z.land_spec, E, Z.pow2_bits_true, Z.bits_0 in H by done. done.
  - apply Z.eqb_eq. apply Z.bits_inj'. intros m Hm.
    rewrite Z.land_spec, Z.bits_0.
    destruct (decide (m = n)) as [->|]; [by rewrite E|].
    rewrite Z.pow2_bits_false by done. apply andb_false_r.
Qed.

Lemma window_blocks l c :
  0 <= l -> saturating_sub l (WINDOW_SIZE - 1) <= c <= l ->
  0 <= c /\ l / 64 - 3 <= c / 64 <= l / 64.
Proof. unfold saturating_sub. change (WINDOW_SIZE - 1) with 191. intros. split; dlia. Qed.

Lemma slot_bound c : (Z.to_nat (c mod 4) < 4)%nat.
Proof. dlia. Qed.

(** ** [check] *)

Lemma check_rep w s c :
  rep w s -> 0 <= c -> check w c = Done (Spec.fresh s c).
Proof.
  intros [Hlen Hlast Hpos Hseen Hbits] Hc. unfold check, Spec.fresh.
  destruct (last w <? c) eqn:E1; b2p.
  { rewrite bool_decide_eq_true_2 by (intros Hin; apply Hseen in Hin; lia).
    replace (_ <=? c) with true; [done|]. symmetry. apply Z.leb_le.
    rewrite <- Hlast. change (WINDOW_SIZE - 1) with 191. lia. }
  unfold smallest_valid.
  destruct (c <? _) eqn:E2; b2p.
  { unfold saturating_sub in E2. rewrite <- Hlast.
    replace (_ <=? c) with false by (symmetry; apply Z.leb_gt; lia).
    by rewrite andb_false_r. }
  replace (_ <=? c) with true
    by (symmetry; apply Z.leb_le; unfold saturating_sub in E2; lia).
  rewrite andb_true_r, mask_spec.
  destruct (window_blocks (last w) c) as [_ Hblk]; [done|lia|].
  specialize (Hbits c Hc Hblk). unfold bit in Hbits.
  destruct (lookup_lt_is_Some_2 (blocks w) (Z.to_nat (c / 64 mod 4))) as [b Hb];
    [rewrite Hlen; apply slot_bound|].
  unfold index. rewrite Hb in *. simpl in *.
  rewrite land_mask by dlia. unfold mret, outcome_ret. f_equal. rewrite Hbits.
  by rewrite bool_decide_not.
Qed.

(** ** [set] *)

Lemma bit_insert bs i v c :
  (i < length bs)%nat ->
  bit (<[i := v]> bs) c =
  if decide (i = Z.to_nat (c / 64 mod 4)) then Z.testbit v (c mod 64) else bit bs c.
Proof.
  intros Hi. unfold bit. case_decide; subst.
  - by rewrite list_lookup_insert_eq.
  - by rewrite list_lookup_insert_ne.
Qed.

Lemma bit_zeroes c : bit (replicate 4 0) c = false.
Proof.
  unfold bit. rewrite lookup_replicate_2 by apply slot_bound. apply Z.testbit_0_l.
Qed.

Lemma zero_blocks_spec n i bs :
  length bs = 4%nat -> (n < 4)%nat -> 0 <= i ->
  exists bs', zero_blocks n i bs = Done bs' /\ length bs' = 4%nat /\
  forall c, 0 <= c ->
    i + Z.of_nat n - 3 <= c / 64 <= i + Z.of_nat n ->
    bit bs' c = if i <? c / 64 then false else bit bs c.
Proof.
  revert i bs. induction n as [|n IH]; intros i bs Hlen Hn Hi; simpl.
  { exists bs. split_and!; [done|done|]. intros c Hc Hr.
    by replace (i <? c / 64) with false by (symmetry; apply Z.ltb_ge; lia). }
  rewrite land3, store_in by (rewrite Hlen; dlia). simpl.
  destruct (IH (i + 1) (<[Z.to_nat ((i + 1) mod 4) := 0]> bs)) as (bs' & E & Hlen' & Hb);
    [by rewrite length_insert|lia|lia|].
  exists bs'. split_and!; [done|done|]. intros c Hc Hr.
  rewrite Hb by lia. rewrite bit_insert by (rewrite Hlen; dlia).
  rewrite Z.testbit_0_l.
  destruct (i + 1 <? c / 64) eqn:E1; destruct (i <? c / 64) eqn:E2; b2p; try lia; try done.
  - case_decide as Hd; [done|]. destruct Hd. do 2 f_equal. lia.
  - case_decide; [|done].
    exfalso. assert ((i + 1) mod 4 = c / 64 mod 4) by dlia. dlia.
Qed.

(** Advancing the window leaves the accepted counters in place: every slot of
    the new window that stands for a counter above the old [last] is clear. *)
Lemma advance_rep w s c :
  rep w s -> 0 <= c ->
  exists w', advance w c = Done w' /\
    rep w' (Spec.mk (Z.max (Spec.latest s) c) (Spec.seen s)).
Proof.
  intros [Hlen Hlast Hpos Hseen Hbits] Hc. unfold advance.
  destruct (last w <? c) eqn:E1; b2p.
  2: { exists w. split; [done|]. split; simpl; try done. lia. }
  rewrite !block_idx_spec.
  assert (Hdiv : last w / 64 <= c / 64) by (apply Z.div_le_mono; lia).
  destruct (N_BLOCKS <=? _) eqn:E2; b2p; change N_BLOCKS with 4 in E2.
  - eexists. split; [done|]. split; simpl; [done|lia|lia| |].
    { intros x Hx. apply Hseen in Hx. lia. }
    intros x Hx Hr.
    replace (bit _ x) with false.
    + symmetry. apply bool_decide_eq_false_2. intros Hin. apply Hseen in Hin.
      assert (x / 64 <= last w / 64) by (apply Z.div_le_mono; lia). lia.
    + symmetry. apply (bit_zeroes x).
  - destruct (zero_blocks_spec (Z.to_nat (c / 64 - last w / 64)) (last w / 64) (blocks w))
      as (bs' & E & Hlen' & Hb); [done|lia|dlia|].
    rewrite E. simpl. eexists. split; [done|]. split; simpl; [done|lia|lia| |].
    { intros x Hx. apply Hseen in Hx. lia. }
    intros x Hx Hr. rewrite Hb by lia.
    destruct (last w / 64 <? x / 64) eqn:E3; b2p.
    + symmetry. apply bool_decide_eq_false_2. intros Hin. apply Hseen in Hin.
      assert (x / 64 <= last w / 64) by (apply Z.div_le_mono; lia). lia.
    + apply Hbits; lia.
Qed.

Lemma same_slot_same_counter l c x :
  l / 64 - 3 <= c / 64 <= l / 64 -> l / 64 - 3 <= x / 64 <= l / 64 ->
  Z.to_nat (c / 64 mod 4) = Z.to_nat (x / 64 mod 4) -> c / 64 = x / 64.
Proof. intros. assert (c / 64 mod 4 = x / 64 mod 4) by dlia. dlia. Qed.

Lemma set_rep w s c :
  rep w s -> 0 <= c -> Spec.fresh s c = true ->
  exists w', set w c = Done w' /\ rep w' (Spec.accept s c).
Proof.
  intros Hrep Hc Hf. unfold set.
  pose proof Hrep as [_ Hlast Hpos _ _].
  unfold Spec.fresh in Hf. apply andb_true_iff in Hf as [Hnew Hwin].
  apply bool_decide_eq_true in Hnew. b2p.
  destruct (c <? smallest_valid w) eqn:E1; b2p.
  { unfold smallest_valid, saturating_sub in E1. lia. }
  destruct (advance_rep w s c Hrep Hc) as (w1 & -> & Hrep1). simpl.
  destruct Hrep1 as [Hlen1 Hlast1 Hpos1 Hseen1 Hbits1]; simpl in *.
  assert (Hblk : last w1 / 64 - 3 <= c / 64 <= last w1 / 64).
  { apply window_blocks; [done|]. rewrite Hlast1, <- Hlast.
    unfold saturating_sub. change (WINDOW_SIZE - 1) with 191 in *. lia. }
  rewrite !land3, !block_idx_spec, !bit_idx_spec.
  pose proof (Hbits1 c Hc Hblk) as Hbc.
  rewrite bool_decide_eq_false_2 in Hbc by done. unfold bit in Hbc.
  destruct (lookup_lt_is_Some_2 (blocks w1) (Z.to_nat (c / 64 mod 4))) as [b Hb];
    [rewrite Hlen1; apply slot_bound|].
  unfold index. rewrite Hb in *. simpl in *.
  rewrite land_mask, Hbc by dlia. simpl.
  rewrite store_in by (rewrite Hlen1; dlia). simpl.
  eexists. split; [done|]. split; simpl; [by rewrite length_insert|lia|lia| |].
  { intros x Hx. apply elem_of_union in Hx as [Hx|Hx].
    - apply elem_of_singleton in Hx. lia.
    - apply Hseen1 in Hx. lia. }
  intros x Hx Hr. rewrite bit_insert by (rewrite Hlen1; dlia).
  rewrite Z.shiftl_1_l. case_decide as Hs.
  - pose proof (same_slot_same_counter _ _ _ Hblk Hr Hs) as Hq.
    pose proof (Hbits1 x Hx Hr) as Hbx. unfold bit in Hbx.
    rewrite <- Hs, Hb in Hbx. simpl in Hbx.
    rewrite Z.lor_spec, Hbx.
    destruct (decide (x = c)) as [->|Hne].
    + rewrite Z.pow2_bits_true by dlia.
      rewrite (bool_decide_eq_true_2 (c ∈ _ ∪ _)) by set_solver. apply orb_true_r.
    + rewrite Z.pow2_bits_false by dlia. rewrite orb_false_r.
      apply bool_decide_ext. set_solver.
  - rewrite Hbits1 by done. apply bool_decide_ext.
    assert (x <> c) by (intros ->; done). set_solver.
Qed.

(** [check] and [set] together refine one step of the specification. *)
Lemma check_and_set_rep w s c :
  rep w s -> 0 <= c ->
  exists w', check_and_set w c = Done ((Spec.step s c).1, w') /\ rep w' (Spec.step s c).2.
Proof.
  intros Hrep Hc. unfold check_and_set, Spec.step.
  rewrite (check_rep w s c Hrep Hc). simpl.
  destruct (Spec.fresh s c) eqn:E; simpl; [|eauto].
  destruct (set_rep w s c Hrep Hc E) as (w' & -> & Hrep'). simpl. eauto.
Qed.

Lemma default_rep : rep default_window Spec.init.
Proof.
  split; simpl; [done|done|done|set_solver|].
  intros c Hc Hr. apply (bit_zeroes c).
Qed.

(** ** The specification itself *)

Lemma spec_run_seen s cs :
  (Spec.seen s ⊆ Spec.seen (Spec.run s cs).2) /\
  forall i c, (Spec.run s cs).1 !! i = Some true -> cs !! i = Some c ->
    c ∉ Spec.seen s /\ c ∈ Spec.seen (Spec.run s cs).2.
Proof.
  revert s. induction cs as [|c cs IH]; intros s; simpl; [set_solver|].
  unfold Spec.step. destruct (Spec.fresh s c) eqn:E.
  - specialize (IH (Spec.accept s c)).
    destruct (Spec.run (Spec.accept s c) cs) as [l s'] eqn:Er; simpl in *.
    destruct IH as [Hsub Hacc].
    unfold Spec.fresh in E. b2p. apply bool_decide_eq_true in H.
    split; [set_solver|].
    intros [|i] x Hl Hx; simpl in *; simplify_eq; [set_solver|].
    destruct (Hacc i x Hl Hx). set_solver.
  - specialize (IH s). destruct (Spec.run s cs) as [l s'] eqn:Er; simpl in *.
    destruct IH as [Hsub Hacc]. split; [done|].
    intros [|i] x Hl Hx; simpl in *; simplify_eq. eauto.
Qed.

Lemma spec_no_replay s cs i j c :
  (Spec.run s cs).1 !! i = Some true -> (Spec.run s cs).1 !! j = Some true ->
  cs !! i = Some c -> cs !! j = Some c -> i = j.
Proof.
  revert s i j. induction cs as [|x cs IH]; intros s i j; simpl; [done|].
  destruct (Spec.step s x) as [a s1] eqn:Es.
  pose proof (spec_run_seen s1 cs) as [_ Hacc].
  specialize (IH s1). destruct (Spec.run s1 cs) as [l s'] eqn:Er; simpl in *.
  assert (Hx : a = true -> x ∈ Spec.seen s1).
  { unfold Spec.step in Es. destruct (Spec.fresh s x); simplify_eq; simpl; set_solver. }
  destruct i as [|i], j as [|j]; simpl; intros Hi Hj Hci Hcj; simplify_eq; try done.
  - destruct (Hacc j c Hj Hcj) as [[] _]. by apply Hx.
  - destruct (Hacc i c Hi Hci) as [[] _]. by apply Hx.
  - f_equal. eauto.
Qed.

Lemma run_rep w s cs :
  rep w s -> Forall (fun c => 0 <= c) cs ->
  exists w', run w cs = Done ((Spec.run s cs).1, w') /\ rep w' (Spec.run s cs).2.
Proof.
  intros Hrep Hcs. revert w s Hrep.
  induction Hcs as [|c cs Hc _ IH]; intros w s Hrep; simpl; [by eauto|].
  destruct (check_and_set_rep w s c Hrep Hc) as (w1 & -> & Hrep1). simpl.
  destruct (Spec.step s c) as [a s1]; simpl in *.
  destruct (IH w1 s1 Hrep1) as (w2 & -> & Hrep2). simpl.
  destruct (Spec.run s1 cs) as [l s2]; simpl in *. eauto.
Qed.

(** A counter that [check] refuses makes [set] panic, as its documentation says. *)
Lemma set_refused w s c :
  rep w s -> 0 <= c -> Spec.fresh s c = false -> set w c = Panic.
Proof.
  intros Hrep Hc Hf. pose proof (check_rep w s c Hrep Hc) as Hchk. rewrite Hf in Hchk.
  unfold check in Hchk. unfold set, advance.
  destruct (last w <? c); [discriminate|].
  destruct (c <? smallest_valid w); [done|].
  destruct (block_idx_and_bit_mask c) as [i m]. simpl.
  apply bind_Done in Hchk as (b & -> & Hb). simpl. injection Hb as ->. done.
Qed.

Definition u64 (z : Z) : Prop := 0 <= z < U64.

(** ** Properties *)

(** C19: the ring of four 64-bit blocks implements the specification with perfect
    memory: on every sequence of [u64] counters, checking and setting them one
    after the other never panics and gives each counter the verdict of the
    specification, which accepts a counter iff it was never accepted before and
    is not older than the 192-counter window behind the largest accepted one. *)
Theorem window_refines_spec (cs : list Z) :
  Forall u64 cs ->
  exists w, run default_window cs = Done ((Spec.run Spec.init cs).1, w) /\
            rep w (Spec.run Spec.init cs).2.
Proof.
  intros H. apply run_rep; [apply default_rep|].
  eapply Forall_impl; [exact H|]. intros c [? _]. done.
Qed.

Lemma window_refines_spec_witness :
  exists w, run default_window [5; 300; 5; 109; 108; 300; 109] =
            Done ([true; true; false; true; false; false; false], w).
Proof.
  destruct (window_refines_spec [5; 300; 5; 109; 108; 300; 109]) as (w & Hw & _).
  - repeat constructor; unfold u64, U64; lia.
  - exists w. rewrite Hw. vm_compute. reflexivity.
Defined.

(** No packet is accepted twice: if positions [i] and [j] of the received
    sequence carry the same counter and both were accepted, they are the same
    position, however the counters are ordered. *)
Theorem no_counter_accepted_twice (cs : list Z) (verdicts : list bool) (w : t)
    (i j : nat) (c : Z) :
  Forall u64 cs ->
  run default_window cs = Done (verdicts, w) ->
  cs !! i = Some c -> cs !! j = Some c ->
  verdicts !! i = Some true -> verdicts !! j = Some true -> i = j.
Proof.
  intros Hcs Hrun Hi Hj Vi Vj.
  destruct (run_rep default_window Spec.init cs default_rep) as (w' & Hrun' & _).
  { eapply Forall_impl; [exact Hcs|]. intros x [? _]. done. }
  rewrite Hrun' in Hrun. injection Hrun as <- <-.
  eapply spec_no_replay; eauto.
Qed.

Lemma no_counter_accepted_twice_witness :
  exists w, run default_window [7; 9; 7] = Done ([true; true; false], w) /\ 0%nat = 0%nat.
Proof.
  eexists. split; [vm_compute; reflexivity|].
  eapply (no_counter_accepted_twice [7; 9; 7] [true; true; false] _ 0 0 7);
    [repeat constructor; unfold u64, U64; lia|vm_compute; reflexivity|reflexivity..].
Defined.

(** [set] panics exactly on the counters that [check] refuses: after any
    received sequence, [check] returns a verdict and [set] succeeds iff that
    verdict is "accept". *)
Theorem set_panics_iff_refused (cs : list Z) (c : Z) :
  Forall u64 cs -> u64 c ->
  exists verdicts w v, run default_window cs = Done (verdicts, w) /\
    check w c = Done v /\
    (v = true -> exists w', set w c = Done w') /\ (v = false -> set w c = Panic).
Proof.
  intros Hcs [Hc _].
  destruct (run_rep default_window Spec.init cs default_rep) as (w & Hrun & Hrep).
  { eapply Forall_impl; [exact Hcs|]. intros x [? _]. done. }
  exists (Spec.run Spec.init cs).1, w, (Spec.fresh (Spec.run Spec.init cs).2 c).
  split_and!; [done|by apply check_rep| |by apply set_refused].
  intros Hf. destruct (set_rep _ _ c Hrep Hc Hf) as (w' & ? & _). eauto.
Qed.

Lemma set_panics_iff_refused_witness :
  exists verdicts w v, run default_window [500; 501] = Done (verdicts, w) /\
    check w 500 = Done v /\
    (v = true -> exists w', set w 500 = Done w') /\ (v = false -> set w 500 = Panic).
Proof.
  apply (set_panics_iff_refused [500; 501] 500);
    repeat constructor; unfold u64, U64; lia.
Defined.

End ReplayWindow.
