(* ===== verification/Tai64n.v ===== *)
(** * Handshake timestamps (ts_tunnel/src/wireguard/time.rs)

    The TAI64N timestamps of WireGuard handshake initiations, the whitening of
    their nanoseconds, and the clock that keeps them strictly increasing whatever
    the system clock does. *)

From Stdlib Require Import Sorting.Sorted.
From S2P Require Import Prelude.

Module TAI64N.

(** [secs] is a big-endian [u64], [nanos] a big-endian [u32]. *)
Record t := mk { secs : Z; nanos : Z }.

#[global] Instance t_eq_dec : EqDecision t.
Proof. solve_decision. Defined.

Definition TAI_BASE : Z := 0x400000000000000a.
Definition WHITEN_MASK : Z := not_w 32 0xFFFFFF.
Definition WHITEN_INCREMENT : Z := not_w 32 WHITEN_MASK + 1.

(** The derived [PartialOrd]: lexicographic on the fields. *)
Definition ltb (a b : t) : bool :=
  (secs a <? secs b) || ((secs a =? secs b) && (nanos a <? nanos b)).

(** The wire form: 12 bytes, big-endian fields. *)
Definition to_bytes (a : t) : list byte := be_bytes 8 (secs a) ++ be_bytes 4 (nanos a).

Definition of_bytes (l : list byte) : option t :=
  if decide (length l = 12%nat) then
    Some (mk (be_int (take 8 l)) (be_int (drop 8 l)))
  else None.

(** A [SystemTime] is the signed number of nanoseconds since [UNIX_EPOCH]. *)
Definition NANOS_PER_SEC : Z := 1000000000.

Definition from_systemtime (v : Z) : outcome t :=
  if v <? 0 then
    let now := - v in
    let as_secs := now / NANOS_PER_SEC in
    let subsec_nanos := now mod NANOS_PER_SEC in
    '(secs, nanos) ←
      (if subsec_nanos =? 0 then mret (as_secs, 0)
       else (s ← add_w 64 as_secs 1; mret (s, 1000000000 - subsec_nanos)));
    secs ← sub_w TAI_BASE secs;
    mret (mk secs (Z.land nanos WHITEN_MASK))
  else
    let as_secs := v / NANOS_PER_SEC in
    let subsec_nanos := v mod NANOS_PER_SEC in
    secs ← add_w 64 TAI_BASE as_secs;
    mret (mk secs (Z.land subsec_nanos WHITEN_MASK)).

(** [u32::overflowing_add]. *)
Definition overflowing_add32 (x y : Z) : Z * bool :=
  ((x + y) mod U32, U32 <=? x + y).

Definition clamp_after (self min : t) : outcome t :=
  if ltb min self then mret self
  else
    let '(nanos', carry) := overflowing_add32 (nanos min) WHITEN_INCREMENT in
    secs' ← (if (carry : bool) then add_w 64 (secs min) 1 else mret (secs min));
    mret (mk secs' (Z.land nanos' WHITEN_MASK)).

(** ** The clock *)
Module Clock.

Record clock := mk { last : TAI64N.t }.

Definition new : clock := mk (TAI64N.mk 0 0).

(** [now], with the value that [SystemTime::now()] returned. *)
Definition now (c : clock) (systemtime : Z) : outcome (TAI64N.t * clock) :=
  st ← from_systemtime systemtime;
  l ← clamp_after st (last c);
  mret (l, mk l).

(** Successive calls, one per system-time reading. *)
Fixpoint issue (c : clock) (times : list Z) : outcome (list TAI64N.t * clock) :=
  match times with
  | [] => mret ([], c)
  | v :: times =>
      '(a, c) ← now c v;
      '(l, c) ← issue c times;
      mret ((a :: l), c)
  end.

End Clock.

(** ** Order and whitening *)

Definition lt (a b : t) : Prop := ltb a b = true.

Lemma lt_iff a b : lt a b <-> secs a < secs b \/ (secs a = secs b /\ nanos a < nanos b).
Proof.
  unfold lt, ltb. rewrite orb_true_iff, andb_true_iff, !Z.ltb_lt, Z.eqb_eq. tauto.
Qed.

#[global] Instance lt_strict : StrictOrder lt.
Proof.
  split.
  - intros a Ha. apply lt_iff in Ha. lia.
  - intros a b c. rewrite !lt_iff. lia.
Qed.

Definition valid (a : t) : Prop := 0 <= secs a < U64 /\ 0 <= nanos a < U32.

Lemma whiten_spec n : 0 <= n < U32 -> Z.land n WHITEN_MASK = n - n mod 2 ^ 24.
Proof.
  intros Hn. replace (Z.land n WHITEN_MASK) with (Z.shiftl (Z.shiftr n 24) 24).
  - rewrite Z.shiftl_mul_pow2, Z.shiftr_div_pow2 by lia. dlia.
  - apply Z.bits_inj'. intros i Hi. rewrite Z.land_spec.
    change WHITEN_MASK with (Z.shiftl (Z.ones 8) 24).
    rewrite !Z.shiftl_spec by lia.
    destruct (Z.ltb_spec i 24).
    + rewrite !(Z.testbit_neg_r _ (i - 24)) by lia. by rewrite andb_false_r.
    + rewrite Z.shiftr_spec by lia. replace (i - 24 + 24) with i by lia.
      destruct (Z.ltb_spec i 32).
      * rewrite Z.ones_spec_low by lia. by rewrite andb_true_r.
      * rewrite Z.ones_spec_high by lia. rewrite andb_false_r.
        rewrite <- (Z.mod_small n (2 ^ 32)) by done.
        by rewrite Z.mod_pow2_bits_high by lia.
Qed.

Lemma whiten_range n : 0 <= n < U32 -> 0 <= Z.land n WHITEN_MASK <= n.
Proof. intros. rewrite whiten_spec by done. dlia. Qed.

Definition whitened (a : t) : Prop := nanos a mod 2 ^ 24 = 0.

Lemma whiten_low n : 0 <= n < U32 -> Z.land n WHITEN_MASK mod 2 ^ 24 = 0.
Proof. intros. rewrite whiten_spec by done. dlia. Qed.

(** ** [clamp_after] *)

Lemma clamp_after_Done self min r :
  valid self -> valid min -> clamp_after self min = Done r ->
  valid r /\ lt min r /\ (r = self \/ (whitened r /\ secs r <= secs min + 1)).
Proof.
  intros Hs Hm. unfold clamp_after, overflowing_add32.
  change WHITEN_INCREMENT with (2 ^ 24).
  destruct (ltb min self) eqn:E.
  { intros ?. done_inv. split_and!; auto. }
  intros H. destruct Hm as [Hms Hmn].
  apply bind_Done in H as (s & Hs' & ?). done_inv.
  pose proof (Z.mod_pos_bound (nanos min + 2 ^ 24) U32 ltac:(unfold U32; lia)) as Hb.
  pose proof (whiten_range _ Hb). pose proof (whiten_low _ Hb) as Hw.
  assert (Hsv : 0 <= s < U64 /\ lt min (mk s (Z.land ((nanos min + 2 ^ 24) mod U32) WHITEN_MASK))
                /\ s <= secs min + 1).
  { rewrite lt_iff. simpl. destruct (U32 <=? _) eqn:Ec; b2p.
    - unfold add_w in Hs'. destruct (_ <? _) eqn:?; [|done]. done_inv. b2p.
      unfold U64. lia.
    - done_inv. rewrite whiten_spec in * by done.
      rewrite (Z.mod_small (_ + _)) in * by lia. dlia. }
  destruct Hsv as (? & ? & ?). split_and!; [split; simpl; lia|done|].
  right. split; [exact Hw|done].
Qed.

Lemma clamp_after_no_panic self min :
  valid min -> secs min + 1 < U64 -> exists r, clamp_after self min = Done r.
Proof.
  intros Hm Hb. unfold clamp_after. destruct (ltb min self); [by eauto|].
  unfold overflowing_add32. case_goal; simpl; [|eauto].
  unfold add_w. rewrite (proj2 (Z.ltb_lt _ _)) by exact Hb. simpl. eauto.
Qed.

(** ** [From<SystemTime>] *)

(** System times whose second count fits comfortably in the TAI64 label range:
    2^62 seconds (146 billion years) on either side of the epoch. *)
Definition sane_time (v : Z) : Prop := - 2 ^ 62 * NANOS_PER_SEC < v < 2 ^ 62 * NANOS_PER_SEC.

Lemma from_systemtime_spec v :
  sane_time v ->
  from_systemtime v =
    Done (mk (TAI_BASE + v / NANOS_PER_SEC) (Z.land (v mod NANOS_PER_SEC) WHITEN_MASK)).
Proof.
  unfold sane_time, from_systemtime, add_w, sub_w, NANOS_PER_SEC, TAI_BASE.
  intros Hv. destruct (v <? 0) eqn:E; b2p.
  - destruct (_ =? 0) eqn:E0; b2p; simpl.
    + rewrite (proj2 (Z.leb_le _ _)) by dlia. simpl. unfold mret, outcome_ret.
      f_equal. f_equal; [dlia|]. replace (v mod 1000000000) with 0 by dlia. done.
    + rewrite (proj2 (Z.ltb_lt _ _)) by dlia. simpl.
      rewrite (proj2 (Z.leb_le _ _)) by dlia. simpl. unfold mret, outcome_ret.
      f_equal. f_equal; [dlia|]. f_equal. dlia.
  - rewrite (proj2 (Z.ltb_lt _ _)) by dlia. done.
Qed.

Lemma from_systemtime_valid v r :
  sane_time v -> from_systemtime v = Done r ->
  valid r /\ whitened r /\ secs r < TAI_BASE + 2 ^ 62.
Proof.
  intros Hv. rewrite from_systemtime_spec by done. intros ?. done_inv.
  unfold sane_time, valid, whitened, NANOS_PER_SEC, TAI_BASE, U64 in *. simpl.
  pose proof (Z.mod_pos_bound v 1000000000 ltac:(lia)).
  assert (0 <= v mod 1000000000 < U32) as Hr by (unfold U32; lia).
  pose proof (whiten_range _ Hr). pose proof (whiten_low _ Hr).
  split_and!; [dlia|dlia|lia|unfold U32; lia|done|dlia].
Qed.

(** ** The clock *)

Lemma clock_now_Done c v a c' :
  valid (Clock.last c) -> sane_time v -> Clock.now c v = Done (a, c') ->
  Clock.last c' = a /\ valid a /\ lt (Clock.last c) a /\ whitened a /\
  secs a <= Z.max (TAI_BASE + 2 ^ 62) (secs (Clock.last c) + 1).
Proof.
  intros Hc Hv H. unfold Clock.now in H.
  apply bind_Done in H as (st & Hst & H). apply bind_Done in H as (l & Hl & ?). done_inv.
  destruct (from_systemtime_valid _ _ Hv Hst) as (Hvst & Hwst & Hsst).
  destruct (clamp_after_Done _ _ _ Hvst Hc Hl) as (? & ? & [->|[? ?]]);
    split_and!; auto; lia.
Qed.

Lemma clock_now_no_panic c v :
  valid (Clock.last c) -> secs (Clock.last c) + 1 < U64 -> sane_time v ->
  exists a c', Clock.now c v = Done (a, c').
Proof.
  intros Hc Hb Hv. unfold Clock.now. rewrite from_systemtime_spec by done. simpl.
  destruct (clamp_after_no_panic (mk (TAI_BASE + v / NANOS_PER_SEC)
      (Z.land (v mod NANOS_PER_SEC) WHITEN_MASK)) (Clock.last c) Hc Hb) as [r ->].
  simpl. eauto.
Qed.

Lemma issue_increasing c times l c' :
  valid (Clock.last c) -> Forall sane_time times ->
  Clock.issue c times = Done (l, c') ->
  StronglySorted lt l /\ Forall (lt (Clock.last c)) l /\ Forall whitened l /\
  length l = length times.
Proof.
  intros Hc Ht. revert c l c' Hc.
  induction Ht as [|v times Hv _ IH]; intros c l c' Hc H; simpl in H.
  { done_inv. split_and!; constructor. }
  apply bind_Done in H as ([a c1] & Hn & H). apply bind_Done in H as ([l1 c2] & Hi & H).
  done_inv.
  destruct (clock_now_Done _ _ _ _ Hc Hv Hn) as (Hl & Hva & Hlt & Hw & _).
  rewrite <- Hl in Hva.
  destruct (IH _ _ _ Hva Hi) as (Hs & Hf & Hws & Hlen). rewrite Hl in *.
  split_and!; [by constructor| |by constructor|simpl; by rewrite Hlen].
  constructor; [done|]. eapply Forall_impl; [exact Hf|].
  intros x Hx. by transitivity a.
Qed.

Lemma issue_no_panic c times :
  valid (Clock.last c) -> Forall sane_time times ->
  Z.max (TAI_BASE + 2 ^ 62) (secs (Clock.last c)) + Z.of_nat (length times) < U64 ->
  exists l c', Clock.issue c times = Done (l, c').
Proof.
  intros Hc Ht. revert c Hc.
  induction Ht as [|v times Hv _ IH]; intros c Hc Hb; simpl; [by eauto|].
  destruct (clock_now_no_panic c v Hc) as (a & c1 & Hn); [simpl in Hb; lia|done|].
  rewrite Hn. simpl.
  destruct (clock_now_Done _ _ _ _ Hc Hv Hn) as (Hl & Hva & _ & _ & Hsa).
  rewrite <- Hl in Hva, Hsa.
  destruct (IH c1 Hva) as (l & c2 & ->); [simpl in Hb; lia|]. simpl. eauto.
Qed.

Lemma of_to_bytes a : valid a -> of_bytes (to_bytes a) = Some a.
Proof.
  intros [Hs Hn]. unfold of_bytes, to_bytes.
  rewrite decide_True by (by rewrite length_app, !be_bytes_length).
  rewrite take_app_length', drop_app_length' by (by rewrite be_bytes_length).
  rewrite !be_roundtrip by done. by destruct a.
Qed.

(** ** Properties *)

(** C30: successive handshake timestamps strictly increase whatever the system clock
    does (jumps back included), their nanoseconds are multiples of 2^24, and the
    clock never panics, for up to 2^61 timestamps and system times within 2^62
    seconds of the epoch. *)
Theorem clock_strictly_increasing (times : list Z) :
  Forall sane_time times -> Z.of_nat (length times) < 2 ^ 61 ->
  exists l c, Clock.issue Clock.new times = Done (l, c) /\
    length l = length times /\ StronglySorted lt l /\ Forall whitened l.
Proof.
  intros Ht Hn.
  assert (Hv : valid (Clock.last Clock.new)) by (split; simpl; unfold U64, U32; lia).
  destruct (issue_no_panic Clock.new times Hv Ht) as (l & c & E).
  { simpl. unfold TAI_BASE, U64. lia. }
  destruct (issue_increasing _ _ _ _ Hv Ht E) as (? & _ & ? & ?). eauto 10.
Qed.

Lemma clock_strictly_increasing_witness :
  exists l c, Clock.issue Clock.new
    [1700000000000000000; 1699996400000000000; 1699996410000000000; 1700000001000000000]
    = Done (l, c) /\ length l = 4%nat /\ StronglySorted lt l /\ Forall whitened l.
Proof.
  apply (clock_strictly_increasing
    [1700000000000000000; 1699996400000000000; 1699996410000000000; 1700000001000000000]).
  - repeat constructor; unfold sane_time, NANOS_PER_SEC; lia.
  - simpl. lia.
Defined.

(** A timestamp of the system clock is used unchanged when it is later than the
    last one issued. *)
Lemma clock_follows_system c v a :
  from_systemtime v = Done a -> lt (Clock.last c) a ->
  Clock.now c v = Done (a, Clock.mk a).
Proof.
  intros Hf Hlt. unfold Clock.now. rewrite Hf. simpl.
  unfold clamp_after. rewrite Hlt. done.
Qed.

End TAI64N.
