(* ===== verification/Scheduler.v ===== *)
(** * Event scheduling (ts_time/src/lib.rs)

    Time ranges, the scheduler's queue (a vector sorted by descending start
    time), the handles that cancel or reschedule an event, and the range in which
    the next dispatch should happen. *)

From Stdlib Require Import Sorting.Sorted.
From S2P Require Import Prelude.

(** ** Time ranges *)
Module TimeRange.

(** An [Instant] is a number of nanoseconds; a [Duration] is one too. *)
Record range := mk { start : Z; end_ : Z }.

(** The seconds of an [Instant] are an [i64] (the Unix [Timespec]). *)
Definition instant_ok (t : Z) : bool :=
  (- 2 ^ 63 * 10 ^ 9 <=? t) && (t <? 2 ^ 63 * 10 ^ 9).

Definition checked_sub (t d : Z) : option Z :=
  if instant_ok (t - d) then Some (t - d) else None.

Definition checked_add (t d : Z) : option Z :=
  if instant_ok (t + d) then Some (t + d) else None.

(** [assert!(start <= end)] *)
Definition new (start end_ : Z) : outcome range :=
  if start <=? end_ then mret (mk start end_) else Panic.

Definition new_around (t plus_minus : Z) : outcome range :=
  new (default t (checked_sub t plus_minus)) (default t (checked_add t plus_minus)).

Definition contains (r : range) (t : Z) : bool := (start r <=? t) && (t <=? end_ r).

(** [impl From<TimeRange> for Duration]. *)
Definition to_duration (r : range) : Z := end_ r - start r.

Definition ok (r : range) : Prop := start r <= end_ r.

Lemma new_around_ok t d :
  0 <= d -> exists r, new_around t d = Done r /\ ok r /\ contains r t = true.
Proof.
  intros Hd. unfold new_around, new, checked_sub, checked_add, contains, ok.
  assert (Hs : exists a, default t (if instant_ok (t - d) then Some (t - d) else None) = a
            /\ a <= t) by (case_goal; simpl; eexists; split; eauto; lia).
  assert (He : exists b, default t (if instant_ok (t + d) then Some (t + d) else None) = b
            /\ t <= b) by (case_goal; simpl; eexists; split; eauto; lia).
  destruct Hs as (a & -> & Ha), He as (b & -> & Hb).
  rewrite (proj2 (Z.leb_le a b)) by lia. eexists. split; [done|]. simpl.
  rewrite !(proj2 (Z.leb_le _ _)) by lia. split; [lia|done].
Qed.

End TimeRange.

Module Scheduler.

Section Scheduler.
Context {E : Type}.

(** A [FutureEvent] is kept behind an [Arc]; [ev_id] is the identity of that
    allocation, which [Arc::ptr_eq] compares. *)
Record FutureEvent := mkEvent { ev_id : nat; when_ : TimeRange.range; what : E }.

(** [next_id] is the next fresh allocation. *)
Record t := mk { events : list FutureEvent; next_id : nat }.

(** A handle holds a weak pointer to its event. *)
Record Handle := mkHandle { h_event : nat }.

Definition default_ : t := mk [] 0.

Definition ev_start (e : FutureEvent) : Z := TimeRange.start (when_ e).
Definition ev_end (e : FutureEvent) : Z := TimeRange.end_ (when_ e).

(** [slice::partition_point] with the predicate [start > t]: the length of the
    leading run of events that start after [t]. *)
Fixpoint partition_point (evs : list FutureEvent) (t : Z) : nat :=
  match evs with
  | [] => O
  | e :: evs => if t <? ev_start e then S (partition_point evs t) else O
  end.

Fixpoint find_from (evs : list FutureEvent) (event : FutureEvent) (i : nat) : option nat :=
  match evs with
  | [] => None
  | other :: evs =>
      if negb (ev_start other =? ev_start event) then None
      else if decide (ev_id event = ev_id other) then Some i
      else find_from evs event (S i)
  end.

Definition find (evs : list FutureEvent) (event : FutureEvent) : option nat :=
  let idx := partition_point evs (ev_start event) in
  find_from (drop idx evs) event idx.

(** [Vec::insert] and [Vec::remove]. *)
Definition vec_insert {A} (l : list A) (i : nat) (x : A) : list A :=
  take i l ++ x :: drop i l.

Definition vec_remove {A} (l : list A) (i : nat) : list A := take i l ++ drop (S i) l.

Definition add (s : t) (when : TimeRange.range) (what : E) : Handle * t :=
  let event := mkEvent (next_id s) when what in
  let idx := partition_point (events s) (TimeRange.start when) in
  (mkHandle (next_id s), mk (vec_insert (events s) idx event) (S (next_id s))).

Definition clear (s : t) : t := mk [] (next_id s).

(** [dispatch]: the events that were removed, in the order of the iterator. *)
Definition dispatch (s : t) (now : Z) : list E * t :=
  let idx := partition_point (events s) now in
  let to_dispatch := drop idx (events s) in
  (map what (rev to_dispatch), mk (take idx (events s)) (next_id s)).

(** The loop of [next_dispatch_range] over the events in reverse order. *)
Fixpoint tighten (end_ : Z) (evs : list FutureEvent) : Z :=
  match evs with
  | [] => end_
  | e :: evs =>
      if end_ <? ev_start e then end_ else tighten (Z.min end_ (ev_end e)) evs
  end.

Definition next_dispatch_range (s : t) : outcome (option TimeRange.range) :=
  match rev (events s) with
  | [] => mret None
  | e :: rest =>
      r ← TimeRange.new (ev_start e) (tighten (ev_end e) rest);
      mret (Some r)
  end.

Definition next_dispatch (s : t) : outcome (option Z) :=
  r ← next_dispatch_range s; Done (option_map TimeRange.end_ r).

(** [Weak::upgrade]: the event, while the queue still holds it. *)
Definition upgrade (s : t) (h : Handle) : option FutureEvent :=
  List.find (fun e => Nat.eqb (ev_id e) (h_event h)) (events s).

Definition cancel (s : t) (h : Handle) : t :=
  match upgrade s h with
  | None => s
  | Some event =>
      match find (events s) event with
      | None => s
      | Some idx => mk (vec_remove (events s) idx) (next_id s)
      end
  end.

Definition reschedule (s : t) (h : Handle) (when : TimeRange.range) : option Handle * t :=
  match upgrade s h with
  | None => (None, s)
  | Some event =>
      match find (events s) event with
      | None => (None, s)
      | Some idx =>
          let evs := vec_remove (events s) idx in
          let event := mkEvent (ev_id event) when (what event) in
          let idx := partition_point evs (TimeRange.start when) in
          (Some (mkHandle (ev_id event)), mk (vec_insert evs idx event) (next_id s))
      end
  end.

(** ** Invariant *)

Definition desc (a b : FutureEvent) : Prop := ev_start b <= ev_start a.

Record inv (s : t) : Prop := {
  inv_sorted : StronglySorted desc (events s);
  inv_ranges : Forall (fun e => TimeRange.ok (when_ e)) (events s);
  inv_ids : NoDup (map ev_id (events s));
  inv_fresh : Forall (fun e => (ev_id e < next_id s)%nat) (events s) }.

(** ** Sorted vectors *)

Lemma ss_app (l1 l2 : list FutureEvent) :
  StronglySorted desc (l1 ++ l2) <->
  StronglySorted desc l1 /\ StronglySorted desc l2 /\
  (forall a b, a ∈ l1 -> b ∈ l2 -> desc a b).
Proof.
  induction l1 as [|x l1 IH]; simpl.
  { split; [intros; split_and!; [constructor|done|set_solver]|tauto]. }
  split.
  - intros H. inversion H as [|?? Hs Hf]; subst. apply IH in Hs as (H1 & H2 & H3).
    rewrite Forall_app in Hf. destruct Hf as [Hf1 Hf2].
    split_and!; [by constructor|done|].
    intros a b Ha Hb. apply elem_of_cons in Ha as [->|Ha]; [|auto].
    rewrite Forall_forall in Hf2. auto.
  - intros (H1 & H2 & H3). inversion H1 as [|?? Hs Hf]; subst. constructor.
    + apply IH. split_and!; [done|done|]. intros. apply H3; set_solver.
    + rewrite Forall_app. split; [done|]. rewrite Forall_forall. intros. apply H3; set_solver.
Qed.

(** In a sorted vector the partition point separates the events that start after
    [t] from the others. *)
Lemma partition_split evs t :
  StronglySorted desc evs ->
  Forall (fun e => t < ev_start e) (take (partition_point evs t) evs) /\
  Forall (fun e => ev_start e <= t) (drop (partition_point evs t) evs).
Proof.
  induction 1 as [|e evs Hs IH Hf]; simpl; [done|].
  destruct (t <? ev_start e) eqn:Et; b2p; simpl.
  - destruct IH. split; [by constructor|done].
  - split; [done|]. constructor; [done|].
    eapply Forall_impl; [exact Hf|]. unfold desc. intros. lia.
Qed.

Lemma partition_filter evs t :
  StronglySorted desc evs ->
  take (partition_point evs t) evs = filter (fun e => t < ev_start e) evs /\
  drop (partition_point evs t) evs = filter (fun e => ev_start e <= t) evs.
Proof.
  induction 1 as [|e evs Hs IH Hf]; simpl; [done|].
  rewrite !filter_cons. destruct (t <? ev_start e) eqn:Et; b2p; simpl.
  - rewrite decide_True, decide_False by lia. destruct IH as [-> ->]. done.
  - rewrite decide_False, decide_True by lia.
    assert (Hall : Forall (fun x => ev_start x <= t) evs)
      by (eapply Forall_impl; [exact Hf|]; unfold desc; intros; lia).
    split.
    + symmetry. clear -Hall. induction Hall; [done|].
      rewrite filter_cons, decide_False by lia. done.
    + f_equal. symmetry. clear -Hall. induction Hall; [done|].
      rewrite filter_cons, decide_True by lia. by f_equal.
Qed.

Lemma vec_insert_perm {A} (l : list A) i x : vec_insert l i x ≡ₚ x :: l.
Proof.
  unfold vec_insert. rewrite <- Permutation_middle. by rewrite take_drop.
Qed.

Lemma insert_sorted evs e :
  StronglySorted desc evs ->
  StronglySorted desc (vec_insert evs (partition_point evs (ev_start e)) e).
Proof.
  intros Hs. pose proof (partition_split evs (ev_start e) Hs) as [H1 H2].
  set (i := partition_point evs (ev_start e)) in *. unfold vec_insert.
  rewrite <- (take_drop i evs) in Hs. apply ss_app in Hs as (S1 & S2 & S3).
  rewrite Forall_forall in H1, H2.
  apply ss_app. split_and!; [done| |].
  - constructor; [done|]. rewrite Forall_forall. intros. apply H2. done.
  - intros a b Ha Hb. apply elem_of_cons in Hb as [->|Hb]; [|auto].
    unfold desc. specialize (H1 _ Ha). lia.
Qed.

Lemma remove_sorted evs i :
  StronglySorted desc evs -> StronglySorted desc (vec_remove evs i).
Proof.
  intros Hs. unfold vec_remove. rewrite <- (take_drop i evs) in Hs.
  apply ss_app in Hs as (S1 & S2 & S3). apply ss_app.
  assert (Hd : drop (S i) evs = drop 1 (drop i evs)) by (rewrite drop_drop; f_equal; lia).
  rewrite Hd. destruct (drop i evs) as [|x l] eqn:Ed; simpl.
  - split_and!; [done|constructor|set_solver].
  - inversion S2; subst. rewrite drop_0. split_and!; [done|done|]. intros. apply S3; set_solver.
Qed.

Lemma vec_remove_perm {A} (l : list A) i x :
  l !! i = Some x -> l ≡ₚ x :: vec_remove l i.
Proof.
  intros H. unfold vec_remove. rewrite <- (take_drop_middle l i x H) at 1.
  by rewrite Permutation_middle.
Qed.

(** ** Handles *)

Lemma find_from_found evs l1 e l2 i :
  evs = l1 ++ e :: l2 -> (forall x, x ∈ l1 -> ev_start x = ev_start e /\ ev_id x <> ev_id e) ->
  find_from evs e i = Some (i + length l1)%nat.
Proof.
  intros ->. revert i. induction l1 as [|x l1 IH]; intros i Hl; simpl.
  - rewrite Z.eqb_refl. simpl. rewrite decide_True by done. f_equal. lia.
  - destruct (Hl x) as [Hx Hid]; [set_solver|]. rewrite Hx, Z.eqb_refl. simpl.
    rewrite decide_False by congruence. rewrite IH by (intros; apply Hl; set_solver).
    f_equal. lia.
Qed.

Lemma find_spec s e :
  inv s -> e ∈ events s ->
  exists i, find (events s) e = Some i /\ events s !! i = Some e.
Proof.
  intros [Hs _ Hid _] He. unfold find.
  pose proof (partition_split (events s) (ev_start e) Hs) as [H1 H2].
  set (k := partition_point (events s) (ev_start e)) in *.
  rewrite Forall_forall in H1, H2.
  pose proof Hs as Hs'. rewrite <- (take_drop k (events s)) in He, Hs', Hid.
  apply elem_of_app in He as [He|He]; [specialize (H1 _ He); simpl in H1; lia|].
  apply list_elem_of_split in He as (l1 & l2 & Hd).
  apply ss_app in Hs' as (_ & S2 & _). rewrite map_app in Hid.
  apply NoDup_app in Hid as (_ & _ & Hid). rewrite Hd in H2, S2, Hid.
  exists (k + length l1)%nat. split.
  - apply (find_from_found _ l1 e l2); [done|]. intros x Hx.
    apply ss_app in S2 as (_ & _ & S3).
    specialize (H2 x ltac:(set_solver)). specialize (S3 x e Hx ltac:(set_solver)).
    unfold desc in S3. simpl in H2. split; [lia|].
    intros Heq. rewrite map_app in Hid. apply NoDup_app in Hid as (_ & Hn & _).
    apply (Hn (ev_id x)); [by apply list_elem_of_fmap_2|].
    simpl. rewrite Heq. set_solver.
  - rewrite <- lookup_drop, Hd. rewrite lookup_app_r by lia.
    by rewrite Nat.sub_diag.
Qed.

Lemma upgrade_Some s h e :
  upgrade s h = Some e -> e ∈ events s /\ ev_id e = h_event h.
Proof.
  unfold upgrade. intros H. apply List.find_some in H as [H1 H2].
  split; [by apply list_elem_of_In|by apply Nat.eqb_eq].
Qed.

Lemma upgrade_None s h :
  upgrade s h = None -> forall e, e ∈ events s -> ev_id e <> h_event h.
Proof.
  unfold upgrade. intros H e He. apply list_elem_of_In in He.
  pose proof (List.find_none _ _ H e He) as Hn. simpl in Hn. by apply Nat.eqb_neq.
Qed.

(** ** The operations keep the invariant *)

(** The invariant only depends on the events up to permutation, but for the order. *)
Lemma inv_of_perm s evs' n' evs0 :
  inv s -> StronglySorted desc evs' -> evs' ≡ₚ evs0 ->
  Forall (fun e => TimeRange.ok (when_ e)) evs0 -> NoDup (map ev_id evs0) ->
  Forall (fun e => (ev_id e < n')%nat) evs0 -> inv (mk evs' n').
Proof.
  intros _ Hs Hp H1 H2 H3. split; simpl; try done; by rewrite Hp.
Qed.

Lemma add_inv s when what : inv s -> TimeRange.ok when -> inv (add s when what).2.
Proof.
  intros Hi Hok. pose proof Hi as [Hs Hr Hid Hf]. simpl.
  eapply (inv_of_perm s _ _ (mkEvent (next_id s) when what :: events s)); [done| | | | |].
  - by apply (insert_sorted _ (mkEvent (next_id s) when what)).
  - apply vec_insert_perm.
  - by constructor.
  - simpl. constructor; [|done]. intros Hin.
    apply list_elem_of_fmap in Hin as (e & He & Hin).
    rewrite Forall_forall in Hf. specialize (Hf _ Hin). lia.
  - constructor; simpl; [lia|]. eapply Forall_impl; [exact Hf|]. simpl. lia.
Qed.

Lemma remove_inv s i e :
  inv s -> events s !! i = Some e -> inv (mk (vec_remove (events s) i) (next_id s)).
Proof.
  intros [Hs Hr Hid Hf] He. pose proof (vec_remove_perm _ _ _ He) as Hp.
  rewrite Hp in Hr, Hid, Hf. inversion Hr; subst. inversion Hf; subst.
  simpl in Hid. apply NoDup_cons in Hid as [_ Hid].
  split; simpl; try done. by apply remove_sorted.
Qed.

Lemma cancel_inv s h : inv s -> inv (cancel s h).
Proof.
  intros Hi. unfold cancel. destruct (upgrade s h) as [e|] eqn:Eu; [|done].
  apply upgrade_Some in Eu as [He _]. destruct (find_spec s e Hi He) as (i & -> & Hl).
  by eapply remove_inv.
Qed.

Lemma reschedule_inv s h when :
  inv s -> TimeRange.ok when -> inv (reschedule s h when).2.
Proof.
  intros Hi Hok. unfold reschedule. destruct (upgrade s h) as [e|] eqn:Eu; [|done].
  apply upgrade_Some in Eu as [He _]. destruct (find_spec s e Hi He) as (i & -> & Hl).
  pose proof (remove_inv s i e Hi Hl) as Hi'. pose proof Hi as [Hs Hr Hid Hf].
  pose proof (vec_remove_perm _ _ _ Hl) as Hp. rewrite Hp in Hid, Hf.
  simpl in Hid. pose proof Hi' as [Hs' Hr' Hid' Hf']. simpl in *.
  eapply (inv_of_perm s _ _ (mkEvent (ev_id e) when (what e) :: vec_remove (events s) i));
    [done| | | | |].
  - by apply (insert_sorted _ (mkEvent (ev_id e) when (what e))).
  - apply vec_insert_perm.
  - by constructor.
  - exact Hid.
  - inversion Hf; subst. by constructor.
Qed.

Lemma dispatch_inv s now : inv s -> inv (dispatch s now).2.
Proof.
  intros [Hs Hr Hid Hf]. simpl. set (i := partition_point _ _).
  rewrite <- (take_drop i (events s)) in Hs, Hr, Hid, Hf.
  apply ss_app in Hs as (? & _ & _). rewrite map_app in Hid.
  apply NoDup_app in Hid as (? & _ & _).
  apply Forall_app in Hr as [? _]. apply Forall_app in Hf as [? _]. by split.
Qed.

Lemma clear_inv s : inv (clear s).
Proof. split; simpl; constructor. Qed.

Lemma default_inv : inv default_.
Proof. split; simpl; constructor. Qed.

(** ** The dispatch range *)

Definition is_min (f : FutureEvent -> Z) (evs : list FutureEvent) (m : Z) : Prop :=
  (exists e, e ∈ evs /\ f e = m) /\ forall e, e ∈ evs -> m <= f e.

Definition asc (a b : FutureEvent) : Prop := ev_start a <= ev_start b.

Lemma tighten_spec evs end_ lo :
  StronglySorted asc evs -> Forall (fun e => TimeRange.ok (when_ e)) evs ->
  Forall (fun e => lo <= ev_start e) evs -> lo <= end_ ->
  lo <= tighten end_ evs <= end_ /\
  (tighten end_ evs = end_ \/ exists e, e ∈ evs /\ ev_end e = tighten end_ evs) /\
  (forall e, e ∈ evs -> tighten end_ evs <= ev_end e).
Proof.
  intros Hs. revert end_. induction Hs as [|e evs Hs IH Hf]; intros end_ Hr Hlo Hle; simpl.
  { split_and!; [done|lia|by left|set_solver]. }
  inversion Hr as [|?? Hre Hr']; subst. inversion Hlo as [|?? Hle' Hlo']; subst.
  unfold TimeRange.ok in Hre. fold (ev_start e) (ev_end e) in Hre.
  destruct (end_ <? ev_start e) eqn:Ec; b2p.
  - split_and!; [done|lia|by left|]. intros x Hx.
    assert (ev_start e <= ev_start x) as Hex.
    { apply elem_of_cons in Hx as [->|Hx]; [lia|].
      rewrite Forall_forall in Hf. exact (Hf x Hx). }
    assert (ev_start x <= ev_end x) as Hxx.
    { rewrite Forall_forall in Hr. exact (Hr x Hx). }
    lia.
  - destruct (IH (Z.min end_ (ev_end e)) Hr' Hlo') as (Hb & Hw & Hall); [lia|].
    split_and!; [lia|lia| |].
    + destruct Hw as [Hw|(x & Hx & Hw)]; [|right; exists x; set_solver].
      destruct (Z.min_spec end_ (ev_end e)) as [[_ Hm]|[_ Hm]]; rewrite Hm in Hw.
      * left. congruence.
      * right. exists e. split; [set_solver|]. rewrite Hm. congruence.
    + intros x Hx. apply elem_of_cons in Hx as [->|Hx]; [lia|]. auto.
Qed.

Lemma rev_asc evs : StronglySorted desc evs -> StronglySorted asc (rev evs).
Proof.
  induction 1 as [|e evs Hs IH Hf]; simpl; [constructor|].
  assert (Hf' : Forall (fun x => asc x e) (rev evs)).
  { rewrite Forall_forall in *. intros x Hx. apply Hf. apply list_elem_of_In in Hx.
    apply list_elem_of_In. by apply in_rev. }
  clear -IH Hf'. induction IH as [|x l Hl IHl Hx]; simpl; [by repeat constructor|].
  inversion Hf'; subst. constructor; [auto|]. apply Forall_app. split; [done|by constructor].
Qed.

(** ** Abstract specification

    A finite map from event identities to pending events.  Every operation is
    one step of it; [Dispatch] outputs the due events, earliest start first. *)

Inductive op :=
| Add (when : TimeRange.range) (what : E)
| Cancel (h : Handle)
| Reschedule (h : Handle) (when : TimeRange.range)
| Dispatch (now : Z)
| Clear.

(** What an operation returns: dispatched events and the handle, if any. *)
Definition step (s : t) (o : op) : (list E * option Handle) * t :=
  match o with
  | Add r w => let '(h, s) := add s r w in (([], Some h), s)
  | Cancel h => (([], None), cancel s h)
  | Reschedule h r => let '(h, s) := reschedule s h r in (([], h), s)
  | Dispatch now => let '(l, s) := dispatch s now in ((l, None), s)
  | Clear => (([], None), clear s)
  end.

Abbreviation pending := (gmap nat (TimeRange.range * E)).

Definition due (now : Z) (p : nat * (TimeRange.range * E)) : Prop :=
  TimeRange.start p.2.1 <= now.

#[local] Instance due_dec now p : Decision (due now p).
Proof. unfold due. apply _. Defined.

Inductive spec_step (m : pending) : op -> list E * option Handle -> pending -> Prop :=
| spec_add r w i :
    m !! i = None ->
    spec_step m (Add r w) ([], Some (mkHandle i)) (<[i := (r, w)]> m)
| spec_cancel h :
    spec_step m (Cancel h) ([], None) (delete (h_event h) m)
| spec_reschedule h r r0 w :
    m !! h_event h = Some (r0, w) ->
    spec_step m (Reschedule h r) ([], Some h) (<[h_event h := (r, w)]> m)
| spec_lapsed h r :
    m !! h_event h = None -> spec_step m (Reschedule h r) ([], None) m
| spec_dispatch now l :
    l ≡ₚ map_to_list (filter (due now) m) ->
    StronglySorted (fun a b => TimeRange.start a.2.1 <= TimeRange.start b.2.1) l ->
    spec_step m (Dispatch now) (map (fun p => p.2.2) l, None)
      (filter (fun p => ~ due now p) m)
| spec_clear :
    spec_step m Clear ([], None) ∅.

Definition entry (e : FutureEvent) : nat * (TimeRange.range * E) := (ev_id e, (when_ e, what e)).

Definition abs (s : t) : pending := list_to_map (map entry (events s)).

Lemma entries_nodup evs : NoDup (map ev_id evs) -> NoDup (map entry evs).*1.
Proof.
  intros H. replace ((map entry evs).*1) with (map ev_id evs); [done|].
  symmetry. apply (map_map entry fst).
Qed.

Lemma abs_lookup s i r w :
  inv s -> abs s !! i = Some (r, w) <-> mkEvent i r w ∈ events s.
Proof.
  intros [_ _ Hid _]. unfold abs. rewrite <- elem_of_list_to_map by (by apply entries_nodup).
  rewrite list_elem_of_fmap. split.
  - intros ([i' r' w'] & Heq & He). unfold entry in Heq. simpl in Heq. by simplify_eq.
  - intros He. by exists (mkEvent i r w).
Qed.

Lemma abs_None s i : inv s -> (forall e, e ∈ events s -> ev_id e <> i) -> abs s !! i = None.
Proof.
  intros Hi Hn. destruct (abs s !! i) as [[r w]|] eqn:El; [|done].
  apply abs_lookup in El; [|done]. by apply Hn in El.
Qed.

Lemma abs_perm s (evs : list FutureEvent) n :
  NoDup (map ev_id evs) -> events s ≡ₚ evs ->
  abs s = abs (mk evs n).
Proof.
  intros Hn Hp. unfold abs. apply list_to_map_proper; simpl.
  - apply entries_nodup. by rewrite Hp.
  - by rewrite Hp.
Qed.

Lemma abs_cons e evs n n' :
  abs (mk (e :: evs) n) = <[ev_id e := (when_ e, what e)]> (abs (mk evs n')).
Proof. done. Qed.

(** Inserting an event into the queue adds its entry, wherever it is inserted. *)
Lemma abs_insert s evs i e n :
  inv s -> events s = vec_insert evs i e ->
  abs s = <[ev_id e := (when_ e, what e)]> (abs (mk evs n)).
Proof.
  intros Hi He. pose proof (vec_insert_perm evs i e) as Hp. rewrite <- He in Hp.
  rewrite (abs_perm s (e :: evs) n); [apply abs_cons| |done].
  rewrite <- Hp. apply (inv_ids _ Hi).
Qed.

(** Removing an event from the queue deletes its entry. *)
Lemma abs_remove s i e n :
  inv s -> events s !! i = Some e ->
  abs (mk (vec_remove (events s) i) n) = delete (ev_id e) (abs s).
Proof.
  intros Hi He. pose proof (vec_remove_perm _ _ _ He) as Hp.
  pose proof (inv_ids _ Hi) as Hid. rewrite Hp in Hid.
  rewrite (abs_perm s _ n Hid Hp), (abs_cons _ _ _ n), delete_insert_eq.
  symmetry. apply delete_id. simpl in Hid. apply NoDup_cons in Hid as [Hn _].
  apply not_elem_of_list_to_map. intros Hin. apply Hn.
  replace (map ev_id (vec_remove (events s) i))
    with ((map entry (vec_remove (events s) i)).*1); [done|].
  apply (map_map entry fst).
Qed.

Lemma handle_eta h : mkHandle (h_event h) = h.
Proof. by destruct h. Qed.

Lemma dispatch_spec s now :
  inv s ->
  dispatch s now =
    (map what (rev (filter (fun e => ev_start e <= now) (events s))),
     mk (filter (fun e => now < ev_start e) (events s)) (next_id s)).
Proof.
  intros [Hs _ _ _]. unfold dispatch.
  destruct (partition_filter (events s) now Hs) as [-> ->]. done.
Qed.

Lemma abs_filter (P : nat * (TimeRange.range * E) -> Prop) `{!forall x, Decision (P x)}
    (evs : list FutureEvent) n :
  NoDup (map ev_id evs) ->
  filter P (abs (mk evs n)) = abs (mk (filter (fun e => P (entry e)) evs) n).
Proof.
  induction evs as [|e evs IH]; simpl; intros Hid; [apply map_filter_empty|].
  apply NoDup_cons in Hid as [Hn Hid]. rewrite (abs_cons _ _ _ n), filter_cons.
  assert (Hno : abs (mk evs n) !! ev_id e = None).
  { apply not_elem_of_list_to_map. simpl. intros Hin. apply Hn.
    replace (map ev_id evs) with ((map entry evs).*1); [done|]. apply (map_map entry fst). }
  case_decide.
  - rewrite map_filter_insert_True by done. by rewrite (abs_cons _ _ _ n), IH.
  - rewrite map_filter_insert_False by done. by rewrite delete_id, IH.
Qed.

Lemma abs_entries s :
  inv s -> map_to_list (abs s) ≡ₚ map entry (events s).
Proof.
  intros [_ _ Hid _]. unfold abs. apply map_to_list_to_map. by apply entries_nodup.
Qed.

Lemma entries_asc evs :
  StronglySorted asc evs ->
  StronglySorted (fun a b => TimeRange.start a.2.1 <= TimeRange.start b.2.1) (map entry evs).
Proof.
  induction 1 as [|e evs Hs IH Hf]; simpl; constructor; [done|].
  rewrite Forall_forall in Hf. rewrite Forall_forall. intros x Hx.
  apply list_elem_of_fmap in Hx as (e' & -> & He'). exact (Hf e' He').
Qed.

Lemma filter_desc (P : FutureEvent -> Prop) `{!forall x, Decision (P x)} evs :
  StronglySorted desc evs -> StronglySorted desc (filter P evs).
Proof.
  induction 1 as [|e evs Hs IH Hf]; [constructor|]. rewrite filter_cons. case_decide; [|done].
  constructor; [done|]. by apply Forall_filter.
Qed.

Lemma filter_inv (P : FutureEvent -> Prop) `{!forall x, Decision (P x)} s :
  inv s -> inv (mk (filter P (events s)) (next_id s)).
Proof.
  intros [Hs Hr Hid Hf]. split; simpl.
  - by apply filter_desc.
  - by apply Forall_filter.
  - clear -Hid. induction (events s) as [|e l IH]; [constructor|].
    simpl in Hid. apply NoDup_cons in Hid as [Hn Hid]. rewrite filter_cons.
    case_decide; [|auto]. simpl. constructor; [|auto].
    intros Hin. apply Hn. apply list_elem_of_fmap in Hin as (x & -> & Hx).
    apply list_elem_of_filter in Hx as [_ Hx]. by apply list_elem_of_fmap_2.
  - by apply Forall_filter.
Qed.

(** ** Simulation, operation by operation *)

Lemma add_simulates s r w :
  inv s -> TimeRange.ok r ->
  spec_step (abs s) (Add r w) ([], Some (add s r w).1) (abs (add s r w).2).
Proof.
  intros Hi Hok. pose proof (add_inv s r w Hi Hok) as Hi'.
  rewrite (abs_insert _ _ _ _ (next_id s) Hi' eq_refl). destruct s as [evs n].
  apply spec_add. apply abs_None; [done|]. intros e He.
  pose proof (inv_fresh _ Hi) as Hf. rewrite Forall_forall in Hf. specialize (Hf e He).
  simpl in *. lia.
Qed.

Lemma cancel_simulates s h :
  inv s -> spec_step (abs s) (Cancel h) ([], None) (abs (cancel s h)).
Proof.
  intros Hi. pose proof (spec_cancel (abs s) h) as Hc.
  unfold cancel. destruct (upgrade s h) as [e|] eqn:Eu.
  - apply upgrade_Some in Eu as [He Hid]. destruct (find_spec s e Hi He) as (i & -> & Hl).
    by rewrite (abs_remove s i e _ Hi Hl), Hid.
  - rewrite delete_id in Hc; [done|]. apply abs_None; [done|]. by apply upgrade_None.
Qed.

Lemma reschedule_simulates s h r :
  inv s -> TimeRange.ok r ->
  spec_step (abs s) (Reschedule h r) ([], (reschedule s h r).1) (abs (reschedule s h r).2).
Proof.
  intros Hi Hok. pose proof (reschedule_inv s h r Hi Hok) as Hi'. unfold reschedule in *.
  destruct (upgrade s h) as [e|] eqn:Eu; simpl.
  - apply upgrade_Some in Eu as [He Hid]. destruct (find_spec s e Hi He) as (i & Hfi & Hl).
    rewrite Hfi in *. simpl in *. rewrite (abs_insert _ _ _ _ (next_id s) Hi' eq_refl).
    rewrite (abs_remove s i e _ Hi Hl). simpl.
    rewrite insert_delete_eq, Hid, handle_eta. apply (spec_reschedule _ _ _ (when_ e) (what e)).
    rewrite <- Hid. apply abs_lookup; [done|]. by destruct e.
  - apply spec_lapsed. apply abs_None; [done|]. by apply upgrade_None.
Qed.

Lemma dispatch_simulates s now :
  inv s ->
  spec_step (abs s) (Dispatch now) ((dispatch s now).1, None) (abs (dispatch s now).2).
Proof.
  intros Hi. rewrite dispatch_spec by done. simpl.
  replace (abs (mk (filter _ (events s)) _)) with (filter (fun p => ~ due now p) (abs s)).
  2: { destruct s as [evs n]. rewrite abs_filter by apply (inv_ids _ Hi). do 2 f_equal.
       apply list_filter_iff. intros e. unfold due, entry, ev_start. simpl. lia. }
  replace (map what (rev _)) with
    (map (fun p : nat * (TimeRange.range * E) => p.2.2)
       (map entry (rev (filter (fun e => ev_start e <= now) (events s))))) by apply map_map.
  apply spec_dispatch.
  - pose proof (filter_inv (fun e => due now (entry e)) s Hi) as Hfi.
    destruct s as [evs n]. rewrite abs_filter by apply (inv_ids _ Hi).
    rewrite (abs_entries _ Hfi). simpl. apply Permutation_map. by rewrite <- Permutation_rev.
  - apply entries_asc, rev_asc, filter_desc, (inv_sorted _ Hi).
Qed.

Definition op_ok (o : op) : Prop :=
  match o with Add r _ | Reschedule _ r => TimeRange.ok r | _ => True end.

Lemma step_inv s o : inv s -> op_ok o -> inv (step s o).2.
Proof.
  intros Hi Hok. destruct o; simpl in *.
  - by apply (add_inv s when what0).
  - by apply cancel_inv.
  - pose proof (reschedule_inv s h when Hi Hok). by destruct (reschedule s h when).
  - by apply (dispatch_inv s now).
  - apply clear_inv.
Qed.

Lemma step_simulates s o :
  inv s -> op_ok o -> spec_step (abs s) o (step s o).1 (abs (step s o).2).
Proof.
  intros Hi Hok. destruct o as [r w|h|h r|now|].
  - by apply (add_simulates s r w).
  - by apply cancel_simulates.
  - pose proof (reschedule_simulates s h r Hi Hok) as Hs. simpl.
    by destruct (reschedule s h r).
  - by apply (dispatch_simulates s now).
  - apply spec_clear.
Qed.

(** Sequences of operations, in the model and in the specification. *)
Fixpoint run (s : t) (ops : list op) : list (list E * option Handle) * t :=
  match ops with
  | [] => ([], s)
  | o :: ops =>
      let '(r, s) := step s o in
      let '(l, s) := run s ops in
      (r :: l, s)
  end.

Inductive spec_run : pending -> list op -> list (list E * option Handle) -> pending -> Prop :=
| spec_run_nil m : spec_run m [] [] m
| spec_run_cons m o ops r m1 l m2 :
    spec_step m o r m1 -> spec_run m1 ops l m2 -> spec_run m (o :: ops) (r :: l) m2.

Lemma run_simulates s ops :
  inv s -> Forall op_ok ops ->
  inv (run s ops).2 /\ spec_run (abs s) ops (run s ops).1 (abs (run s ops).2).
Proof.
  intros Hi Hok. revert s Hi. induction Hok as [|o ops Ho _ IH]; intros s Hi; simpl.
  { split; [done|constructor]. }
  pose proof (step_inv s o Hi Ho) as Hi'. pose proof (step_simulates s o Hi Ho) as Hs.
  destruct (step s o) as [r s1]; simpl in *. destruct (IH s1 Hi') as [Hi2 Hr].
  destruct (run s1 ops) as [l s2]; simpl in *. split; [done|by econstructor].
Qed.

Lemma next_dispatch_range_spec s :
  inv s ->
  (events s = [] -> next_dispatch_range s = Done None) /\
  (events s <> [] -> exists r, next_dispatch_range s = Done (Some r) /\
     is_min ev_start (events s) (TimeRange.start r) /\
     is_min ev_end (events s) (TimeRange.end_ r)).
Proof.
  intros [Hs Hr _ _]. apply rev_asc in Hs. unfold next_dispatch_range.
  assert (Hin : forall e, e ∈ events s <-> e ∈ rev (events s)).
  { intros e. rewrite !list_elem_of_In. apply in_rev. }
  split; [by intros ->|]. intros Hne.
  destruct (rev (events s)) as [|e rest] eqn:Er.
  { apply (f_equal (@rev _)) in Er. by rewrite rev_involutive in Er. }
  assert (Hr' : forall x, x ∈ e :: rest -> TimeRange.ok (when_ x)).
  { intros x Hx. rewrite Forall_forall in Hr. apply Hr, Hin, Hx. }
  inversion Hs as [|?? Hs' Hf]; subst.
  destruct (tighten_spec rest (ev_end e) (ev_start e) Hs') as (Hb & Hw & Hall).
  { apply Forall_forall. intros. apply Hr'. set_solver. }
  { exact Hf. }
  { apply (Hr' e). set_solver. }
  unfold TimeRange.new. rewrite (proj2 (Z.leb_le _ _)) by lia. simpl.
  eexists. split; [done|]. simpl. split.
  - split; [exists e; rewrite Hin; set_solver|]. intros x Hx. apply Hin in Hx.
    apply elem_of_cons in Hx as [->|Hx]; [lia|].
    rewrite Forall_forall in Hf. exact (Hf x Hx).
  - split.
    + destruct Hw as [Hw|(x & Hx & Hw)].
      * exists e. rewrite Hin, Hw. set_solver.
      * exists x. rewrite Hin, Hw. set_solver.
    + intros x Hx. apply Hin in Hx. apply elem_of_cons in Hx as [->|Hx]; [lia|auto].
Qed.

End Scheduler.

(** ** Properties *)

(** C22: every sequence of scheduler operations (add, cancel, reschedule, dispatch,
    clear) behaves like a finite map of pending events: an added event gets a
    fresh identity, cancelling deletes its entry (a lapsed handle changes
    nothing), rescheduling replaces its range and reports whether the event was
    still pending, and dispatching at [now] returns exactly the events whose
    range has started, earliest start first, and keeps the others.  The queue
    stays sorted by descending start. *)
Theorem scheduler_refines_map {E} (ops : list (@op E)) :
  Forall op_ok ops ->
  inv (run default_ ops).2 /\
  spec_run ∅ ops (run default_ ops).1 (abs (run default_ ops).2).
Proof. intros Hok. apply (run_simulates default_ ops default_inv Hok). Qed.

Lemma scheduler_refines_map_witness :
  let ops := [Add (TimeRange.mk 1 9) 10%nat; Add (TimeRange.mk 5 5) 11%nat;
              Add (TimeRange.mk 2 4) 12%nat; Cancel (mkHandle 1);
              Reschedule (mkHandle 0) (TimeRange.mk 3 3); Dispatch 4] in
  inv (run default_ ops).2 /\
  spec_run ∅ ops (run default_ ops).1 (abs (run default_ ops).2) /\
  (run default_ ops).1 !! 5%nat = Some ([12%nat; 10%nat], None).
Proof.
  intros ops. assert (Hok : Forall op_ok ops)
    by (unfold ops; rewrite !Forall_cons, Forall_nil; unfold op_ok, TimeRange.ok; simpl; lia).
  destruct (scheduler_refines_map ops Hok) as [H1 H2].
  split_and!; [exact H1|exact H2|reflexivity].
Defined.

(** The range proposed for the next dispatch starts with the earliest start of
    the pending events and ends with the earliest deadline, so that a dispatch
    inside it misses no event's range; it is [None] exactly when nothing is
    pending, and computing it never panics. *)
Theorem next_dispatch_range_earliest {E} (ops : list (@op E)) :
  Forall op_ok ops ->
  let s := (run default_ ops).2 in
  (events s = [] -> next_dispatch_range s = Done None) /\
  (events s <> [] -> exists r, next_dispatch_range s = Done (Some r) /\
     is_min ev_start (events s) (TimeRange.start r) /\
     is_min ev_end (events s) (TimeRange.end_ r)).
Proof.
  intros Hok s. apply next_dispatch_range_spec.
  apply (run_simulates default_ ops default_inv Hok).
Qed.

Lemma next_dispatch_range_earliest_witness :
  let ops := [Add (TimeRange.mk 1 9) tt; Add (TimeRange.mk 2 8) tt; Add (TimeRange.mk 4 6) tt;
              Add (TimeRange.mk 5 5) tt; Add (TimeRange.mk 2 4) tt] in
  let s := (run default_ ops).2 in
  next_dispatch_range s = Done (Some (TimeRange.mk 1 4)) /\
  exists r, next_dispatch_range s = Done (Some r) /\
     is_min ev_start (events s) (TimeRange.start r) /\
     is_min ev_end (events s) (TimeRange.end_ r).
Proof.
  intros ops s. assert (Hok : Forall op_ok ops)
    by (unfold ops; rewrite !Forall_cons, Forall_nil; unfold op_ok, TimeRange.ok; simpl; lia).
  split; [reflexivity|].
  apply (next_dispatch_range_earliest ops Hok). discriminate.
Defined.

End Scheduler.
