(* ===== verification/Packet.v ===== *)
(** * Packets (ts_packet/src/lib.rs)

    [PacketMut], a growable sequence of bytes, with the operations the data plane
    uses on it.  The third-party [BytesMut] behind it is a byte vector here; its
    documented panics are kept. *)

From S2P Require Import Prelude.

Abbreviation bytes := (list byte).

Module PacketMut.

(** [contents] as a byte vector. *)
Definition t := bytes.

Definition usize_max : Z := 2 ^ 64 - 1.

Definition new (size : nat) : bytes := zeroes size.

Definition len (p : bytes) : nat := length p.

Definition is_empty (p : bytes) : bool := Nat.eqb (len p) 0.

Definition extend_from_slice (p slice : bytes) : bytes := p ++ slice.

(** [BytesMut::resize] with zero bytes. *)
Definition resize0 (p : bytes) (n : nat) : bytes := take n p ++ zeroes (n - length p).

(** [<[u8]>::copy_within(..n, dst)]: a panic when the target range does not fit. *)
Definition copy_within (p : bytes) (n dst : nat) : outcome bytes :=
  if decide (n <= length p /\ dst + n <= length p)%nat
  then Done (take dst p ++ take n p ++ drop (dst + n) p) else Panic.

(** [p[..n].fill(0)] *)
Definition fill_front (p : bytes) (n : nat) : outcome bytes :=
  if decide (n <= length p)%nat then Done (zeroes n ++ drop n p) else Panic.

Definition grow_front (p : bytes) (len : nat) : outcome bytes :=
  let existing_len := length p in
  p ← copy_within (resize0 p (existing_len + len)) existing_len len;
  fill_front p len.

(** [p[..slice.len()].copy_from_slice(slice)] *)
Definition copy_front (p slice : bytes) : outcome bytes :=
  if decide (length slice <= length p)%nat
  then Done (slice ++ drop (length slice) p) else Panic.

Definition extend_front_from_slice (p slice : bytes) : outcome bytes :=
  p ← grow_front p (length slice);
  copy_front p slice.

(** [get] at a position and on a range [i..i+n]. *)
Definition get (p : bytes) (i : nat) : option byte := p !! i.

Definition get_range (p : bytes) (i n : nat) : option bytes :=
  if decide (i + n <= length p)%nat then Some (take n (drop i p)) else None.

(** [BytesMut::truncate]: keeps the first [count] bytes. *)
Definition truncate (p : bytes) (count : nat) : bytes := take count p.

(** [BytesMut::advance]: panics when [count] is larger than the length. *)
Definition truncate_front (p : bytes) (count : nat) : outcome bytes :=
  if decide (count <= length p)%nat then Done (drop count p) else Panic.

(** [BytesMut::split_to]: the first [at] bytes, and what remains. *)
Definition split_to (p : bytes) (at_ : nat) : outcome (bytes * bytes) :=
  if decide (at_ <= length p)%nat then Done (take at_ p, drop at_ p) else Panic.

(** [impl Buf for PacketMut]: the code answers with [BytesMut::remaining_mut], the
    room left before the length reaches [usize::MAX]. *)
Definition remaining (p : bytes) : Z := usize_max - Z.of_nat (length p).

Inductive IpAddr :=
| V4 (addr : Z)
| V6 (addr : Z).

#[global] Instance IpAddr_eq_dec : EqDecision IpAddr.
Proof. solve_decision. Defined.

Definition get_ip_family (p : bytes) : option Z :=
  match get p 0 with
  | None => None
  | Some b =>
      let v := Z.shiftr (byte_to_Z b) 4 in
      if v =? 4 then Some 4 else if v =? 6 then Some 6 else None
  end.

Definition ipv4_at (p : bytes) (idx : nat) : option IpAddr :=
  match get_range p idx 4 with
  | Some octets => Some (V4 (be_int octets))
  | None => None
  end.

Definition ipv6_at (p : bytes) (idx : nat) : option IpAddr :=
  match get_range p idx 16 with
  | Some octets => Some (V6 (be_int octets))
  | None => None
  end.

Definition get_src_addr (p : bytes) : option IpAddr :=
  match get_ip_family p with
  | Some 4 => ipv4_at p 12
  | Some 6 => ipv6_at p 8
  | _ => None
  end.

Definition get_dst_addr (p : bytes) : option IpAddr :=
  match get_ip_family p with
  | Some 4 => ipv4_at p 16
  | Some 6 => ipv6_at p 24
  | _ => None
  end.

(** ** Lemmas *)

Lemma length_zeroes n : length (zeroes n) = n.
Proof. apply length_replicate. Qed.

Lemma grow_front_spec p n : grow_front p n = Done (zeroes n ++ p).
Proof.
  unfold grow_front, copy_within, resize0.
  rewrite take_ge by lia. replace (length p + n - length p)%nat with n by lia.
  rewrite decide_True by (rewrite length_app, length_zeroes; lia). simpl.
  unfold fill_front. rewrite decide_True
    by (rewrite !length_app, !length_take, length_drop, length_app, length_zeroes; lia).
  f_equal. f_equal.
  rewrite drop_app_length' by (rewrite length_take, length_app, length_zeroes; lia).
  rewrite take_app_length'; [|done].
  rewrite drop_ge by (rewrite length_app, length_zeroes; lia). apply app_nil_r.
Qed.

Lemma extend_front_spec p slice : extend_front_from_slice p slice = Done (slice ++ p).
Proof.
  unfold extend_front_from_slice. rewrite grow_front_spec. simpl. unfold copy_front.
  rewrite decide_True by (rewrite length_app, length_zeroes; lia).
  by rewrite drop_app_length' by (by rewrite length_zeroes).
Qed.

Lemma get_range_length p i n l : get_range p i n = Some l -> length l = n.
Proof.
  unfold get_range. case_decide; [|done]. intros [= <-].
  rewrite length_take, length_drop. lia.
Qed.

(** ** Properties *)

(** The [Buf::remaining] of a packet is never its length, although [Buf::chunk]
    returns the whole contents: the code calls [remaining_mut] where the trait
    asks for the number of bytes left to read. *)
Lemma remaining_is_not_len p : remaining p <> Z.of_nat (len p).
Proof. unfold remaining, usize_max, len. lia. Qed.

(** An IPv4 or IPv6 address is read only when all of its octets are in the packet,
    and then fits its width. *)
Lemma get_dst_addr_width p a :
  get_dst_addr p = Some a ->
  match a with V4 z => 0 <= z < 2 ^ 32 | V6 z => 0 <= z < 2 ^ 128 end.
Proof.
  unfold get_dst_addr, ipv4_at, ipv6_at. intros H. repeat (case_hyp H; simplify_eq).
  all: match goal with
       | E : get_range _ _ _ = Some ?l |- _ =>
           apply get_range_length in E; pose proof (le_int_range (rev l)) as Hr;
           rewrite length_rev, E in Hr; exact Hr
       end.
Qed.

End PacketMut.
