(* ===== verification/Crypto.v ===== *)
(** * The cryptographic primitives, as an interface

    The hash, key derivation, Diffie-Hellman and AEAD functions come from
    third-party crates (blake2, hkdf, x25519-dalek, chacha20poly1305).  They are
    the operations of the class [Crypto]; what the protocols rely on is stated by
    [CryptoLaws].  [Toy] is a concrete instance that satisfies the laws, used to
    evaluate the protocols on concrete inputs. *)

From S2P Require Import Prelude Packet.

Class Crypto := {
  (** [Blake2s256::digest] *)
  blake2s256 : bytes -> bytes;
  (** [Blake2sMac<U16>] keyed with the first argument *)
  blake2s_mac : bytes -> bytes -> bytes;
  (** [SimpleHkdf::<Blake2s256>::new(Some(salt), ikm).expand(&[], len)] *)
  hkdf_expand : bytes -> bytes -> nat -> bytes;
  (** [PublicKey::from(&secret)] and [secret.diffie_hellman(public)] *)
  x25519_base : bytes -> bytes;
  x25519 : bytes -> bytes -> bytes;
  (** [ChaCha20Poly1305]: key, nonce, associated data, message; detached tag *)
  aead_seal : bytes -> bytes -> bytes -> bytes -> bytes * bytes;
  aead_open : bytes -> bytes -> bytes -> bytes -> bytes -> option bytes;
  (** [XChaCha20Poly1305::decrypt]: key, nonce, associated data, sealed message *)
  xaead_open : bytes -> bytes -> bytes -> bytes -> option bytes }.

Class CryptoLaws `{C : Crypto} : Prop := {
  x25519_comm a b : x25519 a (x25519_base b) = x25519 b (x25519_base a);
  x25519_base_length a : length (x25519_base a) = 32%nat;
  hkdf_length salt ikm n : (n <= 255 * 32)%nat -> length (hkdf_expand salt ikm n) = n;
  aead_open_seal k n ad m :
    aead_open k n ad (aead_seal k n ad m).1 (aead_seal k n ad m).2 = Some m;
  aead_ct_length k n ad m : length (aead_seal k n ad m).1 = length m;
  aead_tag_length k n ad m : length (aead_seal k n ad m).2 = 16%nat;
  aead_open_length k n ad c t m : aead_open k n ad c t = Some m -> length m = length c;
  blake2s_mac_length k m : length (blake2s_mac k m) = 16%nat;
  xaead_open_length k n ad c m : xaead_open k n ad c = Some m -> (length m + 16 = length c)%nat }.

(** ** Buffers: [AeadInPlace] on a growable packet *)

(** [encrypt_in_place]: the ciphertext with the tag appended. *)
Definition encrypt_in_place `{Crypto} (key nonce ad p : bytes) : bytes :=
  let '(c, t) := aead_seal key nonce ad p in c ++ t.

(** [decrypt_in_place]: the tag is the last 16 bytes; [None] when it is missing or
    wrong. *)
Definition decrypt_in_place `{Crypto} (key nonce ad p : bytes) : option bytes :=
  if decide (16 <= length p)%nat then
    let n := (length p - 16)%nat in
    aead_open key nonce ad (take n p) (drop n p)
  else None.

Lemma decrypt_encrypt `{CryptoLaws} key nonce ad p :
  decrypt_in_place key nonce ad (encrypt_in_place key nonce ad p) = Some p.
Proof.
  unfold decrypt_in_place, encrypt_in_place.
  pose proof (aead_open_seal key nonce ad p) as Ho.
  pose proof (aead_ct_length key nonce ad p) as Hc.
  pose proof (aead_tag_length key nonce ad p) as Ht.
  destruct (aead_seal key nonce ad p) as [c t]; simpl in *.
  rewrite length_app, decide_True by lia.
  replace (length c + length t - 16)%nat with (length c) by lia.
  rewrite take_app_length', drop_app_length' by done. exact Ho.
Qed.

Lemma encrypt_length `{CryptoLaws} key nonce ad p :
  length (encrypt_in_place key nonce ad p) = (length p + 16)%nat.
Proof.
  unfold encrypt_in_place.
  pose proof (aead_ct_length key nonce ad p) as Hc.
  pose proof (aead_tag_length key nonce ad p) as Ht.
  destruct (aead_seal key nonce ad p) as [c t]; simpl in *.
  rewrite length_app. lia.
Qed.

(** ** A concrete instance

    Sums of bytes stand for mixing; the tag depends on the key, the nonce, the
    associated data and the message, so a wrong key or message is refused. *)
Module Toy.

Definition sum (l : bytes) : Z := fold_right (fun b a => 3 * a + byte_to_Z b + 1) 0 l.

Definition pad (n : nat) (z : Z) : bytes := le_bytes n z.

Definition mac (k n ad m : bytes) : bytes :=
  pad 16 (sum k + 5 * sum n + 7 * sum ad + 11 * sum m + 1).

Definition xor_key (k : bytes) (m : bytes) : bytes :=
  map (fun b => byte_of_Z (Z.lxor (byte_to_Z b) (sum k mod 256))) m.

Definition pub (a : bytes) : bytes := pad 32 (sum a).

Definition open (k n ad c t : bytes) : option bytes :=
  let m := xor_key k c in
  if decide (mac k n ad m = t) then Some m else None.

#[local] Arguments pad : simpl never.

#[export] Instance toy : Crypto := {
  blake2s256 m := pad 32 (sum m);
  blake2s_mac k m := pad 16 (sum k + 17 * sum m);
  hkdf_expand salt ikm n := pad n (sum salt * 1000003 + sum ikm * 10007 + 77);
  x25519_base := pub;
  x25519 a b := pad 32 (sum (pub a) * sum b);
  aead_seal k n ad m := (xor_key k m, mac k n ad m);
  aead_open := open;
  xaead_open k n ad c :=
    if decide (16 <= length c)%nat then open k n ad (take (length c - 16) c) (drop (length c - 16) c)
    else None }.

Lemma xor_key_involutive k m : xor_key k (xor_key k m) = m.
Proof.
  unfold xor_key. rewrite map_map. rewrite <- (map_id m) at 2. apply map_ext. intros b.
  rewrite byte_to_of. pose proof (byte_to_Z_range b) as Hb.
  pose proof (Z.mod_pos_bound (sum k) 256 ltac:(lia)) as Hs.
  rewrite (Z.mod_small (Z.lxor _ _)).
  - rewrite Z.lxor_assoc, Z.lxor_nilpotent, Z.lxor_0_r. apply byte_of_to.
  - split; [apply Z.lxor_nonneg; lia|].
    destruct (decide (Z.lxor (byte_to_Z b) (sum k mod 256) = 0)) as [->|]; [lia|].
    apply Z.log2_lt_pow2 with (b := 8); [|].
    + pose proof (proj2 (Z.lxor_nonneg (byte_to_Z b) (sum k mod 256)) ltac:(lia)). lia.
    + eapply Z.le_lt_trans; [apply Z.log2_lxor; lia|].
      apply Z.max_lub_lt; [destruct (decide (byte_to_Z b = 0)) as [->|]|
                           destruct (decide (sum k mod 256 = 0)) as [->|]];
        try done; apply Z.log2_lt_pow2; lia.
Qed.

Lemma pad_length n z : length (pad n z) = n.
Proof. apply le_bytes_length. Qed.

#[export] Instance toy_laws : CryptoLaws.
Proof.
  split; simpl; intros.
  - f_equal. apply Z.mul_comm.
  - first [reflexivity|apply pad_length].
  - first [reflexivity|apply pad_length].
  - unfold open. rewrite xor_key_involutive. by rewrite decide_True.
  - unfold xor_key. apply length_map.
  - first [reflexivity|apply pad_length].
  - unfold open in *. case_decide; simplify_eq. unfold xor_key. apply length_map.
  - first [reflexivity|apply pad_length].
  - case_decide; [|done]. unfold open in *. case_decide; simplify_eq.
    unfold xor_key. rewrite length_map, length_take. lia.
Qed.

End Toy.

(** * Public-key boxes

    [crypto_box::SalsaBox] is third-party too: [CryptoBox] has its operations and
    [CryptoBoxLaws] what the DERP client and the disco protocol rely on; [ToyBox] is a concrete
    instance. *)

(** The public key and the secret key of [SalsaBox::new] come first, then the nonce. *)
Class CryptoBox : Type := {
  (** [SecretKey::public_key] *)
  box_public : bytes -> bytes;
  (** [encrypt_in_place_detached]: the ciphertext and the tag *)
  box_seal : bytes -> bytes -> bytes -> bytes -> option (bytes * bytes);
  (** [decrypt_in_place_detached] of a ciphertext with its tag *)
  box_open : bytes -> bytes -> bytes -> bytes -> bytes -> option bytes;
  (** [encrypt] and [decrypt_in_place]: ciphertext and tag in one buffer *)
  box_encrypt : bytes -> bytes -> bytes -> bytes -> option bytes;
  box_decrypt : bytes -> bytes -> bytes -> bytes -> option bytes;
}.

(** Messages of up to a megabyte can be sealed, the owner of either secret key opens what the
    other sealed for it, and sealing keeps the length. *)
Class CryptoBoxLaws `{B : CryptoBox} : Prop := {
  box_public_length s : length (box_public s) = 32%nat;
  box_seal_total p s n m : Z.of_nat (length m) <= 1048576 -> is_Some (box_seal p s n m);
  box_seal_lengths p s n m c t : box_seal p s n m = Some (c, t) -> length c = length m /\ length t = 16%nat;
  box_open_seal a b n m c t : box_seal (box_public b) a n m = Some (c, t) -> box_open (box_public a) b n c t = Some m;
  box_encrypt_total p s n m : Z.of_nat (length m) <= 1048576 -> is_Some (box_encrypt p s n m);
  box_encrypt_length p s n m c : box_encrypt p s n m = Some c -> length c = (16 + length m)%nat;
  box_decrypt_encrypt a b n m c : box_encrypt (box_public b) a n m = Some c -> box_decrypt (box_public a) b n c = Some m;
}.

(** ** A concrete instance *)
Module ToyBox.

Definition shared (public secret : bytes) : bytes := Toy.pad 32 (Toy.sum (Toy.pub secret) * Toy.sum public).

#[export] Instance toy_box : CryptoBox := {
  box_public := Toy.pub;
  box_seal p s n m := Some (Toy.xor_key (shared p s) m, Toy.mac (shared p s) n [] m);
  box_open p s n c t := Toy.open (shared p s) n [] c t;
  box_encrypt p s n m := Some (Toy.mac (shared p s) n [] m ++ Toy.xor_key (shared p s) m);
  box_decrypt p s n c := Toy.open (shared p s) n [] (drop 16 c) (take 16 c);
}.

Lemma shared_comm a b : shared (Toy.pub b) a = shared (Toy.pub a) b.
Proof. unfold shared. f_equal. apply Z.mul_comm. Qed.

Lemma mac_length k n ad m : length (Toy.mac k n ad m) = 16%nat.
Proof. apply le_bytes_length. Qed.

Lemma open_xor k n m : Toy.open k n [] (Toy.xor_key k m) (Toy.mac k n [] m) = Some m.
Proof. unfold Toy.open. by rewrite Toy.xor_key_involutive, decide_True. Qed.

#[export] Instance toy_box_laws : CryptoBoxLaws.
Proof.
  split; cbn [box_public box_seal box_open box_encrypt box_decrypt toy_box].
  - intros s. apply le_bytes_length.
  - intros p s n m _. by eexists.
  - intros p s n m c t [= <- <-]. split; [apply length_map|apply mac_length].
  - intros a b n m c t [= <- <-]. rewrite shared_comm. apply open_xor.
  - intros p s n m _. by eexists.
  - intros p s n m c <-%(inj Some). rewrite length_app, mac_length. f_equal. apply length_map.
  - intros a b n m c <-%(inj Some). rewrite shared_comm. rewrite drop_app_length', take_app_length' by (symmetry; apply mac_length). apply open_xor.
Qed.

End ToyBox.
