(* ===== verification/Noise.v ===== *)
(** * Noise handshakes (ts_noise/src)

    The handshake primitives of core.rs and the wire messages of messages.rs, over
    the primitives of [Crypto]. *)

From S2P Require Import Prelude Packet Crypto.

(** An X25519 key pair (ts_keys/src/lib.rs). *)
Record X25519KeyPair := mkKeyPair { public : bytes; private : bytes }.

(** [X25519KeyPair::random], with the secret that the random source returned. *)
Definition keypair_of `{Crypto} (secret : bytes) : X25519KeyPair :=
  mkKeyPair (x25519_base secret) secret.

Definition bytes_of_string (s : string) : bytes := String.list_byte_of_string s.

Module Core.
Section Core.
Context `{Crypto}.

(** [must_hkdf::<N>]: [n] values of 32 bytes. *)
Definition must_hkdf (n : nat) (chaining_key key : bytes) : list bytes :=
  let okm := hkdf_expand chaining_key key (32 * n) in
  map (fun i => take 32 (drop (32 * i) okm)) (seq 0 n).

Record Session := mkSession { send : bytes; recv : bytes }.

Record State := mkState { hash : bytes; chaining_key : bytes }.

Definition new (protocol_name : bytes) : State :=
  let init := blake2s256 protocol_name in mkState init init.

Definition mix_hash_gather (s : State) (data : list bytes) : State :=
  mkState (blake2s256 (hash s ++ concat data)) (chaining_key s).

Definition mix_hash (s : State) (data : bytes) : State := mix_hash_gather s [data].

Definition mix_hash_and_key (s : State) (public : bytes) : State :=
  let s := mix_hash s public in
  let okm := must_hkdf 1 (chaining_key s) public in
  mkState (hash s) (nth 0 okm []).

(** [StateWithAead]: the AEAD is represented by its key. *)
Record StateWithAead := mkAead { state : State; aead : bytes }.

Definition mix_dh (s : State) (private public : bytes) : StateWithAead :=
  let shared := x25519 private public in
  let okm := must_hkdf 2 (chaining_key s) shared in
  mkAead (mkState (hash s) (nth 0 okm [])) (nth 1 okm []).

Definition finish_as_initiator (s : State) : Session :=
  let okm := must_hkdf 2 (chaining_key s) [] in
  mkSession (nth 0 okm []) (nth 1 okm []).

Definition finish_as_responder (s : State) : Session :=
  let okm := must_hkdf 2 (chaining_key s) [] in
  mkSession (nth 1 okm []) (nth 0 okm []).

(** [StateWithAead::mix_dh] *)
Definition mix_dh_aead (s : StateWithAead) (private public : bytes) : StateWithAead :=
  mix_dh (state s) private public.

Definition mix_psk (s : StateWithAead) (psk : bytes) : StateWithAead :=
  let okm := must_hkdf 3 (chaining_key (state s)) psk in
  mkAead (mix_hash (mkState (hash (state s)) (nth 0 okm [])) (nth 1 okm []))
         (nth 2 okm []).

Definition nonce0 : bytes := zeroes 12.

(** [seal]: the ciphertext, the tag and the next state. *)
Definition seal (s : StateWithAead) (cleartext : bytes) : (bytes * bytes) * State :=
  let '(c, t) := aead_seal (aead s) nonce0 (hash (state s)) cleartext in
  ((c, t), mix_hash_gather (state s) [c; t]).

(** [open]: the cleartext and the next state. *)
Definition open (s : StateWithAead) (ciphertext tag : bytes) : option (bytes * State) :=
  let hash := hash (state s) in
  let st := mix_hash_gather (state s) [ciphertext; tag] in
  match aead_open (aead s) nonce0 hash ciphertext tag with
  | Some m => Some (m, st)
  | None => None
  end.

(** ** Lemmas *)

Lemma open_seal `{!CryptoLaws} s m : open s (seal s m).1.1 (seal s m).1.2 = Some (m, (seal s m).2).
Proof.
  unfold open, seal. pose proof (aead_open_seal (aead s) nonce0 (hash (state s)) m) as Ho.
  destruct (aead_seal _ _ _ _) as [c t]; simpl in *. by rewrite Ho.
Qed.

Lemma mix_dh_comm `{!CryptoLaws} s a b :
  mix_dh s a (x25519_base b) = mix_dh s b (x25519_base a).
Proof. unfold mix_dh. by rewrite x25519_comm. Qed.

Lemma seal_lengths `{!CryptoLaws} s m :
  length (seal s m).1.1 = length m /\ length (seal s m).1.2 = 16%nat.
Proof.
  unfold seal. pose proof (aead_ct_length (aead s) nonce0 (hash (state s)) m).
  pose proof (aead_tag_length (aead s) nonce0 (hash (state s)) m).
  by destruct (aead_seal _ _ _ _).
Qed.

Lemma must_hkdf_lengths `{!CryptoLaws} n ck key i :
  (n <= 255)%nat -> (i < n)%nat -> length (nth i (must_hkdf n ck key) []) = 32%nat.
Proof.
  intros Hn Hi. unfold must_hkdf.
  rewrite (nth_indep _ [] (take 32 (drop (32 * 0) (hkdf_expand ck key (32 * n)))))
    by (rewrite length_map, length_seq; lia).
  rewrite (map_nth (fun i => take 32 (drop (32 * i) (hkdf_expand ck key (32 * n))))).
  rewrite seq_nth by lia. rewrite length_take, length_drop, hkdf_length by lia. lia.
Qed.

(** The initiator sends with the key the responder receives with, and conversely. *)
Lemma split_matches s :
  send (finish_as_initiator s) = recv (finish_as_responder s) /\
  recv (finish_as_initiator s) = send (finish_as_responder s).
Proof. done. Qed.

End Core.
End Core.

(** ** Wire messages *)
Module Messages.

(** [Init<P>], where [P] takes [psize] bytes. *)
Record Init := mkInit {
  ephemeral_pub : bytes; static_pub : bytes; static_pub_tag : bytes;
  payload : bytes; payload_tag : bytes }.

Definition init_size (psize : nat) : nat := 32 + 32 + 16 + psize + 16.

Definition init_from_bytes (psize : nat) (l : bytes) : option Init :=
  if decide (length l = init_size psize) then
    Some (mkInit (take 32 l) (take 32 (drop 32 l)) (take 16 (drop 64 l))
                 (take psize (drop 80 l)) (drop (80 + psize) l))
  else None.

Definition init_bytes (i : Init) : bytes :=
  ephemeral_pub i ++ static_pub i ++ static_pub_tag i ++ payload i ++ payload_tag i.

Record Resp := mkResp { r_ephemeral_pub : bytes; auth_tag : bytes }.

Definition resp_size : nat := 32 + 16.

Definition resp_from_bytes (l : bytes) : option Resp :=
  if decide (length l = resp_size) then Some (mkResp (take 32 l) (drop 32 l)) else None.

Definition resp_bytes (r : Resp) : bytes := r_ephemeral_pub r ++ auth_tag r.

Record init_wf (psize : nat) (i : Init) : Prop := {
  wf_e : length (ephemeral_pub i) = 32%nat;
  wf_s : length (static_pub i) = 32%nat;
  wf_st : length (static_pub_tag i) = 16%nat;
  wf_p : length (payload i) = psize;
  wf_pt : length (payload_tag i) = 16%nat }.

Lemma init_bytes_length psize i : init_wf psize i -> length (init_bytes i) = init_size psize.
Proof. intros []. unfold init_bytes, init_size. rewrite !length_app. lia. Qed.

Lemma init_roundtrip psize i : init_wf psize i -> init_from_bytes psize (init_bytes i) = Some i.
Proof.
  intros Hwf. pose proof (init_bytes_length psize i Hwf) as Hl. destruct Hwf.
  unfold init_from_bytes. rewrite decide_True by done. destruct i as [e s st p pt]; simpl in *.
  unfold init_bytes; simpl. f_equal. f_equal.
  - by rewrite take_app_length'.
  - by rewrite drop_app_length', take_app_length'.
  - rewrite (app_assoc e s), drop_app_length' by (rewrite length_app; lia).
    by rewrite take_app_length'.
  - rewrite (app_assoc e s), (app_assoc (e ++ s) st), drop_app_length'
      by (rewrite !length_app; lia).
    by rewrite take_app_length'.
  - rewrite (app_assoc e s), (app_assoc (e ++ s) st), (app_assoc ((e ++ s) ++ st) p).
    by rewrite drop_app_length' by (rewrite !length_app; lia).
Qed.

Lemma resp_roundtrip r :
  length (r_ephemeral_pub r) = 32%nat -> length (auth_tag r) = 16%nat ->
  resp_from_bytes (resp_bytes r) = Some r.
Proof.
  intros He Ht. unfold resp_from_bytes, resp_bytes.
  rewrite decide_True by (rewrite length_app; unfold resp_size; lia).
  rewrite take_app_length', drop_app_length' by done. by destruct r.
Qed.

End Messages.
