(* ===== verification/NoiseIK.v ===== *)
(** * The Noise IK pattern (ts_noise/src/ik.rs)

    The handshake of the control protocol. *)

From S2P Require Import Prelude Packet Crypto Noise.

Module IK.
Section IK.
Context `{Crypto}.

Definition PROTOCOL : bytes := bytes_of_string "Noise_IK_25519_ChaChaPoly_BLAKE2s".

Record ReceivedHandshake := mkReceived {
  r_state : Core.State; peer_ephemeral_pub : bytes; peer_static_pub : bytes }.

Definition RESP_SIZE : nat := Messages.resp_size.

Definition received_new (packet prologue : bytes) (my_static : X25519KeyPair)
  : option ReceivedHandshake :=
  packet ← Messages.init_from_bytes 0 packet;
  let peer_ephemeral_pub := Messages.ephemeral_pub packet in
  let s := Core.new PROTOCOL in
  let s := Core.mix_hash s prologue in
  let s := Core.mix_hash s (public my_static) in
  let s := Core.mix_hash s (Messages.ephemeral_pub packet) in
  let s := Core.mix_dh s (private my_static) peer_ephemeral_pub in
  '(static_pub, s) ← Core.open s (Messages.static_pub packet) (Messages.static_pub_tag packet);
  let s := Core.mix_dh s (private my_static) static_pub in
  '(_, s) ← Core.open s [] (Messages.payload_tag packet);
  Some (mkReceived s peer_ephemeral_pub static_pub).

Definition finish_with_ephemeral (self : ReceivedHandshake) (packet : bytes)
    (my_ephemeral : X25519KeyPair) : outcome (Core.Session * bytes) :=
  if decide (length packet = RESP_SIZE) then
    let s := Core.mix_hash (r_state self) (public my_ephemeral) in
    let s := Core.mix_dh s (private my_ephemeral) (peer_ephemeral_pub self) in
    let s := Core.mix_dh_aead s (private my_ephemeral) (peer_static_pub self) in
    let '((_, auth_tag), s) := Core.seal s [] in
    Done (Core.finish_as_responder s,
          Messages.resp_bytes (Messages.mkResp (public my_ephemeral) auth_tag))
  else Panic.

Record SentHandshake := mkSent { s_state : Core.State; my_ephemeral : bytes }.

Definition INIT_SIZE : nat := Messages.init_size 0.

Definition new_with_ephemeral (my_static my_ephemeral : X25519KeyPair)
    (peer_static prologue out : bytes) : outcome (SentHandshake * bytes) :=
  if decide (length out = INIT_SIZE) then
    let s := Core.new PROTOCOL in
    let s := Core.mix_hash s prologue in
    let s := Core.mix_hash s peer_static in
    let s := Core.mix_hash s (public my_ephemeral) in
    let s := Core.mix_dh s (private my_ephemeral) peer_static in
    let '((static_ct, static_tag), s) := Core.seal s (public my_static) in
    let s := Core.mix_dh s (private my_static) peer_static in
    let '((_, payload_tag), s) := Core.seal s [] in
    Done (mkSent s (private my_ephemeral),
          Messages.init_bytes (Messages.mkInit (public my_ephemeral) static_ct static_tag
                                 [] payload_tag))
  else Panic.

Definition try_finish (self : SentHandshake) (packet : bytes) (my_static : X25519KeyPair)
    : Core.Session + SentHandshake :=
  match Messages.resp_from_bytes packet with
  | None => inr self
  | Some packet =>
      let peer_ephemeral_pub := Messages.r_ephemeral_pub packet in
      let s := Core.mix_hash (s_state self) (Messages.r_ephemeral_pub packet) in
      let s := Core.mix_dh s (my_ephemeral self) peer_ephemeral_pub in
      let s := Core.mix_dh_aead s (private my_static) peer_ephemeral_pub in
      match Core.open s [] (Messages.auth_tag packet) with
      | Some (_, s) => inl (Core.finish_as_initiator s)
      | None => inr self
      end
  end.

Lemma ik_received_new_of_sent `{!CryptoLaws} i_secret ie_secret r_secret prologue out :
  length out = INIT_SIZE ->
  let i := keypair_of i_secret in let ie := keypair_of ie_secret in
  let r := keypair_of r_secret in
  exists sent init_pkt,
    new_with_ephemeral i ie (public r) prologue out = Done (sent, init_pkt) /\
    length init_pkt = INIT_SIZE /\ my_ephemeral sent = ie_secret /\
    received_new init_pkt prologue r = Some (mkReceived (s_state sent) (public ie) (public i)).
Proof.
  intros Hout i ie r. unfold new_with_ephemeral. rewrite decide_True by done.
  set (s1 := Core.mix_hash _ (public ie)).
  set (d1 := Core.mix_dh s1 _ _).
  pose proof (Core.open_seal d1 (public i)) as O1.
  pose proof (Core.seal_lengths d1 (public i)) as [L1 L2].
  destruct (Core.seal d1 (public i)) as [[sct stag] s2]; simpl in O1, L1, L2.
  set (d2 := Core.mix_dh s2 _ _).
  pose proof (Core.open_seal d2 []) as O2.
  pose proof (Core.seal_lengths d2 []) as [L3 L4].
  destruct (Core.seal d2 []) as [[pct ptag] s3]; simpl in O2, L3, L4.
  apply nil_length_inv in L3. subst pct.
  do 2 eexists. split; [done|].
  assert (Hwf : Messages.init_wf 0 (Messages.mkInit (public ie) sct stag [] ptag)).
  { split; simpl; rewrite ?x25519_base_length; try lia. rewrite L1. apply x25519_base_length. }
  split; [by apply Messages.init_bytes_length|]. split; [done|].
  unfold received_new. rewrite (Messages.init_roundtrip 0 _ Hwf). simpl.
  fold s1. change (x25519_base ie_secret) with (public ie).
  replace (Core.mix_dh s1 r_secret (public ie)) with d1 by (unfold d1; apply Core.mix_dh_comm).
  rewrite O1. simpl.
  replace (Core.mix_dh s2 r_secret (x25519_base i_secret)) with d2
    by (unfold d2; apply Core.mix_dh_comm).
  rewrite O2. done.
Qed.

Lemma ik_try_finish_of_finish `{!CryptoLaws} st i_secret ie_secret re_secret out :
  length out = RESP_SIZE ->
  let i := keypair_of i_secret in let ie := keypair_of ie_secret in
  let re := keypair_of re_secret in
  exists sess_r sess_i resp_pkt,
    finish_with_ephemeral (mkReceived st (public ie) (public i)) out re
      = Done (sess_r, resp_pkt) /\
    try_finish (mkSent st ie_secret) resp_pkt i = inl sess_i /\
    Core.send sess_i = Core.recv sess_r /\ Core.recv sess_i = Core.send sess_r.
Proof.
  intros Hout i ie re. unfold finish_with_ephemeral. rewrite decide_True by done. simpl.
  set (s1 := Core.mix_hash st _). unfold Core.mix_dh_aead.
  set (d1 := Core.mix_dh s1 _ _). set (d2 := Core.mix_dh (Core.state d1) _ _).
  pose proof (Core.open_seal d2 []) as O. pose proof (Core.seal_lengths d2 []) as [L1 L2].
  destruct (Core.seal d2 []) as [[c tag] s2]; simpl in O, L1, L2.
  apply nil_length_inv in L1. subst c.
  do 3 eexists. split; [done|].
  unfold try_finish. rewrite Messages.resp_roundtrip by (simpl; rewrite ?x25519_base_length; done).
  simpl. fold s1. unfold Core.mix_dh_aead.
  replace (Core.mix_dh s1 ie_secret (x25519_base re_secret)) with d1
    by (unfold d1; apply Core.mix_dh_comm).
  replace (Core.mix_dh (Core.state d1) i_secret (x25519_base re_secret)) with d2
    by (unfold d2; apply Core.mix_dh_comm).
  rewrite O. split; [done|]. apply Core.split_matches.
Qed.

End IK.

(** IK handshakes (the control protocol's pattern) succeed and agree: the
    responder recovers the initiator's static public key, the initiator accepts
    the response, and the two ends hold matching session keys. *)
Theorem ik_handshake_agrees `{CryptoLaws}
    (i_secret ie_secret r_secret re_secret prologue out1 out2 : bytes) :
  length out1 = INIT_SIZE -> length out2 = RESP_SIZE ->
  let i := keypair_of i_secret in let ie := keypair_of ie_secret in
  let r := keypair_of r_secret in let re := keypair_of re_secret in
  exists sent init_pkt received sess_r resp_pkt sess_i,
    new_with_ephemeral i ie (public r) prologue out1 = Done (sent, init_pkt) /\
    received_new init_pkt prologue r = Some received /\
    peer_static_pub received = public i /\
    finish_with_ephemeral received out2 re = Done (sess_r, resp_pkt) /\
    try_finish sent resp_pkt i = inl sess_i /\
    Core.send sess_i = Core.recv sess_r /\ Core.recv sess_i = Core.send sess_r.
Proof.
  intros H1 H3 i ie r re.
  destruct (ik_received_new_of_sent i_secret ie_secret r_secret prologue out1 H1)
    as (sent & init_pkt & E1 & _ & Hme & E2).
  destruct (ik_try_finish_of_finish (s_state sent) i_secret ie_secret re_secret out2 H3)
    as (sess_r & sess_i & resp_pkt & E3 & E4 & E5).
  do 6 eexists. split; [exact E1|]. split; [exact E2|]. split; [done|].
  split; [exact E3|]. split; [|exact E5].
  destruct sent as [st me]; simpl in *. subst me. exact E4.
Qed.

#[local] Existing Instance Toy.toy.
#[local] Existing Instance Toy.toy_laws.

Lemma ik_handshake_agrees_witness :
  let k n := keypair_of [byte_of_Z n] in
  exists sent init_pkt received sess_r resp_pkt sess_i,
    new_with_ephemeral (k 1) (k 2) (public (k 3)) [x01] (zeroes 96) = Done (sent, init_pkt) /\
    received_new init_pkt [x01] (k 3) = Some received /\
    peer_static_pub received = public (k 1) /\
    finish_with_ephemeral received (zeroes 48) (k 4) = Done (sess_r, resp_pkt) /\
    try_finish sent resp_pkt (k 1) = inl sess_i /\
    Core.send sess_i = Core.recv sess_r /\ Core.recv sess_i = Core.send sess_r.
Proof.
  intros k.
  apply (ik_handshake_agrees [byte_of_Z 1] [byte_of_Z 2] [byte_of_Z 3] [byte_of_Z 4]
           [x01] (zeroes 96) (zeroes 48)); reflexivity.
Defined.

End IK.
