(* ===== verification/Framing.v ===== *)
(** * Frames of a byte stream

    What the sources rely on of [tokio_util::codec]: a framed reader calls [decode] on the
    bytes it has buffered; an item is handed on and [decode] called again; when [decode] asks
    for more, the next fragment that arrives is appended to the buffer.  [reads] states this
    contract for any [decode], and [frame] what makes bytes a frame for it. *)

From S2P Require Import Prelude Packet.

Module Framing.

Section Decoder.
Context {C I Err : Type} (decode : ST (C * bytes) (Err + option I)).

(** The items handed on while the fragments arrive, and what is left at the end. *)
Inductive reads : C * bytes -> list bytes -> list I -> C * bytes -> Prop :=
| reads_item s s' frags i items t : decode s = Done (inr (Some i), s') -> reads s' frags items t -> reads s frags (i :: items) t
| reads_more s c buf frag frags items t :
    decode s = Done (inr None, (c, buf)) -> reads (c, buf ++ frag) frags items t -> reads s (frag :: frags) items t
| reads_wait s t : decode s = Done (inr None, t) -> reads s [] [] t.

(** [decode] leaves every prefix of [w] in the buffer. *)
Definition quiet (c : C) (w : bytes) : Prop := forall p, p `prefix_of` w -> decode (c, p) = Done (inr None, (c, p)).

(** [w] is the frame of [i]: whatever follows it, it is decoded as [i], and its strict
    prefixes are left in the buffer. *)
Record frame (c : C) (w : bytes) (i : I) (c' : C) : Prop := {
  fr_some : w <> [];
  fr_whole rest : decode (c, w ++ rest) = Done (inr (Some i), (c', rest));
  fr_part p : p `prefix_of` w -> p <> w -> decode (c, p) = Done (inr None, (c, p));
}.

Inductive frames : C -> bytes -> list I -> C -> Prop :=
| frames_nil c : frames c [] [] c
| frames_cons c w i c1 ws items c' : frame c w i c1 -> frames c1 ws items c' -> frames c (w ++ ws) (i :: items) c'.

Lemma frames_app c w items c1 w' items' c' :
  frames c w items c1 -> frames c1 w' items' c' -> frames c (w ++ w') (items ++ items') c'.
Proof.
  induction 1 as [c|c v i c1' ws l c2 Hf _ IH]; intros H; [done|]. rewrite <- app_assoc. cbn [app]. econstructor; [exact Hf|by apply IH].
Qed.

(** Two prefixes of a list are comparable. *)
Lemma prefix_split (a b x y : bytes) : a ++ x = b ++ y -> (exists z, a = b ++ z) \/ (a `prefix_of` b /\ a <> b).
Proof.
  intros E. destruct (decide (length b <= length a)%nat) as [Hl|Hl].
  - left. exists (drop (length b) a). rewrite <- (take_drop (length b) a) at 1. f_equal.
    apply (f_equal (take (length b))) in E. by rewrite take_app_le, take_app_length in E by done.
  - right. split; [|intros ->; lia]. exists (drop (length a) b). rewrite <- (take_drop (length a) b) at 1. f_equal.
    apply (f_equal (take (length a))) in E. rewrite take_app_length, take_app_le in E by lia. done.
Qed.

(** However the stream is cut, its frames are decoded in order, and an incomplete frame at
    the end stays in the buffer. *)
Lemma reads_frames c wire items c' rest buf frags :
  frames c wire items c' -> quiet c' rest -> buf ++ concat frags = wire ++ rest -> reads (c, buf) frags items (c', rest).
Proof.
  intros Hf. revert buf frags. induction Hf as [c|c w i c1 ws items c' Hw Hf IH]; intros buf frags Hq.
  - revert buf. induction frags as [|f frags IH]; intros buf E; cbn [concat app] in E.
    + rewrite app_nil_r in E. subst buf. apply reads_wait, Hq. done.
    + econstructor; [apply Hq; rewrite <- E; by eexists|]. apply IH. by rewrite <- app_assoc.
  - revert buf. induction frags as [|f frags IHf]; intros buf E; rewrite <- app_assoc in E;
      destruct (prefix_split _ _ _ _ E) as [(z & ->)|[Hp Hne]].
    + rewrite <- !app_assoc in E. apply app_inv_head in E. econstructor; [apply (fr_whole _ _ _ _ Hw)|by apply IH].
    + exfalso. cbn [concat] in E. rewrite app_nil_r in E. apply Hne. apply (f_equal length) in E as El. rewrite length_app in El.
      destruct Hp as [z Hz]. apply (f_equal length) in Hz as Hl. rewrite length_app in Hl. destruct z; [by rewrite app_nil_r in Hz|cbn in Hl; lia].
    + rewrite <- !app_assoc in E. apply app_inv_head in E. econstructor; [apply (fr_whole _ _ _ _ Hw)|by apply IH].
    + econstructor; [by apply (fr_part _ _ _ _ Hw)|]. apply IHf. rewrite <- !app_assoc. exact E.
Qed.

(** The fragments determine what is read. *)
Lemma reads_det s frags items t items' t' : reads s frags items t -> reads s frags items' t' -> items' = items /\ t' = t.
Proof.
  intros H. revert items' t'. induction H as [s s1 frags i items t E _ IH|s c buf f frags items t E _ IH|s t E]; intros items' t' H';
    inversion H' as [? ? ? ? ? ? E' H1|? ? ? ? ? ? ? E' H1|? ? E']; subst; rewrite E in E'; try discriminate E'.
  - injection E' as <- <-. destruct (IH _ _ H1) as [-> ->]. done.
  - injection E' as <- <-. by apply IH.
  - injection E' as <-. done.
Qed.

End Decoder.
End Framing.
