(* ===== verification/ControlNoise.v ===== *)
(** * The transport to the control server (ts_control_noise)

    A handshake over Noise IK, then records of at most 4077 bytes, each sealed under a counter,
    presented as one byte stream in each direction. *)

From S2P Require Import Prelude Packet Crypto Noise NoiseIK Framing.

Module ControlNoise.

(** ** Messages (messages.rs) *)
Inductive MessageType : Type := Initiation | Response | ErrorMsg | RecordMsg.

#[export] Instance control_type_eq_dec : EqDecision MessageType.
Proof. solve_decision. Defined.

Definition type_byte (t : MessageType) : byte :=
  match t with Initiation => x01 | Response => x02 | ErrorMsg => x03 | RecordMsg => x04 end.

Definition type_of (b : byte) : option MessageType :=
  match b with x01 => Some Initiation | x02 => Some Response | x03 => Some ErrorMsg | x04 => Some RecordMsg | _ => None end.

Record Header : Type := mkHeader { typ : MessageType; hdr_len : Z }.

Definition header_bytes (h : Header) : bytes := type_byte (typ h) :: be_bytes 2 (hdr_len h).

(** [Header::try_ref_from_prefix]: an error of size, an error of validity, or the header with
    the rest. *)
Inductive Cast : Type := SizeErr | ValidityErr | Cast_ok (h : Header) (rest : bytes).

Definition header_prefix (src : bytes) : Cast :=
  match src with
  | t :: a :: b :: rest =>
      match type_of t with
      | Some t => Cast_ok (mkHeader t (be_int [a; b])) rest
      | None => ValidityErr
      end
  | _ => SizeErr
  end.

(** [Initiation::new(..).as_bytes()] *)
Definition initiation_bytes (capability_version overhead_len : Z) (payload : bytes) : bytes :=
  be_bytes 2 capability_version ++ header_bytes (mkHeader Initiation overhead_len) ++ payload.

(** ** Records (codec.rs) *)
Definition AEAD_OVERHEAD : nat := 16.
Definition MAX_CHUNK_SIZE : nat := 4096 - 3 - AEAD_OVERHEAD.

Record Codec : Type := mkCodec { cipher : bytes; next_nonce : Z }.

Definition codec_from (key : bytes) : Codec := mkCodec key 0.

(** [Codec::next_nonce] *)
Definition take_nonce (self : Codec) : outcome (bytes * Codec) :=
  if decide (next_nonce self = u64_max) then Panic
  else Done (zeroes 4 ++ be_bytes 8 (next_nonce self), mkCodec (cipher self) (next_nonce self + 1)).

(** [b.chunks(n)] *)
Fixpoint chunks_fuel (fuel n : nat) (b : bytes) : list bytes :=
  match fuel, b with
  | S fuel, _ :: _ => take n b :: chunks_fuel fuel n (drop n b)
  | _, _ => []
  end.

Definition chunks (n : nat) (b : bytes) : list bytes := chunks_fuel (length b) n b.

Inductive IoError : Type := InvalidData.

Section Codec.
Context `{Crypto}.

(** The loop of [Codec<Tx>::encode]. *)
Fixpoint encode_chunks (cs : list bytes) (dst : bytes) : ST Codec bytes := fun self =>
  match cs with
  | [] => Done (dst, self)
  | chunk :: cs =>
      len ← add_w 16 (Z.of_nat (length chunk) mod U16) (Z.of_nat AEAD_OVERHEAD);
      '(nonce, self) ← take_nonce self;
      let '(ciphertext, tag) := aead_seal (cipher self) nonce [] chunk in
      encode_chunks cs (dst ++ header_bytes (mkHeader RecordMsg len) ++ ciphertext ++ tag) self
  end.

Definition encode (b dst : bytes) : ST Codec bytes := encode_chunks (chunks MAX_CHUNK_SIZE b) dst.

(** [Codec<Rx>::decode] *)
Definition decode : ST (Codec * bytes) (IoError + option bytes) := fun '(self, src) =>
  match header_prefix src with
  | SizeErr => Done (inr None, (self, src))
  | ValidityErr => Done (inl InvalidData, (self, src))
  | Cast_ok header rest =>
      let len := Z.to_nat (hdr_len header) in
      if decide (length rest < len)%nat then Done (inr None, (self, src))
      else
        let body := take len rest in
        let src := drop len rest in
        match typ header with
        | RecordMsg =>
            '(nonce, self) ← take_nonce self;
            if decide (AEAD_OVERHEAD <= length body)%nat then
              let at_ := (length body - AEAD_OVERHEAD)%nat in
              match aead_open (cipher self) nonce [] (take at_ body) (drop at_ body) with
              | Some body => Done (inr (Some body), (self, src))
              | None => Done (inl InvalidData, (self, src))
              end
            else Panic
        | ErrorMsg => Done (inr None, (self, src))
        | _ => Done (inl InvalidData, (self, src))
        end
  end.

(** [BiCodec]: one codec per direction *)
Record BiCodec : Type := mkBi { tx : Codec; rx : Codec }.

Definition bicodec_from (s : Core.Session) : BiCodec := mkBi (codec_from (Core.send s)) (codec_from (Core.recv s)).

(** ** The handshake (handshake.rs)

    [encode64] is the base64 encoder; the reading end of the connection is the bytes that
    arrive on it. *)
Inductive Error : Type := BadFormat | HandshakeFailed | Io.

Definition initialize (encode64 : bytes -> string) (prologue : bytes) (node_machine_key ephemeral : X25519KeyPair)
    (control_public_key : bytes) (capability_version : Z) : outcome (IK.SentHandshake * string) :=
  '(state, ciphertext) ← IK.new_with_ephemeral node_machine_key ephemeral control_public_key prologue (zeroes IK.INIT_SIZE);
  Done (state, encode64 (initiation_bytes capability_version (Z.of_nat IK.INIT_SIZE) ciphertext)).

Definition read_exact (n : nat) (conn : bytes) : option (bytes * bytes) :=
  if decide (n <= length conn)%nat then Some (take n conn, drop n conn) else None.

(** [Handshake::complete] on a connection that ends after [conn]: the codec, and the bytes not
    read yet. *)
Definition complete (self : IK.SentHandshake) (conn : bytes) (node_machine_key : X25519KeyPair) : Error + (BiCodec * bytes) :=
  match read_exact 3 conn with
  | None => inl Io
  | Some (hdr, conn) =>
      match header_prefix hdr with
      | Cast_ok hdr _ =>
          match read_exact (Z.to_nat (hdr_len hdr)) conn with
          | None => inl Io
          | Some (packet, conn) =>
              if decide (typ hdr = Response) then
                match IK.try_finish self packet node_machine_key with
                | inl session => inr (bicodec_from session, conn)
                | inr _ => inl HandshakeFailed
                end
              else inl BadFormat
          end
      | _ => inl BadFormat
      end
  end.

End Codec.

(** ** The byte stream (framed_io.rs)

    [inner] are the results the inner stream is ready to yield; it then is pending, or at its
    end. *)
Record FramedIo : Type := mkFramedIo { chunk : option bytes; inner : list (IoError + bytes); ended : bool }.

Inductive Poll (A : Type) : Type := Ready (r : IoError + A) | Pending.
Arguments Ready {A}.
Arguments Pending {A}.

Definition framed_new (inner : list (IoError + bytes)) (ended : bool) : FramedIo := mkFramedIo None inner ended.

Definition has_chunk (self : FramedIo) : bool :=
  match chunk self with Some c => negb (Nat.eqb (length c) 0) | None => false end.

Fixpoint fill_buf (chunk : option bytes) (inner : list (IoError + bytes)) (ended : bool) : Poll bytes * FramedIo :=
  if has_chunk (mkFramedIo chunk inner ended) then (Ready (inr (default [] chunk)), mkFramedIo chunk inner ended)
  else match inner with
    | inr c :: inner => fill_buf (Some c) inner ended
    | inl e :: inner => (Ready (inl e), mkFramedIo chunk inner ended)
    | [] => (if ended then Ready (inr []) else Pending, mkFramedIo chunk inner ended)
    end.

(** [consume(amt)] *)
Definition consume (self : FramedIo) (amt : nat) : outcome FramedIo :=
  if decide (0 < amt)%nat then
    match chunk self with
    | Some c => if decide (amt <= length c)%nat then Done (mkFramedIo (Some (drop amt c)) (inner self) (ended self)) else Panic
    | None => Panic
    end
  else Done self.

(** [poll_read] into a buffer with room for [n] bytes: the bytes put there. *)
Definition poll_read (n : nat) (self : FramedIo) : outcome (Poll bytes * FramedIo) :=
  if decide (n = 0)%nat then Done (Ready (inr []), self)
  else
    match fill_buf (chunk self) (inner self) (ended self) with
    | (Ready (inr inner_buf), self) =>
        let len := Nat.min (length inner_buf) n in
        self ← consume self len;
        Done (Ready (inr (take len inner_buf)), self)
    | (r, self) => Done (r, self)
    end.

(** [poll_write] on a sink that is ready: the whole buffer is encoded behind [dst]. *)
Definition poll_write `{Crypto} (buf dst : bytes) : ST Codec (nat * bytes) :=
  dst ← encode buf dst; mret (length buf, dst).

End ControlNoise.

(** * Correctness of the control transport

    After the handshake each end reads exactly the bytes the other end writes, however writes
    are sized, the network cuts the stream and the reader sizes its buffers. *)

Module ControlStream.
Import Framing ControlNoise.

(** ** Chunks *)

Lemma chunks_spec fuel n b : (0 < n)%nat -> (length b <= fuel)%nat ->
  concat (chunks_fuel fuel n b) = b /\ Forall (fun c => 0 < length c <= n)%nat (chunks_fuel fuel n b).
Proof.
  intros Hn. revert b. induction fuel as [|fuel IH]; intros b Hb; [destruct b; [by split|cbn in Hb; lia]|].
  destruct b as [|x b]; [by split|]. cbn [chunks_fuel]. destruct (IH (drop n (x :: b))) as [H1 H2]; [rewrite length_drop; cbn in *; lia|].
  split; [cbn [concat]; by rewrite H1, take_drop|]. constructor; [rewrite length_take; cbn; lia|done].
Qed.

Lemma chunks_ok b : concat (chunks MAX_CHUNK_SIZE b) = b /\ Forall (fun c => 0 < length c <= MAX_CHUNK_SIZE)%nat (chunks MAX_CHUNK_SIZE b).
Proof. apply chunks_spec; [vm_compute; lia|done]. Qed.

Section Stream.
Context `{L : CryptoLaws}.

Definition nonce_of (z : Z) : bytes := zeroes 4 ++ be_bytes 8 z.

(** The wire form of a chunk. *)
Definition record_of (key : bytes) (z : Z) (c : bytes) : bytes :=
  header_bytes (mkHeader RecordMsg (Z.of_nat (length c) + 16)) ++ (aead_seal key (nonce_of z) [] c).1 ++ (aead_seal key (nonce_of z) [] c).2.

Lemma record_body key z c :
  length ((aead_seal key (nonce_of z) [] c).1 ++ (aead_seal key (nonce_of z) [] c).2) = (length c + 16)%nat.
Proof. by rewrite length_app, aead_ct_length, aead_tag_length. Qed.

Lemma header_prefix_record z rest : 0 <= z < U16 ->
  header_prefix (header_bytes (mkHeader RecordMsg z) ++ rest) = Cast_ok (mkHeader RecordMsg z) rest.
Proof.
  intros Hz. unfold header_bytes. cbn [typ hdr_len type_byte app]. destruct (be_bytes 2 z) as [|a [|b [|]]] eqn:E;
    try (apply (f_equal length) in E; rewrite be_bytes_length in E; discriminate E).
  cbn [app header_prefix type_of]. rewrite <- E, be_roundtrip by done. done.
Qed.

Lemma max_chunk : Z.of_nat MAX_CHUNK_SIZE = 4077.
Proof. done. Qed.

Lemma take_nonce_ok key z : 0 <= z < u64_max -> take_nonce (mkCodec key z) = Done (nonce_of z, mkCodec key (z + 1)).
Proof. intros Hz. unfold take_nonce. cbn [next_nonce cipher]. by rewrite decide_False by lia. Qed.

Lemma record_frame key z c : 0 <= z < u64_max -> (length c <= MAX_CHUNK_SIZE)%nat ->
  frame decode (mkCodec key z) (record_of key z c) c (mkCodec key (z + 1)).
Proof.
  intros Hz Hc. pose proof max_chunk as Hm. assert (Hl : 0 <= Z.of_nat (length c) + 16 < U16) by (unfold U16; lia).
  pose proof (record_body key z c) as Hb. pose proof (aead_open_seal key (nonce_of z) [] c) as Ho.
  pose proof (aead_ct_length key (nonce_of z) [] c) as Hct. unfold record_of in *.
  set (ct := (aead_seal key (nonce_of z) [] c).1) in *. set (tag := (aead_seal key (nonce_of z) [] c).2) in *. split.
  - discriminate.
  - intros rest. unfold decode. rewrite <- app_assoc, header_prefix_record by done. cbn [hdr_len typ].
    replace (Z.to_nat (Z.of_nat (length c) + 16)) with (length (ct ++ tag)) by lia.
    rewrite decide_False by (rewrite length_app; lia). rewrite take_app_length, drop_app_length, take_nonce_ok by done.
    cbn [mbind outcome_bind cipher]. rewrite decide_True by (unfold AEAD_OVERHEAD; lia). rewrite Hb. unfold AEAD_OVERHEAD.
    replace (length c + 16 - 16)%nat with (length ct) by lia. by rewrite take_app_length, drop_app_length, Ho.
  - intros p [q Hq] Hne. unfold decode. destruct p as [|t [|a [|b rest]]]; [done..|].
    assert (Hp : header_prefix (t :: a :: b :: rest) = Cast_ok (mkHeader RecordMsg (Z.of_nat (length c) + 16)) rest /\ (ct ++ tag) = rest ++ q).
    { pose proof (header_prefix_record _ (ct ++ tag) Hl) as Hh. rewrite Hq in Hh. cbn [app header_prefix] in *. destruct (type_of t); [|done].
      injection Hh as -> Hz' Hr. by rewrite Hz', Hr. }
    destruct Hp as [-> Hr]. cbn [hdr_len]. rewrite decide_True; [done|]. rewrite Hr, length_app in Hb. destruct q as [|x q]; [|cbn in Hb; lia].
    exfalso. apply Hne. by rewrite Hq, app_nil_r.
Qed.

(** Encoding chunks appends one record per chunk. *)
Lemma encode_chunks_frames key cs z dst :
  Forall (fun c => 0 < length c <= MAX_CHUNK_SIZE)%nat cs -> 0 <= z -> z + Z.of_nat (length cs) <= u64_max ->
  exists wire, encode_chunks cs dst (mkCodec key z) = Done (dst ++ wire, mkCodec key (z + Z.of_nat (length cs))) /\
    frames decode (mkCodec key z) wire cs (mkCodec key (z + Z.of_nat (length cs))).
Proof.
  intros Hf. revert z dst. induction Hf as [|c cs Hc _ IH]; intros z dst Hz Hn; cbn [encode_chunks length].
  { exists []. rewrite app_nil_r, Z.add_0_r. split; [done|constructor]. }
  cbn [length] in Hn. pose proof max_chunk as Hm. destruct (IH (z + 1) (dst ++ record_of key z c)) as (wire & E & Hw); [lia..|].
  replace (z + 1 + Z.of_nat (length cs)) with (z + Z.of_nat (S (length cs))) in * by lia. exists (record_of key z c ++ wire). split.
  - unfold add_w. rewrite Z.mod_small by (unfold U16; lia). rewrite (proj2 (Z.ltb_lt _ _)) by (unfold AEAD_OVERHEAD; lia).
    cbn [mbind outcome_bind]. rewrite take_nonce_ok by lia. cbn [cipher]. transitivity (encode_chunks cs (dst ++ record_of key z c) (mkCodec key (z + 1))).
    + cbn. unfold record_of. cbn. by destruct (aead_seal key (nonce_of z) [] c).
    + by rewrite E, app_assoc.
  - econstructor; [apply record_frame; lia|exact Hw].
Qed.

(** A sequence of writes. *)
Fixpoint write_all (writes : list bytes) (dst : bytes) : ST Codec bytes :=
  match writes with
  | [] => mret dst
  | b :: writes => r ← poll_write b dst; write_all writes r.2
  end.

(** The number of records of some writes. *)
Definition records (writes : list bytes) : nat := sum_list_with (fun b => length (chunks MAX_CHUNK_SIZE b)) writes.

Lemma write_all_frames key writes z dst :
  0 <= z -> z + Z.of_nat (records writes) <= u64_max ->
  exists wire items c', write_all writes dst (mkCodec key z) = Done (dst ++ wire, c') /\ frames decode (mkCodec key z) wire items c' /\
    concat items = concat writes /\ Forall (fun c => 0 < length c)%nat items.
Proof.
  revert z dst. induction writes as [|b writes IH]; intros z dst Hz Hn; cbn [write_all].
  { exists [], [], (mkCodec key z). rewrite app_nil_r. split_and!; [done|constructor|done|constructor]. }
  unfold records in Hn. cbn [sum_list_with] in Hn. fold (records writes) in Hn. destruct (chunks_ok b) as [Hb Hc].
  destruct (encode_chunks_frames key (chunks MAX_CHUNK_SIZE b) z dst Hc Hz) as (w1 & E1 & F1); [lia|].
  destruct (IH (z + Z.of_nat (length (chunks MAX_CHUNK_SIZE b))) (dst ++ w1)) as (w2 & items & c' & E2 & F2 & Hcc & Hf); [lia..|].
  exists (w1 ++ w2), (chunks MAX_CHUNK_SIZE b ++ items), c'. split_and!.
  - unfold poll_write, encode, mbind, ST_bind, mret, ST_ret. rewrite E1. cbn [snd]. rewrite E2. by rewrite app_assoc.
  - by eapply frames_app.
  - rewrite concat_app, Hb, Hcc. done.
  - apply Forall_app. split; [|done]. eapply Forall_impl; [exact Hc|]. cbn. intros c [? _]. done.
Qed.

(** ** Reading *)

(** A sequence of reads into buffers of the given sizes: the bytes obtained. *)
Fixpoint read_many (sizes : list nat) (io : FramedIo) : outcome (bytes * FramedIo) :=
  match sizes with
  | [] => Done ([], io)
  | n :: sizes =>
      '(r, io) ← poll_read n io;
      '(bs, io) ← read_many sizes io;
      Done (match r with Ready (inr b) => b ++ bs | _ => bs end, io)
  end.

(** What a stream without errors still has to give. *)
Definition clean (io : FramedIo) (left : bytes) : Prop :=
  exists items, inner io = map inr items /\ ended io = false /\ default [] (chunk io) ++ concat items = left.

Lemma fill_buf_clean c items left :
  default [] c ++ concat items = left ->
  match fill_buf c (map inr items) false with
  | (Ready (inr b), io) => b <> [] /\ chunk io = Some b /\ clean io left
  | (Pending, io) => left = [] /\ clean io left
  | _ => False
  end.
Proof.
  revert c. induction items as [|i items IH]; intros c Hl; cbn [map fill_buf]; unfold has_chunk; cbn [chunk].
  - destruct c as [[|x c]|]; cbn in Hl |- *; rewrite ?app_nil_r in Hl; split_and!; try done; exists []; by rewrite ?app_nil_r.
  - destruct c as [[|x c]|]; cbn [length Nat.eqb negb]; [apply IH; cbn in *; done| |apply IH; cbn in *; done].
    cbn. split_and!; [done..|]. exists (i :: items). by split_and!.
Qed.

Lemma poll_read_clean n io left : clean io left ->
  exists b io', clean io' (drop (length b) left) /\ b `prefix_of` left /\ (length b <= n)%nat /\ ((0 < n)%nat -> left <> [] -> b <> []) /\
    (poll_read n io = Done (Ready (inr b), io') \/ poll_read n io = Done (Pending, io') /\ b = []).
Proof.
  intros (items & Hi & He & Hl). unfold poll_read. case_decide as Hn.
  { exists [], io. split_and!; [by exists items|by apply prefix_nil|cbn; lia|intros ?; lia|by left]. }
  pose proof (fill_buf_clean (chunk io) items left Hl) as H. rewrite Hi, He. destruct (fill_buf (chunk io) (map inr items) false) as [[[e|b]|] io1]; [done| |].
  - destruct H as (Hb & Hc & (items1 & H1 & H2 & H3)). rewrite Hc in H3. cbn in H3. set (k := Nat.min (length b) n).
    assert (Hk : (0 < k)%nat) by (unfold k; destruct b; [done|cbn [length]; lia]). assert (Ht : length (take k b) = k) by (rewrite length_take; lia).
    exists (take k b), (mkFramedIo (Some (drop k b)) (inner io1) (ended io1)). rewrite Ht. split_and!.
    + exists items1. split_and!; [done..|]. cbn. by rewrite <- H3, drop_app_le by lia.
    + exists (drop k b ++ concat items1). by rewrite app_assoc, take_drop.
    + lia.
    + intros _ _ E. apply (f_equal length) in E. rewrite Ht in E. cbn in E. lia.
    + left. unfold consume. by rewrite decide_True, Hc, decide_True by lia.
  - destruct H as [-> H]. exists [], io1. split_and!; [done|by apply prefix_nil|cbn; lia|done|by right].
Qed.

(** Reads return consecutive pieces, and enough of them return everything. *)
Lemma read_many_ok sizes io left : clean io left ->
  exists bs io', read_many sizes io = Done (bs, io') /\ bs `prefix_of` left /\
    (Forall (fun n => 0 < n)%nat sizes -> (length left <= length sizes)%nat -> bs = left).
Proof.
  revert io left. induction sizes as [|n sizes IH]; intros io left Hc; cbn [read_many length].
  { exists [], io. split_and!; [done|by apply prefix_nil|]. intros _ H. by destruct left; [|cbn in H; lia]. }
  destruct (poll_read_clean n io left Hc) as (b & io1 & Hc1 & [t ->] & Hbn & Hb & Hr). rewrite drop_app_length in Hc1.
  destruct (IH io1 t Hc1) as (bs & io' & E & [u ->] & Hall). exists (b ++ bs), io'. split_and!.
  - destruct Hr as [->|[-> ->]]; cbn; by rewrite E.
  - exists u. by rewrite app_assoc.
  - intros Hf Hlen. inversion Hf; subst. f_equal. rewrite !length_app in Hlen. destruct b as [|x b].
    + destruct (decide (bs ++ u = [])) as [Eb|Eb]; [apply Hall; [done|rewrite Eb; cbn; lia]|]. exfalso. by apply Hb.
    + apply Hall; [done|]. rewrite length_app. cbn in Hlen. lia.
Qed.

(** One direction of the connection: what is written at [tx] is read at [rx]. *)
Definition carries (tx rx : Codec) : Prop := forall writes,
  Z.of_nat (records writes) <= u64_max ->
  exists wire tx', write_all writes [] tx = Done (wire, tx') /\
    forall frags, concat frags = wire ->
      exists items rx', reads decode (rx, []) frags items (rx', []) /\
        forall sizes, exists bs io, read_many sizes (framed_new (map inr items) false) = Done (bs, io) /\ bs `prefix_of` concat writes /\
          (Forall (fun n => 0 < n)%nat sizes -> (length (concat writes) <= length sizes)%nat -> bs = concat writes).

Lemma codec_carries key : carries (codec_from key) (codec_from key).
Proof.
  intros writes Hw. destruct (write_all_frames key writes 0 []) as (wire & items & c' & E & F & Hc & _); [lia..|].
  exists wire, c'. split; [exact E|]. intros frags Hf. exists items, c'. split.
  - apply (reads_frames decode _ wire items c' [] [] frags F); [|by rewrite app_nil_r]. intros p Hp. apply prefix_nil_inv in Hp as ->. done.
  - intros sizes. rewrite <- Hc. apply read_many_ok. exists items. by split_and!.
Qed.

(** C11: the control connection is a reliable stream in both directions.  The client's
    initiation is accepted by a server that knows the client's key and answers with a
    response; [complete] then succeeds on the response, and in both directions any writes are
    sealed without a panic, decoded from any fragmentation of the stream, and read back in
    order by reads of any sizes; reads into non-empty buffers obtain all of it. *)
Theorem control_stream_delivers (encode64 : bytes -> string) (i_secret ie_secret r_secret re_secret prologue conn : bytes) (capability : Z) :
  let i := keypair_of i_secret in let ie := keypair_of ie_secret in let r := keypair_of r_secret in let re := keypair_of re_secret in
  exists sent init received session response codec,
    initialize encode64 prologue i ie (public r) capability = Done (sent, encode64 (initiation_bytes capability 96 init)) /\
    IK.received_new init prologue r = Some received /\ IK.peer_static_pub received = public i /\
    IK.finish_with_ephemeral received (zeroes IK.RESP_SIZE) re = Done (session, response) /\
    complete sent (header_bytes (mkHeader Response 48) ++ response ++ conn) i = inr (codec, conn) /\
    carries (tx codec) (codec_from (Core.recv session)) /\ carries (codec_from (Core.send session)) (rx codec).
Proof.
  intros i ie r re. subst i ie r re. destruct (IK.ik_received_new_of_sent i_secret ie_secret r_secret prologue (zeroes IK.INIT_SIZE) eq_refl)
    as ([st me] & init & E1 & Hl & Hme & E2). cbn in Hme. subst me.
  destruct (IK.ik_try_finish_of_finish st i_secret ie_secret re_secret (zeroes IK.RESP_SIZE) eq_refl) as (sr & si & resp & E3 & E4 & E5 & E6).
  assert (Hr : length resp = 48%nat).
  { unfold IK.finish_with_ephemeral in E3. cbn [IK.r_state] in E3. case_decide; [|done].
    match type of E3 with context [Core.seal ?x ?y] => pose proof (Core.seal_lengths x y) as [_ Ht]; destruct (Core.seal x y) as [[? ?] ?] end.
    injection E3 as _ <-. unfold Messages.resp_bytes. cbn in Ht |- *. rewrite length_app, x25519_base_length, Ht. done. }
  exists (IK.mkSent st ie_secret), init, (IK.mkReceived st (public (keypair_of ie_secret)) (public (keypair_of i_secret))), sr, resp, (bicodec_from si). split_and!.
  - unfold initialize. by rewrite E1.
  - exact E2.
  - done.
  - exact E3.
  - unfold complete. change (header_bytes (mkHeader Response 48)) with [x02; x00; x30]. cbn [app]. unfold read_exact.
    rewrite decide_True by (cbn; lia). change (take 3 _) with [x02; x00; x30]. change (drop 3 _) with (resp ++ conn).
    cbn [header_prefix type_of hdr_len typ]. change (Z.to_nat (be_int [x00; x30])) with 48%nat. rewrite decide_True by (rewrite length_app; lia).
    rewrite decide_True by done. rewrite <- Hr, take_app_length, drop_app_length. by rewrite E4.
  - unfold bicodec_from. cbn [tx]. rewrite E5. apply codec_carries.
  - unfold bicodec_from. cbn [rx]. rewrite <- E6. apply codec_carries.
Qed.

(** A short record panics.  A frame of type record whose body is shorter than the tag
    makes [decode] panic, whatever the key: anyone who can write to the connection can do
    it. *)
Theorem short_record_panics (self : Codec) (body rest : bytes) :
  (length body < AEAD_OVERHEAD)%nat ->
  decode (self, header_bytes (mkHeader RecordMsg (Z.of_nat (length body))) ++ body ++ rest) = Panic.
Proof.
  intros Hb. unfold AEAD_OVERHEAD in Hb. unfold decode. rewrite header_prefix_record by (unfold U16; lia). cbn [hdr_len typ]. rewrite Nat2Z.id.
  rewrite decide_False by (rewrite length_app; lia). rewrite take_app_length. destruct (take_nonce self) as [[nonce self']|]; [|done].
  cbn [mbind outcome_bind]. by rewrite decide_False by (unfold AEAD_OVERHEAD; lia).
Qed.

(** A record behind an error message waits.  [decode] consumes an error message and asks for
    more input, so that a complete record that arrived with it is not handed on. *)
Lemma error_message_delays key z c :
  reads decode (mkCodec key z, []) [header_bytes (mkHeader ErrorMsg 0) ++ record_of key z c] [] (mkCodec key z, record_of key z c).
Proof. eapply reads_more; [reflexivity|]. apply reads_wait. reflexivity. Qed.

End Stream.

(** ** Concrete instances *)
Module Example.
#[local] Existing Instance Toy.toy.
#[local] Existing Instance Toy.toy_laws.

Lemma control_stream_delivers_witness :
  exists sent session response codec,
    initialize (fun _ => EmptyString) [x01] (keypair_of [x01]) (keypair_of [x02]) (public (keypair_of [x03])) 5 = Done (sent, EmptyString) /\
    complete sent (header_bytes (mkHeader Response 48) ++ response ++ []) (keypair_of [x01]) = inr (codec, []) /\
    carries (tx codec) (codec_from (Core.recv session)) /\ carries (codec_from (Core.send session)) (rx codec).
Proof.
  destruct (control_stream_delivers (fun _ => EmptyString) [x01] [x02] [x03] [x04] [x01] [] 5)
    as (sent & init & received & session & response & codec & E1 & _ & _ & _ & E2 & H1 & H2).
  exists sent, session, response, codec. split; [exact E1|]. split; [exact E2|]. split; [exact H1|exact H2].
Defined.

Lemma short_record_panics_witness : decode (mkCodec [x01] 5, [x04; x00; x02; x07; x08; x09]) = Panic.
Proof. apply (short_record_panics (mkCodec [x01] 5) [x07; x08] [x09]). vm_compute. lia. Defined.

End Example.
End ControlStream.
