(* ===== verification/Keys.v ===== *)
(** * The text form of keys (ts_keys/src/macros.rs)

    Every key type is 32 bytes and prints as a prefix, a colon and 64 hexadecimal digits.
    Strings are their UTF-8 bytes. *)

From S2P Require Import Prelude Packet.

Module Keys.

Inductive ParseError : Type := InvalidFormat | WrongLength | BadPrefix.

Definition KEY_LEN_BYTES : nat := 32.
Definition KEY_LEN_HEX_STR : nat := 64.

Definition colon : byte := x3a.

(** One lower-case digit of [{b:02x}]. *)
Definition hex_digit (d : Z) : byte := byte_of_Z (if d <? 10 then 48 + d else 87 + d).

Definition hex_byte (b : byte) : bytes := [hex_digit (byte_to_Z b / 16); hex_digit (byte_to_Z b mod 16)].

(** [Display] *)
Definition to_string (prefix key : bytes) : bytes := prefix ++ colon :: concat (map hex_byte key).

(** [char::to_digit(16)] of an ASCII byte *)
Definition to_digit (b : byte) : option Z :=
  let z := byte_to_Z b in
  if (48 <=? z) && (z <=? 57) then Some (z - 48)
  else if (97 <=? z) && (z <=? 102) then Some (z - 87)
  else if (65 <=? z) && (z <=? 70) then Some (z - 55)
  else None.

Fixpoint digits (acc : Z) (l : bytes) : option Z :=
  match l with
  | [] => Some acc
  | b :: l => match to_digit b with Some d => digits (16 * acc + d) l | None => None end
  end.

(** [u8::from_str_radix(slice, 16)] of at most two bytes, which cannot overflow: a sign alone
    is refused, a leading plus is skipped. *)
Definition from_str_radix (l : bytes) : option Z :=
  match l with
  | [] | [x2b] | [x2d] => None
  | x2b :: l => digits 0 l
  | _ => digits 0 l
  end.

(** [str::is_char_boundary] *)
Definition is_char_boundary (s : bytes) (i : nat) : bool :=
  match s !! i with
  | Some b => negb ((128 <=? byte_to_Z b) && (byte_to_Z b <? 192))
  | None => Nat.eqb i (length s)
  end.

(** [s.get(i..i + 2)] *)
Definition get2 (s : bytes) (i : nat) : option bytes :=
  if (Nat.leb (i + 2) (length s) && is_char_boundary s i && is_char_boundary s (i + 2))%bool then Some (take 2 (drop i s)) else None.

(** The loop over the pairs of digits, from position [i] on. *)
Fixpoint parse_pairs (n : nat) (hex_str : bytes) (i : nat) : outcome bytes :=
  match n with
  | O => Done []
  | S n =>
      slice ← unwrap (get2 hex_str i);
      x ← unwrap (from_str_radix slice);
      key ← parse_pairs n hex_str (i + 2);
      Done (byte_of_Z x :: key)
  end.

(** [s.split(c)] *)
Fixpoint split (c : byte) (s : bytes) : list bytes :=
  match s with
  | [] => [[]]
  | b :: s =>
      if decide (b = c) then [] :: split c s
      else match split c s with [] => [[b]] | w :: ws => (b :: w) :: ws end
  end.

(** [FromStr] *)
Definition from_str (key_prefix s : bytes) : outcome (ParseError + bytes) :=
  if decide (length s = KEY_LEN_HEX_STR + length key_prefix + 1)%nat then
    match split colon s with
    | [] => Done (inl InvalidFormat)
    | prefix :: parts =>
        if decide (prefix = key_prefix) then
          match parts with
          | [] => Done (inl WrongLength)
          | hex_str :: parts =>
              if decide (length hex_str = KEY_LEN_HEX_STR) then
                match parts with
                | _ :: _ => Done (inl InvalidFormat)
                | [] => key ← parse_pairs KEY_LEN_BYTES hex_str 0; Done (inr key)
                end
              else Done (inl WrongLength)
          end
        else Done (inl BadPrefix)
    end
  else Done (inl WrongLength).

(** ** Splitting at a colon *)

Lemma absent (c : byte) (s : bytes) : forallb (fun b => negb (bool_decide (b = c))) s = true -> c ∉ s.
Proof.
  rewrite forallb_forall. intros H Hin%list_elem_of_In. specialize (H c Hin). by rewrite bool_decide_true in H.
Qed.

Lemma split_none c s : c ∉ s -> split c s = [s].
Proof.
  induction s as [|b s IH]; [done|]. intros Hc. cbn. rewrite decide_False by set_solver. by rewrite IH by set_solver.
Qed.

Lemma split_app c w s : c ∉ w -> split c (w ++ c :: s) = w :: split c s.
Proof.
  induction w as [|b w IH]; intros Hw; cbn; [by rewrite decide_True|]. rewrite decide_False by set_solver. by rewrite IH by set_solver.
Qed.

(** ** Hexadecimal digits *)

(** A statement about bytes holds if it holds for the 256 of them. *)
Lemma all_bytes (P : byte -> bool) : forallb (fun n => P (byte_of_Z (Z.of_nat n))) (seq 0 256) = true -> forall b, P b = true.
Proof.
  intros H b. pose proof (byte_to_Z_range b) as Hr. rewrite forallb_forall in H. rewrite <- (byte_of_to b), <- (Z2Nat.id (byte_to_Z b)) by lia.
  apply H, in_seq. lia.
Qed.

(** What printing a byte gives: ASCII without a colon or a plus, which reads back. *)
Definition prints (b : byte) : bool :=
  match hex_byte b with
  | [h; l] =>
      forallb (fun c => (byte_to_Z c <? 128) && negb (byte_to_Z c =? 58) && negb (byte_to_Z c =? 43)) [h; l] &&
      match from_str_radix [h; l] with Some z => z =? byte_to_Z b | None => false end
  | _ => false
  end.

Lemma all_print b : prints b = true.
Proof. apply all_bytes. vm_compute. reflexivity. Qed.

Record printed (b h l : byte) : Prop := {
  pr_eq : hex_byte b = [h; l];
  pr_plain c : c = h \/ c = l -> byte_to_Z c < 128 /\ c <> colon;
  pr_back : from_str_radix [h; l] = Some (byte_to_Z b);
}.

Lemma hex_byte_printed b : exists h l, printed b h l.
Proof.
  pose proof (all_print b) as H. unfold prints in H. destruct (hex_byte b) as [|h [|l [|]]] eqn:E; try discriminate H.
  exists h, l. apply andb_true_iff in H as [Hp Hr]. cbn [forallb] in Hp. split; [exact E| |].
  - intros c Hc. b2p. split; [destruct Hc as [-> | ->]; lia|]. intros Ec. assert (byte_to_Z c = 58) by (by rewrite Ec). destruct Hc as [-> | ->]; lia.
  - destruct (from_str_radix [h; l]); [b2p; by subst|discriminate Hr].
Qed.

Lemma hex_no_colon key : colon ∉ concat (map hex_byte key).
Proof.
  induction key as [|b key IH]; [by apply not_elem_of_nil|]. destruct (hex_byte_printed b) as (h & l & [E Hp _]). cbn [map concat]. rewrite E.
  cbn. rewrite !not_elem_of_cons. split_and!; [intros Ec; apply (Hp h); auto|intros Ec; apply (Hp l); auto|done].
Qed.

Lemma hex_length key : length (concat (map hex_byte key)) = (2 * length key)%nat.
Proof. induction key as [|b key IH]; [done|]. cbn [map concat length]. rewrite length_app, IH. unfold hex_byte. cbn [length]. lia. Qed.

Lemma boundary_ascii s i : (i <= length s)%nat -> Forall (fun b => byte_to_Z b < 128) s -> is_char_boundary s i = true.
Proof.
  intros Hi Hs. unfold is_char_boundary. destruct (s !! i) as [b|] eqn:E.
  - rewrite Forall_lookup in Hs. specialize (Hs i b E). cbn in Hs. pose proof (byte_to_Z_range b).
    destruct (128 <=? byte_to_Z b) eqn:E1; [b2p; lia|done].
  - apply lookup_ge_None in E. apply Nat.eqb_eq. lia.
Qed.

Lemma hex_ascii key : Forall (fun b => byte_to_Z b < 128) (concat (map hex_byte key)).
Proof.
  induction key as [|b key IH]; [constructor|]. destruct (hex_byte_printed b) as (h & l & [E Hp _]). cbn [map concat]. rewrite E.
  repeat constructor; [apply (Hp h); by left|apply (Hp l); by right|done].
Qed.

Lemma parse_printed pre key : Forall (fun b => byte_to_Z b < 128) pre ->
  parse_pairs (length key) (pre ++ concat (map hex_byte key)) (length pre) = Done key.
Proof.
  revert pre. induction key as [|b key IH]; intros pre Hpre; [done|]. cbn [length parse_pairs]. set (s := pre ++ _).
  assert (Hs : Forall (fun b => byte_to_Z b < 128) s) by (apply Forall_app; split; [done|apply hex_ascii]).
  assert (Hl : (length pre + 2 <= length s)%nat) by (unfold s; rewrite length_app, hex_length; cbn [length]; lia).
  destruct (hex_byte_printed b) as (h & l & [E Hp Hb]). unfold get2. rewrite (proj2 (Nat.leb_le _ _) Hl), !boundary_ascii by (done || lia).
  cbn [andb]. assert (Hd : take 2 (drop (length pre) s) = [h; l]) by (unfold s; rewrite drop_app_length; cbn [map concat]; by rewrite E).
  rewrite Hd. cbn [unwrap mbind outcome_bind]. rewrite Hb. cbn [unwrap].
  replace s with ((pre ++ [h; l]) ++ concat (map hex_byte key)) by (unfold s; cbn [map concat]; rewrite E, <- app_assoc; done).
  replace (length pre + 2)%nat with (length (pre ++ [h; l])) by (rewrite length_app; cbn; lia).
  rewrite IH by (apply Forall_app; split; [done|]; repeat constructor; [apply (Hp h); by left|apply (Hp l); by right]). cbn. by rewrite byte_of_to.
Qed.

(** What [from_str] does with a string of the right shape. *)
Lemma from_str_shape prefix h : colon ∉ prefix -> colon ∉ h -> length h = 64%nat ->
  from_str prefix (prefix ++ colon :: h) = (key ← parse_pairs 32 h 0; Done (inr key)).
Proof.
  intros Hp Hh Hl. unfold from_str, KEY_LEN_HEX_STR. rewrite length_app. cbn [length]. rewrite decide_True by lia.
  by rewrite split_app, split_none, decide_True, decide_True by done.
Qed.

(** C36: a key reads back from its text, for every key and every prefix without a colon. *)
Theorem key_text_roundtrip (prefix key : bytes) :
  colon ∉ prefix -> length key = KEY_LEN_BYTES -> from_str prefix (to_string prefix key) = Done (inr key).
Proof.
  intros Hp Hk. unfold to_string. rewrite from_str_shape; [|done|apply hex_no_colon|rewrite hex_length, Hk; done].
  pose proof (parse_printed [] key ltac:(constructor)) as H. rewrite Hk in H. cbn [app length] in H. unfold KEY_LEN_BYTES in H. by rewrite H.
Qed.

Lemma key_text_roundtrip_witness :
  let key := map (fun n => byte_of_Z (Z.of_nat n)) (seq 200 32) in
  from_str [x6d; x6b; x65; x79] (to_string [x6d; x6b; x65; x79] key) = Done (inr key).
Proof. intros key. apply key_text_roundtrip; [apply absent; reflexivity|reflexivity]. Defined.

(** ** Malformed digits *)

Lemma parse_pairs_bad n s i j : (i + 2 * j < i + 2 * n)%nat -> (get2 s (i + 2 * j) ≫= from_str_radix) = None -> parse_pairs n s i = Panic.
Proof.
  revert i j. induction n as [|n IH]; intros i j Hj Hb; [lia|]. cbn [parse_pairs]. destruct j as [|j].
  - replace (i + 2 * 0)%nat with i in Hb by lia. destruct (get2 s i) as [slice|]; [|done]. cbn in Hb. cbn. by rewrite Hb.
  - destruct (get2 s i) as [slice|]; [|done]. cbn. destruct (from_str_radix slice); [|done]. cbn.
    by rewrite (IH (i + 2)%nat j) by (lia || by replace (i + 2 + 2 * j)%nat with (i + 2 * S j)%nat by lia).
Qed.

(** Reading a malformed key panics.  A string of the right length with the right prefix in
    which some pair is not hexadecimal makes [from_str] panic instead of returning an error. *)
Theorem malformed_key_panics (prefix h : bytes) (j : nat) :
  colon ∉ prefix -> colon ∉ h -> length h = KEY_LEN_HEX_STR -> (j < 32)%nat -> (get2 h (2 * j) ≫= from_str_radix) = None ->
  from_str prefix (prefix ++ colon :: h) = Panic.
Proof.
  intros Hp Hh Hl Hj Hb. rewrite from_str_shape by done. by rewrite (parse_pairs_bad 32 h 0 j) by (lia || done).
Qed.

Lemma malformed_key_panics_witness :
  from_str [x6d; x6b; x65; x79] ([x6d; x6b; x65; x79] ++ colon :: repeat x67 64) = Panic.
Proof.
  apply (malformed_key_panics [x6d; x6b; x65; x79] (repeat x67 64) 3);
    [apply absent; reflexivity|apply absent; reflexivity|reflexivity|lia|reflexivity].
Defined.

End Keys.
