(* ===== verification/WgMessages.v ===== *)
(** * WireGuard messages (ts_tunnel/src/wireguard/messages.rs)

    The four message layouts, their zero-copy parsing and their bytes. *)

From S2P Require Import Prelude Packet Noise NoiseIKpsk2.

Module WgMessages.

(** [SessionId], a little-endian [u32]. *)
Definition session_id_bytes (id : Z) : bytes := le_bytes 4 id.

Inductive MessageType :=
| HandshakeInitiationType
| HandshakeResponseType
| CookieReplyType
| TransportDataType.

Definition type_byte (t : MessageType) : byte :=
  match t with
  | HandshakeInitiationType => x01
  | HandshakeResponseType => x02
  | CookieReplyType => x03
  | TransportDataType => x04
  end.

(** [MessageType::try_ref_from_prefix] *)
Definition message_type (raw : bytes) : option MessageType :=
  match raw with
  | x01 :: _ => Some HandshakeInitiationType
  | x02 :: _ => Some HandshakeResponseType
  | x03 :: _ => Some CookieReplyType
  | x04 :: _ => Some TransportDataType
  | _ => None
  end.

(** The payload of an initiation's noise part is a 12-byte TAI64N. *)
Definition NOISE_INIT_SIZE : nat := IKpsk2.INIT_SIZE 12.
Definition NOISE_RESP_SIZE : nat := IKpsk2.RESP_SIZE.

Record HandshakeInitiation := mkInitiation {
  hi_type : MessageType; hi_reserved : bytes; hi_sender_id : Z;
  hi_noise : bytes; hi_mac1 : bytes; hi_mac2 : bytes }.

Record HandshakeResponse := mkResponse {
  hr_type : MessageType; hr_reserved : bytes; hr_sender_id : Z; hr_receiver_id : Z;
  hr_noise : bytes; hr_mac1 : bytes; hr_mac2 : bytes }.

Record TransportDataHeader := mkTransport {
  td_type : MessageType; td_reserved : bytes; td_receiver_id : Z; td_nonce : Z }.

Record CookieReply := mkCookie {
  cr_type : MessageType; cr_reserved : bytes; cr_receiver_id : Z;
  cr_nonce : bytes; cr_sealed : bytes }.

(** The [Default] values. *)
Definition initiation_default : HandshakeInitiation :=
  mkInitiation HandshakeInitiationType (zeroes 3) 0 (zeroes NOISE_INIT_SIZE) (zeroes 16) (zeroes 16).

Definition response_default : HandshakeResponse :=
  mkResponse HandshakeResponseType (zeroes 3) 0 0 (zeroes NOISE_RESP_SIZE) (zeroes 16) (zeroes 16).

Definition transport_default : TransportDataHeader :=
  mkTransport TransportDataType (zeroes 3) 0 0.

Definition cookie_default : CookieReply :=
  mkCookie TransportDataType (zeroes 3) 0 (zeroes 24) (zeroes 32).

(** [as_bytes] *)
Definition initiation_bytes (m : HandshakeInitiation) : bytes :=
  [type_byte (hi_type m)] ++ hi_reserved m ++ session_id_bytes (hi_sender_id m)
  ++ hi_noise m ++ hi_mac1 m ++ hi_mac2 m.

Definition response_bytes (m : HandshakeResponse) : bytes :=
  [type_byte (hr_type m)] ++ hr_reserved m ++ session_id_bytes (hr_sender_id m)
  ++ session_id_bytes (hr_receiver_id m) ++ hr_noise m ++ hr_mac1 m ++ hr_mac2 m.

Definition transport_bytes (m : TransportDataHeader) : bytes :=
  [type_byte (td_type m)] ++ td_reserved m ++ session_id_bytes (td_receiver_id m)
  ++ le_bytes 8 (td_nonce m).

Definition cookie_bytes (m : CookieReply) : bytes :=
  [type_byte (cr_type m)] ++ cr_reserved m ++ session_id_bytes (cr_receiver_id m)
  ++ cr_nonce m ++ cr_sealed m.

(** [size_of] *)
Definition INITIATION_SIZE : nat := 1 + 3 + 4 + NOISE_INIT_SIZE + 16 + 16.
Definition RESPONSE_SIZE : nat := 1 + 3 + 4 + 4 + NOISE_RESP_SIZE + 16 + 16.
Definition TRANSPORT_SIZE : nat := 1 + 3 + 4 + 8.
Definition COOKIE_SIZE : nat := 1 + 3 + 4 + 24 + 32.

(** [n] bytes of [l] from position [i]. *)
Definition field (i n : nat) (l : bytes) : bytes := take n (drop i l).

(** [try_ref_from_bytes]: the size must match and the type byte be valid. *)
Definition initiation_from_bytes (l : bytes) : option HandshakeInitiation :=
  if decide (length l = INITIATION_SIZE) then
    match message_type l with
    | Some t => Some (mkInitiation t (field 1 3 l) (le_int (field 4 4 l))
        (field 8 NOISE_INIT_SIZE l) (field (8 + NOISE_INIT_SIZE) 16 l)
        (field (24 + NOISE_INIT_SIZE) 16 l))
    | None => None
    end
  else None.

Definition response_from_bytes (l : bytes) : option HandshakeResponse :=
  if decide (length l = RESPONSE_SIZE) then
    match message_type l with
    | Some t => Some (mkResponse t (field 1 3 l) (le_int (field 4 4 l)) (le_int (field 8 4 l))
        (field 12 NOISE_RESP_SIZE l) (field (12 + NOISE_RESP_SIZE) 16 l)
        (field (28 + NOISE_RESP_SIZE) 16 l))
    | None => None
    end
  else None.

Definition cookie_from_bytes (l : bytes) : option CookieReply :=
  if decide (length l = COOKIE_SIZE) then
    match message_type l with
    | Some t => Some (mkCookie t (field 1 3 l) (le_int (field 4 4 l)) (field 8 24 l) (field 32 32 l))
    | None => None
    end
  else None.

(** [TransportDataHeader::try_ref_from_prefix]: the header only. *)
Definition transport_from_prefix (l : bytes) : option TransportDataHeader :=
  if decide (TRANSPORT_SIZE <= length l)%nat then
    match message_type l with
    | Some t => Some (mkTransport t (field 1 3 l) (le_int (field 4 4 l)) (le_int (field 8 8 l)))
    | None => None
    end
  else None.

Inductive Message :=
| MInitiation (m : HandshakeInitiation)
| MResponse (m : HandshakeResponse)
| MTransport (m : TransportDataHeader)
| MCookie (m : CookieReply).

(** [TryFrom<&[u8]> for Message] *)
Definition message_try_from (raw : bytes) : option Message :=
  match message_type raw with
  | None => None
  | Some HandshakeInitiationType => MInitiation <$> initiation_from_bytes raw
  | Some HandshakeResponseType => MResponse <$> response_from_bytes raw
  | Some TransportDataType => MTransport <$> transport_from_prefix raw
  | Some CookieReplyType => MCookie <$> cookie_from_bytes raw
  end.

(** [TryFrom<&mut [u8]> for MessageMut] *)
Definition message_mut_try_from (raw : bytes) : option Message :=
  match message_type raw with
  | None => None
  | Some HandshakeInitiationType => MInitiation <$> initiation_from_bytes raw
  | Some HandshakeResponseType => MResponse <$> response_from_bytes raw
  | Some TransportDataType => MTransport <$> transport_from_prefix raw
  | Some CookieReplyType => MCookie <$> cookie_from_bytes raw
  end.

Definition receiver_id (m : Message) : option Z :=
  match m with
  | MInitiation _ => None
  | MResponse m => Some (hr_receiver_id m)
  | MTransport m => Some (td_receiver_id m)
  | MCookie m => Some (cr_receiver_id m)
  end.

(** The bytes a message was parsed from; for a transport message, its header. *)
Definition message_bytes (m : Message) : bytes :=
  match m with
  | MInitiation m => initiation_bytes m
  | MResponse m => response_bytes m
  | MTransport m => transport_bytes m
  | MCookie m => cookie_bytes m
  end.

(** The type byte of a parsed message is that of its constructor; the other fields
    have their widths. *)
Definition message_wf (m : Message) : Prop :=
  match m with
  | MInitiation m => hi_type m = HandshakeInitiationType /\ length (hi_reserved m) = 3%nat /\
      0 <= hi_sender_id m < U32 /\ length (hi_noise m) = NOISE_INIT_SIZE /\
      length (hi_mac1 m) = 16%nat /\ length (hi_mac2 m) = 16%nat
  | MResponse m => hr_type m = HandshakeResponseType /\ length (hr_reserved m) = 3%nat /\
      0 <= hr_sender_id m < U32 /\ 0 <= hr_receiver_id m < U32 /\
      length (hr_noise m) = NOISE_RESP_SIZE /\
      length (hr_mac1 m) = 16%nat /\ length (hr_mac2 m) = 16%nat
  | MTransport m => td_type m = TransportDataType /\ length (td_reserved m) = 3%nat /\
      0 <= td_receiver_id m < U32 /\ 0 <= td_nonce m < U64
  | MCookie m => cr_type m = CookieReplyType /\ length (cr_reserved m) = 3%nat /\
      0 <= cr_receiver_id m < U32 /\ length (cr_nonce m) = 24%nat /\
      length (cr_sealed m) = 32%nat
  end.

#[local] Arguments field : simpl never.

(** ** Lemmas *)

Lemma type_byte_type t l : message_type (type_byte t :: l) = Some t.
Proof. by destruct t. Qed.

Lemma message_type_byte l t : message_type l = Some t -> exists l', l = type_byte t :: l'.
Proof.
  destruct l as [|b l]; [done|]. intros H. exists l. f_equal.
  destruct b; simpl in H; try done; by injection H as <-.
Qed.

Lemma cut_head l t : message_type l = Some t -> [type_byte t] ++ drop 1 l = l.
Proof. intros H. destruct (message_type_byte _ _ H) as [l' ->]. done. Qed.

(** A field of a concatenation that starts with segments of known length. *)
Lemma field_skip i n (a l : bytes) :
  (length a <= i)%nat -> field i n (a ++ l) = field (i - length a) n l.
Proof. intros. unfold field. by rewrite drop_app_ge by done. Qed.

Lemma field_here n (a l : bytes) : length a = n -> field 0 n (a ++ l) = a.
Proof. intros <-. unfold field. rewrite drop_0. by rewrite take_app_length. Qed.

Lemma field_end n (a : bytes) : length a = n -> field 0 n a = a.
Proof. intros <-. unfold field. by rewrite drop_0, take_ge. Qed.

Lemma field_length i n l : (i + n <= length l)%nat -> length (field i n l) = n.
Proof. intros. unfold field. rewrite length_take, length_drop. lia. Qed.

Lemma session_id_length id : length (session_id_bytes id) = 4%nat.
Proof. apply le_bytes_length. Qed.

Lemma session_id_int id : 0 <= id < U32 -> le_int (session_id_bytes id) = id.
Proof. intros. by apply le_roundtrip. Qed.

(** Normalise the fields of a concatenation of segments. *)
Ltac fields :=
  repeat (rewrite field_skip by (rewrite ?session_id_length, ?le_bytes_length; simpl; lia));
  rewrite ?session_id_length, ?le_bytes_length;
  repeat match goal with
  | H : length ?x = _ |- context [length ?x] => rewrite H
  end; simpl Nat.sub;
  first [ rewrite field_here by (rewrite ?session_id_length, ?le_bytes_length; done)
        | rewrite field_end by (rewrite ?session_id_length, ?le_bytes_length; done) ].

(** Cutting a string into consecutive fields and concatenating them. *)
Lemma field_cut i n l : (i <= length l)%nat -> drop i l = field i n l ++ drop (i + n) l.
Proof. intros. unfold field. rewrite <- drop_drop. by rewrite take_drop. Qed.

Lemma int_field i n l :
  (i + n <= length l)%nat -> le_bytes n (le_int (field i n l)) = field i n l.
Proof.
  intros. rewrite <- (le_bytes_int (field i n l)) at 2. by rewrite field_length.
Qed.

#[local] Opaque session_id_bytes le_bytes.

Lemma initiation_roundtrip m :
  message_wf (MInitiation m) -> initiation_from_bytes (initiation_bytes m) = Some m.
Proof.
  destruct m as [t r s n m1 m2]; simpl. intros (-> & Hr & Hs & Hn & H1 & H2).
  change NOISE_INIT_SIZE with 108%nat in *.
  unfold initiation_from_bytes, initiation_bytes; cbn.
  rewrite decide_True
    by (rewrite ?length_cons, ?length_app, ?session_id_length; change INITIATION_SIZE with 148%nat; lia).
  change (x01 :: ?l) with ([x01] ++ l). f_equal. f_equal; fields; try done.
  by apply session_id_int.
Qed.

Lemma response_roundtrip m :
  message_wf (MResponse m) -> response_from_bytes (response_bytes m) = Some m.
Proof.
  destruct m as [t r s rc n m1 m2]; simpl. intros (-> & Hr & Hs & Hrc & Hn & H1 & H2).
  change NOISE_RESP_SIZE with 48%nat in *.
  unfold response_from_bytes, response_bytes; cbn.
  rewrite decide_True
    by (rewrite ?length_cons, ?length_app, ?session_id_length; change RESPONSE_SIZE with 92%nat; lia).
  change (x02 :: ?l) with ([x02] ++ l). f_equal. f_equal; fields; try done.
  all: by apply session_id_int.
Qed.

Lemma transport_roundtrip m rest :
  message_wf (MTransport m) -> transport_from_prefix (transport_bytes m ++ rest) = Some m.
Proof.
  destruct m as [t r s n]; simpl. intros (-> & Hr & Hs & Hn).
  unfold transport_from_prefix, transport_bytes. rewrite <- !app_assoc. cbn.
  rewrite decide_True by (rewrite ?length_cons, ?length_app, ?session_id_length, ?le_bytes_length;
                          unfold TRANSPORT_SIZE; lia).
  change (x04 :: ?l) with ([x04] ++ l). f_equal. f_equal; fields; try done.
  - by apply session_id_int.
  - by apply le_roundtrip.
Qed.

Lemma cookie_roundtrip m :
  message_wf (MCookie m) -> cookie_from_bytes (cookie_bytes m) = Some m.
Proof.
  destruct m as [t r s n c]; simpl. intros (-> & Hr & Hs & Hn & Hc).
  unfold cookie_from_bytes, cookie_bytes; cbn.
  rewrite decide_True
    by (rewrite ?length_cons, ?length_app, ?session_id_length; unfold COOKIE_SIZE; lia).
  change (x03 :: ?l) with ([x03] ++ l). f_equal. f_equal; fields; try done.
  by apply session_id_int.
Qed.

#[local] Transparent session_id_bytes.

Lemma field_int_range i n l :
  (i + n <= length l)%nat -> 0 <= le_int (field i n l) < 256 ^ Z.of_nat n.
Proof. intros H. rewrite <- (field_length i n l H) at 3. apply le_int_range. Qed.

(** The bytes of a parsed message are the bytes it was parsed from. *)
Lemma initiation_from_bytes_inv l m :
  message_type l = Some HandshakeInitiationType -> initiation_from_bytes l = Some m ->
  message_wf (MInitiation m) /\ initiation_bytes m = l.
Proof.
  intros Ht. unfold initiation_from_bytes. rewrite Ht. case_decide as Hl; [|done].
  intros [= <-]. change INITIATION_SIZE with 148%nat in Hl. simpl.
  change NOISE_INIT_SIZE with 108%nat.
  split; [rewrite !field_length by lia; split_and!; try done; apply field_int_range; lia|].
  unfold initiation_bytes, session_id_bytes; simpl. rewrite !int_field by lia.
  etransitivity; [|apply (cut_head _ _ Ht)]. simpl. f_equal.
  rewrite (field_cut 1 3), (field_cut 4 4), (field_cut 8 108), (field_cut 116 16),
    (field_cut 132 16) by lia. simpl Nat.add.
  rewrite (drop_ge l 148) by lia. by rewrite app_nil_r.
Qed.

Lemma response_from_bytes_inv l m :
  message_type l = Some HandshakeResponseType -> response_from_bytes l = Some m ->
  message_wf (MResponse m) /\ response_bytes m = l.
Proof.
  intros Ht. unfold response_from_bytes. rewrite Ht. case_decide as Hl; [|done].
  intros [= <-]. change RESPONSE_SIZE with 92%nat in Hl. simpl.
  change NOISE_RESP_SIZE with 48%nat.
  split; [rewrite !field_length by lia; split_and!; try done; apply field_int_range; lia|].
  unfold response_bytes, session_id_bytes; simpl. rewrite !int_field by lia.
  etransitivity; [|apply (cut_head _ _ Ht)]. simpl. f_equal.
  rewrite (field_cut 1 3), (field_cut 4 4), (field_cut 8 4), (field_cut 12 48),
    (field_cut 60 16), (field_cut 76 16) by lia. simpl Nat.add.
  rewrite (drop_ge l 92) by lia. by rewrite app_nil_r.
Qed.

Lemma cookie_from_bytes_inv l m :
  message_type l = Some CookieReplyType -> cookie_from_bytes l = Some m ->
  message_wf (MCookie m) /\ cookie_bytes m = l.
Proof.
  intros Ht. unfold cookie_from_bytes. rewrite Ht. case_decide as Hl; [|done].
  intros [= <-]. change COOKIE_SIZE with 64%nat in Hl. simpl.
  split; [rewrite !field_length by lia; split_and!; try done; apply field_int_range; lia|].
  unfold cookie_bytes, session_id_bytes; simpl. rewrite !int_field by lia.
  etransitivity; [|apply (cut_head _ _ Ht)]. simpl. f_equal.
  rewrite (field_cut 1 3), (field_cut 4 4), (field_cut 8 24), (field_cut 32 32) by lia.
  simpl Nat.add. rewrite (drop_ge l 64) by lia. by rewrite app_nil_r.
Qed.

Lemma transport_from_prefix_inv l m :
  message_type l = Some TransportDataType -> transport_from_prefix l = Some m ->
  message_wf (MTransport m) /\ l = transport_bytes m ++ drop TRANSPORT_SIZE l.
Proof.
  intros Ht. unfold transport_from_prefix. rewrite Ht. case_decide as Hl; [|done].
  intros [= <-]. change TRANSPORT_SIZE with 16%nat in *. simpl message_wf.
  split; [rewrite !field_length by lia; split_and!; try done; apply field_int_range; lia|].
  unfold transport_bytes, session_id_bytes; simpl td_reserved; simpl td_receiver_id;
    simpl td_nonce; simpl td_type. rewrite !int_field by lia.
  rewrite <- !app_assoc.
  etransitivity; [symmetry; apply (cut_head _ _ Ht)|]. f_equal.
  by rewrite (field_cut 1 3), (field_cut 4 4), (field_cut 8 8) by lia.
Qed.

#[local] Transparent le_bytes.

(** ** Properties *)

(** The bytes that follow the message: only a transport message has any. *)
Definition trailer_ok (m : Message) (rest : bytes) : Prop :=
  match m with MTransport _ => True | _ => rest = [] end.

(** C29: parsing and printing WireGuard messages are inverse to each other: the
    bytes of every well-formed message (a transport header may be followed by
    its payload) parse to that message, and every accepted byte string is the
    bytes of the well-formed message it parses to, followed by the payload. *)
Theorem message_roundtrip (l : bytes) (m : Message) :
  message_try_from l = Some m <->
  message_wf m /\ exists rest, l = message_bytes m ++ rest /\ trailer_ok m rest.
Proof.
  split.
  - unfold message_try_from. intros H. destruct (message_type l) as [[]|] eqn:Ht; [..|done];
      apply fmap_Some in H as (x & Hx & ->); simpl.
    + apply initiation_from_bytes_inv in Hx as [? <-]; [|done].
      split; [done|]. exists []. by rewrite app_nil_r.
    + apply response_from_bytes_inv in Hx as [? <-]; [|done].
      split; [done|]. exists []. by rewrite app_nil_r.
    + apply cookie_from_bytes_inv in Hx as [? <-]; [|done].
      split; [done|]. exists []. by rewrite app_nil_r.
    + apply transport_from_prefix_inv in Hx as [? Hl]; [|done].
      split; [done|]. eexists. by split; [exact Hl|].
  - intros (Hwf & rest & -> & Ht). unfold message_try_from.
    assert (Hty : exists t l', message_bytes m ++ rest = type_byte t :: l' /\
        t = match m with MInitiation _ => HandshakeInitiationType
                       | MResponse _ => HandshakeResponseType
                       | MTransport _ => TransportDataType | MCookie _ => CookieReplyType end).
    { destruct m; simpl in Hwf; destruct Hwf as [Hty _]; simpl; rewrite Hty; eauto. }
    destruct Hty as (t & l' & Hl & ->). rewrite Hl, type_byte_type, <- Hl. clear Hl l'.
    destruct m as [m|m|m|m]; simpl in Ht; subst; rewrite ?app_nil_r; cbn [message_bytes].
    + by rewrite initiation_roundtrip.
    + by rewrite response_roundtrip.
    + by rewrite transport_roundtrip.
    + by rewrite cookie_roundtrip.
Qed.

(** A cookie reply built from [CookieReply::default()] carries the type byte of a
    transport message, and is parsed as one. *)
Lemma cookie_default_is_transport :
  message_try_from (cookie_bytes cookie_default) =
    Some (MTransport (mkTransport TransportDataType (zeroes 3) 0 0)).
Proof. vm_compute. reflexivity. Qed.

End WgMessages.
