(* ===== verification/Disco.v ===== *)
(** * The disco protocol (ts_disco_protocol)

    Path discovery packets: a clear header, a tag and a sealed message.  A packet is a view
    of a byte buffer; the operations that work in place return the new view. *)

From S2P Require Import Prelude Packet WgMessages Crypto.

Module Disco.

Inductive Error : Type :=
| CryptoFailed | WrongMagic | UnknownVersion | TooShort.

(** ** Message types (message_type.rs) *)
Inductive MessageType : Type :=
| PingType | PongType | CallMeMaybeType | BindUdpRelayEndpoint | BindUdpRelayEndpointChallenge | BindUdpRelayEndpointAnswer
| CallMeMaybeVia | AllocateUdpRelayEndpointsRequest | AllocateUdpRelayEndpointsResponse.

#[export] Instance message_type_eq_dec : EqDecision MessageType.
Proof. solve_decision. Defined.

Definition type_byte (t : MessageType) : byte :=
  match t with
  | PingType => x01 | PongType => x02 | CallMeMaybeType => x03 | BindUdpRelayEndpoint => x04
  | BindUdpRelayEndpointChallenge => x05 | BindUdpRelayEndpointAnswer => x06 | CallMeMaybeVia => x07
  | AllocateUdpRelayEndpointsRequest => x08 | AllocateUdpRelayEndpointsResponse => x09
  end.

Definition type_try_from (b : byte) : option MessageType :=
  match b with
  | x01 => Some PingType | x02 => Some PongType | x03 => Some CallMeMaybeType | x04 => Some BindUdpRelayEndpoint
  | x05 => Some BindUdpRelayEndpointChallenge | x06 => Some BindUdpRelayEndpointAnswer | x07 => Some CallMeMaybeVia
  | x08 => Some AllocateUdpRelayEndpointsRequest | x09 => Some AllocateUdpRelayEndpointsResponse
  | _ => None
  end.

(** ** Endpoints (endpoint.rs)

    Addresses as integers of 32 and 128 bits; ports are 16 bits wide. *)
Inductive SockAddr : Type :=
| SockV4 (ip port : Z)
| SockV6 (ip port : Z).

Record Endpoint : Type := mkEndpoint { ep_addr : Z; ep_port : Z }.

#[export] Instance endpoint_eq_dec : EqDecision Endpoint.
Proof. solve_decision. Defined.

(** [Ipv4Addr::to_ipv6_mapped]: the prefix ::ffff:0:0/96. *)
Definition to_ipv6_mapped (ip : Z) : Z := Z.shiftl 65535 32 + ip.

(** [Ipv6Addr::to_ipv4_mapped] *)
Definition to_ipv4_mapped (ip : Z) : option Z :=
  if Z.shiftr ip 32 =? 65535 then Some (Z.land ip (Z.ones 32)) else None.

Definition from_socket_addr (sa : SockAddr) : Endpoint :=
  match sa with
  | SockV4 ip port => mkEndpoint (to_ipv6_mapped ip) port
  | SockV6 ip port => mkEndpoint ip port
  end.

Definition socket_addr (e : Endpoint) : SockAddr :=
  match to_ipv4_mapped (ep_addr e) with
  | Some v4 => SockV4 v4 (ep_port e)
  | None => SockV6 (ep_addr e) (ep_port e)
  end.

Definition endpoint_bytes (e : Endpoint) : bytes := be_bytes 16 (ep_addr e) ++ be_bytes 2 (ep_port e).

Definition endpoint_of (l : bytes) : Endpoint := mkEndpoint (be_int (take 16 l)) (be_int (drop 16 l)).

(** ** Messages: their type, [T::ref_from_bytes] and [as_bytes] *)
Class Message (T : Type) : Type := {
  TYPE : MessageType;
  msg_from : bytes -> option T;
  msg_bytes : T -> bytes;
}.

(** ping.rs *)
Record Ping : Type := mkPing { ping_tx_id : bytes; node_key : bytes; padding : bytes }.

Definition ping_from (l : bytes) : option Ping :=
  if decide (44 <= length l)%nat then Some (mkPing (take 12 l) (WgMessages.field 12 32 l) (drop 44 l)) else None.

#[export] Instance ping_message : Message Ping := {
  TYPE := PingType; msg_from := ping_from; msg_bytes p := ping_tx_id p ++ node_key p ++ padding p }.

(** pong.rs *)
Record Pong : Type := mkPong { pong_tx_id : bytes; src : Endpoint }.

Definition pong_from (l : bytes) : option Pong :=
  if decide (length l = 30)%nat then Some (mkPong (take 12 l) (endpoint_of (drop 12 l))) else None.

#[export] Instance pong_message : Message Pong := {
  TYPE := PongType; msg_from := pong_from; msg_bytes p := pong_tx_id p ++ endpoint_bytes (src p) }.

(** call_me_maybe.rs: a slice of endpoints of 18 bytes each *)
Record CallMeMaybe : Type := mkCall { endpoints : list Endpoint }.

Fixpoint endpoints_from (n : nat) (l : bytes) : list Endpoint :=
  match n with
  | O => []
  | S n => endpoint_of (take 18 l) :: endpoints_from n (drop 18 l)
  end.

Definition call_from (l : bytes) : option CallMeMaybe :=
  if decide (length l mod 18 = 0)%nat then Some (mkCall (endpoints_from (length l / 18) l)) else None.

#[export] Instance call_message : Message CallMeMaybe := {
  TYPE := CallMeMaybeType; msg_from := call_from; msg_bytes c := concat (map endpoint_bytes (endpoints c)) }.

(** ** Headers (header.rs) *)
Definition MAGIC : bytes := [x54; x53; xf0; x9f; x92; xac].
Definition NONCE_LEN : nat := 24.

Record Header : Type := mkHeader { magic : bytes; sender_pub : bytes; nonce : bytes }.

Definition header_new (sender_pub nonce : bytes) : Header := mkHeader MAGIC sender_pub nonce.

Definition header_of (l : bytes) : Header := mkHeader (take 6 l) (WgMessages.field 6 32 l) (WgMessages.field 38 24 l).
Definition header_bytes (h : Header) : bytes := magic h ++ sender_pub h ++ nonce h.

Definition header_validate (h : Header) : Error + unit := if decide (magic h = MAGIC) then inr tt else inl WrongMagic.

Definition header_from_bytes (buf : bytes) : Error + (Header * bytes) :=
  if decide (62 <= length buf)%nat then
    match header_validate (header_of (take 62 buf)) with
    | inr _ => inr (header_of (take 62 buf), drop 62 buf)
    | inl e => inl e
    end
  else inl TooShort.

(** [is_disco_message] (lib.rs) *)
Definition is_disco_message (buf : bytes) : bool := match header_from_bytes buf with inr _ => true | inl _ => false end.

(** ** Packets (packet.rs) *)
Record Packet : Type := mkPacket { header : Header; tag : bytes; payload : bytes }.

Definition packet_bytes (p : Packet) : bytes := header_bytes (header p) ++ tag p ++ payload p.

(** [try_mut_from_bytes]: the header and the tag have to fit. *)
Definition packet_of (b : bytes) : Error + Packet :=
  if decide (78 <= length b)%nat then inr (mkPacket (header_of (take 62 b)) (WgMessages.field 62 16 b) (drop 78 b)) else inl TooShort.

Record Plaintext : Type := mkPlain { pt_ty : byte; pt_version : byte; message : bytes }.

Definition plaintext (payload : bytes) : option Plaintext :=
  match payload with
  | ty :: version :: message => Some (mkPlain ty version message)
  | _ => None
  end.

Definition plain_bytes (pt : Plaintext) : bytes := pt_ty pt :: pt_version pt :: message pt.

Definition size_for_message (message_size : nat) : nat := 62 + (16 + (2 + message_size)).

(** [vec_for_message] *)
Definition vec_for_message (message_size : nat) : bytes := zeroes (size_for_message message_size).

Definition validate (p : Packet) : Error + unit :=
  match plaintext (payload p) with
  | None => inl TooShort
  | Some pt => if decide (pt_version pt = x00) then inr tt else inl UnknownVersion
  end.

Definition ty (p : Packet) : option MessageType := pt ← plaintext (payload p); type_try_from (pt_ty pt).

Definition as_msg {T} `{Message T} (p : Packet) : option T :=
  pt ← plaintext (payload p);
  if decide (type_try_from (pt_ty pt) = Some TYPE) then msg_from (message pt) else None.

Definition init_from_bytes {T} `{Message T} (b : bytes) (init_msg : T -> T) : Error + Packet :=
  match packet_of b with
  | inl e => inl e
  | inr s =>
      match plaintext (payload s) with
      | None => inl TooShort
      | Some pt =>
          match msg_from (message pt) with
          | None => inl TooShort
          | Some msg =>
              let s := mkPacket (header s) (tag s) (plain_bytes (mkPlain (type_byte TYPE) x00 (msg_bytes (init_msg msg)))) in
              match validate s with inl e => inl e | inr _ => inr s end
          end
      end
  end.

Section Crypto.
Context `{B : CryptoBox}.

Definition encrypt_in_place (self : Packet) (secret receiver nonce : bytes) : Error + Packet :=
  let header := mkHeader (magic (header self)) (box_public secret) nonce in
  match box_seal receiver secret nonce (payload self) with
  | None => inl CryptoFailed
  | Some (ciphertext, tag) => inr (mkPacket header tag ciphertext)
  end.

Definition from_encrypted_bytes (b : bytes) : Error + Packet :=
  match packet_of b with
  | inl e => inl e
  | inr slf => match header_validate (header slf) with inl e => inl e | inr _ => inr slf end
  end.

Definition decrypt_in_place (self : Packet) (secret : bytes) : Error + Packet :=
  match box_open (sender_pub (header self)) secret (nonce (header self)) (payload self) (tag self) with
  | None => inl CryptoFailed
  | Some plain =>
      let ret := mkPacket (header self) (tag self) plain in
      match validate ret with inl e => inl e | inr _ => inr ret end
  end.

End Crypto.

(** ** Messages and their bytes *)

(** Parsing accepts exactly the bytes of well-formed messages. *)
Class MessageLaws (T : Type) `{M : Message T} : Type := {
  msg_ok : T -> Prop;
  msg_exact (l : bytes) (m : T) : msg_from l = Some m <-> msg_ok m /\ msg_bytes m = l;
}.

Definition endpoint_ok (e : Endpoint) : Prop := 0 <= ep_addr e < 2 ^ 128 /\ 0 <= ep_port e < U16.

Lemma endpoint_roundtrip e : endpoint_ok e -> endpoint_of (endpoint_bytes e) = e.
Proof.
  intros [Ha Hp]. unfold endpoint_of, endpoint_bytes. rewrite take_app_length', drop_app_length' by (rewrite be_bytes_length; done).
  rewrite !be_roundtrip by done. by destruct e.
Qed.

Lemma endpoint_bytes_length e : length (endpoint_bytes e) = 18%nat.
Proof. unfold endpoint_bytes. by rewrite length_app, !be_bytes_length. Qed.

Lemma endpoint_exact l : length l = 18%nat -> endpoint_ok (endpoint_of l) /\ endpoint_bytes (endpoint_of l) = l.
Proof.
  intros Hl. unfold endpoint_ok, endpoint_bytes, endpoint_of. cbn [ep_addr ep_port].
  assert (H1 : length (take 16 l) = 16%nat) by (rewrite length_take; lia). assert (H2 : length (drop 16 l) = 2%nat) by (rewrite length_drop; lia).
  pose proof (be_bytes_int (take 16 l)) as E1. pose proof (be_bytes_int (drop 16 l)) as E2. rewrite H1 in E1. rewrite H2 in E2.
  rewrite E1, E2, take_drop. split; [|done]. unfold be_int.
  pose proof (le_int_range (rev (take 16 l))) as R1. pose proof (le_int_range (rev (drop 16 l))) as R2. rewrite length_rev, H1 in R1. rewrite length_rev, H2 in R2.
  split; [exact R1|exact R2].
Qed.

#[refine, export] Instance ping_laws : MessageLaws Ping := {| msg_ok p := length (ping_tx_id p) = 12%nat /\ length (node_key p) = 32%nat; msg_exact := _ |}.
Proof.
  intros l [tx key pad]. cbn [msg_from msg_bytes ping_message ping_tx_id node_key padding]. unfold ping_from, WgMessages.field. split.
  - case_decide; [|done]. intros [= <- <- <-]. rewrite !length_take, length_drop. split; [lia|].
    change 44%nat with (12 + 32)%nat. rewrite <- drop_drop, take_drop. apply take_drop.
  - intros [[H1 H2] <-]. rewrite !length_app, decide_True by lia. rewrite take_app_length' by done.
    rewrite (drop_app_length' tx) by done. rewrite (take_app_length' key) by done. change 44%nat with (12 + 32)%nat. rewrite <- drop_drop.
    by rewrite (drop_app_length' tx), (drop_app_length' key) by done.
Defined.

#[refine, export] Instance pong_laws : MessageLaws Pong := {| msg_ok p := length (pong_tx_id p) = 12%nat /\ endpoint_ok (src p); msg_exact := _ |}.
Proof.
  intros l [tx e]. cbn [msg_from msg_bytes pong_message pong_tx_id src]. unfold pong_from. split.
  - case_decide as Hl; [|done]. intros [= <- <-]. assert (Hd : length (drop 12 l) = 18%nat) by (rewrite length_drop; lia).
    destruct (endpoint_exact (drop 12 l) Hd) as [H1 H2]. rewrite length_take, H2, take_drop. split; [split; [lia|done]|done].
  - intros [[H1 H2] <-]. rewrite length_app, endpoint_bytes_length, decide_True by lia.
    by rewrite take_app_length', drop_app_length', endpoint_roundtrip by done.
Defined.

Lemma endpoints_exact n l es : length l = (18 * n)%nat ->
  endpoints_from n l = es <-> Forall endpoint_ok es /\ concat (map endpoint_bytes es) = l.
Proof.
  revert l es. induction n as [|n IH]; intros l es Hl; cbn [endpoints_from].
  - destruct l as [|x l]; [|cbn in Hl; lia]. split; [by intros <-|]. intros [_ Hc]. destruct es as [|e es]; [done|].
    apply (f_equal length) in Hc. cbn in Hc. rewrite length_app, endpoint_bytes_length in Hc. lia.
  - assert (Ht : length (take 18 l) = 18%nat) by (rewrite length_take; lia). assert (Hd : length (drop 18 l) = (18 * n)%nat) by (rewrite length_drop; lia).
    destruct (endpoint_exact _ Ht) as [H1 H2]. split.
    + intros <-. destruct (proj1 (IH (drop 18 l) (endpoints_from n (drop 18 l)) Hd) eq_refl) as [F C].
      split; [by constructor|]. cbn [map concat]. rewrite H2, C. apply take_drop.
    + intros [F C]. destruct es as [|e es]; [subst l; cbn in Hl; lia|]. inversion F; subst. cbn [map concat] in *.
      rewrite take_app_length', drop_app_length' in * by (by rewrite endpoint_bytes_length). rewrite endpoint_roundtrip by done. f_equal.
      by apply (IH _ _ Hd).
Qed.

#[refine, export] Instance call_laws : MessageLaws CallMeMaybe := {| msg_ok c := Forall endpoint_ok (endpoints c); msg_exact := _ |}.
Proof.
  intros l [es]. cbn [msg_from msg_bytes call_message endpoints]. unfold call_from. pose proof (Nat.div_mod_eq (length l) 18) as Hd. split.
  - case_decide as Hm; [|done]. intros [= E]. apply (endpoints_exact (length l / 18) l es); [lia|done].
  - intros [F C]. assert (Hl : length l = (18 * length es)%nat).
    { subst l. clear -es. induction es as [|e es IH]; [done|]. cbn [map concat length]. rewrite length_app, endpoint_bytes_length, IH. lia. }
    rewrite Hl, Nat.mul_comm, Nat.Div0.mod_mul, decide_True, Nat.div_mul by done. f_equal. f_equal. apply endpoints_exact; [lia|done].
Defined.

(** An endpoint has the socket address it was made from, unless that is an IPv6 address that
    maps an IPv4 one. *)
Lemma socket_addr_roundtrip sa :
  match sa with SockV4 ip _ => 0 <= ip < U32 | SockV6 ip _ => to_ipv4_mapped ip = None end -> socket_addr (from_socket_addr sa) = sa.
Proof.
  destruct sa as [ip port|ip port]; intros H; [|unfold socket_addr; cbn; by rewrite H]. unfold U32 in H.
  unfold socket_addr, from_socket_addr, to_ipv4_mapped, to_ipv6_mapped. cbn [ep_addr ep_port].
  rewrite Z.shiftr_div_pow2, Z.shiftl_mul_pow2, Z.land_ones by lia.
  replace ((65535 * 2 ^ 32 + ip) / 2 ^ 32) with 65535 by (symmetry; rewrite Z.add_comm, Z.div_add, Z.div_small; lia). cbn [Z.eqb Pos.eqb].
  by rewrite Z.add_comm, Z.mod_add, Z.mod_small by lia.
Qed.

(** ** Packets and their bytes *)

Lemma type_roundtrip t : type_try_from (type_byte t) = Some t.
Proof. by destruct t. Qed.

Record packet_ok (p : Packet) : Prop := {
  pk_magic : length (magic (header p)) = 6%nat;
  pk_sender : length (sender_pub (header p)) = 32%nat;
  pk_nonce : length (nonce (header p)) = 24%nat;
  pk_tag : length (tag p) = 16%nat;
}.

Lemma header_bytes_length p : packet_ok p -> length (header_bytes (header p)) = 62%nat.
Proof. intros [H1 H2 H3 _]. unfold header_bytes. rewrite !length_app. lia. Qed.

Lemma header_roundtrip p : packet_ok p -> header_of (header_bytes (header p)) = header p.
Proof.
  intros [H1 H2 H3 _]. unfold header_of, header_bytes, WgMessages.field. destruct (header p) as [m s n]. cbn [magic sender_pub nonce] in *.
  rewrite take_app_length', (drop_app_length' m), (take_app_length' s) by done.
  change 38%nat with (6 + 32)%nat. rewrite <- drop_drop, (drop_app_length' m), (drop_app_length' s) by done. by rewrite take_ge by lia.
Qed.

Lemma packet_roundtrip p : packet_ok p -> packet_of (packet_bytes p) = inr p.
Proof.
  intros Hp. pose proof (header_bytes_length p Hp) as Hh. pose proof (pk_tag p Hp) as Ht. unfold packet_of, packet_bytes, WgMessages.field.
  rewrite !length_app, decide_True by lia. rewrite take_app_length', (drop_app_length' (header_bytes _)) by done.
  rewrite take_app_length' by done. change 78%nat with (62 + 16)%nat. rewrite <- drop_drop, (drop_app_length' (header_bytes _)), drop_app_length' by done.
  rewrite header_roundtrip by done. by destruct p.
Qed.

Lemma header_from_packet p : packet_ok p ->
  header_from_bytes (packet_bytes p) =
  match header_validate (header p) with inr _ => inr (header p, tag p ++ payload p) | inl e => inl e end.
Proof.
  intros Hp. pose proof (header_bytes_length p Hp) as Hh. unfold header_from_bytes, packet_bytes. rewrite length_app, decide_True by lia.
  by rewrite take_app_length', drop_app_length', header_roundtrip by done.
Qed.

Lemma packet_of_ok b p : packet_of b = inr p -> packet_ok p /\ magic (header p) = take 6 b /\ payload p = drop 78 b.
Proof.
  unfold packet_of, header_of, WgMessages.field. case_decide; [|done]. intros [= <-]. cbn. rewrite take_take. split; [|done].
  split; cbn; rewrite ?length_take, ?length_drop, ?length_take; lia.
Qed.

Section Proof.
Context `{L : CryptoBoxLaws} {T : Type} `{ML : MessageLaws T}.

(** The in-place initialiser keeps the size of the message, as its type ensures. *)
Lemma init_ok (b : bytes) (f : T -> T) (m : T) :
  (80 <= length b)%nat -> msg_from (drop 80 b) = Some m ->
  exists p, init_from_bytes b f = inr p /\ packet_ok p /\ magic (header p) = take 6 b /\
    payload p = type_byte TYPE :: x00 :: msg_bytes (f m).
Proof.
  intros Hb Hm. unfold init_from_bytes. destruct (packet_of b) as [e|p] eqn:Ep; [unfold packet_of in Ep; rewrite decide_True in Ep by lia; done|].
  destruct (packet_of_ok b p Ep) as (Hp & Hmg & Hpl).
  destruct (drop 78 b) as [|t [|v l]] eqn:Ed; [apply (f_equal length) in Ed; rewrite length_drop in Ed; cbn in Ed; lia..|].
  assert (El : drop 80 b = l) by (change 80%nat with (78 + 2)%nat; by rewrite <- drop_drop, Ed). rewrite Hpl. cbn [plaintext message].
  rewrite <- El, Hm. unfold validate. cbn [payload plain_bytes pt_ty pt_version message plaintext]. rewrite decide_True by done.
  eexists. split; [done|]. destruct Hp. by split_and!.
Qed.

Lemma encrypt_ok (p : Packet) (a c n : bytes) :
  packet_ok p -> length n = 24%nat -> Z.of_nat (length (payload p)) <= 1048576 ->
  exists s, encrypt_in_place p a (box_public c) n = inr s /\ packet_ok s /\ magic (header s) = magic (header p) /\
    sender_pub (header s) = box_public a /\ nonce (header s) = n /\ length (packet_bytes s) = length (packet_bytes p) /\
    box_open (box_public a) c n (payload s) (tag s) = Some (payload p).
Proof.
  intros Hp Hn Hl. unfold encrypt_in_place. destruct (box_seal_total (box_public c) a n (payload p) Hl) as [[ct t] E]. rewrite E.
  pose proof (box_open_seal a c n _ ct t E) as Ho. apply box_seal_lengths in E as [E1 E2].
  assert (Hs : packet_ok (mkPacket (mkHeader (magic (header p)) (box_public a) n) t ct)).
  { destruct Hp. split; cbn; [done|apply box_public_length|done|done]. }
  eexists. split; [done|]. split_and!; [done..| |done]. unfold packet_bytes. rewrite !length_app, !header_bytes_length by done. destruct Hp. cbn. lia.
Qed.

(** C25: a disco message arrives.  In a buffer of the right size whose header has the magic
    bytes, initialising any message, sealing the packet for a receiver and casting the
    resulting bytes at the receiver succeeds; the receiver opens it, learns the sender's key
    and the type, and reads the message that was written. *)
Theorem disco_message_arrives (b : bytes) (f : T -> T) (m : T) (a c n : bytes) :
  (80 <= length b)%nat -> take 6 b = MAGIC -> msg_from (drop 80 b) = Some m -> msg_ok (f m) ->
  Z.of_nat (length (msg_bytes (f m))) < 1048570 -> length n = 24%nat ->
  exists plain sealed opened, init_from_bytes b f = inr plain /\ encrypt_in_place plain a (box_public c) n = inr sealed /\
    is_disco_message (packet_bytes sealed) = true /\ from_encrypted_bytes (packet_bytes sealed) = inr sealed /\
    decrypt_in_place sealed c = inr opened /\ sender_pub (header opened) = box_public a /\ ty opened = Some TYPE /\ as_msg opened = Some (f m).
Proof.
  intros Hb Hmg Hm Hok Hl Hn. destruct (init_ok b f m Hb Hm) as (p & Ei & Hp & Hpm & Hpl).
  destruct (encrypt_ok p a c n Hp Hn) as (s & Es & Hs & Hsm & Hss & Hsn & _ & Ho); [rewrite Hpl; cbn [length]; lia|].
  assert (Hv : header_validate (header s) = inr tt) by (unfold header_validate; by rewrite Hsm, Hpm, Hmg, decide_True).
  exists p, s, (mkPacket (header s) (tag s) (payload p)). unfold is_disco_message, from_encrypted_bytes, decrypt_in_place.
  rewrite header_from_packet, packet_roundtrip, Hv, Hss, Hsn, Ho by done. unfold validate, ty, as_msg. cbn [payload header]. rewrite Hpl. cbn.
  rewrite type_roundtrip. split_and!; [done..|]. rewrite decide_True by done. by apply msg_exact.
Qed.

(** C37: no packet built as documented is recognised.  Neither initialisation nor sealing
    writes the magic bytes, so that what is sealed in a buffer of [vec_for_message] is not a
    disco message for the receiver, whatever the message. *)
Theorem sealed_packet_unmarked (size : nat) (f : T -> T) (plain sealed : Packet) (a c n : bytes) :
  length n = 24%nat -> Z.of_nat (length (payload plain)) <= 1048576 ->
  init_from_bytes (vec_for_message size) f = inr plain -> encrypt_in_place plain a (box_public c) n = inr sealed ->
  is_disco_message (packet_bytes sealed) = false /\ from_encrypted_bytes (packet_bytes sealed) = inl WrongMagic.
Proof.
  intros Hn Hl Hi He. assert (Hp : packet_ok plain /\ magic (header plain) = zeroes 6).
  { unfold init_from_bytes in Hi. destruct (packet_of (vec_for_message size)) as [|p] eqn:Ep; [done|].
    apply packet_of_ok in Ep as (Hok & Hm & _). destruct (plaintext (payload p)) as [pt|]; [|done]. destruct (msg_from (message pt)) as [msg|]; [|done].
    cbn in Hi. injection Hi as <-. cbn. rewrite Hm. split; [by destruct Hok; split|done]. }
  destruct Hp as [Hp Hm]. destruct (encrypt_ok plain a c n Hp Hn Hl) as (s & Es & Hs & Hsm & _). rewrite He in Es. injection Es as <-.
  assert (Hv : header_validate (header sealed) = inl WrongMagic) by (unfold header_validate; by rewrite Hsm, Hm, decide_False).
  unfold is_disco_message, from_encrypted_bytes. by rewrite header_from_packet, packet_roundtrip, Hv by done.
Qed.

End Proof.

(** ** Concrete packets *)
Module Example.
#[local] Existing Instance ToyBox.toy_box.
#[local] Existing Instance ToyBox.toy_box_laws.

Definition pong : Pong := mkPong (repeat x07 12) (from_socket_addr (SockV4 2130706433 41641)).
Definition set_pong (_ : Pong) : Pong := pong.
Definition nonce24 : bytes := repeat x09 24.
Definition buffer : bytes := MAGIC ++ zeroes (size_for_message 30 - 6).

Lemma pong_ok : msg_ok pong.
Proof. split; [reflexivity|]. split; split; vm_compute; congruence. Qed.

Lemma disco_message_arrives_witness :
  exists sealed opened, from_encrypted_bytes (packet_bytes sealed) = inr sealed /\ decrypt_in_place sealed [x02] = inr opened /\ as_msg opened = Some pong.
Proof.
  destruct (disco_message_arrives buffer set_pong (mkPong (zeroes 12) (mkEndpoint 0 0)) [x01] [x02] nonce24)
    as (plain & sealed & opened & _ & _ & _ & E1 & E2 & _ & _ & E3); [vm_compute; lia|reflexivity|reflexivity|exact pong_ok|vm_compute; reflexivity|reflexivity|].
  exists sealed, opened. split; [exact E1|]. split; [exact E2|exact E3].
Defined.

Definition sealed_pong : Error + Packet :=
  match init_from_bytes (vec_for_message 30) set_pong with
  | inr plain => encrypt_in_place plain [x01] (box_public [x02]) nonce24
  | inl e => inl e
  end.

Lemma sealed_packet_unmarked_witness :
  exists sealed, sealed_pong = inr sealed /\ is_disco_message (packet_bytes sealed) = false.
Proof.
  destruct (init_from_bytes (vec_for_message 30) set_pong) as [e|plain] eqn:Ei; [vm_compute in Ei; discriminate Ei|].
  destruct (encrypt_in_place plain [x01] (box_public [x02]) nonce24) as [e|sealed] eqn:Ee; [vm_compute in Ei; injection Ei as <-; vm_compute in Ee; discriminate Ee|].
  exists sealed. split; [unfold sealed_pong; rewrite Ei; exact Ee|].
  apply (sealed_packet_unmarked 30 set_pong plain sealed [x01] [x02] nonce24); [reflexivity| |exact Ei|exact Ee].
  vm_compute in Ei. injection Ei as <-. vm_compute. discriminate.
Defined.

End Example.
End Disco.
