(* ===== verification/DerpFrame.v ===== *)
(** * DERP frames (ts_derp/src/frame)

    The relay protocol is a sequence of frames of a type, a length and a body.  A body type has
    a fixed layout; what follows it in the frame is its payload. *)

From S2P Require Import Prelude Packet WgMessages Framing.
Import Framing.

Module DerpFrame.

(** ** Frame types (frame_type.rs) *)
Inductive FrameType : Type :=
| TServerKey | TClientInfo | TServerInfo | TSendPacket | TForwardPacket | TRecvPacket | TKeepAlive | TNotePreferred
| TPeerGone | TPeerPresent | TWatchConns | TClosePeer | TPing | TPong | THealth | TRestarting.

#[export] Instance frame_type_eq_dec : EqDecision FrameType.
Proof. solve_decision. Defined.

Definition to_u8 (t : FrameType) : byte :=
  match t with
  | TServerKey => x01 | TClientInfo => x02 | TServerInfo => x03 | TSendPacket => x04 | TForwardPacket => x0a
  | TRecvPacket => x05 | TKeepAlive => x06 | TNotePreferred => x07 | TPeerGone => x08 | TPeerPresent => x09
  | TWatchConns => x10 | TClosePeer => x11 | TPing => x12 | TPong => x13 | THealth => x14 | TRestarting => x15
  end.

(** error.rs, without the texts *)
Inductive Error : Type :=
| InvalidPacketLength (n : Z)
| InvalidFrameHeader
| InvalidFrameType (b : byte)
| InvalidMagic
| InvalidPeerGoneReason (b : byte)
| IncompleteFrame
| DecryptionFailed
| EncryptionFailed.

Definition try_from_u8 (v : byte) : Error + FrameType :=
  match v with
  | x01 => inr TServerKey | x02 => inr TClientInfo | x03 => inr TServerInfo | x04 => inr TSendPacket | x0a => inr TForwardPacket
  | x05 => inr TRecvPacket | x06 => inr TKeepAlive | x07 => inr TNotePreferred | x08 => inr TPeerGone | x09 => inr TPeerPresent
  | x10 => inr TWatchConns | x11 => inr TClosePeer | x12 => inr TPing | x13 => inr TPong | x14 => inr THealth | x15 => inr TRestarting
  | _ => inl (InvalidFrameType v)
  end.

Inductive Originator : Type := Server | Client.

Definition originator (t : FrameType) : Originator :=
  match t with
  | THealth | TServerKey | TServerInfo | TPeerPresent | TRestarting | TRecvPacket | TWatchConns | TKeepAlive | TPing => Server
  | _ => Client
  end.

Definition is_privileged (t : FrameType) : bool :=
  match t with TPeerPresent | TClosePeer | TWatchConns => true | _ => false end.

(** ** Headers (header.rs) *)

(** [MAX_PACKET_SIZE] (mod.rs) *)
Definition MAX_PACKET_SIZE : Z := Z.shiftl 64 10.
Definition LEN_BYTES : nat := 5.

Record Header : Type := mkHeader { typ : FrameType; len : Z }.

Definition header_new (typ : FrameType) (len : Z) : Error + Header :=
  if MAX_PACKET_SIZE <? len then inl (InvalidPacketLength len) else inr (mkHeader typ len).

Definition set_len (self : Header) (new_len : Z) : Error + Header :=
  if MAX_PACKET_SIZE <? new_len then inl (InvalidPacketLength new_len) else inr (mkHeader (typ self) new_len).

(** [RawHeader]: the type and the length as they are on the wire *)
Record RawHeader : Type := mkRaw { raw_typ : byte; raw_len : Z }.

Definition raw_of (l : bytes) : RawHeader := mkRaw (nth 0 l x00) (be_int (WgMessages.field 1 4 l)).
Definition raw_bytes (h : RawHeader) : bytes := raw_typ h :: be_bytes 4 (raw_len h).

Definition header_try_from (h : RawHeader) : Error + Header :=
  if MAX_PACKET_SIZE <? raw_len h then inl (InvalidPacketLength (raw_len h))
  else match try_from_u8 (raw_typ h) with inl e => inl e | inr t => inr (mkHeader t (raw_len h)) end.

Definition raw_from (h : Header) : RawHeader := mkRaw (to_u8 (typ h)) (len h).

(** ** Frame bodies (body/)

    The type, the size and the layout of a body. *)
Class Body (T : Type) : Type := {
  FRAME_TYPE : FrameType;
  SIZE : nat;
  body_of : bytes -> T;
  body_bytes : T -> bytes;
}.

Record ServerKey : Type := mkServerKey { magic : bytes; sk_key : bytes }.
#[export] Instance server_key_body : Body ServerKey := {
  FRAME_TYPE := TServerKey; SIZE := 40; body_of l := mkServerKey (take 8 l) (drop 8 l); body_bytes b := magic b ++ sk_key b }.

Record ClientInfo : Type := mkClientInfo { ci_key : bytes; ci_nonce : bytes }.
#[export] Instance client_info_body : Body ClientInfo := {
  FRAME_TYPE := TClientInfo; SIZE := 56; body_of l := mkClientInfo (take 32 l) (drop 32 l); body_bytes b := ci_key b ++ ci_nonce b }.

Record ServerInfo : Type := mkServerInfo { si_nonce : bytes }.
#[export] Instance server_info_body : Body ServerInfo := {
  FRAME_TYPE := TServerInfo; SIZE := 24; body_of l := mkServerInfo l; body_bytes b := si_nonce b }.

Record SendPacket : Type := mkSend { dest : bytes }.
#[export] Instance send_packet_body : Body SendPacket := {
  FRAME_TYPE := TSendPacket; SIZE := 32; body_of l := mkSend l; body_bytes b := dest b }.

Record RecvPacket : Type := mkRecv { src : bytes }.
#[export] Instance recv_packet_body : Body RecvPacket := {
  FRAME_TYPE := TRecvPacket; SIZE := 32; body_of l := mkRecv l; body_bytes b := src b }.

Record PeerGone : Type := mkGone { gone_key : bytes; raw_reason : byte }.
#[export] Instance peer_gone_body : Body PeerGone := {
  FRAME_TYPE := TPeerGone; SIZE := 33; body_of l := mkGone (take 32 l) (nth 32 l x00); body_bytes b := gone_key b ++ [raw_reason b] }.

Record Ping : Type := mkPing { ping_payload : bytes }.
#[export] Instance ping_body : Body Ping := {
  FRAME_TYPE := TPing; SIZE := 8; body_of l := mkPing l; body_bytes b := ping_payload b }.

Record Pong : Type := mkPong { pong_payload : bytes }.
#[export] Instance pong_body : Body Pong := {
  FRAME_TYPE := TPong; SIZE := 8; body_of l := mkPong l; body_bytes b := pong_payload b }.

Record ForwardPacket : Type := mkForward { fwd_src : bytes; fwd_dest : bytes }.
#[export] Instance forward_packet_body : Body ForwardPacket := {
  FRAME_TYPE := TForwardPacket; SIZE := 64; body_of l := mkForward (take 32 l) (drop 32 l); body_bytes b := fwd_src b ++ fwd_dest b }.

Record PeerPresent : Type := mkPresent { present_key : bytes; present_ip : bytes; present_port : Z }.
#[export] Instance peer_present_body : Body PeerPresent := {
  FRAME_TYPE := TPeerPresent; SIZE := 50;
  body_of l := mkPresent (take 32 l) (WgMessages.field 32 16 l) (be_int (WgMessages.field 48 2 l));
  body_bytes b := present_key b ++ present_ip b ++ be_bytes 2 (present_port b) }.

Record ClosePeer : Type := mkClose { close_key : bytes }.
#[export] Instance close_peer_body : Body ClosePeer := {
  FRAME_TYPE := TClosePeer; SIZE := 32; body_of l := mkClose l; body_bytes b := close_key b }.

Record NotePreferred : Type := mkPreferred { is_home : byte }.
#[export] Instance note_preferred_body : Body NotePreferred := {
  FRAME_TYPE := TNotePreferred; SIZE := 1; body_of l := mkPreferred (nth 0 l x00); body_bytes b := [is_home b] }.

Record Restarting : Type := mkRestarting { reconnect : Z; total : Z }.
#[export] Instance restarting_body : Body Restarting := {
  FRAME_TYPE := TRestarting; SIZE := 8; body_of l := mkRestarting (be_int (take 4 l)) (be_int (drop 4 l));
  body_bytes b := be_bytes 4 (reconnect b) ++ be_bytes 4 (total b) }.

(** Bodies without fields *)
Record KeepAlive : Type := mkKeepAlive {}.
#[export] Instance keep_alive_body : Body KeepAlive := { FRAME_TYPE := TKeepAlive; SIZE := 0; body_of _ := mkKeepAlive; body_bytes _ := [] }.

Record WatchConns : Type := mkWatch {}.
#[export] Instance watch_conns_body : Body WatchConns := { FRAME_TYPE := TWatchConns; SIZE := 0; body_of _ := mkWatch; body_bytes _ := [] }.

Record Health : Type := mkHealth {}.
#[export] Instance health_body : Body Health := { FRAME_TYPE := THealth; SIZE := 0; body_of _ := mkHealth; body_bytes _ := [] }.

(** [Pong::from(ping)] *)
Definition pong_from (p : Ping) : Pong := mkPong (ping_payload p).

(** magic.rs *)
Definition MAGIC : bytes := [x44; x45; x52; x50; xf0; x9f; x94; x91].

Definition server_key_validate (sk : ServerKey) : Error + unit := if decide (magic sk = MAGIC) then inr tt else inl InvalidMagic.

Inductive PeerGoneReason : Type := Disconnected | NotHere.

Definition reason (g : PeerGone) : Error + PeerGoneReason :=
  match raw_reason g with x00 => inr Disconnected | x01 => inr NotHere | v => inl (InvalidPeerGoneReason v) end.

(** ** Frames (raw.rs) *)
Record RawFrame : Type := mkFrame { header : Header; raw_body : bytes }.

Definition parse (b : bytes) : Error + (RawFrame * bytes) :=
  if decide (LEN_BYTES <= length b)%nat then
    match header_try_from (raw_of (take LEN_BYTES b)) with
    | inl e => inl e
    | inr h =>
        let rest := drop LEN_BYTES b in
        if decide (Z.to_nat (len h) <= length rest)%nat then inr (mkFrame h (take (Z.to_nat (len h)) rest), drop (Z.to_nat (len h)) rest)
        else inl IncompleteFrame
    end
  else inl InvalidFrameHeader.

Definition as_type {T} `{Body T} (f : RawFrame) : option (T * bytes) :=
  if decide (typ (header f) = FRAME_TYPE) then
    if decide (SIZE <= length (raw_body f))%nat then Some (body_of (take SIZE (raw_body f)), drop SIZE (raw_body f)) else None
  else None.

Definition from_body {T} `{Body T} (t : T) (payload_len : nat) : Error + RawFrame :=
  match header_new FRAME_TYPE (Z.of_nat (length (body_bytes t) + payload_len) mod U32) with
  | inl e => inl e
  | inr h => inr (mkFrame h (body_bytes t))
  end.

(** ** The codec (codec.rs) *)

Definition encode (frame : RawFrame) (extra_payload dst : bytes) : outcome bytes :=
  if decide (len (header frame) = Z.of_nat (length (raw_body frame) + length extra_payload)) then
    Done (dst ++ raw_bytes (raw_from (header frame)) ++ raw_body frame ++ extra_payload)
  else Panic.

Definition decode : ST (unit * bytes) (Error + option RawFrame) := fun '(_, src) =>
  if decide (length src < LEN_BYTES)%nat then Done (inr None, (tt, src))
  else
    match header_try_from (raw_of (take LEN_BYTES src)) with
    | inl e => Done (inl e, (tt, src))
    | inr h =>
        let post_header_len := length (drop LEN_BYTES src) in
        let header_len := (length src - post_header_len)%nat in
        let full_packet_len := (header_len + Z.to_nat (len h))%nat in
        if decide (length src < full_packet_len)%nat then Done (inr None, (tt, src))
        else
          let src := drop header_len src in
          Done (inr (Some (mkFrame h (take (Z.to_nat (len h)) src))), (tt, drop (Z.to_nat (len h)) src))
    end.

(** ** Layouts *)
Class BodyLaws (T : Type) `{B : Body T} : Type := {
  body_ok : T -> Prop;
  body_length (b : T) : body_ok b -> length (body_bytes b) = SIZE;
  body_roundtrip (b : T) : body_ok b -> body_of (body_bytes b) = b;
}.

#[refine, export] Instance server_key_laws : BodyLaws ServerKey :=
  {| body_ok b := length (magic b) = 8%nat /\ length (sk_key b) = 32%nat; body_length := _; body_roundtrip := _ |}.
Proof.
  - intros b [H1 H2]. cbn. rewrite length_app. lia.
  - intros [m k] [H1 H2]. cbn in *. by rewrite take_app_length', drop_app_length' by done.
Defined.

#[refine, export] Instance client_info_laws : BodyLaws ClientInfo :=
  {| body_ok b := length (ci_key b) = 32%nat /\ length (ci_nonce b) = 24%nat; body_length := _; body_roundtrip := _ |}.
Proof.
  - intros b [H1 H2]. cbn. rewrite length_app. lia.
  - intros [m k] [H1 H2]. cbn in *. by rewrite take_app_length', drop_app_length' by done.
Defined.

#[refine, export] Instance server_info_laws : BodyLaws ServerInfo :=
  {| body_ok b := length (si_nonce b) = 24%nat; body_length := _; body_roundtrip := _ |}.
Proof. - done. - by intros []. Defined.

#[refine, export] Instance send_packet_laws : BodyLaws SendPacket :=
  {| body_ok b := length (dest b) = 32%nat; body_length := _; body_roundtrip := _ |}.
Proof. - done. - by intros []. Defined.

#[refine, export] Instance recv_packet_laws : BodyLaws RecvPacket :=
  {| body_ok b := length (src b) = 32%nat; body_length := _; body_roundtrip := _ |}.
Proof. - done. - by intros []. Defined.

#[refine, export] Instance peer_gone_laws : BodyLaws PeerGone :=
  {| body_ok b := length (gone_key b) = 32%nat; body_length := _; body_roundtrip := _ |}.
Proof.
  - intros b H1. cbn. rewrite length_app. cbn. lia.
  - intros [k r] H1. cbn [body_of body_bytes peer_gone_body gone_key raw_reason] in *. rewrite take_app_length' by done.
    f_equal. rewrite app_nth2 by lia. by rewrite H1.
Defined.

#[refine, export] Instance ping_laws : BodyLaws Ping :=
  {| body_ok b := length (ping_payload b) = 8%nat; body_length := _; body_roundtrip := _ |}.
Proof. - done. - by intros []. Defined.

#[refine, export] Instance pong_laws : BodyLaws Pong :=
  {| body_ok b := length (pong_payload b) = 8%nat; body_length := _; body_roundtrip := _ |}.
Proof. - done. - by intros []. Defined.

#[refine, export] Instance forward_packet_laws : BodyLaws ForwardPacket :=
  {| body_ok b := length (fwd_src b) = 32%nat /\ length (fwd_dest b) = 32%nat; body_length := _; body_roundtrip := _ |}.
Proof.
  - intros b [H1 H2]. cbn. rewrite length_app. lia.
  - intros [m k] [H1 H2]. cbn in *. by rewrite take_app_length', drop_app_length' by done.
Defined.

#[refine, export] Instance peer_present_laws : BodyLaws PeerPresent :=
  {| body_ok b := length (present_key b) = 32%nat /\ length (present_ip b) = 16%nat /\ 0 <= present_port b < U16; body_length := _; body_roundtrip := _ |}.
Proof.
  - intros b (H1 & H2 & _). cbn [body_bytes peer_present_body SIZE]. rewrite !length_app, be_bytes_length. lia.
  - intros [k ip p] (H1 & H2 & H3). cbn [body_of body_bytes peer_present_body present_key present_ip present_port] in *. unfold WgMessages.field.
    change 48%nat with (32 + 16)%nat. rewrite <- drop_drop, (drop_app_length' k), (drop_app_length' ip) by done.
    rewrite take_app_length', (take_app_length' ip), take_ge, be_roundtrip by (done || by rewrite be_bytes_length). done.
Defined.

#[refine, export] Instance close_peer_laws : BodyLaws ClosePeer :=
  {| body_ok b := length (close_key b) = 32%nat; body_length := _; body_roundtrip := _ |}.
Proof. - done. - by intros []. Defined.

#[refine, export] Instance note_preferred_laws : BodyLaws NotePreferred :=
  {| body_ok b := True; body_length := _; body_roundtrip := _ |}.
Proof. - done. - by intros []. Defined.

#[refine, export] Instance restarting_laws : BodyLaws Restarting :=
  {| body_ok b := 0 <= reconnect b < U32 /\ 0 <= total b < U32; body_length := _; body_roundtrip := _ |}.
Proof.
  - intros b _. cbn [body_bytes restarting_body SIZE]. by rewrite length_app, !be_bytes_length.
  - intros [r t] [H1 H2]. cbn [body_of body_bytes restarting_body reconnect total] in *.
    by rewrite take_app_length', drop_app_length', !be_roundtrip by (done || by rewrite be_bytes_length).
Defined.

#[refine, export] Instance keep_alive_laws : BodyLaws KeepAlive := {| body_ok b := True; body_length := _; body_roundtrip := _ |}.
Proof. - done. - by intros []. Defined.

#[refine, export] Instance watch_conns_laws : BodyLaws WatchConns := {| body_ok b := True; body_length := _; body_roundtrip := _ |}.
Proof. - done. - by intros []. Defined.

#[refine, export] Instance health_laws : BodyLaws Health := {| body_ok b := True; body_length := _; body_roundtrip := _ |}.
Proof. - done. - by intros []. Defined.

Lemma frame_type_roundtrip t : try_from_u8 (to_u8 t) = inr t.
Proof. by destruct t. Qed.

(** ** Frames on the wire *)

Definition header_ok (h : Header) : Prop := 0 <= len h <= MAX_PACKET_SIZE.

Definition frame_bytes (f : RawFrame) : bytes := raw_bytes (raw_from (header f)) ++ raw_body f.

(** A frame with its whole body, as it is decoded. *)
Definition whole (f : RawFrame) : Prop := header_ok (header f) /\ len (header f) = Z.of_nat (length (raw_body f)).

Lemma max_packet : MAX_PACKET_SIZE = 65536.
Proof. done. Qed.

Lemma raw_bytes_length h : length (raw_bytes h) = LEN_BYTES.
Proof. unfold raw_bytes. cbn [length]. by rewrite be_bytes_length. Qed.

Lemma derp_header_roundtrip h rest : header_ok h ->
  take LEN_BYTES (raw_bytes (raw_from h) ++ rest) = raw_bytes (raw_from h) /\ drop LEN_BYTES (raw_bytes (raw_from h) ++ rest) = rest /\
  header_try_from (raw_of (raw_bytes (raw_from h))) = inr h.
Proof.
  intros Hh. pose proof (raw_bytes_length (raw_from h)) as Hl.
  rewrite take_app_length', drop_app_length' by done. split_and!; [done..|].
  assert (Hr : raw_of (raw_bytes (raw_from h)) = raw_from h).
  { unfold raw_of, raw_bytes, WgMessages.field, raw_from. cbn [nth raw_typ raw_len]. change (drop 1 (to_u8 (typ h) :: be_bytes 4 (len h))) with (be_bytes 4 (len h)). rewrite take_ge by (rewrite be_bytes_length; done).
    rewrite be_roundtrip; [done|]. change (256 ^ Z.of_nat 4) with 4294967296. unfold header_ok in Hh. rewrite max_packet in Hh. lia. }
  rewrite Hr. unfold header_try_from, raw_from. cbn [raw_len raw_typ]. rewrite (proj2 (Z.ltb_ge _ _)) by apply Hh.
  rewrite frame_type_roundtrip. by destruct h.
Qed.

(** Decoding is parsing: it hands on the frame that [parse] finds at the front of the buffer
    and keeps the rest, waits where [parse] has too few bytes, and fails where it fails. *)
Lemma decode_parse src :
  decode (tt, src) =
  match parse src with
  | inr (f, rest) => Done (inr (Some f), (tt, rest))
  | inl InvalidFrameHeader | inl IncompleteFrame => Done (inr None, (tt, src))
  | inl e => Done (inl e, (tt, src))
  end.
Proof.
  unfold decode, parse. destruct (decide (length src < LEN_BYTES)%nat) as [Hl|Hl]; [by rewrite (decide_False (P := (LEN_BYTES <= length src)%nat)) by lia|].
  rewrite (decide_True (P := (LEN_BYTES <= length src)%nat)) by lia. unfold header_try_from.
  destruct (MAX_PACKET_SIZE <? raw_len _); [done|]. destruct (try_from_u8 _) as [e|t] eqn:Et.
  - destruct e; try done; unfold try_from_u8 in Et; repeat case_hyp Et; discriminate Et.
  - cbn [len]. rewrite length_drop. replace (length src - (length src - LEN_BYTES))%nat with LEN_BYTES by lia.
    set (n := Z.to_nat _). destruct (decide (length src < LEN_BYTES + n)%nat); [by rewrite decide_False by lia|by rewrite decide_True by lia].
Qed.

Lemma parse_frame f rest : whole f -> parse (frame_bytes f ++ rest) = inr (f, rest).
Proof.
  intros [Hh Hl]. unfold parse, frame_bytes. rewrite <- app_assoc. destruct (derp_header_roundtrip (header f) (raw_body f ++ rest) Hh) as (H1 & H2 & H3).
  rewrite H1, H2, H3, decide_True by (rewrite length_app, raw_bytes_length; lia).
  rewrite Hl, Nat2Z.id, decide_True, take_app_length, drop_app_length by (rewrite length_app; lia). by destruct f.
Qed.

Lemma parse_partial f p : whole f -> p `prefix_of` frame_bytes f -> p <> frame_bytes f ->
  parse p = inl InvalidFrameHeader \/ parse p = inl IncompleteFrame.
Proof.
  intros [Hh Hl] [q Hq] Hne. unfold parse. destruct (decide (LEN_BYTES <= length p)%nat) as [Hp|]; [|by left]. right.
  destruct (derp_header_roundtrip (header f) (raw_body f) Hh) as (H1 & H2 & H3). fold (frame_bytes f) in H1, H2. rewrite Hq in H1, H2.
  rewrite take_app_le in H1 by done. rewrite drop_app_le in H2 by done. rewrite H1, H3. rewrite decide_False; [done|].
  rewrite Hl, Nat2Z.id, <- H2, length_app. destruct q; [|cbn; lia]. exfalso. apply Hne. by rewrite Hq, app_nil_r.
Qed.

Lemma derp_frame f : whole f -> frame decode tt (frame_bytes f) f tt.
Proof.
  intros Hf. split.
  - unfold frame_bytes, raw_bytes. discriminate.
  - intros rest. by rewrite decode_parse, parse_frame.
  - intros p Hp Hne. rewrite decode_parse. by destruct (parse_partial f p Hf Hp Hne) as [-> | ->].
Qed.

Lemma derp_frames fs : Forall whole fs -> frames decode tt (concat (map frame_bytes fs)) fs tt.
Proof. induction 1 as [|f fs Hf _ IH]; [constructor|]. cbn [map concat]. by apply (frames_cons _ _ _ _ tt); [apply derp_frame|]. Qed.

(** Sending a body with a payload that fits. *)
Lemma encode_body {T} `{BL : BodyLaws T} (t : T) (payload dst : bytes) :
  body_ok t -> Z.of_nat (SIZE + length payload) <= MAX_PACKET_SIZE ->
  exists f, from_body t (length payload) = inr f /\
    encode f payload dst = Done (dst ++ frame_bytes (mkFrame (mkHeader FRAME_TYPE (Z.of_nat (SIZE + length payload))) (body_bytes t ++ payload))).
Proof.
  intros Ht Hl. pose proof (body_length t Ht) as Hb. unfold from_body, header_new. rewrite Hb.
  rewrite Z.mod_small by (rewrite max_packet in Hl; unfold U32; lia). rewrite (proj2 (Z.ltb_ge _ _)) by done.
  eexists. split; [done|]. unfold encode. cbn [header raw_body len]. by rewrite Hb, decide_True.
Qed.

(** A body that was sent is recognised with its payload. *)
Lemma as_type_body {T} `{BL : BodyLaws T} (t : T) (payload : bytes) n :
  body_ok t -> as_type (mkFrame (mkHeader FRAME_TYPE n) (body_bytes t ++ payload)) = Some (t, payload).
Proof.
  intros Ht. pose proof (body_length t Ht) as Hb. unfold as_type. cbn [header typ raw_body]. rewrite decide_True, decide_True by (done || rewrite length_app; lia).
  by rewrite take_app_length', drop_app_length', body_roundtrip by done.
Qed.

Lemma to_u8_back b t : try_from_u8 b = inr t -> to_u8 t = b.
Proof. unfold try_from_u8. destruct b; intros E; try discriminate E; injection E as <-; done. Qed.

(** The raw header at the front of enough bytes. *)
Lemma raw_of_bytes l : length l = LEN_BYTES -> raw_bytes (raw_of l) = l /\ 0 <= raw_len (raw_of l).
Proof.
  destruct l as [|a l]; [done|]. intros [= Hl]. unfold raw_bytes, raw_of, WgMessages.field. cbn [nth raw_typ raw_len].
  change (drop 1 (a :: l)) with l. rewrite take_ge by lia. split; [|apply le_int_range]. f_equal. rewrite <- Hl. apply be_bytes_int.
Qed.

(** What is parsed is whole, and what it was parsed from. *)
Lemma parse_whole src f rest : parse src = inr (f, rest) -> whole f /\ src = frame_bytes f ++ rest.
Proof.
  unfold parse. case_decide as H5; [|done]. destruct (raw_of_bytes (take LEN_BYTES src)) as [Hb Hr]; [rewrite length_take; lia|].
  remember (raw_of (take LEN_BYTES src)) as raw eqn:Eraw. unfold header_try_from. destruct (MAX_PACKET_SIZE <? raw_len raw) eqn:Em; [done|].
  destruct (try_from_u8 (raw_typ raw)) as [|t] eqn:Et; [done|]. cbn [len]. case_decide as Hd; [|done]. intros [= <- <-]. b2p.
  unfold whole, header_ok, frame_bytes, raw_from. cbn [header raw_body len typ]. rewrite (to_u8_back _ _ Et).
  rewrite length_take, Nat.min_l, Z2Nat.id by lia. split; [by split_and!|]. rewrite <- app_assoc, take_drop.
  replace (mkRaw (raw_typ raw) (raw_len raw)) with raw by (by destruct raw). rewrite Hb. symmetry. apply take_drop.
Qed.

(** C24: the DERP codec loses nothing.  Frames whose length is within the limit are decoded
    from the concatenation of their bytes, in order and complete, however the stream is cut,
    and an incomplete frame at the end stays buffered; decoding any other bytes never
    panics, and a frame that is decoded is always within the limit and has exactly the body
    its header announces. *)
Theorem derp_codec_exact (fs : list RawFrame) (next : RawFrame) (p : bytes) (frags : list bytes) (src : bytes) :
  Forall whole fs -> whole next -> p `prefix_of` frame_bytes next -> p <> frame_bytes next -> concat frags = concat (map frame_bytes fs) ++ p ->
  reads decode (tt, []) frags fs (tt, p) /\
  exists r rest, decode (tt, src) = Done (r, (tt, rest)) /\ forall f, r = inr (Some f) -> whole f /\ src = frame_bytes f ++ rest.
Proof.
  intros Hfs Hn Hp Hne Hc. split.
  - apply (reads_frames decode tt _ fs tt p [] frags (derp_frames fs Hfs)); [|exact Hc]. intros q Hq. apply (fr_part _ _ _ _ _ (derp_frame next Hn)).
    + by etrans.
    + intros ->. apply Hne. destruct Hp as [u Hu]. destruct Hq as [v Hv]. rewrite Hv in Hu. apply (f_equal length) in Hu as Hl. rewrite !length_app in Hl.
      destruct v; [by rewrite app_nil_r in Hv|cbn in Hl; lia].
  - rewrite decode_parse. destruct (parse src) as [e|[f rest]] eqn:E; [exists (match e with InvalidFrameHeader | IncompleteFrame => inr None | _ => inl e end), src; destruct e; by split|].
    exists (inr (Some f)), rest. split; [done|]. intros g [= <-]. by apply parse_whole.
Qed.


Definition example_frame (n : nat) : RawFrame := mkFrame (mkHeader TRecvPacket (Z.of_nat n)) (repeat x07 n).

Lemma example_whole n : Z.of_nat n <= MAX_PACKET_SIZE -> whole (example_frame n).
Proof. intros Hn. split; [unfold header_ok; cbn [header example_frame len]; lia|]. cbn [header raw_body example_frame len]. by rewrite repeat_length. Qed.

Lemma derp_codec_exact_witness :
  reads decode (tt, []) [take 3 (frame_bytes (example_frame 4)); drop 3 (frame_bytes (example_frame 4)) ++ [x05]] [example_frame 4] (tt, [x05]).
Proof.
  apply (derp_codec_exact [example_frame 4] (example_frame 2) [x05]
    [take 3 (frame_bytes (example_frame 4)); drop 3 (frame_bytes (example_frame 4)) ++ [x05]] []); [|by apply example_whole; vm_compute| |discriminate|reflexivity].
  - constructor; [by apply example_whole; vm_compute|constructor].
  - eexists. reflexivity.
Defined.


End DerpFrame.
