(* ===== verification/WgEnv.v ===== *)
(** * Clocks and randomness of the WireGuard backend

    [Instant::now()], [SystemTime::now()], the random session identifiers and the
    random ephemeral secrets are read from streams.  One [World] describes what
    the readings of one call into the endpoint return; [Env] counts how many were
    consumed, so that every read in the source is a separate reading here. *)

From S2P Require Import Prelude Packet.

Class World := {
  instant_now : nat -> Z;
  system_now : nat -> Z;
  rand_u32 : nat -> Z;
  rand_secret : nat -> bytes;
  (** Whether debug assertions are compiled in. *)
  debug_assertions : bool;
  (** Bound on the retries of the session identifier allocation. *)
  alloc_fuel : nat;
  (** The iteration order of a [HashMap] of packets. *)
  hash_order : gmap Z (list bytes) -> list (Z * list bytes) }.

Record Env := mkEnv { e_instant : nat; e_system : nat; e_rand : nat; e_secret : nat }.

Definition env0 : Env := mkEnv 0 0 0 0.

Section Env.
Context `{World}.

(** [Instant::now()] *)
Definition now : ST Env Z := fun e =>
  Done (instant_now (e_instant e),
        mkEnv (S (e_instant e)) (e_system e) (e_rand e) (e_secret e)).

(** [SystemTime::now()] *)
Definition system_time : ST Env Z := fun e =>
  Done (system_now (e_system e),
        mkEnv (e_instant e) (S (e_system e)) (e_rand e) (e_secret e)).

(** [rand::random::<u32>()] *)
Definition random_u32 : ST Env Z := fun e =>
  Done (rand_u32 (e_rand e),
        mkEnv (e_instant e) (e_system e) (S (e_rand e)) (e_secret e)).

(** [StaticSecret::random()] *)
Definition random_secret : ST Env bytes := fun e =>
  Done (rand_secret (e_secret e),
        mkEnv (e_instant e) (e_system e) (e_rand e) (S (e_secret e))).

End Env.

(** Durations in nanoseconds. *)
Definition SECOND : Z := 10 ^ 9.
Definition MILLISECOND : Z := 10 ^ 6.
Definition from_secs (n : Z) : Z := n * SECOND.
Definition from_millis (n : Z) : Z := n * MILLISECOND.

(** [now.duration_since(earlier)], which saturates at zero. *)
Definition duration_since (now earlier : Z) : Z := Z.max 0 (now - earlier).
