(* ===== verification/WgMacs.v ===== *)
(** * Handshake MACs and cookies (ts_tunnel/src/wireguard/macs.rs) *)

From S2P Require Import Prelude Packet Scheduler Crypto Noise WgMessages WgEnv.

Module WgMacs.
Import WgMessages.
Section WgMacs.
Context `{C : Crypto} `{W : World}.

Definition MAC1_LABEL : bytes := bytes_of_string "mac1----".
Definition MAC2_LABEL : bytes := bytes_of_string "cookie--".
Definition COOKIE_ROTATION_TIME : Z := from_secs 120.

Definition mac1_key (key : bytes) : bytes := blake2s256 (MAC1_LABEL ++ key).
Definition mac2_key (key : bytes) : bytes := blake2s256 (MAC2_LABEL ++ key).

Record Mac2Cookie := mkMac2Cookie { cookie_key : bytes; expiry : Z }.

Record MACSender := mkMACSender {
  s_mac1_key : bytes; s_mac2_key : bytes; cookie : option Mac2Cookie }.

Definition sender_new (peer_key : bytes) : MACSender :=
  mkMACSender (mac1_key peer_key) (mac2_key peer_key) None.

(** [Instant + Duration], which panics when the instant is not representable. *)
Definition instant_add (t d : Z) : outcome Z := unwrap (TimeRange.checked_add t d).

(** [self.cookie] is present and not expired: the clock is read only when it is
    present. *)
Definition live_cookie (self : MACSender) : ST Env (option bytes) :=
  match cookie self with
  | None => mret None
  | Some mac2 =>
      t ← now;
      mret (if t <? expiry mac2 then Some (cookie_key mac2) else None)
  end.

(** [write_macs]: the mac1 value and the packet with its last 32 bytes written. *)
Definition write_macs (self : MACSender) (pkt : bytes) : ST Env (bytes * bytes) :=
  if decide (32 <= length pkt)%nat then
    let data := take (length pkt - 32) pkt in
    let mac1 := blake2s_mac (s_mac1_key self) data in
    c ← live_cookie self;
    match c with
    | Some key => mret (mac1, data ++ mac1 ++ blake2s_mac key (data ++ mac1))
    | None => mret (mac1, data ++ mac1 ++ zeroes 16)
    end
  else st_panic.

Definition receive_cookie (self : MACSender) (reply : CookieReply) (handshake_mac : bytes)
  : ST Env MACSender :=
  match xaead_open (s_mac2_key self) (cr_nonce reply) handshake_mac (cr_sealed reply) with
  | None => mret self
  | Some key =>
      if decide (length key = 16%nat) then
        t ← now;
        expiry ← st_lift (instant_add t COOKIE_ROTATION_TIME);
        mret (mkMACSender (s_mac1_key self) (s_mac2_key self) (Some (mkMac2Cookie key expiry)))
      else st_panic
  end.

Record MACReceiver := mkMACReceiver { r_mac1_key : bytes }.

Definition receiver_new (my_key : bytes) : MACReceiver := mkMACReceiver (mac1_key my_key).

Definition verify_macs (self : MACReceiver) (pkt : bytes) : bool :=
  if decide (32 <= length pkt)%nat then
    let data := take (length pkt - 32) pkt in
    let mac1 := take 16 (drop (length pkt - 32) pkt) in
    let mac2 := drop (length pkt - 16) pkt in
    if decide (blake2s_mac (r_mac1_key self) data = mac1) then
      bool_decide (mac2 = zeroes 16)
    else false
  else false.

(** ** Lemmas *)

Lemma live_cookie_None self e : cookie self = None -> live_cookie self e = Done (None, e).
Proof. unfold live_cookie. by intros ->. Qed.

Lemma write_macs_None self pkt e :
  cookie self = None -> (32 <= length pkt)%nat ->
  let data := take (length pkt - 32) pkt in
  let mac1 := blake2s_mac (s_mac1_key self) data in
  write_macs self pkt e = Done ((mac1, data ++ mac1 ++ zeroes 16), e).
Proof.
  intros Hc Hl. unfold write_macs. rewrite decide_True by done.
  unfold mbind, ST_bind. by rewrite live_cookie_None.
Qed.

Lemma verify_of_macs `{L : !CryptoLaws} self data mac2 :
  length mac2 = 16%nat ->
  verify_macs self (data ++ blake2s_mac (r_mac1_key self) data ++ mac2) =
    bool_decide (mac2 = zeroes 16).
Proof.
  intros H2. unfold verify_macs.
  pose proof (blake2s_mac_length (r_mac1_key self) data) as H1.
  rewrite !length_app, H1, H2, decide_True by lia.
  replace (length data + (16 + 16) - 32)%nat with (length data) by lia.
  rewrite take_app_length, drop_app_length, take_app_length' by done.
  rewrite decide_True by done.
  replace (length data + (16 + 16) - 16)%nat with (length data + 16)%nat by lia.
  rewrite app_assoc, drop_app_length' by (rewrite length_app; lia). done.
Qed.

(** A packet's MACs are accepted by the receiver that owns the key, as long as the
    sender holds no live cookie. *)
Lemma verify_write_macs `{L : !CryptoLaws} key pkt cookie e m1 pkt' e' :
  write_macs (mkMACSender (mac1_key key) (mac2_key key) cookie) pkt e = Done ((m1, pkt'), e') ->
  live_cookie (mkMACSender (mac1_key key) (mac2_key key) cookie) e = Done (None, e') ->
  verify_macs (receiver_new key) pkt' = true.
Proof.
  unfold write_macs. case_decide; [|done]. unfold mbind, ST_bind. intros Hw Hl.
  rewrite Hl in Hw. injection Hw as <- <-.
  apply (verify_of_macs (receiver_new key) _ (zeroes 16)). apply length_replicate.
Qed.

(** A packet with a second MAC is refused by every receiver, unless that MAC happens
    to be zero. *)
Lemma verify_refuses_mac2 self data mac1 mac2 :
  length mac1 = 16%nat -> length mac2 = 16%nat -> mac2 <> zeroes 16 ->
  verify_macs self (data ++ mac1 ++ mac2) = false.
Proof.
  intros H1 H2 Hne. unfold verify_macs. rewrite !length_app, H1, H2, decide_True by lia.
  case_decide; [|done].
  replace (length data + (16 + 16) - 16)%nat with (length data + 16)%nat by lia.
  rewrite app_assoc, drop_app_length' by (rewrite length_app; lia).
  by apply bool_decide_eq_false_2.
Qed.

Lemma write_macs_length `{L : !CryptoLaws} self pkt e m1 pkt' e' :
  write_macs self pkt e = Done ((m1, pkt'), e') -> length pkt' = length pkt /\ length m1 = 16%nat.
Proof.
  unfold write_macs. case_decide; [|done]. intros Hw.
  apply st_bind_Done in Hw as (c & e1 & _ & Hw).
  destruct c; injection Hw as <- <- <-; rewrite !length_app, !length_take, ?blake2s_mac_length,
    ?PacketMut.length_zeroes; lia.
Qed.

End WgMacs.
End WgMacs.
