(* ===== verification/WgSession.v ===== *)
(** * Transport sessions (ts_tunnel/src/wireguard/session.rs)

    The nonce generator and the two halves of an established session: encryption
    of outgoing packets and authenticated, replay-protected decryption. *)

From S2P Require Import Prelude Replay Packet Crypto Noise WgMessages WgEnv.

Module WgSession.
Import WgMessages.

(** ** Nonces *)

(** [NonceGenerator::batch]: the first nonce of the batch, and the generator after
    it; a panic when the batch would pass [u64::MAX]. *)
Definition batch (nonce : Z) (num : nat) : outcome (Z * Z) :=
  let end_ := nonce + Z.of_nat num in
  if end_ <? U64 then Done (nonce, end_) else Panic.

(** The nonces that [NonceIter] yields. *)
Fixpoint nonces (cur : Z) (n : nat) : list Z :=
  match n with
  | O => []
  | S n => cur :: nonces (cur + 1) n
  end.

(** [Nonce]: a zero [U32] followed by the little-endian counter. *)
Definition nonce_bytes (counter : Z) : bytes := zeroes 4 ++ le_bytes 8 counter.

Section WgSession.
Context `{C : Crypto} `{W : World}.

(** ** Transmitting *)

(** The cipher is represented by its key. *)
Record TransmitSession := mkTransmit {
  t_cipher : bytes; t_nonce : Z; t_id : Z; t_created : Z }.

Definition transmit_new (key : bytes) (id now : Z) : TransmitSession :=
  mkTransmit key 0 id now.

(** The body of the loop of [encrypt]. *)
Definition encrypt_one (key : bytes) (id : Z) (packet : bytes) (nonce : Z) : outcome bytes :=
  let packet := encrypt_in_place key (nonce_bytes nonce) [] packet in
  let header := mkTransport TransportDataType (zeroes 3) id nonce in
  packet ← PacketMut.grow_front packet TRANSPORT_SIZE;
  PacketMut.copy_front packet (transport_bytes header).

Fixpoint encrypt_all (key : bytes) (id : Z) (packets : list bytes) (ns : list Z)
  : outcome (list bytes) :=
  match packets, ns with
  | p :: packets, n :: ns =>
      p ← encrypt_one key id p n;
      ps ← encrypt_all key id packets ns;
      mret (p :: ps)
  | _, _ => mret []
  end.

Definition encrypt (self : TransmitSession) (packets : list bytes)
  : outcome (list bytes * TransmitSession) :=
  '(first, next) ← batch (t_nonce self) (length packets);
  ps ← encrypt_all (t_cipher self) (t_id self) packets (nonces first (length packets));
  mret (ps, mkTransmit (t_cipher self) next (t_id self) (t_created self)).

Definition stale (self : TransmitSession) (now : Z) : bool :=
  from_secs 120 <? duration_since now (t_created self).

Definition transmit_expired (self : TransmitSession) (now : Z) : bool :=
  from_secs 240 <? duration_since now (t_created self).

(** ** Receiving *)

Record ReceiveSession := mkReceive {
  r_cipher : bytes; r_id : Z; r_created : Z; r_window : ReplayWindow.t }.

Definition receive_new (key : bytes) (id now : Z) : ReceiveSession :=
  mkReceive key id now ReplayWindow.default_window.

(** [decrypt_one]: whether the packet is kept, the packet and the session. *)
Definition decrypt_one (self : ReceiveSession) (pkt : bytes)
  : outcome (option bytes * ReceiveSession) :=
  match transport_from_prefix pkt with
  | None => mret (None, self)
  | Some header =>
      if negb (td_receiver_id header =? r_id self) then
        if debug_assertions then Panic else mret (None, self)
      else
        let counter := td_nonce header in
        ok ← ReplayWindow.check (r_window self) counter;
        if negb ok then mret (None, self)
        else
          pkt ← PacketMut.truncate_front pkt TRANSPORT_SIZE;
          match decrypt_in_place (r_cipher self) (nonce_bytes counter) [] pkt with
          | Some pkt =>
              w ← ReplayWindow.set (r_window self) counter;
              mret (Some pkt, mkReceive (r_cipher self) (r_id self) (r_created self) w)
          | None => mret (None, self)
          end
  end.

(** [decrypt]: [retain_mut] with [decrypt_one]. *)
Fixpoint decrypt (self : ReceiveSession) (packets : list bytes)
  : outcome (list bytes * ReceiveSession) :=
  match packets with
  | [] => mret ([], self)
  | p :: packets =>
      '(p, self) ← decrypt_one self p;
      '(ps, self) ← decrypt self packets;
      mret (match p with Some p => p :: ps | None => ps end, self)
  end.

Definition receive_expired (self : ReceiveSession) (now : Z) : bool :=
  from_secs 240 <? duration_since now (r_created self).

(** ** Encryption *)

Definition datagram (key : bytes) (id n : Z) (p : bytes) : bytes :=
  transport_bytes (mkTransport TransportDataType (zeroes 3) id n)
  ++ encrypt_in_place key (nonce_bytes n) [] p.

Lemma transport_bytes_length t r id n :
  length r = 3%nat -> length (transport_bytes (mkTransport t r id n)) = TRANSPORT_SIZE.
Proof.
  intros Hr. unfold transport_bytes. cbn [td_type td_reserved td_receiver_id td_nonce].
  by rewrite !length_app, Hr, session_id_length, le_bytes_length.
Qed.

Lemma encrypt_one_spec key id p n : encrypt_one key id p n = Done (datagram key id n p).
Proof.
  unfold encrypt_one. rewrite PacketMut.grow_front_spec. cbn [mbind outcome_bind].
  unfold PacketMut.copy_front. rewrite transport_bytes_length by done.
  rewrite decide_True by (rewrite length_app, PacketMut.length_zeroes; lia).
  by rewrite drop_app_length' by (by rewrite PacketMut.length_zeroes).
Qed.

Lemma nonces_length c n : length (nonces c n) = n.
Proof. revert c. induction n; simpl; auto. Qed.

Lemma encrypt_all_spec key id ps ns :
  length ps = length ns ->
  encrypt_all key id ps ns = Done (zip_with (fun p n => datagram key id n p) ps ns).
Proof.
  revert ns. induction ps as [|p ps IH]; intros [|n ns] Hl; try done.
  cbn [encrypt_all]. rewrite encrypt_one_spec. cbn [mbind outcome_bind].
  rewrite IH by (simpl in Hl; lia). done.
Qed.

(** Every packet of a batch is sealed under its own nonce, the nonces are
    consecutive, and the generator moves past them. *)
Lemma encrypt_spec s ps :
  t_nonce s + Z.of_nat (length ps) < U64 ->
  encrypt s ps =
    Done (zip_with (fun p n => datagram (t_cipher s) (t_id s) n p) ps
            (nonces (t_nonce s) (length ps)),
          mkTransmit (t_cipher s) (t_nonce s + Z.of_nat (length ps)) (t_id s) (t_created s)).
Proof.
  intros Hn. unfold encrypt, batch. rewrite (proj2 (Z.ltb_lt _ _)) by done.
  cbn [mbind outcome_bind]. rewrite encrypt_all_spec by (by rewrite nonces_length). done.
Qed.

(** ** Decryption *)

(** A session whose window represents some set of accepted counters. *)
Definition session_ok (s : ReceiveSession) : Prop :=
  exists m, ReplayWindow.rep (r_window s) m.

Lemma receive_new_ok key id t : session_ok (receive_new key id t).
Proof. exists ReplayWindow.Spec.init. apply ReplayWindow.default_rep. Qed.

Lemma transport_from_prefix_size pkt h :
  transport_from_prefix pkt = Some h -> (TRANSPORT_SIZE <= length pkt)%nat /\ 0 <= td_nonce h.
Proof.
  unfold transport_from_prefix. case_decide as Hd; [|done].
  destruct (message_type pkt); [|done]. intros [= <-]. split; [done|].
  apply (le_int_range (field 8 8 pkt)).
Qed.

(** What [decrypt_one] does to a packet of the session. *)
Lemma decrypt_one_spec s m pkt h :
  ReplayWindow.rep (r_window s) m -> transport_from_prefix pkt = Some h ->
  td_receiver_id h = r_id s ->
  exists s', decrypt_one s pkt =
    Done (if ReplayWindow.Spec.fresh m (td_nonce h)
          then decrypt_in_place (r_cipher s) (nonce_bytes (td_nonce h)) [] (drop TRANSPORT_SIZE pkt)
          else None, s') /\
    r_cipher s' = r_cipher s /\ r_id s' = r_id s /\ r_created s' = r_created s /\
    ReplayWindow.rep (r_window s')
      (if ReplayWindow.Spec.fresh m (td_nonce h)
       then match decrypt_in_place (r_cipher s) (nonce_bytes (td_nonce h)) []
                    (drop TRANSPORT_SIZE pkt) with
            | Some _ => ReplayWindow.Spec.accept m (td_nonce h)
            | None => m
            end
       else m).
Proof.
  intros Hr Ht Hid. destruct (transport_from_prefix_size _ _ Ht) as [Hsz Hn].
  unfold decrypt_one. rewrite Ht, Hid, Z.eqb_refl. cbn [negb].
  rewrite (ReplayWindow.check_rep _ _ _ Hr Hn). cbn [mbind outcome_bind].
  destruct (ReplayWindow.Spec.fresh m (td_nonce h)) eqn:Ef; cbn [negb].
  2: { exists s. by split_and!. }
  unfold PacketMut.truncate_front. rewrite decide_True by done. cbn [mbind outcome_bind].
  destruct (decrypt_in_place _ _ _ _) as [p|].
  - destruct (ReplayWindow.set_rep _ _ _ Hr Hn Ef) as (w & -> & Hw). cbn [mbind outcome_bind].
    eexists. by split_and!.
  - exists s. by split_and!.
Qed.

(** ** End to end *)

(** The packets whose verdict is "accept", in order. *)
Fixpoint keep {A} (verdicts : list bool) (ps : list A) : list A :=
  match verdicts, ps with
  | v :: verdicts, p :: ps => if v then p :: keep verdicts ps else keep verdicts ps
  | _, _ => []
  end.

Lemma datagram_header key id n p :
  0 <= id < U32 -> 0 <= n < U64 ->
  transport_from_prefix (datagram key id n p) =
    Some (mkTransport TransportDataType (zeroes 3) id n).
Proof. intros Hid Hn. unfold datagram. by apply transport_roundtrip. Qed.

Lemma datagram_body key id n p :
  drop TRANSPORT_SIZE (datagram key id n p) = encrypt_in_place key (nonce_bytes n) [] p.
Proof.
  unfold datagram. by rewrite drop_app_length' by (by rewrite transport_bytes_length).
Qed.

(** One datagram of the matching sender: its packet comes out exactly when the replay
    specification accepts its counter. *)
Lemma decrypt_one_datagram `{L : !CryptoLaws} s m n p :
  ReplayWindow.rep (r_window s) m -> 0 <= r_id s < U32 -> 0 <= n < U64 ->
  exists s', decrypt_one s (datagram (r_cipher s) (r_id s) n p) =
      Done (if (ReplayWindow.Spec.step m n).1 then Some p else None, s') /\
    r_cipher s' = r_cipher s /\ r_id s' = r_id s /\ r_created s' = r_created s /\
    ReplayWindow.rep (r_window s') (ReplayWindow.Spec.step m n).2.
Proof.
  intros Hr Hid Hn.
  destruct (decrypt_one_spec s m _ _ Hr (datagram_header (r_cipher s) _ _ p Hid Hn) eq_refl)
    as (s' & -> & Hc & Hi & Ht & Hr').
  rewrite datagram_body in *. simpl td_nonce in *. rewrite decrypt_encrypt in *.
  unfold ReplayWindow.Spec.step. exists s'.
  destruct (ReplayWindow.Spec.fresh m n); by split_and!.
Qed.

Lemma decrypt_datagrams `{L : !CryptoLaws} s m (pns : list (bytes * Z)) :
  ReplayWindow.rep (r_window s) m -> 0 <= r_id s < U32 ->
  Forall (fun pn => 0 <= pn.2 < U64) pns ->
  exists s', decrypt s (map (fun pn => datagram (r_cipher s) (r_id s) pn.2 pn.1) pns) =
      Done (keep (ReplayWindow.Spec.run m pns.*2).1 pns.*1, s') /\
    r_cipher s' = r_cipher s /\ r_id s' = r_id s /\ r_created s' = r_created s /\
    ReplayWindow.rep (r_window s') (ReplayWindow.Spec.run m pns.*2).2.
Proof.
  intros Hr Hid Hns. revert s m Hr Hid.
  induction Hns as [|[p n] pns Hn _ IH]; intros s m Hr Hid; csimpl.
  { exists s. by split_and!. }
  destruct (decrypt_one_datagram s m n p Hr Hid Hn) as (s1 & -> & Hc & Hi & Ht & Hr1).
  cbn [mbind outcome_bind].
  destruct (ReplayWindow.Spec.step m n) as [v m1]; simpl in Hr1.
  destruct (IH s1 m1 Hr1) as (s2 & E & Hc2 & Hi2 & Ht2 & Hr2); [by rewrite Hi|].
  rewrite Hc, Hi in E. rewrite E. cbn [mbind outcome_bind].
  destruct (ReplayWindow.Spec.run m1 pns.*2) as [vs m2]; simpl in *.
  exists s2. split_and!; [by destruct v|congruence..|done].
Qed.

(** Counters that follow each other are all accepted by a window that has seen none
    of them. *)
Lemma spec_run_consecutive m c n :
  (forall x, x ∈ ReplayWindow.Spec.seen m -> x < c) -> ReplayWindow.Spec.latest m <= c ->
  (ReplayWindow.Spec.run m (nonces c n)).1 = replicate n true.
Proof.
  revert m c. induction n as [|n IH]; intros m c Hs Hl; [done|].
  cbn [nonces ReplayWindow.Spec.run]. unfold ReplayWindow.Spec.step, ReplayWindow.Spec.fresh.
  rewrite bool_decide_eq_true_2 by (intros Hin; apply Hs in Hin; lia).
  rewrite (proj2 (Z.leb_le _ _)) by (change (ReplayWindow.WINDOW_SIZE - 1) with 191; lia).
  cbn [andb].
  specialize (IH (ReplayWindow.Spec.accept m c) (c + 1)).
  destruct (ReplayWindow.Spec.run (ReplayWindow.Spec.accept m c) (nonces (c + 1) n)) as [l s'].
  simpl in *. f_equal. apply IH; [|lia].
  intros x Hx. apply elem_of_union in Hx as [Hx|Hx].
  - apply elem_of_singleton in Hx. lia.
  - apply Hs in Hx. lia.
Qed.

Lemma keep_all {A} (ps : list A) : keep (replicate (length ps) true) ps = ps.
Proof. induction ps; simpl; congruence. Qed.

Lemma nonces_range c n : 0 <= c -> Forall (fun x => 0 <= x < c + Z.of_nat n) (nonces c n).
Proof.
  revert c. induction n as [|n IH]; intros c Hc; simpl nonces; constructor; [lia|].
  eapply Forall_impl; [apply (IH (c + 1)); lia|]. simpl. lia.
Qed.

Lemma nonces_lookup c n i : (i < n)%nat -> nonces c n !! i = Some (c + Z.of_nat i).
Proof.
  revert c i. induction n as [|n IH]; intros c [|i] Hi; simpl; try lia; [f_equal; lia|].
  rewrite IH by lia. f_equal. lia.
Qed.

Lemma zip_with_map_pair {A B D} (f : A -> B -> D) (l : list A) (k : list B) :
  zip_with f l k = map (fun x => f x.1 x.2) (zip l k).
Proof. revert k. induction l as [|x l IH]; intros [|y k]; simpl; congruence. Qed.

(** Decrypting a batch in the order it was sent gives back the packets. *)
Lemma decrypt_batch `{L : !CryptoLaws} s m c ps :
  ReplayWindow.rep (r_window s) m -> 0 <= r_id s < U32 -> 0 <= c ->
  c + Z.of_nat (length ps) < U64 ->
  (forall x, x ∈ ReplayWindow.Spec.seen m -> x < c) -> ReplayWindow.Spec.latest m <= c ->
  exists s', decrypt s (zip_with (fun p n => datagram (r_cipher s) (r_id s) n p) ps
                         (nonces c (length ps))) = Done (ps, s') /\
    session_ok s' /\ r_id s' = r_id s.
Proof.
  intros Hr Hid Hc Hn Hs Hl. rewrite zip_with_map_pair.
  destruct (decrypt_datagrams s m (zip ps (nonces c (length ps))) Hr Hid)
    as (s' & E & _ & Hi & _ & Hr').
  { apply Forall_forall. intros [p n] Hin. apply elem_of_zip_r in Hin. simpl.
    pose proof (nonces_range c (length ps) Hc) as Hf. rewrite Forall_forall in Hf.
    specialize (Hf n Hin). lia. }
  exists s'. split; [|split; [by eexists|done]]. rewrite E. f_equal. f_equal.
  rewrite fst_zip, snd_zip by (rewrite nonces_length; lia).
  rewrite spec_run_consecutive by done. apply keep_all.
Qed.

End WgSession.

(** ** Properties *)

(** C20: a session delivers exactly what the replay specification allows.  Packets
    encrypted by a transmit session and handed to the receive session with the
    same key and identifier in any order, any number of times, are decrypted to
    the original packets, each one exactly when the specification accepts its
    counter; nothing panics. *)
Theorem session_delivers `{C : Crypto} `{W : World} `{L : !CryptoLaws}
    (key : bytes) (id t1 t2 : Z) (ps : list bytes) (order : list nat) :
  0 <= id < U32 -> Z.of_nat (length ps) < U64 -> Forall (fun i => (i < length ps)%nat) order ->
  exists ds s r,
    encrypt (transmit_new key id t1) ps = Done (ds, s) /\
    decrypt (receive_new key id t2) (map (fun i => nth i ds []) order) =
      Done (keep (ReplayWindow.Spec.run ReplayWindow.Spec.init (map Z.of_nat order)).1
                 (map (fun i => nth i ps []) order), r).
Proof.
  intros Hid Hlen Ho.
  rewrite encrypt_spec by done. do 2 eexists.
  set (ds := zip_with _ _ _).
  assert (Hds : forall i, (i < length ps)%nat ->
            nth i ds [] = datagram key id (Z.of_nat i) (nth i ps [])).
  { intros i Hi. subst ds. simpl t_cipher; simpl t_id; simpl t_nonce.
    destruct (lookup_lt_is_Some_2 ps i Hi) as [p Hp].
    rewrite !nth_lookup, Hp, lookup_zip_with, Hp, nonces_lookup by done. done. }
  destruct (decrypt_datagrams (receive_new key id t2) ReplayWindow.Spec.init
              (map (fun i => (nth i ps [], Z.of_nat i)) order)) as (r & E & _).
  - apply ReplayWindow.default_rep.
  - done.
  - apply Forall_map. eapply Forall_impl; [exact Ho|]. simpl. lia.
  - exists r. split; [done|]. rewrite map_map in E. simpl in E.
    rewrite <- !list_fmap_compose in E.
    replace (map _ order)
      with (map (fun i => datagram key id (Z.of_nat i) (nth i ps [])) order); [exact E|].
    apply map_ext_in. intros i Hin. symmetry. apply Hds.
    rewrite Forall_forall in Ho. apply Ho. by apply list_elem_of_In.
Qed.

#[local] Instance session_world : World := {
  instant_now n := Z.of_nat n; system_now n := Z.of_nat n; rand_u32 n := Z.of_nat n;
  rand_secret n := le_bytes 32 (Z.of_nat n); debug_assertions := true; alloc_fuel := 100;
  hash_order := map_to_list }.

#[local] Existing Instance Toy.toy.
#[local] Existing Instance Toy.toy_laws.

Lemma session_delivers_witness :
  exists ds s r,
    encrypt (transmit_new (zeroes 32) 7 0) [[x0a]; [x0b; x0c]; []] = Done (ds, s) /\
    decrypt (receive_new (zeroes 32) 7 5) (map (fun i => nth i ds []) [1; 0; 1; 2]%nat) =
      Done ([[x0b; x0c]; [x0a]; []], r).
Proof.
  apply (session_delivers (zeroes 32) 7 0 5 [[x0a]; [x0b; x0c]; []] [1; 0; 1; 2]%nat).
  - unfold U32. lia.
  - simpl. unfold U64. lia.
  - repeat constructor; simpl; lia.
Defined.

End WgSession.
