(* ===== verification/WgHandshake.v ===== *)
(** * WireGuard handshakes (ts_tunnel/src/wireguard/handshake.rs)

    The initiator's and the responder's side of a handshake, and the state of the
    handshake with one peer. *)

From S2P Require Import Prelude Tai64n Scheduler Packet Crypto Noise NoiseIKpsk2.
From S2P Require Import WgMessages WgEnv WgMacs WgSession.

Module WgHandshake.
Import WgMessages WgMacs WgSession.

(** [endpoint::Event]; a peer identifier is a [u32]. *)
Inductive Event :=
| HandshakeTimeout (peer : Z)
| MaybeSendKeepalive (peer : Z).

Definition PROLOGUE : bytes := bytes_of_string "WireGuard v1 zx2c4 Jason@zx2c4.com".

(** The noise payload of an initiation is a TAI64N timestamp. *)
Definition TIMESTAMP_SIZE : nat := 12.

Record ReceivedHandshake := mkReceivedHandshake {
  send_id : Z; rh_noise : IKpsk2.ReceivedHandshake; timestamp : TAI64N.t }.

Record SentHandshake := mkSentHandshake { sh_id : Z; sh_noise : IKpsk2.SentHandshake }.

Record SessionPair := mkPair { p_send : TransmitSession; p_recv : ReceiveSession }.

Inductive Handshake :=
| HsNone
| Initiated (sent : SentHandshake) (timeout : Scheduler.Handle) (mac : bytes)
| Responded (tentative : SessionPair).

Definition is_active (self : Handshake) : bool :=
  match self with HsNone => false | _ => true end.

Definition session_id (self : Handshake) : option Z :=
  match self with
  | Initiated handshake _ _ => Some (sh_id handshake)
  | Responded tentative => Some (r_id (p_recv tentative))
  | HsNone => None
  end.

(** [take_initiated]: what was taken, and the state left behind. *)
Definition take_initiated (self : Handshake)
  : option (SentHandshake * Scheduler.Handle * bytes) * Handshake :=
  match self with
  | Initiated sent timeout mac => (Some (sent, timeout, mac), HsNone)
  | other => (None, other)
  end.

Section WgHandshake.
Context `{C : Crypto} `{W : World}.

(** [ReceivedHandshake::new] *)
Definition received_new (pkt : HandshakeInitiation) (my_static : X25519KeyPair)
    (macs : MACReceiver) : option ReceivedHandshake :=
  if negb (verify_macs macs (initiation_bytes pkt)) then None
  else
    '(noise, ts) ← IKpsk2.received_new TIMESTAMP_SIZE (hi_noise pkt) PROLOGUE my_static;
    ts ← TAI64N.of_bytes ts;
    Some (mkReceivedHandshake (hi_sender_id pkt) noise ts).

(** [ReceivedHandshake::peer_static] *)
Definition peer_static (self : ReceivedHandshake) : bytes :=
  IKpsk2.peer_static_pub (rh_noise self).

(** [ikpsk2::ReceivedHandshake::finish] draws the ephemeral key. *)
Definition noise_finish (self : IKpsk2.ReceivedHandshake) (psk out : bytes)
  : ST Env (Core.Session * bytes) :=
  secret ← random_secret;
  st_lift (IKpsk2.finish_with_ephemeral self psk (keypair_of secret) out).

(** [ReceivedHandshake::respond] *)
Definition received_respond (self : ReceivedHandshake) (session_id : Z) (psk : bytes)
    (macs : MACSender) (now : Z) : ST Env (SessionPair * bytes) :=
  let d := response_default in
  '(session_keys, noise) ← noise_finish (rh_noise self) psk (hr_noise d);
  let response := mkResponse (hr_type d) (hr_reserved d) session_id (send_id self) noise
                    (hr_mac1 d) (hr_mac2 d) in
  let send := transmit_new (Core.send session_keys) (send_id self) now in
  let recv := receive_new (Core.recv session_keys) session_id now in
  '(_, pkt) ← write_macs macs (response_bytes response);
  mret (mkPair send recv, pkt).

(** [ikpsk2::SentHandshake::new] draws the ephemeral key. *)
Definition noise_sent_new (my_static : X25519KeyPair) (peer_static prologue payload out : bytes)
  : ST Env (IKpsk2.SentHandshake * bytes) :=
  secret ← random_secret;
  st_lift (IKpsk2.new_with_ephemeral TIMESTAMP_SIZE my_static (keypair_of secret) peer_static
             prologue payload out).

Definition initiate_handshake (endpoint_static : X25519KeyPair) (peer_static : bytes)
    (session_id : Z) (timestamp : TAI64N.t) : ST Env (SentHandshake * HandshakeInitiation) :=
  let d := initiation_default in
  '(noise, out) ← noise_sent_new endpoint_static peer_static PROLOGUE
                    (TAI64N.to_bytes timestamp) (hi_noise d);
  mret (mkSentHandshake session_id noise,
        mkInitiation (hi_type d) (hi_reserved d) session_id out (hi_mac1 d) (hi_mac2 d)).

(** [Handshake::respond]: the new state and the packet; the old state is replaced. *)
Definition respond (self : Handshake) (session_id : Z) (handshake : ReceivedHandshake)
    (psk : bytes) (cookie_sender : MACSender) (now : Z) : ST Env (bytes * Handshake) :=
  '(session, packet) ← received_respond handshake session_id psk cookie_sender now;
  mret (packet, Responded session).

(** [Handshake::finish]: the sessions if the response completes the handshake, and the
    state after the call.  A completed handshake cancels its timeout. *)
Definition finish (self : Handshake) (packet : HandshakeResponse)
    (endpoint_static : X25519KeyPair) (psk : bytes) (cookies : MACReceiver) (now : Z)
    (scheduler : Scheduler.t (E := Event))
  : option SessionPair * Handshake * Scheduler.t (E := Event) :=
  match take_initiated self with
  | (None, self) => (None, self, scheduler)
  | (Some (sent_handshake, timeout, _), self) =>
      if negb (verify_macs cookies (response_bytes packet)) then (None, self, scheduler)
      else
        match IKpsk2.try_finish (sh_noise sent_handshake) (hr_noise packet) endpoint_static psk with
        | inr _ => (None, self, scheduler)
        | inl session_keys =>
            let send := transmit_new (Core.send session_keys) (hr_sender_id packet) now in
            let recv := receive_new (Core.recv session_keys) (sh_id sent_handshake) now in
            (Some (mkPair send recv), self, Scheduler.cancel scheduler timeout)
        end
  end.

(** [Handshake::confirm]: the sessions and the decrypted packets once a packet was
    decrypted, and the state after the call. *)
Definition confirm (self : Handshake) (session_id : Z) (packets : list bytes)
  : outcome (option (SessionPair * list bytes) * Handshake) :=
  match self with
  | Responded tentative =>
      if negb (r_id (p_recv tentative) =? session_id) then mret (None, self)
      else
        '(packets, recv) ← decrypt (p_recv tentative) packets;
        let tentative := mkPair (p_send tentative) recv in
        match packets with
        | [] => mret (None, Responded tentative)
        | _ => mret (Some (tentative, packets), HsNone)
        end
  | _ => mret (None, self)
  end.

End WgHandshake.
End WgHandshake.
