(* ===== verification/WgState.v ===== *)
(** * State of the WireGuard endpoint (ts_tunnel/src/wireguard/endpoint.rs,
      ts_tunnel/src/results.rs, ts_tunnel/src/config.rs)

    The bounded packet queue, the session state of a peer, the map of session
    identifiers, the state shared by all peers, and the results that collect
    outgoing and delivered packets. *)

From S2P Require Import Prelude Tai64n Scheduler Packet Crypto Noise NoiseIKpsk2.
From S2P Require Import WgMessages WgEnv WgMacs WgSession WgHandshake.

(** ** Results *)
Module Results.

Record SendResult := mkSendResult { sr_to_peers : gmap Z (list bytes) }.

Record RecvResult := mkRecvResult {
  rr_to_local : gmap Z (list bytes); rr_to_peers : gmap Z (list bytes) }.

Record EventResult := mkEventResult { er_to_peers : gmap Z (list bytes) }.

(** [map.entry(peer).or_default().append(packets)] *)
Definition append_to (m : gmap Z (list bytes)) (peer : Z) (packets : list bytes)
  : gmap Z (list bytes) :=
  <[peer := default [] (m !! peer) ++ packets]> m.

(** The packets queued for a peer. *)
Definition queued (m : gmap Z (list bytes)) (peer : Z) : list bytes := default [] (m !! peer).

Lemma queued_append m p ps q :
  queued (append_to m p ps) q = if decide (q = p) then queued m p ++ ps else queued m q.
Proof.
  unfold queued, append_to. case_decide; subst.
  - by rewrite lookup_insert_eq.
  - by rewrite lookup_insert_ne.
Qed.

(** The trait: a result accumulates packets per peer and nothing else changes. *)
Class QueueToPeer (R : Type) := {
  queue_to_peer : R -> Z -> list bytes -> R;
  to_peer : R -> Z -> list bytes;
  to_peer_queue r p ps q :
    to_peer (queue_to_peer r p ps) q =
      if decide (q = p) then to_peer r p ++ ps else to_peer r q }.

#[global] Program Instance send_queue : QueueToPeer SendResult := {
  queue_to_peer r p ps := mkSendResult (append_to (sr_to_peers r) p ps);
  to_peer r := queued (sr_to_peers r) }.
Next Obligation. intros. apply queued_append. Qed.

#[global] Program Instance recv_queue : QueueToPeer RecvResult := {
  queue_to_peer r p ps := mkRecvResult (rr_to_local r) (append_to (rr_to_peers r) p ps);
  to_peer r := queued (rr_to_peers r) }.
Next Obligation. intros. apply queued_append. Qed.

#[global] Program Instance event_queue : QueueToPeer EventResult := {
  queue_to_peer r p ps := mkEventResult (append_to (er_to_peers r) p ps);
  to_peer r := queued (er_to_peers r) }.
Next Obligation. intros. apply queued_append. Qed.

Definition queue_to_local (r : RecvResult) (p : Z) (ps : list bytes) : RecvResult :=
  mkRecvResult (append_to (rr_to_local r) p ps) (rr_to_peers r).

Definition send_default : SendResult := mkSendResult ∅.
Definition recv_default : RecvResult := mkRecvResult ∅ ∅.
Definition event_default : EventResult := mkEventResult ∅.

End Results.

Module WgState.
Import WgMessages WgMacs WgSession WgHandshake.

(** ** The packet queue *)

Definition MAX_QUEUED_PER_PEER : nat := 32.

Abbreviation Queue := (list bytes).

Definition queue_append (queue packets : Queue) : Queue :=
  let new_packets := Nat.min (length packets) MAX_QUEUED_PER_PEER in
  let drop_incoming := (length packets - new_packets)%nat in
  let keep_queued := (MAX_QUEUED_PER_PEER - new_packets)%nat in
  let drop_queued := (length queue - keep_queued)%nat in
  drop drop_queued queue ++ drop drop_incoming packets.

Definition queue_new_with (packets : Queue) : Queue := queue_append [] packets.

(** The specification: the newest packets, at most [MAX_QUEUED_PER_PEER]. *)
Definition newest (l : Queue) : Queue := drop (length l - MAX_QUEUED_PER_PEER) l.

Lemma queue_append_newest queue packets :
  (length queue <= MAX_QUEUED_PER_PEER)%nat ->
  queue_append queue packets = newest (queue ++ packets).
Proof.
  intros Hq. unfold queue_append, newest. rewrite length_app, drop_app.
  f_equal; [|f_equal; lia].
  destruct (decide (length packets <= MAX_QUEUED_PER_PEER)%nat); [f_equal; lia|].
  rewrite !drop_ge by lia. done.
Qed.

Lemma newest_length l : (length (newest l) <= MAX_QUEUED_PER_PEER)%nat.
Proof. unfold newest. rewrite length_drop. lia. Qed.

(** ** Session identifiers *)

Record IdMap := mkIdMap { sessions : gmap Z Z; node_keys : gmap bytes Z }.

Definition idmap_default : IdMap := mkIdMap ∅ ∅.

Definition get_by_nodekey (self : IdMap) (key : bytes) : option Z := node_keys self !! key.

Definition get_by_session_id (self : IdMap) (id : Z) : option Z := sessions self !! id.

Definition add_peer (self : IdMap) (id : Z) (key : bytes) : bool * IdMap :=
  match node_keys self !! key with
  | Some _ => (false, self)
  | None => (true, mkIdMap (sessions self) (<[key := id]> (node_keys self)))
  end.

Definition remove_session (self : IdMap) (id : Z) : outcome IdMap :=
  match sessions self !! id with
  | Some _ => Done (mkIdMap (delete id (sessions self)) (node_keys self))
  | None => Panic
  end.

Definition remove_handshake_session (self : IdMap) (handshake : Handshake) : outcome IdMap :=
  match session_id handshake with
  | Some id => remove_session self id
  | None => Done self
  end.

Definition idmap_remove_peer (self : IdMap) (key : bytes) : outcome IdMap :=
  match node_keys self !! key with
  | Some _ => Done (mkIdMap (sessions self) (delete key (node_keys self)))
  | None => Panic
  end.

(** ** The state shared by the peers *)

Record EndpointState := mkState {
  my_key : X25519KeyPair; my_cookie : MACReceiver; ids : IdMap;
  timestamps : TAI64N.Clock.clock; scheduler : Scheduler.t (E := Event);
  (** What this call has read from the clocks and the random generators. *)
  env : Env }.

Definition with_ids (s : EndpointState) (i : IdMap) : EndpointState :=
  mkState (my_key s) (my_cookie s) i (timestamps s) (scheduler s) (env s).
Definition with_timestamps (s : EndpointState) (c : TAI64N.Clock.clock) : EndpointState :=
  mkState (my_key s) (my_cookie s) (ids s) c (scheduler s) (env s).
Definition with_scheduler (s : EndpointState) (q : Scheduler.t) : EndpointState :=
  mkState (my_key s) (my_cookie s) (ids s) (timestamps s) q (env s).
Definition with_env (s : EndpointState) (e : Env) : EndpointState :=
  mkState (my_key s) (my_cookie s) (ids s) (timestamps s) (scheduler s) e.

(** Reading a clock or a random generator from a method of the endpoint. *)
Definition on_env {A} (m : ST Env A) : ST EndpointState A := fun s =>
  match m (env s) with
  | Done (a, e) => Done (a, with_env s e)
  | Panic => Panic
  end.

Definition on_ids (f : IdMap -> outcome IdMap) : ST EndpointState unit := fun s =>
  i ← f (ids s); Done (tt, with_ids s i).

Definition on_scheduler {A} (f : Scheduler.t -> A * Scheduler.t) : ST EndpointState A := fun s =>
  let '(a, q) := f (scheduler s) in Done (a, with_scheduler s q).

Section WgState.
Context `{C : Crypto} `{W : World}.

(** [IdMap::allocate_session]: identifiers are drawn until one is vacant.  The loop
    has no bound in the source; [None] is a search that did not end within
    [alloc_fuel] draws. *)
Fixpoint allocate_loop (fuel : nat) (self : IdMap) (peer : Z) : ST Env (option (Z * IdMap)) :=
  match fuel with
  | O => mret None
  | S fuel =>
      ret ← random_u32;
      match sessions self !! ret with
      | None => mret (Some (ret, mkIdMap (<[ret := peer]> (sessions self)) (node_keys self)))
      | Some _ => allocate_loop fuel self peer
      end
  end.

Definition allocate_session (peer : Z) : ST EndpointState Z :=
  s ← st_get;
  r ← on_env (allocate_loop alloc_fuel (ids s) peer);
  '(id, i) ← st_lift (unwrap r);
  _ ← on_ids (fun _ => Done i);
  mret id.

(** [TAI64NClock::now] *)
Definition timestamps_now : ST EndpointState TAI64N.t :=
  v ← on_env system_time;
  s ← st_get;
  '(a, c) ← st_lift (TAI64N.Clock.now (timestamps s) v);
  _ ← st_put (with_timestamps s c);
  mret a.

(** ** The session state of a peer *)

Inductive SessionState :=
| SsNone (queue : Queue)
| Active (recv : ReceiveSession) (recv_prev : option ReceiveSession) (send : TransmitSession).

Definition take_session (self : SessionState) : SessionState * SessionState :=
  (self, SsNone []).

Definition activate (self : SessionState) (next : SessionPair)
  : ST EndpointState (list bytes * SessionState) :=
  match (take_session self).1 with
  | SsNone queue =>
      '(ret, send) ← st_lift (encrypt (p_send next) queue);
      mret (ret, Active (p_recv next) None send)
  | Active recv recv_prev _ =>
      _ ← match recv_prev with
          | Some recv_prev => on_ids (fun i => remove_session i (r_id recv_prev))
          | None => mret tt
          end;
      mret ([], Active (p_recv next) (Some recv) (p_send next))
  end.

Definition deactivate (self : SessionState) : ST EndpointState SessionState :=
  match take_session self with
  | (Active recv recv_prev _, self) =>
      _ ← on_ids (fun i => remove_session i (r_id recv));
      _ ← match recv_prev with
          | Some recv_prev => on_ids (fun i => remove_session i (r_id recv_prev))
          | None => mret tt
          end;
      mret self
  | (SsNone _, self) => mret self
  end.

Definition encrypt_keepalive (self : SessionState) : ST Env (option bytes * SessionState) :=
  match self with
  | SsNone _ => mret (None, self)
  | Active recv recv_prev send =>
      t ← now;
      if transmit_expired send t then mret (None, self)
      else
        '(packet, send) ← st_lift (encrypt send [PacketMut.new 0]);
        mret (list.last packet, Active recv recv_prev send)
  end.

Definition encrypt_or_queue (self : SessionState) (packets : list bytes)
  : ST Env (option (list bytes) * SessionState) :=
  match self with
  | SsNone queue => mret (None, SsNone (queue_append queue packets))
  | Active recv recv_prev send =>
      t ← now;
      if transmit_expired send t then mret (None, SsNone (queue_new_with packets))
      else
        '(packets, send) ← st_lift (encrypt send packets);
        mret (Some packets, Active recv recv_prev send)
  end.

(** Which receive session [get_recv] refers to. *)
Inductive Slot := SlotRecv | SlotPrev.

(** [recv.id() == id && !recv.expired(Instant::now())], where the second session is
    the one whose expiry is looked at: the clock is only read when the
    identifiers agree. *)
Definition id_live (session checked : ReceiveSession) (id : Z) : ST Env bool :=
  if r_id session =? id then (t ← now; mret (negb (receive_expired checked t)))
  else mret false.

Definition get_recv (self : SessionState) (id : Z) : ST Env (option Slot) :=
  match self with
  | SsNone _ => mret None
  | Active recv recv_prev _ =>
      b ← id_live recv recv id;
      if (b : bool) then mret (Some SlotRecv)
      else
        match recv_prev with
        | None => mret None
        | Some prev =>
            b ← id_live prev recv id;
            mret (if (b : bool) then Some SlotPrev else None)
        end
  end.

(** Decrypting through the reference that [get_recv] returned. *)
Definition slot_decrypt (self : SessionState) (slot : Slot) (packets : list bytes)
  : outcome (list bytes * SessionState) :=
  match self, slot with
  | Active recv prev send, SlotRecv =>
      '(ps, recv) ← decrypt recv packets; mret (ps, Active recv prev send)
  | Active recv (Some prev) send, SlotPrev =>
      '(ps, prev) ← decrypt prev packets; mret (ps, Active recv (Some prev) send)
  | _, _ => Panic
  end.

Definition needs_rotation (self : SessionState) : ST Env bool :=
  match self with
  | SsNone _ => mret true
  | Active _ _ send => t ← now; mret (stale send t)
  end.

End WgState.
End WgState.
