(* ===== verification/WgPeer.v ===== *)
(** * One peer of the WireGuard endpoint (ts_tunnel/src/wireguard/endpoint.rs, [Peer])

    Sending and receiving through a peer's sessions, the handshakes with it, its
    keepalives and its timers. *)

From S2P Require Import Prelude Tai64n Scheduler Packet Crypto Noise NoiseIKpsk2.
From S2P Require Import WgMessages WgEnv WgMacs WgSession WgHandshake WgState.

Module WgPeer.
Import WgMessages WgMacs WgSession WgHandshake Results WgState.

Definition KEEPALIVE_TIMEOUT : Z := from_secs 10.
Definition HANDSHAKE_TIMEOUT : Z := from_secs 5.

Record PeerConfig := mkConfig { key : bytes; psk : bytes }.

Record Peer := mkPeer {
  id : Z; config : PeerConfig; session : SessionState; handshake : Handshake;
  last_seen_timestamp : option TAI64N.t; cookie_sender : MACSender;
  keepalive : option Scheduler.Handle; send_another_keepalive : bool }.

Definition with_session (p : Peer) (s : SessionState) : Peer :=
  mkPeer (id p) (config p) s (handshake p) (last_seen_timestamp p) (cookie_sender p)
    (keepalive p) (send_another_keepalive p).
Definition with_handshake (p : Peer) (h : Handshake) : Peer :=
  mkPeer (id p) (config p) (session p) h (last_seen_timestamp p) (cookie_sender p)
    (keepalive p) (send_another_keepalive p).
Definition with_last_seen (p : Peer) (t : option TAI64N.t) : Peer :=
  mkPeer (id p) (config p) (session p) (handshake p) t (cookie_sender p)
    (keepalive p) (send_another_keepalive p).
Definition with_cookie_sender (p : Peer) (c : MACSender) : Peer :=
  mkPeer (id p) (config p) (session p) (handshake p) (last_seen_timestamp p) c
    (keepalive p) (send_another_keepalive p).
Definition with_keepalive (p : Peer) (k : option Scheduler.Handle) : Peer :=
  mkPeer (id p) (config p) (session p) (handshake p) (last_seen_timestamp p) (cookie_sender p)
    k (send_another_keepalive p).
Definition with_send_another (p : Peer) (b : bool) : Peer :=
  mkPeer (id p) (config p) (session p) (handshake p) (last_seen_timestamp p) (cookie_sender p)
    (keepalive p) b.

Section WgPeer.
Context `{C : Crypto} `{W : World}.

(** [Peer::new] *)
Definition peer_new (id : Z) (config : PeerConfig) : Peer :=
  mkPeer id config (SsNone []) HsNone None (sender_new (key config)) None false.

(** [TimeRange::new_around(Instant::now() + timeout, plus_minus)] *)
Definition range_after (timeout plus_minus : Z) : ST EndpointState TimeRange.range :=
  t ← on_env now;
  t ← st_lift (instant_add t timeout);
  st_lift (TimeRange.new_around t plus_minus).

Definition schedule_keepalive (self : Peer) : ST EndpointState Peer :=
  match keepalive self with
  | Some _ => mret (with_send_another self true)
  | None =>
      tr ← range_after KEEPALIVE_TIMEOUT (from_secs 1);
      h ← on_scheduler (fun q => Scheduler.add q tr (MaybeSendKeepalive (id self)));
      mret (with_keepalive self (Some h))
  end.

Definition start_handshake {R} `{Q : QueueToPeer R} (self : Peer) (out : R)
  : ST EndpointState (Peer * R) :=
  session_id ← allocate_session (id self);
  ts ← timestamps_now;
  s ← st_get;
  '(hs, packet) ← on_env (initiate_handshake (my_key s) (key (config self)) session_id ts);
  '(mac, packet) ← on_env (write_macs (cookie_sender self) (initiation_bytes packet));
  let out := queue_to_peer out (id self) [packet] in
  tr ← range_after HANDSHAKE_TIMEOUT (from_millis 500);
  timeout ← on_scheduler (fun q => Scheduler.add q tr (HandshakeTimeout (id self)));
  mret (with_handshake self (Initiated hs timeout mac), out).

(** [Peer::send] *)
Definition peer_send (self : Peer) (packets : list bytes) (out : SendResult)
  : ST EndpointState (Peer * SendResult) :=
  '(sent, ss) ← on_env (encrypt_or_queue (session self) packets);
  let self := with_session self ss in
  let out := match sent with
             | Some packets => queue_to_peer out (id self) packets
             | None => out
             end in
  if is_active (handshake self) then mret (self, out)
  else
    rotate ← on_env (needs_rotation (session self));
    if negb rotate then mret (self, out) else start_handshake self out.

Definition recv_cookie_reply (self : Peer) (packet : CookieReply) : ST EndpointState Peer :=
  match handshake self with
  | Initiated _ _ handshake_mac1 =>
      c ← on_env (receive_cookie (cookie_sender self) packet handshake_mac1);
      mret (with_cookie_sender self c)
  | _ => mret self
  end.

Definition recv_handshake_response (self : Peer) (packet : HandshakeResponse) (out : RecvResult)
  : ST EndpointState (Peer * RecvResult) :=
  t ← on_env now;
  s ← st_get;
  let '(session', hs, q) := finish (handshake self) packet (my_key s) (psk (config self))
                              (my_cookie s) t (scheduler s) in
  _ ← st_put (with_scheduler s q);
  let self := with_handshake self hs in
  match session' with
  | None => mret (self, out)
  | Some sp =>
      '(packets, ss) ← activate (session self) sp;
      match packets with
      | [] =>
          '(r, ss) ← on_env (encrypt_or_queue ss [PacketMut.new 0]);
          packets ← st_lift (unwrap r);
          mret (with_session self ss, queue_to_peer out (id self) packets)
      | _ => mret (with_session self ss, queue_to_peer out (id self) packets)
      end
  end.

(** The end of [recv_transport_data], once [packets] confirmed the session [sp]. *)
Definition confirmed (self : Peer) (sp : SessionPair) (packets : list bytes) (out : RecvResult)
  : ST EndpointState (Peer * RecvResult) :=
  let out := queue_to_local out (id self) packets in
  self ← schedule_keepalive self;
  '(packets_for_peer, ss) ← activate (session self) sp;
  let self := with_session self ss in
  match packets_for_peer with
  | [] => mret (self, out)
  | _ => mret (self, queue_to_peer out (id self) packets_for_peer)
  end.

Definition recv_transport_data (self : Peer) (session_id : Z) (packets : list bytes)
    (out : RecvResult) : ST EndpointState (Peer * RecvResult) :=
  slot ← on_env (get_recv (session self) session_id);
  match slot with
  | Some slot =>
      '(packets, ss) ← st_lift (slot_decrypt (session self) slot packets);
      let self := with_session self ss in
      match packets with
      | [] => mret (self, out)
      | _ =>
          self' ← schedule_keepalive self;
          mret (self', queue_to_local out (id self) packets)
      end
  | None =>
      '(r, hs) ← st_lift (confirm (handshake self) session_id packets);
      let self := with_handshake self hs in
      match r with
      | None => mret (self, out)
      | Some (sp, packets) =>
          confirmed self sp packets out
      end
  end.

(** The closure of [retain_mut] in [Peer::recv]. *)
Definition recv_one (self : Peer) (packet : bytes) (out : RecvResult)
  : ST EndpointState (bool * Peer * RecvResult) :=
  match message_mut_try_from packet with
  | None => mret (false, self, out)
  | Some (MTransport _) => mret (true, self, out)
  | Some (MResponse resp) =>
      '(self, out) ← recv_handshake_response self resp out;
      mret (false, self, out)
  | Some (MCookie resp) =>
      self ← recv_cookie_reply self resp;
      mret (false, self, out)
  | Some (MInitiation _) =>
      if debug_assertions then st_panic else mret (false, self, out)
  end.

Fixpoint recv_retain (self : Peer) (packets : list bytes) (out : RecvResult)
  : ST EndpointState (list bytes * Peer * RecvResult) :=
  match packets with
  | [] => mret ([], self, out)
  | packet :: packets =>
      '(keep, self, out) ← recv_one self packet out;
      '(kept, self, out) ← recv_retain self packets out;
      mret (if (keep : bool) then packet :: kept else kept, self, out)
  end.

(** [Peer::recv] *)
Definition peer_recv (self : Peer) (session_id : Z) (packets : list bytes) (out : RecvResult)
  : ST EndpointState (Peer * RecvResult) :=
  '(packets, self, out) ← recv_retain self packets out;
  recv_transport_data self session_id packets out.

Definition respond_to_handshake (self : Peer) (hs : ReceivedHandshake) (out : RecvResult)
  : ST EndpointState (Peer * RecvResult) :=
  let replayed := match last_seen_timestamp self with
                  | Some t => TAI64N.ltb (timestamp hs) t
                  | None => false
                  end in
  if (replayed : bool) then mret (self, out)
  else
    let self := with_last_seen self (Some (timestamp hs)) in
    session_id ← allocate_session (id self);
    t ← on_env now;
    '(packet, hs) ← on_env (respond (handshake self) session_id hs (psk (config self))
                              (cookie_sender self) t);
    mret (with_handshake self hs, queue_to_peer out (id self) [packet]).

Definition handshake_timeout (self : Peer) (out : EventResult)
  : ST EndpointState (Peer * EventResult) :=
  if negb (is_active (handshake self)) then mret (self, out)
  else
    _ ← on_ids (fun i => remove_handshake_session i (handshake self));
    start_handshake (with_handshake self HsNone) out.

Definition send_keepalive (self : Peer) (out : EventResult)
  : ST EndpointState (Peer * EventResult) :=
  '(packet, ss) ← on_env (encrypt_keepalive (session self));
  let self := with_session self ss in
  match packet with
  | None => mret (self, out)
  | Some packet =>
      let out := queue_to_peer out (id self) [packet] in
      let self := with_keepalive self None in
      if send_another_keepalive self then
        self ← schedule_keepalive self;
        mret (with_send_another self false, out)
      else mret (self, out)
  end.

Definition shutdown (self : Peer) : ST EndpointState Peer :=
  ss ← deactivate (session self);
  let self := with_session self ss in
  _ ← on_ids (fun i => remove_handshake_session i (handshake self));
  mret (with_handshake self HsNone).

End WgPeer.
End WgPeer.
