(* ===== verification/WgEndpoint.v ===== *)
(** * The WireGuard endpoint (ts_tunnel/src/wireguard/endpoint.rs, [Endpoint])

    The public operations over the map of peers. *)

From S2P Require Import Prelude Tai64n Scheduler Packet Crypto Noise NoiseIKpsk2.
From S2P Require Import WgMessages WgEnv WgMacs WgSession WgHandshake WgState WgPeer.

Module WgEndpoint.
Import WgMessages WgMacs WgSession WgHandshake Results WgState WgPeer.

Record Endpoint := mkEndpoint { state : EndpointState; peers : gmap Z Peer }.

Section WgEndpoint.
Context `{C : Crypto} `{W : World}.

(** [Endpoint::new] *)
Definition endpoint_new (my_key : X25519KeyPair) : Endpoint :=
  mkEndpoint (mkState my_key (receiver_new (public my_key)) idmap_default TAI64N.Clock.new
                Scheduler.default_ env0) ∅.

(** A method of a peer, run on the peer of the map and the shared state. *)
Definition on_peer {R} (peer_id : Z) (f : Peer -> R -> ST EndpointState (Peer * R)) (out : R)
  : ST Endpoint R := fun e =>
  match peers e !! peer_id with
  | None => Done (out, e)
  | Some peer =>
      '((peer, out), s) ← f peer out (state e);
      Done (out, mkEndpoint s (<[peer_id := peer]> (peers e)))
  end.

Definition upsert_peer (id : Z) (cfg : PeerConfig) : ST Endpoint (option PeerConfig) := fun e =>
  let s := state e in
  match peers e !! id with
  | Some peer =>
      i ← (if decide (key (config peer) = key cfg) then Done (ids s)
           else i ← idmap_remove_peer (ids s) (key (config peer));
                Done (add_peer i id (key cfg)).2);
      let peer' := mkPeer (WgPeer.id peer) cfg (session peer) (handshake peer)
                     (last_seen_timestamp peer) (cookie_sender peer) (keepalive peer)
                     (send_another_keepalive peer) in
      Done (Some (config peer), mkEndpoint (with_ids s i) (<[id := peer']> (peers e)))
  | None =>
      let '(added, i) := add_peer (ids s) id (key cfg) in
      if (added : bool) then
        Done (None, mkEndpoint (with_ids s i) (<[id := peer_new id cfg]> (peers e)))
      else Panic
  end.

(** [Endpoint::remove_peer] *)
Definition remove_peer (peer : Z) : ST Endpoint bool := fun e =>
  match peers e !! peer with
  | None => Done (false, e)
  | Some p =>
      '(p, s) ← shutdown p (state e);
      i ← idmap_remove_peer (ids s) (key (config p));
      Done (true, mkEndpoint (with_ids s i) (delete peer (peers e)))
  end.

Fixpoint send_loop (packets : list (Z * list bytes)) (out : SendResult) : ST Endpoint SendResult :=
  match packets with
  | [] => mret out
  | (peer_id, packets) :: rest =>
      out ← on_peer peer_id (fun peer => peer_send peer packets) out;
      send_loop rest out
  end.

Definition send (packets : list (Z * list bytes)) : ST Endpoint SendResult :=
  send_loop packets send_default.

(** The key by which [recv] groups packets: the receiver's session identifier, zero
    for anything without one. *)
Definition group_key (packet : bytes) : Z :=
  default 0 (message_try_from packet ≫= receiver_id).

(** [into_group_map_by] *)
Definition group_map (packets : list bytes) : gmap Z (list bytes) :=
  foldl (fun m p => append_to m (group_key p) [p]) ∅ packets.

Definition process_one_handshake (packet : bytes) (out : RecvResult) : ST Endpoint RecvResult :=
  fun e =>
  match message_mut_try_from packet with
  | Some (MInitiation init) =>
      match received_new init (my_key (state e)) (my_cookie (state e)) with
      | None => Done (out, e)
      | Some hs =>
          match get_by_nodekey (ids (state e)) (peer_static hs) with
          | None => Done (out, e)
          | Some peer_id => on_peer peer_id (fun peer => respond_to_handshake peer hs) out e
          end
      end
  | _ => Done (out, e)
  end.

Fixpoint handshakes_loop (packets : list bytes) (out : RecvResult) : ST Endpoint RecvResult :=
  match packets with
  | [] => mret out
  | packet :: packets =>
      out ← process_one_handshake packet out;
      handshakes_loop packets out
  end.

Fixpoint groups_loop (groups : list (Z * list bytes)) (out : RecvResult)
  : ST Endpoint RecvResult :=
  match groups with
  | [] => mret out
  | (session_id, packets) :: groups =>
      e ← st_get;
      out ← match get_by_session_id (ids (state e)) session_id with
            | None => mret out
            | Some peer_id => on_peer peer_id (fun peer => peer_recv peer session_id packets) out
            end;
      groups_loop groups out
  end.

(** [Endpoint::recv] *)
Definition recv (packets : list bytes) : ST Endpoint RecvResult :=
  let groups := group_map packets in
  let handshakes := queued groups 0 in
  out ← handshakes_loop handshakes recv_default;
  groups_loop (hash_order (delete 0 groups)) out.

Fixpoint events_loop (events : list Event) (out : EventResult) : ST Endpoint EventResult :=
  match events with
  | [] => mret out
  | HandshakeTimeout peer_id :: events =>
      out ← on_peer peer_id handshake_timeout out;
      events_loop events out
  | MaybeSendKeepalive peer_id :: events =>
      out ← on_peer peer_id send_keepalive out;
      events_loop events out
  end.

Definition dispatch_events (now : Z) : ST Endpoint EventResult := fun e =>
  let '(events, q) := Scheduler.dispatch (scheduler (state e)) now in
  events_loop events event_default (mkEndpoint (with_scheduler (state e) q) (peers e)).

Definition next_event (e : Endpoint) : outcome (option TimeRange.range) :=
  Scheduler.next_dispatch_range (scheduler (state e)).

Definition peer_key (e : Endpoint) (id : Z) : option bytes :=
  peer ← peers e !! id; Some (key (config peer)).

Definition peer_id (e : Endpoint) (key : bytes) : option Z :=
  get_by_nodekey (ids (state e)) key.

(** Between two calls into the endpoint, the readings of the environment are forgotten:
    every call has a [World] of its own. *)
Definition fresh_env (e : Endpoint) : Endpoint :=
  mkEndpoint (with_env (state e) env0) (peers e).

End WgEndpoint.
End WgEndpoint.
