(* ===== verification/WgKeys.v ===== *)
(** * What the endpoint never changes (ts_tunnel/src/wireguard/endpoint.rs)

    Sending, receiving and dispatching leave the configurations of the peers alone, and a
    received packet is only ever attributed to a configured peer. *)

From S2P Require Import Prelude Tai64n Scheduler Packet Crypto Noise NoiseIKpsk2.
From S2P Require Import WgMessages WgEnv WgMacs WgSession WgHandshake WgState WgPeer WgEndpoint.

Module WgKeys.
Import WgMessages Results WgState WgPeer WgEndpoint.

(** ** Results of computations that return *)

Definition may {S A} (m : ST S A) (Q : A -> Prop) : Prop := forall s a s', m s = Done (a, s') -> Q a.

Section May.
Context {S A B : Type}.
Implicit Types (Q : B -> Prop).

Lemma may_ret Q b : Q b -> may (S := S) (mret b) Q.
Proof. intros HQ s a s' [= <- <-]. done. Qed.

Lemma may_bind (m : ST S A) (P : A -> Prop) (f : A -> ST S B) Q : may m P -> (forall a, P a -> may (f a) Q) -> may (m ≫= f) Q.
Proof.
  intros Hm Hf s b s' E. unfold mbind, ST_bind in E. destruct (m s) as [[a s1]|] eqn:Em; [|done]. exact (Hf a (Hm s a s1 Em) s1 b s' E).
Qed.

Lemma may_any (m : ST S A) (f : A -> ST S B) Q : (forall a, may (f a) Q) -> may (m ≫= f) Q.
Proof. intros Hf. apply (may_bind m (fun _ => True)); [done|auto]. Qed.

Lemma may_panic Q : may (S := S) st_panic Q.
Proof. intros s a s' [=]. Qed.

End May.

Create HintDb may.
#[export] Hint Resolve may_ret may_panic : may.

(** Walk through a computation whose intermediate results do not matter. *)
Ltac may_step :=
  repeat first
    [ progress cbn beta iota
    | apply may_any; intros
    | match goal with |- may (match ?x with _ => _ end) _ => destruct x end
    | match goal with |- may (if ?x then _ else _) _ => destruct x end
    | apply may_ret | apply may_panic ].

(** ** Peers *)

Definition same (p p' : Peer) : Prop := config p' = config p /\ id p' = id p.

#[global] Instance same_preorder : PreOrder same.
Proof. split; [by intros p|]. intros p q r [? ?] [? ?]. split; congruence. Qed.

(** Nothing is delivered on behalf of another peer. *)
Definition delivers (p : Peer) (out out' : RecvResult) : Prop :=
  forall q, q <> id p -> queued (rr_to_local out') q = queued (rr_to_local out) q.

Lemma delivers_trans p p' out out1 out2 : same p p' -> delivers p out out1 -> delivers p' out1 out2 -> delivers p out out2.
Proof. intros [_ Hi] H1 H2 q Hq. rewrite H2, H1; congruence. Qed.

Lemma delivers_local p out ps : delivers p out (queue_to_local out (id p) ps).
Proof. intros q Hq. cbn. by rewrite queued_append, decide_False. Qed.

Section Peer.
Context `{C : Crypto} `{W : World}.

Lemma keepalive_same p : may (schedule_keepalive p) (same p).
Proof. unfold schedule_keepalive. may_step; by split. Qed.

Lemma start_same {R} `{Q : QueueToPeer R} p (out : R) : may (start_handshake p out) (fun r => same p r.1).
Proof. unfold start_handshake. may_step; by split. Qed.

Lemma send_same p ps out : may (peer_send p ps out) (fun r => same p r.1).
Proof. unfold peer_send. may_step; (by split) || eapply start_same. Qed.

Lemma response_same p resp out : may (recv_handshake_response p resp out) (fun r => same p r.1 /\ delivers p out r.2).
Proof. unfold recv_handshake_response. may_step; by split. Qed.

Lemma cookie_same p c : may (recv_cookie_reply p c) (same p).
Proof. unfold recv_cookie_reply. may_step; by split. Qed.

Lemma confirmed_same p sp ps out : may (confirmed p sp ps out) (fun r => same p r.1 /\ delivers p out r.2).
Proof.
  unfold confirmed. apply (may_bind _ (same p)); [apply keepalive_same|]. intros p' Hp.
  may_step; (split; [done|]); intros q Hq; cbn; by rewrite queued_append, decide_False.
Qed.

Lemma data_same p sid ps out : may (recv_transport_data p sid ps out) (fun r => same p r.1 /\ delivers p out r.2).
Proof.
  unfold recv_transport_data. apply may_any. intros [slot|].
  - apply may_any. intros [ps' ss]. destruct ps' as [|x ps']; [may_step; by split|].
    apply (may_bind _ (same (with_session p ss))); [apply keepalive_same|]. intros p' Hp. may_step. split; [done|]. exact (delivers_local p out _).
  - apply may_any. intros [r hs]. destruct r as [[sp ps']|]; [|may_step; by split]. apply (confirmed_same (with_handshake p hs)).
Qed.

Lemma one_same p packet out : may (recv_one p packet out) (fun r => same p r.1.2 /\ delivers p out r.2).
Proof.
  unfold recv_one. destruct (message_mut_try_from packet) as [m|]; [|may_step; by split]. destruct m as [i|resp|t|c].
  - destruct debug_assertions; may_step; by split.
  - apply (may_bind _ _ _ _ (response_same p resp out)). intros [p' out'] H. by may_step.
  - may_step; by split.
  - apply (may_bind _ _ _ _ (cookie_same p c)). intros p' H. by may_step.
Qed.

Lemma retain_same p ps out : may (recv_retain p ps out) (fun r => same p r.1.2 /\ delivers p out r.2).
Proof.
  revert p out. induction ps as [|x ps IH]; intros p out; cbn [recv_retain]; [may_step; by split|].
  apply (may_bind _ _ _ _ (one_same p x out)). intros [[keep p1] out1] [H1 D1]. apply (may_bind _ _ _ _ (IH p1 out1)).
  intros [[kept p2] out2] [H2 D2]. may_step; (split; [by transitivity p1|by eapply delivers_trans]).
Qed.

Lemma recv_same p sid ps out : may (peer_recv p sid ps out) (fun r => same p r.1 /\ delivers p out r.2).
Proof.
  apply (may_bind _ _ _ _ (retain_same p ps out)). intros [[kept p1] out1] [H1 D1].
  intros s r s' E. destruct (data_same p1 sid kept out1 s r s' E) as [H2 D2]. split; [by transitivity p1|by eapply delivers_trans].
Qed.

Lemma respond_same p hs out : may (respond_to_handshake p hs out) (fun r => same p r.1 /\ delivers p out r.2).
Proof. unfold respond_to_handshake. may_step; by split. Qed.

Lemma timeout_same p out : may (handshake_timeout p out) (fun r => same p r.1).
Proof. unfold handshake_timeout. may_step; by split. Qed.

Lemma send_keepalive_same p out : may (send_keepalive p out) (fun r => same p r.1).
Proof.
  unfold send_keepalive. apply may_any. intros [packet ss]. destruct packet as [pk|]; [|may_step; by split].
  destruct (send_another_keepalive (with_keepalive (with_session p ss) None)); [|may_step; by split].
  apply (may_bind _ _ _ _ (keepalive_same (with_keepalive (with_session p ss) None))). intros p' [H1 H2]. may_step. by split.
Qed.

(** ** The endpoint *)

(** The configurations agree. *)
Definition keys_kept (e e' : Endpoint) : Prop := forall j, peer_key e' j = peer_key e j.

#[global] Instance keys_kept_preorder : PreOrder keys_kept.
Proof. split; [by intros e j|]. intros e1 e2 e3 H1 H2 j. by rewrite H2. Qed.

Lemma on_peer_keys {R} pid (f : Peer -> R -> ST EndpointState (Peer * R)) (Q : Peer -> R -> Prop) out r e e' :
  (forall p, may (f p out) (fun r => same p r.1 /\ Q p r.2)) -> on_peer pid f out e = Done (r, e') ->
  keys_kept e e' /\ (r = out \/ exists p, peers e !! pid = Some p /\ Q p r) /\
  forall j p', peers e' !! j = Some p' -> exists p, peers e !! j = Some p /\ id p' = id p.
Proof.
  intros Hf. unfold on_peer. destruct (peers e !! pid) as [p|] eqn:Ep; [|intros [= <- <-]; split_and!; [done|by left|eauto]].
  destruct (f p out (state e)) as [[[p' r'] s]|] eqn:Ef; [|done]. intros [= <- <-]. destruct (Hf p _ _ _ Ef) as [[Hc Hi] HQ]. cbn [fst snd] in *.
  split_and!; [|right; eauto|].
  - intros j. unfold peer_key. cbn [peers]. destruct (decide (j = pid)) as [->|Hne]; [rewrite lookup_insert_eq, Ep; cbn; by rewrite Hc|by rewrite lookup_insert_ne].
  - intros j q. cbn [peers]. rewrite lookup_insert_Some. intros [[<- <-]|[_ Hq]]; eauto.
Qed.

Lemma send_loop_keys b out r e e' : send_loop b out e = Done (r, e') -> keys_kept e e'.
Proof.
  revert out e. induction b as [|[pid ps] b IH]; intros out e E; cbn [send_loop] in E; [by injection E as _ <-|].
  unfold mbind, ST_bind in E. destruct (on_peer _ _ _ _) as [[out1 e1]|] eqn:E1; [|done].
  eapply (on_peer_keys _ _ (fun _ _ => True)) in E1 as [H1 _]; [|intros p s a s' Ea; split; [by eapply send_same|done]].
  transitivity e1; [done|]. by eapply IH.
Qed.

Lemma events_loop_keys evs out r e e' : events_loop evs out e = Done (r, e') -> keys_kept e e'.
Proof.
  revert out e. induction evs as [|[pid|pid] evs IH]; intros out e E; cbn [events_loop] in E; [by injection E as _ <-|..];
    unfold mbind, ST_bind in E; destruct (on_peer _ _ _ _) as [[out1 e1]|] eqn:E1; try done;
    (eapply (on_peer_keys _ _ (fun _ _ => True)) in E1 as [H1 _];
      [transitivity e1; [done|by eapply IH]|intros p s a s' Ea; split; [first [by eapply timeout_same | by eapply send_keepalive_same]|done]]).
Qed.

(** Identifiers of peers agree with their places. *)
Definition placed (e : Endpoint) : Prop := forall j p, peers e !! j = Some p -> id p = j.

(** Whatever was delivered is from a configured peer. *)
Definition known (e : Endpoint) (out : RecvResult) : Prop :=
  placed e /\ forall q, queued (rr_to_local out) q <> [] -> is_Some (peer_key e q).

Lemma on_peer_known pid f out r e e' :
  (forall p, may (f p out) (fun r => same p r.1 /\ delivers p out r.2)) -> on_peer pid f out e = Done (r, e') ->
  known e out -> keys_kept e e' /\ known e' r.
Proof.
  intros Hf E [Hpl Hk]. destruct (on_peer_keys pid f (fun p r => delivers p out r) out r e e' Hf E) as (Hkeys & Hr & Hid). split; [done|]. split.
  - intros j p' Hp'. destruct (Hid j p' Hp') as (p & Hp & ->). by apply Hpl.
  - intros q Hq. rewrite Hkeys. destruct Hr as [->|(p & Hp & Hd)]; [by apply Hk|].
    destruct (decide (q = pid)) as [->|Hne]; [unfold peer_key; rewrite Hp; by eexists|]. apply Hk. rewrite <- (Hd q); [done|]. by rewrite (Hpl _ _ Hp).
Qed.

Lemma handshakes_known ps out r e e' : handshakes_loop ps out e = Done (r, e') -> known e out -> keys_kept e e' /\ known e' r.
Proof.
  revert out e. induction ps as [|x ps IH]; intros out e E Hk; cbn [handshakes_loop] in E; [by injection E as <- <-|].
  unfold mbind, ST_bind in E. destruct (process_one_handshake x out e) as [[out1 e1]|] eqn:E1; [|done].
  assert (H1 : keys_kept e e1 /\ known e1 out1).
  { unfold process_one_handshake in E1. destruct (message_mut_try_from x) as [[i| | |]|]; try (injection E1 as <- <-; done).
    destruct (WgHandshake.received_new i _ _) as [hs|]; [|by injection E1 as <- <-].
    destruct (get_by_nodekey _ _) as [pid|]; [|by injection E1 as <- <-]. eapply on_peer_known; [|exact E1|done]. intros p. apply respond_same. }
  destruct H1 as [H1 Hk1]. destruct (IH out1 e1 E Hk1) as [H2 Hk2]. split; [by transitivity e1|done].
Qed.

Lemma groups_known gs out r e e' : groups_loop gs out e = Done (r, e') -> known e out -> keys_kept e e' /\ known e' r.
Proof.
  revert out e. induction gs as [|[sid ps] gs IH]; intros out e E Hk; cbn [groups_loop] in E; [by injection E as <- <-|].
  unfold mbind, ST_bind, st_get in E. destruct (get_by_session_id (ids (state e)) sid) as [pid|]; [|by apply IH in E].
  destruct (on_peer _ _ _ _) as [[out1 e1]|] eqn:E1; [|done].
  destruct (on_peer_known _ _ _ _ _ _ (fun p => recv_same p sid ps out) E1 Hk) as [H1 Hk1].
  destruct (IH out1 e1 E Hk1) as [H2 Hk2]. split; [by transitivity e1|done].
Qed.

Lemma recv_known_peers ps r e e' :
  recv ps e = Done (r, e') -> placed e -> keys_kept e e' /\ forall q, queued (rr_to_local r) q <> [] -> is_Some (peer_key e' q).
Proof.
  intros E Hpl. unfold recv in E. unfold mbind, ST_bind in E. destruct (handshakes_loop _ _ _) as [[out1 e1]|] eqn:E1; [|done].
  destruct (handshakes_known _ _ _ _ _ E1) as [H1 Hk1]; [by split|]. destruct (groups_known _ _ _ _ _ E Hk1) as [H2 [_ Hk2]].
  split; [by transitivity e1|done].
Qed.

End Peer.
End WgKeys.
