(* ===== verification/WgInv.v ===== *)
(** * Invariants of the WireGuard endpoint

    What holds of the shared state and of every peer between calls, and the proofs
    that the operations of a peer keep it and do not panic. *)

From S2P Require Import Prelude Replay Tai64n Scheduler Packet Crypto Noise NoiseIKpsk2.
From S2P Require Import WgMessages WgEnv WgMacs WgSession WgHandshake WgState WgPeer.

Module WgInv.
Import WgMessages WgMacs WgSession WgHandshake Results WgState WgPeer.

(** ** Assumptions on the environment of one call

    The clocks do not run out of range, one call takes less than a session's life
    time, the identifiers drawn at random hit a vacant one within [alloc_fuel] draws
    as long as at most [N] are taken, and a [HashMap] is iterated in some order. *)
Class WorldLaws `{W : World} (N : nat) : Prop := {
  instant_range i : - 2 ^ 62 * 10 ^ 9 <= instant_now i <= 2 ^ 62 * 10 ^ 9;
  instant_call i j : duration_since (instant_now j) (instant_now i) <= from_secs 240;
  system_sane i : TAI64N.sane_time (system_now i);
  rand_range i : 0 <= rand_u32 i < U32;
  rand_fair (k : nat) (taken : gset Z) :
    (size taken <= N)%nat -> exists i, (i < alloc_fuel)%nat /\ rand_u32 (k + i) ∉ taken;
  hash_perm m : hash_order m ≡ₚ map_to_list m }.

(** ** Invariants *)

Definition session_ids (ss : SessionState) : list Z :=
  match ss with
  | SsNone _ => []
  | Active recv prev _ => r_id recv :: match prev with Some p => [r_id p] | None => [] end
  end.

Definition handshake_ids (h : Handshake) : list Z :=
  match session_id h with Some i => [i] | None => [] end.

(** The session identifiers that a peer uses. *)
Definition held (p : Peer) : list Z := session_ids (session p) ++ handshake_ids (handshake p).

Definition session_wf (ss : SessionState) : Prop :=
  match ss with
  | SsNone q => (length q <= MAX_QUEUED_PER_PEER)%nat
  | Active recv prev send => session_ok recv /\ 0 <= t_nonce send /\
      match prev with Some p => session_ok p | None => True end
  end.

Definition handshake_wf (h : Handshake) : Prop :=
  match h with
  | Responded sp => session_ok (p_recv sp) /\ t_nonce (p_send sp) = 0
  | _ => True
  end.

(** A handshake in flight has a timeout: it is scheduled, or among the events
    [pend] that are being dispatched. *)
Definition armed (pend : list Event) (s : EndpointState) (p : Peer) : Prop :=
  match handshake p with
  | Initiated _ h _ =>
      (exists e, e ∈ Scheduler.events (scheduler s) /\
         Scheduler.ev_id e = Scheduler.h_event h /\
         Scheduler.what e = HandshakeTimeout (id p))
      \/ HandshakeTimeout (id p) ∈ pend
  | _ => True
  end.

Record peer_ok (pend : list Event) (s : EndpointState) (p : Peer) : Prop := {
  po_nodup : NoDup (held p);
  po_held i : i ∈ held p -> sessions (ids s) !! i = Some (id p);
  po_session : session_wf (session p);
  po_handshake : handshake_wf (handshake p);
  po_armed : armed pend s p }.

(** Room for [k] more sessions and [j] more timestamps. *)
Record state_ok (N k j : nat) (s : EndpointState) : Prop := {
  so_scheduler : Scheduler.inv (scheduler s);
  so_clock : TAI64N.valid (TAI64N.Clock.last (timestamps s));
  so_room : (size (sessions (ids s)) + k <= N)%nat;
  so_time : Z.max (TAI64N.TAI_BASE + 2 ^ 62) (TAI64N.secs (TAI64N.Clock.last (timestamps s)))
            + Z.of_nat j < U64 }.

(** Room for [k] more packets in the transmit session. *)
Definition session_room (k : nat) (ss : SessionState) : Prop :=
  match ss with
  | Active _ _ send => t_nonce send + Z.of_nat k < U64
  | SsNone _ => True
  end.

Definition nonce_room (k : nat) (p : Peer) : Prop := session_room k (session p).

Lemma session_room_mono k k' ss : session_room k ss -> (k' <= k)%nat -> session_room k' ss.
Proof. destruct ss; simpl; [done|]. lia. Qed.

(** What an operation of peer [pid] leaves alone. *)
Record frame (pid : Z) (s s' : EndpointState) : Prop := {
  fr_keys : node_keys (ids s') = node_keys (ids s);
  fr_my_key : my_key s' = my_key s;
  fr_my_cookie : my_cookie s' = my_cookie s;
  fr_sessions i q : q <> pid -> sessions (ids s) !! i = Some q -> sessions (ids s') !! i = Some q;
  fr_events e : e ∈ Scheduler.events (scheduler s) -> Scheduler.what e <> HandshakeTimeout pid ->
    e ∈ Scheduler.events (scheduler s') }.

#[global] Instance frame_preorder pid : PreOrder (frame pid).
Proof.
  split.
  - intros s. by split.
  - intros s1 s2 s3 [] []. split; try congruence; eauto.
Qed.

Lemma state_ok_mono N k j k' j' s :
  state_ok N k j s -> (k' <= k)%nat -> (j' <= j)%nat -> state_ok N k' j' s.
Proof. intros [] Hk Hj. split; try done; lia. Qed.

(** Reading the environment changes nothing that matters. *)
Lemma state_ok_env N k j s e : state_ok N k j s -> state_ok N k j (with_env s e).
Proof. intros []. by split. Qed.

Lemma peer_ok_env pend s e p : peer_ok pend s p -> peer_ok pend (with_env s e) p.
Proof. intros []. by split. Qed.

Lemma frame_env pid s e : frame pid s (with_env s e).
Proof. by split. Qed.

Lemma frame_env_l pid s s' e : frame pid (with_env s e) s' -> frame pid s s'.
Proof. intros []. by split. Qed.

Lemma frame_env_r pid s s' e : frame pid s s' -> frame pid s (with_env s' e).
Proof. intros []. by split. Qed.

#[export] Hint Resolve state_ok_env peer_ok_env frame_env frame_env_l frame_env_r : ts.
#[export] Hint Extern 1 (state_ok _ _ _ _) =>
  eapply state_ok_mono; [eassumption|lia|lia] : ts.

(** An untouched peer stays well-formed. *)
Lemma peer_ok_frame pend pid s s' p :
  frame pid s s' -> id p <> pid -> peer_ok pend s p -> peer_ok pend s' p.
Proof.
  intros Hf Hne [Hn Hh Hs Hhs Ha]. split; try done.
  - intros i Hi. apply (fr_sessions _ _ _ Hf); auto.
  - unfold armed in *. destruct (handshake p); try done.
    destruct Ha as [(e & He & Hid & Hw)|Ha]; [left|by right].
    exists e. split_and!; try done. apply (fr_events _ _ _ Hf); [done|]. rewrite Hw. congruence.
Qed.

(** ** The scheduler, seen from a peer *)

Lemma add_events {E} (q : Scheduler.t (E := E)) r w e :
  e ∈ Scheduler.events (Scheduler.add q r w).2 <->
  e = Scheduler.mkEvent (Scheduler.next_id q) r w \/ e ∈ Scheduler.events q.
Proof. simpl. by rewrite Scheduler.vec_insert_perm, elem_of_cons. Qed.

Lemma cancel_events {E} (q : Scheduler.t (E := E)) h e :
  Scheduler.inv q -> e ∈ Scheduler.events q -> Scheduler.ev_id e <> Scheduler.h_event h ->
  e ∈ Scheduler.events (Scheduler.cancel q h).
Proof.
  intros Hi He Hne. unfold Scheduler.cancel.
  destruct (Scheduler.upgrade q h) as [e0|] eqn:Eu; [|done].
  apply Scheduler.upgrade_Some in Eu as [He0 Hid0].
  destruct (Scheduler.find_spec q e0 Hi He0) as (i & -> & Hl). simpl.
  rewrite (Scheduler.vec_remove_perm _ _ _ Hl) in He.
  apply elem_of_cons in He as [->|He]; [congruence|done].
Qed.

Lemma event_unique {E} (q : Scheduler.t (E := E)) e e' :
  Scheduler.inv q -> e ∈ Scheduler.events q -> e' ∈ Scheduler.events q ->
  Scheduler.ev_id e = Scheduler.ev_id e' -> e = e'.
Proof.
  intros [_ _ Hn _] He He' Hid.
  apply list_elem_of_lookup in He as [i Hi]. apply list_elem_of_lookup in He' as [j Hj].
  assert (i = j) as ->; [|congruence].
  eapply (NoDup_lookup _ i j (Scheduler.ev_id e) Hn);
    rewrite list_lookup_fmap; [by rewrite Hi|rewrite Hj; simpl; congruence].
Qed.

Section WgInv.
Context `{C : Crypto} `{W : World} `{L : !CryptoLaws} {N : nat} `{WL : !WorldLaws N}.

(** ** Reading the environment *)

Lemma wp_on_env {A} (m : ST Env A) Q s :
  wp m (fun a e => Q a (with_env s e)) (env s) -> wp (on_env m) Q s.
Proof. unfold wp, on_env. by destruct (m (env s)) as [[a e]|]. Qed.

Lemma wp_now Q e : (forall i e', Q (instant_now i) e') -> wp now Q e.
Proof. intros H. apply H. Qed.

(** The state only changed in what was read from the environment. *)
Definition same_but_env (s s' : EndpointState) : Prop := exists e, s' = with_env s e.

Lemma wp_on_env_any {A} (m : ST Env A) Q s :
  (forall e, wp m (fun a _ => Q a) e) ->
  wp (on_env m) (fun a s' => Q a /\ same_but_env s s') s.
Proof.
  intros H. apply wp_on_env. eapply wp_mono; [apply H|]. intros a e HQ. split; [done|]. by exists e.
Qed.

(** ** Allocating identifiers and timestamps *)

Lemma allocate_loop_ok fuel m pid e :
  (exists i, (i < fuel)%nat /\ rand_u32 (e_rand e + i) ∉ dom (sessions m)) ->
  wp (allocate_loop fuel m pid)
    (fun r _ => exists i, r = Some (i, mkIdMap (<[i := pid]> (sessions m)) (node_keys m)) /\
       sessions m !! i = None /\ exists n, i = rand_u32 n) e.
Proof.
  revert e. induction fuel as [|fuel IH]; intros e (i & Hi & Hv); [lia|].
  cbn [allocate_loop]. wp_step. unfold wp at 1, random_u32.
  destruct (sessions m !! rand_u32 (e_rand e)) as [q|] eqn:El.
  - apply IH. destruct i as [|i].
    + rewrite Nat.add_0_r in Hv. apply not_elem_of_dom in Hv. congruence.
    + exists i. simpl e_rand. split; [lia|]. by rewrite Nat.add_succ_comm.
  - apply wp_ret. eexists. split_and!; try done. by eexists.
Qed.

(** The state after an identifier was allocated for a peer. *)
Definition allocated (pid : Z) (s : EndpointState) (i : Z) (s' : EndpointState) : Prop :=
  sessions (ids s) !! i = None /\ (exists n, i = rand_u32 n) /\
  exists e, s' = with_env (with_ids s
    (mkIdMap (<[i := pid]> (sessions (ids s))) (node_keys (ids s)))) e.

Lemma allocate_session_ok k j s pid :
  state_ok N (S k) j s ->
  wp (allocate_session pid) (fun i s' => allocated pid s i s' /\ state_ok N k j s') s.
Proof.
  intros Hs. unfold allocate_session. do 3 wp_step. apply wp_on_env.
  eapply wp_mono; [apply allocate_loop_ok|].
  { apply rand_fair. rewrite size_dom. pose proof (so_room _ _ _ _ Hs). lia. }
  intros r e (i & -> & Hv & Hr). wp_step. apply wp_lift. eexists. split; [done|].
  wp_step. unfold wp at 1, on_ids. cbn.
  split; [split_and!; [done|done|by exists e]|].
  destruct Hs as [H1 H2 H3 H4]. split; try done.
  simpl. rewrite map_size_insert_None by done. lia.
Qed.

Lemma allocated_frame pid s i s' : allocated pid s i s' -> frame pid s s'.
Proof.
  intros (Hv & _ & e & ->). split; try done. simpl. intros i' q Hq Hl.
  rewrite lookup_insert_ne; [done|]. intros ->. congruence.
Qed.

Lemma timestamps_now_ok k j s :
  state_ok N k (S j) s ->
  wp timestamps_now (fun a s' => TAI64N.valid a /\ state_ok N k j s' /\
    exists c e, s' = with_timestamps (with_env s e) c) s.
Proof.
  intros [H1 H2 H3 H4]. unfold timestamps_now. wp_step. apply wp_on_env.
  unfold wp at 1, system_time. do 3 wp_step. apply wp_lift. simpl timestamps.
  destruct (TAI64N.clock_now_no_panic (timestamps s) (system_now (e_system (env s))) H2)
    as (a & c & E); [lia|apply system_sane|].
  eexists. split; [exact E|].
  destruct (TAI64N.clock_now_Done _ _ _ _ H2 (system_sane _) E) as (Hl & Hv & _ & _ & Hb).
  do 3 wp_step. split; [done|]. split; [|by do 2 eexists].
  split; simpl; try done; rewrite Hl; [done|]. lia.
Qed.

Lemma range_after_ok s timeout pm :
  0 <= timeout <= from_secs 1000 -> 0 <= pm ->
  wp (range_after timeout pm) (fun tr s' => TimeRange.ok tr /\ same_but_env s s') s.
Proof.
  intros Ht Hp. unfold range_after. wp_step. apply wp_on_env. apply wp_now. intros i e.
  wp_step. apply wp_lift.
  pose proof (instant_range i) as Hr. unfold from_secs, SECOND in Ht.
  unfold instant_add, TimeRange.checked_add.
  replace (TimeRange.instant_ok (instant_now i + timeout)) with true.
  2: { symmetry. unfold TimeRange.instant_ok. apply andb_true_iff.
       rewrite Z.leb_le, Z.ltb_lt. lia. }
  eexists. split; [done|]. apply wp_lift.
  destruct (TimeRange.new_around_ok (instant_now i + timeout) pm Hp) as (r & -> & Hok & _).
  eexists. split; [done|]. split; [done|]. by exists e.
Qed.

(** ** Starting a handshake *)

Lemma initiate_handshake_ok key peer sid ts e :
  wp (initiate_handshake key peer sid ts)
    (fun r _ => sh_id r.1 = sid /\ (32 <= length (initiation_bytes r.2))%nat) e.
Proof.
  unfold initiate_handshake, noise_sent_new. do 2 wp_step. unfold wp at 1, random_secret.
  apply wp_lift. unfold IKpsk2.new_with_ephemeral. rewrite decide_True by done.
  destruct (Core.seal _ _) as [[sct stag] s1]. destruct (Core.seal _ _) as [[pct ptag] s2].
  eexists. split; [done|]. wp_step. split; [done|].
  unfold initiation_bytes. simpl hi_mac1. simpl hi_mac2.
  rewrite !length_app, !PacketMut.length_zeroes. lia.
Qed.

Lemma write_macs_ok ms pkt e :
  (32 <= length pkt)%nat -> wp (write_macs ms pkt) (fun r _ => length r.1 = 16%nat) e.
Proof.
  intros Hl. unfold write_macs. rewrite decide_True by done. wp_step.
  unfold live_cookie. destruct (cookie ms) as [c|].
  - wp_step. apply wp_now. intros i e'. wp_step.
    destruct (instant_now i <? expiry c); apply wp_ret; apply blake2s_mac_length.
  - apply wp_ret, wp_ret, blake2s_mac_length.
Qed.

(** What an operation of a peer establishes. *)
Record peer_step (pend : list Event) (k j : nat) (self : Peer) (s : EndpointState)
    (p : Peer) (s' : EndpointState) : Prop := {
  ps_state : state_ok N k j s';
  ps_peer : peer_ok pend s' p;
  ps_id : id p = id self;
  ps_config : config p = config self;
  ps_frame : frame (id self) s s' }.

Lemma start_handshake_ok {R} `{Q : !QueueToPeer R} pend k j s self (out : R) :
  state_ok N (S k) (S j) s -> peer_ok pend s self -> handshake self = HsNone ->
  wp (start_handshake self out) (fun r s' => peer_step pend k j self s r.1 s' /\
    session r.1 = session self /\ exists pkt, r.2 = queue_to_peer out (id self) [pkt]) s.
Proof.
  intros Hs [Hn Hh Hse _ _] Hnone. unfold start_handshake. unfold held in *.
  rewrite Hnone, app_nil_r in *.
  wp_step. eapply wp_mono; [by apply allocate_session_ok|].
  intros sid s1 [Ha Hs1]. pose proof (allocated_frame _ _ _ _ Ha) as Hf.
  destruct Ha as (Hv & Hr & e1 & ->).
  wp_step. eapply wp_mono; [by apply timestamps_now_ok|].
  intros ts s2 (Hts & Hs2 & c & e2 & ->). do 3 wp_step.
  eapply wp_mono; [apply wp_on_env_any; intros e; apply initiate_handshake_ok|].
  intros [hs pkt] s3 [[Hid Hlen] [e3 ->]]. simpl in Hid, Hlen. wp_step.
  eapply wp_mono; [apply wp_on_env_any; intros e; by apply write_macs_ok|].
  intros [mac pkt'] s4 [_ [e4 ->]]. wp_step.
  eapply wp_mono; [apply range_after_ok; by vm_compute|].
  intros tr s5 [Htr [e5 ->]]. wp_step. unfold wp at 1, on_scheduler.
  match goal with |- context [Scheduler.add ?q ?r ?w] =>
    pose proof (Scheduler.add_inv q r w (so_scheduler _ _ _ _ Hs2) Htr) as Hi;
    pose proof (add_events q r w) as He
  end.
  destruct (Scheduler.add _ _ _) as [h q'] eqn:Eadd. simpl in Hi, He. wp_step.
  split; [|split; [done|by eexists]]. cbn [fst].
  split; simpl; try done.
  - destruct Hs2. by split.
  - split; unfold held, handshake_ids; simpl.
    + apply NoDup_app. split_and!; [done| |apply NoDup_singleton].
      intros i Hi2 ->%list_elem_of_singleton. rewrite Hid in Hi2. apply Hh in Hi2. congruence.
    + rewrite Hid. intros i [Hi2| ->%list_elem_of_singleton]%elem_of_app.
      * rewrite lookup_insert_ne; [by apply Hh|]. intros ->. apply Hh in Hi2. congruence.
      * by rewrite lookup_insert_eq.
    + done.
    + done.
    + unfold armed. simpl. left. eexists. split; [apply He; by left|].
      split; [|done]. unfold Scheduler.add in Eadd. by injection Eadd as <- _.
  - destruct Hf as [F1 F2 F3 F4 F5]. split; simpl; try done.
    intros e He' _. apply He. by right.
Qed.

(** ** Sending *)

(** A peer that holds fewer identifiers stays well-formed. *)
Lemma peer_ok_sub pend s s' p p' :
  peer_ok pend s p -> id p' = id p -> held p' ⊆+ held p ->
  (forall i, i ∈ held p' -> sessions (ids s) !! i = Some (id p) ->
     sessions (ids s') !! i = Some (id p)) ->
  session_wf (session p') -> handshake_wf (handshake p') -> armed pend s' p' ->
  peer_ok pend s' p'.
Proof.
  intros [Hn Hh _ _ _] Hid Hsub Hm Hs Hhs Ha. split; try done.
  - apply submseteq_Permutation in Hsub as [k Hk]. rewrite Hk in Hn. by apply NoDup_app in Hn as [].
  - intros i Hi. rewrite Hid. apply Hm; [done|]. apply Hh. by eapply elem_of_submseteq.
Qed.

(** The new session state keeps all or none of the identifiers. *)
Definition ids_kept (old new : SessionState) : Prop :=
  session_ids new = session_ids old \/ session_ids new = [].

Lemma peer_ok_with_session pend s p ss :
  peer_ok pend s p -> session_wf ss -> ids_kept (session p) ss ->
  peer_ok pend s (with_session p ss).
Proof.
  intros Hp Hw Hk. eapply peer_ok_sub; try done; try apply Hp. unfold held. simpl.
  destruct Hk as [-> | ->]; [done|]. by apply submseteq_inserts_l.
Qed.

Lemma encrypt_or_queue_ok n ss packets e :
  session_wf ss -> session_room (n + length packets) ss ->
  wp (encrypt_or_queue ss packets)
    (fun r _ => (session_wf r.2 /\ ids_kept ss r.2) /\ session_room n r.2) e.
Proof.
  intros Hw Hn. unfold encrypt_or_queue. destruct ss as [q|recv prev send]; simpl in Hn.
  - apply wp_ret. split; [|done]. split; [|by left]. simpl in *.
    rewrite queue_append_newest by done. apply newest_length.
  - wp_step. apply wp_now. intros i e'. destruct (transmit_expired _ _).
    + apply wp_ret. split; [|done]. split; [|by right]. simpl. unfold queue_new_with.
      rewrite queue_append_newest by (simpl; lia). apply newest_length.
    + wp_step. apply wp_lift. rewrite encrypt_spec by lia. eexists. split; [done|].
      wp_step. simpl in *. destruct Hw as (? & ? & ?). split; [|lia]. split; [|by left].
      simpl. split_and!; try done. lia.
Qed.

Lemma needs_rotation_ok ss e : wp (needs_rotation ss) (fun _ _ => True) e.
Proof.
  unfold needs_rotation. destruct ss; [done|]. wp_step. apply wp_now. intros. done.
Qed.

Lemma peer_send_ok pend k j n s self packets out :
  state_ok N (S k) (S j) s -> peer_ok pend s self -> nonce_room (n + length packets) self ->
  wp (peer_send self packets out)
    (fun r s' => peer_step pend k j self s r.1 s' /\ nonce_room n r.1) s.
Proof.
  intros Hs Hp Hn. unfold peer_send. wp_step.
  eapply wp_mono; [apply wp_on_env_any; intros e; apply (encrypt_or_queue_ok n); [apply Hp|apply Hn]|].
  intros [sent ss] s1 [[[Hw Hk] Hr] [e1 ->]]. simpl in Hw, Hk, Hr.
  pose proof (peer_ok_with_session _ _ _ _ Hp Hw Hk) as Hp1.
  cbn [handshake with_session]. destruct (is_active (handshake self)) eqn:Ea.
  - wp_step. split; [|done]. split; auto with ts.
  - wp_step. eapply wp_mono; [apply wp_on_env_any; intros e; apply needs_rotation_ok|].
    intros b s2 [_ [e2 ->]]. destruct (negb b).
    + wp_step. split; [|done]. split; eauto with ts.
    + eapply wp_mono; [eapply (start_handshake_ok pend k j); [eauto with ts..|]|].
      { simpl. by destruct (handshake self). }
      intros [p' out'] s3 [[H1 H2 H3 H4 H5] [Hss _]]. simpl in Hss.
      split; [split; eauto with ts|]. unfold nonce_room. simpl. by rewrite Hss.
Qed.

(** ** Releasing identifiers and activating sessions *)

Lemma remove_session_ok k j s pid i :
  state_ok N k j s -> sessions (ids s) !! i = Some pid ->
  wp (on_ids (fun m => remove_session m i)) (fun _ s' =>
    s' = with_ids s (mkIdMap (delete i (sessions (ids s))) (node_keys (ids s))) /\
    state_ok N k j s' /\ frame pid s s') s.
Proof.
  intros [H1 H2 H3 H4] Hi. unfold wp, on_ids, remove_session. rewrite Hi. cbn [mbind outcome_bind].
  split; [done|]. split.
  - split; try done. simpl. rewrite map_size_delete_Some by eauto. lia.
  - split; try done. simpl. intros i' q Hq Hl. rewrite lookup_delete_ne; [done|]. congruence.
Qed.

Definition next_ok (next : SessionPair) : Prop :=
  session_ok (p_recv next) /\ t_nonce (p_send next) = 0.

Lemma activate_ok k j s pid ss next :
  state_ok N k j s -> session_wf ss -> next_ok next ->
  NoDup (session_ids ss ++ [r_id (p_recv next)]) ->
  (forall i, i ∈ session_ids ss ++ [r_id (p_recv next)] -> sessions (ids s) !! i = Some pid) ->
  wp (activate ss next) (fun r s' =>
    state_ok N k j s' /\ frame pid s s' /\ scheduler s' = scheduler s /\ session_wf r.2 /\
    session_ids r.2 ⊆+ session_ids ss ++ [r_id (p_recv next)] /\
    (forall i, i ∈ session_ids r.2 -> sessions (ids s') !! i = Some pid) /\
    exists prev send, r.2 = Active (p_recv next) prev send /\
      t_created send = t_created (p_send next) /\ 0 <= t_nonce send <= 32) s.
Proof.
  intros Hs Hw [Hok Hz] Hnd Hm. unfold activate. destruct ss as [q|recv prev send]; simpl fst; cbn iota.
  - wp_step. apply wp_lift. simpl in Hw. unfold MAX_QUEUED_PER_PEER in Hw.
    rewrite encrypt_spec by (rewrite Hz; unfold U64; lia). eexists. split; [done|]. wp_step.
    simpl in *. rewrite Hz. split_and!; try done; [lia|].
    do 2 eexists. split; [done|]. simpl. split; [done|lia].
  - simpl in Hw. destruct Hw as (Hr & Hn & Hp).
    assert (Hfin : forall s' ids', s' = with_ids s ids' -> state_ok N k j s' ->
      frame pid s s' ->
      (forall i, i = r_id recv \/ i = r_id (p_recv next) -> sessions ids' !! i = Some pid) ->
      wp (mret ([], Active (p_recv next) (Some recv) (p_send next)) :
            ST EndpointState (list bytes * SessionState)) (fun r s' =>
        state_ok N k j s' /\ frame pid s s' /\ scheduler s' = scheduler s /\ session_wf r.2 /\
        session_ids r.2 ⊆+ session_ids (Active recv prev send) ++ [r_id (p_recv next)] /\
        (forall i, i ∈ session_ids r.2 -> sessions (ids s') !! i = Some pid) /\
        exists prev send, r.2 = Active (p_recv next) prev send /\
          t_created send = t_created (p_send next) /\ 0 <= t_nonce send <= 32) s').
    { intros s' ids' -> Hs' Hf' Hm'. wp_step. split_and!; try done; simpl; [by rewrite Hz| | |].
      - rewrite Permutation_swap. apply submseteq_skip.
        apply submseteq_inserts_l. done.
      - intros i Hi. apply Hm'. set_solver.
      - do 2 eexists. split; [done|]. rewrite Hz. split; [done|lia]. }
    destruct prev as [prev|].
    + wp_step. eapply wp_mono; [apply (remove_session_ok k j s pid (r_id prev)); [done|]|].
      { apply Hm. simpl. set_solver. }
      intros _ s' (-> & Hs' & Hf'). eapply Hfin; try done.
      intros i Hi. simpl. simpl in Hnd.
      rewrite !NoDup_cons in Hnd.
      assert (r_id prev <> i) by (destruct Hi as [-> | ->]; set_solver).
      rewrite lookup_delete_ne by done. apply Hm. simpl. set_solver.
    + do 2 wp_step. apply (Hfin s (ids s)); try done; [by destruct s|].
      intros i Hi. apply Hm. simpl. set_solver.
Qed.

(** ** Handshake responses *)

Lemma finish_spec hs packet key psk macs t q :
  let '(r, hs', q') := finish hs packet key psk macs t q in
  match r with
  | None => q' = q /\ (hs' = hs \/ hs' = HsNone)
  | Some sp => exists sent timeout mac, hs = Initiated sent timeout mac /\ hs' = HsNone /\
      q' = Scheduler.cancel q timeout /\ r_id (p_recv sp) = sh_id sent /\ next_ok sp /\
      t_created (p_send sp) = t
  end.
Proof.
  unfold finish, take_initiated. destruct hs as [|sent timeout mac|sp]; [by auto| |by auto].
  destruct (negb _); [by auto|]. destruct (IKpsk2.try_finish _ _ _ _); [|by auto].
  do 3 eexists. split_and!; try done. split; [apply receive_new_ok|done].
Qed.

(** Cancelling a peer's own handshake timeout concerns no other peer. *)
Lemma cancel_frame k j s p sent timeout mac :
  state_ok N k j s -> peer_ok [] s p -> handshake p = Initiated sent timeout mac ->
  state_ok N k j (with_scheduler s (Scheduler.cancel (scheduler s) timeout)) /\
  frame (id p) s (with_scheduler s (Scheduler.cancel (scheduler s) timeout)).
Proof.
  intros [H1 H2 H3 H4] [_ _ _ _ Ha] Hh. split.
  - split; try done. by apply Scheduler.cancel_inv.
  - split; try done. intros e He Hw. simpl. apply cancel_events; [done..|].
    intros Hid. unfold armed in Ha. rewrite Hh in Ha.
    destruct Ha as [(e' & He' & Hid' & Hw')|Ha]; [|set_solver].
    assert (e = e') as -> by (eapply event_unique; eauto; congruence). done.
Qed.

(** A session that was just created has not expired. *)
Lemma encrypt_or_queue_fresh recv prev send i packets e :
  t_created send = instant_now i -> t_nonce send + Z.of_nat (length packets) < U64 ->
  wp (encrypt_or_queue (Active recv prev send) packets) (fun r _ =>
    exists ps, r.1 = Some ps /\ exists send', r.2 = Active recv prev send' /\
      t_nonce send' = t_nonce send + Z.of_nat (length packets)) e.
Proof.
  intros Hc Hn. unfold encrypt_or_queue. wp_step. apply wp_now. intros i' e'.
  unfold transmit_expired. rewrite Hc, (proj2 (Z.ltb_ge _ _)) by apply instant_call.
  wp_step. apply wp_lift. rewrite encrypt_spec by done. eexists. split; [done|]. wp_step.
  eexists. split; [done|]. by eexists.
Qed.

Lemma peer_ok_no_handshake pend s p : peer_ok pend s p -> peer_ok pend s (with_handshake p HsNone).
Proof.
  intros Hp. eapply peer_ok_sub; try done; try apply Hp. unfold held. simpl.
  rewrite app_nil_r. by apply submseteq_inserts_r.
Qed.

(** A peer whose only identifiers are those of its new session. *)
Lemma activated_peer_ok pend s p ss held_ids :
  NoDup held_ids -> session_ids ss ⊆+ held_ids ->
  (forall i, i ∈ session_ids ss -> sessions (ids s) !! i = Some (id p)) ->
  session_wf ss -> handshake p = HsNone -> peer_ok pend s (with_session p ss).
Proof.
  intros Hnd Hsub Hm Hw Hh. split; unfold held, handshake_ids, armed; simpl; rewrite ?Hh; try done.
  - simpl. rewrite app_nil_r. apply submseteq_Permutation in Hsub as [kk Hk].
    rewrite Hk in Hnd. by apply NoDup_app in Hnd as [].
  - simpl. by rewrite app_nil_r.
Qed.

Lemma recv_handshake_response_ok k j s self packet out :
  state_ok N k j s -> peer_ok [] s self ->
  wp (recv_handshake_response self packet out) (fun r s' => peer_step [] k j self s r.1 s') s.
Proof.
  intros Hs Hp. unfold recv_handshake_response. wp_step. apply wp_on_env. apply wp_now.
  intros it e1. do 2 wp_step.
  match goal with |- context [finish ?a ?b ?c ?d ?f ?g ?h] =>
    pose proof (finish_spec a b c d f g h) as Hfin; destruct (finish a b c d f g h) as [[r hs'] q']
  end.
  do 2 wp_step. destruct r as [sp|].
  2: { wp_step. destruct Hfin as [-> Hhs]. split; simpl; try done.
       - destruct Hs. by split.
       - destruct Hhs as [-> | ->]; [destruct Hp; by split|].
         apply peer_ok_no_handshake in Hp. destruct Hp. by split. }
  destruct Hfin as (sent & timeout & mac & Hh & -> & -> & Hid & Hnext & Hcr).
  destruct (cancel_frame _ _ _ _ _ _ _ Hs Hp Hh) as [Hs1 Hf1].
  change (scheduler (with_env s e1)) with (scheduler s).
  change (with_scheduler (with_env s e1) ?q) with (with_env (with_scheduler s q) e1).
  destruct Hp as [Hnd Hheld Hsw _ _]. unfold held, handshake_ids in *. rewrite Hh in *.
  cbn [session_id] in *. rewrite <- Hid in *. cbn [session with_handshake].
  wp_step. eapply wp_mono; [eapply (activate_ok k j _ (id self)); eauto with ts|].
  intros [packets ss] s2 (Hs2 & Hf2 & Hq2 & Hw2 & Hsub & Hm & prev & send & Hss & Hcr2 & Hn2).
  simpl fst in *; simpl snd in *.
  assert (Hf : frame (id self) s s2).
  { transitivity (with_scheduler s (Scheduler.cancel (scheduler s) timeout)); eauto with ts. }
  assert (Hpeer : forall ss' s', session_ids ss' = session_ids ss -> session_wf ss' ->
            ids s' = ids s2 -> peer_ok [] s' (with_session (with_handshake self HsNone) ss')).
  { intros ss' s' Hi Hw' Hids. rewrite <- Hi in Hsub, Hm. rewrite <- Hids in Hm.
    by eapply activated_peer_ok. }
  destruct packets as [|p0 packets].
  - wp_step. subst ss.
    eapply wp_mono; [apply wp_on_env_any; intros e; apply (encrypt_or_queue_fresh _ _ _ it)|].
    { congruence. } { simpl. unfold U64. lia. }
    intros [r ss'] s3 [(ps & Hr & send' & Hss' & Hn') [e3 ->]]. simpl in Hr, Hss'. subst r ss'.
    wp_step. apply wp_lift. eexists. split; [done|]. wp_step.
    split; eauto with ts.
    apply Hpeer; [done| |done]. simpl in *. destruct Hw2 as (? & ? & ?). split_and!; try done. lia.
  - wp_step. split; eauto with ts.
Qed.

(** ** Transport data *)

(** The header of a packet, if it has one, names the session [sid]. *)
Definition addressed (sid : Z) (pkt : bytes) : Prop :=
  forall h, transport_from_prefix pkt = Some h -> td_receiver_id h = sid.

Lemma decrypt_one_ok r pkt :
  session_ok r -> addressed (r_id r) pkt ->
  exists o r', decrypt_one r pkt = Done (o, r') /\ session_ok r' /\ r_id r' = r_id r.
Proof.
  intros [m Hm] Ha. destruct (transport_from_prefix pkt) as [h|] eqn:Et.
  - destruct (decrypt_one_spec r m pkt h Hm Et (Ha h Et)) as (r' & -> & _ & Hi & _ & Hr).
    do 2 eexists. split; [done|]. split; [by eexists|done].
  - exists None, r. unfold decrypt_one. rewrite Et. split; [done|]. split; [by eexists|done].
Qed.

Lemma decrypt_ok r packets :
  session_ok r -> Forall (addressed (r_id r)) packets ->
  exists ps r', decrypt r packets = Done (ps, r') /\ session_ok r' /\ r_id r' = r_id r.
Proof.
  intros Hr Hp. revert r Hr Hp. induction packets as [|pkt packets IH]; intros r Hr Hp; simpl.
  { by exists [], r. }
  inversion Hp as [|?? Ha Hp']; subst.
  destruct (decrypt_one_ok r pkt Hr Ha) as (o & r1 & -> & Hr1 & Hi1). cbn [mbind outcome_bind].
  destruct (IH r1 Hr1) as (ps & r2 & -> & Hr2 & Hi2); [by rewrite Hi1|].
  cbn [mbind outcome_bind]. do 2 eexists. split; [done|]. split; [done|congruence].
Qed.

Lemma get_recv_ok ss sid e :
  wp (get_recv ss sid) (fun o _ =>
    match o, ss with
    | Some SlotRecv, Active recv _ _ => r_id recv = sid
    | Some SlotPrev, Active _ (Some prev) _ => r_id prev = sid
    | Some _, _ => False
    | None, _ => True
    end) e.
Proof.
  unfold get_recv, id_live. destruct ss as [q|recv prev send]; [done|]. wp_step.
  assert (Hprev : forall e, wp (match prev with
      | None => mret None
      | Some prev =>
          b ← (if r_id prev =? sid then (t ← now; mret (negb (receive_expired recv t)))
               else mret false);
          mret (if (b : bool) then Some SlotPrev else None)
      end) (fun o _ => match o with
        | Some SlotRecv => r_id recv = sid
        | Some SlotPrev => match prev with Some prev => r_id prev = sid | None => False end
        | None => True end) e).
  { intros e'. destruct prev as [prev|]; [|done]. wp_step.
    destruct (r_id prev =? sid) eqn:Ei; b2p; [|done].
    wp_step. apply wp_now. intros i e2. do 2 wp_step. by destruct (negb _). }
  destruct (r_id recv =? sid) eqn:Ei; b2p.
  - wp_step. apply wp_now. intros i e1. wp_step. destruct (negb _); [done|].
    eapply wp_mono; [apply Hprev|]. intros [[]|]; destruct prev; done.
  - wp_step. eapply wp_mono; [apply Hprev|]. intros [[]|]; destruct prev; done.
Qed.

Lemma slot_decrypt_ok ss slot sid packets :
  session_wf ss -> Forall (addressed sid) packets ->
  match slot, ss with
  | SlotRecv, Active recv _ _ => r_id recv = sid
  | SlotPrev, Active _ (Some prev) _ => r_id prev = sid
  | _, _ => False
  end ->
  exists ps ss', slot_decrypt ss slot packets = Done (ps, ss') /\ session_wf ss' /\
    session_ids ss' = session_ids ss.
Proof.
  intros Hw Ha Hs. destruct ss as [q|recv prev send]; [by destruct slot|].
  destruct Hw as (H1 & H2 & H3).
  assert (Hdec : forall r, session_ok r -> r_id r = sid ->
    exists ps r', decrypt r packets = Done (ps, r') /\ session_ok r' /\ r_id r' = r_id r).
  { intros r Hr Hi. apply decrypt_ok; [done|]. by rewrite Hi. }
  destruct slot, prev as [prev|]; try done; simpl.
  3: destruct (Hdec prev H3 Hs) as (ps & r & -> & Hr & Hi).
  1,2: destruct (Hdec recv H1 Hs) as (ps & r & -> & Hr & Hi).
  all: cbn [mbind outcome_bind]; do 2 eexists; split; [reflexivity|]; simpl; by rewrite Hi.
Qed.

Lemma schedule_keepalive_ok pend k j s self :
  state_ok N k j s -> peer_ok pend s self ->
  wp (schedule_keepalive self) (fun p s' => peer_step pend k j self s p s' /\
    session p = session self /\ handshake p = handshake self /\ ids s' = ids s) s.
Proof.
  intros Hs Hp. unfold schedule_keepalive. destruct (keepalive self).
  { wp_step. split; [|done]. split; try done. destruct Hp. by split. }
  wp_step. eapply wp_mono; [apply range_after_ok; by vm_compute|].
  intros tr s1 [Htr [e1 ->]]. wp_step. unfold wp at 1, on_scheduler.
  pose proof (Scheduler.add_inv (scheduler s) tr (MaybeSendKeepalive (id self))
                (so_scheduler _ _ _ _ Hs) Htr) as Hi.
  pose proof (add_events (scheduler s) tr (MaybeSendKeepalive (id self))) as He.
  change (scheduler (with_env s e1)) with (scheduler s).
  destruct (Scheduler.add _ _ _) as [h q]; simpl in Hi, He. wp_step. split; [|done].
  destruct Hs as [S1 S2 S3 S4], Hp as [P1 P2 P3 P4 P5]. split; try done; split; try done.
  - unfold armed in *. simpl. destruct (handshake self); try done.
    destruct P5 as [(e & ? & ? & ?)|]; [left|by right]. exists e. rewrite He. by split_and!; [right|..].
  - intros e He' _. simpl. apply He. by right.
Qed.

Lemma confirm_ok hs sid packets :
  handshake_wf hs -> Forall (addressed sid) packets ->
  exists r hs', confirm hs sid packets = Done (r, hs') /\ handshake_wf hs' /\
    match r with
    | None => hs' = hs \/ (session_id hs' = session_id hs /\ exists sp, hs' = Responded sp)
    | Some (sp, _) => hs' = HsNone /\ next_ok sp /\ session_id hs = Some (r_id (p_recv sp))
    end.
Proof.
  intros Hw Ha. unfold confirm. destruct hs as [| |sp]; try (do 2 eexists; split; [done|]; by auto).
  destruct (r_id (p_recv sp) =? sid) eqn:Ei; b2p; simpl; [|do 2 eexists; split; [done|]; by auto].
  destruct Hw as [Hok Hz]. subst sid.
  destruct (decrypt_ok _ packets Hok Ha) as (ps & r' & -> & Hr & Hi). cbn [mbind outcome_bind].
  destruct ps; do 2 eexists; (split; [reflexivity|]); simpl; rewrite Hi.
  - split; [done|]. right. eauto.
  - done.
Qed.

Lemma confirmed_ok k j s self sp packets out :
  state_ok N k j s -> peer_ok [] s self -> next_ok sp ->
  session_id (handshake self) = Some (r_id (p_recv sp)) ->
  wp (confirmed (with_handshake self HsNone) sp packets out)
    (fun r s' => peer_step [] k j self s r.1 s') s.
Proof.
  intros Hs Hp Hnext Hid. unfold confirmed.
  wp_step. eapply wp_mono; [eapply (schedule_keepalive_ok [] k j);
    [done|by apply peer_ok_no_handshake]|].
  intros p s2 [[H1 H2 H3 H4 H5] (Hse & Hhs & Hids)]. simpl in H3, H4, H5, Hse, Hhs, Hids.
  rewrite Hse.
  pose proof (po_nodup _ _ _ Hp) as Hnd. pose proof (po_held _ _ _ Hp) as Hheld.
  unfold held, handshake_ids in Hnd, Hheld. rewrite Hid in Hnd, Hheld.
  wp_step. eapply wp_mono; [eapply (activate_ok k j s2 (id self)); eauto|].
  { apply Hp. } { intros i Hi. rewrite Hids. auto. }
  intros [pkts ss] s3 (Hs3 & Hf3 & _ & Hw3 & Hsub & Hm & _). simpl fst in *; simpl snd in *.
  assert (Hstep : peer_step [] k j self s (with_session p ss) s3).
  { split; try done. eapply activated_peer_ok; eauto. by rewrite H3.
    transitivity s2; eauto with ts. }
  by destruct pkts; wp_step.
Qed.

Lemma recv_transport_data_ok k j s self sid packets out :
  state_ok N k j s -> peer_ok [] s self -> Forall (addressed sid) packets ->
  wp (recv_transport_data self sid packets out) (fun r s' => peer_step [] k j self s r.1 s') s.
Proof.
  intros Hs Hp Ha. unfold recv_transport_data. wp_step.
  eapply wp_mono; [apply wp_on_env_any; intros e; apply get_recv_ok|].
  intros slot s1 [Hslot [e1 ->]]. destruct slot as [slot|].
  - wp_step. apply wp_lift.
    destruct (slot_decrypt_ok (session self) slot sid packets (po_session _ _ _ Hp) Ha)
      as (ps & ss & -> & Hw & Hids); [by destruct slot|].
    eexists. split; [done|].
    assert (Hp1 : peer_ok [] s (with_session self ss))
      by (apply peer_ok_with_session; [done..|by left]).
    destruct ps; [wp_step; split; eauto with ts|].
    wp_step. eapply wp_mono; [eapply (schedule_keepalive_ok [] k j); eauto with ts|].
    intros p s2 [[H1 H2 H3 H4 H5] _]. wp_step. split; eauto with ts.
  - wp_step. apply wp_lift.
    destruct (confirm_ok (handshake self) sid packets (po_handshake _ _ _ Hp) Ha)
      as (r & hs & -> & Hw & Hr).
    eexists. split; [done|]. destruct r as [[sp ps]|].
    2: { wp_step. split; eauto with ts. apply peer_ok_env.
         apply (peer_ok_sub [] s s self); try done; try apply Hp.
         - unfold held, handshake_ids. simpl. by destruct Hr as [-> |[-> _]].
         - unfold armed. simpl. destruct Hr as [-> |[_ [sp ->]]]; [apply Hp|done]. }
    destruct Hr as (-> & Hnext & Hid).
    eapply wp_mono; [eapply (confirmed_ok k j); eauto with ts|].
    intros [p out'] s2 [H1 H2 H3 H4 H5]. split; eauto with ts.
Qed.

(** ** Receiving *)

(** A packet that [Endpoint::recv] files under session [sid]. *)
Definition to_session (sid : Z) (pkt : bytes) : Prop :=
  forall m, message_mut_try_from pkt = Some m -> receiver_id m = Some sid.

Lemma parsed_transport pkt h :
  message_mut_try_from pkt = Some (MTransport h) -> transport_from_prefix pkt = Some h.
Proof.
  unfold message_mut_try_from. destruct (message_type pkt) as [[]|]; try done; intros E.
  - destruct (initiation_from_bytes pkt); naive_solver.
  - destruct (response_from_bytes pkt); naive_solver.
  - destruct (cookie_from_bytes pkt); naive_solver.
  - destruct (transport_from_prefix pkt); naive_solver.
Qed.

Lemma parsed_cookie pkt c :
  message_mut_try_from pkt = Some (MCookie c) -> length (cr_sealed c) = 32%nat.
Proof.
  unfold message_mut_try_from. destruct (message_type pkt) as [[]|] eqn:Et; try done; intros E.
  - destruct (initiation_from_bytes pkt); naive_solver.
  - destruct (response_from_bytes pkt); naive_solver.
  - destruct (cookie_from_bytes pkt) as [c'|] eqn:Ec; [|done]. injection E as ->.
    by destruct (cookie_from_bytes_inv _ _ Et Ec) as [(? & ? & ? & ? & ?) _].
  - destruct (transport_from_prefix pkt); naive_solver.
Qed.

Lemma recv_cookie_reply_ok k j s self c :
  state_ok N k j s -> peer_ok [] s self -> length (cr_sealed c) = 32%nat ->
  wp (recv_cookie_reply self c) (fun p s' => peer_step [] k j self s p s') s.
Proof.
  intros Hs Hp Hc. unfold recv_cookie_reply.
  destruct (handshake self) as [|sent h mac|] eqn:Eh; try (wp_step; by split).
  wp_step. eapply wp_mono; [apply (wp_on_env_any _ (fun _ => True)); intros e|].
  - unfold receive_cookie. destruct (xaead_open _ _ _ _) as [key|] eqn:Ex; [|done].
    apply xaead_open_length in Ex. rewrite decide_True by lia. wp_step. apply wp_now.
    intros i e'. wp_step. apply wp_lift. unfold instant_add, TimeRange.checked_add.
    replace (TimeRange.instant_ok (instant_now i + COOKIE_ROTATION_TIME)) with true; [by eexists|].
    pose proof (instant_range i). symmetry.
    unfold TimeRange.instant_ok, COOKIE_ROTATION_TIME, from_secs, SECOND.
    apply andb_true_iff. rewrite Z.leb_le, Z.ltb_lt. lia.
  - intros ms s1 [_ [e1 ->]]. wp_step. split; eauto with ts. destruct Hp. by split.
Qed.

Lemma peer_step_refl k j s self :
  state_ok N k j s -> peer_ok [] s self -> peer_step [] k j self s self s.
Proof. intros. by split. Qed.

Lemma peer_step_trans k j k' j' self s p1 s1 p2 s2 :
  peer_step [] k j self s p1 s1 -> peer_step [] k' j' p1 s1 p2 s2 ->
  peer_step [] k' j' self s p2 s2.
Proof.
  intros [] [G1 G2 G3 G4 G5]. split; try done; try congruence.
  rewrite ps_id0 in G5. by transitivity s1.
Qed.

Lemma recv_one_ok k j s self sid pkt out :
  state_ok N k j s -> peer_ok [] s self -> to_session sid pkt ->
  wp (recv_one self pkt out) (fun r s' => peer_step [] k j self s r.1.2 s' /\
    (r.1.1 = true -> addressed sid pkt)) s.
Proof.
  intros Hs Hp Hto. unfold recv_one.
  destruct (message_mut_try_from pkt) as [[init|resp|h|c]|] eqn:Em.
  - specialize (Hto _ Em). done.
  - wp_step. eapply wp_mono; [by apply (recv_handshake_response_ok k j)|].
    intros [p' out'] s' H. by wp_step.
  - wp_step. split; [by apply peer_step_refl|]. intros _ h' Hh'.
    specialize (Hto _ Em). apply parsed_transport in Em. simpl in Hto. congruence.
  - wp_step. eapply wp_mono; [apply (recv_cookie_reply_ok k j); eauto using parsed_cookie|].
    intros p' s' H. by wp_step.
  - wp_step. by split; [apply peer_step_refl|].
Qed.

Lemma recv_retain_ok k j s self sid packets out :
  state_ok N k j s -> peer_ok [] s self -> Forall (to_session sid) packets ->
  wp (recv_retain self packets out) (fun r s' => peer_step [] k j self s r.1.2 s' /\
    Forall (addressed sid) r.1.1) s.
Proof.
  intros Hs Hp Hto. revert s self out Hs Hp.
  induction Hto as [|pkt packets Hpkt _ IH]; intros s self out Hs Hp; cbn [recv_retain].
  { wp_step. by split; [apply peer_step_refl|]. }
  wp_step. eapply wp_mono; [by eapply (recv_one_ok k j)|].
  intros [[keep p1] out1] s1 [H1 Hk]. simpl in H1, Hk. wp_step.
  eapply wp_mono; [apply IH; apply H1|].
  intros [[kept p2] out2] s2 [H2 Hks]. simpl in H2, Hks. wp_step. simpl.
  split; [by eapply peer_step_trans|]. destruct keep; [constructor; auto|done].
Qed.

Lemma peer_recv_ok k j s self sid packets out :
  state_ok N k j s -> peer_ok [] s self -> Forall (to_session sid) packets ->
  wp (peer_recv self sid packets out) (fun r s' => peer_step [] k j self s r.1 s') s.
Proof.
  intros Hs Hp Hto. unfold peer_recv. wp_step.
  eapply wp_mono; [by eapply (recv_retain_ok k j)|].
  intros [[kept p1] out1] s1 [H1 Hk]. simpl in H1, Hk.
  eapply wp_mono; [eapply (recv_transport_data_ok k j); [apply H1..|done]|].
  intros [p2 out2] s2 H2. by eapply peer_step_trans.
Qed.

(** ** Handshake initiations *)

Lemma received_respond_ok rh sid psk ms t e :
  wp (received_respond rh sid psk ms t) (fun r _ => next_ok r.1 /\ r_id (p_recv r.1) = sid) e.
Proof.
  unfold received_respond, noise_finish. do 2 wp_step. unfold wp at 1, random_secret.
  apply wp_lift. unfold IKpsk2.finish_with_ephemeral. rewrite decide_True by done.
  destruct (Core.seal _ _) as [[c tag] s1]. eexists. split; [done|].
  wp_step. eapply wp_mono; [apply write_macs_ok|].
  { unfold response_bytes. simpl hr_mac1. simpl hr_mac2.
    rewrite !length_app, !PacketMut.length_zeroes. lia. }
  intros [mac pkt] e' _. wp_step. simpl. split; [|done]. split; [apply receive_new_ok|done].
Qed.

Lemma respond_to_handshake_ok k j s self hs out :
  state_ok N (S k) j s -> peer_ok [] s self ->
  wp (respond_to_handshake self hs out) (fun r s' => peer_step [] k j self s r.1 s') s.
Proof.
  intros Hs Hp. unfold respond_to_handshake.
  destruct (match last_seen_timestamp self with Some _ => _ | None => _ end).
  { wp_step. split; eauto with ts. done. }
  wp_step. eapply wp_mono; [by apply (allocate_session_ok k j)|].
  intros sid s1 [Ha Hs1]. pose proof (allocated_frame _ _ _ _ Ha) as Hf.
  destruct Ha as (Hv & Hr & e1 & ->).
  wp_step. apply wp_on_env, wp_now. intros it e2. wp_step.
  eapply wp_mono; [apply (wp_on_env_any _ (fun r => exists sp, r.2 = Responded sp /\
    next_ok sp /\ r_id (p_recv sp) = sid)); intros e|].
  { unfold respond. wp_step. eapply wp_mono; [apply received_respond_ok|].
    intros [sp pkt] e' [Hn Hi]. wp_step. by exists sp. }
  intros [pkt h] s2 [(sp & Hsp & Hn & Hi) [e3 ->]]. simpl in Hsp. subst h. wp_step.
  split; simpl; auto with ts.
  - destruct Hp as [P1 P2 P3 P4 P5]. unfold held in P1, P2. apply NoDup_app in P1 as (P1 & _).
    split; unfold held, handshake_ids; simpl; try done; rewrite Hi.
    + apply NoDup_app. split_and!; [done| |apply NoDup_singleton].
      intros i Hi' ->%list_elem_of_singleton. rewrite P2 in Hv by set_solver. done.
    + intros i [Hi'| ->%list_elem_of_singleton]%elem_of_app; [|by rewrite lookup_insert_eq].
      rewrite lookup_insert_ne; [apply P2; set_solver|]. intros ->.
      rewrite P2 in Hv by set_solver. done.
Qed.

(** ** Events *)

Lemma armed_other ev pend s p :
  armed (ev :: pend) s p -> ev <> HandshakeTimeout (id p) -> armed pend s p.
Proof.
  unfold armed. destruct (handshake p); try done. intros [?|?] Hne; [by left|right]. set_solver.
Qed.

Lemma peer_ok_other ev pend s p :
  peer_ok (ev :: pend) s p -> ev <> HandshakeTimeout (id p) -> peer_ok pend s p.
Proof. intros [] Hne. split; try done. by eapply armed_other. Qed.

Lemma remove_handshake_session_ok pend k j s self :
  state_ok N k j s -> peer_ok pend s self ->
  wp (on_ids (fun m => remove_handshake_session m (handshake self))) (fun _ s' =>
    state_ok N k j s' /\ frame (id self) s s' /\ scheduler s' = scheduler s /\
    forall pend', peer_ok pend' s' (with_handshake self HsNone)) s.
Proof.
  intros Hs Hp. unfold remove_handshake_session.
  destruct (session_id (handshake self)) as [i|] eqn:Ei.
  - assert (Hi : sessions (ids s) !! i = Some (id self)).
    { apply Hp. unfold held, handshake_ids. rewrite Ei. set_solver. }
    eapply wp_mono; [by apply (remove_session_ok k j s (id self) i)|].
    intros _ s' (-> & Hs' & Hf). split_and!; try done.
    intros pend'. destruct Hp as [P1 P2 P3 P4 P5]. unfold held, handshake_ids in P1, P2.
    rewrite Ei in P1, P2. apply NoDup_app in P1 as (P1 & P1' & _).
    split; unfold held; simpl; rewrite ?app_nil_r; try done.
    intros i' Hi'. rewrite lookup_delete_ne; [apply P2; set_solver|].
    intros ->. apply (P1' _ Hi'). set_solver.
  - unfold wp, on_ids. cbn [mbind outcome_bind].
    split_and!; try done; [destruct Hs; by split|].
    intros pend'. destruct Hp as [P1 P2 P3 P4 P5]. unfold held, handshake_ids in P1, P2.
    rewrite Ei in P1, P2. by split.
Qed.

Lemma handshake_timeout_ok pend k j s self out :
  state_ok N (S k) (S j) s -> peer_ok (HandshakeTimeout (id self) :: pend) s self ->
  wp (handshake_timeout self out)
    (fun r s' => peer_step pend k j self s r.1 s' /\ session r.1 = session self) s.
Proof.
  intros Hs Hp. unfold handshake_timeout. destruct (is_active (handshake self)) eqn:Ea; cbn [negb].
  - wp_step. eapply wp_mono; [by eapply (remove_handshake_session_ok _ (S k) (S j))|].
    intros _ s1 (Hs1 & Hf1 & _ & Hp1).
    eapply wp_mono; [apply (start_handshake_ok pend k j); [done|apply Hp1|done]|].
    intros [p' out'] s2 [[H1 H2 H3 H4 H5] [Hss _]]. split; [|done]. split; try done.
    by transitivity s1.
  - wp_step. split; [|done]. split; eauto with ts; try done. destruct Hp as [P1 P2 P3 P4 P5].
    split; try done. unfold armed. simpl. revert Ea. by destruct (handshake self).
Qed.

Lemma send_keepalive_ok pend k j n s self out :
  state_ok N k j s -> peer_ok pend s self -> nonce_room (S n) self ->
  wp (send_keepalive self out)
    (fun r s' => peer_step pend k j self s r.1 s' /\ nonce_room n r.1) s.
Proof.
  intros Hs Hp Hn. unfold send_keepalive. wp_step.
  eapply wp_mono; [apply (wp_on_env_any _ (fun r => session_wf r.2 /\
    session_ids r.2 = session_ids (session self) /\ session_room n r.2)); intros e|].
  - pose proof (po_session _ _ _ Hp) as Hw. unfold nonce_room in Hn. unfold encrypt_keepalive.
    destruct (session self) as [q|recv prev send]; [done|]. simpl in Hn, Hw. wp_step.
    apply wp_now. intros i e'.
    destruct (transmit_expired _ _); [wp_step; simpl; split; [done|split; [done|lia]]|].
    wp_step. apply wp_lift.
    rewrite encrypt_spec by (simpl; lia). eexists. split; [done|]. wp_step.
    simpl in *. destruct Hw as (? & ? & ?). split_and!; try done; lia.
  - intros [pkt ss] s1 [(Hw & Hids & Hr) [e1 ->]]. simpl in Hw, Hids, Hr.
    assert (Hp1 : peer_ok pend s (with_session self ss))
      by (apply peer_ok_with_session; [done..|by left]).
    destruct pkt as [pkt|]; [|wp_step; split; [split; eauto with ts|done]].
    cbn [send_another_keepalive with_session with_keepalive].
    assert (Hp2 : peer_ok pend s (with_keepalive (with_session self ss) None))
      by (destruct Hp1; by split).
    destruct (send_another_keepalive self); [|wp_step; split; [split; eauto with ts|done]].
    wp_step. eapply wp_mono; [eapply (schedule_keepalive_ok pend k j); eauto with ts|].
    intros p s2 [[H1 H2 H3 H4 H5] (Hss & _)]. wp_step. split.
    + split; eauto with ts. destruct H2. by split.
    + unfold nonce_room. simpl. by rewrite Hss.
Qed.

(** ** Shutdown *)

Lemma shutdown_ok pend k j s self :
  state_ok N k j s -> peer_ok pend s self ->
  wp (shutdown self) (fun p s' => state_ok N k j s' /\ frame (id self) s s' /\
    config p = config self) s.
Proof.
  intros Hs Hp. unfold shutdown. wp_step.
  eapply (wp_mono _ (fun ss s' => state_ok N k j s' /\ frame (id self) s s' /\
    peer_ok pend s' (with_session self ss))).
  - unfold deactivate, take_session. destruct (session self) as [q|recv prev send] eqn:Es.
    { wp_step. split_and!; try done. apply peer_ok_with_session; [done|simpl; lia|by right]. }
    pose proof Hp as [P1 P2 _ P4 P5]. unfold held in P1, P2. rewrite Es in P1, P2.
    wp_step. eapply wp_mono; [apply (remove_session_ok k j s (id self)); [done|apply P2; simpl; set_solver]|].
    intros _ s1 (-> & Hs1 & Hf1). simpl in P1, P2.
    destruct prev as [prev|]; simpl in P1, P2; rewrite !NoDup_cons in P1.
    + wp_step. eapply wp_mono; [apply (remove_session_ok k j _ (id self)); [done|]|].
      { simpl. rewrite lookup_delete_ne by set_solver. apply P2. set_solver. }
      intros _ s2 (-> & Hs2 & Hf2). wp_step. split_and!; [done|by etransitivity|].
      destruct P1 as (P1 & P1' & P1''). split; unfold held; simpl; try done; [|lia].
      intros i Hi. rewrite !lookup_delete_ne by set_solver. apply P2. set_solver.
    + do 2 wp_step. split_and!; [done..|].
      destruct P1 as (P1 & P1'). split; unfold held; simpl; try done; [|lia].
      intros i Hi. rewrite lookup_delete_ne by set_solver. apply P2. set_solver.
  - intros ss s1 (Hs1 & Hf1 & Hp1). wp_step.
    eapply wp_mono; [by apply (remove_handshake_session_ok pend k j s1 (with_session self ss))|].
    intros _ s2 (Hs2 & Hf2 & _). wp_step. split_and!; [done| |done]. by transitivity s1.
Qed.

End WgInv.

(** ** A concrete environment *)

(** Clocks that advance by a nanosecond per reading, identifiers drawn in sequence. *)
Definition test_world : World := {|
  instant_now n := Z.of_nat n mod 1000; system_now n := Z.of_nat n mod 1000;
  rand_u32 n := Z.of_nat n mod (U32 - 1) + 1; rand_secret n := le_bytes 32 (Z.of_nat n);
  debug_assertions := true; alloc_fuel := 64; hash_order := map_to_list |}.

Lemma test_world_fair (k : nat) (taken : gset Z) :
  (size taken <= 50)%nat ->
  exists i, (i < 64)%nat /\ Z.of_nat (k + i) mod (U32 - 1) + 1 ∉ taken.
Proof.
  intros Hs. set (draw i := Z.of_nat (k + i) mod (U32 - 1) + 1).
  destruct (decide (Exists (fun i => draw i ∉ taken) (seq 0 64))) as [He|Hne].
  { apply Exists_exists in He as (i & Hi & Hv). exists i. split; [|done].
    apply elem_of_seq in Hi. lia. }
  exfalso.
  assert (Hsub : list_to_set (draw <$> seq 0 64) ⊆ taken).
  { intros x Hx. apply elem_of_list_to_set, list_elem_of_fmap in Hx as (i & -> & Hi).
    destruct (decide (draw i ∈ taken)); [done|]. exfalso. apply Hne, Exists_exists. by exists i. }
  apply subseteq_size in Hsub. rewrite size_list_to_set in Hsub.
  - rewrite length_fmap, length_seq in Hsub. lia.
  - apply NoDup_fmap_2_strong; [|apply NoDup_seq]. intros i j Hi Hj.
    apply elem_of_seq in Hi, Hj. unfold draw, U32. intros E.
    dlia.
Qed.

Lemma test_world_laws : @WorldLaws test_world 50.
Proof.
  split; simpl.
  - intros i. pose proof (Z.mod_pos_bound (Z.of_nat i) 1000). lia.
  - intros i j. pose proof (Z.mod_pos_bound (Z.of_nat i) 1000).
    pose proof (Z.mod_pos_bound (Z.of_nat j) 1000).
    unfold duration_since, from_secs, SECOND. lia.
  - intros i. pose proof (Z.mod_pos_bound (Z.of_nat i) 1000).
    unfold TAI64N.sane_time, TAI64N.NANOS_PER_SEC. lia.
  - intros i. pose proof (Z.mod_pos_bound (Z.of_nat i) (U32 - 1) eq_refl). lia.
  - apply test_world_fair.
  - done.
Qed.

End WgInv.
