(* ===== verification/WgSafety.v ===== *)
(** * Safety of the WireGuard endpoint

    The endpoint as a state machine: its operations as steps, the states reachable
    from a new endpoint, and the invariant of all of them. *)

From S2P Require Import Prelude Replay Tai64n Scheduler Packet Crypto Noise NoiseIKpsk2.
From S2P Require Import WgMessages WgEnv WgMacs WgSession WgHandshake WgState WgPeer WgEndpoint.
From S2P Require Import WgInv.

Module WgSafety.
Import WgMessages WgMacs WgSession WgHandshake Results WgState WgPeer WgEndpoint WgInv.

(** ** Invariant of the endpoint *)

(** The endpoint with room for [k] sessions and [j] timestamps, the events [pend]
    still being dispatched, and all peers satisfying [P]. *)
Record ok `{C : Crypto} (N : nat) (pend : list Event) (k j : nat) (P : Peer -> Prop) (e : Endpoint) : Prop := {
  ok_state : state_ok N k j (state e);
  ok_cookie : my_cookie (state e) = receiver_new (public (my_key (state e)));
  ok_peer pid p : peers e !! pid = Some p -> id p = pid /\ peer_ok pend (state e) p /\ P p;
  ok_key pid p : peers e !! pid = Some p -> node_keys (ids (state e)) !! key (config p) = Some pid;
  ok_node ky pid : node_keys (ids (state e)) !! ky = Some pid ->
    exists p, peers e !! pid = Some p /\ key (config p) = ky }.

Lemma ok_weaken `{C : Crypto} N pend k j (P : Peer -> Prop) k' j' (P' : Peer -> Prop) e :
  ok N pend k j P e -> (k' <= k)%nat -> (j' <= j)%nat -> (forall p, P p -> P' p) ->
  ok N pend k' j' P' e.
Proof.
  intros [H1 Hco H2 H3 H4] Hk Hj HP. split; try done.
  - by eapply state_ok_mono.
  - intros pid p Hp. destruct (H2 pid p Hp) as (? & ? & ?). auto.
Qed.

(** ** Grouping received packets *)

Section Grouping.

Lemma group_foldl m packets sid :
  queued (foldl (fun m p => append_to m (group_key p) [p]) m packets) sid =
    queued m sid ++ filter (fun p => group_key p = sid) packets.
Proof.
  revert m. induction packets as [|p packets IH]; intros m; simpl; [by rewrite app_nil_r|].
  rewrite IH, queued_append, filter_cons.
  destruct (decide (sid = group_key p)) as [->|Hne].
  - rewrite decide_True by done. by rewrite <- app_assoc.
  - by rewrite decide_False by congruence.
Qed.

Lemma group_map_spec packets sid :
  queued (group_map packets) sid = filter (fun p => group_key p = sid) packets.
Proof. unfold group_map. by rewrite group_foldl. Qed.

Lemma group_map_to_session packets sid ps :
  group_map packets !! sid = Some ps -> sid <> 0 -> Forall (to_session sid) ps.
Proof.
  intros Hl Hne. pose proof (group_map_spec packets sid) as Hs. unfold queued in Hs.
  rewrite Hl in Hs. simpl in Hs. subst ps. apply Forall_forall. intros p Hp m Hm.
  apply list_elem_of_filter in Hp as [Hg _]. unfold group_key in Hg.
  change (message_try_from p) with (message_mut_try_from p) in Hg. rewrite Hm in Hg. simpl in Hg.
  destruct (receiver_id m); simpl in Hg; congruence.
Qed.

End Grouping.

(** ** The operations keep the invariant *)

Section Ops.
Context `{C : Crypto} `{W : World} `{L : !CryptoLaws} {N : nat} `{WL : !WorldLaws N}.

Lemma on_peer_ok {R} pend pend' k j k' j' (P P' : Peer -> Prop) pid f (out : R) e :
  ok N pend k j P e -> (k' <= k)%nat -> (j' <= j)%nat -> (forall p, P p -> P' p) ->
  (forall p, peers e !! pid = Some p -> peer_ok pend (state e) p -> id p = pid -> P p ->
     wp (f p out) (fun r s' => peer_step (N := N) pend' k' j' p (state e) r.1 s' /\ P' r.1) (state e)) ->
  (forall q s, id q <> pid -> peer_ok pend s q -> peer_ok pend' s q) ->
  wp (on_peer pid f out) (fun _ e' => ok N pend' k' j' P' e') e.
Proof.
  intros [Hs Hco Hp Hk Hn] Hk' Hj' HP Hf Ho. unfold on_peer, wp.
  destruct (peers e !! pid) as [p|] eqn:El.
  - destruct (Hp _ _ El) as (Hid & Hpo & HPp).
    specialize (Hf p eq_refl Hpo Hid HPp). apply wp_Done in Hf as ([p' out'] & s' & -> & Hst & HP').
    cbn [mbind outcome_bind]. simpl in Hst, HP'. destruct Hst as [S1 S2 S3 S4 S5].
    rewrite Hid in S5.
    split; cbn [state peers]; [done| | | |].
    + by rewrite (fr_my_cookie _ _ _ S5), (fr_my_key _ _ _ S5).
    + intros q p0 Hq. destruct (decide (q = pid)) as [->|Hne].
      * rewrite lookup_insert_eq in Hq. injection Hq as <-. rewrite S3. auto.
      * rewrite lookup_insert_ne in Hq by done. destruct (Hp _ _ Hq) as (<- & Hpo' & HPq).
        split_and!; [done| |auto]. eapply peer_ok_frame; [exact S5|done|]. by apply Ho.
    + intros q p0 Hq. rewrite (fr_keys _ _ _ S5). destruct (decide (q = pid)) as [->|Hne].
      * rewrite lookup_insert_eq in Hq. injection Hq as <-. rewrite S4. by apply Hk.
      * rewrite lookup_insert_ne in Hq by done. by apply Hk.
    + intros ky q Hq. rewrite (fr_keys _ _ _ S5) in Hq. destruct (Hn _ _ Hq) as (p0 & Hp0 & <-).
      destruct (decide (q = pid)) as [->|Hne].
      * exists p'. rewrite lookup_insert_eq. split; [done|]. congruence.
      * exists p0. by rewrite lookup_insert_ne.
  - split; try done; [by eapply state_ok_mono|].
    intros q p0 Hq. destruct (Hp _ _ Hq) as (<- & Hpo' & HPq). split_and!; [done| |auto].
    apply Ho; [|done]. congruence.
Qed.

Definition total {A} (l : list (Z * list A)) : nat := sum_list (map (fun x => length x.2) l).

Lemma send_loop_ok k j packets out e :
  ok N [] (length packets + k) (length packets + j) (nonce_room (total packets)) e ->
  wp (send_loop packets out) (fun _ e' => ok N [] k j (fun _ => True) e') e.
Proof.
  revert out e. induction packets as [|[pid ps] packets IH]; intros out e He; cbn [send_loop].
  { wp_step. by eapply ok_weaken. }
  wp_step. eapply wp_mono.
  - eapply (on_peer_ok [] [] _ _ (length packets + k) (length packets + j) _
              (nonce_room (total packets))); [exact He|simpl; lia..| | |done].
    + intros p Hn. eapply session_room_mono; [exact Hn|]. unfold total. simpl. lia.
    + intros p Hl Hp Hid Hn. eapply peer_send_ok; [apply He|done|].
      unfold nonce_room, total in *. simpl in Hn. by rewrite Nat.add_comm.
  - intros out' e' He'. by apply IH.
Qed.

Lemma handshakes_loop_ok k j packets out e :
  ok N [] (length packets + k) j (fun _ => True) e ->
  wp (handshakes_loop packets out) (fun _ e' => ok N [] k j (fun _ => True) e') e.
Proof.
  revert out e. induction packets as [|pkt packets IH]; intros out e He; cbn [handshakes_loop].
  { by wp_step. }
  assert (Hw : ok N [] (length packets + k) j (fun _ => True) e)
    by (eapply ok_weaken; eauto; simpl; lia).
  wp_step. apply (wp_mono _ (fun _ e' => ok N [] (length packets + k) j (fun _ => True) e'));
    [|intros; by apply IH].
  unfold process_one_handshake. unfold wp at 1.
  destruct (message_mut_try_from pkt) as [[]|]; try done.
  destruct (received_new _ _ _) as [hs|]; [|done].
  destruct (get_by_nodekey _ _) as [pid|]; [|done].
  eapply (on_peer_ok [] [] _ j (length packets + k) j); [exact He|simpl; lia..|done| |done].
  intros p Hl Hp Hid _. eapply wp_mono; [eapply respond_to_handshake_ok; [apply He|done]|].
  by intros.
Qed.

Lemma groups_loop_ok k j groups out e :
  ok N [] k j (fun _ => True) e ->
  Forall (fun g => Forall (to_session g.1) g.2) groups ->
  wp (groups_loop groups out) (fun _ e' => ok N [] k j (fun _ => True) e') e.
Proof.
  intros He Hg. revert out e He. induction Hg as [|[sid ps] groups Hps _ IH]; intros out e He;
    cbn [groups_loop]; [by wp_step|].
  do 3 wp_step. apply (wp_mono _ (fun _ e' => ok N [] k j (fun _ => True) e'));
    [|intros; by apply IH].
  destruct (get_by_session_id _ _) as [pid|]; [|by wp_step].
  eapply (on_peer_ok [] [] k j k j); [exact He|lia..|done| |done].
  intros p Hl Hp Hid _. eapply wp_mono; [eapply peer_recv_ok; [apply He|done..]|]. by intros.
Qed.

Lemma recv_ok k j packets e :
  ok N [] (length packets + k) j (fun _ => True) e ->
  wp (recv packets) (fun _ e' => ok N [] k j (fun _ => True) e') e.
Proof.
  intros He. unfold recv. wp_step. eapply wp_mono; [apply (handshakes_loop_ok k j)|].
  - eapply ok_weaken; [exact He| |lia|done]. rewrite group_map_spec.
    pose proof (length_filter (fun p => group_key p = 0) packets). lia.
  - intros out e' He'. apply groups_loop_ok; [done|]. rewrite hash_perm.
    apply Forall_forall. intros [sid ps] Hin. apply elem_of_map_to_list in Hin. simpl.
    apply lookup_delete_Some in Hin as [Hne Hl]. by eapply group_map_to_session.
Qed.

Lemma events_loop_ok k j n events out e :
  ok N events (length events + k) (length events + j) (nonce_room (length events + n)) e ->
  wp (events_loop events out) (fun _ e' => ok N [] k j (nonce_room n) e') e.
Proof.
  revert out e. induction events as [|ev events IH]; intros out e He; cbn [events_loop].
  { by wp_step. }
  assert (Hnm : forall p, nonce_room (S (length events + n)) p -> nonce_room (length events + n) p).
  { intros p Hn. eapply session_room_mono; [exact Hn|]. lia. }
  destruct ev as [pid|pid]; wp_step;
    apply (wp_mono _ (fun _ e' => ok N events (length events + k) (length events + j)
                        (nonce_room (length events + n)) e')); try (intros; by apply IH).
  - eapply (on_peer_ok (HandshakeTimeout pid :: events) events); [exact He|simpl; lia..|done| |].
    + intros p Hl Hp Hid Hn. eapply wp_mono.
      * apply (handshake_timeout_ok events (length events + k) (length events + j));
          [apply He|by rewrite Hid].
      * intros [p' out'] s' [Hst Hss]. split; [done|]. simpl in Hss. unfold nonce_room in *.
        simpl. rewrite Hss. by apply Hnm.
    + intros q s Hne Hq. eapply peer_ok_other; [done|]. congruence.
  - eapply (on_peer_ok (MaybeSendKeepalive pid :: events) events); [exact He|simpl; lia..|done| |].
    + intros p Hl Hp Hid Hn. apply send_keepalive_ok; [|by eapply peer_ok_other|done].
      eapply state_ok_mono; [apply He|simpl; lia..].
    + intros q s Hne Hq. by eapply peer_ok_other.
Qed.

(** Events that were due are pending; the others stay scheduled. *)
Lemma dispatch_armed (q : Scheduler.t (E := Event)) t e :
  e ∈ Scheduler.events q ->
  Scheduler.what e ∈ (Scheduler.dispatch q t).1 \/ e ∈ Scheduler.events (Scheduler.dispatch q t).2.
Proof.
  intros He. simpl. set (i := Scheduler.partition_point _ _).
  rewrite <- (take_drop i (Scheduler.events q)) in He. apply elem_of_app in He as [He|He].
  - by right.
  - left. apply list_elem_of_fmap. exists e. split; [done|].
    apply list_elem_of_In. rewrite <- in_rev. by apply list_elem_of_In.
Qed.

Definition due (t : Z) (e : Endpoint) : nat :=
  length (Scheduler.dispatch (scheduler (state e)) t).1.

Lemma dispatch_events_ok k j n t e :
  ok N [] (due t e + k) (due t e + j) (nonce_room (due t e + n)) e ->
  wp (dispatch_events t) (fun _ e' => ok N [] k j (nonce_room n) e') e.
Proof.
  intros He. unfold dispatch_events, due in *. unfold wp.
  pose proof (dispatch_armed (scheduler (state e)) t) as Ha.
  pose proof (Scheduler.dispatch_inv (scheduler (state e)) t
                (so_scheduler _ _ _ _ (ok_state _ _ _ _ _ _ He))) as Hi.
  destruct (Scheduler.dispatch _ _) as [events q]; simpl fst in *; simpl snd in *.
  apply (events_loop_ok k j n). destruct He as [[S1 S2 S3 S4] Hco H2 H3 H4]. split; try done.
  intros pid p Hp. destruct (H2 _ _ Hp) as (Hid & [P1 P2 P3 P4 P5] & Hn). split_and!; try done.
  split; try done. unfold armed in *. destruct (handshake p); try done.
  destruct P5 as [(ev & Hev & Hid' & Hw)|P5]; [|set_solver].
  destruct (Ha ev Hev) as [Hd|Hd]; [right; by rewrite <- Hw|left]. by exists ev.
Qed.

(** The new key is not in use by another peer. *)
Definition no_collision (pid : Z) (cfg : PeerConfig) (e : Endpoint) : Prop :=
  forall q, node_keys (ids (state e)) !! key cfg = Some q -> q = pid.

(** Storing a peer under an identifier, with the key map updated accordingly. *)
Lemma stored_ok k j pid p i base e :
  ok N [] k j (fun _ => True) e -> no_collision pid (config p) e ->
  sessions i = sessions (ids (state e)) -> node_keys i = <[key (config p) := pid]> base ->
  (forall ky q, base !! ky = Some q <-> node_keys (ids (state e)) !! ky = Some q /\ q <> pid) ->
  id p = pid -> peer_ok [] (state e) p ->
  ok N [] k j (fun _ => True) (mkEndpoint (with_ids (state e) i) (<[pid := p]> (peers e))).
Proof.
  intros [[S1 S2 S3 S4] Hco Hp Hk Hn] Hc Hse Hnk Hb Hid Hpo.
  assert (Hmove : forall q, peer_ok [] (state e) q -> peer_ok [] (with_ids (state e) i) q).
  { intros q []. split; try done. simpl. by rewrite Hse. }
  split; cbn [state peers].
  - split; try done. simpl. by rewrite Hse.
  - done.
  - intros q p0 Hq. apply lookup_insert_Some in Hq as [[<- <-]|[Hne Hq]]; [by auto|].
    destruct (Hp _ _ Hq) as (? & ? & _). auto.
  - intros q p0 Hq. simpl. rewrite Hnk.
    apply lookup_insert_Some in Hq as [[<- <-]|[Hne Hq]]; [by rewrite lookup_insert_eq|].
    pose proof (Hk _ _ Hq) as Hkq.
    rewrite lookup_insert_ne by (intros E; rewrite <- E in Hkq; apply Hc in Hkq; congruence).
    by apply Hb.
  - intros ky q Hq. simpl in Hq. rewrite Hnk in Hq.
    apply lookup_insert_Some in Hq as [[<- <-]|[Hne Hq]].
    + rewrite lookup_insert_eq. by eexists.
    + apply Hb in Hq as [Hq Hne']. destruct (Hn _ _ Hq) as (p0 & Hp0 & Hk0). exists p0.
      by rewrite lookup_insert_ne.
Qed.

Lemma upsert_peer_ok k j pid cfg e :
  ok N [] k j (fun _ => True) e -> no_collision pid cfg e ->
  wp (upsert_peer pid cfg) (fun _ e' => ok N [] k j (fun _ => True) e') e.
Proof.
  intros He Hc. pose proof He as [_ _ Hp Hk Hn]. unfold upsert_peer, wp.
  destruct (peers e !! pid) as [p|] eqn:El.
  - destruct (Hp _ _ El) as (Hid & Hpo & _).
    assert (Hstep : exists i, (if decide (key (config p) = key cfg) then Done (ids (state e))
      else i ← idmap_remove_peer (ids (state e)) (key (config p));
           Done (add_peer i pid (key cfg)).2) = Done i /\ sessions i = sessions (ids (state e)) /\
      node_keys i = <[key cfg := pid]> (delete (key (config p)) (node_keys (ids (state e))))).
    { case_decide as Hd.
      - eexists. split_and!; [done..|]. rewrite <- Hd. rewrite insert_delete_eq.
        symmetry. by apply insert_id, Hk.
      - unfold idmap_remove_peer. rewrite (Hk _ _ El). cbn [mbind outcome_bind]. unfold add_peer.
        simpl. rewrite lookup_delete_ne by done.
        destruct (node_keys (ids (state e)) !! key cfg) as [q|] eqn:Eq; [|by eexists].
        pose proof (Hc _ Eq) as ->. destruct (Hn _ _ Eq) as (p0 & Hp0 & Hk0). congruence. }
    destruct Hstep as (i & -> & Hse & Hnk). cbn [mbind outcome_bind].
    eapply stored_ok; try done; [|destruct Hpo; by split].
    intros ky q. rewrite lookup_delete_Some. split; [|].
    + intros [Hne Hq]. split; [done|]. intros ->. destruct (Hn _ _ Hq) as (? & ? & ?). congruence.
    + intros [Hq Hne]. split; [|done]. intros <-. rewrite (Hk _ _ El) in Hq. congruence.
  - unfold add_peer. destruct (node_keys (ids (state e)) !! key cfg) as [q|] eqn:Eq.
    { pose proof (Hc _ Eq) as ->. destruct (Hn _ _ Eq) as (p0 & Hp0 & _). congruence. }
    eapply stored_ok; try done.
    + intros ky q. split; [|tauto]. intros Hq. split; [done|]. intros ->.
      destruct (Hn _ _ Hq) as (? & ? & _). congruence.
    + split; try done; simpl; [constructor|set_solver|lia].
Qed.

Lemma remove_peer_ok k j pid e :
  ok N [] k j (fun _ => True) e ->
  wp (remove_peer pid) (fun _ e' => ok N [] k j (fun _ => True) e') e.
Proof.
  intros He. unfold remove_peer, wp. destruct (peers e !! pid) as [p|] eqn:El; [|done].
  pose proof He as [Hs Hco Hp Hk Hn]. destruct (Hp _ _ El) as (Hid & Hpo & _).
  pose proof (shutdown_ok _ k j _ _ Hs Hpo) as Hsh.
  apply wp_Done in Hsh as (p' & s' & -> & [S1 S2 S3 S4] & Hf & Hc). cbn [mbind outcome_bind].
  rewrite Hid in Hf. unfold idmap_remove_peer. rewrite (fr_keys _ _ _ Hf), Hc, (Hk _ _ El).
  cbn [mbind outcome_bind]. split; cbn [state peers].
  - by split.
  - simpl. by rewrite (fr_my_cookie _ _ _ Hf), (fr_my_key _ _ _ Hf).
  - intros q p0 [Hne Hq]%lookup_delete_Some. destruct (Hp _ _ Hq) as (Hq' & Hpq & _).
    split_and!; [done| |done].
    apply (peer_ok_frame _ pid (state e) s') in Hpq; [|done|congruence]. destruct Hpq. by split.
  - intros q p0 [Hne Hq]%lookup_delete_Some. simpl. pose proof (Hk _ _ Hq). pose proof (Hk _ _ El).
    rewrite lookup_delete_ne; [done|]. congruence.
  - intros ky q Hq. simpl in Hq. apply lookup_delete_Some in Hq as [Hne Hq].
    destruct (Hn _ _ Hq) as (p0 & Hp0 & <-). exists p0. split; [|done].
    rewrite lookup_delete_ne; [done|]. congruence.
Qed.

End Ops.

(** ** The state machine *)

Inductive op :=
| OpUpsert (pid : Z) (cfg : PeerConfig)
| OpRemove (pid : Z)
| OpSend (packets : list (Z * list bytes))
| OpRecv (packets : list bytes)
| OpDispatch (now : Z).

(** One call into the endpoint, in its own environment. *)
Definition step `{C : Crypto} (W : World) (o : op) (e : Endpoint) : outcome Endpoint :=
  let e := fresh_env e in
  match o with
  | OpUpsert pid cfg => '(_, e) ← upsert_peer pid cfg e; Done e
  | OpRemove pid => '(_, e) ← remove_peer pid e; Done e
  | OpSend packets => '(_, e) ← send packets e; Done e
  | OpRecv packets => '(_, e) ← recv packets e; Done e
  | OpDispatch now => '(_, e) ← dispatch_events now e; Done e
  end.

(** Room for [k] more session identifiers (at most [N] are in use at a time), as many
    timestamps, and [n] more packets per session. *)
Definition room (N k n : nat) (e : Endpoint) : Prop :=
  (size (sessions (ids (state e))) + k <= N)%nat /\
  Z.max (TAI64N.TAI_BASE + 2 ^ 62) (TAI64N.secs (TAI64N.Clock.last (timestamps (state e))))
    + Z.of_nat k < U64 /\
  forall pid p, peers e !! pid = Some p -> nonce_room n p.

(** What a caller has to respect: keys are not shared between peers, and identifiers,
    timestamps and nonces do not run out. *)
Definition op_pre (N : nat) (o : op) (e : Endpoint) : Prop :=
  match o with
  | OpUpsert pid cfg => no_collision pid cfg e
  | OpRemove _ => True
  | OpSend packets => room N (length packets) (total packets) e
  | OpRecv packets => room N (length packets) 0 e
  | OpDispatch now => room N (due now e) (due now e) e
  end.

Inductive reachable `{C : Crypto} (N : nat) : Endpoint -> Prop :=
| reachable_new my_key : reachable N (endpoint_new my_key)
| reachable_step (W : World) o e e' :
    reachable N e -> WorldLaws N -> op_pre N o e -> step W o e = Done e' -> reachable N e'.

Definition inv `{C : Crypto} (N : nat) (e : Endpoint) : Prop := ok N [] 0 0 (fun _ => True) e.

Lemma ok_fresh_env `{C : Crypto} N pend k j P e : ok N pend k j P e -> ok N pend k j P (fresh_env e).
Proof.
  intros [[S1 S2 S3 S4] Hco H2 H3 H4]. split; try done. intros pid p Hp.
  destruct (H2 _ _ Hp) as (? & [] & ?). split_and!; try done.
Qed.

Lemma inv_room `{C : Crypto} N k n e : inv N e -> room N k n e -> ok N [] k k (nonce_room n) (fresh_env e).
Proof.
  intros [[S1 S2 S3 S4] Hco H2 H3 H4] (R1 & R2 & R3). apply ok_fresh_env. split; try done.
  intros pid p Hp. destruct (H2 _ _ Hp) as (? & ? & _). eauto.
Qed.

Lemma inv_new `{C : Crypto} N my_key : inv N (endpoint_new my_key).
Proof.
  split; simpl; try done.
  split; simpl; try done; [apply Scheduler.default_inv|]. rewrite map_size_empty. lia.
Qed.

Section Machine.
Context `{C : Crypto} `{L : !CryptoLaws} {N : nat}.

Lemma wp_step_inv (W : World) {A} (m : ST Endpoint A) k j P e :
  wp m (fun _ e' => ok N [] k j P e') e ->
  exists e', ('(_, e) ← m e; Done e) = Done e' /\ inv N e'.
Proof.
  intros H. apply wp_Done in H as (a & e' & -> & H). exists e'. split; [done|].
  eapply ok_weaken; [exact H|lia..|done].
Qed.

Lemma endpoint_step_inv (W : World) (WL : WorldLaws N) o e :
  inv N e -> op_pre N o e -> exists e', step W o e = Done e' /\ inv N e'.
Proof.
  intros He Hpre.
  destruct o as [pid cfg|pid|packets|packets|t]; simpl in Hpre; eapply (wp_step_inv W).
  - apply upsert_peer_ok; [by apply ok_fresh_env|exact Hpre].
  - by apply remove_peer_ok, ok_fresh_env.
  - apply (send_loop_ok 0 0). rewrite Nat.add_0_r. by apply inv_room.
  - apply (recv_ok 0 0). rewrite Nat.add_0_r. eapply ok_weaken; [by apply inv_room|lia..|done].
  - apply (dispatch_events_ok 0 0 0). rewrite Nat.add_0_r. by apply inv_room.
Qed.

Lemma reachable_inv e : reachable N e -> inv N e.
Proof.
  induction 1 as [my_key|W o e e' _ IH WL Hpre Hst]; [apply inv_new|].
  destruct (endpoint_step_inv W WL o e IH Hpre) as (e2 & E & Hinv). congruence.
Qed.

End Machine.

(** ** Properties *)

(** C3: the WireGuard endpoint never panics.  In every state that is reachable from a
    new endpoint by any sequence of upserts, removals, sends, receptions and
    event dispatches, every further operation returns, whatever bytes are
    received, as long as keys are not shared between peers and identifiers,
    timestamps and nonces do not run out. *)
Theorem endpoint_never_panics `{C : Crypto} `{L : !CryptoLaws} (N : nat) (W : World) (o : op)
    (e : Endpoint) :
  WorldLaws N -> reachable N e -> op_pre N o e ->
  exists e', step W o e = Done e' /\ reachable N e'.
Proof.
  intros WL He Hpre. destruct (endpoint_step_inv W WL o e (reachable_inv e He) Hpre) as (e' & E & _).
  exists e'. split; [done|]. by eapply reachable_step.
Qed.

#[local] Existing Instance Toy.toy.
#[local] Existing Instance Toy.toy_laws.

Definition witness_key (n : Z) : X25519KeyPair := keypair_of [byte_of_Z n].

(** An endpoint with one peer. *)
Definition witness_endpoint : Endpoint :=
  match step test_world (OpUpsert 7 (mkConfig (public (witness_key 2)) (zeroes 32)))
          (endpoint_new (witness_key 1)) with
  | Done e => e
  | Panic => endpoint_new (witness_key 1)
  end.

Lemma witness_reachable : reachable 50 witness_endpoint.
Proof.
  eapply (reachable_step 50 test_world (OpUpsert 7 (mkConfig (public (witness_key 2)) (zeroes 32)))
            (endpoint_new (witness_key 1))); [apply reachable_new|apply test_world_laws|done|].
  reflexivity.
Qed.

Lemma witness_room : room 50 1 1 witness_endpoint.
Proof.
  split; [vm_compute; lia|]. split; [by vm_compute|]. intros pid p Hp.
  assert (E : peers witness_endpoint =
            <[7 := peer_new 7 (mkConfig (public (witness_key 2)) (zeroes 32))]> ∅) by reflexivity.
  rewrite E in Hp. apply lookup_insert_Some in Hp as [[_ <-]|[_ Hp]]; [exact I|].
  rewrite lookup_empty in Hp. discriminate Hp.
Qed.

Lemma endpoint_never_panics_witness :
  exists e', step test_world (OpSend [(7, [[x01; x02]])]) witness_endpoint = Done e' /\
    reachable 50 e'.
Proof.
  apply (endpoint_never_panics 50 test_world).
  - apply test_world_laws.
  - apply witness_reachable.
  - apply witness_room.
Defined.




(** The endpoint of [witness_endpoint] after a packet was sent to its peer. *)
Definition witness_sent : Endpoint :=
  match step test_world (OpSend [(7, [[x01; x02]])]) witness_endpoint with
  | Done e => e
  | Panic => witness_endpoint
  end.

Lemma witness_sent_reachable : reachable 50 witness_sent.
Proof.
  eapply (reachable_step 50 test_world (OpSend [(7, [[x01; x02]])]) witness_endpoint);
    [apply witness_reachable|apply test_world_laws|apply witness_room|vm_compute; reflexivity].
Qed.


(** The two lookups of the endpoint are inverse to each other in every reachable
    state: [peer_key] gives key [k] for a peer exactly when [peer_id] gives that
    peer for [k]. *)
Theorem peer_lookups_inverse `{C : Crypto} `{L : !CryptoLaws} (N : nat) (e : Endpoint) (pid : Z)
    (k : bytes) :
  reachable N e -> peer_key e pid = Some k <-> peer_id e k = Some pid.
Proof.
  intros He. destruct (reachable_inv e He) as [_ _ _ Hk Hn]. unfold peer_key, peer_id, get_by_nodekey.
  split.
  - intros H. destruct (peers e !! pid) as [p|] eqn:El; [|done]. injection H as <-. by apply Hk.
  - intros H. destruct (Hn _ _ H) as (p & -> & <-). done.
Qed.

Lemma peer_lookups_inverse_witness :
  peer_key witness_endpoint 7 = Some (public (witness_key 2)) <->
  peer_id witness_endpoint (public (witness_key 2)) = Some 7.
Proof. apply (peer_lookups_inverse 50), witness_reachable. Defined.

End WgSafety.
