(* ===== verification/WgDelivery.v ===== *)
(** * End-to-end delivery through the WireGuard endpoint

    Two endpoints that know each other's keys: the handshake between them completes
    and the packets queued meanwhile are delivered. *)

From S2P Require Import Prelude Replay Tai64n Scheduler Packet Crypto Noise NoiseIKpsk2.
From S2P Require Import WgMessages WgEnv WgMacs WgSession WgHandshake WgState WgPeer WgEndpoint.
From S2P Require Import WgInv WgSafety.

Module WgDelivery.
Import WgMessages WgMacs WgSession WgHandshake Results WgState WgPeer WgEndpoint WgInv WgSafety.

Section Messages.
Context `{C : Crypto} `{W : World} `{L : !CryptoLaws}.

(** ** The two handshake messages *)

(** [pkt] is an initiation from the owner of [isec] to the owner of [rsec]: the
    receiver learns the sender's session [sid] and key and the timestamp. *)
Definition initiation_for (pkt : bytes) (sid : Z) (sent : IKpsk2.SentHandshake)
    (isec rsec : bytes) (ts : TAI64N.t) : Prop :=
  exists init, message_mut_try_from pkt = Some (MInitiation init) /\
    received_new init (keypair_of rsec) (receiver_new (x25519_base rsec)) =
      Some (mkReceivedHandshake sid
        (IKpsk2.mkReceived (IKpsk2.s_state sent) (x25519_base (IKpsk2.my_ephemeral sent))
           (x25519_base isec)) ts).

(** [pkt] answers the handshake [sent] of session [sid]: its owner accepts it and gets
    [keys]. *)
Definition response_for (pkt : bytes) (sid sid' : Z) (sent : IKpsk2.SentHandshake)
    (isec psk : bytes) (keys : Core.Session) : Prop :=
  exists resp, message_mut_try_from pkt = Some (MResponse resp) /\
    hr_receiver_id resp = sid /\ hr_sender_id resp = sid' /\
    verify_macs (receiver_new (x25519_base isec)) (response_bytes resp) = true /\
    IKpsk2.try_finish sent (hr_noise resp) (keypair_of isec) psk = inl keys.

(** Writing the MACs of a message whose last 32 bytes are reserved for them. *)
Lemma write_macs_reserved key data e :
  let mac1 := blake2s_mac (mac1_key key) data in
  write_macs (sender_new key) (data ++ zeroes 16 ++ zeroes 16) e =
    Done ((mac1, data ++ mac1 ++ zeroes 16), e).
Proof.
  intros mac1.
  assert (Hl : length (data ++ zeroes 16 ++ zeroes 16) = (length data + 32)%nat)
    by (rewrite !length_app, !PacketMut.length_zeroes; lia).
  rewrite write_macs_None by (done || lia). rewrite Hl.
  replace (length data + 32 - 32)%nat with (length data) by lia. by rewrite take_app_length.
Qed.

Lemma verify_reserved key data :
  verify_macs (receiver_new key) (data ++ blake2s_mac (mac1_key key) data ++ zeroes 16) = true.
Proof.
  etransitivity; [apply (verify_of_macs (receiver_new key) data (zeroes 16)); done|].
  by apply bool_decide_eq_true_2.
Qed.

Lemma initiate_spec isec rsec sid ts e :
  0 <= sid < U32 -> TAI64N.valid ts ->
  exists sent init m1 pkt e', 
    initiate_handshake (keypair_of isec) (x25519_base rsec) sid ts e =
      Done ((mkSentHandshake sid sent, init), e') /\
    (forall e0, write_macs (sender_new (x25519_base rsec)) (initiation_bytes init) e0 =
      Done ((m1, pkt), e0)) /\
    initiation_for pkt sid sent isec rsec ts.
Proof.
  intros Hsid Hts. unfold initiate_handshake, noise_sent_new.
  destruct (IKpsk2.received_new_of_sent TIMESTAMP_SIZE isec (rand_secret (e_secret e)) rsec
              PROLOGUE (TAI64N.to_bytes ts) (hi_noise initiation_default))
    as (sent & noise & E1 & Hlen & Hme & E2).
  { done. }
  { unfold TAI64N.to_bytes. by rewrite length_app, !be_bytes_length. }
  set (data := [type_byte HandshakeInitiationType] ++ zeroes 3 ++ session_id_bytes sid ++ noise).
  set (m1 := blake2s_mac (mac1_key (x25519_base rsec)) data).
  set (init := mkInitiation HandshakeInitiationType (zeroes 3) sid noise m1 (zeroes 16)).
  assert (Hb : initiation_bytes init = data ++ m1 ++ zeroes 16)
    by (unfold initiation_bytes, init, data;
        cbn [hi_type hi_reserved hi_sender_id hi_noise hi_mac1 hi_mac2]; by rewrite <- !app_assoc).
  exists sent, (mkInitiation HandshakeInitiationType (zeroes 3) sid noise (zeroes 16) (zeroes 16)),
    m1, (data ++ m1 ++ zeroes 16). eexists. split_and!.
  - unfold mbind, ST_bind, random_secret, st_lift. cbn [fst snd].
    change (public (keypair_of rsec)) with (x25519_base rsec) in E1. by rewrite E1.
  - intros e0. etransitivity; [|apply (write_macs_reserved (x25519_base rsec) data e0)]. f_equal.
  - exists init. split.
    + rewrite <- Hb. unfold message_mut_try_from, initiation_bytes at 1. simpl.
      rewrite initiation_roundtrip; [done|]. simpl. unfold m1.
      split_and!; try done; try lia; apply blake2s_mac_length.
    + unfold received_new. rewrite Hb.
      unfold m1. rewrite verify_reserved. cbn [negb hi_noise init]. rewrite E2.
      cbn [mbind option_bind]. rewrite TAI64N.of_to_bytes by done. by rewrite Hme.
Qed.

Lemma respond_spec sent sid sid' isec psk ts t e :
  0 <= sid < U32 -> 0 <= sid' < U32 ->
  exists keys pkt e',
    received_respond (mkReceivedHandshake sid
        (IKpsk2.mkReceived (IKpsk2.s_state sent) (x25519_base (IKpsk2.my_ephemeral sent))
           (x25519_base isec)) ts) sid' psk (sender_new (x25519_base isec)) t e =
      Done ((mkPair (transmit_new (Core.recv keys) sid t) (receive_new (Core.send keys) sid' t),
             pkt), e') /\
    response_for pkt sid sid' sent isec psk keys.
Proof.
  intros Hsid Hsid'. unfold received_respond, noise_finish. cbn [rh_noise send_id].
  destruct (IKpsk2.try_finish_of_finish (IKpsk2.s_state sent) isec (IKpsk2.my_ephemeral sent)
              (rand_secret (e_secret e)) psk (hr_noise response_default) eq_refl)
    as (sess_r & sess_i & noise & E1 & Hlen & E2 & Hk1 & Hk2).
  set (data := [type_byte HandshakeResponseType] ++ zeroes 3 ++ session_id_bytes sid'
                 ++ session_id_bytes sid ++ noise).
  set (m1 := blake2s_mac (mac1_key (x25519_base isec)) data).
  set (resp := mkResponse HandshakeResponseType (zeroes 3) sid' sid noise m1 (zeroes 16)).
  assert (Hb : response_bytes resp = data ++ m1 ++ zeroes 16)
    by (unfold response_bytes, resp, data;
        cbn [hr_type hr_reserved hr_sender_id hr_receiver_id hr_noise hr_mac1 hr_mac2];
        by rewrite <- !app_assoc).
  exists sess_i, (data ++ m1 ++ zeroes 16). eexists. split.
  - unfold mbind, ST_bind, random_secret, st_lift. cbn [fst snd].
    cbn [public keypair_of] in E1. rewrite E1.
    replace (response_bytes _) with (data ++ zeroes 16 ++ zeroes 16)
      by (unfold response_bytes, data, response_default;
          cbn [hr_type hr_reserved hr_sender_id hr_receiver_id hr_noise hr_mac1 hr_mac2];
          by rewrite <- !app_assoc).
    rewrite write_macs_reserved. by rewrite Hk1, Hk2.
  - exists resp. split_and!; try done.
    + rewrite <- Hb. unfold message_mut_try_from, response_bytes at 1. simpl.
      rewrite response_roundtrip; [done|]. simpl. unfold m1.
      split_and!; try done; try lia; apply blake2s_mac_length.
    + rewrite Hb. apply verify_reserved.
    + simpl. destruct sent. exact E2.
Qed.

End Messages.

Section Phases.
Context `{C : Crypto} `{W : World} `{L : !CryptoLaws} {N : nat} `{WL : !WorldLaws N}.

(** An identifier drawn at random. *)
Definition drawn (sid : Z) : Prop := exists n, sid = rand_u32 n.

Lemma drawn_range sid : drawn sid -> 0 <= sid < U32.
Proof. intros [n ->]. apply rand_range. Qed.

Lemma wp_on_env_eq {A} (m : ST Env A) Q s a e :
  m (env s) = Done (a, e) -> Q a (with_env s e) -> wp (on_env m) Q s.
Proof. intros E HQ. unfold wp, on_env. by rewrite E. Qed.

(** ** First flight: the initiator queues the packets and starts a handshake *)
Lemma idle_send s p q ps isec rsec :
  state_ok N 1 1 s -> my_key s = keypair_of isec ->
  session p = SsNone q -> (length q <= MAX_QUEUED_PER_PEER)%nat -> handshake p = HsNone ->
  key (config p) = x25519_base rsec -> cookie_sender p = sender_new (x25519_base rsec) ->
  wp (peer_send p ps send_default) (fun r s' => exists sid sent h mac pkt ts,
    drawn sid /\ sessions (ids s') !! sid = Some (id p) /\
    session r.1 = SsNone (newest (q ++ ps)) /\
    handshake r.1 = Initiated (mkSentHandshake sid sent) h mac /\
    config r.1 = config p /\ id r.1 = id p /\ cookie_sender r.1 = cookie_sender p /\
    my_key s' = my_key s /\ my_cookie s' = my_cookie s /\
    to_peer r.2 (id p) = [pkt] /\ initiation_for pkt sid sent isec rsec ts) s.
Proof.
  intros Hs Hk Hss Hq Hh Hkey Hck. unfold peer_send. rewrite Hss. wp_step.
  eapply wp_on_env_eq; [done|].
  cbn [handshake with_session session]. rewrite Hh. cbn [is_active]. wp_step.
  eapply wp_on_env_eq; [done|]. cbn [negb]. unfold start_handshake.
  cbn [id config cookie_sender with_session]. rewrite Hck, Hkey. wp_step.
  eapply wp_mono; [apply (allocate_session_ok 0 1); destruct Hs; by split|].
  intros sid s1 [(Hv & Hr & e1 & ->) Hs1]. wp_step.
  eapply wp_mono; [by apply timestamps_now_ok|].
  intros ts s2 (Hts & Hs2 & c & e2 & ->). do 3 wp_step. cbn [my_key with_timestamps with_env with_ids].
  rewrite Hk.
  destruct (initiate_spec isec rsec sid ts e2 (drawn_range _ Hr) Hts)
    as (sent & init & m1 & pkt & e3 & E1 & E2 & Hfor).
  eapply wp_on_env_eq; [exact E1|]. wp_step. eapply wp_on_env_eq; [apply E2|]. wp_step.
  eapply wp_mono; [apply range_after_ok; by vm_compute|].
  intros tr s5 [Htr [e5 ->]]. wp_step. unfold wp at 1, on_scheduler.
  destruct (Scheduler.add _ _ _) as [h q']. wp_step.
  exists sid, sent, h, m1, pkt, ts. split_and!; try done.
  - simpl. by rewrite lookup_insert_eq.
  - simpl. by rewrite queue_append_newest.
  - cbn [snd]. rewrite to_peer_queue, decide_True by done. done.
Qed.

(** ** Second flight: the responder answers *)
Lemma idle_respond s p sent sid isec ts :
  state_ok N 1 0 s -> 0 <= sid < U32 ->
  cookie_sender p = sender_new (x25519_base isec) -> last_seen_timestamp p = None ->
  wp (respond_to_handshake p (mkReceivedHandshake sid
       (IKpsk2.mkReceived (IKpsk2.s_state sent) (x25519_base (IKpsk2.my_ephemeral sent))
          (x25519_base isec)) ts) recv_default) (fun r s' => exists sid' keys t pkt,
    drawn sid' /\ sessions (ids s') !! sid' = Some (id p) /\
    session r.1 = session p /\ id r.1 = id p /\ config r.1 = config p /\
    handshake r.1 = Responded (mkPair (transmit_new (Core.recv keys) sid t)
                                 (receive_new (Core.send keys) sid' t)) /\
    to_peer r.2 (id p) = [pkt] /\ response_for pkt sid sid' sent isec (psk (config p)) keys) s.
Proof.
  intros Hs Hsid Hck Hls. unfold respond_to_handshake. rewrite Hls. wp_step.
  eapply wp_mono; [by apply (allocate_session_ok 0 0)|].
  intros sid' s1 [(Hv & Hr & e1 & ->) Hs1].
  wp_step. eapply wp_on_env_eq; [done|]. wp_step.
  cbn [config cookie_sender handshake with_last_seen]. rewrite Hck.
  destruct (respond_spec sent sid sid' isec (psk (config p)) ts (instant_now (e_instant e1))
              (mkEnv (S (e_instant e1)) (e_system e1) (e_rand e1) (e_secret e1)))
    as (keys & pkt & e2 & E & Hfor).
  { done. }
  { by apply drawn_range. }
  eapply wp_on_env_eq;
    [unfold respond; apply st_bind_Done; do 2 eexists; split; [exact E|reflexivity]|]. wp_step.
  exists sid', keys, (instant_now (e_instant e1)), pkt. split_and!; try done.
  - simpl. by rewrite lookup_insert_eq.
  - cbn [snd]. rewrite to_peer_queue, decide_True by done. done.
Qed.

(** ** Third flight: the initiator completes the handshake and flushes its queue *)

(** The packets that confirm a session: the queued ones, or an empty one. *)
Definition confirmation (q : list bytes) : list bytes :=
  match q with [] => [[]] | _ => q end.

Definition datagrams (key : bytes) (id : Z) (ps : list bytes) : list bytes :=
  zip_with (fun p n => datagram key id n p) ps (nonces 0 (length ps)).

Lemma finish_for pkt sid sid' sent isec psk keys h mac t q :
  response_for pkt sid sid' sent isec psk keys ->
  exists resp, message_mut_try_from pkt = Some (MResponse resp) /\
    finish (Initiated (mkSentHandshake sid sent) h mac) resp (keypair_of isec) psk
        (receiver_new (x25519_base isec)) t q =
      (Some (mkPair (transmit_new (Core.send keys) sid' t) (receive_new (Core.recv keys) sid t)),
       HsNone, Scheduler.cancel q h).
Proof.
  intros (resp & Hm & Hr & Hse & Hv & Hf). exists resp. split; [done|].
  unfold finish. simpl. by rewrite Hv, Hf, Hse.
Qed.

(** Once nothing is left to decrypt, [recv_transport_data] has no output. *)
Lemma recv_transport_nil self sid out s :
  wp (recv_transport_data self sid [] out) (fun r _ => r.2 = out) s.
Proof.
  unfold recv_transport_data. wp_step.
  eapply wp_mono; [apply wp_on_env_any; intros e; apply get_recv_ok|].
  intros slot s1 [Hslot _]. destruct slot as [slot|].
  - wp_step. apply wp_lift.
    assert (E : exists ss, slot_decrypt (session self) slot [] = Done ([], ss)).
    { destruct slot, (session self) as [|? [prev|] ?]; try done; by eexists. }
    destruct E as [ss ->]. eexists. split; [done|]. done.
  - wp_step. apply wp_lift.
    assert (E : exists hs, confirm (handshake self) sid [] = Done (None, hs)).
    { unfold confirm. destruct (handshake self); try by eexists.
      destruct (negb _); by eexists. }
    destruct E as [hs ->]. eexists. split; [done|]. done.
Qed.

Lemma initiator_flush s p q sid sid' sent h mac pkt isec keys :
  session p = SsNone q -> (length q <= MAX_QUEUED_PER_PEER)%nat ->
  handshake p = Initiated (mkSentHandshake sid sent) h mac ->
  my_key s = keypair_of isec -> my_cookie s = receiver_new (x25519_base isec) ->
  response_for pkt sid sid' sent isec (psk (config p)) keys ->
  wp (peer_recv p sid [pkt] recv_default)
    (fun r _ => to_peer r.2 (id p) = datagrams (Core.send keys) sid' (confirmation q)) s.
Proof.
  intros Hss Hq Hh Hk Hc Hfor. unfold peer_recv. wp_step.
  apply (wp_mono _ (fun r _ => r.1.1 = [] /\
    to_peer r.2 (id p) = datagrams (Core.send keys) sid' (confirmation q))).
  2: { intros [[kept p'] out] s' [Hkept Hout]. simpl in Hkept, Hout. subst kept.
       eapply wp_mono; [apply recv_transport_nil|]. by intros r _ ->. }
  cbn [recv_retain]. wp_step. unfold recv_one.
  destruct (finish_for pkt sid sid' sent isec (psk (config p)) keys h mac
              (instant_now (e_instant (env s))) (scheduler s) Hfor) as (resp & -> & E).
  wp_step. unfold recv_handshake_response. wp_step. eapply wp_on_env_eq; [done|].
  do 2 wp_step. cbn [my_key my_cookie scheduler with_env]. rewrite Hh, Hk, Hc, E.
  do 2 wp_step. cbn [session with_handshake]. rewrite Hss. wp_step.
  unfold activate. cbn [take_session fst]. wp_step. apply wp_lift.
  unfold MAX_QUEUED_PER_PEER in Hq.
  rewrite encrypt_spec by (simpl; unfold U64; lia). eexists. split; [done|]. wp_step.
  destruct q as [|p0 q].
  - cbn [length nonces zip_with]. wp_step.
    eapply wp_mono; [apply (wp_on_env_any _ (fun r =>
      r.1 = Some (datagrams (Core.send keys) sid' [[]]))); intros e|].
    + unfold encrypt_or_queue. wp_step. apply wp_now. intros i e'. unfold transmit_expired.
      cbn [t_created p_send]. rewrite (proj2 (Z.ltb_ge _ _)) by apply instant_call.
      wp_step. apply wp_lift. rewrite encrypt_spec by (simpl; unfold U64; lia).
      eexists. split; [done|]. by wp_step.
    + intros [r ss] s2 [Hr _]. simpl in Hr. subst r. wp_step. apply wp_lift.
      eexists. split; [done|]. do 3 wp_step. split; [done|]. cbn [snd].
      rewrite to_peer_queue, decide_True by done. done.
  - cbn [length nonces zip_with]. do 4 wp_step. split; [done|]. cbn [snd].
    rewrite to_peer_queue, decide_True by done. done.
Qed.

(** ** Fourth flight: the responder confirms the session and delivers *)

Lemma datagram_parses key sid n p :
  0 <= sid < U32 -> 0 <= n < U64 ->
  message_mut_try_from (datagram key sid n p) =
    Some (MTransport (mkTransport TransportDataType (zeroes 3) sid n)).
Proof.
  intros Hs Hn. unfold message_mut_try_from.
  replace (message_type (datagram key sid n p)) with (Some TransportDataType) by done.
  by rewrite datagram_header.
Qed.

Lemma datagrams_parse key sid ps :
  0 <= sid < U32 -> Z.of_nat (length ps) < U64 ->
  Forall (fun d => exists h, message_mut_try_from d = Some (MTransport h) /\ td_receiver_id h = sid)
    (datagrams key sid ps).
Proof.
  intros Hs Hl. unfold datagrams. rewrite zip_with_map_pair, Forall_map.
  apply Forall_forall. intros [p n] Hin. apply elem_of_zip_r in Hin.
  pose proof (nonces_range 0 (length ps) ltac:(lia)) as Hf. rewrite Forall_forall in Hf.
  specialize (Hf n Hin). eexists. rewrite datagram_parses by (simpl; lia). done.
Qed.

Lemma retain_transport self packets out s :
  Forall (fun d => exists h, message_mut_try_from d = Some (MTransport h)) packets ->
  recv_retain self packets out s = Done ((packets, self, out), s).
Proof.
  intros Hp. revert s. induction Hp as [|d packets [h Hd] _ IH]; intros s; [done|].
  cbn [recv_retain]. unfold mbind, ST_bind, recv_one. rewrite Hd. simpl. by rewrite IH.
Qed.

Lemma confirmed_local self sp packets out s r s' :
  confirmed self sp packets out s = Done (r, s') ->
  rr_to_local r.2 = append_to (rr_to_local out) (id self) packets.
Proof.
  unfold confirmed. intros H. apply st_bind_Done in H as (p1 & s1 & _ & H).
  apply st_bind_Done in H as ([pkts ss] & s2 & _ & H).
  destruct pkts; injection H as <- _; done.
Qed.

Lemma responder_delivers s p qb keys sid sid' t ps :
  state_ok N 0 0 s -> peer_ok [] s p -> session p = SsNone qb -> 0 <= sid' < U32 ->
  handshake p = Responded (mkPair (transmit_new (Core.recv keys) sid t)
                             (receive_new (Core.send keys) sid' t)) ->
  Z.of_nat (length ps) < U64 -> ps <> [] ->
  wp (peer_recv p sid' (datagrams (Core.send keys) sid' ps) recv_default)
    (fun r _ => queued (rr_to_local r.2) (id p) = ps) s.
Proof.
  intros Hs Hp Hss Hsid Hh Hl Hne. unfold peer_recv. wp_step. unfold wp at 1.
  rewrite retain_transport.
  2: { eapply Forall_impl; [by apply datagrams_parse|]. intros d (h & ? & _). by exists h. }
  unfold recv_transport_data. rewrite Hss, Hh. wp_step. eapply wp_on_env_eq; [done|].
  wp_step. apply wp_lift. unfold confirm. cbn [p_recv r_id receive_new].
  rewrite Z.eqb_refl. cbn [negb]. fold (receive_new (Core.send keys) sid' t).
  destruct (decrypt_batch (receive_new (Core.send keys) sid' t) ReplayWindow.Spec.init 0 ps)
    as (r' & E & Hok & Hid); try done; [apply ReplayWindow.default_rep|].
  unfold datagrams. simpl in E. rewrite E. cbn [mbind outcome_bind].
  destruct ps as [|p0 ps]; [done|]. eexists. split; [reflexivity|].
  eapply wp_partial.
  - eapply (confirmed_ok 0 0); eauto with ts; [done|]. rewrite Hh. simpl. by rewrite Hid.
  - intros r s2 H. apply confirmed_local in H. rewrite H, queued_append, decide_True by done. done.
Qed.

(** ** The endpoint's loops on one peer *)

Lemma wp_on_peer {R} pid f (out : R) p Q e :
  peers e !! pid = Some p ->
  wp (f p out) (fun r s' => Q r.2 (mkEndpoint s' (<[pid := r.1]> (peers e)))) (state e) ->
  wp (on_peer pid f out) Q e.
Proof.
  intros Hp H. apply wp_Done in H as ([p' out'] & s' & E & HQ).
  unfold wp, on_peer. by rewrite Hp, E.
Qed.

Lemma wp_send_one pid ps p Q e :
  peers e !! pid = Some p ->
  wp (peer_send p ps send_default)
    (fun r s' => Q r.2 (mkEndpoint s' (<[pid := r.1]> (peers e)))) (state e) ->
  wp (send [(pid, ps)]) Q e.
Proof.
  intros Hp H. unfold send. cbn [send_loop]. wp_step. eapply wp_on_peer; [done|].
  eapply wp_mono; [exact H|]. auto with ts.
Qed.

Lemma hash_order_singleton k (l : list bytes) : hash_order {[k := l]} = [(k, l)].
Proof.
  apply Permutation_singleton_r. rewrite hash_perm. by rewrite map_to_list_singleton.
Qed.

Lemma group_foldl_one sid l packets :
  Forall (fun p => group_key p = sid) packets ->
  foldl (fun m p => append_to m (group_key p) [p]) {[sid := l]} packets = {[sid := l ++ packets]}.
Proof.
  intros Hf. revert l. induction Hf as [|p packets Hp _ IH]; intros l; simpl.
  - by rewrite app_nil_r.
  - unfold append_to at 2. rewrite Hp, lookup_singleton_eq. simpl.
    rewrite insert_singleton_eq, IH. by rewrite <- app_assoc.
Qed.

Lemma group_map_one sid packets :
  packets <> [] -> Forall (fun p => group_key p = sid) packets ->
  group_map packets = {[sid := packets]}.
Proof.
  intros Hne Hf. destruct packets as [|p packets]; [done|]. inversion Hf as [|?? Hp Hf']; subst.
  unfold group_map. cbn [foldl]. unfold append_to at 2. rewrite lookup_empty. cbn [default].
  rewrite insert_empty. by apply (group_foldl_one _ [p]).
Qed.

Lemma wp_recv_group sid packets pid p Q e :
  packets <> [] -> Forall (fun d => group_key d = sid) packets -> sid <> 0 ->
  sessions (ids (state e)) !! sid = Some pid -> peers e !! pid = Some p ->
  wp (peer_recv p sid packets recv_default)
    (fun r s' => Q r.2 (mkEndpoint s' (<[pid := r.1]> (peers e)))) (state e) ->
  wp (recv packets) Q e.
Proof.
  intros Hne Hg Hsid Hse Hp H. unfold recv. rewrite (group_map_one sid packets) by done.
  rewrite delete_singleton_ne by congruence. rewrite hash_order_singleton.
  unfold queued. rewrite lookup_singleton_ne by done. cbn [default handshakes_loop].
  do 2 wp_step. cbn [groups_loop]. do 3 wp_step. unfold get_by_session_id. rewrite Hse.
  eapply wp_on_peer; [done|]. eapply wp_mono; [exact H|]. auto with ts.
Qed.

Lemma wp_recv_initiation pkt init hs pid p Q e :
  message_mut_try_from pkt = Some (MInitiation init) ->
  received_new init (my_key (state e)) (my_cookie (state e)) = Some hs ->
  node_keys (ids (state e)) !! peer_static hs = Some pid -> peers e !! pid = Some p ->
  wp (respond_to_handshake p hs recv_default)
    (fun r s' => Q r.2 (mkEndpoint s' (<[pid := r.1]> (peers e)))) (state e) ->
  wp (recv [pkt]) Q e.
Proof.
  intros Hm Hr Hn Hp H. unfold recv.
  rewrite (group_map_one 0 [pkt]); [|done|].
  2: { repeat constructor. unfold group_key.
       change (message_try_from pkt) with (message_mut_try_from pkt). by rewrite Hm. }
  rewrite delete_singleton_eq.
  replace (hash_order ∅) with (@nil (Z * list bytes)).
  2: { symmetry. apply Permutation_nil_r. rewrite hash_perm. by rewrite map_to_list_empty. }
  unfold queued. rewrite lookup_singleton_eq. cbn [default handshakes_loop]. do 2 wp_step.
  unfold process_one_handshake. unfold wp at 1. rewrite Hm, Hr. unfold get_by_nodekey. rewrite Hn.
  change (wp (on_peer pid (fun peer => respond_to_handshake peer hs) recv_default)
            (fun a => wp (mret a) (fun a => wp (groups_loop [] a) Q)) e).
  eapply wp_on_peer; [done|]. eapply wp_mono; [exact H|]. auto with ts.
Qed.

End Phases.
(** ** Two endpoints *)

(** One call into an endpoint, in the environment [W]. *)
Definition send_in `{C : Crypto} (W : World) packets (e : Endpoint) :=
  send packets (fresh_env e).
Definition recv_in `{C : Crypto} (W : World) packets (e : Endpoint) :=
  recv packets (fresh_env e).

(** Peer [pid] is configured, has no session and no handshake, and [q] is queued. *)
Definition idle `{C : Crypto} (e : Endpoint) (pid : Z) (cfg : PeerConfig) (q : list bytes) : Prop :=
  exists p, peers e !! pid = Some p /\ config p = cfg /\ session p = SsNone q /\
    handshake p = HsNone /\ cookie_sender p = sender_new (key cfg) /\
    last_seen_timestamp p = None.

Definition nonzero_ids (W : World) : Prop := forall n, rand_u32 n <> 0.

Section Calls.
Context `{C : Crypto} `{L : !CryptoLaws} {N : nat}.

Lemma first_flight (W : World) (WL : WorldLaws N) a pb q ps isec rsec psk :
  inv N a -> room N 1 (length ps) a -> my_key (state a) = keypair_of isec ->
  idle a pb (mkConfig (x25519_base rsec) psk) q ->
  exists out a' sid sent h mac pkt ts p,
    send_in W [(pb, ps)] a = Done (out, a') /\ inv N a' /\ to_peer out pb = [pkt] /\
    initiation_for pkt sid sent isec rsec ts /\ drawn (W := W) sid /\
    sessions (ids (state a')) !! sid = Some pb /\ my_key (state a') = keypair_of isec /\
    peers a' !! pb = Some p /\ config p = mkConfig (x25519_base rsec) psk /\
    session p = SsNone (newest (q ++ ps)) /\
    handshake p = Initiated (mkSentHandshake sid sent) h mac.
Proof.
  intros Hinv Hroom Hk (p & Hp & Hcfg & Hss & Hh & Hck & _).
  destruct (inv_room N 1 (length ps) a Hinv Hroom) as [Hs _ Hpo _ _].
  destruct (ok_peer _ _ _ _ _ _ Hinv _ _ Hp) as (Hid & Hpok & _).
  assert (H1 : wp (send [(pb, ps)]) (fun _ a' => inv N a') (fresh_env a)).
  { apply (send_loop_ok 0 0). rewrite Nat.add_0_r.
    eapply ok_weaken; [by apply inv_room|simpl; lia..|].
    intros p0 Hn. unfold total. simpl. by rewrite Nat.add_0_r. }
  assert (H2 : wp (send [(pb, ps)]) (fun out a' => exists sid sent h mac pkt ts p',
      to_peer out pb = [pkt] /\ initiation_for pkt sid sent isec rsec ts /\ drawn sid /\
      sessions (ids (state a')) !! sid = Some pb /\ my_key (state a') = keypair_of isec /\
      peers a' !! pb = Some p' /\ config p' = mkConfig (x25519_base rsec) psk /\
      session p' = SsNone (newest (q ++ ps)) /\
      handshake p' = Initiated (mkSentHandshake sid sent) h mac) (fresh_env a)).
  { apply (wp_send_one pb ps p); [done|].
    eapply wp_mono; [apply (idle_send _ p q ps isec rsec); try done|].
    - pose proof (po_session _ _ _ Hpok) as Hw. by rewrite Hss in Hw.
    - by rewrite Hcfg.
    - intros [p' out] s' (sid & sent & h & mac & pkt & ts & Hd & Hse & Hss' & Hh' & Hcfg' & Hid' &
        _ & Hk' & _ & Hout & Hfor). simpl in Hss', Hh', Hcfg', Hid', Hk', Hout.
      exists sid, sent, h, mac, pkt, ts, p'. cbn [state peers snd].
      rewrite Hid in Hse, Hout. rewrite lookup_insert_eq. split_and!; try done; congruence. }
  pose proof (wp_and _ _ _ _ H1 H2) as H. apply wp_Done in H as (out & a' & E & Hi & H).
  destruct H as (sid & sent & h & mac & pkt & ts & p' & H).
  exists out, a', sid, sent, h, mac, pkt, ts, p'. destruct_and!. by split_and!.
Qed.

Lemma second_flight (W : World) (WL : WorldLaws N) b pa q sid sent isec rsec psk pkt ts :
  inv N b -> room N 1 0 b -> my_key (state b) = keypair_of rsec -> 0 <= sid < U32 ->
  idle b pa (mkConfig (x25519_base isec) psk) q ->
  initiation_for pkt sid sent isec rsec ts ->
  exists out b' sid' keys t pkt' p,
    recv_in W [pkt] b = Done (out, b') /\ inv N b' /\ to_peer out pa = [pkt'] /\
    response_for pkt' sid sid' sent isec psk keys /\ drawn (W := W) sid' /\
    sessions (ids (state b')) !! sid' = Some pa /\ peers b' !! pa = Some p /\
    session p = SsNone q /\
    handshake p = Responded (mkPair (transmit_new (Core.recv keys) sid t)
                               (receive_new (Core.send keys) sid' t)).
Proof.
  intros Hinv Hroom Hk Hsid (p & Hp & Hcfg & Hss & Hh & Hck & Hls) (init & Hm & Hrecv).
  destruct (inv_room N 1 0 b Hinv Hroom) as [Hs Hco Hpo Hnk _].
  destruct (ok_peer _ _ _ _ _ _ Hinv _ _ Hp) as (Hid & Hpok & _).
  assert (H1 : wp (recv [pkt]) (fun _ b' => inv N b') (fresh_env b)).
  { apply (recv_ok 0 0). eapply ok_weaken; [by apply inv_room|simpl; lia..|done]. }
  assert (H2 : wp (recv [pkt]) (fun out b' => exists sid' keys t pkt' p',
      to_peer out pa = [pkt'] /\ response_for pkt' sid sid' sent isec psk keys /\ drawn sid' /\
      sessions (ids (state b')) !! sid' = Some pa /\ peers b' !! pa = Some p' /\
      session p' = SsNone q /\
      handshake p' = Responded (mkPair (transmit_new (Core.recv keys) sid t)
                                 (receive_new (Core.send keys) sid' t))) (fresh_env b)).
  { eapply (wp_recv_initiation pkt init _ pa p); [exact Hm| | |done|].
    - rewrite Hco. change (my_key (state (fresh_env b))) with (my_key (state b)).
      rewrite Hk. exact Hrecv.
    - pose proof (Hnk pa p Hp) as Hn. rewrite Hcfg in Hn. exact Hn.
    - eapply wp_mono; [apply (idle_respond _ p sent sid isec ts); try done|].
      + destruct Hs. split; try done. lia.
      + intros [p' out] s' (sid' & keys & t & pkt' & Hd & Hse & Hss' & Hid' & Hcfg' & Hh' &
          Hout & Hfor). simpl in Hss', Hh', Hcfg', Hid', Hout. rewrite Hcfg in Hfor.
        exists sid', keys, t, pkt', p'. cbn [state peers snd].
        rewrite Hid in Hse, Hout. rewrite lookup_insert_eq. split_and!; try done. congruence. }
  pose proof (wp_and _ _ _ _ H1 H2) as H. apply wp_Done in H as (out & b' & E & Hi & H).
  destruct H as (sid' & keys & t & pkt' & p' & H).
  exists out, b', sid', keys, t, pkt', p'. destruct_and!. by split_and!.
Qed.

Lemma third_flight (W : World) (WL : WorldLaws N) a pb p q sid sid' sent h mac isec psk pkt keys :
  inv N a -> my_key (state a) = keypair_of isec -> sid <> 0 ->
  sessions (ids (state a)) !! sid = Some pb -> peers a !! pb = Some p ->
  WgPeer.psk (config p) = psk -> session p = SsNone q ->
  handshake p = Initiated (mkSentHandshake sid sent) h mac ->
  response_for pkt sid sid' sent isec psk keys ->
  exists out a', recv_in W [pkt] a = Done (out, a') /\
    to_peer out pb = datagrams (Core.send keys) sid' (confirmation q).
Proof.
  intros Hinv Hk Hne Hse Hp Hpsk Hss Hh Hfor.
  destruct (ok_peer _ _ _ _ _ _ Hinv _ _ Hp) as (Hid & Hpok & _).
  pose proof (ok_cookie _ _ _ _ _ _ Hinv) as Hco.
  assert (H : wp (recv [pkt]) (fun out _ =>
    to_peer out pb = datagrams (Core.send keys) sid' (confirmation q)) (fresh_env a)).
  { apply (wp_recv_group sid [pkt] pb p); try done.
    - pose proof Hfor as (resp & Hm & Hr & _). repeat constructor. unfold group_key.
      change (message_try_from pkt) with (message_mut_try_from pkt). rewrite Hm. simpl. by rewrite Hr.
    - rewrite <- Hid. eapply wp_mono; [eapply (initiator_flush _ p q); try done|].
      + pose proof (po_session _ _ _ Hpok) as Hw. by rewrite Hss in Hw.
      + simpl. rewrite Hco. simpl. by rewrite Hk.
      + by rewrite Hpsk.
      + by intros r s' Hr. }
  apply wp_Done in H as (out & a' & E & H). by exists out, a'.
Qed.

Lemma fourth_flight (W : World) (WL : WorldLaws N) b pa p q sid sid' keys t ps :
  inv N b -> sid' <> 0 -> 0 <= sid' < U32 ->
  sessions (ids (state b)) !! sid' = Some pa -> peers b !! pa = Some p ->
  session p = SsNone q ->
  handshake p = Responded (mkPair (transmit_new (Core.recv keys) sid t)
                             (receive_new (Core.send keys) sid' t)) ->
  Z.of_nat (length ps) < U64 -> ps <> [] ->
  exists out b', recv_in W (datagrams (Core.send keys) sid' ps) b = Done (out, b') /\
    queued (rr_to_local out) pa = ps.
Proof.
  intros Hinv Hne Hsid Hse Hp Hss Hh Hl Hps.
  destruct (ok_peer _ _ _ _ _ _ (ok_fresh_env _ _ _ _ _ _ Hinv) _ _ Hp) as (Hid & Hpok & _).
  assert (H : wp (recv (datagrams (Core.send keys) sid' ps)) (fun out _ =>
    queued (rr_to_local out) pa = ps) (fresh_env b)).
  { apply (wp_recv_group sid' _ pa p); try done.
    - destruct ps; done.
    - eapply Forall_impl; [by apply datagrams_parse|]. intros d (hd & Hd & Hr). unfold group_key.
      change (message_try_from d) with (message_mut_try_from d). rewrite Hd. exact Hr.
    - rewrite <- Hid. eapply wp_mono; [eapply (responder_delivers _ p q keys sid sid' t ps); try done|].
      + apply (ok_fresh_env _ _ _ _ _ _ Hinv).
      + by intros r s' Hr. }
  apply wp_Done in H as (out & b' & E & H). by exists out, b'.
Qed.

End Calls.
(** ** Properties *)


#[local] Existing Instance Toy.toy.
#[local] Existing Instance Toy.toy_laws.

(** An endpoint with the secret [me] that knows peer [pid] with the secret [other]. *)
Definition pair_endpoint (me other pid : Z) : Endpoint :=
  let e := endpoint_new (keypair_of [byte_of_Z me]) in
  match step test_world (OpUpsert pid (mkConfig (x25519_base [byte_of_Z other]) (zeroes 32))) e with
  | Done e => e
  | Panic => e
  end.

Lemma pair_reachable me other pid : reachable 50 (pair_endpoint me other pid).
Proof.
  eapply (reachable_step 50 test_world
    (OpUpsert pid (mkConfig (x25519_base [byte_of_Z other]) (zeroes 32)))
    (endpoint_new (keypair_of [byte_of_Z me]))); [apply reachable_new|apply test_world_laws|done|].
  reflexivity.
Qed.

Lemma pair_idle me other pid :
  idle (pair_endpoint me other pid) pid (mkConfig (x25519_base [byte_of_Z other]) (zeroes 32)) [].
Proof.
  eexists. split; [apply (lookup_insert_eq (∅ : gmap Z Peer) pid)|]. by split_and!.
Qed.

Lemma pair_room me other pid k n :
  (k <= 50)%nat -> room 50 k n (pair_endpoint me other pid).
Proof.
  intros Hk. split; [exact Hk|]. split.
  - change (TAI64N.secs _) with 0. unfold TAI64N.TAI_BASE, U64. lia.
  - intros q p Hp. change (peers _) with (<[pid := peer_new pid
      (mkConfig (x25519_base [byte_of_Z other]) (zeroes 32))]> (∅ : gmap Z Peer)) in Hp.
    apply lookup_insert_Some in Hp as [[_ <-]|[_ Hp]]; [exact I|].
    rewrite lookup_empty in Hp. discriminate Hp.
Qed.


End WgDelivery.
