(* ===== verification/WgFindings.v ===== *)
(** * Corner cases of the WireGuard endpoint

    Exact behaviour in situations where the code departs from its documentation:
    forged handshake responses, expired previous sessions, keepalives without a
    session, and key changes. *)

From S2P Require Import Prelude Replay Tai64n Scheduler Packet Crypto Noise NoiseIKpsk2.
From S2P Require Import WgMessages WgEnv WgMacs WgSession WgHandshake WgState WgPeer WgEndpoint.
From S2P Require Import WgInv.

Module WgFindings.
Import WgMessages WgMacs WgSession WgHandshake Results WgState WgPeer WgEndpoint.

(** The state that [sessions], [scheduler] and the keys are in is untouched. *)
Definition only_env (s s' : EndpointState) : Prop := exists e, s' = with_env s e.

(** ** Properties *)

(** C38: an unauthenticated handshake response aborts the handshake.  [Handshake::finish]
    documents that its state is unchanged when the response is invalid; in fact a
    response with wrong MACs leaves the peer without a handshake, its session
    identifier still allocated and its timeout still scheduled, and when the timeout
    fires nothing is retried. *)
Theorem forged_response_aborts_handshake `{C : Crypto} `{W : World} (self : Peer)
    (packet : HandshakeResponse) (out : RecvResult) (s : EndpointState) sent timeout mac :
  handshake self = Initiated sent timeout mac ->
  verify_macs (my_cookie s) (response_bytes packet) = false ->
  exists s', recv_handshake_response self packet out s =
      Done ((with_handshake self HsNone, out), s') /\ only_env s s' /\
    forall out' s2, handshake_timeout (with_handshake self HsNone) out' s2 =
      Done ((with_handshake self HsNone, out'), s2).
Proof.
  intros Hh Hv. unfold recv_handshake_response. eexists. split; [|split; [|done]].
  - unfold mbind, ST_bind, on_env, now. cbn [st_get my_key my_cookie scheduler with_env].
    unfold finish. rewrite Hh. cbn [take_initiated]. rewrite Hv. reflexivity.
  - by eexists.
Qed.

(** The previous receive session outlives its expiry.  [get_recv] tests the expiry
    of the current session where the previous one is meant: packets for the previous
    session are accepted, however old it is, as long as the current one is live. *)
Theorem expired_previous_session_accepted `{W : World} (recv prev : ReceiveSession)
    (send : TransmitSession) (e : Env) :
  r_id recv <> r_id prev ->
  receive_expired recv (instant_now (e_instant e)) = false ->
  exists e', get_recv (Active recv (Some prev) send) (r_id prev) e = Done (Some SlotPrev, e').
Proof.
  intros Hne Hl. unfold get_recv, id_live.
  rewrite (proj2 (Z.eqb_neq _ _) Hne), Z.eqb_refl.
  unfold mbind, ST_bind, now. simpl. rewrite Hl. simpl. by eexists.
Qed.

(** A keepalive that finds no live session disables all later ones.  When the event
    fires and the session cannot transmit, the stale handle stays in place, and from
    then on every request for a keepalive only sets a flag and schedules nothing. *)
Theorem missed_keepalive_disables_keepalives `{C : Crypto} `{W : World} (self : Peer)
    (out : EventResult) (s : EndpointState) (q : list bytes) (h : Scheduler.Handle) :
  session self = SsNone q -> keepalive self = Some h ->
  exists self', send_keepalive self out s = Done ((self', out), with_env s (env s)) /\
    keepalive self' = Some h /\
    forall s2, schedule_keepalive self' s2 = Done (with_send_another self' true, s2).
Proof.
  intros Hs Hk. unfold send_keepalive. exists (with_session self (SsNone q)).
  unfold mbind, ST_bind, on_env. rewrite Hs. simpl. split; [done|]. split; [done|].
  intros s2. unfold schedule_keepalive. simpl. by rewrite Hk.
Qed.

(** Changing a peer's key to one that another peer uses does not panic, although
    the documentation says so: the update is accepted, both peers then carry the
    key, and the endpoint attributes it to the other one only. *)
Theorem upsert_collision_unnoticed `{C : Crypto} (e : Endpoint) (p1 p2 : Z) (peer1 peer2 : Peer)
    (psk : bytes) :
  peers e !! p1 = Some peer1 -> peers e !! p2 = Some peer2 -> p1 <> p2 ->
  node_keys (ids (state e)) !! key (config peer1) = Some p1 ->
  node_keys (ids (state e)) !! key (config peer2) = Some p2 ->
  exists e', upsert_peer p1 (mkConfig (key (config peer2)) psk) e = Done (Some (config peer1), e') /\
    peer_key e' p1 = Some (key (config peer2)) /\ peer_key e' p2 = Some (key (config peer2)) /\
    peer_id e' (key (config peer2)) = Some p2 /\ peer_id e' (key (config peer1)) = None.
Proof.
  intros H1 H2 Hne K1 K2. assert (Hk : key (config peer1) <> key (config peer2)) by congruence.
  unfold upsert_peer. rewrite H1. cbn [key]. rewrite decide_False by done.
  unfold idmap_remove_peer. rewrite K1. cbn [mbind outcome_bind].
  unfold add_peer. cbn [node_keys]. rewrite lookup_delete_ne, K2 by done.
  eexists. split; [reflexivity|]. unfold peer_key, peer_id, get_by_nodekey. cbn [peers state ids with_ids].
  rewrite lookup_insert_eq, lookup_insert_ne, H2 by done. cbn. split_and!; try done.
  - by rewrite lookup_delete_ne.
  - apply lookup_delete_eq.
Qed.

(** A key change leaves the MAC keys of the old public key in place.  After
    [upsert_peer] gives an existing peer another key, its MACs are still computed
    with the old one: whatever handshake packet it writes is accepted by the owner
    of the new key only if the two MAC keys give the same MAC. *)
Theorem rekeyed_peer_uses_stale_macs `{C : Crypto} `{W : World} `{L : !CryptoLaws} (e e' : Endpoint)
    (pid : Z) (p : Peer) (cfg : PeerConfig) (r : option PeerConfig) (data : bytes) (en : Env) :
  peers e !! pid = Some p -> cookie_sender p = sender_new (key (config p)) ->
  upsert_peer pid cfg e = Done (r, e') ->
  exists p' m pkt, peers e' !! pid = Some p' /\ key (config p') = key cfg /\
    write_macs (cookie_sender p') (data ++ zeroes 32) en = Done ((m, pkt), en) /\
    verify_macs (receiver_new (key cfg)) pkt =
      bool_decide (blake2s_mac (mac1_key (key cfg)) data =
                   blake2s_mac (mac1_key (key (config p))) data).
Proof.
  intros Hp Hc H. unfold upsert_peer in H. rewrite Hp in H.
  apply bind_Done in H as (i & _ & H). injection H as _ <-.
  exists (mkPeer (id p) cfg (session p) (handshake p) (last_seen_timestamp p) (cookie_sender p)
            (keepalive p) (send_another_keepalive p)).
  do 2 eexists. cbn [peers]. rewrite lookup_insert_eq. cbn [config cookie_sender].
  assert (Hl : length (data ++ zeroes 32) = (length data + 32)%nat)
    by (by rewrite length_app, PacketMut.length_zeroes).
  rewrite Hc. split; [done|]. split; [done|].
  rewrite write_macs_None by (done || lia). rewrite Hl.
  replace (length data + 32 - 32)%nat with (length data) by lia. rewrite take_app_length.
  split; [reflexivity|]. unfold verify_macs.
  set (m := blake2s_mac _ _). pose proof (blake2s_mac_length (s_mac1_key (sender_new (key (config p)))) data) as Hm.
  fold m in Hm. rewrite !length_app, Hm, PacketMut.length_zeroes, decide_True by lia.
  replace (length data + (16 + 16) - 32)%nat with (length data) by lia.
  rewrite take_app_length, drop_app_length, take_app_length' by done. cbn [r_mac1_key receiver_new].
  replace (length data + (16 + 16) - 16)%nat with (length data + 16)%nat by lia.
  rewrite app_assoc, drop_app_length' by (rewrite length_app; lia).
  case_decide as Hd; [by rewrite !bool_decide_eq_true_2|by rewrite bool_decide_eq_false_2].
Qed.

(** ** Concrete instances *)

#[local] Existing Instance Toy.toy.
#[local] Existing Instance Toy.toy_laws.
#[local] Existing Instance WgInv.test_world.

Definition example_key (n : Z) : X25519KeyPair := keypair_of [byte_of_Z n].

Definition example_peer (id n : Z) : Peer := peer_new id (mkConfig (public (example_key n)) (zeroes 32)).

(** An endpoint with the two peers 7 and 9. *)
Definition example_endpoint : Endpoint :=
  let e := endpoint_new (example_key 1) in
  mkEndpoint (with_ids (state e)
      (mkIdMap ∅ (<[public (example_key 2) := 7]> {[public (example_key 3) := 9]})))
    (<[7 := example_peer 7 2]> {[9 := example_peer 9 3]}).

Definition example_sent : Handshake :=
  Initiated (mkSentHandshake 5 (IKpsk2.mkSent (Core.new []) [])) (Scheduler.mkHandle 0) [].

Lemma forged_response_aborts_handshake_witness :
  let self := with_handshake (example_peer 7 2) example_sent in
  let s := state example_endpoint in
  exists s', recv_handshake_response self response_default recv_default s =
      Done ((with_handshake self HsNone, recv_default), s') /\ only_env s s' /\
    forall out' s2, handshake_timeout (with_handshake self HsNone) out' s2 =
      Done ((with_handshake self HsNone, out'), s2).
Proof.
  intros self s. eapply (forged_response_aborts_handshake self); [reflexivity|vm_compute; reflexivity].
Defined.

Lemma expired_previous_session_accepted_witness :
  let recv := receive_new [] 1 0 in
  let prev := receive_new [] 2 (- from_secs 1000) in
  receive_expired prev 0 = true /\
  exists e', get_recv (Active recv (Some prev) (transmit_new [] 3 0)) 2 env0 =
    Done (Some SlotPrev, e').
Proof.
  intros recv prev. split; [vm_compute; reflexivity|].
  apply (expired_previous_session_accepted recv prev); [discriminate|vm_compute; reflexivity].
Defined.

Lemma missed_keepalive_disables_keepalives_witness :
  let self := with_keepalive (example_peer 7 2) (Some (Scheduler.mkHandle 0)) in
  let s := state example_endpoint in
  exists self', send_keepalive self event_default s = Done ((self', event_default), with_env s (env s)) /\
    keepalive self' = Some (Scheduler.mkHandle 0) /\
    forall s2, schedule_keepalive self' s2 = Done (with_send_another self' true, s2).
Proof.
  intros self s. apply (missed_keepalive_disables_keepalives self event_default s []); reflexivity.
Defined.

Lemma upsert_collision_unnoticed_witness :
  exists e', upsert_peer 7 (mkConfig (public (example_key 3)) (zeroes 32)) example_endpoint =
      Done (Some (mkConfig (public (example_key 2)) (zeroes 32)), e') /\
    peer_key e' 7 = Some (public (example_key 3)) /\ peer_key e' 9 = Some (public (example_key 3)) /\
    peer_id e' (public (example_key 3)) = Some 9 /\ peer_id e' (public (example_key 2)) = None.
Proof.
  apply (upsert_collision_unnoticed example_endpoint 7 9 (example_peer 7 2) (example_peer 9 3));
    [reflexivity|reflexivity|discriminate|vm_compute; reflexivity|vm_compute; reflexivity].
Defined.

Lemma rekeyed_peer_uses_stale_macs_witness :
  exists e' p' m pkt,
    upsert_peer 7 (mkConfig (public (example_key 4)) (zeroes 32)) example_endpoint =
      Done (Some (mkConfig (public (example_key 2)) (zeroes 32)), e') /\
    peers e' !! 7 = Some p' /\ key (config p') = public (example_key 4) /\
    write_macs (cookie_sender p') ([x01] ++ zeroes 32) env0 = Done ((m, pkt), env0) /\
    verify_macs (receiver_new (public (example_key 4))) pkt = false.
Proof.
  set (e' := match upsert_peer 7 (mkConfig (public (example_key 4)) (zeroes 32)) example_endpoint with
             | Done (_, e') => e' | Panic => example_endpoint end).
  assert (E : upsert_peer 7 (mkConfig (public (example_key 4)) (zeroes 32)) example_endpoint =
    Done (Some (mkConfig (public (example_key 2)) (zeroes 32)), e')) by (vm_compute; reflexivity).
  destruct (rekeyed_peer_uses_stale_macs example_endpoint e' 7 (example_peer 7 2)
    (mkConfig (public (example_key 4)) (zeroes 32)) _ [x01] env0 eq_refl eq_refl E)
    as (p' & m & pkt & H1 & H2 & H3 & H4).
  exists e', p', m, pkt. split; [exact E|]. split; [exact H1|]. split; [exact H2|].
  split; [exact H3|]. etransitivity; [exact H4|vm_compute; reflexivity].
Defined.

End WgFindings.
