(* ===== verification/Bitset.v ===== *)
(** * Bit sets (ts_bitset/src/lib.rs, ts_bitset/src/rank.rs)

    The word-array bit set used by the routing table: updates, searches, iteration,
    rank, bitwise operations and shifts. *)

From Stdlib Require Import ZifyNat Sorting.Sorted.
From S2P Require Import Prelude.

Module Bitset.

(** [lia] with divisions and remainders on [nat]. *)
Ltac ndlia := zify; Z.to_euclidean_division_equations; lia.

(** A bit set of [N_WORDS] words; bit 0 is the least significant bit of word 0. *)
Abbreviation Bitset := (list Z).

Definition EMPTY (n_words : nat) : Bitset := replicate n_words 0.
Definition FULL (n_words : nat) : Bitset := replicate n_words u64_max.
Definition N_BITS (n_words : nat) : nat := (n_words * 64)%nat.

Definition word_idx (bit : nat) : nat := (bit / 64)%nat.
Definition subword_idx (bit : nat) : Z := Z.shiftl 1 (Z.of_nat (Nat.land bit 63)).

(** ** Operations on words: [trailing_zeros], [leading_zeros], [count_ones] and
    [bits.Len64] *)

Definition bit_of (w : Z) (i : nat) : bool := Z.testbit w (Z.of_nat i).

Definition trailing_zeros (w : Z) : nat :=
  match List.find (bit_of w) (seq 0 64) with Some i => i | None => 64%nat end.

Definition leading_zeros (w : Z) : nat :=
  match List.find (bit_of w) (rev (seq 0 64)) with Some i => (63 - i)%nat | None => 64%nat end.

Definition count_ones64 (w : Z) : nat := length (filter (fun i => bit_of w i = true) (seq 0 64)).

Definition len (val : Z) : nat := (64 - leading_zeros val)%nat.

Definition unbounded_shl64 (w : Z) (n : nat) : Z := if decide (n < 64)%nat then Z.shiftl w (Z.of_nat n) mod U64 else 0.
Definition unbounded_shr64 (w : Z) (n : nat) : Z := if decide (n < 64)%nat then Z.shiftr w (Z.of_nat n) else 0.

(** ** Updates *)

Definition set (self : Bitset) (bit : nat) : outcome Bitset :=
  w ← index self (word_idx bit);
  store self (word_idx bit) (Z.lor w (subword_idx bit)).

Definition clear (self : Bitset) (bit : nat) : outcome Bitset :=
  let idx := word_idx bit in
  w ← index self idx;
  store self idx (Z.land w (not_w 64 (subword_idx bit))).

Definition with_bit (self : Bitset) (bit : nat) : outcome Bitset := set self bit.
Definition without_bit (self : Bitset) (bit : nat) : outcome Bitset := clear self bit.

Fixpoint with_bits (self : Bitset) (bits : list nat) : outcome Bitset :=
  match bits with
  | [] => mret self
  | b :: bits => self ← set self b; with_bits self bits
  end.

Fixpoint without_bits (self : Bitset) (bits : list nat) : outcome Bitset :=
  match bits with
  | [] => mret self
  | b :: bits => self ← clear self b; without_bits self bits
  end.

(** [FromIterator<usize>] *)
Definition from_iter (n_words : nat) (bits : list nat) : outcome Bitset :=
  with_bits (EMPTY n_words) bits.

Definition test (self : Bitset) (bit : nat) : outcome bool :=
  w ← index self (word_idx bit); mret (negb (Z.land w (subword_idx bit) =? 0)).

(** [resize]: [copy_from_slice] panics unless both slices have the same length. *)
Definition resize (self : Bitset) (m : nat) (empty_value : bool) : outcome Bitset :=
  let empty := if empty_value then u64_max else 0 in
  let out := replicate m empty in
  let n := if decide (length self <= m)%nat then length self else m in
  let to_copy := take n self in
  if decide (length out = length to_copy) then mret to_copy else Panic.

(** ** Searches *)

Fixpoint first_set_from (words : Bitset) (i : nat) : option nat :=
  match words with
  | [] => None
  | w :: words =>
      let zeroes := trailing_zeros w in
      if negb (zeroes =? 64)%nat then Some (64 * i + zeroes)%nat
      else first_set_from words (S i)
  end.

Definition first_set (self : Bitset) : option nat := first_set_from self 0.

Fixpoint next_word (words : Bitset) (word : nat) : option nat :=
  match words with
  | [] => None
  | value :: words =>
      if value =? 0 then next_word words (S word)
      else Some (word * 64 + trailing_zeros value)%nat
  end.

Definition next_set (self : Bitset) (bit : nat) : outcome (option nat) :=
  let word := word_idx bit in
  w ← index self word;
  let first := unbounded_shr64 w (Nat.land bit 63) in
  mret (if negb (first =? 0) then Some (bit + trailing_zeros first)%nat
        else next_word (drop (S word) self) (S word)).

(** The loop of [last_set] at word [word]. *)
Fixpoint last_set_at (self : Bitset) (word : nat) : outcome (option nat) :=
  value ← index self word;
  if value =? 0 then
    match word with O => mret None | S word => last_set_at self word end
  else mret (Some (word * 64 + (len value - 1))%nat).

(** [N_WORDS - 1] underflows for a bit set without words. *)
Definition last_set (self : Bitset) : outcome (option nat) :=
  match length self with O => Panic | S n => last_set_at self n end.

(** The iterator of one word: [word &= word - 1] clears the lowest set bit. *)
Fixpoint word_bits (fuel : nat) (word : Z) (word_offset : nat) : list nat :=
  match fuel with
  | O => []
  | S fuel =>
      let trailing_zeros := trailing_zeros word in
      if (trailing_zeros =? 64)%nat then []
      else (word_offset + trailing_zeros)%nat
             :: word_bits fuel (Z.land word (word - 1)) word_offset
  end.

Fixpoint bits_from (words : Bitset) (i : nat) : list nat :=
  match words with
  | [] => []
  | w :: words => word_bits 65 w (i * 64) ++ bits_from words (S i)
  end.

Definition bits (self : Bitset) : list nat := bits_from self 0.

(** The reversed enumeration of the word-wise intersection. *)
Fixpoint top_of (pairs : list (nat * Z)) : option nat :=
  match pairs with
  | [] => None
  | (word, intersect) :: pairs =>
      if intersect =? 0 then top_of pairs else Some (word * 64 + (len intersect - 1))%nat
  end.

Definition intersection_top (self other : Bitset) : option nat :=
  top_of (rev (imap pair (zip_with Z.land self other))).

(** ** Whole-set operations *)

Definition is_empty (self : Bitset) : bool := forallb (fun w => w =? 0) self.

Definition intersects (self other : Bitset) : bool :=
  existsb (fun w => negb (w =? 0)) (zip_with Z.land self other).

Definition count_ones (self : Bitset) : nat := sum_list (map count_ones64 self).

Definition union_inplace (self other : Bitset) : Bitset := zip_with Z.lor self other.
Definition intersect_inplace (self other : Bitset) : Bitset := zip_with Z.land self other.
Definition invert_inplace (self : Bitset) : Bitset := map (not_w 64) self.

(** The loop that fills whole words; an index past the last word panics. *)
Fixpoint fill_words (out : Bitset) (i n : nat) : outcome Bitset :=
  match n with
  | O => mret out
  | S n => out ← store out i u64_max; fill_words out (S i) n
  end.

Definition with_bits_upto (n_words bit_exclusive : nat) : outcome Bitset :=
  let full_set_words := (bit_exclusive / 64)%nat in
  out ← fill_words (replicate n_words 0) 0 full_set_words;
  if decide (full_set_words < n_words)%nat then
    store out full_set_words (Z.shiftl 1 (Z.of_nat (bit_exclusive mod 64)) - 1)
  else mret out.

(** ** Rank *)

Definition mask_word (word_idx n : nat) : Z :=
  let n := S n in
  let target_word := (n / 64)%nat in
  if decide (word_idx < target_word)%nat then u64_max
  else if decide (target_word < word_idx)%nat then 0
  else Z.shiftl 1 (Z.of_nat (n mod 64)) - 1.

Definition build_rank_mask (n_words n : nat) : Bitset :=
  map (fun i => mask_word i n) (seq 0 n_words).

Definition rank (self : Bitset) (i : nat) : nat :=
  count_ones (intersect_inplace (build_rank_mask (length self) i) self).

(** [rank256]: with the lookup table, an index past 255 panics. *)
Definition rank256 (self : Bitset) (i : nat) : outcome nat :=
  if decide (i < 256)%nat then
    mret (count_ones (intersect_inplace (build_rank_mask 4 i) self))
  else Panic.

Definition bits_after (self : Bitset) (n : nat) : list nat :=
  bits (intersect_inplace (invert_inplace (build_rank_mask 4 n)) self).

(** ** Shifts *)

(** [for tgt_idx in (shift_words..len).rev()]: [n] targets are left. *)
Fixpoint shl_loop (self : Bitset) (shift_words shift_bits n : nat) : outcome Bitset :=
  match n with
  | O => mret self
  | S n =>
      let tgt_idx := (shift_words + n)%nat in
      let src_idx := n in
      src_word1 ← index self src_idx;
      src_word2 ← match src_idx with O => mret 0 | S p => index self p end;
      self ← store self tgt_idx
               (Z.lor (unbounded_shl64 src_word1 shift_bits)
                      (unbounded_shr64 src_word2 (64 - shift_bits)));
      shl_loop self shift_words shift_bits n
  end.

Definition unbounded_shl (self : Bitset) (rhs : nat) : outcome Bitset :=
  if decide (N_BITS (length self) <= rhs)%nat then mret (EMPTY (length self))
  else
    let shift_words := (rhs / 64)%nat in
    let shift_bits := (rhs mod 64)%nat in
    self' ← shl_loop self shift_words shift_bits (length self - shift_words);
    mret (replicate shift_words 0 ++ drop shift_words self').

(** [for tgt_idx in 0..N_WORDS - shift_words]: [n] targets are left from [tgt_idx]. *)
Fixpoint shr_loop (self : Bitset) (shift_words shift_bits tgt_idx n : nat) : outcome Bitset :=
  match n with
  | O => mret self
  | S n =>
      let src_idx := (tgt_idx + shift_words)%nat in
      src_word1 ← index self src_idx;
      let src_word2 := default 0 (self !! S src_idx) in
      self ← store self tgt_idx
               (Z.lor (unbounded_shr64 src_word1 shift_bits)
                      (unbounded_shl64 src_word2 (64 - shift_bits)));
      shr_loop self shift_words shift_bits (S tgt_idx) n
  end.

Definition unbounded_shr (self : Bitset) (rhs : nat) : outcome Bitset :=
  if decide (N_BITS (length self) <= rhs)%nat then mret (EMPTY (length self))
  else
    let shift_words := (rhs / 64)%nat in
    let shift_bits := (rhs mod 64)%nat in
    let n := (length self - shift_words)%nat in
    self' ← shr_loop self shift_words shift_bits 0 n;
    mret (take n self' ++ replicate shift_words 0).

(** The [<<] and [>>] operators: a shift by the whole width or more panics. *)
Definition shl (self : Bitset) (rhs : Z) : outcome Bitset :=
  if (rhs <? 0) || (Z.of_nat (N_BITS (length self)) <=? rhs) then Panic
  else unbounded_shl self (Z.to_nat rhs).

Definition shr (self : Bitset) (rhs : Z) : outcome Bitset :=
  if (rhs <? 0) || (Z.of_nat (N_BITS (length self)) <=? rhs) then Panic
  else unbounded_shr self (Z.to_nat rhs).

(** ** Specification

    A bit set stands for the set of its members; [members] lists them in order. *)

Definition word_ok (w : Z) : Prop := 0 <= w < U64.
Definition wf (self : Bitset) : Prop := Forall word_ok self.

Definition mem (self : Bitset) (i : nat) : bool :=
  match self !! (i / 64)%nat with Some w => bit_of w (i mod 64) | None => false end.

Definition members (self : Bitset) : list nat :=
  filter (fun i => mem self i = true) (seq 0 (N_BITS (length self))).

(** The least member from [bit] on. *)
Definition least (self : Bitset) (bit : nat) (o : option nat) : Prop :=
  match o with
  | Some t => (bit <= t)%nat /\ mem self t = true /\ forall i, (bit <= i < t)%nat -> mem self i = false
  | None => forall i, (bit <= i)%nat -> mem self i = false
  end.

(** ** Words *)

Lemma land63 b : Nat.land b 63 = (b mod 64)%nat.
Proof. change 63%nat with (Nat.ones 6). by rewrite Nat.land_ones. Qed.

Lemma bit_high w i : word_ok w -> (64 <= i)%nat -> bit_of w i = false.
Proof.
  intros [H0 H1] Hi. unfold bit_of. destruct (decide (w = 0)) as [->|Hne]; [apply Z.testbit_0_l|].
  apply Z.bits_above_log2; [lia|]. apply Z.log2_lt_pow2; [lia|].
  apply Z.lt_le_trans with U64; [done|]. apply Z.pow_le_mono_r; lia.
Qed.

(** A word is determined by its 64 bits. *)
Lemma word_ext w w' :
  word_ok w -> word_ok w' -> (forall i, (i < 64)%nat -> bit_of w i = bit_of w' i) -> w = w'.
Proof.
  intros Hw Hw' H. apply Z.bits_inj'. intros n Hn.
  destruct (decide (n < 64)) as [Hl|Hl].
  - specialize (H (Z.to_nat n)). unfold bit_of in H. rewrite Z2Nat.id in H by lia. apply H. lia.
  - pose proof (bit_high w (Z.to_nat n) Hw ltac:(lia)) as E1.
    pose proof (bit_high w' (Z.to_nat n) Hw' ltac:(lia)) as E2.
    unfold bit_of in *. rewrite Z2Nat.id in * by lia. congruence.
Qed.

Lemma word_of_bits w : (forall i, (64 <= i)%nat -> bit_of w i = false) -> 0 <= w -> word_ok w.
Proof.
  intros H Hw. split; [done|]. apply Z.nle_gt. intros Hge.
  assert (Hpos : 0 < w) by (unfold U64 in *; lia).
  assert (Hlog : 64 <= Z.log2 w) by (apply Z.log2_le_pow2; [lia|exact Hge]).
  specialize (H (Z.to_nat (Z.log2 w))). unfold bit_of in H. rewrite Z2Nat.id in H by lia.
  rewrite Z.bit_log2 in H by lia. discriminate H. lia.
Qed.

Lemma subword_spec b i :
  (i < 64)%nat -> bit_of (subword_idx b) i = bool_decide (i = (b mod 64)%nat).
Proof.
  intros Hi. unfold subword_idx, bit_of. rewrite land63, Z.shiftl_1_l.
  rewrite Z.pow2_bits_eqb by lia. case_bool_decide.
  - subst. apply Z.eqb_refl.
  - apply Z.eqb_neq. lia.
Qed.

Lemma subword_ok b : word_ok (subword_idx b).
Proof.
  unfold subword_idx. rewrite land63, Z.shiftl_1_l.
  pose proof (Nat.mod_upper_bound b 64 ltac:(lia)).
  split; [lia|]. apply Z.pow_lt_mono_r; lia.
Qed.

Lemma lor_ok a b : word_ok a -> word_ok b -> word_ok (Z.lor a b).
Proof.
  intros Ha Hb. apply word_of_bits.
  - intros i Hi. unfold bit_of. rewrite Z.lor_spec. fold (bit_of a i) (bit_of b i).
    by rewrite !bit_high.
  - apply Z.lor_nonneg. by destruct Ha, Hb.
Qed.

Lemma land_ok a b : word_ok a -> word_ok b -> word_ok (Z.land a b).
Proof.
  intros Ha Hb. apply word_of_bits.
  - intros i Hi. unfold bit_of. rewrite Z.land_spec. fold (bit_of a i) (bit_of b i).
    by rewrite bit_high.
  - apply Z.land_nonneg. left. by destruct Ha.
Qed.

Lemma not_spec w i : (i < 64)%nat -> bit_of (not_w 64 w) i = negb (bit_of w i).
Proof.
  intros Hi. unfold not_w, bit_of. rewrite Z.lxor_spec, Z.ones_spec_low by lia. by destruct (Z.testbit w _).
Qed.

Lemma not_ok w : word_ok w -> word_ok (not_w 64 w).
Proof.
  intros Hw. apply word_of_bits.
  - intros i Hi. unfold not_w, bit_of. rewrite Z.lxor_spec, Z.ones_spec_high by lia.
    fold (bit_of w i). by rewrite bit_high.
  - unfold not_w. apply Z.lxor_nonneg. destruct Hw. split; [|done]. intros _. by vm_compute.
Qed.

Lemma max_bits i : (i < 64)%nat -> bit_of u64_max i = true.
Proof. intros. unfold bit_of. change u64_max with (Z.ones 64). apply Z.ones_spec_low. lia. Qed.

Lemma max_ok : word_ok u64_max.
Proof. by vm_compute. Qed.

(** The mask of the low [n] bits. *)
Lemma low_mask_spec n i : bit_of (Z.shiftl 1 (Z.of_nat n) - 1) i = bool_decide (i < n)%nat.
Proof.
  unfold bit_of. replace (Z.shiftl 1 (Z.of_nat n) - 1) with (Z.ones (Z.of_nat n))
    by (unfold Z.ones; lia).
  case_bool_decide; [apply Z.ones_spec_low|apply Z.ones_spec_high]; lia.
Qed.

Lemma low_mask_ok n : (n <= 64)%nat -> word_ok (Z.shiftl 1 (Z.of_nat n) - 1).
Proof.
  intros Hn. rewrite Z.shiftl_1_l. split; [pose proof (Z.pow_pos_nonneg 2 (Z.of_nat n)); lia|].
  assert (2 ^ Z.of_nat n <= 2 ^ 64) by (apply Z.pow_le_mono_r; lia). unfold U64. lia.
Qed.

Definition word_members (w : Z) : list nat := filter (fun i => bit_of w i = true) (seq 0 64).

Lemma word_members_spec w i : i ∈ word_members w <-> (i < 64)%nat /\ bit_of w i = true.
Proof.
  unfold word_members. rewrite list_elem_of_filter, elem_of_seq. split; [|]; intros []; split; auto; lia.
Qed.

Lemma word_members_nil w : word_ok w -> word_members w = [] <-> w = 0.
Proof.
  intros Hw. split.
  - intros E. apply word_ext; [done|by vm_compute|]. intros i Hi.
    destruct (bit_of w i) eqn:Eb; [|unfold bit_of; by rewrite Z.testbit_0_l].
    assert (i ∈ word_members w) as H by (by apply word_members_spec). rewrite E in H. set_solver.
  - intros ->. done.
Qed.

Lemma find_filter {A} (f : A -> bool) (l : list A) :
  List.find f l = head (filter (fun x => f x = true) l).
Proof.
  induction l as [|x l IH]; [done|]. simpl. rewrite filter_cons.
  destruct (f x); [by rewrite decide_True|by rewrite decide_False].
Qed.

Lemma find_rev_filter {A} (f : A -> bool) (l : list A) :
  List.find f (rev l) = list.last (filter (fun x => f x = true) l).
Proof.
  induction l as [|x l IH] using rev_ind; [done|].
  rewrite rev_app_distr, filter_app. simpl. destruct (f x) eqn:Ef.
  - rewrite filter_cons_True, filter_nil by done. by rewrite last_snoc.
  - rewrite filter_cons_False, filter_nil, app_nil_r by congruence. done.
Qed.

Lemma trailing_zeros_spec w : trailing_zeros w = default 64%nat (head (word_members w)).
Proof.
  unfold trailing_zeros, word_members. rewrite find_filter. by destruct (head _).
Qed.

Lemma len_spec w : len w = match list.last (word_members w) with Some i => S i | None => O end.
Proof.
  unfold len, leading_zeros. rewrite find_rev_filter. fold (word_members w).
  destruct (list.last (word_members w)) as [i|] eqn:El; [|done].
  apply last_Some_elem_of, word_members_spec in El. lia.
Qed.

Lemma word_members_lt w i : i ∈ word_members w -> (i < 64)%nat.
Proof. intros H. apply word_members_spec in H. lia. Qed.

Lemma seq_split i n : (i < n)%nat -> seq 0 n = seq 0 i ++ i :: seq (S i) (n - S i).
Proof.
  intros Hi. change (i :: seq (S i) (n - S i)) with (seq i (S (n - S i))).
  etransitivity; [|apply (seq_app i (S (n - S i)) 0)]. f_equal. lia.
Qed.

(** The lowest member. *)
Lemma head_lowest w t :
  head (word_members w) = Some t <->
  (t < 64)%nat /\ bit_of w t = true /\ forall i, (i < t)%nat -> bit_of w i = false.
Proof.
  assert (Hback : (t < 64)%nat /\ bit_of w t = true /\ (forall i, (i < t)%nat -> bit_of w i = false) ->
    head (word_members w) = Some t).
  { intros (Ht & Hb & Hl). unfold word_members. rewrite (seq_split t 64) by done.
    rewrite filter_app, filter_none, filter_cons_True by
      (done || (intros x Hx; apply elem_of_seq in Hx; rewrite Hl by lia; done)). done. }
  split; [|done]. intros H.
  assert (Hin : t ∈ word_members w) by (destruct (word_members w); simpl in H; simplify_eq; set_solver).
  apply word_members_spec in Hin as [Ht Hb]. split_and!; [done..|].
  destruct (List.find (bit_of w) (seq 0 t)) as [j|] eqn:Ef.
  - unfold word_members in H. rewrite (seq_split t 64), filter_app in H by done.
    rewrite find_filter in Ef. destruct (filter _ (seq 0 t)) as [|y l] eqn:El; [done|].
    simpl in H. injection H as ->. assert (Hy : t ∈ seq 0 t).
    { assert (t ∈ t :: l) as Hy by set_solver. rewrite <- El in Hy.
      by apply list_elem_of_filter in Hy as [_ Hy]. }
    apply elem_of_seq in Hy. lia.
  - intros i Hi. apply (List.find_none _ _ Ef). apply list_elem_of_In, elem_of_seq. lia.
Qed.

(** [w - 1] agrees with [w] above the lowest set bit and differs from it there. *)
Lemma pred_bits w t i :
  (t < 64)%nat -> bit_of w t = true -> (forall j, (j < t)%nat -> bit_of w j = false) ->
  (t <= i)%nat -> bit_of (w - 1) i = bit_of w i && negb (i =? t)%nat.
Proof.
  intros Ht Hb Hl Hi. unfold bit_of in *. set (m := 2 ^ (Z.of_nat t + 1)).
  assert (Hp : 0 < 2 ^ Z.of_nat t) by lia.
  assert (Hp1 : m = 2 * 2 ^ Z.of_nat t) by (unfold m; rewrite Z.pow_add_r by lia; lia).
  assert (Hmod : w mod m = 2 ^ Z.of_nat t).
  { apply Z.bits_inj'. intros n Hn. rewrite Z.pow2_bits_eqb by lia.
    destruct (decide (n < Z.of_nat t + 1)) as [Hlt|Hlt].
    - unfold m. rewrite Z.mod_pow2_bits_low by lia. destruct (decide (n = Z.of_nat t)) as [->|Hne].
      + by rewrite Z.eqb_refl.
      + rewrite (proj2 (Z.eqb_neq _ _)) by lia. specialize (Hl (Z.to_nat n)).
        rewrite Z2Nat.id in Hl by lia. apply Hl. lia.
    - unfold m. rewrite Z.mod_pow2_bits_high by lia. symmetry. apply Z.eqb_neq. lia. }
  assert (Hw : w = m * (w / m) + 2 ^ Z.of_nat t) by (rewrite <- Hmod; apply Z.div_mod; lia).
  assert (Hdiv : (w - 1) / m = w / m)
    by (symmetry; apply Z.div_unique_pos with (2 ^ Z.of_nat t - 1); lia).
  destruct (Nat.eqb_spec i t) as [->|Hne]; cbn [negb].
  - rewrite andb_false_r. rewrite <- (Z.mod_pow2_bits_low (w - 1) (Z.of_nat t + 1)) by lia.
    fold m. replace ((w - 1) mod m) with (Z.ones (Z.of_nat t)).
    + apply Z.ones_spec_high. lia.
    + rewrite Z.ones_equiv. apply Z.mod_unique_pos with (w / m); lia.
  - rewrite andb_true_r.
    replace (Z.of_nat i) with (Z.of_nat i - (Z.of_nat t + 1) + (Z.of_nat t + 1)) by lia.
    rewrite <- !Z.div_pow2_bits by lia. fold m. by rewrite Hdiv.
Qed.

(** The step of the iterator removes the lowest member. *)
Lemma clear_lowest w t l :
  word_ok w -> word_members w = t :: l ->
  word_ok (Z.land w (w - 1)) /\ word_members (Z.land w (w - 1)) = l.
Proof.
  intros Hw Hm.
  assert (Hh : head (word_members w) = Some t) by (by rewrite Hm).
  apply head_lowest in Hh as (Ht & Hb & Hl).
  assert (Hbits : forall i, bit_of (Z.land w (w - 1)) i = bit_of w i && negb (i =? t)%nat).
  { intros i. unfold bit_of at 1. rewrite Z.land_spec. fold (bit_of w i) (bit_of (w - 1) i).
    destruct (decide (t <= i)%nat) as [Hi|Hi].
    - rewrite (pred_bits w t i) by done. by destruct (bit_of w i), (negb _).
    - rewrite (Hl i) by lia. done. }
  split.
  - apply word_of_bits; [intros i Hi; by rewrite Hbits, bit_high|].
    apply Z.land_nonneg. left. by destruct Hw.
  - unfold word_members in *. rewrite (seq_split t 64), filter_app in Hm |- * by done.
    rewrite filter_none in Hm by (intros x Hx; apply elem_of_seq in Hx; rewrite Hl by lia; done).
    rewrite filter_cons_True in Hm by done. simpl in Hm. injection Hm as <-.
    rewrite filter_none.
    2: { intros x Hx. apply elem_of_seq in Hx. rewrite Hbits, Hl by lia. done. }
    rewrite filter_cons_False by (rewrite Hbits, Nat.eqb_refl, andb_false_r; done). simpl.
    apply filter_ext_in. intros x Hx. apply elem_of_seq in Hx.
    rewrite Hbits, (proj2 (Nat.eqb_neq x t)) by lia. by rewrite andb_true_r.
Qed.

Lemma word_members_length w : (length (word_members w) <= 64)%nat.
Proof.
  unfold word_members. etransitivity; [apply length_filter|]. by rewrite length_seq.
Qed.

Lemma word_bits_spec fuel w off :
  word_ok w -> (length (word_members w) < fuel)%nat ->
  word_bits fuel w off = map (Nat.add off) (word_members w).
Proof.
  revert w. induction fuel as [|fuel IH]; intros w Hw Hf; [lia|]. cbn [word_bits].
  rewrite trailing_zeros_spec. destruct (word_members w) as [|t l] eqn:Em; [done|].
  change (default 64%nat (head (t :: l))) with t. cbv zeta. assert (Ht : t ∈ word_members w) by (rewrite Em; set_solver).
  apply word_members_lt in Ht. rewrite (proj2 (Nat.eqb_neq t 64)) by lia.
  destruct (clear_lowest w t l Hw Em) as [Hok Hl]. simpl. f_equal.
  rewrite IH; [by rewrite Hl|done|]. rewrite Hl. simpl in Hf. lia.
Qed.

(** ** Members of a word array *)

Lemma filter_map {A B} (f : A -> B) (P : B -> Prop) `{Hd : !forall x, Decision (P x)} (l : list A) :
  filter P (map f l) = map f (filter (fun x => P (f x)) l).
Proof.
  induction l as [|x l IH]; [done|]. simpl. rewrite !filter_cons. rewrite IH.
  by destruct (decide (P (f x))).
Qed.

Lemma mem_cons_low w ws i : (i < 64)%nat -> mem (w :: ws) i = bit_of w i.
Proof.
  intros Hi. unfold mem. rewrite Nat.div_small, Nat.mod_small by done. done.
Qed.

Lemma mem_cons_high w ws i : mem (w :: ws) (64 + i) = mem ws i.
Proof.
  unfold mem. change (64 + i)%nat with (1 * 64 + i)%nat. rewrite Nat.div_add_l by done.
  rewrite (Nat.add_comm (1 * 64)), Nat.Div0.mod_add. done.
Qed.

Lemma members_cons w ws : members (w :: ws) = word_members w ++ map (Nat.add 64) (members ws).
Proof.
  unfold members, N_BITS. cbn [length]. change (S (length ws) * 64)%nat with (64 + length ws * 64)%nat.
  rewrite seq_app, filter_app. apply (f_equal2 app).
  - apply filter_ext_in. intros i Hi. apply elem_of_seq in Hi. by rewrite mem_cons_low by lia.
  - rewrite <- (fmap_add_seq 64 0). change (0 + 64)%nat with 64%nat.
    rewrite (filter_map (Nat.add 64)). f_equal. apply filter_ext_in. intros i _.
    by rewrite mem_cons_high.
Qed.

Lemma mem_out self i : (length self * 64 <= i)%nat -> mem self i = false.
Proof.
  intros Hi. unfold mem. rewrite lookup_ge_None_2; [done|]. apply Nat.div_le_lower_bound; lia.
Qed.

Lemma members_spec self i : i ∈ members self <-> mem self i = true.
Proof.
  unfold members. rewrite list_elem_of_filter, elem_of_seq. unfold N_BITS. split; [by intros []|].
  intros H. split; [done|]. destruct (decide (length self * 64 <= i)%nat); [|lia].
  rewrite mem_out in H by done. done.
Qed.

(** [bits] enumerates exactly the members, in increasing order. *)
Lemma bits_from_spec self k :
  wf self -> bits_from self k = map (Nat.add (k * 64)) (members self).
Proof.
  intros Hw. revert k. induction Hw as [|w ws Hw _ IH]; intros k; [done|]. cbn [bits_from].
  rewrite members_cons, map_app, IH, word_bits_spec by
    (done || (pose proof (word_members_length w); lia)).
  f_equal. rewrite map_map. apply map_ext. intros i. lia.
Qed.

Lemma bits_spec self : wf self -> bits self = members self.
Proof.
  intros Hw. unfold bits. rewrite bits_from_spec by done. rewrite <- (map_id (members self)) at 2.
  by apply map_ext.
Qed.

(** ** Searches *)

Lemma head_map {A B} (f : A -> B) l : head (map f l) = option_map f (head l).
Proof. by destruct l. Qed.

Lemma last_map {A B} (f : A -> B) l : list.last (map f l) = option_map f (list.last l).
Proof. induction l as [|x [|y l] IH]; [done..|]. exact IH. Qed.

Lemma first_set_spec self : wf self -> first_set self = head (members self).
Proof.
  intros Hw. unfold first_set.
  assert (H : forall k, first_set_from self k = option_map (Nat.add (64 * k)) (head (members self))).
  { induction Hw as [|w ws Hw _ IH]; intros k; [done|]. cbn [first_set_from].
    rewrite trailing_zeros_spec, members_cons. destruct (word_members w) as [|t l] eqn:Em.
    - simpl. rewrite IH, head_map. destruct (head (members ws)); simpl; [|done]. f_equal. lia.
    - simpl. assert (Ht : t ∈ word_members w) by (rewrite Em; set_solver).
      apply word_members_lt in Ht. rewrite (proj2 (Nat.eqb_neq t 64)) by lia. done. }
  rewrite H. by destruct (head (members self)).
Qed.

Lemma is_empty_spec self : wf self -> is_empty self = bool_decide (members self = []).
Proof.
  intros Hw. induction Hw as [|w ws Hw _ IH]; [done|]. cbn [is_empty forallb].
  fold (is_empty ws). rewrite IH, members_cons. pose proof (word_members_nil w Hw) as Hnil.
  destruct (decide (word_members w = [])) as [E|E].
  - rewrite (proj2 (Z.eqb_eq w 0)) by tauto. rewrite E. simpl. apply bool_decide_ext.
    destruct (members ws); done.
  - rewrite (proj2 (Z.eqb_neq w 0)) by tauto. simpl. symmetry. apply bool_decide_eq_false_2.
    destruct (word_members w); done.
Qed.

Lemma count_ones_spec self : count_ones self = length (members self).
Proof.
  induction self as [|w ws IH]; [done|]. rewrite members_cons, length_app, length_map.
  unfold count_ones in *. simpl. by rewrite IH.
Qed.

Lemma members_app a b :
  members (a ++ b) = members a ++ map (Nat.add (length a * 64)) (members b).
Proof.
  induction a as [|w a IH]; simpl app.
  - simpl. symmetry. apply map_id.
  - rewrite !members_cons, IH, map_app, map_map, <- app_assoc. do 2 f_equal.
Qed.

Lemma members_snoc a w :
  members (a ++ [w]) = members a ++ map (Nat.add (length a * 64)) (word_members w).
Proof. rewrite members_app, members_cons. by rewrite app_nil_r. Qed.

(** The topmost member of a word, as [last_set] and [intersection_top] compute it. *)
Lemma last_snoc_word a w :
  word_ok w ->
  list.last (members (a ++ [w])) =
    if w =? 0 then list.last (members a) else Some (length a * 64 + (len w - 1))%nat.
Proof.
  intros Hw. rewrite members_snoc. pose proof (word_members_nil w Hw) as Hn. rewrite len_spec.
  destruct (Z.eqb_spec w 0) as [E|E].
  - rewrite (proj2 Hn E). by rewrite app_nil_r.
  - rewrite last_app, last_map. destruct (list.last (word_members w)) as [t|] eqn:El; simpl.
    + f_equal. lia.
    + apply last_None in El. tauto.
Qed.

Lemma last_set_at_spec self k :
  wf self -> (k < length self)%nat ->
  last_set_at self k = Done (list.last (members (take (S k) self))).
Proof.
  intros Hw. induction k as [|k IH]; intros Hk;
    (destruct (lookup_lt_is_Some_2 self _ Hk) as [w Ew];
     rewrite (take_S_r _ _ _ Ew), last_snoc_word by (by eapply Forall_lookup_1);
     cbn [last_set_at]; unfold index; rewrite Ew; simpl; destruct (w =? 0)).
  - done.
  - done.
  - apply IH. lia.
  - rewrite length_take_le by lia. done.
Qed.

Lemma last_set_spec self :
  wf self -> self <> [] -> last_set self = Done (list.last (members self)).
Proof.
  intros Hw Hne. unfold last_set. destruct (length self) as [|n] eqn:El.
  - by apply nil_length_inv in El.
  - rewrite last_set_at_spec by (done || lia). by rewrite <- El, take_ge by lia.
Qed.

Lemma top_of_spec ws : wf ws -> top_of (rev (imap pair ws)) = list.last (members ws).
Proof.
  induction ws as [|w ws IH] using rev_ind; [done|]. intros Hw.
  apply Forall_app in Hw as [Hws Hw]. apply (proj1 (Forall_singleton word_ok w)) in Hw.
  rewrite imap_app, rev_app_distr. simpl. rewrite last_snoc_word, IH by done.
  by rewrite Nat.add_0_r.
Qed.

(** The least member from a given bit on. *)
Lemma next_word_spec ws k :
  wf ws -> next_word ws k = option_map (Nat.add (k * 64)) (head (members ws)).
Proof.
  intros Hw. revert k. induction Hw as [|w ws Hw _ IH]; intros k; [done|]. cbn [next_word].
  rewrite trailing_zeros_spec, members_cons. pose proof (word_members_nil w Hw) as Hn.
  destruct (Z.eqb_spec w 0) as [E|E].
  - rewrite (proj2 Hn E), IH. simpl. rewrite head_map. destruct (head (members ws)); simpl; [|done].
    f_equal. lia.
  - destruct (word_members w); [tauto|]. done.
Qed.

(** ** Membership after each operation *)

Lemma mem_div self k b : (b < 64)%nat ->
  mem self (k * 64 + b) = match self !! k with Some w => bit_of w b | None => false end.
Proof.
  intros Hb. unfold mem. replace ((k * 64 + b) / 64)%nat with k by ndlia.
  by replace ((k * 64 + b) mod 64)%nat with b by ndlia.
Qed.

Lemma split_index i : exists k b, i = (k * 64 + b)%nat /\ (b < 64)%nat.
Proof. exists (i / 64)%nat, (i mod 64)%nat. ndlia. Qed.

Lemma wf_lookup self k w : wf self -> self !! k = Some w -> word_ok w.
Proof. intros. by eapply Forall_lookup_1. Qed.

Lemma wf_insert self k w : wf self -> word_ok w -> wf (<[k := w]> self).
Proof. apply Forall_insert. Qed.

Lemma mem_insert self k w i :
  (k < length self)%nat ->
  mem (<[k := w]> self) i = if decide (i / 64 = k)%nat then bit_of w (i mod 64) else mem self i.
Proof.
  intros Hk. unfold mem. case_decide as E.
  - subst k. by rewrite list_lookup_insert_eq.
  - by rewrite list_lookup_insert_ne.
Qed.

Lemma set_spec self bit :
  wf self -> (bit < N_BITS (length self))%nat ->
  exists self', set self bit = Done self' /\ wf self' /\ length self' = length self /\
    forall i, mem self' i = bool_decide (i = bit) || mem self i.
Proof.
  unfold N_BITS. intros Hw Hb. assert (Hk : (word_idx bit < length self)%nat) by (unfold word_idx; ndlia).
  destruct (lookup_lt_is_Some_2 self _ Hk) as [w Ew].
  exists (<[word_idx bit := Z.lor w (subword_idx bit)]> self). split_and!.
  - unfold set, index. rewrite Ew. simpl. by apply store_in.
  - apply wf_insert; [done|]. apply lor_ok; [by eapply wf_lookup|apply subword_ok].
  - apply length_insert.
  - intros i. rewrite mem_insert by done. unfold word_idx in *. case_decide as E.
    + unfold bit_of. rewrite Z.lor_spec. fold (bit_of w (i mod 64)) (bit_of (subword_idx bit) (i mod 64)).
      rewrite subword_spec by ndlia. unfold mem. rewrite E, Ew, orb_comm. f_equal.
      apply bool_decide_ext. ndlia.
    + rewrite bool_decide_eq_false_2; [done|]. by intros ->.
Qed.

Lemma clear_spec self bit :
  wf self -> (bit < N_BITS (length self))%nat ->
  exists self', clear self bit = Done self' /\ wf self' /\ length self' = length self /\
    forall i, mem self' i = negb (bool_decide (i = bit)) && mem self i.
Proof.
  unfold N_BITS. intros Hw Hb. assert (Hk : (word_idx bit < length self)%nat) by (unfold word_idx; ndlia).
  destruct (lookup_lt_is_Some_2 self _ Hk) as [w Ew].
  exists (<[word_idx bit := Z.land w (not_w 64 (subword_idx bit))]> self). split_and!.
  - unfold clear, index. cbv zeta. rewrite Ew. simpl. by apply store_in.
  - apply wf_insert; [done|]. apply land_ok; [by eapply wf_lookup|apply not_ok, subword_ok].
  - apply length_insert.
  - intros i. rewrite mem_insert by done. unfold word_idx in *. case_decide as E.
    + unfold bit_of. rewrite Z.land_spec. fold (bit_of w (i mod 64)) (bit_of (not_w 64 (subword_idx bit)) (i mod 64)).
      rewrite not_spec, subword_spec by ndlia. unfold mem. rewrite E, Ew, andb_comm. do 2 f_equal.
      apply bool_decide_ext. ndlia.
    + rewrite bool_decide_eq_false_2; [done|]. by intros ->.
Qed.

Lemma test_spec self bit :
  wf self -> (bit < N_BITS (length self))%nat -> test self bit = Done (mem self bit).
Proof.
  unfold N_BITS. intros Hw Hb. assert (Hk : (word_idx bit < length self)%nat) by (unfold word_idx; ndlia).
  destruct (lookup_lt_is_Some_2 self _ Hk) as [w Ew]. unfold test, index, mem.
  unfold word_idx in *. rewrite Ew. cbn [mbind outcome_bind unwrap].
  unfold mret, outcome_ret. apply (f_equal Done).
  assert (Hok : word_ok (Z.land w (subword_idx bit)))
    by (apply land_ok; [by eapply wf_lookup|apply subword_ok]).
  assert (Hb' : forall j, (j < 64)%nat -> bit_of (Z.land w (subword_idx bit)) j =
    bit_of w j && bool_decide (j = bit mod 64)%nat).
  { intros j Hj. unfold bit_of at 1. rewrite Z.land_spec. fold (bit_of w j) (bit_of (subword_idx bit) j).
    by rewrite subword_spec. }
  destruct (bit_of w (bit mod 64)) eqn:Eb.
  - apply negb_true_iff, Z.eqb_neq. intros E0. specialize (Hb' (bit mod 64)%nat ltac:(ndlia)).
    rewrite E0, Eb, bool_decide_eq_true_2 in Hb' by done. unfold bit_of in Hb'.
    rewrite Z.testbit_0_l in Hb'. done.
  - apply negb_false_iff, Z.eqb_eq. apply word_ext; [done|by vm_compute|]. intros j Hj.
    rewrite Hb' by done. unfold bit_of at 2. rewrite Z.testbit_0_l.
    case_bool_decide; [subst j; by rewrite Eb|by rewrite andb_false_r].
Qed.

Lemma out_of_range self bit :
  (N_BITS (length self) <= bit)%nat -> set self bit = Panic /\ clear self bit = Panic /\ test self bit = Panic
    /\ next_set self bit = Panic.
Proof.
  unfold N_BITS. intros H. unfold set, clear, test, next_set, index, word_idx. cbv zeta.
  rewrite (lookup_ge_None_2 self) by ndlia. done.
Qed.

(** ** Bitwise operations *)

Lemma mem_zip (f : Z -> Z -> Z) (g : bool -> bool -> bool) a b i :
  (forall x y j, (j < 64)%nat -> bit_of (f x y) j = g (bit_of x j) (bit_of y j)) ->
  g false false = false ->
  length a = length b -> mem (zip_with f a b) i = g (mem a i) (mem b i).
Proof.
  intros Hf Hg Hl. unfold mem. rewrite lookup_zip_with.
  destruct (a !! (i / 64)%nat) as [x|] eqn:Ea; cbn [mbind option_bind].
  - apply lookup_lt_Some in Ea. destruct (lookup_lt_is_Some_2 b (i / 64)%nat) as [y Ey]; [lia|].
    rewrite Ey. cbn [mbind option_bind]. apply Hf. ndlia.
  - apply lookup_ge_None in Ea. by rewrite (lookup_ge_None_2 b) by lia.
Qed.

Lemma mem_intersect a b i :
  length a = length b -> mem (intersect_inplace a b) i = mem a i && mem b i.
Proof. apply (mem_zip Z.land andb); [|done]. intros. apply Z.land_spec. Qed.

Lemma mem_union a b i :
  length a = length b -> mem (union_inplace a b) i = mem a i || mem b i.
Proof. apply (mem_zip Z.lor orb); [|done]. intros. apply Z.lor_spec. Qed.

Lemma mem_invert a i :
  (i < N_BITS (length a))%nat -> mem (invert_inplace a) i = negb (mem a i).
Proof.
  unfold N_BITS, mem, invert_inplace. intros Hi. rewrite (list_lookup_fmap (not_w 64) a).
  destruct (lookup_lt_is_Some_2 a (i / 64)%nat) as [w ->]; [ndlia|]. cbn [fmap option_fmap option_map].
  apply not_spec. ndlia.
Qed.

Lemma wf_zip (f : Z -> Z -> Z) a b :
  (forall x y, word_ok x -> word_ok y -> word_ok (f x y)) -> wf a -> wf b -> wf (zip_with f a b).
Proof.
  intros Hf Ha. revert b. induction Ha as [|x a Hx _ IH]; intros [|y b] Hb; [by constructor..|].
  apply Forall_cons in Hb as [Hy Hb]. constructor; [by apply Hf|by apply IH].
Qed.

Lemma wf_intersect a b : wf a -> wf b -> wf (intersect_inplace a b).
Proof. apply wf_zip. apply land_ok. Qed.

Lemma wf_invert a : wf a -> wf (invert_inplace a).
Proof. intros Ha. apply Forall_fmap. eapply Forall_impl; [exact Ha|]. intros w. apply not_ok. Qed.

(** Members of a set whose membership is a restriction of another one's. *)
Lemma members_restrict (P : nat -> Prop) `{Hd : !forall i, Decision (P i)} a b :
  length a = length b -> (forall i, (i < N_BITS (length a))%nat -> mem a i = bool_decide (P i) && mem b i) ->
  members a = filter P (members b).
Proof.
  intros Hl H. unfold members. rewrite <- Hl, list_filter_filter. apply filter_ext_in. intros i Hi.
  apply elem_of_seq in Hi. rewrite H by lia. rewrite andb_true_iff, bool_decide_eq_true. done.
Qed.

(** ** Rank *)

Lemma rank_mask_length n_words n : length (build_rank_mask n_words n) = n_words.
Proof. unfold build_rank_mask. by rewrite length_map, length_seq. Qed.

Lemma rank_mask_mem n_words n i :
  (i < N_BITS n_words)%nat -> mem (build_rank_mask n_words n) i = bool_decide (i <= n)%nat.
Proof.
  unfold N_BITS. intros Hi. unfold mem, build_rank_mask.
  rewrite (list_lookup_fmap (fun i => mask_word i n)), lookup_seq_lt by ndlia. cbn [fmap option_fmap option_map].
  unfold mask_word. cbv zeta. case_decide; [|case_decide].
  - rewrite max_bits by ndlia. symmetry. apply bool_decide_eq_true_2. ndlia.
  - unfold bit_of. rewrite Z.testbit_0_l. symmetry. apply bool_decide_eq_false_2. ndlia.
  - rewrite low_mask_spec. apply bool_decide_ext. ndlia.
Qed.

Lemma rank_mask_wf n_words n : wf (build_rank_mask n_words n).
Proof.
  apply Forall_fmap, Forall_forall. intros i _. unfold compose, mask_word. cbv zeta.
  case_decide; [apply max_ok|]. case_decide; [by vm_compute|]. apply low_mask_ok. ndlia.
Qed.

Lemma intersect_length a b : length a = length b -> length (intersect_inplace a b) = length b.
Proof. intros. unfold intersect_inplace. rewrite length_zip_with. lia. Qed.

Lemma masked_members self n :
  members (intersect_inplace (build_rank_mask (length self) n) self) =
  filter (fun i => (i <= n)%nat) (members self).
Proof.
  apply members_restrict; rewrite intersect_length by apply rank_mask_length; [done|].
  intros i Hi. rewrite mem_intersect by apply rank_mask_length. by rewrite rank_mask_mem.
Qed.

(** ** The least member from a bit on *)

Lemma shr_bits w n j : bit_of (unbounded_shr64 w n) j = bool_decide (n < 64)%nat && bit_of w (n + j).
Proof.
  unfold unbounded_shr64, bit_of. case_decide as H.
  - rewrite (bool_decide_eq_true_2 (n < 64)%nat) by done. rewrite Z.shiftr_spec by lia.
    cbn [andb]. f_equal. lia.
  - rewrite (bool_decide_eq_false_2 (n < 64)%nat) by done. apply Z.testbit_0_l.
Qed.

Lemma shl_bits w n j :
  (j < 64)%nat -> bit_of (unbounded_shl64 w n) j = bool_decide (n <= j)%nat && bit_of w (j - n).
Proof.
  intros Hj. unfold unbounded_shl64, bit_of. case_decide as H.
  - unfold U64. rewrite Z.mod_pow2_bits_low by lia. case_bool_decide as Hn.
    + rewrite Z.shiftl_spec by lia. cbn [andb]. f_equal. lia.
    + rewrite Z.shiftl_spec_low by lia. done.
  - rewrite (bool_decide_eq_false_2 (n <= j)%nat) by lia. apply Z.testbit_0_l.
Qed.

Lemma shr_ok w n : word_ok w -> word_ok (unbounded_shr64 w n).
Proof.
  intros Hw. apply word_of_bits.
  - intros i Hi. rewrite shr_bits. rewrite (bit_high w) by (done || lia). apply andb_false_r.
  - unfold unbounded_shr64. case_decide; [|done]. apply Z.shiftr_nonneg. by destruct Hw.
Qed.

Lemma shl_ok w n : word_ok (unbounded_shl64 w n).
Proof. unfold unbounded_shl64. case_decide; [apply Z.mod_pos_bound|]; by vm_compute. Qed.

Lemma head_filter_seq (f : nat -> bool) a n :
  match head (filter (fun i => f i = true) (seq a n)) with
  | Some t => (a <= t < a + n)%nat /\ f t = true /\ forall i, (a <= i < t)%nat -> f i = false
  | None => forall i, (a <= i < a + n)%nat -> f i = false
  end.
Proof.
  revert a. induction n as [|n IH]; intros a; [simpl; lia|]. cbn [seq]. rewrite filter_cons.
  case_decide as Ha.
  - simpl. split_and!; [lia..|done|lia].
  - apply not_true_is_false in Ha. specialize (IH (S a)). destruct (head _) as [t|].
    + destruct IH as (Ht & Hft & Hi). split_and!; [lia..|done|]. intros i Hlt.
      destruct (decide (i = a)) as [->|]; [done|]. apply Hi. lia.
    + intros i Hlt. destruct (decide (i = a)) as [->|]; [done|]. apply IH. lia.
Qed.

Lemma least_head self : least self 0 (head (members self)).
Proof.
  pose proof (head_filter_seq (mem self) 0 (N_BITS (length self))) as H. fold (members self) in H.
  unfold least. destruct (head (members self)) as [t|].
  - destruct H as (Ht & Hm & Hi). split_and!; [lia|done|]. intros i Hlt. apply Hi. lia.
  - intros i _. destruct (decide (i < N_BITS (length self))%nat); [apply H; lia|].
    apply mem_out. unfold N_BITS in *. lia.
Qed.

Lemma mem_drop self k i : mem (drop k self) i = mem self (k * 64 + i).
Proof.
  unfold mem. rewrite lookup_drop. replace ((k * 64 + i) / 64)%nat with (k + i / 64)%nat by ndlia.
  by replace ((k * 64 + i) mod 64)%nat with (i mod 64)%nat by ndlia.
Qed.

Lemma least_drop self k bit o :
  (bit <= k * 64)%nat -> (forall i, (bit <= i < k * 64)%nat -> mem self i = false) ->
  least (drop k self) 0 o -> least self bit (option_map (Nat.add (k * 64)) o).
Proof.
  intros Hk Hlow H. destruct o as [t|]; simpl in H |- *.
  - destruct H as (_ & Ht & Hi). rewrite mem_drop in Ht. split_and!; [lia|done|].
    intros i Hlt. destruct (decide (i < k * 64)%nat); [apply Hlow; lia|].
    specialize (Hi (i - k * 64)%nat). rewrite mem_drop in Hi.
    replace (k * 64 + (i - k * 64))%nat with i in Hi by lia. apply Hi. lia.
  - intros i Hi. destruct (decide (i < k * 64)%nat); [apply Hlow; lia|].
    specialize (H (i - k * 64)%nat ltac:(lia)). rewrite mem_drop in H.
    by replace (k * 64 + (i - k * 64))%nat with i in H by lia.
Qed.

Lemma wf_drop self k : wf self -> wf (drop k self).
Proof. apply Forall_drop. Qed.

Lemma next_set_least self bit :
  wf self -> (bit < N_BITS (length self))%nat ->
  exists o, next_set self bit = Done o /\ least self bit o.
Proof.
  unfold N_BITS. intros Hw Hbit. destruct (split_index bit) as (k & b & Ebit & Hb).
  assert (Ek : word_idx bit = k) by (unfold word_idx; ndlia).
  destruct (lookup_lt_is_Some_2 self k) as [w Ew]; [lia|].
  assert (Hwo : word_ok w) by (by eapply wf_lookup).
  assert (Hm : forall j, (j < 64)%nat -> mem self (k * 64 + j) = bit_of w j)
    by (intros j Hj; rewrite mem_div by done; by rewrite Ew).
  unfold next_set. cbv zeta. rewrite Ek. unfold index. rewrite Ew. cbn [mbind outcome_bind unwrap].
  rewrite land63. replace (bit mod 64)%nat with b by ndlia.
  pose proof (shr_ok w b Hwo) as Hf. pose proof (word_members_nil _ Hf) as Hnil.
  eexists; split; [reflexivity|]. destruct (Z.eqb_spec (unbounded_shr64 w b) 0) as [E|E]; cbn [negb].
  - rewrite next_word_spec by (by apply wf_drop). apply least_drop; [lia| |apply least_head].
    intros i Hi. replace i with (k * 64 + (i - k * 64))%nat by lia. rewrite Hm by lia.
    pose proof (shr_bits w b (i - k * 64 - b)) as Hbit'. rewrite E in Hbit'.
    rewrite bool_decide_eq_true_2 in Hbit' by lia. unfold bit_of at 1 in Hbit'.
    rewrite Z.testbit_0_l in Hbit'. simpl in Hbit'. rewrite Hbit'. f_equal. lia.
  - rewrite trailing_zeros_spec. destruct (head (word_members _)) as [t|] eqn:Eh.
    2: { destruct (word_members _); [tauto|done]. }
    apply head_lowest in Eh as (_ & Ht & Hlow). rewrite shr_bits in Ht.
    apply andb_true_iff in Ht as [_ Ht].
    assert (b + t < 64)%nat as Hbt.
    { apply not_ge. intros Hge. rewrite bit_high in Ht by (done || lia). done. }
    cbn [least default from_option id]. subst bit. split_and!; [lia| |].
    + rewrite <- Nat.add_assoc, Hm by lia. done.
    + intros i Hi. replace i with (k * 64 + (b + (i - k * 64 - b)))%nat by lia. rewrite Hm by lia.
      specialize (Hlow (i - k * 64 - b)%nat ltac:(lia)). rewrite shr_bits in Hlow.
      by rewrite bool_decide_eq_true_2 in Hlow by lia.
Qed.

(** ** Shifts *)

(** The word the left shift computes for the source word [j]. *)
Definition shl_word (self : Bitset) (shift_bits j : nat) : Z :=
  Z.lor (unbounded_shl64 (default 0 (self !! j)) shift_bits)
        (unbounded_shr64 (match j with O => 0 | S p => default 0 (self !! p) end) (64 - shift_bits)).

Definition shr_word (self : Bitset) (shift_bits j : nat) : Z :=
  Z.lor (unbounded_shr64 (default 0 (self !! j)) shift_bits)
        (unbounded_shl64 (default 0 (self !! S j)) (64 - shift_bits)).

Lemma shl_word_ext a b sb j :
  (forall i, (i <= j)%nat -> a !! i = b !! i) -> shl_word a sb j = shl_word b sb j.
Proof. intros H. unfold shl_word. rewrite (H j) by lia. destruct j; [done|]. by rewrite (H j) by lia. Qed.

(** The in-place loop reads only words it has not overwritten yet. *)
Lemma shl_loop_spec sw sb n self :
  (sw + n <= length self)%nat ->
  exists out, shl_loop self sw sb n = Done out /\ length out = length self /\
    forall k, out !! k = if decide (sw <= k < sw + n)%nat then Some (shl_word self sb (k - sw)) else self !! k.
Proof.
  revert self. induction n as [|n IH]; intros self Hn.
  - exists self. split_and!; [done..|]. intros k. rewrite decide_False; [done|lia].
  - cbn [shl_loop]. cbv zeta. unfold index. destruct (lookup_lt_is_Some_2 self n) as [w1 E1]; [lia|].
    assert (E2 : exists w2, match n with O => mret 0 | S p => unwrap (self !! p) end = Done w2 /\
      w2 = match n with O => 0 | S p => default 0 (self !! p) end).
    { destruct n as [|p]; [by eexists|]. destruct (lookup_lt_is_Some_2 self p) as [w2 E2]; [lia|].
      rewrite E2. by eexists. }
    destruct E2 as (w2 & -> & Hw2). rewrite E1. cbn [mbind outcome_bind unwrap].
    rewrite store_in by lia. cbn [mbind outcome_bind].
    assert (Ew : Z.lor (unbounded_shl64 w1 sb) (unbounded_shr64 w2 (64 - sb)) = shl_word self sb n).
    { unfold shl_word. rewrite E1, Hw2. done. }
    rewrite Ew. destruct (IH (<[(sw + n)%nat := shl_word self sb n]> self)) as (out & -> & Hl & Hk).
    { rewrite length_insert. lia. }
    exists out. rewrite length_insert in Hl. split_and!; [done..|]. intros k. rewrite Hk.
    destruct (decide (k = sw + n)%nat) as [->|Hne].
    + rewrite decide_False by lia. rewrite decide_True by lia. rewrite list_lookup_insert_eq by lia.
      do 2 f_equal. lia.
    + rewrite list_lookup_insert_ne by lia. destruct (decide (sw <= k < sw + n)%nat).
      * rewrite decide_True by lia. f_equal. apply shl_word_ext. intros i Hi.
        by rewrite list_lookup_insert_ne by lia.
      * by rewrite decide_False by lia.
Qed.

Lemma shr_word_ext a b sb j :
  (forall i, (j <= i)%nat -> a !! i = b !! i) -> shr_word a sb j = shr_word b sb j.
Proof. intros H. unfold shr_word. by rewrite (H j), (H (S j)) by lia. Qed.

Lemma shr_loop_spec sw sb n t self :
  (t + n + sw <= length self)%nat ->
  exists out, shr_loop self sw sb t n = Done out /\ length out = length self /\
    forall k, out !! k = if decide (t <= k < t + n)%nat then Some (shr_word self sb (k + sw)) else self !! k.
Proof.
  revert self t. induction n as [|n IH]; intros self t Hn.
  - exists self. split_and!; [done..|]. intros k. rewrite decide_False; [done|lia].
  - cbn [shr_loop]. cbv zeta. unfold index. destruct (lookup_lt_is_Some_2 self (t + sw)) as [w1 E1]; [lia|].
    rewrite E1. cbn [mbind outcome_bind unwrap]. rewrite store_in by lia. cbn [mbind outcome_bind].
    assert (Ew : Z.lor (unbounded_shr64 w1 sb) (unbounded_shl64 (default 0 (self !! S (t + sw))) (64 - sb)) =
      shr_word self sb (t + sw)) by (unfold shr_word; by rewrite E1).
    rewrite Ew. destruct (IH (<[t := shr_word self sb (t + sw)]> self) (S t)) as (out & -> & Hl & Hk).
    { rewrite length_insert. lia. }
    exists out. rewrite length_insert in Hl. split_and!; [done..|]. intros k. rewrite Hk.
    destruct (decide (k = t)) as [->|Hne].
    + rewrite decide_False by lia. rewrite decide_True by lia. by rewrite list_lookup_insert_eq by lia.
    + rewrite list_lookup_insert_ne by lia. destruct (decide (S t <= k < S t + n)%nat).
      * rewrite decide_True by lia. f_equal. apply shr_word_ext. intros i Hi.
        by rewrite list_lookup_insert_ne by lia.
      * by rewrite decide_False by lia.
Qed.

Lemma default_bits self k b : (b < 64)%nat -> bit_of (default 0 (self !! k)) b = mem self (k * 64 + b).
Proof.
  intros Hb. rewrite mem_div by done. destruct (self !! k); [done|]. unfold bit_of. apply Z.testbit_0_l.
Qed.

Lemma default_ok self k : wf self -> word_ok (default 0 (self !! k)).
Proof. intros Hw. destruct (self !! k) eqn:E; simpl; [by eapply wf_lookup|by vm_compute]. Qed.

Lemma shl_word_bits self sb j b :
  wf self -> (sb < 64)%nat -> (b < 64)%nat ->
  bit_of (shl_word self sb j) b = bool_decide (sb <= j * 64 + b)%nat && mem self (j * 64 + b - sb).
Proof.
  intros Hw Hs Hb. unfold shl_word, bit_of. rewrite Z.lor_spec.
  fold (bit_of (unbounded_shl64 (default 0 (self !! j)) sb) b).
  set (p := match j with O => 0 | S p => default 0 (self !! p) end).
  assert (Hp : word_ok p) by (destruct j; [by vm_compute|by apply default_ok]).
  fold (bit_of (unbounded_shr64 p (64 - sb)) b). rewrite shl_bits, shr_bits by done.
  destruct (decide (sb <= b)%nat) as [Hle|Hlt].
  - rewrite (bool_decide_eq_true_2 (sb <= b)%nat), (bool_decide_eq_true_2 (sb <= j * 64 + b)%nat) by lia.
    rewrite default_bits by lia. cbn [andb].
    rewrite (bit_high p) by (done || lia). rewrite andb_false_r, orb_false_r. f_equal. lia.
  - rewrite (bool_decide_eq_false_2 (sb <= b)%nat), (bool_decide_eq_true_2 (64 - sb < 64)%nat) by lia.
    cbn [andb orb]. unfold p. destruct j as [|j].
    + rewrite bool_decide_eq_false_2 by lia. unfold bit_of. apply Z.testbit_0_l.
    + rewrite bool_decide_eq_true_2 by lia. rewrite default_bits by lia. cbn [andb]. f_equal. lia.
Qed.

Lemma shr_word_bits self sb j b :
  wf self -> (sb < 64)%nat -> (b < 64)%nat -> bit_of (shr_word self sb j) b = mem self (j * 64 + b + sb).
Proof.
  intros Hw Hs Hb. unfold shr_word, bit_of. rewrite Z.lor_spec.
  fold (bit_of (unbounded_shr64 (default 0 (self !! j)) sb) b).
  fold (bit_of (unbounded_shl64 (default 0 (self !! S j)) (64 - sb)) b).
  rewrite shl_bits, shr_bits by done. rewrite (bool_decide_eq_true_2 (sb < 64)%nat) by done. cbn [andb].
  destruct (decide (sb + b < 64)%nat) as [Hlt|Hge].
  - rewrite default_bits by done. rewrite bool_decide_eq_false_2 by lia. rewrite orb_false_r. f_equal. lia.
  - rewrite (bit_high (default 0 (self !! j))) by (by apply default_ok || lia).
    rewrite bool_decide_eq_true_2 by lia. rewrite default_bits by lia. cbn [andb orb]. f_equal. lia.
Qed.

Lemma unbounded_shl_spec self rhs :
  wf self -> exists out, unbounded_shl self rhs = Done out /\ length out = length self /\
    forall i, (i < N_BITS (length self))%nat ->
      mem out i = bool_decide (rhs <= i)%nat && mem self (i - rhs).
Proof.
  intros Hw. unfold unbounded_shl, N_BITS. case_decide as Hr.
  - exists (EMPTY (length self)). unfold EMPTY. split_and!; [done|apply length_replicate|].
    intros i Hi. rewrite bool_decide_eq_false_2 by lia. unfold mem.
    rewrite lookup_replicate_2 by ndlia. unfold bit_of. apply Z.testbit_0_l.
  - cbv zeta. destruct (shl_loop_spec (rhs / 64) (rhs mod 64) (length self - rhs / 64) self)
      as (out & -> & Hl & Hk); [ndlia|].
    eexists; split; [reflexivity|]. rewrite length_app, length_replicate, length_drop.
    split; [ndlia|]. intros i Hi. destruct (split_index i) as (k & b & -> & Hb). rewrite mem_div by done.
    destruct (decide (k < rhs / 64)%nat) as [Hlt|Hge].
    + rewrite lookup_app_l by (by rewrite length_replicate). rewrite lookup_replicate_2 by done.
      rewrite bool_decide_eq_false_2 by ndlia. unfold bit_of. apply Z.testbit_0_l.
    + rewrite lookup_app_r by (rewrite length_replicate; lia). rewrite length_replicate, lookup_drop, Hk.
      rewrite decide_True by ndlia. rewrite shl_word_bits by (done || ndlia).
      f_equal; [apply bool_decide_ext; ndlia|f_equal; ndlia].
Qed.

Lemma unbounded_shr_spec self rhs :
  wf self -> exists out, unbounded_shr self rhs = Done out /\ length out = length self /\
    forall i, mem out i = mem self (i + rhs).
Proof.
  intros Hw. unfold unbounded_shr, N_BITS. case_decide as Hr.
  - exists (EMPTY (length self)). unfold EMPTY. split_and!; [done|apply length_replicate|].
    intros i. rewrite (mem_out self) by lia. unfold mem.
    destruct (replicate _ _ !! _) eqn:E; [|done]. apply lookup_replicate_1 in E as [-> _].
    unfold bit_of. apply Z.testbit_0_l.
  - cbv zeta. set (n := (length self - rhs / 64)%nat).
    destruct (shr_loop_spec (rhs / 64) (rhs mod 64) n 0 self) as (out & -> & Hl & Hk); [unfold n; ndlia|].
    eexists; split; [reflexivity|]. rewrite length_app, length_replicate, length_take.
    split; [unfold n; ndlia|]. intros i. destruct (split_index i) as (k & b & -> & Hb).
    rewrite mem_div by done. destruct (decide (k < n)%nat) as [Hlt|Hge].
    + rewrite lookup_app_l by (rewrite length_take; unfold n in *; lia). rewrite lookup_take_lt, Hk by done.
      rewrite decide_True by lia. rewrite shr_word_bits by (done || ndlia). f_equal. ndlia.
    + rewrite lookup_app_r by (rewrite length_take; unfold n in *; lia).
      rewrite (mem_out self) by (unfold n in *; ndlia).
      destruct (replicate _ _ !! _) eqn:E; [|done]. apply lookup_replicate_1 in E as [-> _].
      unfold bit_of. apply Z.testbit_0_l.
Qed.

Lemma intersects_spec self other :
  wf self -> wf other ->
  intersects self other = negb (bool_decide (members (intersect_inplace self other) = [])).
Proof.
  intros Hw Ho. rewrite <- is_empty_spec by (by apply wf_intersect). unfold intersects, is_empty, intersect_inplace.
  induction (zip_with Z.land self other) as [|w ws IH]; [done|]. simpl. rewrite IH. by destruct (w =? 0).
Qed.

Lemma bits_after_spec self n :
  wf self -> length self = 4%nat -> bits_after self n = filter (fun i => (n < i)%nat) (members self).
Proof.
  intros Hw H4. unfold bits_after. rewrite bits_spec by (apply wf_intersect; [apply wf_invert, rank_mask_wf|done]).
  assert (Hl : length (invert_inplace (build_rank_mask 4 n)) = length self)
    by (unfold invert_inplace; by rewrite length_map, rank_mask_length).
  apply members_restrict; rewrite intersect_length by done; [done|].
  intros i Hi. rewrite mem_intersect by done. f_equal. rewrite H4 in Hi.
  rewrite mem_invert by (by rewrite rank_mask_length). rewrite rank_mask_mem by done.
  rewrite <- bool_decide_not. apply bool_decide_ext. lia.
Qed.

Lemma with_bits_spec self l :
  wf self -> Forall (fun b => (b < N_BITS (length self))%nat) l ->
  exists out, with_bits self l = Done out /\ wf out /\ length out = length self /\
    forall i, mem out i = bool_decide (i ∈ l) || mem self i.
Proof.
  intros Hw Hl. revert self Hw Hl. induction l as [|b l IH]; intros self Hw Hl.
  - exists self. split_and!; [done..|]. intros i. by rewrite bool_decide_eq_false_2 by set_solver.
  - apply Forall_cons in Hl as [Hb Hl]. destruct (set_spec self b Hw Hb) as (s1 & E1 & Hw1 & Hl1 & Hm1).
    destruct (IH s1 Hw1) as (out & E & Hwo & Hlo & Hm); [by rewrite Hl1|].
    exists out. simpl. rewrite E1. simpl. split_and!; [done..|congruence|]. intros i. rewrite Hm, Hm1, orb_assoc.
    f_equal. rewrite <- bool_decide_or. apply bool_decide_ext. set_solver.
Qed.

Lemma wf_EMPTY n : wf (EMPTY n).
Proof. apply Forall_replicate. by vm_compute. Qed.

Lemma mem_EMPTY n i : mem (EMPTY n) i = false.
Proof.
  unfold mem, EMPTY. destruct (replicate _ _ !! _) eqn:E; [|done]. apply lookup_replicate_1 in E as [-> _].
  unfold bit_of. apply Z.testbit_0_l.
Qed.

Lemma from_iter_spec n_words l :
  Forall (fun b => (b < N_BITS n_words)%nat) l ->
  exists out, from_iter n_words l = Done out /\ length out = n_words /\
    forall i, mem out i = bool_decide (i ∈ l).
Proof.
  intros Hl. assert (He : length (EMPTY n_words) = n_words) by apply length_replicate.
  destruct (with_bits_spec (EMPTY n_words) l (wf_EMPTY _)) as (out & E & _ & Hlo & Hm); [by rewrite He|].
  exists out. split_and!; [done|congruence|]. intros i. by rewrite Hm, mem_EMPTY, orb_false_r.
Qed.

Lemma fill_words_spec out i n :
  if decide (n = O \/ i + n <= length out)%nat then
    exists out', fill_words out i n = Done out' /\ length out' = length out /\
      forall k, out' !! k = if decide (i <= k < i + n)%nat then Some u64_max else out !! k
  else fill_words out i n = Panic.
Proof.
  revert out i. induction n as [|n IH]; intros out i.
  - rewrite decide_True by lia. exists out. split_and!; [done..|]. intros k. by rewrite decide_False by lia.
  - cbn [fill_words]. unfold store. destruct (decide (i < length out)%nat) as [Hi|Hi].
    2: { rewrite decide_False by lia. done. }
    cbn [mbind outcome_bind]. specialize (IH (<[i := u64_max]> out) (S i)). rewrite length_insert in IH.
    destruct (decide (n = O \/ S i + n <= length out)%nat) as [Hn|Hn].
    + rewrite decide_True by lia. destruct IH as (out' & -> & Hl & Hk). exists out'. split_and!; [done..|].
      intros k. rewrite Hk. destruct (decide (k = i)) as [->|Hne].
      * rewrite decide_False by lia. rewrite decide_True by lia. by rewrite list_lookup_insert_eq.
      * rewrite list_lookup_insert_ne by done. destruct (decide (S i <= k < S i + n)%nat).
        -- by rewrite decide_True by lia.
        -- by rewrite decide_False by lia.
    + rewrite decide_False by lia. done.
Qed.

Lemma with_bits_upto_spec n_words bound :
  if decide (bound < N_BITS (S n_words))%nat then
    exists out, with_bits_upto n_words bound = Done out /\ length out = n_words /\
      forall i, (i < N_BITS n_words)%nat -> mem out i = bool_decide (i < bound)%nat
  else with_bits_upto n_words bound = Panic.
Proof.
  unfold with_bits_upto, N_BITS. cbv zeta. pose proof (fill_words_spec (replicate n_words 0) 0 (bound / 64)) as H.
  rewrite length_replicate in H. destruct (decide (bound < S n_words * 64)%nat) as [Hb|Hb].
  2: { rewrite decide_False in H by ndlia. by rewrite H. }
  rewrite decide_True in H by ndlia. destruct H as (out & -> & Hl & Hk). cbn [mbind outcome_bind].
  assert (Hout : forall i, (i < n_words * 64)%nat -> (i / 64 <> bound / 64)%nat ->
    mem out i = bool_decide (i < bound)%nat).
  { intros i Hi Hne. unfold mem. rewrite Hk. case_decide as Hd.
    - rewrite max_bits by ndlia. symmetry. apply bool_decide_eq_true_2. ndlia.
    - rewrite lookup_replicate_2 by ndlia. unfold bit_of. rewrite Z.testbit_0_l. symmetry.
      apply bool_decide_eq_false_2. ndlia. }
  case_decide as Hlt.
  - rewrite store_in by lia. eexists; split_and!; [reflexivity|by rewrite length_insert|].
    intros i Hi. rewrite mem_insert by lia. case_decide as Hd; [|by apply Hout].
    rewrite low_mask_spec. apply bool_decide_ext. ndlia.
  - exists out. split_and!; [done..|]. intros i Hi. apply Hout; [done|ndlia].
Qed.

Lemma with_bits_upto_wf n_words bound out : with_bits_upto n_words bound = Done out -> wf out.
Proof.
  unfold with_bits_upto. cbv zeta. pose proof (fill_words_spec (replicate n_words 0) 0 (bound / 64)) as H.
  case_decide; [|by rewrite H]. destruct H as (o & -> & Hl & Hk). cbn [mbind outcome_bind].
  assert (Ho : wf o).
  { apply Forall_lookup. intros k w. rewrite Hk. case_decide; [intros [= <-]; apply max_ok|]. intros [-> _]%lookup_replicate. done. }
  case_decide as Hd; [|by intros [= <-]]. unfold store. case_decide; [|done]. intros [= <-]. apply wf_insert; [done|]. apply low_mask_ok. ndlia.
Qed.

Lemma members_sorted b : StronglySorted lt (members b).
Proof.
  unfold members. generalize (N_BITS (length b)) 0%nat. intros n.
  induction n as [|n IH]; intros a; [constructor|]. cbn [seq]. rewrite filter_cons. case_decide; [|apply IH].
  constructor; [apply IH|]. apply Forall_forall. intros j Hj.
  apply list_elem_of_filter in Hj as [_ Hj]. apply elem_of_seq in Hj. lia.
Qed.

(** ** Main theorems *)

(** The searches and counts of a bit set compute what the sorted list of its members
    says: iteration yields it, [first_set] and [last_set] are its ends, [next_set] is the
    least member from a bit on, [count_ones] is its length, [rank(i)] counts the members up
    to and including [i], [bits_after(n)] keeps those above [n], and the topmost common
    member of two sets is the last member of their intersection. *)
Theorem bitset_searches (self other : Bitset) (i : nat) :
  wf self -> wf other -> length self = length other -> self <> [] ->
  bits self = members self /\
  first_set self = head (members self) /\
  last_set self = Done (list.last (members self)) /\
  ((i < N_BITS (length self))%nat -> exists o, next_set self i = Done o /\ least self i o) /\
  count_ones self = length (members self) /\
  rank self i = length (filter (fun j => (j <= i)%nat) (members self)) /\
  intersection_top self other =
    list.last (filter (fun j => mem other j = true) (members self)) /\
  is_empty self = bool_decide (members self = []) /\
  (length self = 4%nat -> bits_after self i = filter (fun j => (i < j)%nat) (members self)) /\
  (length self = 4%nat -> (i < 256)%nat -> rank256 self i = Done (rank self i)).
Proof.
  intros Hw Ho Hl Hne. split_and!.
  - by apply bits_spec.
  - by apply first_set_spec.
  - by apply last_set_spec.
  - by apply next_set_least.
  - apply count_ones_spec.
  - unfold rank. by rewrite count_ones_spec, masked_members.
  - unfold intersection_top. rewrite top_of_spec by (by apply wf_intersect). f_equal.
    apply members_restrict; [unfold intersect_inplace; rewrite length_zip_with; lia|].
    intros j _. rewrite (mem_zip Z.land andb) by (done || (intros; apply Z.land_spec)).
    rewrite andb_comm. f_equal. by destruct (mem other j).
  - by apply is_empty_spec.
  - by apply bits_after_spec.
  - intros H4 Hi. unfold rank256, rank. by rewrite decide_True, H4 by done.
Qed.

Lemma bitset_searches_witness :
  bits [5; 0; 2 ^ 63] = [0; 2; 191]%nat /\ rank [5; 0; 2 ^ 63] 2 = 2%nat /\
  intersection_top [5; 0; 2 ^ 63] [7; 0; 1] = Some 2%nat.
Proof.
  destruct (bitset_searches [5; 0; 2 ^ 63] [7; 0; 1] 2) as (Hb & _ & _ & _ & _ & Hr & Ht & _).
  - repeat constructor; by vm_compute.
  - repeat constructor; by vm_compute.
  - reflexivity.
  - discriminate.
  - rewrite Hb, Hr, Ht. vm_compute. repeat split.
Defined.

(** Updates act on membership as the set operations do, and an update, a test or a
    [next_set] outside the range of the set panics. *)
Theorem bitset_updates (self other : Bitset) (bit : nat) :
  wf self -> wf other -> length self = length other ->
  ((bit < N_BITS (length self))%nat ->
     test self bit = Done (mem self bit) /\
     (exists self', set self bit = Done self' /\ wf self' /\ length self' = length self /\
        forall i, mem self' i = bool_decide (i = bit) || mem self i) /\
     (exists self', clear self bit = Done self' /\ wf self' /\ length self' = length self /\
        forall i, mem self' i = negb (bool_decide (i = bit)) && mem self i)) /\
  ((N_BITS (length self) <= bit)%nat ->
     set self bit = Panic /\ clear self bit = Panic /\ test self bit = Panic /\ next_set self bit = Panic) /\
  (forall i, mem (union_inplace self other) i = mem self i || mem other i) /\
  (forall i, mem (intersect_inplace self other) i = mem self i && mem other i) /\
  (forall i, (i < N_BITS (length self))%nat -> mem (invert_inplace self) i = negb (mem self i)) /\
  intersects self other = negb (bool_decide (members (intersect_inplace self other) = [])).
Proof.
  intros Hw Ho Hl. split_and!.
  - intros Hb. split_and!; [by apply test_spec|by apply set_spec|by apply clear_spec].
  - apply out_of_range.
  - intros i. by apply mem_union.
  - intros i. by apply mem_intersect.
  - intros i. apply mem_invert.
  - by apply intersects_spec.
Qed.

Lemma bitset_updates_witness :
  exists self', set [1; 0] 70 = Done self' /\ mem self' 70 = true /\ mem self' 0 = true /\ mem self' 1 = false.
Proof.
  destruct (bitset_updates [1; 0] [0; 0] 70) as (H & _).
  - repeat constructor; by vm_compute.
  - repeat constructor; by vm_compute.
  - reflexivity.
  - destruct H as (_ & (self' & Hs & _ & _ & Hm) & _); [vm_compute; lia|].
    exists self'. rewrite !Hm. split; [exact Hs|]. vm_compute. repeat split.
Defined.

(** C34: both shifts move every member by the shift distance and drop what leaves the range,
    for any distance of the unbounded forms; the [<<] and [>>] operators agree with them
    below the width of the set and panic from there on. *)
Theorem bitset_shifts (self : Bitset) (rhs : nat) :
  wf self ->
  exists l r,
    unbounded_shl self rhs = Done l /\ unbounded_shr self rhs = Done r /\
    length l = length self /\ length r = length self /\
    (forall i, (i < N_BITS (length self))%nat -> mem l i = bool_decide (rhs <= i)%nat && mem self (i - rhs)) /\
    (forall i, mem r i = mem self (i + rhs)) /\
    shl self (Z.of_nat rhs) = (if decide (rhs < N_BITS (length self))%nat then Done l else Panic) /\
    shr self (Z.of_nat rhs) = (if decide (rhs < N_BITS (length self))%nat then Done r else Panic).
Proof.
  intros Hw. destruct (unbounded_shl_spec self rhs Hw) as (l & El & Hll & Hl).
  destruct (unbounded_shr_spec self rhs Hw) as (r & Er & Hlr & Hr).
  exists l, r. unfold shl, shr. rewrite Nat2Z.id, El, Er. rewrite (proj2 (Z.ltb_ge (Z.of_nat rhs) 0)) by lia.
  cbn [orb]. split_and!; try done; case_decide;
    (rewrite (proj2 (Z.leb_gt _ _)) by lia; done) || (rewrite (proj2 (Z.leb_le _ _)) by lia; done).
Qed.

Lemma bitset_shifts_witness : exists l, unbounded_shl [2 ^ 63; 0] 1 = Done l /\ mem l 64 = true.
Proof.
  destruct (bitset_shifts [2 ^ 63; 0] 1) as (l & r & El & _ & _ & _ & Hl & _).
  - repeat constructor; by vm_compute.
  - exists l. split; [exact El|]. rewrite Hl by (vm_compute; lia). reflexivity.
Defined.

(** [resize] returns its argument when the size does not change, its prefix when it
    shrinks, and panics whenever it should grow: the copy is made between slices of
    different lengths. *)
Theorem resize_grow_panics (self : Bitset) (m : nat) (empty_value : bool) :
  resize self m empty_value = if decide (m <= length self)%nat then Done (take m self) else Panic.
Proof.
  unfold resize. cbv zeta. rewrite length_replicate. destruct (decide (length self <= m)%nat).
  - rewrite length_take. destruct (decide (m <= length self)%nat).
    + replace m with (length self) by lia. by rewrite decide_True by lia.
    + by rewrite decide_False by lia.
  - rewrite length_take. rewrite !decide_True by lia. done.
Qed.

(** [with_bits_upto] holds exactly the bits below its bound, and collecting an iterator
    of indices gives the set of these indices.  The bound may exceed the width of the set
    by less than a word without a panic. *)
Theorem bitset_builders (n_words bound : nat) (l : list nat) :
  Forall (fun b => (b < N_BITS n_words)%nat) l ->
  (exists out, from_iter n_words l = Done out /\ length out = n_words /\
     forall i, mem out i = bool_decide (i ∈ l)) /\
  if decide (bound < N_BITS (S n_words))%nat then
    exists out, with_bits_upto n_words bound = Done out /\ length out = n_words /\
      forall i, (i < N_BITS n_words)%nat -> mem out i = bool_decide (i < bound)%nat
  else with_bits_upto n_words bound = Panic.
Proof.
  intros Hl. split; [by apply from_iter_spec|]. apply with_bits_upto_spec.
Qed.

Lemma bitset_builders_witness :
  exists out, from_iter 2 [3; 100]%nat = Done out /\ mem out 100 = true /\ mem out 4 = false.
Proof.
  destruct (bitset_builders 2 5 [3; 100]%nat) as [(out & E & _ & Hm) _].
  - repeat constructor; vm_compute; lia.
  - exists out. rewrite !Hm. split; [exact E|]. vm_compute. repeat split.
Defined.

End Bitset.
