(* ===== verification/Array256.v ===== *)
(** * Sparse arrays (ts_array256/src/lib.rs, ts_array256/src/storage.rs)

    A sparse array of 256 entries: a bit set of the occupied indices and a dense vector of
    their values in index order.  The position of an index in the vector is its rank in the
    bit set, minus one. *)

From Stdlib Require Import Sorting.Sorted.
From S2P Require Import Prelude Bitset.

(** ** The vector behind the array: [alloc::vec::Vec] *)

Module VecStorage.

(** [Vec::insert] panics past the end. *)
Definition vec_insert {T} (self : list T) (index : nat) (value : T) : outcome (list T) :=
  if decide (index <= length self)%nat then Done (take index self ++ value :: drop index self)
  else Panic.

(** [Vec::remove] panics out of range. *)
Definition vec_remove {T} (self : list T) (index : nat) : outcome (T * list T) :=
  match self !! index with
  | Some value => Done (value, take index self ++ drop (S index) self)
  | None => Panic
  end.

End VecStorage.

Module Array256.

Record Array256 (T : Type) : Type := mkArray { bitset : Bitset.Bitset; storage : list T }.
Arguments mkArray {T} _ _.
Arguments bitset {T} _.
Arguments storage {T} _.

Definition EMPTY {T} : Array256 T := mkArray (Bitset.EMPTY 4) [].

Section Ops.
Context {T : Type}.
Implicit Types self : Array256 T.

Definition test self (index : nat) : outcome bool := Bitset.test (bitset self) index.

Definition intersects self (other : Bitset.Bitset) : bool := Bitset.intersects (bitset self) other.

Definition intersection_top self (other : Bitset.Bitset) : option nat :=
  Bitset.intersection_top (bitset self) other.

Definition is_empty self : bool := Bitset.is_empty (bitset self).

Definition len self : nat := length (storage self).

(** [rank256(idx) - 1] underflows when no bit up to [idx] is set. *)
Definition storage_index self (idx : nat) : outcome nat :=
  r ← Bitset.rank256 (bitset self) idx;
  match r with O => Panic | S r => mret r end.

Definition get self (i : nat) : outcome (option T) :=
  occupied ← test self i;
  if occupied : bool then k ← storage_index self i; x ← index (storage self) k; mret (Some x)
  else mret None.

(** A write of [x] through the reference [get_mut] returns; [None] without an entry. *)
Definition get_mut_set self (i : nat) (x : T) : outcome (option (Array256 T)) :=
  occupied ← test self i;
  if occupied : bool then
    storage_index ← storage_index self i;
    s ← store (storage self) storage_index x;
    mret (Some (mkArray (bitset self) s))
  else mret None.

Definition insert self (i : nat) (element : T) : outcome (option T * Array256 T) :=
  occupied ← test self i;
  if occupied : bool then
    storage_idx ← storage_index self i;
    old ← index (storage self) storage_idx;
    s ← store (storage self) storage_idx element;
    mret (Some old, mkArray (bitset self) s)
  else
    b ← Bitset.set (bitset self) i;
    storage_idx ← storage_index (mkArray b (storage self)) i;
    s ← VecStorage.vec_insert (storage self) storage_idx element;
    mret (None, mkArray b s).

Definition remove self (i : nat) : outcome (option T * Array256 T) :=
  if decide (length (storage self) = O) then mret (None, self)
  else
    occupied ← test self i;
    if negb occupied then mret (None, self)
    else
      storage_idx ← storage_index self i;
      '(value, s) ← VecStorage.vec_remove (storage self) storage_idx;
      b ← Bitset.clear (bitset self) i;
      mret (Some value, mkArray b s).

Definition clear self : Array256 T := mkArray (Bitset.EMPTY 4) [].

Definition iter self : list (nat * T) := zip (Bitset.bits (bitset self)) (storage self).

Fixpoint fetch_all self (idxs : list nat) : outcome (list (nat * T)) :=
  match idxs with
  | [] => mret []
  | idx :: idxs =>
      k ← storage_index self idx; x ← index (storage self) k;
      rest ← fetch_all self idxs; mret ((idx, x) :: rest)
  end.

Definition iter_after self (n : nat) : outcome (list (nat * T)) :=
  fetch_all self (Bitset.bits_after (bitset self) n).

Definition clone_with self (f : T -> T) : Array256 T :=
  mkArray (bitset self) (map f (storage self)).

(** The [Index] operator. *)
Definition index_of self (i : nat) : outcome T := o ← get self i; unwrap o.

Fixpoint extend self (items : list (nat * T)) : outcome (Array256 T) :=
  match items with
  | [] => mret self
  | (addr, item) :: items => '(_, self) ← insert self addr item; extend self items
  end.

End Ops.

Definition from_iter {T} (items : list (nat * T)) : outcome (Array256 T) := extend EMPTY items.

(** ** Specification: a finite map on the indices below 256 *)

Section Spec.
Context {T : Type}.
Implicit Types self : Array256 T.

Record wf self : Prop := {
  wf_words : Bitset.wf (bitset self);
  wf_len : length (bitset self) = 4%nat;
  wf_storage : length (storage self) = length (Bitset.members (bitset self));
}.

Definition entries self : list (nat * T) := zip (Bitset.members (bitset self)) (storage self).
Definition amap self : gmap nat T := list_to_map (entries self).

Lemma filter_all {A} (P : A -> Prop) `{Hd : !forall x, Decision (P x)} (l : list A) :
  (forall x, x ∈ l -> P x) -> filter P l = l.
Proof.
  induction l as [|x l IH]; intros H; [done|]. rewrite filter_cons_True by (apply H; set_solver).
  f_equal. apply IH. set_solver.
Qed.

(** The members below and above an index. *)
Definition below (b : Bitset.Bitset) (i : nat) : list nat :=
  filter (fun j => Bitset.mem b j = true) (seq 0 i).
Definition above (b : Bitset.Bitset) (i : nat) : list nat :=
  filter (fun j => Bitset.mem b j = true) (seq (S i) (256 - S i)).

Lemma members_split b i :
  length b = 4%nat -> (i < 256)%nat ->
  Bitset.members b = below b i ++ (if Bitset.mem b i then [i] else []) ++ above b i.
Proof.
  intros Hl Hi. unfold Bitset.members. rewrite Hl. change (Bitset.N_BITS 4) with 256%nat.
  rewrite (Bitset.seq_split i 256) by done. rewrite filter_app, filter_cons. unfold below, above.
  by destruct (Bitset.mem b i); [rewrite decide_True|rewrite decide_False].
Qed.

Lemma below_lt b i j : j ∈ below b i -> (j < i)%nat.
Proof. unfold below. rewrite list_elem_of_filter, elem_of_seq. lia. Qed.

Lemma above_gt b i j : j ∈ above b i -> (i < j)%nat.
Proof. unfold above. rewrite list_elem_of_filter, elem_of_seq. lia. Qed.

Lemma below_ext b b' i :
  (forall j, j <> i -> Bitset.mem b j = Bitset.mem b' j) -> below b i = below b' i.
Proof. intros H. apply filter_ext_in. intros j Hj. apply elem_of_seq in Hj. rewrite H; [done|lia]. Qed.

Lemma above_ext b b' i :
  (forall j, j <> i -> Bitset.mem b j = Bitset.mem b' j) -> above b i = above b' i.
Proof. intros H. apply filter_ext_in. intros j Hj. apply elem_of_seq in Hj. rewrite H; [done|lia]. Qed.

Lemma rank_split b i :
  Bitset.wf b -> length b = 4%nat -> (i < 256)%nat ->
  Bitset.rank256 b i = Done (length (below b i) + if Bitset.mem b i then 1 else 0)%nat.
Proof.
  intros Hw Hl Hi. unfold Bitset.rank256. rewrite decide_True by done.
  replace (Bitset.build_rank_mask 4 i) with (Bitset.build_rank_mask (length b) i) by (by rewrite Hl).
  unfold mret, outcome_ret. f_equal. rewrite Bitset.count_ones_spec, Bitset.masked_members.
  rewrite (members_split b i) by done. rewrite !filter_app, !length_app.
  assert (Hb : filter (fun j => (j <= i)%nat) (below b i) = below b i).
  { apply filter_all. intros j Hj%below_lt. lia. }
  assert (Ha : filter (fun j => (j <= i)%nat) (above b i) = []).
  { apply filter_none. intros j Hj%above_gt. lia. }
  rewrite Hb, Ha. destruct (Bitset.mem b i); [rewrite filter_cons_True by lia|]; simpl; lia.
Qed.

(** The entries around an index [i]. *)
Definition around (lo hi : list nat) (slo shi : list T) : gmap nat T :=
  list_to_map (zip lo slo) ∪ list_to_map (zip hi shi).

Lemma list_to_map_zip_None (l : list nat) (s : list T) i :
  i ∉ l -> (list_to_map (zip l s) : gmap nat T) !! i = None.
Proof.
  intros Hi. apply not_elem_of_list_to_map_1. intros H. apply Hi.
  apply list_elem_of_fmap in H as [[k x] [-> H]]. by apply elem_of_zip_l in H.
Qed.

Lemma around_None b i slo shi : around (below b i) (above b i) slo shi !! i = None.
Proof.
  unfold around. rewrite lookup_union_None. split; apply list_to_map_zip_None.
  - intros H%below_lt. lia.
  - intros H%above_gt. lia.
Qed.

Lemma amap_in b i slo x shi :
  length b = 4%nat -> (i < 256)%nat -> Bitset.mem b i = true -> length slo = length (below b i) ->
  amap (mkArray b (slo ++ x :: shi)) = <[i := x]> (around (below b i) (above b i) slo shi).
Proof.
  intros Hl Hi Hm Hs. unfold amap, entries. simpl. rewrite (members_split b i), Hm by done.
  rewrite zip_with_app by done. simpl. rewrite list_to_map_app. simpl. unfold around.
  rewrite insert_union_r; [done|]. apply list_to_map_zip_None. intros H%below_lt. lia.
Qed.

Lemma amap_out b i slo shi :
  length b = 4%nat -> (i < 256)%nat -> Bitset.mem b i = false -> length slo = length (below b i) ->
  amap (mkArray b (slo ++ shi)) = around (below b i) (above b i) slo shi.
Proof.
  intros Hl Hi Hm Hs. unfold amap, entries. simpl. rewrite (members_split b i), Hm by done.
  simpl. rewrite zip_with_app by done. by rewrite list_to_map_app.
Qed.

(** The storage of a well-formed array, cut at an index. *)
Lemma storage_split self i :
  wf self -> (i < 256)%nat ->
  exists slo shi, length slo = length (below (bitset self) i) /\
    length shi = length (above (bitset self) i) /\
    if Bitset.mem (bitset self) i then exists x, storage self = slo ++ x :: shi
    else storage self = slo ++ shi.
Proof.
  intros [Hw Hl Hs] Hi. rewrite (members_split _ i), !length_app in Hs by done.
  set (n := length (below (bitset self) i)) in *.
  destruct (Bitset.mem (bitset self) i); simpl in Hs.
  - destruct (lookup_lt_is_Some_2 (storage self) n) as [x Hx]; [lia|].
    exists (take n (storage self)), (drop (S n) (storage self)).
    rewrite length_take, length_drop. split_and!; [lia..|]. exists x. by rewrite take_drop_middle.
  - exists (take n (storage self)), (drop n (storage self)).
    rewrite length_take, length_drop. split_and!; [lia..|]. by rewrite take_drop.
Qed.

Lemma test_eq self i : wf self -> (i < 256)%nat -> test self i = Done (Bitset.mem (bitset self) i).
Proof. intros [Hw Hl _] Hi. apply Bitset.test_spec; [done|]. rewrite Hl. exact Hi. Qed.

Lemma storage_index_eq self i :
  wf self -> (i < 256)%nat -> Bitset.mem (bitset self) i = true ->
  storage_index self i = Done (length (below (bitset self) i)).
Proof.
  intros [Hw Hl _] Hi Hm. unfold storage_index. rewrite rank_split, Hm by done.
  rewrite Nat.add_1_r. done.
Qed.

Lemma amap_eta self : amap self = amap (mkArray (bitset self) (storage self)).
Proof. by destruct self. Qed.

(** Occupancy is membership in the domain. *)
Lemma amap_occupied self i :
  wf self -> (i < 256)%nat -> Bitset.mem (bitset self) i = bool_decide (is_Some (amap self !! i)).
Proof.
  intros Hw Hi. destruct (storage_split self i Hw Hi) as (slo & shi & Hlo & _ & Hs).
  rewrite (amap_eta self). destruct (Bitset.mem (bitset self) i) eqn:Hm.
  - destruct Hs as [x ->]. rewrite (amap_in _ i) by (done || apply Hw). rewrite lookup_insert_eq.
    symmetry. by apply bool_decide_eq_true_2.
  - rewrite Hs, (amap_out _ i) by (done || apply Hw). rewrite around_None.
    symmetry. apply bool_decide_eq_false_2. by intros [].
Qed.

Lemma get_spec self i : wf self -> (i < 256)%nat -> get self i = Done (amap self !! i).
Proof.
  intros Hw Hi. destruct (storage_split self i Hw Hi) as (slo & shi & Hlo & _ & Hs).
  unfold get. rewrite test_eq by done. cbn [mbind outcome_bind].
  rewrite (amap_eta self). destruct (Bitset.mem (bitset self) i) eqn:Hm.
  - destruct Hs as [x Hs]. rewrite storage_index_eq by done. cbn [mbind outcome_bind]. rewrite Hs, (amap_in _ i) by (done || apply Hw).
    unfold index. rewrite list_lookup_middle by done. by rewrite lookup_insert_eq.
  - rewrite Hs, (amap_out _ i) by (done || apply Hw). by rewrite around_None.
Qed.

Lemma get_mut_set_spec self i x :
  wf self -> (i < 256)%nat ->
  match amap self !! i with
  | Some _ => exists self', get_mut_set self i x = Done (Some self') /\ wf self' /\
                amap self' = <[i := x]> (amap self)
  | None => get_mut_set self i x = Done None
  end.
Proof.
  intros Hw Hi. destruct (storage_split self i Hw Hi) as (slo & shi & Hlo & _ & Hs).
  pose proof (amap_occupied self i Hw Hi) as Ho. unfold get_mut_set. rewrite test_eq by done.
  cbn [mbind outcome_bind]. destruct (amap self !! i) eqn:Ea.
  - rewrite bool_decide_eq_true_2 in Ho by done. rewrite Ho in *. destruct Hs as [y Hs].
    rewrite storage_index_eq by done. cbn [mbind outcome_bind]. rewrite store_in.
    2: { rewrite Hs, length_app. simpl. lia. }
    eexists; split; [reflexivity|]. assert (Hst : <[length (below (bitset self) i) := x]> (storage self) = slo ++ x :: shi).
    { rewrite Hs, <- Hlo. by rewrite insert_app_r_alt, Nat.sub_diag by lia. }
    rewrite Hst. split.
    + destruct Hw as [Hwo Hl Hstor]. constructor; simpl; [done..|].
      rewrite <- Hstor, Hs, !length_app. done.
    + rewrite (amap_in _ i) by (done || apply Hw). rewrite (amap_eta self). rewrite Hs.
      rewrite (amap_in _ i) by (done || apply Hw). by rewrite insert_insert_eq.
  - rewrite bool_decide_eq_false_2 in Ho by (by intros []). by rewrite Ho.
Qed.

Lemma insert_spec self i x :
  wf self -> (i < 256)%nat ->
  exists self', insert self i x = Done (amap self !! i, self') /\ wf self' /\
    amap self' = <[i := x]> (amap self).
Proof.
  intros Hw Hi. destruct (storage_split self i Hw Hi) as (slo & shi & Hlo & Hhi & Hs).
  pose proof Hw as [Hwo Hl Hstor]. unfold insert. rewrite test_eq by done. cbn [mbind outcome_bind].
  destruct (Bitset.mem (bitset self) i) eqn:Hm.
  - destruct Hs as [y Hs]. rewrite storage_index_eq by done. cbn [mbind outcome_bind].
    assert (Ha : amap self = <[i := y]> (around (below (bitset self) i) (above (bitset self) i) slo shi)).
    { rewrite (amap_eta self). rewrite Hs. by apply amap_in. }
    unfold index. rewrite Hs, <- Hlo, list_lookup_middle by done. cbn [mbind outcome_bind unwrap].
    rewrite store_in by (rewrite length_app; simpl; lia). rewrite insert_app_r_alt, Nat.sub_diag by lia.
    eexists; split_and!.
    + rewrite Ha, lookup_insert_eq. reflexivity.
    + constructor; simpl; [done..|]. rewrite <- Hstor, Hs, !length_app. done.
    + simpl. rewrite (amap_in _ i) by done. by rewrite Ha, insert_insert_eq.
  - destruct (Bitset.set_spec (bitset self) i Hwo) as (b & Hb & Hwb & Hlb & Hmb); [rewrite Hl; exact Hi|].
    rewrite Hb. cbn [mbind outcome_bind].
    assert (Hmi : Bitset.mem b i = true) by (rewrite Hmb; by rewrite bool_decide_eq_true_2).
    assert (Hex : forall j, j <> i -> Bitset.mem b j = Bitset.mem (bitset self) j)
      by (intros j Hj; rewrite Hmb; by rewrite bool_decide_eq_false_2).
    unfold storage_index. cbn [bitset]. rewrite rank_split, Hmi by (done || congruence).
    rewrite Nat.add_1_r. cbn [mbind outcome_bind mret outcome_ret].
    assert (Ha : amap self = around (below (bitset self) i) (above (bitset self) i) slo shi).
    { rewrite (amap_eta self). rewrite Hs. by apply amap_out. }
    rewrite (below_ext b (bitset self)), <- Hlo by done.
    unfold VecStorage.vec_insert. rewrite decide_True by (rewrite Hs, length_app; lia).
    rewrite Hs, take_app_length, drop_app_length. cbn [mbind outcome_bind]. eexists; split_and!.
    + rewrite Ha, around_None. reflexivity.
    + constructor; simpl; [done|congruence|]. rewrite (members_split b i), Hmi by (done || congruence).
      rewrite (below_ext b (bitset self)), (above_ext b (bitset self)) by done.
      rewrite !length_app. simpl. lia.
    + rewrite (amap_in _ i) by (done || congruence || by rewrite (below_ext b (bitset self))).
      by rewrite (below_ext b (bitset self)), (above_ext b (bitset self)), Ha by done.
Qed.

Lemma remove_spec self i :
  wf self -> (i < 256)%nat ->
  exists self', remove self i = Done (amap self !! i, self') /\ wf self' /\
    amap self' = base.delete i (amap self).
Proof.
  intros Hw Hi. destruct (storage_split self i Hw Hi) as (slo & shi & Hlo & Hhi & Hs).
  pose proof Hw as [Hwo Hl Hstor]. pose proof (amap_occupied self i Hw Hi) as Ho.
  assert (Hnone : amap self !! i = None -> exists self', Done (None, self) = Done (amap self !! i, self') /\
    wf self' /\ amap self' = base.delete i (amap self)).
  { intros Hn. exists self. rewrite Hn. split_and!; [done..|]. by rewrite delete_id. }
  unfold remove. case_decide as H0.
  { apply Hnone. apply nil_length_inv in H0. unfold amap, entries. rewrite H0, zip_with_nil_r. done. }
  rewrite test_eq by done. cbn [mbind outcome_bind]. destruct (Bitset.mem (bitset self) i) eqn:Hm; cbn [negb].
  2: { apply Hnone. symmetry in Ho. apply bool_decide_eq_false_1 in Ho.
    destruct (amap self !! i); [|done]. exfalso. eauto. }
  destruct Hs as [y Hs]. rewrite storage_index_eq by done. cbn [mbind outcome_bind].
  assert (Ha : amap self = <[i := y]> (around (below (bitset self) i) (above (bitset self) i) slo shi)).
  { rewrite (amap_eta self). rewrite Hs. by apply amap_in. }
  unfold VecStorage.vec_remove. rewrite Hs, <- Hlo, list_lookup_middle by done. cbn [mbind outcome_bind].
  destruct (Bitset.clear_spec (bitset self) i Hwo) as (b & Hb & Hwb & Hlb & Hmb); [rewrite Hl; exact Hi|].
  assert (Hmi : Bitset.mem b i = false) by (rewrite Hmb; by rewrite bool_decide_eq_true_2).
  assert (Hex : forall j, j <> i -> Bitset.mem b j = Bitset.mem (bitset self) j)
    by (intros j Hj; rewrite Hmb; by rewrite bool_decide_eq_false_2).
  rewrite Hb. cbn [mbind outcome_bind]. rewrite take_app_length.
  replace (drop (S (length slo)) (slo ++ y :: shi)) with shi
    by (rewrite drop_app_ge by lia; by rewrite Nat.sub_succ_l, Nat.sub_diag by lia).
  eexists; split_and!.
  - rewrite Ha, lookup_insert_eq. reflexivity.
  - constructor; simpl; [done|congruence|]. rewrite (members_split b i), Hmi by (done || congruence).
    rewrite (below_ext b (bitset self)), (above_ext b (bitset self)) by done.
    rewrite !length_app. simpl. lia.
  - rewrite (amap_out _ i) by (done || congruence || by rewrite (below_ext b (bitset self))).
    rewrite (below_ext b (bitset self)), (above_ext b (bitset self)), Ha by done.
    rewrite delete_insert_id; [done|]. apply around_None.
Qed.

Lemma members_NoDup b : NoDup (Bitset.members b).
Proof. apply NoDup_filter, NoDup_seq. Qed.

Lemma entries_fst self : wf self -> (entries self).*1 = Bitset.members (bitset self).
Proof. intros [_ _ Hs]. unfold entries. apply fst_zip. lia. Qed.

Lemma array_len_spec self : wf self -> len self = size (amap self).
Proof.
  intros Hw. unfold len, amap. rewrite <- size_dom, dom_list_to_map, size_list_to_set.
  - rewrite entries_fst by done. apply Hw.
  - rewrite entries_fst by done. apply members_NoDup.
Qed.

Lemma iter_spec self : wf self -> iter self = entries self.
Proof. intros [Hw _ _]. unfold iter, entries. by rewrite Bitset.bits_spec. Qed.

Lemma entries_lookup self i x : wf self -> (i, x) ∈ entries self <-> amap self !! i = Some x.
Proof.
  intros Hw. unfold amap. apply elem_of_list_to_map. rewrite entries_fst by done. apply members_NoDup.
Qed.

Lemma members_amap self i : wf self -> i ∈ Bitset.members (bitset self) <-> is_Some (amap self !! i).
Proof.
  intros Hw. rewrite <- (entries_fst self Hw). split.
  - intros H. apply list_elem_of_fmap in H as [[k x] [-> H]]. apply entries_lookup in H; eauto.
  - intros [x H]. apply list_elem_of_fmap. exists (i, x). split; [done|]. by apply entries_lookup.
Qed.

Lemma array_wf_EMPTY : wf (@EMPTY T).
Proof. constructor; [|done..]. repeat constructor; by vm_compute. Qed.

Lemma amap_EMPTY : amap (@EMPTY T) = ∅.
Proof. reflexivity. Qed.

Lemma array_is_empty_spec self : wf self -> is_empty self = bool_decide (amap self = ∅).
Proof.
  intros Hw. unfold is_empty. rewrite Bitset.is_empty_spec by apply Hw. apply bool_decide_ext. split.
  - intros E. unfold amap, entries. by rewrite E.
  - intros E. destruct (Bitset.members (bitset self)) as [|i l] eqn:Em; [done|].
    assert (Hi : i ∈ Bitset.members (bitset self)) by (rewrite Em; set_solver).
    apply members_amap in Hi as [x Hx]; [|done]. by rewrite E, lookup_empty in Hx.
Qed.

Lemma amap_lt self i x : wf self -> amap self !! i = Some x -> (i < 256)%nat.
Proof.
  intros Hw H. assert (Hi : i ∈ Bitset.members (bitset self)) by (apply members_amap; eauto).
  unfold Bitset.members in Hi. rewrite (wf_len _ Hw) in Hi. apply list_elem_of_filter in Hi as [_ Hi].
  apply elem_of_seq in Hi. change (Bitset.N_BITS 4) with 256%nat in Hi. lia.
Qed.

(** The only entry of an array of length one. *)
Lemma first_set_single self :
  wf self -> len self = 1%nat ->
  exists i x, Bitset.first_set (bitset self) = Some i /\ amap self = {[ i := x ]}.
Proof.
  intros Hw H1. rewrite Bitset.first_set_spec by apply Hw. pose proof (wf_storage _ Hw) as Hs.
  unfold len in H1. unfold amap, entries. destruct (storage self) as [|x [|]]; simpl in *; [lia| |lia].
  destruct (Bitset.members (bitset self)) as [|i [|]]; simpl in *; [lia| |lia]. by exists i, x.
Qed.

Lemma array_intersects_spec self other :
  wf self -> Bitset.wf other -> length other = 4%nat ->
  intersects self other = true <-> exists i, is_Some (amap self !! i) /\ Bitset.mem other i = true.
Proof.
  intros Hw Ho Hl. unfold intersects. rewrite Bitset.intersects_spec by (done || apply Hw).
  rewrite negb_true_iff, bool_decide_eq_false.
  assert (Hmem : forall i, i ∈ Bitset.members (Bitset.intersect_inplace (bitset self) other) <->
    is_Some (amap self !! i) /\ Bitset.mem other i = true).
  { intros i. rewrite Bitset.members_spec, Bitset.mem_intersect by (rewrite (wf_len _ Hw); done).
    rewrite andb_true_iff, <- members_amap by done. by rewrite Bitset.members_spec. }
  destruct (Bitset.members (Bitset.intersect_inplace (bitset self) other)) as [|i l].
  - split; [done|]. intros [i Hi]. apply Hmem in Hi. set_solver.
  - split; [|done]. intros _. exists i. apply Hmem. set_solver.
Qed.

Lemma intersection_top_spec self other :
  wf self -> Bitset.wf other -> length other = 4%nat ->
  intersection_top self other =
    list.last (filter (fun j => Bitset.mem other j = true) (Bitset.members (bitset self))).
Proof.
  intros Hw Ho Hl. unfold intersection_top, Bitset.intersection_top.
  rewrite Bitset.top_of_spec by (apply Bitset.wf_intersect; [apply Hw|done]). f_equal.
  apply Bitset.members_restrict.
  - rewrite length_zip_with, (wf_len _ Hw). lia.
  - intros j _. rewrite (Bitset.mem_zip Z.land andb); [|intros; apply Z.land_spec|done|by rewrite (wf_len _ Hw)].
    rewrite andb_comm. f_equal. by destruct (Bitset.mem other j).
Qed.

Lemma fetch_all_spec self l :
  wf self -> (forall i, i ∈ l -> is_Some (amap self !! i)) ->
  exists out, fetch_all self l = Done out /\ out.*1 = l /\
    forall i x, (i, x) ∈ out -> amap self !! i = Some x.
Proof.
  intros Hw. induction l as [|i l IH]; intros Hl.
  - exists []. split_and!; [done..|]. set_solver.
  - destruct IH as (out & Ho & Hf & Hx); [set_solver|]. destruct (Hl i) as [x Hi]; [set_solver|].
    pose proof (amap_lt _ _ _ Hw Hi) as Hlt. pose proof (get_spec self i Hw Hlt) as Hg.
    pose proof (amap_occupied self i Hw Hlt) as Hocc. rewrite bool_decide_eq_true_2 in Hocc by eauto.
    unfold get in Hg. rewrite test_eq, Hocc, Hi in Hg by done. cbn [mbind outcome_bind] in Hg.
    cbn [fetch_all]. destruct (storage_index self i) as [k|]; [|done]. cbn [mbind outcome_bind] in *.
    destruct (index (storage self) k) as [y|]; [|done]. cbn [mbind outcome_bind] in *.
    injection Hg as ->. rewrite Ho. exists ((i, x) :: out). split_and!; [done|cbn; f_equal; exact Hf|].
    intros j z Hj. apply elem_of_cons in Hj as [[= -> ->]|Hj]; [done|by apply Hx].
Qed.

Lemma iter_after_spec self n :
  wf self -> exists out, iter_after self n = Done out /\
    out.*1 = filter (fun i => (n < i)%nat) (Bitset.members (bitset self)) /\
    forall i x, (i, x) ∈ out -> amap self !! i = Some x.
Proof.
  intros Hw. unfold iter_after. rewrite Bitset.bits_after_spec by apply Hw.
  apply fetch_all_spec; [done|]. intros i Hi. apply list_elem_of_filter in Hi as [_ Hi].
  by apply members_amap.
Qed.

Lemma extend_spec self items :
  wf self -> Forall (fun '(i, _) => (i < 256)%nat) items ->
  exists self', extend self items = Done self' /\ wf self' /\
    amap self' = foldl (fun m '(i, x) => <[i := x]> m) (amap self) items.
Proof.
  intros Hw Hf. revert self Hw. induction Hf as [|[i x] items Hi _ IH]; intros self Hw; [eauto|].
  destruct (insert_spec self i x Hw Hi) as (s1 & E1 & Hw1 & Ha1). cbn [extend]. rewrite E1.
  cbn [mbind outcome_bind]. destruct (IH s1 Hw1) as (s2 & E2 & Hw2 & Ha2). exists s2.
  split_and!; [done..|]. by rewrite Ha2, Ha1.
Qed.

(** ** Main theorem *)

(** C31: a well-formed sparse array is a finite map on the indices below 256: reads, writes,
    insertions and removals never panic, keep it well formed, return what the map holds and
    change it as the map operations do; [len] counts its entries, [iter] lists them in
    increasing index order, and [iter_after] those above an index. *)
Theorem array256_refines_map self (i : nat) (x : T) :
  wf self -> (i < 256)%nat ->
  get self i = Done (amap self !! i) /\
  (exists self', insert self i x = Done (amap self !! i, self') /\ wf self' /\
     amap self' = <[i := x]> (amap self)) /\
  (exists self', remove self i = Done (amap self !! i, self') /\ wf self' /\
     amap self' = base.delete i (amap self)) /\
  (match amap self !! i with
   | Some _ => exists self', get_mut_set self i x = Done (Some self') /\ wf self' /\
                 amap self' = <[i := x]> (amap self)
   | None => get_mut_set self i x = Done None
   end) /\
  len self = size (amap self) /\
  is_empty self = bool_decide (amap self = ∅) /\
  StronglySorted lt (iter self).*1 /\
  (forall j y, (j, y) ∈ iter self <-> amap self !! j = Some y) /\
  exists out, iter_after self i = Done out /\ out.*1 = filter (fun j => (i < j)%nat) (iter self).*1 /\
    forall j y, (j, y) ∈ out -> amap self !! j = Some y.
Proof.
  intros Hw Hi. split_and!.
  - by apply get_spec.
  - by apply insert_spec.
  - by apply remove_spec.
  - by apply get_mut_set_spec.
  - by apply array_len_spec.
  - by apply array_is_empty_spec.
  - rewrite iter_spec, entries_fst by done. apply Bitset.members_sorted.
  - intros j y. rewrite iter_spec by done. by apply entries_lookup.
  - rewrite iter_spec, entries_fst by done. by apply iter_after_spec.
Qed.

End Spec.

(** The array holding 7 at index 3 and 8 at index 200, after inserting 9 at index 100. *)
Lemma array256_refines_map_witness :
  exists self', insert (mkArray [8; 0; 0; 256] [7; 8]) 100 9 = Done (None, self') /\
    amap self' = <[100%nat := 9]> {[ 3%nat := 7; 200%nat := 8 ]}.
Proof.
  assert (Ha : amap (mkArray [8; 0; 0; 256] [7; 8]) = {[ 3%nat := 7; 200%nat := 8 ]}) by (vm_compute; reflexivity).
  destruct (array256_refines_map (mkArray [8; 0; 0; 256] [7; 8]) 100 9) as (_ & (self' & E & _ & Hm) & _).
  - constructor; [repeat constructor; by vm_compute|reflexivity|vm_compute; reflexivity].
  - lia.
  - exists self'. rewrite E, Hm, Ha. split; [reflexivity|reflexivity].
Defined.
End Array256.
