(* ===== verification/BaseIndex.v ===== *)
(** * Base indices of the routing table (ts_bart/src/base_index.rs, allot.rs, lpm.rs)

    A base index numbers the prefixes of up to seven bits inside one octet.  Octets, prefix
    lengths and base indices are [u8] values, written as naturals below 256. *)

From Stdlib Require Import ZifyNat.
From S2P Require Import Prelude Bitset.

Module BaseIndex.

(** ** [u8] arithmetic *)

Definition unbounded_shr (x n : nat) : nat := if decide (n < 8)%nat then Nat.shiftr x n else 0%nat.
Definition unbounded_shl (x n : nat) : nat :=
  if decide (n < 8)%nat then (Nat.shiftl x n mod 256)%nat else 0%nat.

(** Checked addition and subtraction. *)
Definition add8 (x y : nat) : outcome nat := if decide (x + y < 256)%nat then Done (x + y)%nat else Panic.
Definition sub8 (x y : nat) : outcome nat := if decide (y <= x)%nat then Done (x - y)%nat else Panic.

Definition leading_zeros (x : nat) : nat := if decide (x = 0)%nat then 8%nat else (7 - Nat.log2 x)%nat.

(** ** [BaseIndex] *)

(** A [NonZeroU8]. *)
Abbreviation BaseIndex := nat.

Definition try_new (val : nat) : option BaseIndex := if decide (val = 0)%nat then None else Some val.
Definition new (val : nat) : outcome BaseIndex := unwrap (try_new val).

Definition from_prefix (octet prefix_len : nat) : outcome BaseIndex :=
  if decide (prefix_len <= 7)%nat then
    v ← add8 (unbounded_shr octet (8 - prefix_len)) (Nat.shiftl 1 prefix_len);
    new v
  else Panic.

Definition len (self : BaseIndex) : nat := (8 - leading_zeros self)%nat.

Definition prefix (self : BaseIndex) : outcome (nat * nat) :=
  pfx_len ← sub8 (len self) 1;
  shift_bits ← sub8 8 pfx_len;
  let mask := unbounded_shr 255 shift_bits in
  let octet := unbounded_shl (Nat.land self mask) shift_bits in
  mret (octet, pfx_len).

(** The [debug_assert!] is kept as a check. *)
Definition from_pfx_7 (octet : nat) : outcome BaseIndex :=
  v ← add8 128 (unbounded_shr octet 1);
  ret ← new v;
  p ← prefix ret;
  if decide (snd p = 7)%nat then mret ret else Panic.

Definition prefix_bits (self : BaseIndex) (depth : nat) : outcome nat :=
  pfx_len_in_stride ← sub8 (len self) 1;
  add8 ((depth * 8) mod 256) pfx_len_in_stride.

Definition net_mask (bits : nat) : outcome nat :=
  if decide (bits <= 8)%nat then mret (unbounded_shl 255 (8 - bits)) else Panic.

(** The inclusive range of the octets an index covers. *)
Definition range (self : BaseIndex) : outcome (nat * nat) :=
  '(first, pfx_len) ← prefix self;
  m ← net_mask pfx_len;
  mret (first, Nat.lor first (255 - m)).

Definition cmp_rank (self other : BaseIndex) : outcome comparison :=
  '(a_octet, a_bits) ← prefix self;
  '(b_octet, b_bits) ← prefix other;
  mret (match Nat.compare a_octet b_octet with Eq => Nat.compare a_bits b_bits | c => c end).

Definition parent (self : BaseIndex) : outcome (option BaseIndex) :=
  if decide (self = 1)%nat then mret None else p ← new (self / 2)%nat; mret (Some p).

Definition children (self : BaseIndex) : outcome (option (BaseIndex * BaseIndex)) :=
  if decide (128 <= self)%nat then mret None
  else l ← new (self * 2)%nat; r ← new (self * 2 + 1)%nat; mret (Some (l, r)).

(** ** Longest-prefix-match sets *)

Fixpoint lpm_loop (fuel : nat) (entry : Bitset.Bitset) (j : nat) : outcome Bitset.Bitset :=
  match fuel with
  | O => Panic
  | S fuel =>
      if decide (0 < j)%nat then
        entry ← Bitset.set entry j;
        lpm_loop fuel entry (unbounded_shr j 1)
      else mret entry
  end.

(** At most eight bits are shifted out of a [u8]. *)
Definition lpm_entry (i : nat) : outcome Bitset.Bitset := lpm_loop 9 (Bitset.EMPTY 4) i.

Definition lpm (index : BaseIndex) : outcome Bitset.Bitset := lpm_entry index.

(** ** Allotment sets *)

Fixpoint allot_loop (fuel : nat) (stack : list nat) (len i : nat) (pfx fringe : Bitset.Bitset)
    : outcome (Bitset.Bitset * Bitset.Bitset) :=
  match fuel with
  | O => Panic
  | S fuel =>
      if decide (i < len)%nat then
        j ← index stack i;
        let i := S i in
        pf ← (if decide (j < 256)%nat then pfx ← Bitset.set pfx j; mret (pfx, fringe)
              else fringe ← Bitset.set fringe (j mod 256); mret (pfx, fringe));
        if decide (256 <= j)%nat then allot_loop fuel stack len i (fst pf) (snd pf)
        else
          stack ← store stack len (j * 2)%nat;
          stack ← store stack (len + 1) (j * 2 + 1)%nat;
          allot_loop fuel stack (len + 2) i (fst pf) (snd pf)
      else mret (pfx, fringe)
  end.

(** Every index below 512 is pushed at most once, so 512 iterations end the loop. *)
Definition entry (idx : nat) : outcome (Bitset.Bitset * Bitset.Bitset) :=
  allot_loop 513 (idx :: replicate 511 0%nat) 1 0 (Bitset.EMPTY 4) (Bitset.EMPTY 4).

Definition allot_prefix (index : BaseIndex) : outcome Bitset.Bitset :=
  match entry index with Done (pfx, _) => Done pfx | Panic => Panic end.
Definition allot_fringe (index : BaseIndex) : outcome Bitset.Bitset :=
  match entry index with Done (_, fringe) => Done fringe | Panic => Panic end.

(** ** Specification: prefixes as bit strings, most significant bit first *)

Definition octet_bits (o : nat) : list bool := map (fun i => Nat.testbit o (7 - i)) (seq 0 8).

(** The base index of a bit string: its binary number after a leading one. *)
Definition idx (k : list bool) : nat := fold_left (fun a b => (2 * a + Nat.b2n b)%nat) k 1%nat.

(** The octet a bit string starts. *)
Definition octet_of (k : list bool) : nat :=
  fold_left (fun a b => (2 * a + Nat.b2n b)%nat) (k ++ replicate (8 - length k) false) 0%nat.

Lemma idx_snoc k b : idx (k ++ [b]) = (2 * idx k + Nat.b2n b)%nat.
Proof. unfold idx. by rewrite fold_left_app. Qed.

Lemma idx_bounds k : (2 ^ length k <= idx k < 2 * 2 ^ length k)%nat.
Proof.
  induction k as [|b k IH] using rev_ind; [cbn; lia|]. rewrite idx_snoc, length_app. cbn [length].
  rewrite Nat.add_1_r, Nat.pow_succ_r'. destruct b; cbn [Nat.b2n]; lia.
Qed.

Lemma idx_pos k : (0 < idx k)%nat.
Proof. pose proof (idx_bounds k). pose proof (Nat.pow_nonzero 2 (length k)). lia. Qed.

Lemma idx_lt k n : (length k < n)%nat -> (idx k < 2 ^ n)%nat.
Proof.
  intros H. pose proof (idx_bounds k). assert (2 ^ S (length k) <= 2 ^ n)%nat by (apply Nat.pow_le_mono_r; lia).
  rewrite Nat.pow_succ_r' in *. lia.
Qed.

Lemma idx_inj k k' : idx k = idx k' -> k = k'.
Proof.
  revert k'. induction k as [|b k IH] using rev_ind; intros k' H.
  - destruct k' as [|b' k' _] using rev_ind; [done|]. rewrite idx_snoc in H. pose proof (idx_pos k'). cbn in H. lia.
  - destruct k' as [|b' k' _] using rev_ind.
    + rewrite idx_snoc in H. pose proof (idx_pos k). cbn in H. lia.
    + rewrite !idx_snoc in H. assert (b = b') as -> by (destruct b, b'; cbn [Nat.b2n] in H; lia || done).
      f_equal. apply IH. lia.
Qed.

Lemma idx_div2 k b : (idx (k ++ [b]) / 2 = idx k)%nat.
Proof. rewrite idx_snoc. rewrite Nat.mul_comm, Nat.div_add_l by done. destruct b; cbn; lia. Qed.

Lemma octet_bits_length o : length (octet_bits o) = 8%nat.
Proof. done. Qed.

(** Facts on single octets, checked for all of them. *)
Lemma octet_check (P : nat -> bool) :
  forallb P (seq 0 256) = true -> forall o, (o < 256)%nat -> P o = true.
Proof.
  intros H o Ho. rewrite forallb_forall in H. apply H. apply in_seq. lia.
Qed.

Lemma octet_of_bits o : (o < 256)%nat -> octet_of (octet_bits o) = o.
Proof.
  intros Ho. apply Nat.eqb_eq. revert o Ho.
  apply (octet_check (fun o => octet_of (octet_bits o) =? o)%nat). vm_compute. reflexivity.
Qed.

Lemma octet_bits_of k : length k = 8%nat -> octet_bits (octet_of k) = k /\ (octet_of k < 256)%nat.
Proof.
  do 9 (destruct k as [|[] k]; try discriminate); intros _; vm_compute; (split; [reflexivity|lia]).
Qed.

Lemma octet_bits_pad k :
  (length k <= 8)%nat -> octet_bits (octet_of k) = k ++ replicate (8 - length k) false /\ (octet_of k < 256)%nat.
Proof.
  intros Hk. assert (Hl : length (k ++ replicate (8 - length k) false) = 8%nat)
    by (rewrite length_app, length_replicate; lia).
  replace (octet_of k) with (octet_of (k ++ replicate (8 - length k) false)); [by apply octet_bits_of|].
  unfold octet_of. rewrite Hl. by rewrite Nat.sub_diag, app_nil_r.
Qed.

Lemma from_prefix_spec o l :
  (o < 256)%nat -> (l < 8)%nat -> from_prefix o l = Done (idx (take l (octet_bits o))).
Proof.
  intros Ho Hl.
  assert (H : (fun o => forallb (fun l => match from_prefix o l with
    Done i => (i =? idx (take l (octet_bits o)))%nat | Panic => false end) (seq 0 8)) o = true).
  { revert o Ho. apply octet_check. vm_compute. reflexivity. }
  cbn beta in H. rewrite forallb_forall in H. specialize (H l). destruct (from_prefix o l).
  - rewrite (proj1 (Nat.eqb_eq _ _) (H ltac:(apply in_seq; lia))). done.
  - discriminate H. apply in_seq. lia.
Qed.

Lemma from_pfx_7_spec o : (o < 256)%nat -> from_pfx_7 o = Done (idx (take 7 (octet_bits o))).
Proof.
  intros Ho.
  assert (H : (fun o => match from_pfx_7 o with
    Done i => (i =? idx (take 7 (octet_bits o)))%nat | Panic => false end) o = true).
  { revert o Ho. apply octet_check. vm_compute. reflexivity. }
  cbn beta in H. destruct (from_pfx_7 o); [|done]. by apply Nat.eqb_eq in H as ->.
Qed.

(** The bit string of an index. *)
Definition key_of (i : nat) : list bool :=
  match prefix i with Done (o, l) => take l (octet_bits o) | Panic => [] end.

Lemma idx_key_of i : (0 < i < 256)%nat -> idx (key_of i) = i /\ (length (key_of i) < 8)%nat.
Proof.
  intros Hi. assert (H : (fun i => (i =? 0) || (idx (key_of i) =? i) && (length (key_of i) <? 8))%nat i = true).
  { revert Hi. intros [_ Hi]. revert i Hi. apply octet_check. vm_compute. reflexivity. }
  cbn beta in H. apply orb_true_iff in H as [H|H]; [apply Nat.eqb_eq in H; lia|].
  apply andb_true_iff in H as [H1%Nat.eqb_eq H2%Nat.ltb_lt]. done.
Qed.

Lemma key_of_idx k : (length k < 8)%nat -> key_of (idx k) = k.
Proof.
  intros Hk. apply idx_inj. apply idx_key_of. pose proof (idx_pos k). pose proof (idx_lt k 8 Hk).
  change (2 ^ 8)%nat with 256%nat in *. lia.
Qed.

(** A property of all bit strings of less than eight bits, from its check on the indices. *)
Lemma key_check (P : list bool -> bool) :
  forallb (fun i => P (key_of i)) (seq 1 255) = true -> forall k, (length k < 8)%nat -> P k = true.
Proof.
  intros H k Hk. rewrite forallb_forall in H. rewrite <- (key_of_idx k Hk). apply H. apply in_seq.
  pose proof (idx_pos k). pose proof (idx_lt k 8 Hk). change (2 ^ 8)%nat with 256%nat in *. lia.
Qed.

(** [k] starts [k']. *)
Fixpoint prefixb (k k' : list bool) : bool :=
  match k, k' with
  | [], _ => true
  | b :: k, b' :: k' => eqb b b' && prefixb k k'
  | _ :: _, [] => false
  end.

Lemma prefixb_spec k k' : prefixb k k' = bool_decide (k `prefix_of` k').
Proof.
  revert k'. induction k as [|b k IH]; intros [|b' k']; cbn [prefixb].
  - symmetry. by apply bool_decide_eq_true_2.
  - symmetry. apply bool_decide_eq_true_2. apply prefix_nil.
  - symmetry. apply bool_decide_eq_false_2. apply prefix_nil_not.
  - rewrite IH. destruct (eqb b b') eqn:E; cbn [andb].
    + apply eqb_prop in E as ->. apply bool_decide_ext. split; [apply prefix_cons|apply prefix_cons_inv_2].
    + symmetry. apply bool_decide_eq_false_2. intros H. apply prefix_cons_inv_1 in H as ->.
      by rewrite eqb_reflx in E.
Qed.

Definition prefix_ok (k : list bool) : bool :=
  match prefix (idx k), range (idx k), from_prefix (octet_of k) (length k) with
  | Done (o, l), Done (first, last), Done i =>
      (o =? octet_of k)%nat && (l =? length k)%nat && (i =? idx k)%nat &&
      forallb (fun o => eqb (prefixb k (octet_bits o)) ((first <=? o) && (o <=? last))%nat) (seq 0 256)
  | _, _, _ => false
  end.

Lemma prefix_all k : (length k < 8)%nat -> prefix_ok k = true.
Proof. revert k. apply key_check. vm_compute. reflexivity. Qed.

Lemma prefix_spec k : (length k < 8)%nat -> prefix (idx k) = Done (octet_of k, length k).
Proof.
  intros Hk. pose proof (prefix_all k Hk) as H. unfold prefix_ok in H.
  destruct (prefix (idx k)) as [[o l]|]; [|done]. destruct (range (idx k)) as [[f t]|]; [|done].
  destruct (from_prefix _ _) as [j|]; [|done]. repeat (apply andb_true_iff in H as [H ?]).
  apply Nat.eqb_eq in H as ->. f_equal. f_equal. by apply Nat.eqb_eq.
Qed.

(** The set [lpm] computes for an index: the indices of the prefixes of its bit string. *)
Lemma lpm_loop_spec fuel e k :
  (length k + 2 <= fuel)%nat -> (length k < 8)%nat -> Bitset.wf e -> length e = 4%nat ->
  exists s, lpm_loop fuel e (idx k) = Done s /\ Bitset.wf s /\ length s = 4%nat /\
    forall j, Bitset.mem s j = true <-> Bitset.mem e j = true \/ exists l, (l <= length k)%nat /\ j = idx (take l k).
Proof.
  revert fuel e. induction k as [|b k IH] using rev_ind; intros fuel e Hf Hk Hw Hl;
    (destruct fuel as [|fuel]; [lia|]).
  - destruct (Bitset.set_spec e 1 Hw) as (e1 & E1 & Hw1 & Hl1 & Hm1); [rewrite Hl; vm_compute; lia|].
    destruct fuel as [|fuel]; [simpl in Hf; lia|]. change (idx []) with 1%nat. cbn [lpm_loop].
    rewrite decide_True by lia. rewrite E1. exists e1. split_and!; [done..|congruence|]. intros j.
    rewrite Hm1, orb_true_iff, bool_decide_eq_true. split.
    + intros [->|H]; [|by left]. right. by exists 0%nat.
    + intros [H|(l & Hle & ->)]; [by right|]. left. rewrite take_nil. done.
  - rewrite length_app in Hf, Hk. cbn [length] in Hf, Hk. pose proof (idx_pos (k ++ [b])).
    pose proof (idx_lt (k ++ [b]) 8 ltac:(rewrite length_app; simpl; lia)) as Hlt.
    destruct (Bitset.set_spec e (idx (k ++ [b])) Hw) as (e1 & E1 & Hw1 & Hl1 & Hm1); [rewrite Hl; exact Hlt|].
    cbn [lpm_loop]. rewrite decide_True by done. rewrite E1. cbn [mbind outcome_bind].
    replace (unbounded_shr (idx (k ++ [b])) 1) with (idx k).
    2: { unfold unbounded_shr. rewrite decide_True by lia. rewrite Nat.shiftr_div_pow2.
         change (2 ^ 1)%nat with 2%nat. by rewrite idx_div2. }
    destruct (IH fuel e1) as (s & -> & Hws & Hls & Hms); [lia|lia|done|congruence|].
    exists s. split_and!; [done..|]. intros j. rewrite Hms, Hm1, orb_true_iff, bool_decide_eq_true, length_app. cbn [length].
    split.
    + intros [[->|H']|(l & Hle & ->)]; [|by left|].
      * right. exists (length k + 1)%nat. split; [lia|]. by rewrite firstn_all2 by (rewrite length_app; simpl; lia).
      * right. exists l. split; [lia|]. by rewrite take_app_le by lia.
    + intros [H'|(l & Hle & ->)]; [by left; right|]. destruct (decide (l <= length k)%nat).
      * right. exists l. split; [lia|]. by rewrite take_app_le by lia.
      * left. left. by rewrite firstn_all2 by (rewrite length_app; simpl; lia).
Qed.

Lemma lpm_spec k :
  (length k < 8)%nat ->
  exists s, lpm (idx k) = Done s /\ Bitset.wf s /\ length s = 4%nat /\
    forall j, Bitset.mem s j = true <-> exists l, (l <= length k)%nat /\ j = idx (take l k).
Proof.
  intros Hk. destruct (lpm_loop_spec 9 (Bitset.EMPTY 4) k) as (s & E & Hw & Hl & Hm);
    [lia|done|apply Bitset.wf_EMPTY|done|].
  exists s. split_and!; [done..|]. intros j. rewrite Hm, Bitset.mem_EMPTY. naive_solver.
Qed.

(** ** Main theorems *)

(** Base indices number the bit strings of less than eight bits: [from_prefix] and
    [prefix] are inverse to each other without a panic, the range of an index is the set of
    octets its bit string starts, and the longest-match set of an index holds the indices
    of exactly the prefixes of its bit string. *)
Theorem base_index_prefixes (k : list bool) :
  (length k < 8)%nat ->
  from_prefix (octet_of k) (length k) = Done (idx k) /\
  prefix (idx k) = Done (octet_of k, length k) /\
  (exists first last, range (idx k) = Done (first, last) /\
     forall o, (o < 256)%nat -> k `prefix_of` octet_bits o <-> (first <= o <= last)%nat) /\
  (exists s, lpm (idx k) = Done s /\
     forall k', Bitset.mem s (idx k') = true <-> k' `prefix_of` k).
Proof.
  intros Hk. pose proof (prefix_all k Hk) as H. unfold prefix_ok in H. split_and!; [|by apply prefix_spec| |].
  - destruct (prefix (idx k)) as [[o l]|]; [|done]. destruct (range (idx k)) as [[f t]|]; [|done].
    destruct (from_prefix _ _) as [j|]; [|done]. apply andb_true_iff in H as [H _].
    apply andb_true_iff in H as [_ H%Nat.eqb_eq]. by rewrite H.
  - destruct (prefix (idx k)) as [[o l]|]; [|done]. destruct (range (idx k)) as [[f t]|]; [|done].
    exists f, t. split; [done|]. intros x Hx. destruct (from_prefix _ _) as [j|]; [|done].
    apply andb_true_iff in H as [_ H]. rewrite forallb_forall in H. specialize (H x ltac:(apply in_seq; lia)).
    apply eqb_prop in H. rewrite prefixb_spec in H. rewrite <- (bool_decide_eq_true (k `prefix_of` octet_bits x)), H.
    rewrite andb_true_iff, !Nat.leb_le. done.
  - destruct (lpm_spec k Hk) as (s & E & _ & _ & Hm). exists s. split; [done|]. intros k'. rewrite Hm. split.
    + intros (l & Hl & ->%idx_inj). apply prefix_take.
    + intros [r ->]. exists (length k'). rewrite length_app. split; [lia|]. by rewrite take_app_length.
Qed.

Lemma base_index_prefixes_witness : prefix 3 = Done (128, 1)%nat.
Proof. destruct (base_index_prefixes [true]) as (_ & H & _); [simpl; lia|exact H]. Defined.

Definition allot_check (e : outcome (Bitset.Bitset * Bitset.Bitset)) (k : list bool) : bool :=
  match e with
  | Done (pfx, fringe) =>
      forallb (fun i => eqb (Bitset.mem pfx i) (prefixb k (key_of i))) (seq 1 255) &&
      forallb (fun o => eqb (Bitset.mem fringe o) (prefixb k (octet_bits o))) (seq 0 256)
  | Panic => false
  end.

Lemma allot_all k : (length k < 8)%nat -> allot_check (entry (idx k)) k = true.
Proof. revert k. apply (key_check (fun k => allot_check (entry (idx k)) k)). vm_compute. reflexivity. Qed.

Lemma allot_check_spec e k :
  allot_check e k = true ->
  exists pfx fringe, e = Done (pfx, fringe) /\
    (forall k', (length k' < 8)%nat -> Bitset.mem pfx (idx k') = true <-> k `prefix_of` k') /\
    (forall o, (o < 256)%nat -> Bitset.mem fringe o = true <-> k `prefix_of` octet_bits o).
Proof.
  intros H. destruct e as [[pfx fringe]|]; [|done]. apply andb_true_iff in H as [Hp Hf].
  rewrite forallb_forall in Hp, Hf. exists pfx, fringe. split_and!; [done| |].
  - intros k' Hk'. pose proof (idx_pos k'). pose proof (idx_lt k' 8 Hk') as Hlt.
    change (2 ^ 8)%nat with 256%nat in Hlt.
    specialize (Hp (idx k') ltac:(apply in_seq; lia)). apply eqb_prop in Hp. rewrite Hp, key_of_idx by done.
    by rewrite prefixb_spec, bool_decide_eq_true.
  - intros o Ho. specialize (Hf o ltac:(apply in_seq; lia)). apply eqb_prop in Hf. rewrite Hf.
    by rewrite prefixb_spec, bool_decide_eq_true.
Qed.

(** The allotment sets of an index hold the indices of the prefixes its own prefix
    covers, itself included, and the octets it covers. *)
Theorem allot_covers (k : list bool) :
  (length k < 8)%nat ->
  exists pfx fringe, entry (idx k) = Done (pfx, fringe) /\
    (forall k', (length k' < 8)%nat -> Bitset.mem pfx (idx k') = true <-> k `prefix_of` k') /\
    (forall o, (o < 256)%nat -> Bitset.mem fringe o = true <-> k `prefix_of` octet_bits o).
Proof. intros Hk. apply allot_check_spec. by apply allot_all. Qed.

Lemma allot_covers_witness :
  exists pfx fringe, entry 255 = Done (pfx, fringe) /\ Bitset.mem fringe 254 = true.
Proof.
  destruct (allot_covers [true; true; true; true; true; true; true]) as (p & f & E & _ & Hf); [simpl; lia|].
  exists p, f. split; [exact E|]. apply Hf; [lia|]. exists [false]. reflexivity.
Defined.

End BaseIndex.
