(* ===== verification/IpNet.v ===== *)
(** * IP addresses and networks as the routing table uses them

    [core::net::IpAddr] is data.  The network type [ipnet::IpNet] belongs to the [ipnet]
    crate: it is the class [Ipnet] with the documented behaviour of the methods the table
    calls in [IpnetLaws], and [RefNet] is a concrete instance. *)

From Stdlib Require Import ZifyNat.
From S2P Require Import Prelude Bitset BaseIndex.
Import BaseIndex.

Module IpNet.

(** The octets of an address, in network order. *)
Inductive IpAddr : Type :=
| V4 (octets : list nat)
| V6 (octets : list nat).

Definition ip_octets (ip : IpAddr) : list nat := match ip with V4 o => o | V6 o => o end.
Definition is_ipv4 (ip : IpAddr) : bool := match ip with V4 _ => true | V6 _ => false end.

(** Octets in an address of each family. *)
Definition n_octets (ipv4 : bool) : nat := if ipv4 then 4%nat else 16%nat.

Definition addr_okb (ip : IpAddr) : bool :=
  (length (ip_octets ip) =? n_octets (is_ipv4 ip))%nat && forallb (fun o => o <? 256)%nat (ip_octets ip).

(** An address of the type: four or sixteen [u8] octets. *)
Definition addr_ok (ip : IpAddr) : Prop := addr_okb ip = true.

#[global] Instance IpAddr_eq_dec : EqDecision IpAddr.
Proof. solve_decision. Defined.

(** The bits of a sequence of octets, most significant first. *)
Definition octs_bits (os : list nat) : list bool := flat_map octet_bits os.
Definition addr_bits (ip : IpAddr) : list bool := octs_bits (ip_octets ip).

Class Ipnet : Type := {
  IpNet : Type;
  net_eq_dec :: EqDecision IpNet;
  net_new : IpAddr -> nat -> option IpNet;
  net_addr : IpNet -> IpAddr;
  net_prefix_len : IpNet -> nat;
  net_trunc : IpNet -> IpNet;
  net_contains : IpNet -> IpAddr -> bool;
}.

(** The leading bits a network fixes. *)
Definition key `{Ipnet} (p : IpNet) : list bool := take (net_prefix_len p) (addr_bits (net_addr p)).

Class IpnetLaws `{Ipnet} : Prop := {
  net_addr_ok p : addr_ok (net_addr p);
  net_len_ok p : (net_prefix_len p <= 8 * n_octets (is_ipv4 (net_addr p)))%nat;
  net_ext p q : net_addr p = net_addr q -> net_prefix_len p = net_prefix_len q -> p = q;
  (** [IpNet::new] checks the length; [new_assert] panics where it fails. *)
  net_new_spec a l :
    addr_ok a -> (l <= 8 * n_octets (is_ipv4 a))%nat ->
    exists p, net_new a l = Some p /\ net_addr p = a /\ net_prefix_len p = l;
  net_new_err a l : (8 * n_octets (is_ipv4 a) < l)%nat -> net_new a l = None;
  (** [trunc] clears the host bits. *)
  net_trunc_len p : net_prefix_len (net_trunc p) = net_prefix_len p;
  net_trunc_family p : is_ipv4 (net_addr (net_trunc p)) = is_ipv4 (net_addr p);
  net_trunc_bits p :
    addr_bits (net_addr (net_trunc p)) =
      key p ++ replicate (length (addr_bits (net_addr p)) - net_prefix_len p) false;
  (** [contains]: same family and the same leading bits. *)
  net_contains_spec p a :
    addr_ok a ->
    net_contains p a = true <->
      is_ipv4 (net_addr p) = is_ipv4 a /\ key p = take (net_prefix_len p) (addr_bits a);
}.

(** [IpNet::new_assert] *)
Definition new_assert `{Ipnet} (ip : IpAddr) (len : nat) : outcome IpNet := unwrap (net_new ip len).

(** ** Bits of octet sequences *)

Lemma octs_bits_length os : length (octs_bits os) = (8 * length os)%nat.
Proof.
  induction os as [|o os IH]; [done|]. unfold octs_bits. cbn [flat_map]. fold (octs_bits os).
  rewrite length_app, IH, octet_bits_length. cbn [length]. lia.
Qed.

Lemma octs_bits_app a b : octs_bits (a ++ b) = octs_bits a ++ octs_bits b.
Proof. apply flat_map_app. Qed.

Lemma octs_bits_cons o os : octs_bits (o :: os) = octet_bits o ++ octs_bits os.
Proof. done. Qed.

Lemma octs_bits_take d os : take (8 * d) (octs_bits os) = octs_bits (take d os).
Proof.
  destruct (decide (length os <= d)%nat) as [H|H].
  - rewrite !take_ge by (rewrite ?octs_bits_length; lia). done.
  - rewrite <- (take_drop d os) at 1. rewrite octs_bits_app, take_app_le by
      (rewrite octs_bits_length, length_take; lia).
    apply take_ge. rewrite octs_bits_length, length_take. lia.
Qed.

Lemma octs_bits_inj a b :
  Forall (fun o => (o < 256)%nat) a -> Forall (fun o => (o < 256)%nat) b ->
  octs_bits a = octs_bits b -> a = b.
Proof.
  intros Ha. revert b. induction Ha as [|o a Ho _ IH]; intros b Hb H.
  - destruct b; [done|]. apply (f_equal length) in H. rewrite !octs_bits_length in H. simpl in H. lia.
  - destruct Hb as [|o' b Ho' Hb]; [apply (f_equal length) in H; rewrite !octs_bits_length in H; simpl in H; lia|].
    rewrite !octs_bits_cons in H. apply app_inj_1 in H as [E1 E2]; [|by rewrite !octet_bits_length].
    f_equal; [|by apply IH]. rewrite <- (octet_of_bits o), <- (octet_of_bits o') by done. by rewrite E1.
Qed.

Lemma addr_ok_spec ip :
  addr_ok ip <-> length (ip_octets ip) = n_octets (is_ipv4 ip) /\ Forall (fun o => (o < 256)%nat) (ip_octets ip).
Proof.
  unfold addr_ok, addr_okb. rewrite andb_true_iff, Nat.eqb_eq, forallb_forall, Forall_forall. apply and_iff_compat_l.
  split; intros H o Ho; [apply Nat.ltb_lt, H|apply Nat.ltb_lt, H]; by apply list_elem_of_In.
Qed.

Lemma addr_ext a b : addr_ok a -> addr_ok b -> is_ipv4 a = is_ipv4 b -> addr_bits a = addr_bits b -> a = b.
Proof.
  intros Ha%addr_ok_spec Hb%addr_ok_spec Hf Hbits. destruct Ha as [_ Ha], Hb as [_ Hb].
  apply octs_bits_inj in Hbits; [|done..]. destruct a, b; simpl in *; congruence.
Qed.

Section Laws.
Context `{HI : Ipnet} `{HL : !IpnetLaws}.
Implicit Types p q : IpNet.

Lemma net_octets p : length (ip_octets (net_addr p)) = n_octets (is_ipv4 (net_addr p)).
Proof. pose proof (net_addr_ok p) as H%addr_ok_spec. apply H. Qed.

Lemma net_octet_lt p d o : ip_octets (net_addr p) !! d = Some o -> (o < 256)%nat.
Proof.
  intros Hd. pose proof (net_addr_ok p) as H%addr_ok_spec. destruct H as [_ H].
  eapply Forall_lookup_1 in H; [|exact Hd]. done.
Qed.

Lemma net_bits_length p : length (addr_bits (net_addr p)) = (8 * n_octets (is_ipv4 (net_addr p)))%nat.
Proof. unfold addr_bits. by rewrite octs_bits_length, net_octets. Qed.

Lemma key_length p : length (key p) = net_prefix_len p.
Proof. unfold key. rewrite length_take, net_bits_length. pose proof (net_len_ok p). lia. Qed.

(** A truncated network has no host bits. *)
Definition truncated p : Prop := net_trunc p = p.

Lemma key_trunc p : key (net_trunc p) = key p.
Proof.
  unfold key at 1. rewrite net_trunc_len, net_trunc_bits, take_app_le by (rewrite key_length; lia).
  apply take_ge. by rewrite key_length.
Qed.

Lemma trunc_truncated p : truncated (net_trunc p).
Proof.
  apply net_ext; [|apply net_trunc_len]. apply addr_ext; try apply net_addr_ok; [apply net_trunc_family|].
  rewrite (net_trunc_bits (net_trunc p)), key_trunc, net_trunc_len, (net_bits_length (net_trunc p)),
    net_trunc_family, net_trunc_bits. by rewrite net_bits_length.
Qed.

(** A truncated network is determined by its family and its leading bits. *)
Lemma key_inj p q :
  truncated p -> truncated q -> is_ipv4 (net_addr p) = is_ipv4 (net_addr q) -> key p = key q -> p = q.
Proof.
  intros Hp Hq Hf Hk. assert (Hl : net_prefix_len p = net_prefix_len q) by (rewrite <- !key_length; congruence).
  apply net_ext; [|done]. apply addr_ext; [apply net_addr_ok..|done|].
  rewrite <- Hp, <- Hq, !net_trunc_bits, Hk, Hl. f_equal. f_equal. by rewrite !net_bits_length, Hf.
Qed.

(** The bits of a network below a depth of the trie. *)
Definition rest (d : nat) p : list bool := drop (8 * d) (key p).

Lemma rest_length d p : length (rest d p) = (net_prefix_len p - 8 * d)%nat.
Proof. unfold rest. by rewrite length_drop, key_length. Qed.

Lemma rest_0 p : rest 0 p = key p.
Proof. done. Qed.

Lemma key_rest d p : (8 * d <= net_prefix_len p)%nat ->
  key p = octs_bits (take d (ip_octets (net_addr p))) ++ rest d p.
Proof.
  intros Hd. unfold rest. rewrite <- (take_drop (8 * d) (key p)) at 1. f_equal.
  unfold key. rewrite take_take, Nat.min_l by done. apply octs_bits_take.
Qed.

Lemma rest_bits d p : rest d p = take (net_prefix_len p - 8 * d) (octs_bits (drop d (ip_octets (net_addr p)))).
Proof.
  unfold rest, key, addr_bits. rewrite skipn_firstn_comm. f_equal.
  rewrite <- (take_drop d (ip_octets (net_addr p))) at 1. rewrite octs_bits_app.
  destruct (decide (d <= length (ip_octets (net_addr p)))%nat).
  - rewrite drop_app_ge by (rewrite octs_bits_length, length_take; lia).
    rewrite octs_bits_length, length_take_le by done. by rewrite Nat.sub_diag.
  - rewrite drop_ge by (rewrite length_app, !octs_bits_length, length_take, length_drop; lia).
    rewrite (drop_ge (ip_octets (net_addr p))) by lia. done.
Qed.

Lemma rest_octet d p o :
  ip_octets (net_addr p) !! d = Some o ->
  rest d p = take (net_prefix_len p - 8 * d) (octet_bits o ++ octs_bits (drop (S d) (ip_octets (net_addr p)))).
Proof. intros Ho. rewrite rest_bits. by rewrite (drop_S _ _ _ Ho). Qed.

(** The bits that end inside an octet. *)
Lemma rest_short d p o :
  ip_octets (net_addr p) !! d = Some o -> (length (rest d p) < 8)%nat ->
  rest d p = take (length (rest d p)) (octet_bits o).
Proof.
  intros Ho Hl. rewrite (rest_octet d p o Ho) at 1. rewrite rest_length in *.
  by rewrite take_app_le by (rewrite octet_bits_length; lia).
Qed.

Lemma rest_long d p o :
  ip_octets (net_addr p) !! d = Some o -> (8 <= length (rest d p))%nat ->
  rest d p = octet_bits o ++ rest (S d) p.
Proof.
  intros Ho Hl. rewrite (rest_octet d p o Ho), rest_bits. rewrite rest_length in Hl.
  rewrite take_app_ge by (rewrite octet_bits_length; lia). rewrite octet_bits_length. f_equal. f_equal. lia.
Qed.

End Laws.
(** ** A concrete instance *)

Module RefNet.

Definition net_okb (x : IpAddr * nat) : bool := addr_okb (fst x) && (snd x <=? 8 * n_octets (is_ipv4 (fst x)))%nat.

Definition net : Type := { x : IpAddr * nat | Is_true (net_okb x) }.

Definition mk (ip : IpAddr) (l : nat) : option net :=
  match decide (Is_true (net_okb (ip, l))) with left H => Some (exist _ (ip, l) H) | right _ => None end.

Fixpoint trunc_octets (l : nat) (os : list nat) : list nat :=
  match os with [] => [] | o :: os => octet_of (take l (octet_bits o)) :: trunc_octets (l - 8) os end.

Definition trunc_addr (ip : IpAddr) (l : nat) : IpAddr :=
  match ip with V4 os => V4 (trunc_octets l os) | V6 os => V6 (trunc_octets l os) end.

Lemma trunc_octets_bits l os :
  octs_bits (trunc_octets l os) = take l (octs_bits os) ++ replicate (8 * length os - l) false.
Proof.
  revert l. induction os as [|o os IH]; intros l; [by destruct l|].
  cbn [trunc_octets]. rewrite !octs_bits_cons, IH.
  destruct (octet_bits_pad (take l (octet_bits o))) as [-> _]; [rewrite length_take, octet_bits_length; lia|].
  rewrite length_take, octet_bits_length. destruct (decide (l <= 8)%nat) as [Hl|Hl].
  - rewrite take_app_le by (by rewrite octet_bits_length). replace (l - 8)%nat with 0%nat by lia.
    rewrite firstn_O. cbn [app length]. rewrite <- app_assoc, <- replicate_add. do 2 f_equal. lia.
  - rewrite take_app_ge by (rewrite octet_bits_length; lia). rewrite octet_bits_length.
    rewrite (take_ge (octet_bits o)) by (rewrite octet_bits_length; lia).
    replace (8 - (l `min` 8))%nat with 0%nat by lia. rewrite app_nil_r, app_assoc. do 2 f_equal. cbn [length]. lia.
Qed.

Lemma trunc_octets_ok l os :
  length (trunc_octets l os) = length os /\ Forall (fun o => (o < 256)%nat) (trunc_octets l os).
Proof.
  revert l. induction os as [|o os IH]; intros l; [by split; [|constructor]|]. cbn [trunc_octets length].
  destruct (IH (l - 8)%nat) as [Hl Hf]. split; [by rewrite Hl|]. constructor; [|done].
  apply octet_bits_pad. rewrite length_take, octet_bits_length. lia.
Qed.

Lemma trunc_family ip l : is_ipv4 (trunc_addr ip l) = is_ipv4 ip.
Proof. by destruct ip. Qed.

Lemma trunc_ok (x : IpAddr * nat) :
  Is_true (net_okb x) -> Is_true (net_okb (trunc_addr (fst x) (snd x), snd x)).
Proof.
  destruct x as [ip l]. unfold net_okb. cbn [fst snd]. rewrite !andb_True. intros [Ha Hl].
  rewrite trunc_family. split; [|done]. apply Is_true_true in Ha. apply Is_true_true, addr_ok_spec.
  apply addr_ok_spec in Ha as [Hlen _]. rewrite trunc_family, <- Hlen.
  destruct ip; apply trunc_octets_ok.
Qed.

Definition trunc (p : net) : net :=
  exist (fun x => Is_true (net_okb x)) (trunc_addr (fst (proj1_sig p)) (snd (proj1_sig p)), snd (proj1_sig p))
    (trunc_ok (proj1_sig p) (proj2_sig p)).

Definition contains (p : net) (a : IpAddr) : bool :=
  let '(ip, l) := proj1_sig p in
  eqb (is_ipv4 ip) (is_ipv4 a) && prefixb (take l (addr_bits ip)) (addr_bits a).

#[export] Instance ref_net : Ipnet := {|
  IpNet := net; net_eq_dec := _; net_new := mk;
  net_addr p := fst (proj1_sig p); net_prefix_len p := snd (proj1_sig p);
  net_trunc := trunc; net_contains := contains |}.

Lemma ref_ok (p : net) :
  addr_ok (fst (proj1_sig p)) /\ (snd (proj1_sig p) <= 8 * n_octets (is_ipv4 (fst (proj1_sig p))))%nat.
Proof.
  destruct p as [[ip l] H]. cbn [proj1_sig fst snd]. unfold net_okb in H. apply andb_True in H as [Ha Hl].
  apply Is_true_true in Ha, Hl. split; [done|]. by apply Nat.leb_le.
Qed.

Lemma bits_len (p : net) : length (addr_bits (fst (proj1_sig p))) = (8 * n_octets (is_ipv4 (fst (proj1_sig p))))%nat.
Proof. destruct (ref_ok p) as [[H _]%addr_ok_spec _]. unfold addr_bits. by rewrite octs_bits_length, H. Qed.

Lemma contains_ok (p : net) a :
  addr_ok a -> contains p a = true <->
    is_ipv4 (fst (proj1_sig p)) = is_ipv4 a /\
    take (snd (proj1_sig p)) (addr_bits (fst (proj1_sig p))) = take (snd (proj1_sig p)) (addr_bits a).
Proof.
  intros [Ha _]%addr_ok_spec. destruct (ref_ok p) as [_ Hl]. pose proof (bits_len p) as Hb.
  destruct p as [[ip l] H]. cbn [proj1_sig fst snd] in *. unfold contains. cbn [proj1_sig].
  rewrite andb_true_iff, eqb_true_iff, prefixb_spec, bool_decide_eq_true. apply and_iff_compat_l.
  split; [|intros ->; apply prefix_take]. intros [r ->].
  rewrite take_app_le by (rewrite length_take; lia). symmetry. apply take_ge. rewrite length_take. lia.
Qed.

#[export] Instance ref_laws : @IpnetLaws ref_net.
Proof.
  constructor; cbn [IpNet net_new net_addr net_prefix_len net_trunc net_contains ref_net].
  - intros p. apply ref_ok.
  - intros p. apply ref_ok.
  - intros [[ip l] H] [[ip' l'] H']. cbn [proj1_sig fst snd]. intros -> ->. f_equal. apply proof_irrel.
  - intros a l Ha Hl. unfold mk. destruct (decide _) as [H|H]; [by eexists|]. exfalso. apply H.
    unfold net_okb. cbn [fst snd]. apply andb_True. split; apply Is_true_true; [done|by apply Nat.leb_le].
  - intros a l Hl. unfold mk. destruct (decide _) as [H|H]; [|done]. exfalso. unfold net_okb in H.
    apply andb_True in H as [_ H%Is_true_true]. apply Nat.leb_le in H. cbn [fst snd] in H. lia.
  - done.
  - intros p. cbn [trunc proj1_sig fst]. apply trunc_family.
  - intros p. pose proof (bits_len p) as Hb. cbn [trunc proj1_sig fst]. unfold key. cbn [net_prefix_len net_addr].
    unfold addr_bits in *. rewrite Hb. rewrite octs_bits_length in Hb.
    destruct p as [[[os|os] l] H]; cbn [proj1_sig fst snd trunc_addr ip_octets] in *;
      rewrite trunc_octets_bits; by rewrite Hb.
  - intros p a. apply contains_ok.
Qed.

End RefNet.

End IpNet.
