(* ===== verification/BartNode.v ===== *)
(** * Trie nodes of the routing table (ts_bart/src/node/)

    A node covers one octet of the address: the prefixes ending inside the octet, by base
    index, and the children by octet.  [StrideOps] is the interface the trie operations use
    (node/stride_ops), [StrideLaws] what it promises, and [Node] the implementation. *)

From Stdlib Require Import ZifyNat Sorting.Sorted.
From S2P Require Import Prelude Bitset Array256 BaseIndex IpNet.
Import BaseIndex IpNet.

Module BartNode.

(** ** Children (node/child.rs) *)

Inductive Child {HI : Ipnet} (N T : Type) : Type :=
| Path (node : N)
| Leaf (prefix : IpNet) (value : T)
| Fringe (value : T).
Arguments Path {HI N T} _.
Arguments Leaf {HI N T} _ _.
Arguments Fringe {HI N T} _.

Definition into_value `{HI : Ipnet} {N T} (self : Child N T) : option T :=
  match self with Leaf _ value | Fringe value => Some value | Path _ => None end.

Definition into_node `{HI : Ipnet} {N T} (self : Child N T) : option N :=
  match self with Path node => Some node | _ => None end.

(** ** The interface (node/stride_ops/mod.rs, prefix.rs) *)

(** [set_prefix_mut] and [set_child_mut] are writes through the references
    [get_prefix_exact_mut] and [get_child_mut] return. *)
Class StrideOps `{HI : Ipnet} (N T : Type) : Type := {
  node_default : N;
  prefix_bitset : N -> Bitset.Bitset;
  prefix_count : N -> nat;
  lookup_index : N -> BaseIndex -> outcome (option (BaseIndex * T));
  get_prefix_exact : N -> BaseIndex -> outcome (option T);
  set_prefix_mut : N -> BaseIndex -> T -> outcome (option N);
  insert_prefix : N -> BaseIndex -> T -> outcome (option T * N);
  remove_prefix : N -> BaseIndex -> outcome (option T * N);
  child_bitset : N -> Bitset.Bitset;
  child_count : N -> nat;
  get_child : N -> nat -> outcome (option (Child N T));
  set_child_mut : N -> nat -> Child N T -> outcome (option N);
  insert_child : N -> nat -> Child N T -> outcome (option (Child N T) * N);
  remove_child : N -> nat -> outcome (option (Child N T) * N);
}.

(** [PrefixOpsExt::supersets_prefix] *)
Definition supersets_prefix `{HI : Ipnet} {N T} `{HO : !StrideOps N T} (self : N) (i : BaseIndex) : outcome bool :=
  s ← lpm i; mret (Bitset.intersects (prefix_bitset self) s).

(** [NodePrefixIter]: the bits still to yield. *)
Definition for_octet `{HI : Ipnet} {N T} `{HO : !StrideOps N T} (node : N) (octet : nat) : outcome Bitset.Bitset :=
  i ← from_pfx_7 octet;
  s ← lpm i;
  mret (Bitset.intersect_inplace (prefix_bitset node) s).

Fixpoint prefix_iter_loop `{HI : Ipnet} {N T} `{HO : !StrideOps N T} (fuel : nat) (node : N)
    (yield_state : Bitset.Bitset) : outcome (option (BaseIndex * T) * Bitset.Bitset) :=
  match fuel with
  | O => Panic
  | S fuel =>
      o ← Bitset.last_set yield_state;
      match o with
      | None => mret (None, yield_state)
      | Some bit =>
          yield_state ← Bitset.clear yield_state bit;
          i ← new bit;
          v ← get_prefix_exact node i;
          match v with
          | Some val => mret (Some (i, val), yield_state)
          | None => prefix_iter_loop fuel node yield_state
          end
      end
  end.

(** Every iteration clears one of the 256 bits. *)
Definition prefix_iter_next `{HI : Ipnet} {N T} `{HO : !StrideOps N T} (node : N)
    (yield_state : Bitset.Bitset) : outcome (option (BaseIndex * T) * Bitset.Bitset) :=
  prefix_iter_loop 257 node yield_state.

(** ** The implementation (node/mod.rs) *)

#[warnings="-register-all"]
Inductive Node `{HI : Ipnet} (T : Type) : Type :=
  mkNode (prefixes : Array256.Array256 T) (children : Array256.Array256 (Child (Node T) T)).
Arguments mkNode {HI T} _ _.

Section Node.
Context `{HI : Ipnet} {T : Type}.
Implicit Types self : Node T.

Definition prefixes self : Array256.Array256 T := let 'mkNode p _ := self in p.
Definition children self : Array256.Array256 (Child (Node T) T) := let 'mkNode _ c := self in c.

Definition EMPTY : Node T := mkNode Array256.EMPTY Array256.EMPTY.

Definition is_empty self : bool := Array256.is_empty (prefixes self) && Array256.is_empty (children self).

Definition node_lookup_index self (i : BaseIndex) : outcome (option (BaseIndex * T)) :=
  s ← lpm i;
  match Array256.intersection_top (prefixes self) s with
  | None => mret None
  | Some top =>
      match try_new top with
      | None => mret None
      | Some b => v ← Array256.get (prefixes self) top; mret (option_map (pair b) v)
      end
  end.

Definition node_insert_prefix self (i : BaseIndex) (value : T) : outcome (option T * Node T) :=
  '(old, p) ← Array256.insert (prefixes self) i value; mret (old, mkNode p (children self)).

Definition node_remove_prefix self (i : BaseIndex) : outcome (option T * Node T) :=
  '(old, p) ← Array256.remove (prefixes self) i; mret (old, mkNode p (children self)).

Definition node_set_prefix_mut self (i : BaseIndex) (value : T) : outcome (option (Node T)) :=
  p ← Array256.get_mut_set (prefixes self) i value; mret (option_map (fun p => mkNode p (children self)) p).

Definition node_get_child self (addr : nat) : outcome (option (Child (Node T) T)) :=
  Array256.get (children self) addr.

Definition node_set_child_mut self (addr : nat) (child : Child (Node T) T) : outcome (option (Node T)) :=
  c ← Array256.get_mut_set (children self) addr child; mret (option_map (mkNode (prefixes self)) c).

Definition node_insert_child self (addr : nat) (child : Child (Node T) T) : outcome (option (Child (Node T) T) * Node T) :=
  '(old, c) ← Array256.insert (children self) addr child; mret (old, mkNode (prefixes self) c).

Definition node_remove_child self (addr : nat) : outcome (option (Child (Node T) T) * Node T) :=
  '(old, c) ← Array256.remove (children self) addr; mret (old, mkNode (prefixes self) c).

#[export] Instance node_ops : StrideOps (Node T) T := {|
  node_default := EMPTY;
  prefix_bitset self := Array256.bitset (prefixes self);
  prefix_count self := Array256.len (prefixes self);
  lookup_index := node_lookup_index;
  get_prefix_exact self i := Array256.get (prefixes self) i;
  set_prefix_mut := node_set_prefix_mut;
  insert_prefix := node_insert_prefix;
  remove_prefix := node_remove_prefix;
  child_bitset self := Array256.bitset (children self);
  child_count self := Array256.len (children self);
  get_child := node_get_child;
  set_child_mut := node_set_child_mut;
  insert_child := node_insert_child;
  remove_child := node_remove_child |}.

End Node.

(** ** What a node promises: two finite maps *)

(** The indices of the prefixes of [k], longest first. *)
Definition ancestors (k : list bool) : list BaseIndex :=
  map (fun l => idx (take l k)) (rev (seq 0 (S (length k)))).

Class StrideLaws `{HI : Ipnet} (N T : Type) `{HO : !StrideOps N T} : Type := {
  node_wf : N -> Prop;
  pmap : N -> gmap nat T;
  cmap : N -> gmap nat (Child N T);
  default_wf : node_wf node_default;
  default_pmap : pmap node_default = ∅;
  default_cmap : cmap node_default = ∅;
  pmap_range n i v : node_wf n -> pmap n !! i = Some v -> (0 < i < 256)%nat;
  cmap_range n o c : node_wf n -> cmap n !! o = Some c -> (o < 256)%nat;
  prefix_bitset_wf n : node_wf n -> Bitset.wf (prefix_bitset n) /\ length (prefix_bitset n) = 4%nat;
  prefix_bitset_mem n i : node_wf n -> Bitset.mem (prefix_bitset n) i = true <-> is_Some (pmap n !! i);
  child_bitset_wf n : node_wf n -> Bitset.wf (child_bitset n) /\ length (child_bitset n) = 4%nat;
  child_bitset_mem n o : node_wf n -> Bitset.mem (child_bitset n) o = true <-> is_Some (cmap n !! o);
  prefix_count_spec n : node_wf n -> prefix_count n = size (pmap n);
  child_count_spec n : node_wf n -> child_count n = size (cmap n);
  lookup_index_spec n k : node_wf n -> (length k < 8)%nat ->
    lookup_index n (idx k) = Done (head (omap (fun i => pair i <$> pmap n !! i) (ancestors k)));
  get_prefix_spec n i : node_wf n -> (0 < i < 256)%nat -> get_prefix_exact n i = Done (pmap n !! i);
  set_prefix_spec n i v x : node_wf n -> pmap n !! i = Some x ->
    exists n', set_prefix_mut n i v = Done (Some n') /\ node_wf n' /\
      pmap n' = <[i := v]> (pmap n) /\ cmap n' = cmap n;
  insert_prefix_spec n i v : node_wf n -> (0 < i < 256)%nat ->
    exists n', insert_prefix n i v = Done (pmap n !! i, n') /\ node_wf n' /\
      pmap n' = <[i := v]> (pmap n) /\ cmap n' = cmap n;
  remove_prefix_spec n i : node_wf n -> (0 < i < 256)%nat ->
    exists n', remove_prefix n i = Done (pmap n !! i, n') /\ node_wf n' /\
      pmap n' = base.delete i (pmap n) /\ cmap n' = cmap n;
  get_child_spec n o : node_wf n -> (o < 256)%nat -> get_child n o = Done (cmap n !! o);
  set_child_spec n o c x : node_wf n -> cmap n !! o = Some x ->
    exists n', set_child_mut n o c = Done (Some n') /\ node_wf n' /\
      pmap n' = pmap n /\ cmap n' = <[o := c]> (cmap n);
  insert_child_spec n o c : node_wf n -> (o < 256)%nat ->
    exists n', insert_child n o c = Done (cmap n !! o, n') /\ node_wf n' /\
      pmap n' = pmap n /\ cmap n' = <[o := c]> (cmap n);
  remove_child_spec n o : node_wf n -> (o < 256)%nat ->
    exists n', remove_child n o = Done (cmap n !! o, n') /\ node_wf n' /\
      pmap n' = pmap n /\ cmap n' = base.delete o (cmap n);
}.

(** ** Ascending lists of indices *)

Lemma sorted_ext (l1 l2 : list nat) :
  StronglySorted lt l1 -> StronglySorted lt l2 -> (forall x, x ∈ l1 <-> x ∈ l2) -> l1 = l2.
Proof.
  intros H1. revert l2. induction H1 as [|x l1 H1 IH Hx]; intros l2 H2 He.
  - destruct l2 as [|y l2]; [done|]. exfalso. apply (not_elem_of_nil y), He. set_solver.
  - destruct H2 as [|y l2 H2 Hy]; [exfalso; apply (not_elem_of_nil x), He; set_solver|].
    rewrite Forall_forall in Hx, Hy.
    assert (x = y) as ->.
    { assert (x ∈ y :: l2) as [->|Hxl]%elem_of_cons by (apply He; set_solver); [done|].
      assert (y ∈ x :: l1) as [->|Hyl]%elem_of_cons by (apply He; set_solver); [done|].
      specialize (Hx y Hyl). specialize (Hy x Hxl). lia. }
    f_equal. apply IH; [done|]. intros z. split; intros Hz.
    + specialize (Hx z Hz). assert (z ∈ y :: l2) as [->|?]%elem_of_cons by (apply He; set_solver); [lia|done].
    + specialize (Hy z Hz). assert (z ∈ y :: l1) as [->|?]%elem_of_cons by (apply He; set_solver); [lia|done].
Qed.

Lemma sorted_filter (P : nat -> Prop) `{Hd : !forall x, Decision (P x)} l :
  StronglySorted lt l -> StronglySorted lt (filter P l).
Proof.
  induction 1 as [|x l H IH Hx]; [constructor|]. rewrite filter_cons. case_decide; [|done].
  constructor; [done|]. rewrite Forall_forall in *. intros y Hy. apply Hx.
  by apply list_elem_of_filter in Hy as [_ Hy].
Qed.

Definition asc (k : list bool) : list BaseIndex := map (fun l => idx (take l k)) (seq 0 (S (length k))).

Lemma ancestors_asc k : ancestors k = rev (asc k).
Proof. unfold ancestors, asc. by rewrite map_rev. Qed.

Lemma asc_elem k j : j ∈ asc k <-> exists l, (l <= length k)%nat /\ j = idx (take l k).
Proof.
  unfold asc. rewrite list_elem_of_In, in_map_iff. split.
  - intros (l & <- & Hl%in_seq). exists l. split; [lia|done].
  - intros (l & Hl & ->). exists l. split; [done|]. apply in_seq. lia.
Qed.

Lemma idx_take_lt k l l' : (l < l' <= length k)%nat -> (idx (take l k) < idx (take l' k))%nat.
Proof.
  intros Hl. pose proof (idx_bounds (take l k)) as [_ H1]. pose proof (idx_bounds (take l' k)) as [H2 _].
  rewrite length_take_le in H1, H2 by lia. assert (2 ^ S l <= 2 ^ l')%nat by (apply Nat.pow_le_mono_r; lia).
  rewrite Nat.pow_succ_r' in *. lia.
Qed.

Lemma asc_sorted k : StronglySorted lt (asc k).
Proof.
  unfold asc. assert (H : forall n a, (a + n <= S (length k))%nat ->
    StronglySorted lt (map (fun l => idx (take l k)) (seq a n))); [|apply H; lia].
  induction n as [|n IH]; intros a Ha; [constructor|]. cbn [seq map]. constructor; [apply IH; lia|].
  apply Forall_forall. intros j Hj. apply list_elem_of_In, in_map_iff in Hj as (l & <- & Hl%in_seq).
  apply idx_take_lt. lia.
Qed.

(** The indices of [k]'s prefixes a bit set holds. *)
Lemma common_ancestors b k s :
  Bitset.wf b -> length b = 4%nat -> Bitset.wf s -> length s = 4%nat ->
  (forall j, Bitset.mem s j = true <-> exists l, (l <= length k)%nat /\ j = idx (take l k)) ->
  filter (fun j => Bitset.mem s j = true) (Bitset.members b) = filter (fun j => Bitset.mem b j = true) (asc k).
Proof.
  intros Hb Hlb Hs Hls Hm. apply sorted_ext.
  - apply sorted_filter, Bitset.members_sorted.
  - apply sorted_filter, asc_sorted.
  - intros x. rewrite !list_elem_of_filter, Bitset.members_spec, Hm, asc_elem. tauto.
Qed.

Lemma last_rev {A} (l : list A) : list.last l = head (rev l).
Proof. induction l as [|x l IH] using rev_ind; [done|]. by rewrite last_snoc, rev_app_distr. Qed.

Lemma rev_filter {A} (P : A -> Prop) `{Hd : !forall x, Decision (P x)} (l : list A) :
  rev (filter P l) = filter P (rev l).
Proof.
  induction l as [|x l IH]; [done|]. rewrite filter_cons. simpl. rewrite filter_app, <- IH.
  case_decide; [by rewrite filter_cons_True|by rewrite filter_cons_False, app_nil_r].
Qed.

Section NodeLaws.
Context `{HI : Ipnet} {T : Type}.
Implicit Types n : Node T.

Record node_ok n : Prop := {
  ok_prefixes : Array256.wf (prefixes n);
  ok_children : Array256.wf (children n);
  ok_zero : Array256.amap (prefixes n) !! 0%nat = None;
}.

Lemma node_lookup_index_spec n k :
  node_ok n -> (length k < 8)%nat ->
  node_lookup_index n (idx k) =
    Done (head (omap (fun i => pair i <$> Array256.amap (prefixes n) !! i) (ancestors k))).
Proof.
  intros [Hp _ H0] Hk. unfold node_lookup_index. destruct (lpm_spec k Hk) as (s & -> & Hws & Hls & Hms).
  cbn [mbind outcome_bind]. rewrite Array256.intersection_top_spec by done.
  rewrite (common_ancestors _ k) by (done || apply Hp). rewrite last_rev, rev_filter, <- ancestors_asc.
  rewrite (omap_filter _ (fun j => Bitset.mem (Array256.bitset (prefixes n)) j = true)).
  2: { intros i _ Hi. apply Bitset.members_spec, Array256.members_amap; [done|].
       by destruct (Array256.amap (prefixes n) !! i); destruct Hi. }
  destruct (filter _ (ancestors k)) as [|top l] eqn:Ef; [done|]. cbn [head].
  assert (Htop : Bitset.mem (Array256.bitset (prefixes n)) top = true).
  { assert (top ∈ filter (fun j => Bitset.mem (Array256.bitset (prefixes n)) j = true) (ancestors k)) as H
      by (rewrite Ef; set_solver). by apply list_elem_of_filter in H as [H _]. }
  apply Bitset.members_spec, Array256.members_amap in Htop as [v Hv]; [|done].
  pose proof (Array256.amap_lt _ _ _ Hp Hv) as Hlt. unfold try_new. case_decide as Hz; [by subst; congruence|].
  rewrite Array256.get_spec by done. simpl. rewrite Hv. done.
Qed.

#[export] Program Instance node_laws : StrideLaws (Node T) T := {|
  node_wf := node_ok;
  pmap n := Array256.amap (prefixes n);
  cmap n := Array256.amap (children n) |}.
Next Obligation. constructor; [apply Array256.array_wf_EMPTY..|done]. Qed.
Next Obligation. apply Array256.amap_EMPTY. Qed.
Next Obligation. apply Array256.amap_EMPTY. Qed.
Next Obligation.
  intros n i v [Hp _ H0] Hi. pose proof (Array256.amap_lt _ _ _ Hp Hi). split; [|done].
  destruct i; [congruence|lia].
Qed.
Next Obligation. intros n o c [_ Hc _] Ho. by eapply Array256.amap_lt. Qed.
Next Obligation. intros n [Hp _ _]. split; apply Hp. Qed.
Next Obligation. intros n i [Hp _ _]. rewrite <- Bitset.members_spec. by apply Array256.members_amap. Qed.
Next Obligation. intros n [_ Hc _]. split; apply Hc. Qed.
Next Obligation. intros n o [_ Hc _]. rewrite <- Bitset.members_spec. by apply Array256.members_amap. Qed.
Next Obligation. intros n [Hp _ _]. by apply Array256.array_len_spec. Qed.
Next Obligation. intros n [_ Hc _]. by apply Array256.array_len_spec. Qed.
Next Obligation. intros n k Hn Hk. by apply node_lookup_index_spec. Qed.
Next Obligation. intros n i [Hp _ _] Hi. apply Array256.get_spec; [done|lia]. Qed.
Next Obligation.
  intros n i v x [Hp Hc H0] Hi. pose proof (Array256.amap_lt _ _ _ Hp Hi) as Hlt.
  pose proof (Array256.get_mut_set_spec (prefixes n) i v Hp Hlt) as H. rewrite Hi in H.
  destruct H as (p & E & Hp' & Ha). exists (mkNode p (children n)). cbn [set_prefix_mut node_ops].
  unfold node_set_prefix_mut. rewrite E. split_and!; [done| |done..]. constructor; [done..|].
  simpl. rewrite Ha. destruct (decide (i = 0)%nat) as [->|Hne]; [congruence|]. by rewrite lookup_insert_ne.
Qed.
Next Obligation.
  intros n i v [Hp Hc H0] Hi. destruct (Array256.insert_spec (prefixes n) i v Hp ltac:(lia)) as (p & E & Hp' & Ha).
  exists (mkNode p (children n)). cbn [insert_prefix node_ops]. unfold node_insert_prefix. rewrite E.
  split_and!; [done| |done..]. constructor; [done..|]. simpl. rewrite Ha. by rewrite lookup_insert_ne by lia.
Qed.
Next Obligation.
  intros n i [Hp Hc H0] Hi. destruct (Array256.remove_spec (prefixes n) i Hp ltac:(lia)) as (p & E & Hp' & Ha).
  exists (mkNode p (children n)). cbn [remove_prefix node_ops]. unfold node_remove_prefix. rewrite E.
  split_and!; [done| |done..]. constructor; [done..|]. simpl. rewrite Ha. by rewrite lookup_delete_ne by lia.
Qed.
Next Obligation. intros n o [_ Hc _] Ho. by apply Array256.get_spec. Qed.
Next Obligation.
  intros n o c x [Hp Hc H0] Ho. pose proof (Array256.amap_lt _ _ _ Hc Ho) as Hlt.
  pose proof (Array256.get_mut_set_spec (children n) o c Hc Hlt) as H. rewrite Ho in H.
  destruct H as (a & E & Hc' & Ha). exists (mkNode (prefixes n) a). cbn [set_child_mut node_ops].
  unfold node_set_child_mut. rewrite E. by split_and!.
Qed.
Next Obligation.
  intros n o c [Hp Hc H0] Ho. destruct (Array256.insert_spec (children n) o c Hc Ho) as (a & E & Hc' & Ha).
  exists (mkNode (prefixes n) a). cbn [insert_child node_ops]. unfold node_insert_child. rewrite E. by split_and!.
Qed.
Next Obligation.
  intros n o [Hp Hc H0] Ho. destruct (Array256.remove_spec (children n) o Hc Ho) as (a & E & Hc' & Ha).
  exists (mkNode (prefixes n) a). cbn [remove_child node_ops]. unfold node_remove_child. rewrite E. by split_and!.
Qed.

End NodeLaws.

End BartNode.
