(* ===== verification/IpTrie.v ===== *)
(** * Trie operations of the routing table (ts_bart/src/iptrie/)

    Insertion, removal, modification and the lookups, over any node type with the
    operations of [StrideOps].  A loop that descends through [get_child_mut] reads the
    child, runs on it and writes it back. *)

From S2P Require Import Prelude Bitset BaseIndex IpNet BartNode.
Import BaseIndex IpNet BartNode.

Module IpTrie.

Definition MAX_DEPTH : nat := 16.

(** ** Utilities (iptrie/util.rs) *)

Section Util.
Context `{HI : Ipnet}.

Definition stride_count_and_overflow (prefix : IpNet) : nat * nat :=
  let len := net_prefix_len prefix in (len / 8, len mod 8)%nat.

(** [octet_count - 1] underflows for a prefix shorter than an octet. *)
Definition is_fringe (depth : nat) (prefix : IpNet) : outcome bool :=
  let '(octet_count, overflow_bits) := stride_count_and_overflow prefix in
  last ← sub8 octet_count 1;
  mret ((depth =? last) && (overflow_bits =? 0))%nat.

Definition ip_from_path (path : list nat) (is4 : bool) : IpAddr := if is4 then V4 (take 4 path) else V6 path.

Definition prefix_from_path (path_octets : list nat) (depth : nat) (ipv4 : bool) (i : BaseIndex) : outcome IpNet :=
  let depth := Nat.land depth 15 in
  '(octet, idx_len) ← prefix i;
  let octet_depth := Nat.min (length path_octets) depth in
  let path := take octet_depth path_octets ++ replicate (MAX_DEPTH - octet_depth) 0%nat in
  path ← store path depth octet;
  l ← add8 (depth * 8) idx_len;
  new_assert (ip_from_path path ipv4) l.

Definition fringe_octet (path_octets : list nat) (depth last_octet i : nat) : nat :=
  if decide (depth < i)%nat then 0%nat
  else if decide (i = depth) then last_octet
  else default 0%nat (path_octets !! i).

Definition fringe_prefix (path_octets : list nat) (depth : nat) (ipv4 : bool) (last_octet : nat) : outcome IpNet :=
  let depth := Nat.land depth 15 in
  let path := map (fringe_octet path_octets depth last_octet) (seq 0 MAX_DEPTH) in
  new_assert (ip_from_path path ipv4) ((depth + 1) * 8).

End Util.

Section Trie.
Context `{HI : Ipnet} {N T : Type} `{HO : !StrideOps N T}.

(** A write through the reference of [get_child_mut(..).unwrap()]. *)
Definition write_child (node : N) (octet : nat) (c : Child N T) : outcome N :=
  o ← set_child_mut node octet c; unwrap o.

(** [node.get_child_mut(octet).unwrap().into_node().unwrap()] *)
Definition child_node (node : N) (octet : nat) : outcome N :=
  c ← get_child node octet; c ← unwrap c; unwrap (into_node c).

(** Run on the path node below [octet], through its mutable reference. *)
Definition in_child {A} (node : N) (octet : nat) (run : N -> outcome (A * N)) : outcome (A * N) :=
  n ← child_node node octet;
  '(ret, n) ← run n;
  node ← write_child node octet (Path n);
  mret (ret, node).

(** ** Insertion (iptrie/insert.rs) *)

(** Replace the leaf or fringe below [octet] by a path node that holds it; [reinsert] is the
    recursive call for a leaf. *)
Definition replace_child (node : N) (octet : nat) (reinsert : N -> IpNet -> T -> outcome (option T * N)) : outcome N :=
  '(removed, node) ← insert_child node octet (Path node_default);
  removed ← unwrap removed;
  n ← child_node node octet;
  n ← match removed with
      | Fringe old => i ← new 1; '(_, n) ← insert_prefix n i old; mret n
      | Leaf leaf_prefix leaf_value => '(_, n) ← reinsert n leaf_prefix leaf_value; mret n
      | Path _ => Panic
      end;
  write_child node octet (Path n).

(** The loop over the octets from [depth] on; each iteration and each recursive call for a
    displaced leaf moves one octet down, so the fuel bounds the depth. *)
Fixpoint insert_loop (fuel : nat) (node : N) (prefix : IpNet) (val : T) (depth : nat) : outcome (option T * N) :=
  match fuel with
  | O => Panic
  | S fuel =>
      let '(pfx_full_strides, pfx_overflow_bits) := stride_count_and_overflow prefix in
      match ip_octets (net_addr prefix) !! depth with
      | None => mret (None, node)
      | Some octet =>
          let descend node := in_child node octet (fun n => insert_loop fuel n prefix val (S depth)) in
          let replace node := replace_child node octet (fun n p v => insert_loop fuel n p v (S depth)) in
          if decide (depth = pfx_full_strides) then
            i ← from_prefix octet pfx_overflow_bits;
            insert_prefix node i val
          else
            occupied ← Bitset.test (child_bitset node) octet;
            if negb occupied then
              fringe ← is_fringe depth prefix;
              '(old, node) ← insert_child node octet (if fringe : bool then Fringe val else Leaf prefix val);
              mret (old ≫= into_value, node)
            else
              c ← get_child node octet;
              c ← unwrap c;
              match c with
              | Leaf leaf_pfx leaf_value =>
                  if decide (prefix = leaf_pfx) then
                    node ← write_child node octet (Leaf leaf_pfx val);
                    mret (Some leaf_value, node)
                  else node ← replace node; descend node
              | Fringe old =>
                  fringe ← is_fringe depth prefix;
                  if fringe : bool then
                    node ← write_child node octet (Fringe val);
                    mret (Some old, node)
                  else node ← replace node; descend node
              | Path _ => descend node
              end
      end
  end.

Definition insert_inner (node : N) (prefix : IpNet) (val : T) (depth : nat) : outcome (option T * N) :=
  insert_loop (S MAX_DEPTH) node prefix val depth.

Definition insert (node : N) (prefix : IpNet) (val : T) : outcome (option T * N) :=
  insert_inner node (net_trunc prefix) val 0.

(** ** Removal (iptrie/remove.rs) *)

Record RemovalInfo : Type := mkRemoval {
  value : T;
  compression_root_depth : nat;
  node_prefix : IpNet;
}.

Definition try_remove_last_child (node : N) (octets : list nat) (depth : nat) (ipv4 : bool)
    (root_depth : nat) : outcome (option RemovalInfo * N) :=
  if decide (depth = root_depth) then mret (None, node)
  else
    match child_count node, prefix_count node with
    | 0%nat, 1%nat =>
        i ← unwrap (Bitset.first_set (prefix_bitset node));
        i ← new (i mod 256)%nat;
        '(v, node) ← remove_prefix node i;
        v ← unwrap v;
        p ← prefix_from_path octets depth ipv4 i;
        mret (Some (mkRemoval v root_depth p), node)
    | 1%nat, 0%nat =>
        addr ← unwrap (Bitset.first_set (child_bitset node));
        let addr := (addr mod 256)%nat in
        c ← get_child node addr;
        c ← unwrap c;
        match c with
        | Path _ => mret (None, node)
        | _ =>
            '(removed, node) ← remove_child node addr;
            removed ← unwrap removed;
            match removed with
            | Fringe val =>
                p ← fringe_prefix octets depth ipv4 addr;
                mret (Some (mkRemoval val root_depth p), node)
            | Leaf p val => mret (Some (mkRemoval val root_depth p), node)
            | Path _ => Panic
            end
        end
    | _, _ => mret (None, node)
    end.

Fixpoint compress_loop (path octets : list nat) (info : RemovalInfo) (root : N) : outcome N :=
  match path with
  | [] =>
      addr ← index octets (compression_root_depth info);
      '(removed, root) ← remove_child root addr;
      if decide (removed = None) then Panic
      else
        '(_, root) ← insert_inner root (node_prefix info) (value info) (compression_root_depth info);
        mret root
  | octet :: path =>
      '(_, root) ← in_child root octet (fun n => n ← compress_loop path octets info n; mret (tt, n));
      mret root
  end.

(** [octets[..compression_root_depth]] panics out of range. *)
Definition compress_removal_path (root : N) (info : RemovalInfo) : outcome N :=
  let octets := ip_octets (net_addr (node_prefix info)) in
  if decide (compression_root_depth info <= length octets)%nat then
    compress_loop (take (compression_root_depth info) octets) octets info root
  else Panic.

(** The arm [has_immediate_child]. *)
Definition remove_immediate (node : N) (octets : list nat) (octet : nat) (prefix : IpNet) (depth root_depth : nat)
    : outcome ((option T * option RemovalInfo) * N) :=
  '(c, node) ← remove_child node octet;
  c ← unwrap c;
  '(info, node) ← try_remove_last_child node octets depth (is_ipv4 (net_addr prefix)) root_depth;
  mret ((into_value c, info), node).

(** The loop of [remove_inner] on the octets left. *)
Fixpoint remove_loop (os octets : list nat) (node : N) (prefix : IpNet) (depth root_depth : nat)
    : outcome ((option T * option RemovalInfo) * N) :=
  match os with
  | [] => mret ((None, None), node)
  | octet :: os =>
      let '(stride_count, overflow_bits) := stride_count_and_overflow prefix in
      if decide (depth = stride_count) then
        i ← from_prefix octet overflow_bits;
        '(ret, node) ← remove_prefix node i;
        '(info, node) ← try_remove_last_child node octets depth (is_ipv4 (net_addr prefix)) root_depth;
        mret ((ret, info), node)
      else
        c ← get_child node octet;
        let remove_here := remove_immediate node octets octet prefix depth root_depth in
        match c with
        | None => mret ((None, None), node)
        | Some (Leaf leaf_prefix _) =>
            if decide (leaf_prefix <> prefix) then mret ((None, None), node) else remove_here
        | Some (Fringe _) =>
            fringe ← is_fringe depth prefix;
            if negb fringe then mret ((None, None), node) else remove_here
        | Some (Path _) =>
            let is_deletable := (child_count node =? 1)%nat && (prefix_count node =? 0)%nat in
            let root_depth := if is_deletable then root_depth else depth in
            in_child node octet (fun n => remove_loop os octets n prefix (S depth) root_depth)
        end
  end.

Definition remove (node : N) (prefix : IpNet) : outcome (option T * N) :=
  let prefix := net_trunc prefix in
  let octets := ip_octets (net_addr prefix) in
  '((ret, removal), node) ← remove_loop octets octets node prefix 0 0;
  match removal with
  | Some info => node ← compress_removal_path node info; mret (ret, node)
  | None => mret (ret, node)
  end.

(** ** Modification (iptrie/modify.rs)

    The closure gets a reference to the value, if there is one: it returns its decision and
    what it wrote through the reference.  Since it may also note its decision in a captured
    variable, the functions return the decision with their result. *)
Inductive RouteModification : Type :=
| Insert (t : T)
| Remove
| Noop.

(** The value returned, and the decision of the closure if it was called. *)
Abbreviation Reply := (option T * option RouteModification)%type.

(** The arm for a prefix that ends in this node. *)
Definition modify_prefix (node : N) (octets : list nat) (prefix : IpNet)
    (f : option T -> RouteModification * option T) (depth root_depth : nat) (i : BaseIndex)
    : outcome ((Reply * option RemovalInfo) * N) :=
  v ← get_prefix_exact node i;
  let '(decision, written) := f v in
  node ← match v, written with
         | Some _, Some w => o ← set_prefix_mut node i w; unwrap o
         | _, _ => mret node
         end;
  match decision with
  | Remove =>
      '(ret, node) ← remove_prefix node i;
      '(info, node) ← try_remove_last_child node octets depth (is_ipv4 (net_addr prefix)) root_depth;
      mret (((ret, Some decision), info), node)
  | Insert t => '(ret, node) ← insert_prefix node i t; mret (((ret, Some decision), None), node)
  | Noop => mret (((None, Some decision), None), node)
  end.

Definition route_child (depth : nat) (prefix : IpNet) (t : T) : outcome (Child N T) :=
  fringe ← is_fringe depth prefix; mret (if fringe : bool then Fringe t else Leaf prefix t).

(** The arm without a child at the octet. *)
Definition modify_vacant (node : N) (octet : nat) (prefix : IpNet)
    (f : option T -> RouteModification * option T) (depth : nat) : outcome ((Reply * option RemovalInfo) * N) :=
  let decision := fst (f None) in
  match decision with
  | Remove | Noop => mret (((None, Some decision), None), node)
  | Insert t =>
      c ← route_child depth prefix t;
      '(_, node) ← insert_child node octet c;
      mret (((None, Some decision), None), node)
  end.

(** The arms for a leaf or fringe of another prefix. *)
Definition modify_absent (node : N) (prefix : IpNet)
    (f : option T -> RouteModification * option T) (depth : nat) : outcome ((Reply * option RemovalInfo) * N) :=
  let decision := fst (f None) in
  match decision with
  | Noop | Remove => mret (((None, Some decision), None), node)
  | Insert t => '(ret, node) ← insert_inner node prefix t depth; mret (((ret, Some decision), None), node)
  end.

(** The arm for the leaf or fringe of the prefix; [put] writes through its reference. *)
Definition modify_present (node : N) (octets : list nat) (octet : nat) (prefix : IpNet)
    (f : option T -> RouteModification * option T) (depth root_depth : nat) (v : T) (put : T -> Child N T)
    : outcome ((Reply * option RemovalInfo) * N) :=
  let '(decision, written) := f (Some v) in
  node ← match written with Some w => write_child node octet (put w) | None => mret node end;
  match decision with
  | Noop => mret (((None, Some decision), None), node)
  | Insert t =>
      c ← route_child depth prefix t;
      '(old, node) ← insert_child node octet c;
      old ← unwrap old;
      mret (((into_value old, Some decision), None), node)
  | Remove =>
      '(old, node) ← remove_child node octet;
      old ← unwrap old;
      '(info, node) ← try_remove_last_child node octets depth (is_ipv4 (net_addr prefix)) root_depth;
      mret (((into_value old, Some decision), info), node)
  end.

(** [modify_inner] on the octets left. *)
Fixpoint modify_loop (os octets : list nat) (node : N) (prefix : IpNet)
    (f : option T -> RouteModification * option T) (depth root_depth : nat)
    : outcome ((Reply * option RemovalInfo) * N) :=
  match os with
  | [] => mret (((None, None), None), node)
  | octet :: os =>
      let '(stride_count, overflow_bits) := stride_count_and_overflow prefix in
      if decide (depth = stride_count) then
        i ← from_prefix octet overflow_bits;
        modify_prefix node octets prefix f depth root_depth i
      else
        c ← get_child node octet;
        match c with
        | None => modify_vacant node octet prefix f depth
        | Some (Leaf leaf_prefix v) =>
            if decide (leaf_prefix <> prefix) then modify_absent node prefix f depth
            else modify_present node octets octet prefix f depth root_depth v (Leaf leaf_prefix)
        | Some (Fringe v) =>
            fringe ← is_fringe depth prefix;
            if negb fringe then modify_absent node prefix f depth
            else modify_present node octets octet prefix f depth root_depth v Fringe
        | Some (Path _) =>
            let is_deletable := (child_count node =? 1)%nat && (prefix_count node =? 0)%nat in
            let root_depth := if is_deletable then root_depth else depth in
            in_child node octet (fun n => modify_loop os octets n prefix f (S depth) root_depth)
        end
  end.

Definition modify (node : N) (prefix : IpNet) (f : option T -> RouteModification * option T)
    : outcome (Reply * N) :=
  let prefix := net_trunc prefix in
  let octets := ip_octets (net_addr prefix) in
  '((ret, removal), node) ← modify_loop octets octets node prefix f 0 0;
  match removal with
  | Some info => node ← compress_removal_path node info; mret (ret, node)
  | None => mret (ret, node)
  end.

(** ** Lookups (iptrie/mod.rs, iptrie/lookup/) *)

Fixpoint contains_loop (os : list nat) (node : N) (ip : IpAddr) : outcome bool :=
  match os with
  | [] => mret false
  | octet :: os =>
      i ← from_pfx_7 octet;
      hit ← (if (prefix_count node =? 0)%nat then mret false else supersets_prefix node i);
      if hit : bool then mret true
      else
        c ← get_child node octet;
        match c with
        | None => mret false
        | Some (Path n) => contains_loop os n ip
        | Some (Fringe _) => mret true
        | Some (Leaf p _) => mret (net_contains p ip)
        end
  end.

Definition contains (node : N) (ip : IpAddr) : outcome bool := contains_loop (ip_octets ip) node ip.

(** The end of the loop is [unreachable!]. *)
Fixpoint exact_loop (os : list nat) (node : N) (prefix : IpNet) (depth : nat) : outcome (option T) :=
  match os with
  | [] => Panic
  | octet :: os =>
      let '(last_octet_plus_one, last_bits) := stride_count_and_overflow prefix in
      if decide (depth = last_octet_plus_one) then
        i ← from_prefix octet last_bits; get_prefix_exact node i
      else
        c ← get_child node octet;
        match c with
        | None => mret None
        | Some (Path child) => exact_loop os child prefix (S depth)
        | Some (Leaf leaf_prefix v) => mret (if decide (prefix = leaf_prefix) then Some v else None)
        | Some (Fringe v) => fringe ← is_fringe depth prefix; mret (if fringe : bool then Some v else None)
        end
  end.

Definition lookup_prefix_exact (node : N) (prefix : IpNet) : outcome (option T) :=
  exact_loop (ip_octets (net_addr prefix)) node prefix 0.

(** The nodes on the way to an address with the octets taken there, deepest first; a
    [heapless::Vec] of capacity [MAX_DEPTH], whose failed [push] is unwrapped. *)
Abbreviation Stack := (list (N * nat)).

Definition push {A} (stack : list A) (x : A) : outcome (list A) :=
  if decide (length stack < MAX_DEPTH)%nat then Done (x :: stack) else Panic.

(** The descent of [lookup_address] and [lookup_address_all]: the value of a matching leaf
    or fringe, if the descent ends in one, and the stack. *)
Fixpoint descend (os : list nat) (node : N) (addr : IpAddr) (stack : Stack) : outcome (option T * Stack) :=
  match os with
  | [] => mret (None, stack)
  | octet :: os =>
      stack ← push stack (node, octet);
      c ← get_child node octet;
      match c with
      | None => mret (None, stack)
      | Some (Path n) => descend os n addr stack
      | Some (Fringe v) => mret (Some v, stack)
      | Some (Leaf p v) => mret (if net_contains p addr then Some v else None, stack)
      end
  end.

(** [walk_stack]: the state is the stack and the iterator of the node on its top. *)
Fixpoint walk_loop (fuel : nat) (stack : Stack) (prefix_iter : option (N * Bitset.Bitset))
    : outcome (option T * (Stack * option (N * Bitset.Bitset))) :=
  match fuel with
  | O => Panic
  | S fuel =>
      match stack with
      | [] => mret (None, ([], prefix_iter))
      | (node, octet) :: below =>
          match prefix_iter with
          | Some (n, yield_state) =>
              '(r, yield_state) ← prefix_iter_next n yield_state;
              match r with
              | Some (_, val) => mret (Some val, (stack, Some (n, yield_state)))
              | None => walk_loop fuel below None
              end
          | None =>
              yield_state ← for_octet node octet;
              walk_loop fuel stack (Some (node, yield_state))
          end
      end
  end.

(** An iteration sets up an iterator or pops the stack. *)
Definition walk_stack (stack : Stack) (prefix_iter : option (N * Bitset.Bitset))
    : outcome (option T * (Stack * option (N * Bitset.Bitset))) :=
  walk_loop (2 * length stack + 1) stack prefix_iter.

Definition lookup_address (node : N) (addr : IpAddr) : outcome (option T) :=
  '(v, stack) ← descend (ip_octets addr) node addr [];
  match v with
  | Some v => mret (Some v)
  | None => '(r, _) ← walk_stack stack None; mret r
  end.

Record LookupIter : Type := mkIter {
  iter_value : option T;
  iter_stack : Stack;
  iter_prefix : option (N * Bitset.Bitset);
}.

Definition lookup_address_all (node : N) (addr : IpAddr) : outcome LookupIter :=
  '(v, stack) ← descend (ip_octets addr) node addr [];
  mret (mkIter v stack None).

(** [Iterator::next] of [LookupIter]. *)
Definition iter_next (self : LookupIter) : outcome (option T * LookupIter) :=
  match iter_value self with
  | Some val => mret (Some val, mkIter None (iter_stack self) (iter_prefix self))
  | None =>
      '(r, (stack, prefix_iter)) ← walk_stack (iter_stack self) (iter_prefix self);
      mret (r, mkIter None stack prefix_iter)
  end.

(** The descent of [lookup_prefix_lpm]: a result, or the stack with the depths.  The
    pattern [Child::Leaf { prefix, value }] shadows the prefix looked up, so both sides of
    the test are about the leaf. *)
Fixpoint lpm_descend (os : list nat) (node : N) (prefix : IpNet) (depth : nat) (stack : list (N * nat * nat))
    : outcome (option (IpNet * T) * list (N * nat * nat)) :=
  match os with
  | [] => mret (None, stack)
  | octet :: os =>
      let '(last_octet_plus_one, _) := stride_count_and_overflow prefix in
      if decide (last_octet_plus_one < depth)%nat then mret (None, stack)
      else
        stack ← push stack (node, octet, depth);
        c ← get_child node octet;
        match c with
        | None => mret (None, stack)
        | Some (Path n) => lpm_descend os n prefix (S depth) stack
        | Some (Leaf p v) =>
            if (net_prefix_len p <? net_prefix_len p)%nat || negb (net_contains p (net_addr p))
            then mret (None, stack)
            else mret (Some (p, v), stack)
        | Some (Fringe v) =>
            let fringe_prefix_len := ((depth + 1) * 8)%nat in
            if decide (net_prefix_len prefix < fringe_prefix_len)%nat then mret (None, stack)
            else p ← new_assert (net_addr prefix) fringe_prefix_len; mret (Some (p, v), stack)
        end
  end.

Fixpoint lpm_unwind (stack : list (N * nat * nat)) (prefix : IpNet) : outcome (option (IpNet * T)) :=
  match stack with
  | [] => mret None
  | (node, octet, depth) :: stack =>
      let '(last_octet_plus_one, last_bits) := stride_count_and_overflow prefix in
      if (prefix_count node =? 0)%nat then lpm_unwind stack prefix
      else
        i ← (if decide (depth = last_octet_plus_one) then from_prefix octet last_bits else from_pfx_7 octet);
        r ← lookup_index node i;
        match r with
        | None => lpm_unwind stack prefix
        | Some (top, val) =>
            l ← prefix_bits top depth;
            p ← new_assert (net_addr prefix) l;
            mret (Some (p, val))
        end
  end.

Definition lookup_prefix_lpm (node : N) (prefix : IpNet) : outcome (option (IpNet * T)) :=
  let prefix := net_trunc prefix in
  '(r, stack) ← lpm_descend (ip_octets (net_addr prefix)) node prefix 0 [];
  match r with
  | Some r => mret (Some r)
  | None => lpm_unwind stack prefix
  end.

End Trie.
End IpTrie.
