(* ===== verification/IpTrieSpec.v ===== *)
(** * The trie as a map from prefixes to values

    [sem] reads a trie as a function on bit strings, [ok] is its well-formedness: path
    compression (every path node below the root holds two entries or leads to one that
    does) and leaves stored below the octets they start with.  Insertion, modification and
    removal keep [ok] and change [sem] at one bit string. *)

From Stdlib Require Import ZifyNat.
From S2P Require Import Prelude Bitset BaseIndex IpNet BartNode IpTrie.
Import BaseIndex IpNet BartNode IpTrie.

Module IpTrieSpec.

Ltac ndlia := zify; Z.to_euclidean_division_equations; lia.

(** ** Total correctness of an outcome *)

Definition returns {A} (m : outcome A) (Q : A -> Prop) : Prop :=
  match m with Done a => Q a | Panic => False end.

Lemma returns_bind {A B} (m : outcome A) (f : A -> outcome B) Q :
  returns m (fun a => returns (f a) Q) -> returns (m ≫= f) Q.
Proof. by destruct m. Qed.

Lemma returns_mono {A} (m : outcome A) (P Q : A -> Prop) :
  returns m P -> (forall a, P a -> Q a) -> returns m Q.
Proof. destruct m; simpl; auto. Qed.

Lemma returns_Done {A} (m : outcome A) (Q : A -> Prop) : returns m Q <-> exists a, m = Done a /\ Q a.
Proof. destruct m; simpl; naive_solver. Qed.

Section Spec.
Context `{HI : Ipnet} `{HL : !IpnetLaws} {N T : Type} `{HO : !StrideOps N T} `{HS : !StrideLaws N T}.

(** The address family of the trie. *)
Context (fam : bool).

Implicit Types n : N.
Implicit Types k : list bool.
Implicit Types p : IpNet.
Implicit Types path : list nat.

(** ** Semantics *)

(** What the child of an octet says about the bits below it; [sub] reads a path node. *)
Definition child_sem (sub : N -> list bool -> option T) (path : list nat) (oc : option (Child N T)) (k : list bool)
    : option T :=
  match oc with
  | None => None
  | Some (Path n) => sub n k
  | Some (Fringe v) => if decide (k = []) then Some v else None
  | Some (Leaf p v) => if decide (key p = octs_bits path ++ k) then Some v else None
  end.

(** The value stored for the bit string [k] below [path]; [r] octets are left. *)
Fixpoint sem (r : nat) (path : list nat) (n : N) (k : list bool) : option T :=
  match r with
  | O => None
  | S r =>
      if decide (length k < 8)%nat then pmap n !! idx k
      else
        let o := octet_of (take 8 k) in
        child_sem (sem r (path ++ [o])) (path ++ [o]) (cmap n !! o) (drop 8 k)
  end.

(** ** Well-formedness *)

(** A leaf below [path]. *)
Definition leaf_ok (path : list nat) (p : IpNet) : Prop :=
  truncated p /\ is_ipv4 (net_addr p) = fam /\
  take (length path) (ip_octets (net_addr p)) = path /\ (8 * length path < net_prefix_len p)%nat.

(** A prefix stored at or below [path]. *)
Definition on_path (path : list nat) (p : IpNet) : Prop :=
  truncated p /\ is_ipv4 (net_addr p) = fam /\
  take (length path) (ip_octets (net_addr p)) = path /\ (8 * length path <= net_prefix_len p)%nat.

Definition entries n : nat := (size (pmap n) + size (cmap n))%nat.

(** A node that path compression keeps. *)
Definition branching n : Prop :=
  (2 <= entries n)%nat \/ pmap n = ∅ /\ exists o n', cmap n = {[ o := Path n' ]}.

Fixpoint ok (r : nat) (path : list nat) (n : N) : Prop :=
  match r with
  | O => False
  | S r =>
      node_wf n /\ forall o c, cmap n !! o = Some c ->
        match c with
        | Path n' => ok r (path ++ [o]) n' /\ branching n'
        | Leaf p _ => leaf_ok (path ++ [o]) p
        | Fringe _ => True
        end
  end.

(** The condition on one child. *)
Definition child_ok (r : nat) (path : list nat) (c : Child N T) : Prop :=
  match c with
  | Path n' => ok r path n' /\ branching n'
  | Leaf p _ => leaf_ok path p
  | Fringe _ => True
  end.

Lemma ok_wf r path n : ok r path n -> node_wf n.
Proof. destruct r; [done|]. by intros [H _]. Qed.

Lemma ok_child r path n o c : ok (S r) path n -> cmap n !! o = Some c -> child_ok r (path ++ [o]) c.
Proof. intros [_ H] Hc. specialize (H o c Hc). by destruct c. Qed.

Lemma ok_intro r path n :
  node_wf n -> (forall o c, cmap n !! o = Some c -> child_ok r (path ++ [o]) c) -> ok (S r) path n.
Proof. intros Hw H. split; [done|]. intros o c Hc. specialize (H o c Hc). by destruct c. Qed.

(** ** Reading [sem] *)

Lemma sem_short r path n k : (length k < 8)%nat -> sem (S r) path n k = pmap n !! idx k.
Proof. intros H. cbn [sem]. by rewrite decide_True. Qed.

Lemma sem_long r path n o k :
  (o < 256)%nat ->
  sem (S r) path n (octet_bits o ++ k) = child_sem (sem r (path ++ [o])) (path ++ [o]) (cmap n !! o) k.
Proof.
  intros Ho. cbn [sem]. rewrite decide_False by (rewrite length_app, octet_bits_length; lia). cbv zeta.
  rewrite take_app_le, take_ge by (by rewrite octet_bits_length).
  rewrite octet_of_bits, drop_app_ge by (done || by rewrite octet_bits_length).
  by rewrite octet_bits_length, drop_0.
Qed.

(** A bit string ends inside the first octet or starts with one. *)
Lemma key_cases k : (length k < 8)%nat \/ exists o k', (o < 256)%nat /\ k = octet_bits o ++ k'.
Proof.
  destruct (decide (length k < 8)%nat) as [H|H]; [by left|]. right.
  destruct (octet_bits_of (take 8 k)) as [E Hlt]; [rewrite length_take; lia|].
  exists (octet_of (take 8 k)), (drop 8 k). split; [done|]. by rewrite E, take_drop.
Qed.

Lemma octet_bits_app_inj o o' k k' :
  (o < 256)%nat -> (o' < 256)%nat -> octet_bits o ++ k = octet_bits o' ++ k' -> o = o' /\ k = k'.
Proof.
  intros Ho Ho' H. apply app_inj_1 in H as [E ->]; [|by rewrite !octet_bits_length]. split; [|done].
  rewrite <- (octet_of_bits o), <- (octet_of_bits o') by done. by rewrite E.
Qed.

Lemma sem_empty r path n k : pmap n = ∅ -> cmap n = ∅ -> sem r path n k = None.
Proof.
  intros Hp Hc. destruct r as [|r]; [done|]. destruct (key_cases k) as [H|(o & k' & Ho & ->)].
  - rewrite sem_short by done. by rewrite Hp, lookup_empty.
  - rewrite sem_long by done. by rewrite Hc, lookup_empty.
Qed.

Lemma entries_0 n : entries n = 0%nat -> pmap n = ∅ /\ cmap n = ∅.
Proof. unfold entries. intros H. split; apply map_size_empty_inv; lia. Qed.

Lemma sem_entries r path n k v : sem r path n k = Some v -> (1 <= entries n)%nat.
Proof.
  intros H. destruct (decide (entries n = 0)%nat) as [E|E]; [|lia].
  apply entries_0 in E as [Hp Hc]. rewrite sem_empty in H by done. done.
Qed.

(** ** Prefixes along a path *)

Lemma path_octet path p r :
  is_ipv4 (net_addr p) = fam -> (length path + S r = n_octets fam)%nat ->
  exists o, ip_octets (net_addr p) !! length path = Some o /\ (o < 256)%nat.
Proof.
  intros Hf Hr. destruct (lookup_lt_is_Some_2 (ip_octets (net_addr p)) (length path)) as [o Ho].
  { rewrite net_octets, Hf. lia. }
  exists o. split; [done|]. by eapply net_octet_lt.
Qed.

Lemma path_snoc path p o :
  take (length path) (ip_octets (net_addr p)) = path -> ip_octets (net_addr p) !! length path = Some o ->
  take (length (path ++ [o])) (ip_octets (net_addr p)) = path ++ [o].
Proof.
  intros Hp Ho. rewrite length_app. cbn [length]. rewrite Nat.add_1_r, (take_S_r _ _ _ Ho). by rewrite Hp.
Qed.

Lemma on_path_down path p o :
  on_path path p -> ip_octets (net_addr p) !! length path = Some o -> (8 <= length (rest (length path) p))%nat ->
  on_path (path ++ [o]) p.
Proof.
  intros (Ht & Hf & Hp & Hl) Ho Hk. rewrite rest_length in Hk. split_and!; [done..|by apply path_snoc|].
  rewrite length_app. simpl. lia.
Qed.

Lemma leaf_on_path path p : leaf_ok path p -> on_path path p.
Proof. intros (? & ? & ? & ?). split_and!; [done..|lia]. Qed.

(** A key equals the path followed by some bits exactly when these are the rest. *)
Lemma key_at_path path p k :
  on_path path p -> key p = octs_bits path ++ k <-> k = rest (length path) p.
Proof.
  intros (_ & _ & Hp & Hl). rewrite (key_rest (length path)) by done. rewrite Hp. split.
  - by intros ->%app_inv_head.
  - by intros ->.
Qed.

Lemma snoc_length (path : list nat) o : length (path ++ [o]) = S (length path).
Proof. rewrite length_app. simpl. lia. Qed.

(** [depth == stride_count]: the prefix ends inside this octet. *)
Lemma ends_here path p :
  on_path path p ->
  (length path = net_prefix_len p / 8)%nat <-> (length (rest (length path) p) < 8)%nat.
Proof. intros (_ & _ & _ & Hl). rewrite rest_length. ndlia. Qed.

Lemma overflow_bits path p :
  on_path path p -> (length (rest (length path) p) < 8)%nat ->
  (net_prefix_len p mod 8)%nat = length (rest (length path) p).
Proof. intros (_ & _ & _ & Hl) H. rewrite rest_length in *. ndlia. Qed.

Lemma is_fringe_spec path p :
  on_path path p -> (8 <= length (rest (length path) p))%nat ->
  is_fringe (length path) p = Done (bool_decide (length (rest (length path) p) = 8%nat)).
Proof.
  intros (_ & _ & _ & Hl) H. rewrite rest_length in *. unfold is_fringe, stride_count_and_overflow, sub8.
  rewrite decide_True by ndlia. cbn [mbind outcome_bind]. unfold mret, outcome_ret. f_equal.
  apply eq_bool_prop_intro. rewrite bool_decide_spec, andb_True, !Is_true_true, !Nat.eqb_eq. ndlia.
Qed.

Lemma from_prefix_rest path p o :
  on_path path p -> ip_octets (net_addr p) !! length path = Some o -> (length (rest (length path) p) < 8)%nat ->
  from_prefix o (net_prefix_len p mod 8) = Done (idx (rest (length path) p)).
Proof.
  intros Hp Ho Hk. rewrite (overflow_bits path) by done.
  rewrite from_prefix_spec by (done || by eapply net_octet_lt). by rewrite <- (rest_short _ _ o) by done.
Qed.

Lemma idx_range k : (length k < 8)%nat -> (0 < idx k < 256)%nat.
Proof. intros H. pose proof (idx_pos k). pose proof (idx_lt k 8 H). change (2 ^ 8)%nat with 256%nat in *. lia. Qed.

(** ** Local changes of a node *)

Lemma sem_set_prefix r path n n' k0 (ov : option T) k :
  (length k0 < 8)%nat -> cmap n' = cmap n ->
  (forall j, pmap n' !! j = if decide (j = idx k0) then ov else pmap n !! j) ->
  sem (S r) path n' k = if decide (k = k0) then ov else sem (S r) path n k.
Proof.
  intros Hk0 Hc Hp. destruct (key_cases k) as [H|(o & k' & Ho & ->)].
  - rewrite !sem_short, Hp by done. destruct (decide (k = k0)) as [->|Hne].
    + by rewrite decide_True.
    + rewrite decide_False; [done|]. by intros ->%idx_inj.
  - rewrite !sem_long, Hc by done. rewrite decide_False; [done|]. intros <-.
    rewrite length_app, octet_bits_length in Hk0. lia.
Qed.

Lemma sem_set_child r path n n' o k1 (ov : option T) oc k :
  (o < 256)%nat -> pmap n' = pmap n ->
  (forall o', cmap n' !! o' = if decide (o' = o) then oc else cmap n !! o') ->
  (forall k', child_sem (sem r (path ++ [o])) (path ++ [o]) oc k' =
     if decide (k' = k1) then ov else child_sem (sem r (path ++ [o])) (path ++ [o]) (cmap n !! o) k') ->
  sem (S r) path n' k = if decide (k = octet_bits o ++ k1) then ov else sem (S r) path n k.
Proof.
  intros Ho Hp Hc Hs. destruct (key_cases k) as [H|(o' & k' & Ho' & ->)].
  - rewrite !sem_short, Hp by done. rewrite decide_False; [done|]. intros ->.
    rewrite length_app, octet_bits_length in H. lia.
  - rewrite !sem_long, Hc by done. destruct (decide (o' = o)) as [->|Hne].
    + rewrite Hs. destruct (decide (k' = k1)) as [->|Hk]; [by rewrite decide_True|].
      rewrite decide_False; [done|]. intros E%app_inv_head. done.
    + rewrite decide_False; [done|]. intros E. apply octet_bits_app_inj in E; naive_solver.
Qed.

Lemma ok_set_prefix r path n n' : ok (S r) path n -> node_wf n' -> cmap n' = cmap n -> ok (S r) path n'.
Proof. intros [_ H] Hw Hc. split; [done|]. by rewrite Hc. Qed.

Lemma ok_set_child r path n n' o c :
  ok (S r) path n -> node_wf n' -> cmap n' = <[o := c]> (cmap n) -> child_ok r (path ++ [o]) c -> ok (S r) path n'.
Proof.
  intros Hn Hw Hc Hco. apply ok_intro; [done|]. intros o' c'. rewrite Hc, lookup_insert_Some.
  intros [[<- <-]|[_ H]]; [done|by eapply ok_child].
Qed.

Lemma ok_del_child r path n n' o :
  ok (S r) path n -> node_wf n' -> cmap n' = base.delete o (cmap n) -> ok (S r) path n'.
Proof.
  intros Hn Hw Hc. apply ok_intro; [done|]. intros o' c'. rewrite Hc, lookup_delete_Some.
  intros [_ H]. by eapply ok_child.
Qed.

(** ** Branching *)

Lemma size_single {A} (m : gmap nat A) o c : size m = 1%nat -> m !! o = Some c -> m = {[ o := c ]}.
Proof.
  intros Hs Hc. assert (E : base.delete o m = ∅).
  { apply map_size_empty_inv. rewrite map_size_delete, Hc, Hs. done. }
  rewrite <- (insert_delete_id m o c Hc), E. apply insert_empty.
Qed.

Lemma entries_insert_prefix n n' i v :
  pmap n' = <[i := v]> (pmap n) -> cmap n' = cmap n ->
  entries n' = (match pmap n !! i with Some _ => entries n | None => S (entries n) end)%nat.
Proof.
  intros Hp Hc. unfold entries. rewrite Hp, Hc, map_size_insert. by destruct (pmap n !! i).
Qed.

Lemma entries_insert_child n n' o c :
  pmap n' = pmap n -> cmap n' = <[o := c]> (cmap n) ->
  entries n' = (match cmap n !! o with Some _ => entries n | None => S (entries n) end)%nat.
Proof.
  intros Hp Hc. unfold entries. rewrite Hp, Hc, map_size_insert. destruct (cmap n !! o); simpl; lia.
Qed.

Lemma branching_entries n : branching n -> (1 <= entries n)%nat.
Proof.
  intros [H|(Hp & o & n' & Hc)]; [lia|]. unfold entries. rewrite Hc, map_size_singleton. lia.
Qed.

Lemma branching_prefix n n' i v :
  pmap n' = <[i := v]> (pmap n) -> cmap n' = cmap n -> branching n -> branching n'.
Proof.
  intros Hp Hc Hb. left. rewrite (entries_insert_prefix n n' i v) by done. destruct Hb as [H|(He & Hs)].
  - destruct (pmap n !! i); lia.
  - rewrite He, lookup_empty. destruct Hs as (o & n1 & Hs). unfold entries. rewrite Hs, map_size_singleton. lia.
Qed.

(** Writing a path node where there was a child. *)
Lemma branching_path n n' o n1 :
  pmap n' = pmap n -> cmap n' = <[o := Path n1]> (cmap n) -> is_Some (cmap n !! o) -> branching n'.
Proof.
  intros Hp Hc [c Ho]. pose proof (entries_insert_child n n' o (Path n1) Hp Hc) as He. rewrite Ho in He.
  destruct (decide (2 <= entries n)%nat) as [H|H]; [left; lia|]. right.
  assert (Hs : (1 <= size (cmap n))%nat).
  { apply Nat.le_succ_l, Nat.neq_0_lt_0. intros E%map_size_empty_inv. by rewrite E in Ho. }
  unfold entries in H. rewrite Hp, Hc. split; [apply map_size_empty_inv; lia|]. exists o, n1.
  rewrite (size_single (cmap n) o c) by (done || lia). by rewrite insert_singleton_eq.
Qed.

(** Adding a child, or replacing one that is not a path node. *)
Lemma branching_child n n' o c :
  pmap n' = pmap n -> cmap n' = <[o := c]> (cmap n) ->
  (forall n1, cmap n !! o <> Some (Path n1)) -> branching n -> branching n'.
Proof.
  intros Hp Hc Hno Hb. left. rewrite (entries_insert_child n n' o c) by done. destruct Hb as [H|(He & o1 & n1 & Hs)].
  - destruct (cmap n !! o); lia.
  - destruct (decide (o = o1)) as [->|Hne].
    + exfalso. apply (Hno n1). by rewrite Hs, lookup_singleton_eq.
    + rewrite Hs, lookup_singleton_ne by done. unfold entries. rewrite Hs, map_size_singleton. lia.
Qed.

(** ** Operations *)

Lemma write_child_spec n o c x :
  node_wf n -> cmap n !! o = Some x ->
  exists n', write_child n o c = Done n' /\ node_wf n' /\ pmap n' = pmap n /\ cmap n' = <[o := c]> (cmap n).
Proof.
  intros Hw Hc. destruct (set_child_spec n o c x Hw Hc) as (n' & E & H). exists n'.
  unfold write_child. by rewrite E.
Qed.

Lemma child_node_spec n o n1 :
  node_wf n -> cmap n !! o = Some (Path n1) -> child_node n o = Done n1.
Proof.
  intros Hw Hc. unfold child_node. rewrite get_child_spec by (done || by eapply cmap_range). by rewrite Hc.
Qed.

Lemma in_child_spec {A} n o n1 (run : N -> outcome (A * N)) a n1' :
  node_wf n -> cmap n !! o = Some (Path n1) -> run n1 = Done (a, n1') ->
  exists n', in_child n o run = Done (a, n') /\ node_wf n' /\ pmap n' = pmap n /\
    cmap n' = <[o := Path n1']> (cmap n).
Proof.
  intros Hw Hc Hr. unfold in_child. rewrite (child_node_spec n o n1) by done. cbn [mbind outcome_bind].
  rewrite Hr. cbn [mbind outcome_bind]. destruct (write_child_spec n o (Path n1') _ Hw Hc) as (n' & -> & H).
  by exists n'.
Qed.

Lemma test_child n o : node_wf n -> (o < 256)%nat ->
  Bitset.test (child_bitset n) o = Done (bool_decide (is_Some (cmap n !! o))).
Proof.
  intros Hw Ho. destruct (child_bitset_wf n Hw) as [Hb Hl]. rewrite Bitset.test_spec.
  - f_equal. apply eq_bool_prop_intro. rewrite bool_decide_spec, Is_true_true. by apply child_bitset_mem.
  - done.
  - rewrite Hl. exact Ho.
Qed.

Lemma default_node_ok r path : ok (S r) path node_default.
Proof. apply ok_intro; [apply default_wf|]. intros o c. by rewrite default_cmap, lookup_empty. Qed.

Lemma default_sem r path k : sem r path node_default k = None.
Proof. apply sem_empty; [apply default_pmap|apply default_cmap]. Qed.

(** ** Insertion *)

(** What an insertion of [p] at [path] returns and leaves behind. *)
Definition inserted (r : nat) path n p (v : T) (old : option T) n' : Prop :=
  old = sem r path n (rest (length path) p) /\ ok r path n' /\
  (forall k, sem r path n' k = if decide (k = rest (length path) p) then Some v else sem r path n k) /\
  (branching n -> branching n') /\
  ((1 <= entries n)%nat -> sem r path n (rest (length path) p) = None -> branching n').

Definition inserts (r : nat) (run : N -> IpNet -> T -> outcome (option T * N)) : Prop :=
  forall path n p v, (length path + r = n_octets fam)%nat -> ok r path n -> on_path path p ->
    exists old n', run n p v = Done (old, n') /\ inserted r path n p v old n'.

(** The prefix ends in this node. *)
Lemma insert_prefix_ok r path n p v o :
  ok (S r) path n -> on_path path p -> ip_octets (net_addr p) !! length path = Some o ->
  (length (rest (length path) p) < 8)%nat ->
  exists old n', insert_prefix n (idx (rest (length path) p)) v = Done (old, n') /\
    inserted (S r) path n p v old n'.
Proof.
  intros Hn Hp Ho Hk. set (k0 := rest (length path) p) in *. pose proof (ok_wf _ _ _ Hn) as Hw.
  destruct (insert_prefix_spec n (idx k0) v Hw (idx_range k0 Hk)) as (n' & E & Hw' & Hpm & Hcm).
  exists (pmap n !! idx k0), n'. split; [done|]. unfold inserted. fold k0. split_and!.
  - by rewrite sem_short.
  - by apply (ok_set_prefix r path n).
  - intros k. apply sem_set_prefix; [done..|]. intros j. rewrite Hpm.
    destruct (decide (j = idx k0)) as [->|Hne]; [apply lookup_insert_eq|by apply lookup_insert_ne].
  - by apply (branching_prefix n n' (idx k0) v).
  - intros He Hnone. rewrite sem_short in Hnone by done. left.
    rewrite (entries_insert_prefix n n' (idx k0) v), Hnone by done. lia.
Qed.

(** The new child of an octet. *)
Definition new_child p (v : T) k : Child N T :=
  if bool_decide (length k = 8%nat) then Fringe v else Leaf p v.

Lemma new_child_ok r path p v o :
  on_path path p -> ip_octets (net_addr p) !! length path = Some o -> (8 <= length (rest (length path) p))%nat ->
  child_ok r (path ++ [o]) (new_child p v (rest (length path) p)) /\
  forall sub k, child_sem sub (path ++ [o]) (Some (new_child p v (rest (length path) p))) k =
    if decide (k = rest (S (length path)) p) then Some v else None.
Proof.
  intros Hp Ho Hk. pose proof (on_path_down path p o Hp Ho Hk) as Hd. pose proof Hd as (Ht & Hf & Htk & Hl).
  rewrite rest_length in Hk. unfold new_child. rewrite rest_length.
  case_bool_decide as H8; cbn [child_ok child_sem].
  - split; [done|]. intros _ k. assert (Hnil : rest (S (length path)) p = []).
    { apply nil_length_inv. rewrite rest_length. lia. }
    rewrite Hnil. by repeat case_decide.
  - split; [split_and!; [done..|rewrite snoc_length; lia]|]. intros _ k.
    pose proof (key_at_path (path ++ [o]) p k Hd) as Hkey. rewrite snoc_length in Hkey.
    destruct (decide (k = rest (S (length path)) p)) as [E|E].
    + rewrite decide_True; [done|]. by apply Hkey.
    + rewrite decide_False; [done|]. by intros ?%Hkey.
Qed.

(** A child added, or a leaf or fringe with the same bits replaced. *)
Lemma insert_child_ok r path n n' p v o :
  ok (S r) path n -> on_path path p -> ip_octets (net_addr p) !! length path = Some o ->
  (8 <= length (rest (length path) p))%nat ->
  node_wf n' -> pmap n' = pmap n -> cmap n' = <[o := new_child p v (rest (length path) p)]> (cmap n) ->
  (forall n1, cmap n !! o <> Some (Path n1)) ->
  (forall sub k, k <> rest (S (length path)) p -> child_sem sub (path ++ [o]) (cmap n !! o) k = None) ->
  (is_Some (cmap n !! o) -> sem (S r) path n (rest (length path) p) <> None) ->
  inserted (S r) path n p v (sem (S r) path n (rest (length path) p)) n'.
Proof.
  intros Hn Hp Ho Hk Hw' Hpm Hcm Hno Hother Hsome. pose proof (net_octet_lt _ _ _ Ho) as Hlt.
  destruct (new_child_ok r path p v o Hp Ho Hk) as [Hc Hs]. split_and!.
  - done.
  - by eapply ok_set_child.
  - intros k. rewrite (rest_long _ _ o Ho Hk). eapply sem_set_child; [done..| |].
    + intros o'. rewrite Hcm. destruct (decide (o' = o)) as [->|Hne]; [apply lookup_insert_eq|by apply lookup_insert_ne].
    + intros k'. rewrite Hs. destruct (decide (k' = rest (S (length path)) p)) as [E|E]; [done|]. by rewrite Hother.
  - by apply (branching_child n n' o (new_child p v (rest (length path) p))).
  - intros He Hnone. left. rewrite (entries_insert_child n n' o (new_child p v (rest (length path) p))) by done.
    destruct (cmap n !! o) eqn:Ec; [|lia]. exfalso. apply Hsome; [done|exact Hnone].
Qed.

(** A node in which the path node below [o] got the prefix. *)
Lemma insert_below_ok r path n n' n1 n1' p v o old :
  ok (S r) path n -> on_path path p -> ip_octets (net_addr p) !! length path = Some o ->
  (8 <= length (rest (length path) p))%nat ->
  (forall k, sem r (path ++ [o]) n1 k = child_sem (sem r (path ++ [o])) (path ++ [o]) (cmap n !! o) k) ->
  is_Some (cmap n !! o) ->
  inserted r (path ++ [o]) n1 p v old n1' -> branching n1' ->
  node_wf n' -> pmap n' = pmap n -> cmap n' = <[o := Path n1']> (cmap n) ->
  inserted (S r) path n p v old n'.
Proof.
  intros Hn Hp Ho Hk Hsame Hsome (Hold & Hok & Hsem & _ & _) Hb Hw' Hpm Hcm.
  pose proof (net_octet_lt _ _ _ Ho) as Hlt. rewrite snoc_length in Hold, Hsem.
  assert (Hbr : branching n') by (by apply (branching_path n n' o n1')). split_and!; [|..|done|done].
  - rewrite (rest_long _ _ o Ho Hk), sem_long by done. by rewrite <- Hsame.
  - eapply ok_set_child; [done..|]. by split.
  - intros k. rewrite (rest_long _ _ o Ho Hk). eapply sem_set_child; [done..| |].
    + intros o'. rewrite Hcm. destruct (decide (o' = o)) as [->|Hne]; [apply lookup_insert_eq|by apply lookup_insert_ne].
    + intros k'. cbn [child_sem]. by rewrite Hsem, Hsame.
Qed.

Lemma replace_child_ok r path n o c run :
  ok (S r) path n -> (length path + S r = n_octets fam)%nat -> cmap n !! o = Some c -> (1 <= r)%nat ->
  (forall n1, c <> Path n1) -> inserts r run ->
  exists n1 n', replace_child n o run = Done n' /\ node_wf n' /\ pmap n' = pmap n /\
    cmap n' = <[o := Path n1]> (cmap n) /\ ok r (path ++ [o]) n1 /\ (1 <= entries n1)%nat /\
    forall k, sem r (path ++ [o]) n1 k = child_sem (sem r (path ++ [o])) (path ++ [o]) (Some c) k.
Proof.
  intros Hn Hr Hc Hr1 Hno Hrun. pose proof (ok_wf _ _ _ Hn) as Hw. pose proof (cmap_range _ _ _ Hw Hc) as Ho.
  pose proof (ok_child _ _ _ _ _ Hn Hc) as Hco. unfold replace_child.
  destruct (insert_child_spec n o (Path node_default) Hw Ho) as (n2 & -> & Hw2 & Hp2 & Hc2).
  cbn [mbind outcome_bind]. rewrite Hc. cbn [unwrap mbind outcome_bind].
  assert (Hc2o : cmap n2 !! o = Some (Path node_default)) by (by rewrite Hc2, lookup_insert_eq).
  rewrite (child_node_spec n2 o node_default) by done. cbn [mbind outcome_bind].
  assert (Hgo : forall n1, ok r (path ++ [o]) n1 -> (1 <= entries n1)%nat ->
    (forall k, sem r (path ++ [o]) n1 k = child_sem (sem r (path ++ [o])) (path ++ [o]) (Some c) k) ->
    exists n3 n', write_child n2 o (Path n1) = Done n' /\ node_wf n' /\ pmap n' = pmap n /\
    cmap n' = <[o := Path n3]> (cmap n) /\ ok r (path ++ [o]) n3 /\ (1 <= entries n3)%nat /\
    forall k, sem r (path ++ [o]) n3 k = child_sem (sem r (path ++ [o])) (path ++ [o]) (Some c) k).
  { intros n1 H1 H2 H3. exists n1. destruct (write_child_spec n2 o (Path n1) _ Hw2 Hc2o) as (n' & E & Hw' & Hp' & Hc').
    exists n'. split_and!; try done; [congruence|]. by rewrite Hc', Hc2, insert_insert_eq. }
  destruct r as [|r]; [lia|]. destruct c as [n1|lp lv|old]; [by destruct (Hno n1)| |].
  - pose proof (leaf_on_path _ _ Hco) as Hlp. pose proof Hco as (_ & _ & _ & Hll).
    destruct (Hrun (path ++ [o]) node_default lp lv) as (old & n1 & -> & _ & Hok1 & Hs1 & _);
      [rewrite snoc_length; lia|apply default_node_ok|done|].
    cbn [mbind outcome_bind mret outcome_ret]. apply Hgo; [done| |].
    + eapply sem_entries. rewrite Hs1, decide_True by done. done.
    + intros k. rewrite Hs1, default_sem. cbn [child_sem].
      pose proof (key_at_path _ lp k Hlp) as Hkey. repeat case_decide; tauto.
  - cbn [new try_new decide unwrap mbind outcome_bind].
    destruct (insert_prefix_spec node_default 1 old default_wf ltac:(lia)) as (n1 & E & Hw1 & Hp1 & Hc1).
    change (new 1) with (Done 1%nat). cbn [mbind outcome_bind]. rewrite E. cbn [mbind outcome_bind mret outcome_ret].
    assert (Hok1 : ok (S r) (path ++ [o]) n1) by (apply (ok_set_prefix r (path ++ [o]) node_default); [apply default_node_ok|done..]).
    assert (Hs1 : forall k, sem (S r) (path ++ [o]) n1 k = if decide (k = []) then Some old else None).
    { intros k. rewrite (sem_set_prefix r (path ++ [o]) node_default n1 [] (Some old) k); [|simpl; lia|done|].
      - by rewrite default_sem; repeat case_decide.
      - intros j. rewrite Hp1. change (idx []) with 1%nat.
        destruct (decide (j = 1)%nat) as [->|Hne]; [apply lookup_insert_eq|by apply lookup_insert_ne]. }
    apply Hgo; [done| |].
    + eapply sem_entries. by rewrite (Hs1 []).
    + intros k. by rewrite Hs1.
Qed.

(** A leaf or fringe makes room for the prefix. *)
Lemma insert_split_ok r path n p v o c run :
  ok (S r) path n -> (length path + S r = n_octets fam)%nat -> on_path path p ->
  ip_octets (net_addr p) !! length path = Some o -> (8 <= length (rest (length path) p))%nat ->
  cmap n !! o = Some c -> (1 <= r)%nat -> (forall n1, c <> Path n1) ->
  child_sem (sem r (path ++ [o])) (path ++ [o]) (Some c) (rest (S (length path)) p) = None ->
  inserts r run ->
  exists old n', (node ← replace_child n o run; in_child node o (fun n => run n p v)) = Done (old, n') /\
    inserted (S r) path n p v old n'.
Proof.
  intros Hn Hr Hp Ho Hk Hc Hr1 Hno Habs Hrun.
  destruct (replace_child_ok r path n o c run) as (n1 & n2 & -> & Hw2 & Hp2 & Hc2 & Hok1 & He1 & Hs1); [done..|].
  cbn [mbind outcome_bind].
  destruct (Hrun (path ++ [o]) n1 p v) as (old & n1' & E & Hins);
    [rewrite snoc_length; lia|done|by apply on_path_down|].
  destruct (in_child_spec n2 o n1 (fun n => run n p v) old n1') as (n' & -> & Hw' & Hp' & Hc');
    [done|by rewrite Hc2, lookup_insert_eq|done|].
  exists old, n'. split; [done|]. pose proof Hins as (_ & _ & _ & _ & Hbr). rewrite snoc_length in Hbr.
  eapply (insert_below_ok r path n n' n1 n1'); try done.
  - by rewrite Hc.
  - apply Hbr; [done|]. by rewrite Hs1.
  - congruence.
  - by rewrite Hc', Hc2, insert_insert_eq.
Qed.

Lemma long_room path p r :
  is_ipv4 (net_addr p) = fam -> (length path + S r = n_octets fam)%nat ->
  (8 * S (length path) < net_prefix_len p)%nat -> (1 <= r)%nat.
Proof. intros Hf Hr Hl. pose proof (net_len_ok p) as H. rewrite Hf in H. lia. Qed.

Lemma insert_loop_ok r fuel : (r <= fuel)%nat -> inserts r (fun n p v => insert_loop fuel n p v (n_octets fam - r)).
Proof.
  revert fuel. induction r as [|r IH]; intros fuel Hfuel path n p v Hr Hn Hp; [done|].
  destruct fuel as [|fuel]; [lia|]. replace (n_octets fam - S r)%nat with (length path) by lia.
  specialize (IH fuel ltac:(lia)). replace (n_octets fam - r)%nat with (S (length path)) in IH by lia.
  pose proof (ok_wf _ _ _ Hn) as Hw. pose proof Hp as (Ht & Hf & Htk & Hl).
  destruct (path_octet path p r Hf Hr) as (o & Ho & Hlt).
  cbn [insert_loop]. unfold stride_count_and_overflow. cbv zeta. rewrite Ho.
  destruct (decide (length path = net_prefix_len p / 8)%nat) as [Hd|Hd].
  { apply (ends_here path p Hp) in Hd. rewrite (from_prefix_rest path p o) by done. by eapply insert_prefix_ok. }
  assert (Hk : (8 <= length (rest (length path) p))%nat)
    by (destruct (decide (8 <= length (rest (length path) p))%nat); [done|]; exfalso; apply Hd, ends_here; [done|lia]).
  rewrite test_child by done. cbn [mbind outcome_bind]. rewrite is_fringe_spec by done.
  destruct (cmap n !! o) as [c|] eqn:Hc; [rewrite bool_decide_eq_true_2 by done|rewrite bool_decide_eq_false_2 by (by intros [])];
    cbn [negb mbind outcome_bind].
  2: { destruct (insert_child_spec n o (new_child p v (rest (length path) p)) Hw Hlt) as (n' & E & Hw' & Hpm & Hcm).
       unfold new_child in E. rewrite E, Hc. cbn [mbind outcome_bind option_bind mret outcome_ret].
       eexists _, n'. split; [reflexivity|].
       replace None with (sem (S r) path n (rest (length path) p))
         by (rewrite (rest_long _ _ o Ho Hk), sem_long by done; by rewrite Hc).
       eapply insert_child_ok; try done; rewrite Hc; [done..|by intros []]. }
  rewrite get_child_spec, Hc by done. cbn [mbind outcome_bind unwrap].
  pose proof (ok_child _ _ _ _ _ Hn Hc) as Hco. destruct c as [n1|lp lv|old].
  - destruct Hco as [Hok1 Hb1].
    destruct (IH (path ++ [o]) n1 p v) as (old & n1' & E & Hins);
      [rewrite snoc_length; lia|done|by apply on_path_down|].
    destruct (in_child_spec n o n1 (fun n => insert_loop fuel n p v (S (length path))) old n1')
      as (n' & -> & Hw' & Hp' & Hc'); [done..|].
    exists old, n'. split; [done|]. pose proof Hins as (_ & _ & _ & Hbr & _).
    eapply (insert_below_ok r path n n' n1 n1'); try done; [intros k; by rewrite Hc|by apply Hbr].
  - pose proof Hco as (_ & Hlf & _ & Hll). rewrite snoc_length in Hll. pose proof (leaf_on_path _ _ Hco) as Hlp.
    pose proof (key_at_path (path ++ [o]) lp (rest (S (length path)) p) Hlp) as Hkey. rewrite snoc_length in Hkey.
    destruct (decide (p = lp)) as [<-|Hne].
    + destruct (write_child_spec n o (Leaf p v) _ Hw Hc) as (n' & -> & Hw' & Hpm & Hcm). cbn [mbind outcome_bind].
      exists (Some lv), n'. split; [done|].
      assert (Hsm : sem (S r) path n (rest (length path) p) = Some lv).
      { rewrite (rest_long _ _ o Ho Hk), sem_long, Hc by done. cbn [child_sem]. by rewrite decide_True by (by apply Hkey). }
      rewrite <- Hsm. eapply insert_child_ok; try done.
      * rewrite Hcm. unfold new_child. rewrite bool_decide_eq_false_2; [done|]. rewrite rest_length. lia.
      * by rewrite Hc.
      * intros sub k Hkne. rewrite Hc. cbn [child_sem]. rewrite decide_False; [done|].
        intros E%key_at_path; [|done]. by rewrite snoc_length in E.
      * by rewrite Hsm.
    + apply (insert_split_ok r path n p v o (Leaf lp lv)); try done; [by eapply long_room|].
      cbn [child_sem]. rewrite decide_False; [done|]. intros E%Hkey. apply Hne. destruct Hlp as (Hlt' & _ & Htk' & Hl').
      apply key_inj; [done..|congruence|]. rewrite (key_rest (S (length path)) p), (key_rest (S (length path)) lp), E;
        [|lia|rewrite rest_length in Hk; lia]. f_equal. f_equal.
      pose proof (path_snoc path p o Htk Ho) as Hps. rewrite snoc_length in Hps, Htk'. congruence.
  - destruct (bool_decide (length (rest (length path) p) = 8%nat)) eqn:H8; cbn [mbind outcome_bind].
    + apply bool_decide_eq_true_1 in H8.
      destruct (write_child_spec n o (Fringe v) _ Hw Hc) as (n' & -> & Hw' & Hpm & Hcm). cbn [mbind outcome_bind].
      exists (Some old), n'. split; [done|].
      assert (Hnil : rest (S (length path)) p = []) by (apply nil_length_inv; rewrite rest_length in *; lia).
      assert (Hsm : sem (S r) path n (rest (length path) p) = Some old).
      { rewrite (rest_long _ _ o Ho Hk), sem_long, Hc by done. cbn [child_sem]. by rewrite decide_True by done. }
      rewrite <- Hsm. eapply insert_child_ok; try done.
      * rewrite Hcm. unfold new_child. by rewrite bool_decide_eq_true_2.
      * by rewrite Hc.
      * intros sub k Hkne. rewrite Hc. cbn [child_sem]. rewrite decide_False; [done|]. congruence.
      * by rewrite Hsm.
    + apply bool_decide_eq_false_1 in H8. rewrite rest_length in *.
      apply (insert_split_ok r path n p v o (Fringe old)); try done; [by rewrite rest_length|eapply long_room; [done..|lia]|].
      cbn [child_sem]. rewrite decide_False; [done|]. intros E%(f_equal length). rewrite rest_length in E. simpl in E. lia.
Qed.

(** ** Prefixes rebuilt from a path *)

Lemma zero_octets_bits m : octs_bits (replicate m 0%nat) = replicate (8 * m) false.
Proof.
  induction m as [|m IH]; [done|]. cbn [replicate]. rewrite octs_bits_cons, IH.
  replace (8 * S m)%nat with (8 + 8 * m)%nat by lia. by rewrite replicate_add.
Qed.

(** The network of a path and the bits [k] in the next octet, from its zero-padded address. *)
Lemma path_prefix path k ip :
  (length path < n_octets fam)%nat -> Forall (fun o => (o < 256)%nat) path -> (length k <= 8)%nat ->
  is_ipv4 ip = fam -> ip_octets ip = path ++ octet_of k :: replicate (n_octets fam - S (length path)) 0%nat ->
  exists p, new_assert ip (8 * length path + length k) = Done p /\ on_path path p /\ rest (length path) p = k.
Proof.
  intros Hd Hpath Hk Hfam Hip. destruct (octet_bits_pad k Hk) as [Hbits Hlt].
  assert (Haddr : addr_ok ip).
  { apply addr_ok_spec. rewrite Hip, Hfam. split.
    - rewrite length_app. cbn [length]. rewrite length_replicate. lia.
    - apply Forall_app. split; [done|]. constructor; [done|]. apply Forall_replicate. lia. }
  destruct (net_new_spec ip (8 * length path + length k) Haddr) as (p & E & Ha & Hl); [rewrite Hfam; lia|].
  exists p. unfold new_assert. rewrite E. split; [done|].
  assert (Hab : addr_bits ip = octs_bits path ++ k ++ replicate (8 * n_octets fam - (8 * length path + length k)) false).
  { unfold addr_bits. rewrite Hip, octs_bits_app, octs_bits_cons, Hbits, zero_octets_bits, <- app_assoc.
    do 2 f_equal. rewrite <- replicate_add. f_equal. lia. }
  assert (Hkey : key p = octs_bits path ++ k).
  { unfold key. rewrite Ha, Hl, Hab, app_assoc, take_app_le by (rewrite length_app, octs_bits_length; lia).
    apply take_ge. rewrite length_app, octs_bits_length. lia. }
  split.
  - split_and!; [|congruence| |lia].
    + apply net_ext; [|apply net_trunc_len]. apply addr_ext; [apply net_addr_ok..|apply net_trunc_family|].
      rewrite net_trunc_bits, net_bits_length, Hkey, Hl, Ha, Hfam, Hab. by rewrite <- app_assoc.
    + rewrite Ha, Hip. by rewrite take_app_length.
  - unfold rest. rewrite Hkey, drop_app_ge by (rewrite octs_bits_length; lia).
    by rewrite octs_bits_length, Nat.sub_diag.
Qed.

Lemma n_octets_le b : (4 <= n_octets b <= 16)%nat.
Proof. destruct b; simpl; lia. Qed.

Lemma land15 d : (d < 16)%nat -> Nat.land d 15 = d.
Proof.
  intros H. change 15%nat with (Nat.ones 4). rewrite Nat.land_ones. change (2 ^ 4)%nat with 16%nat.
  by apply Nat.mod_small.
Qed.

(** The address of a zero-padded path of sixteen octets. *)
Lemma ip_from_path_spec path o :
  (length path < n_octets fam)%nat ->
  is_ipv4 (ip_from_path (path ++ o :: replicate (15 - length path) 0%nat) fam) = fam /\
  ip_octets (ip_from_path (path ++ o :: replicate (15 - length path) 0%nat) fam) =
    path ++ o :: replicate (n_octets fam - S (length path)) 0%nat.
Proof.
  intros Hd. unfold ip_from_path. destruct fam; cbn [n_octets is_ipv4 ip_octets] in *.
  - split; [done|]. rewrite take_app_ge by lia. f_equal.
    replace (4 - length path)%nat with (S (3 - length path)) by lia. cbn [firstn]. f_equal.
    rewrite take_replicate. f_equal. lia.
  - split; [done|]. done.
Qed.

Lemma prefix_from_path_spec path octets k :
  (length path < n_octets fam)%nat -> (length path <= length octets)%nat -> take (length path) octets = path ->
  Forall (fun o => (o < 256)%nat) path -> (length k < 8)%nat ->
  exists p, prefix_from_path octets (length path) fam (idx k) = Done p /\ on_path path p /\
    rest (length path) p = k.
Proof.
  intros Hd Hle Htk Hpath Hk. pose proof (n_octets_le fam). unfold prefix_from_path. cbv zeta.
  rewrite land15 by lia. rewrite prefix_spec by done. cbn [mbind outcome_bind].
  rewrite Nat.min_r, Htk by done. change MAX_DEPTH with 16%nat.
  replace (replicate (16 - length path) 0%nat) with (0%nat :: replicate (15 - length path) 0%nat)
    by (by replace (16 - length path)%nat with (S (15 - length path)) by lia).
  rewrite store_in by (rewrite length_app; simpl; lia). rewrite insert_app_r_alt, Nat.sub_diag by lia.
  cbn [mbind outcome_bind]. unfold add8. rewrite decide_True by lia. cbn [mbind outcome_bind].
  destruct (ip_from_path_spec path (octet_of k) Hd) as [Hf Ho].
  rewrite (Nat.mul_comm (length path) 8). apply path_prefix; [done..|lia|done|done].
Qed.

Lemma fringe_path path octets o :
  (length path < 16)%nat -> (length path <= length octets)%nat -> take (length path) octets = path ->
  map (fringe_octet octets (length path) o) (seq 0 16) = path ++ o :: replicate (15 - length path) 0%nat.
Proof.
  intros Hd Hle Htk. rewrite (Bitset.seq_split (length path) 16), map_app by done. cbn [map]. f_equal; [|f_equal].
  - apply list_eq. intros i. rewrite (list_lookup_fmap (fringe_octet octets (length path) o)).
    destruct (decide (i < length path)%nat) as [Hi|Hi].
    + rewrite lookup_seq_lt by done. cbn [fmap option_fmap option_map]. unfold fringe_octet.
      rewrite !decide_False by lia. rewrite <- Htk at 1. rewrite lookup_take_lt by done.
      change (0 + i)%nat with i. destruct (lookup_lt_is_Some_2 octets i) as [x ->]; [lia|]. done.
    + rewrite lookup_seq_ge, lookup_ge_None_2 by lia. done.
  - unfold fringe_octet. by rewrite decide_False, decide_True by lia.
  - change (16 - S (length path))%nat with (15 - length path)%nat.
    apply list_eq. intros i. rewrite (list_lookup_fmap (fringe_octet octets (length path) o)).
    destruct (decide (i < 15 - length path)%nat) as [Hi|Hi].
    + rewrite lookup_seq_lt, lookup_replicate_2 by done. cbn [fmap option_fmap option_map]. unfold fringe_octet.
      by rewrite decide_True by lia.
    + rewrite lookup_seq_ge by lia. symmetry. apply lookup_ge_None_2. rewrite length_replicate. lia.
Qed.

Lemma fringe_prefix_spec path octets o :
  (length path < n_octets fam)%nat -> (length path <= length octets)%nat -> take (length path) octets = path ->
  Forall (fun o => (o < 256)%nat) path -> (o < 256)%nat ->
  exists p, fringe_prefix octets (length path) fam o = Done p /\ on_path path p /\
    rest (length path) p = octet_bits o.
Proof.
  intros Hd Hle Htk Hpath Ho. pose proof (n_octets_le fam). unfold fringe_prefix. cbv zeta.
  rewrite land15 by lia. change MAX_DEPTH with 16%nat. rewrite fringe_path by (done || lia).
  destruct (ip_from_path_spec path o Hd) as [Hf Hoct].
  replace ((length path + 1) * 8)%nat with (8 * length path + length (octet_bits o))%nat
    by (rewrite octet_bits_length; lia).
  apply path_prefix; [done..|by rewrite octet_bits_length|done|]. by rewrite Hoct, octet_of_bits.
Qed.

End Spec.
End IpTrieSpec.
