(* ===== verification/IpTrieMod.v ===== *)
(** * Modification and removal keep the trie a map

    The proofs about [modify_loop], [remove_loop] and the compression of the path after a
    removal. *)

From Stdlib Require Import ZifyNat.
From S2P Require Import Prelude Bitset BaseIndex IpNet BartNode IpTrie IpTrieSpec.
Import BaseIndex IpNet BartNode IpTrie IpTrieSpec.

Module IpTrieMod.

(** The result of a closure on the stored value: what [modify] returns, with the decision,
    and what is stored afterwards. *)
Definition apply_mod {T} (f : option T -> RouteModification (T := T) * option T) (o : option T)
    : (option T * option (RouteModification (T := T))) * option T :=
  let '(decision, written) := f o in
  let o := match o, written with Some _, Some w => Some w | _, _ => o end in
  match decision with
  | Insert t => ((o, Some decision), Some t)
  | Remove => ((o, Some decision), None)
  | Noop => ((None, Some decision), o)
  end.

Lemma first_single {A} (b : Bitset.Bitset) (m : gmap nat A) :
  Bitset.wf b -> (forall i, Bitset.mem b i = true <-> is_Some (m !! i)) -> size m = 1%nat ->
  exists i x, Bitset.first_set b = Some i /\ m = {[ i := x ]}.
Proof.
  intros Hb Hm Hs. destruct (map_choose m) as (i & x & Hi); [intros ->; by rewrite map_size_empty in Hs|].
  pose proof (size_single m i x Hs Hi) as ->. exists i, x. split; [|done]. rewrite Bitset.first_set_spec by done.
  assert (Hin : i ∈ Bitset.members b) by (apply Bitset.members_spec, Hm; rewrite lookup_singleton_eq; eauto).
  destruct (Bitset.members b) as [|j l] eqn:E; [set_solver|]. simpl. f_equal.
  assert (Hj : j ∈ Bitset.members b) by (rewrite E; set_solver).
  apply Bitset.members_spec, Hm in Hj as [y Hy]. by apply lookup_singleton_Some in Hy as [-> _].
Qed.

(** Both sides of an equation run the same computations: name their results in turn. *)
Ltac split_binds :=
  unfold mret, outcome_ret; cbn [mbind outcome_bind]; cbv beta; try done;
  repeat (match goal with
          | |- context [mbind _ ?m] =>
              lazymatch m with
              | mbind _ _ => fail
              | Done _ => fail
              | _ => first [destruct m as [[? ?]|] | destruct m as [?|]]
              end
          | x : (_ * _)%type |- _ => destruct x
          end; cbn [mbind outcome_bind]; try done).

Section Mod.
Context `{HI : Ipnet} `{HL : !IpnetLaws} {N T : Type} `{HO : !StrideOps N T} `{HS : !StrideLaws N T}.
Context (fam : bool).

Implicit Types n : N.
Implicit Types k : list bool.
Implicit Types p : IpNet.
Implicit Types path : list nat.


Abbreviation ok := (ok fam).
Abbreviation on_path := (on_path fam).

(** [s] changed at one bit string. *)
Definition set_at (k0 : list bool) (new : option T) (s : list bool -> option T) (k : list bool) : option T :=
  if decide (k = k0) then new else s k.

Lemma on_path_octets path p : on_path path p -> Forall (fun o => (o < 256)%nat) path.
Proof.
  intros (_ & _ & <- & _). pose proof (net_addr_ok p) as [_ H]%addr_ok_spec. by apply Forall_take.
Qed.

(** ** The last entry of a node *)

Definition last_entry r path n1 p (root_depth : nat) (o : option RemovalInfo) n2 : Prop :=
  match o with
  | None => n2 = n1 /\ (length path <> root_depth -> (1 <= entries n1)%nat -> branching n1)
  | Some info =>
      compression_root_depth info = root_depth /\ length path <> root_depth /\ on_path path (node_prefix info) /\
      node_wf n2 /\
      forall k, sem (S r) path n1 k =
        if decide (k = rest (length path) (node_prefix info)) then Some (value info) else None
  end.

Lemma single_prefix_sem r path n k0 v k :
  (length k0 < 8)%nat -> pmap n = {[ idx k0 := v ]} -> cmap n = ∅ ->
  sem (S r) path n k = if decide (k = k0) then Some v else None.
Proof.
  intros Hk0 Hp Hc. destruct (key_cases k) as [H|(o & k' & Ho & ->)].
  - rewrite sem_short, Hp by done. destruct (decide (k = k0)) as [->|Hne]; [apply lookup_singleton_eq|].
    apply lookup_singleton_ne. by intros E%idx_inj.
  - rewrite sem_long, Hc, lookup_empty by done. rewrite decide_False; [done|]. intros <-.
    rewrite length_app, octet_bits_length in Hk0. lia.
Qed.

Lemma single_child_sem r path n o c k :
  (o < 256)%nat -> pmap n = ∅ -> cmap n = {[ o := c ]} ->
  sem (S r) path n k =
    if decide (take 8 k = octet_bits o) then child_sem (sem r (path ++ [o])) (path ++ [o]) (Some c) (drop 8 k) else None.
Proof.
  intros Ho Hp Hc. destruct (key_cases k) as [H|(o' & k' & Ho' & ->)].
  - rewrite sem_short, Hp, lookup_empty by done. rewrite decide_False; [done|]. intros E.
    apply (f_equal length) in E. rewrite length_take, octet_bits_length in E. lia.
  - rewrite sem_long, Hc, take_app_le, take_ge, drop_app_ge by (done || by rewrite octet_bits_length).
    rewrite octet_bits_length, drop_0. destruct (decide (o' = o)) as [->|Hne].
    + by rewrite lookup_singleton_eq, decide_True.
    + rewrite lookup_singleton_ne by done. rewrite decide_False; [done|]. intros E. apply Hne.
      rewrite <- (octet_of_bits o), <- (octet_of_bits o') by done. by rewrite E.
Qed.

(** Both sides of a bit string that starts with an octet. *)
Lemma take_drop_octet k o k' : take 8 k = octet_bits o /\ drop 8 k = k' <-> k = octet_bits o ++ k'.
Proof.
  split.
  - intros [H1 H2]. by rewrite <- (take_drop 8 k), H1, H2.
  - intros ->. rewrite take_app_le, take_ge, drop_app_ge by (by rewrite octet_bits_length).
    by rewrite octet_bits_length, drop_0.
Qed.

Lemma on_path_up path p o :
  on_path (path ++ [o]) p -> on_path path p /\ rest (length path) p = octet_bits o ++ rest (S (length path)) p.
Proof.
  intros (Ht & Hf & Htk & Hl). rewrite snoc_length in Htk, Hl.
  assert (Htk' : take (length path) (ip_octets (net_addr p)) = path).
  { apply (f_equal (take (length path))) in Htk. rewrite take_take, Nat.min_l in Htk by lia.
    by rewrite Htk, take_app_length. }
  assert (Ho : ip_octets (net_addr p) !! length path = Some o).
  { rewrite <- (lookup_take_lt _ (S (length path))) by lia. rewrite Htk. by apply list_lookup_middle. }
  split; [split_and!; [done..|lia]|]. apply rest_long; [done|]. rewrite rest_length. lia.
Qed.

Lemma single_leaf_sem r path n o lp v k :
  (o < 256)%nat -> on_path (path ++ [o]) lp -> pmap n = ∅ -> cmap n = {[ o := Leaf lp v ]} ->
  sem (S r) path n k = if decide (k = rest (length path) lp) then Some v else None.
Proof.
  intros Ho Hlp Hp Hc. destruct (on_path_up path lp o Hlp) as [_ Hrest].
  rewrite (single_child_sem r path n o (Leaf lp v)) by done. cbn [child_sem].
  pose proof (key_at_path fam (path ++ [o]) lp (drop 8 k) Hlp) as Hkey. rewrite snoc_length in Hkey.
  pose proof (take_drop_octet k o (rest (S (length path)) lp)) as Hk. rewrite <- Hrest in Hk.
  repeat case_decide; tauto.
Qed.

Lemma single_fringe_sem r path n o v k :
  (o < 256)%nat -> pmap n = ∅ -> cmap n = {[ o := Fringe v ]} ->
  sem (S r) path n k = if decide (k = octet_bits o) then Some v else None.
Proof.
  intros Ho Hp Hc. rewrite (single_child_sem r path n o (Fringe v)) by done. cbn [child_sem].
  pose proof (take_drop_octet k o []) as Hk. rewrite app_nil_r in Hk. repeat case_decide; tauto.
Qed.

Section LastEntry.
Context (r : nat) (path : list nat) (n : N) (p : IpNet) (root_depth : nat).
Context (Hn : ok (S r) path n) (Hr : (length path + S r = n_octets fam)%nat) (Hp : on_path path p).

Lemma octets_length : (length path <= length (ip_octets (net_addr p)))%nat.
Proof. pose proof Hp as (_ & Hf & _). rewrite net_octets, Hf. lia. Qed.

(** One prefix and no child left. *)
Lemma last_prefix_ok :
  length path <> root_depth -> cmap n = ∅ -> size (pmap n) = 1%nat ->
  exists o n2,
    (i ← unwrap (Bitset.first_set (prefix_bitset n));
     i ← new (i mod 256)%nat;
     '(v, node) ← remove_prefix n i;
     v ← unwrap v;
     p ← prefix_from_path (ip_octets (net_addr p)) (length path) fam i;
     mret (Some (mkRemoval v root_depth p), node)) = Done (o, n2) /\ last_entry r path n p root_depth o n2.
Proof.
  intros Hd Hc Hs. pose proof (ok_wf _ _ _ _ Hn) as Hw. pose proof Hp as (_ & Hf & Htk & Hl).
  destruct (first_single (prefix_bitset n) (pmap n)) as (i & v & -> & Hpm);
    [by apply prefix_bitset_wf|intros; by apply prefix_bitset_mem|done|].
  assert (Hi : pmap n !! i = Some v) by (by rewrite Hpm, lookup_singleton_eq).
  pose proof (pmap_range _ _ _ Hw Hi) as Hrange. cbn [unwrap mbind outcome_bind].
  rewrite Nat.mod_small by lia. unfold new, try_new. rewrite decide_False by lia. cbn [unwrap mbind outcome_bind].
  destruct (remove_prefix_spec n i Hw Hrange) as (n2 & -> & Hw2 & _ & _). cbn [mbind outcome_bind]. rewrite Hi.
  cbn [unwrap mbind outcome_bind]. destruct (idx_key_of i Hrange) as [Hidx Hk].
  destruct (prefix_from_path_spec fam path (ip_octets (net_addr p)) (key_of i)) as (p0 & E & Hp0 & Hrest);
    [lia|apply octets_length|done|by eapply on_path_octets|done|]. rewrite Hidx in E. rewrite E. cbn [mbind outcome_bind].
  eexists _, n2. split; [reflexivity|]. split_and!; [done..|]. cbn [node_prefix value]. intros k. rewrite Hrest.
  apply single_prefix_sem; [done| |done]. by rewrite Hidx.
Qed.

(** One child and no prefix left. *)
Lemma last_child_ok :
  length path <> root_depth -> pmap n = ∅ -> size (cmap n) = 1%nat ->
  exists o n2,
    (addr ← unwrap (Bitset.first_set (child_bitset n));
     let addr := (addr mod 256)%nat in
     c ← get_child n addr;
     c ← unwrap c;
     match c with
     | Path _ => mret (None, n)
     | _ =>
         '(removed, node) ← remove_child n addr;
         removed ← unwrap removed;
         match removed with
         | Fringe val =>
             p ← fringe_prefix (ip_octets (net_addr p)) (length path) fam addr;
             mret (Some (mkRemoval val root_depth p), node)
         | Leaf p val => mret (Some (mkRemoval val root_depth p), node)
         | Path _ => Panic
         end
     end) = Done (o, n2) /\ last_entry r path n p root_depth o n2.
Proof.
  intros Hd Hpm Hs. pose proof (ok_wf _ _ _ _ Hn) as Hw. pose proof Hp as (_ & Hf & Htk & Hl).
  destruct (first_single (child_bitset n) (cmap n)) as (o & c & -> & Hcm);
    [by apply child_bitset_wf|intros; by apply child_bitset_mem|done|].
  assert (Hc : cmap n !! o = Some c) by (by rewrite Hcm, lookup_singleton_eq).
  pose proof (cmap_range _ _ _ Hw Hc) as Ho. pose proof (ok_child _ _ _ _ _ _ Hn Hc) as Hco.
  cbn [unwrap mbind outcome_bind]. rewrite Nat.mod_small by lia. rewrite get_child_spec, Hc by done.
  destruct (remove_child_spec n o Hw Ho) as (n2 & Hrem & Hw2 & _ & _). rewrite Hc in Hrem.
  destruct c as [n1|lp v|v]; cbn [unwrap mbind outcome_bind].
  - exists None, n. split; [done|]. split; [done|]. intros _ _. right. split; [done|]. by exists o, n1.
  - rewrite Hrem. cbn [unwrap mbind outcome_bind]. eexists _, n2. split; [reflexivity|].
    pose proof (leaf_on_path _ _ _ Hco) as Hlp. split_and!; [done..|by eapply on_path_up|done|].
    cbn [node_prefix value]. intros k. by apply (single_leaf_sem r path n o).
  - rewrite Hrem. cbn [unwrap mbind outcome_bind].
    destruct (fringe_prefix_spec fam path (ip_octets (net_addr p)) o) as (p0 & -> & Hp0 & Hrest);
      [lia|apply octets_length|done|by eapply on_path_octets|done|].
    cbn [unwrap mbind outcome_bind]. eexists _, n2. split; [reflexivity|]. split_and!; [done..|].
    cbn [node_prefix value]. intros k. rewrite Hrest. by apply single_fringe_sem.
Qed.

Lemma try_remove_ok :
  exists o n2, try_remove_last_child n (ip_octets (net_addr p)) (length path) fam root_depth = Done (o, n2) /\
    last_entry r path n p root_depth o n2.
Proof.
  pose proof (ok_wf _ _ _ _ Hn) as Hw. unfold try_remove_last_child.
  destruct (decide (length path = root_depth)) as [Hd|Hd]; [by exists None, n|].
  rewrite child_count_spec, prefix_count_spec by done.
  assert (Hnone : entries n <> 1%nat -> exists o n2, mret (None, n) = Done (o, n2) /\ last_entry r path n p root_depth o n2).
  { intros He. exists None, n. split; [done|]. split; [done|]. intros _ H1. left. lia. }
  destruct (size (cmap n)) as [|[|cs]] eqn:Ec, (size (pmap n)) as [|[|ps]] eqn:Ep;
    try (apply Hnone; unfold entries; lia).
  - apply last_prefix_ok; [done|by apply map_size_empty_inv|done].
  - apply last_child_ok; [done|by apply map_size_empty_inv|done].
Qed.

End LastEntry.

(** ** One step of a modification *)

(** The state after a modification that sets [k0] to [new]: with nothing left to do, with
    an entry to move above this node, or with one to move up to this node or below it. *)
Definition modified r path n (k0 : list bool) (new : option T) (root_depth : nat)
    (o : option RemovalInfo) n' : Prop :=
  match o with
  | None =>
      ok r path n' /\ (forall k, sem r path n' k = set_at k0 new (sem r path n) k) /\
      (length path <> root_depth -> branching n -> branching n')
  | Some info =>
      let octets := ip_octets (net_addr (node_prefix info)) in
      let d := length path in
      on_path path (node_prefix info) /\
      if decide (compression_root_depth info < d)%nat then
        compression_root_depth info = root_depth /\ node_wf n' /\
        forall k, set_at k0 new (sem r path n) k =
          if decide (k = rest d (node_prefix info)) then Some (value info) else None
      else
        (compression_root_depth info < length octets)%nat /\
        exists n'', compress_loop (take (compression_root_depth info - d) (drop d octets)) octets info n' = Done n'' /\
          ok r path n'' /\ (forall k, sem r path n'' k = set_at k0 new (sem r path n) k) /\
          (d <> root_depth -> branching n -> branching n'')
  end.

(** After an entry of this node is gone. *)
Lemma removed_here r path n n1 p k0 root_depth o n2 :
  on_path path p -> (root_depth < length path \/ root_depth = 0 /\ length path = 0)%nat ->
  ok (S r) path n1 -> (forall k, sem (S r) path n1 k = set_at k0 None (sem (S r) path n) k) ->
  (branching n -> (1 <= entries n1)%nat) ->
  last_entry r path n1 p root_depth o n2 -> modified (S r) path n k0 None root_depth o n2.
Proof.
  intros Hp Hd Hok Hsem Hbr Hlast. destruct o as [info|]; cbn [last_entry modified] in Hlast |- *.
  - destruct Hlast as (Hc & Hne & Hp0 & Hw & Hs). split; [done|]. rewrite decide_True by lia.
    split_and!; [done..|]. intros k. rewrite <- Hsem. apply Hs.
  - destruct Hlast as [-> Hb]. split_and!; [done..|]. intros Hne Hbn. apply Hb; auto.
Qed.

(** Nothing stored changed, or only the value at [k0]. *)
Lemma modified_None r path n k0 new root_depth n' :
  ok r path n' -> (forall k, sem r path n' k = set_at k0 new (sem r path n) k) ->
  (branching n -> branching n') -> modified r path n k0 new root_depth None n'.
Proof. intros. split_and!; auto. Qed.

Lemma set_at_same k0 (s : list bool -> option T) k : set_at k0 (s k0) s k = s k.
Proof. unfold set_at. by case_decide; subst. Qed.

Lemma unchanged r path n k0 root_depth :
  ok r path n -> modified r path n k0 (sem r path n k0) root_depth None n.
Proof. intros Hn. apply modified_None; [done| |done]. intros k. symmetry. apply set_at_same. Qed.

Lemma inserted_modified r path n p v old n' root_depth :
  inserted fam r path n p v old n' ->
  old = sem r path n (rest (length path) p) /\
  modified r path n (rest (length path) p) (Some v) root_depth None n'.
Proof. intros (Hold & Hok & Hs & Hb & _). split; [done|]. by apply modified_None. Qed.

(** A prefix entry written or kept. *)
Lemma prefix_written r path n n' k0 new root_depth :
  ok (S r) path n -> (length k0 < 8)%nat -> node_wf n' -> cmap n' = cmap n ->
  (forall j, pmap n' !! j = if decide (j = idx k0) then new else pmap n !! j) ->
  (new = None -> pmap n !! idx k0 = None) ->
  modified (S r) path n k0 new root_depth None n'.
Proof.
  intros Hn Hk Hw Hc Hp Hnew. apply modified_None.
  - by apply (ok_set_prefix fam r path n).
  - intros k. by apply sem_set_prefix.
  - destruct new as [t|].
    + apply (branching_prefix n n' (idx k0) t); [|done]. apply map_eq. intros j. rewrite Hp.
      symmetry. destruct (decide (j = idx k0)) as [->|Hne]; [apply lookup_insert_eq|by apply lookup_insert_ne].
    + assert (Hpe : pmap n' = pmap n).
      { apply map_eq. intros j. rewrite Hp. case_decide; [subst; by rewrite Hnew|done]. }
      unfold branching, entries. by rewrite Hpe, Hc.
Qed.

Lemma delete_entries_prefix n n' i :
  pmap n' = base.delete i (pmap n) -> cmap n' = cmap n -> branching n -> (1 <= entries n')%nat.
Proof.
  intros Hp Hc [H|(He & o & n1 & Hs)]; unfold entries in *; rewrite Hp, Hc.
  - rewrite map_size_delete. destruct (pmap n !! i) eqn:E; simpl; lia.
  - rewrite Hs, map_size_singleton. lia.
Qed.

Lemma delete_entries_child n n' o c :
  pmap n' = pmap n -> cmap n' = base.delete o (cmap n) -> cmap n !! o = Some c -> (forall n1, c <> Path n1) ->
  branching n -> (1 <= entries n')%nat.
Proof.
  intros Hp Hc Ho Hno [H|(He & o' & n1 & Hs)]; unfold entries in *; rewrite Hp, Hc.
  - rewrite map_size_delete, Ho. simpl. lia.
  - exfalso. rewrite Hs in Ho. apply lookup_singleton_Some in Ho as [-> <-]. by apply (Hno n1).
Qed.

Section Step.
Context (r : nat) (path : list nat) (n : N) (p : IpNet) (root_depth o : nat).
Context (f : option T -> RouteModification (T := T) * option T).
Context (Hn : ok (S r) path n) (Hr : (length path + S r = n_octets fam)%nat) (Hp : on_path path p).
Context (Ho : ip_octets (net_addr p) !! length path = Some o).
Context (Hrd : (root_depth < length path \/ root_depth = 0 /\ length path = 0)%nat).

Let k0 : list bool := rest (length path) p.
Let octets : list nat := ip_octets (net_addr p).

(** What a modification step has to establish. *)
Definition step_ok (run : outcome ((option T * option (RouteModification (T := T)) * option RemovalInfo) * N)) : Prop :=
  exists ret info n', run = Done ((ret, info), n') /\
    ret = fst (apply_mod f (sem (S r) path n k0)) /\
    modified (S r) path n k0 (snd (apply_mod f (sem (S r) path n k0))) root_depth info n'.

Lemma family : is_ipv4 (net_addr p) = fam.
Proof. apply Hp. Qed.

Lemma modify_prefix_ok :
  (length k0 < 8)%nat -> step_ok (modify_prefix n octets p f (length path) root_depth (idx k0)).
Proof.
  intros Hk. pose proof (ok_wf _ _ _ _ Hn) as Hw. unfold step_ok, modify_prefix, octets.
  rewrite get_prefix_spec by (done || by apply idx_range). cbn [mbind outcome_bind].
  rewrite sem_short by done. unfold apply_mod. destruct (f (pmap n !! idx k0)) as [decision written] eqn:Ef.
  set (v1 := match pmap n !! idx k0, written with Some _, Some w => Some w | _, _ => pmap n !! idx k0 end).
  assert (H1 : exists n1, match pmap n !! idx k0, written with
    | Some _, Some w => o ← set_prefix_mut n (idx k0) w; unwrap o | _, _ => mret n end = Done n1 /\
    node_wf n1 /\ cmap n1 = cmap n /\ pmap n1 !! idx k0 = v1 /\
    forall j, j <> idx k0 -> pmap n1 !! j = pmap n !! j).
  { unfold v1. destruct (pmap n !! idx k0) as [x|] eqn:E; [|by exists n]. destruct written as [w|]; [|by exists n].
    destruct (set_prefix_spec n (idx k0) w x Hw E) as (n1 & -> & Hw1 & Hp1 & Hc1). exists n1.
    split_and!; [done..|by rewrite Hp1, lookup_insert_eq|]. intros j Hj. by rewrite Hp1, lookup_insert_ne. }
  destruct H1 as (n1 & -> & Hw1 & Hc1 & Hv1 & Hother). cbn [mbind outcome_bind].
  destruct decision as [t| |]; cbn [fst snd].
  - destruct (insert_prefix_spec n1 (idx k0) t Hw1 (idx_range k0 Hk)) as (n' & -> & Hw' & Hp' & Hc').
    cbn [mbind outcome_bind]. eexists _, _, n'. split; [reflexivity|]. split; [congruence|].
    apply prefix_written; [done..|congruence| |done]. intros j. rewrite Hp'.
    destruct (decide (j = idx k0)) as [->|Hne]; [apply lookup_insert_eq|]. rewrite lookup_insert_ne by done. by apply Hother.
  - destruct (remove_prefix_spec n1 (idx k0) Hw1 (idx_range k0 Hk)) as (n2 & -> & Hw2 & Hp2 & Hc2).
    cbn [mbind outcome_bind]. rewrite family.
    assert (Hp2' : pmap n2 = base.delete (idx k0) (pmap n)).
    { apply map_eq. intros j. rewrite Hp2. destruct (decide (j = idx k0)) as [->|Hne]; [by rewrite !lookup_delete_eq|].
      rewrite !lookup_delete_ne by done. by apply Hother. }
    assert (Hok2 : ok (S r) path n2) by (apply (ok_set_prefix fam r path n); [done..|congruence]).
    destruct (try_remove_ok r path n2 p root_depth Hok2 Hr Hp) as (info & n3 & -> & Hlast). cbn [mbind outcome_bind].
    eexists _, info, n3. split; [reflexivity|]. split; [congruence|]. eapply removed_here; [done..| | |done].
    + intros k. apply sem_set_prefix; [done|congruence|]. intros j. rewrite Hp2'.
      destruct (decide (j = idx k0)) as [->|Hne]; [apply lookup_delete_eq|by apply lookup_delete_ne].
    + apply (delete_entries_prefix n n2 (idx k0)); [done|congruence].
  - eexists _, _, n1. split; [reflexivity|]. split; [congruence|]. apply prefix_written; [done..| |].
    + intros j. destruct (decide (j = idx k0)) as [->|Hne]; [done|by apply Hother].
    + unfold v1. by destruct (pmap n !! idx k0), written.
Qed.

Lemma route_child_eq (t : T) : (8 <= length k0)%nat -> route_child (length path) p t = Done (new_child (N := N) p t k0).
Proof. intros Hk. unfold route_child. rewrite (is_fringe_spec fam path) by done. done. Qed.

Lemma modify_vacant_ok :
  (8 <= length k0)%nat -> cmap n !! o = None -> step_ok (modify_vacant n o p f (length path)).
Proof.
  intros Hk Hc. pose proof (ok_wf _ _ _ _ Hn) as Hw. pose proof (net_octet_lt _ _ _ Ho) as Hlt.
  assert (Hs : sem (S r) path n k0 = None).
  { unfold k0. rewrite (rest_long _ _ o Ho Hk), sem_long by done. by rewrite Hc. }
  unfold step_ok, modify_vacant, apply_mod. rewrite Hs. destruct (f None) as [decision written]. cbn [fst].
  destruct decision as [t| |]; cbn [fst snd]; [|eexists _, _, n; split; [reflexivity|]; split; [done|];
    rewrite <- Hs; by apply unchanged..].
  rewrite route_child_eq by done. cbn [mbind outcome_bind].
  destruct (insert_child_spec n o (new_child p t k0) Hw Hlt) as (n' & -> & Hw' & Hp' & Hc'). cbn [mbind outcome_bind].
  eexists _, _, n'. split; [reflexivity|]. split; [done|].
  eapply inserted_modified, (insert_child_ok fam r path n n' p t o); try done; rewrite Hc; [done..|by intros []].
Qed.

Lemma modify_absent_ok :
  sem (S r) path n k0 = None -> step_ok (modify_absent n p f (length path)).
Proof.
  intros Hs. unfold step_ok, modify_absent, apply_mod. rewrite Hs. destruct (f None) as [decision written]. cbn [fst].
  destruct decision as [t| |]; cbn [fst snd]; [|eexists _, _, n; split; [reflexivity|]; split; [done|];
    rewrite <- Hs; by apply unchanged..].
  pose proof (n_octets_le fam).
  destruct (insert_loop_ok fam (S r) (S MAX_DEPTH) ltac:(unfold MAX_DEPTH; lia) path n p t Hr Hn Hp) as (old & n' & E & Hins).
  replace (n_octets fam - S r)%nat with (length path) in E by lia. unfold insert_inner. rewrite E. cbn [mbind outcome_bind].
  eexists _, _, n'. split; [reflexivity|].
  destruct (inserted_modified _ _ _ _ _ _ _ root_depth Hins) as [-> Hm]. split; [|done]. f_equal. f_equal. exact Hs.
Qed.

(** The leaf or fringe of the prefix itself. *)
Lemma own_child_sem v :
  (8 <= length k0)%nat -> cmap n !! o = Some (new_child p v k0) ->
  sem (S r) path n k0 = Some v /\
  (forall n1, cmap n !! o <> Some (Path n1)) /\
  forall sub k, child_sem sub (path ++ [o]) (cmap n !! o) k =
    if decide (k = rest (S (length path)) p) then Some v else None.
Proof.
  intros Hk Hc. pose proof (net_octet_lt _ _ _ Ho) as Hlt.
  destruct (new_child_ok fam r path p v o Hp Ho Hk) as [_ Hs]. fold k0 in Hs. rewrite <- Hc in Hs. split_and!.
  - unfold k0 at 1. rewrite (rest_long _ _ o Ho Hk), sem_long by done. by rewrite Hs, decide_True.
  - intros n1. rewrite Hc. unfold new_child. by case_bool_decide.
  - exact Hs.
Qed.

Lemma own_child_written v n' t :
  (8 <= length k0)%nat -> cmap n !! o = Some (new_child p v k0) ->
  node_wf n' -> pmap n' = pmap n -> cmap n' = <[o := new_child p t k0]> (cmap n) ->
  modified (S r) path n k0 (Some t) root_depth None n'.
Proof.
  intros Hk Hc Hw' Hp' Hc'. destruct (own_child_sem v Hk Hc) as (Hs & Hno & Hcs).
  eapply inserted_modified, (insert_child_ok fam r path n n' p t o); try done.
  - intros sub k Hne. by rewrite Hcs, decide_False.
  - fold k0. by rewrite Hs.
Qed.

Lemma own_child_removed v n2 info n3 :
  (8 <= length k0)%nat -> cmap n !! o = Some (new_child p v k0) ->
  node_wf n2 -> pmap n2 = pmap n -> cmap n2 = base.delete o (cmap n) ->
  last_entry r path n2 p root_depth info n3 -> modified (S r) path n k0 None root_depth info n3.
Proof.
  intros Hk Hc Hw2 Hp2 Hc2 Hlast. destruct (own_child_sem v Hk Hc) as (Hs & Hno & Hcs).
  pose proof (net_octet_lt _ _ _ Ho) as Hlt.
  eapply removed_here; [done..|by eapply (ok_del_child fam r path n)| | |done].
  - intros k. unfold set_at, k0. rewrite (rest_long _ _ o Ho Hk).
    apply (sem_set_child r path n n2 o _ None None); [done..| |].
    + intros o'. rewrite Hc2. destruct (decide (o' = o)) as [->|Hne]; [apply lookup_delete_eq|by apply lookup_delete_ne].
    + intros k'. rewrite Hcs. by case_decide.
  - apply (delete_entries_child n n2 o _ Hp2 Hc2 Hc). intros n1 E. apply (Hno n1). by rewrite Hc, E.
Qed.

Lemma into_value_new (t : T) : into_value (new_child (N := N) p t k0) = Some t.
Proof. unfold new_child. by case_bool_decide. Qed.

Lemma modify_present_ok v put :
  (8 <= length k0)%nat -> (forall w, put w = new_child p w k0) -> cmap n !! o = Some (new_child p v k0) ->
  step_ok (modify_present n octets o p f (length path) root_depth v put).
Proof.
  intros Hk Hput Hc. pose proof (ok_wf _ _ _ _ Hn) as Hw. pose proof (net_octet_lt _ _ _ Ho) as Hlt.
  destruct (own_child_sem v Hk Hc) as (Hs & _). unfold step_ok, modify_present, apply_mod, octets. rewrite Hs.
  destruct (f (Some v)) as [decision written]. set (v1 := default v written).
  replace (match written with Some w => Some w | None => Some v end) with (Some v1) by (by destruct written).
  assert (H1 : exists n1, match written with Some w => write_child n o (put w) | None => mret n end = Done n1 /\
    node_wf n1 /\ pmap n1 = pmap n /\ cmap n1 = <[o := new_child p v1 k0]> (cmap n)).
  { unfold v1. destruct written as [w|]; simpl.
    - rewrite Hput. by eapply write_child_spec.
    - exists n. split_and!; [done..|]. by rewrite insert_id. }
  destruct H1 as (n1 & -> & Hw1 & Hp1 & Hc1). cbn [mbind outcome_bind].
  assert (Hc1o : cmap n1 !! o = Some (new_child p v1 k0)) by (by rewrite Hc1, lookup_insert_eq).
  destruct decision as [t| |]; cbn [fst snd].
  - rewrite route_child_eq by done. cbn [mbind outcome_bind].
    destruct (insert_child_spec n1 o (new_child p t k0) Hw1 Hlt) as (n' & -> & Hw' & Hp' & Hc').
    cbn [mbind outcome_bind]. rewrite Hc1o. cbn [unwrap mbind outcome_bind]. rewrite into_value_new.
    eexists _, _, n'. split; [reflexivity|]. split; [done|].
    apply (own_child_written v); [done..|congruence|]. by rewrite Hc', Hc1, insert_insert_eq.
  - destruct (remove_child_spec n1 o Hw1 Hlt) as (n2 & -> & Hw2 & Hp2 & Hc2).
    cbn [mbind outcome_bind]. rewrite Hc1o, family. cbn [unwrap mbind outcome_bind]. rewrite into_value_new.
    assert (Hc2' : cmap n2 = base.delete o (cmap n)) by (by rewrite Hc2, Hc1, delete_insert_eq).
    assert (Hp2' : pmap n2 = pmap n) by congruence.
    assert (Hok2 : ok (S r) path n2) by (by eapply (ok_del_child fam r path n)).
    destruct (try_remove_ok r path n2 p root_depth Hok2 Hr Hp) as (info & n3 & -> & Hlast). cbn [mbind outcome_bind].
    eexists _, info, n3. split; [reflexivity|]. split; [done|]. by apply (own_child_removed v n2).
  - eexists _, _, n1. split; [reflexivity|]. split; [done|]. by apply (own_child_written v).
Qed.

End Step.

(** ** Moving an entry up *)

Section Below.
Context (r : nat) (path : list nat) (n n' n1 n1' : N) (o : nat) (k1 : list bool) (new : option T) (root_depth : nat).
Context (Hn : ok (S r) path n) (Hr : (length path + S r = n_octets fam)%nat) (Hlt : (o < 256)%nat).
Context (Hc : cmap n !! o = Some (Path n1)).
Context (Hw' : node_wf n') (Hp' : pmap n' = pmap n) (Hc' : cmap n' = <[o := Path n1']> (cmap n)).
Context (Hrd : (root_depth < length path \/ root_depth = 0 /\ length path = 0)%nat).

Let deletable : bool := ((size (cmap n) =? 1) && (size (pmap n) =? 0))%nat.

Lemma sem_below k : sem (S r) path n (octet_bits o ++ k) = sem r (path ++ [o]) n1 k.
Proof. rewrite sem_long by done. by rewrite Hc. Qed.

Lemma set_at_below k :
  set_at (octet_bits o ++ k1) new (sem (S r) path n) (octet_bits o ++ k) = set_at k1 new (sem r (path ++ [o]) n1) k.
Proof.
  unfold set_at. rewrite sem_below. destruct (decide (k = k1)) as [->|Hne]; [by rewrite decide_True|].
  rewrite decide_False; [done|]. by intros ?%app_inv_head.
Qed.

(** The child has been changed in place. *)
Lemma below_replaced m n1'' :
  node_wf m -> pmap m = pmap n -> cmap m = <[o := Path n1'']> (cmap n) -> ok r (path ++ [o]) n1'' -> branching n1'' ->
  (forall k, sem r (path ++ [o]) n1'' k = set_at k1 new (sem r (path ++ [o]) n1) k) ->
  ok (S r) path m /\ (forall k, sem (S r) path m k = set_at (octet_bits o ++ k1) new (sem (S r) path n) k) /\
  branching m.
Proof.
  intros Hwm Hpm Hc1 Hok Hb Hs. split_and!.
  - eapply ok_set_child; [done..|]. by split.
  - intros k. apply (sem_set_child r path n m o k1 new (Some (Path n1''))); [done..| |].
    + intros o'. rewrite Hc1. destruct (decide (o' = o)) as [->|Hne]; [apply lookup_insert_eq|by apply lookup_insert_ne].
    + intros k'. rewrite Hc. cbn [child_sem]. apply Hs.
  - by eapply (branching_path n m o n1'').
Qed.

(** The subtree below the compression root is replaced by its one entry. *)
Lemma compress_here info :
  compression_root_depth info = length path -> on_path (path ++ [o]) (node_prefix info) ->
  (length path <> root_depth -> branching n -> deletable = false) ->
  (forall k, set_at k1 new (sem r (path ++ [o]) n1) k =
     if decide (k = rest (S (length path)) (node_prefix info)) then Some (value info) else None) ->
  exists n'', compress_loop [] (ip_octets (net_addr (node_prefix info))) info n' = Done n'' /\
    ok (S r) path n'' /\ (forall k, sem (S r) path n'' k = set_at (octet_bits o ++ k1) new (sem (S r) path n) k) /\
    (length path <> root_depth -> branching n -> branching n'').
Proof.
  intros Hcrd Hp0 Hdel Heq. destruct (on_path_up path (node_prefix info) o Hp0) as [Hp0' Hrest].
  assert (Ho0 : ip_octets (net_addr (node_prefix info)) !! length path = Some o).
  { destruct Hp0 as (_ & _ & Htk & _). rewrite snoc_length in Htk.
    rewrite <- (lookup_take_lt _ (S (length path))) by lia. rewrite Htk. by apply list_lookup_middle. }
  cbn [compress_loop]. unfold index. rewrite Hcrd, Ho0. cbn [unwrap mbind outcome_bind].
  destruct (remove_child_spec n' o Hw' Hlt) as (n2 & -> & Hw2 & Hp2 & Hc2). cbn [mbind outcome_bind].
  rewrite Hc', lookup_insert_eq. rewrite decide_False by done.
  assert (Hc2' : cmap n2 = base.delete o (cmap n)) by (by rewrite Hc2, Hc', delete_insert_eq).
  assert (Hp2' : pmap n2 = pmap n) by congruence.
  assert (Hok2 : ok (S r) path n2) by (by eapply (ok_del_child fam r path n)).
  assert (Hs2 : forall k, sem (S r) path n2 k =
    if decide (take 8 k = octet_bits o) then None else sem (S r) path n k).
  { intros k. destruct (key_cases k) as [Hk|(o' & k' & Ho' & ->)].
    - rewrite !sem_short, Hp2' by done. rewrite decide_False; [done|]. intros E%(f_equal length).
      rewrite length_take, octet_bits_length in E. lia.
    - rewrite !sem_long, Hc2', take_app_le, take_ge by (done || by rewrite octet_bits_length).
      destruct (decide (o' = o)) as [->|Hne]; [by rewrite lookup_delete_eq, decide_True|].
      rewrite lookup_delete_ne by done. rewrite decide_False; [done|]. intros E. apply Hne.
      rewrite <- (octet_of_bits o), <- (octet_of_bits o') by done. by rewrite E. }
  pose proof (n_octets_le fam).
  destruct (insert_loop_ok fam (S r) (S MAX_DEPTH) ltac:(unfold MAX_DEPTH; lia) path n2 (node_prefix info) (value info)
    Hr Hok2 Hp0') as (old & n'' & E & _ & Hok' & Hs' & _ & Hb').
  replace (n_octets fam - S r)%nat with (length path) in E by lia. unfold insert_inner. rewrite E. cbn [mbind outcome_bind].
  exists n''. split_and!; [done..| |].
  - intros k. rewrite Hs', Hs2, Hrest. destruct (decide (take 8 k = octet_bits o)) as [Ht|Ht].
    + assert (exists k', k = octet_bits o ++ k') as [k' ->] by (exists (drop 8 k); by rewrite <- Ht, take_drop).
      rewrite set_at_below, Heq. destruct (decide (k' = _)) as [->|Hne]; [by rewrite decide_True|].
      rewrite decide_False; [done|]. by intros ?%app_inv_head.
    + unfold set_at. rewrite !decide_False; [done|..]; intros ->; apply Ht;
        by rewrite take_app_le, take_ge by (by rewrite octet_bits_length).
  - intros Hd Hb. specialize (Hdel Hd Hb). apply Hb'.
    + unfold entries in *. rewrite Hp2', Hc2', map_size_delete, Hc. unfold deletable in Hdel. destruct Hb as [Hb|(He & o' & m & Hm)].
      * unfold entries in Hb. simpl. lia.
      * rewrite He, Hm, map_size_empty, map_size_singleton in Hdel. done.
    + rewrite Hs2, Hrest, decide_True; [done|]. by rewrite take_app_le, take_ge by (by rewrite octet_bits_length).
Qed.

Lemma deletable_empty : deletable = true -> pmap n = ∅ /\ cmap n = {[ o := Path n1 ]}.
Proof.
  unfold deletable. intros [H1%Nat.eqb_eq H2%Nat.eqb_eq]%andb_true_iff. split; [by apply map_size_empty_inv|].
  by apply size_single.
Qed.

(** An entry that moves above this node is all that is left here. *)
Lemma all_below (p0 : IpNet) (v : T) :
  deletable = true -> on_path (path ++ [o]) p0 ->
  (forall k, set_at k1 new (sem r (path ++ [o]) n1) k =
     if decide (k = rest (S (length path)) p0) then Some v else None) ->
  forall k, set_at (octet_bits o ++ k1) new (sem (S r) path n) k =
    if decide (k = rest (length path) p0) then Some v else None.
Proof.
  intros Hd Hp0 Heq k. destruct (deletable_empty Hd) as [Hpe Hce].
  destruct (on_path_up path p0 o Hp0) as [_ Hrest]. rewrite Hrest.
  destruct (decide (take 8 k = octet_bits o)) as [Ht|Ht].
  - assert (exists k', k = octet_bits o ++ k') as [k' ->] by (exists (drop 8 k); by rewrite <- Ht, take_drop).
    rewrite set_at_below, Heq. destruct (decide (k' = _)) as [->|Hne]; [by rewrite decide_True|].
    rewrite decide_False; [done|]. by intros ?%app_inv_head.
  - assert (Hno : forall k', k <> octet_bits o ++ k').
    { intros k' ->. apply Ht. by rewrite take_app_le, take_ge by (by rewrite octet_bits_length). }
    unfold set_at. rewrite !decide_False by apply Hno. rewrite (single_child_sem r path n o (Path n1)) by done.
    by rewrite decide_False.
Qed.

(** The compression root is below this node. *)
Lemma compress_below info n1'' :
  (S (length path) <= compression_root_depth info < n_octets fam)%nat -> on_path (path ++ [o]) (node_prefix info) ->
  let octets := ip_octets (net_addr (node_prefix info)) in
  compress_loop (take (compression_root_depth info - S (length path)) (drop (S (length path)) octets)) octets info n1'
    = Done n1'' ->
  ok r (path ++ [o]) n1'' -> branching n1'' ->
  (forall k, sem r (path ++ [o]) n1'' k = set_at k1 new (sem r (path ++ [o]) n1) k) ->
  exists n'', compress_loop (take (compression_root_depth info - length path) (drop (length path) octets)) octets info n'
    = Done n'' /\
    ok (S r) path n'' /\ (forall k, sem (S r) path n'' k = set_at (octet_bits o ++ k1) new (sem (S r) path n) k) /\
    (length path <> root_depth -> branching n -> branching n'').
Proof.
  intros Hd Hp0 octets E Hok Hb Hs.
  assert (Ho' : octets !! length path = Some o).
  { destruct Hp0 as (_ & _ & Htk & _). rewrite snoc_length in Htk. fold octets in Htk.
    rewrite <- (lookup_take_lt _ (S (length path))) by lia. rewrite Htk. by apply list_lookup_middle. }
  rewrite (drop_S _ _ _ Ho').
  replace (compression_root_depth info - length path)%nat with (S (compression_root_depth info - S (length path))) by lia.
  cbn [firstn compress_loop].
  destruct (in_child_spec n' o n1' (fun n => n ← compress_loop (take (compression_root_depth info - S (length path))
    (drop (S (length path)) octets)) octets info n; mret (tt, n)) tt n1'') as (n'' & -> & Hw'' & Hp'' & Hc'');
    [done|by rewrite Hc', lookup_insert_eq|by rewrite E|].
  cbn [mbind outcome_bind]. exists n''. split; [done|].
  destruct (below_replaced n'' n1'') as (H1 & H2 & H3); [done|congruence| |done..|by split_and!].
  by rewrite Hc'', Hc', insert_insert_eq.
Qed.

Lemma modified_below info :
  branching n1 ->
  modified r (path ++ [o]) n1 k1 new (if deletable then root_depth else length path) info n1' ->
  modified (S r) path n (octet_bits o ++ k1) new root_depth info n'.
Proof.
  intros Hb1 Hm. set (rd1 := if deletable then root_depth else length path) in *.
  assert (Hrd1 : (rd1 <= length path)%nat) by (unfold rd1; destruct deletable; lia).
  destruct info as [info|]; cbn [modified] in Hm |- *; rewrite snoc_length in Hm.
  2: { destruct Hm as (Hok & Hs & Hb). destruct (below_replaced n' n1') as (H1 & H2 & H3);
         [done..|apply Hb; [lia|done]|done|]. by split_and!. }
  destruct Hm as (Hp0 & Hm). pose proof (on_path_up path _ o Hp0) as [Hp0' _]. split; [done|].
  pose proof Hp0' as (_ & Hf0 & _). pose proof (net_octets (node_prefix info)) as Hlen. rewrite Hf0 in Hlen.
  case_decide as Hlt1.
  - destruct Hm as (Hcrd & Hwn1 & Heq). case_decide as Hlt0.
    + destruct deletable eqn:Hd; unfold rd1 in Hcrd; [|lia]. split_and!; [done..|]. by apply all_below.
    + assert (Hcd : compression_root_depth info = length path) by lia. rewrite Hcd, Nat.sub_diag. split; [lia|].
      apply compress_here; [done..| |done]. intros Hne _. destruct deletable eqn:Hd; [|done].
      unfold rd1 in Hcrd. lia.
  - destruct Hm as (Hlt2 & n1'' & E & Hok & Hs & Hb). rewrite decide_False by lia. split; [done|].
    eapply compress_below; [lia|done..|apply Hb; [lia|done]|done].
Qed.

End Below.

(** ** The loops *)

Lemma modify_loop_ok f r path n p root_depth :
  ok r path n -> (length path + r = n_octets fam)%nat -> on_path path p ->
  (root_depth < length path \/ root_depth = 0 /\ length path = 0)%nat ->
  exists ret info n',
    modify_loop (drop (length path) (ip_octets (net_addr p))) (ip_octets (net_addr p)) n p f (length path) root_depth
      = Done ((ret, info), n') /\
    ret = fst (apply_mod f (sem r path n (rest (length path) p))) /\
    modified r path n (rest (length path) p) (snd (apply_mod f (sem r path n (rest (length path) p)))) root_depth info n'.
Proof.
  revert path n root_depth. induction r as [|r IH]; intros path n root_depth Hn Hr Hp Hrd; [done|].
  pose proof (ok_wf _ _ _ _ Hn) as Hw. pose proof Hp as (Ht & Hf & Htk & Hl).
  destruct (path_octet fam path p r Hf Hr) as (o & Ho & Hlt). rewrite (drop_S _ _ _ Ho).
  cbn [modify_loop]. unfold stride_count_and_overflow. cbv zeta.
  destruct (decide (length path = net_prefix_len p / 8)%nat) as [Hd|Hd].
  { apply (ends_here fam path p Hp) in Hd. rewrite (from_prefix_rest fam path p o) by done. cbn [mbind outcome_bind].
    by eapply modify_prefix_ok. }
  assert (Hk : (8 <= length (rest (length path) p))%nat)
    by (destruct (decide (8 <= length (rest (length path) p))%nat); [done|]; exfalso; apply Hd, (ends_here fam); [done|lia]).
  rewrite get_child_spec by done. cbn [mbind outcome_bind]. rewrite (is_fringe_spec fam) by done.
  destruct (cmap n !! o) as [c|] eqn:Hc; [|by eapply modify_vacant_ok].
  pose proof (ok_child _ _ _ _ _ _ Hn Hc) as Hco. destruct c as [n1|lp v|v]; cbn [mbind outcome_bind].
  - destruct Hco as [Hok1 Hb1]. rewrite child_count_spec, prefix_count_spec by done.
    set (rd1 := if ((size (cmap n) =? 1) && (size (pmap n) =? 0))%nat then root_depth else length path).
    destruct (IH (path ++ [o]) n1 rd1) as (ret & info & n1' & E & Hret & Hm);
      [done|rewrite snoc_length; lia|by apply on_path_down|rewrite snoc_length; unfold rd1; case_match; lia|].
    rewrite snoc_length in E, Hret, Hm.
    destruct (in_child_spec n o n1 (fun n => modify_loop (drop (S (length path)) (ip_octets (net_addr p)))
      (ip_octets (net_addr p)) n p f (S (length path)) rd1) _ n1' Hw Hc E) as (n' & -> & Hw' & Hp' & Hc').
    exists ret, info, n'. rewrite (rest_long _ _ o Ho Hk), (sem_below r path n n1 o Hlt Hc). split_and!; [done..|].
    by apply (modified_below r path n n' n1 n1').
  - pose proof (leaf_on_path _ _ _ Hco) as Hlp. destruct (decide (lp <> p)) as [Hne|Heq].
    + eapply modify_absent_ok; try done. rewrite (rest_long _ _ o Ho Hk), sem_long, Hc by done. cbn [child_sem].
      rewrite decide_False; [done|]. intros E. apply Hne. pose proof Hco as (Hlt' & Hlf & Hltk & Hll).
      apply key_inj; [done..|congruence|]. rewrite E. symmetry. rewrite snoc_length in Hll.
      pose proof (on_path_down fam path p o Hp Ho Hk) as Hpd. pose proof Hpd as (_ & _ & _ & Hpl).
      pose proof (key_at_path fam (path ++ [o]) p (rest (S (length path)) p) Hpd) as Hkp.
      rewrite snoc_length in Hkp. by apply Hkp.
    + apply dec_stable in Heq. subst lp. destruct Hco as (_ & _ & _ & Hll). rewrite snoc_length in Hll.
      assert (Hnc : forall w : T, Leaf p w = new_child (N := N) p w (rest (length path) p))
        by (intros w; unfold new_child; rewrite bool_decide_eq_false_2; [done|rewrite rest_length; lia]).
      eapply modify_present_ok; try done. by rewrite <- Hnc.
  - destruct (bool_decide (length (rest (length path) p) = 8%nat)) eqn:H8; cbn [negb].
    + assert (Hnc : forall w : T, Fringe w = new_child (N := N) p w (rest (length path) p))
        by (intros w; unfold new_child; by rewrite H8).
      eapply modify_present_ok; try done. by rewrite <- Hnc.
    + apply bool_decide_eq_false_1 in H8. eapply modify_absent_ok; try done.
      rewrite (rest_long _ _ o Ho Hk), sem_long, Hc by done. cbn [child_sem]. rewrite decide_False; [done|].
      intros E%(f_equal length). rewrite rest_length in *. simpl in E. lia.
Qed.

(** [remove_inner] is [modify_inner] with a closure that always removes. *)
Definition always_remove (o : option T) : RouteModification (T := T) * option T := (Remove, None).

Lemma remove_loop_eq r path n p root_depth :
  ok r path n -> (length path + r = n_octets fam)%nat -> on_path path p ->
  let octets := ip_octets (net_addr p) in
  modify_loop (drop (length path) octets) octets n p always_remove (length path) root_depth =
  '((ret, info), n') ← remove_loop (drop (length path) octets) octets n p (length path) root_depth;
  mret (((ret, Some Remove), info), n').
Proof.
  cbv zeta. revert path n root_depth. induction r as [|r IH]; intros path n root_depth Hn Hr Hp; [done|].
  pose proof (ok_wf _ _ _ _ Hn) as Hw. pose proof Hp as (Ht & Hf & Htk & Hl).
  destruct (path_octet fam path p r Hf Hr) as (o & Ho & Hlt). rewrite (drop_S _ _ _ Ho).
  cbn [remove_loop modify_loop]. unfold stride_count_and_overflow. cbv zeta.
  destruct (decide (length path = net_prefix_len p / 8)%nat) as [Hd|Hd].
  { apply (ends_here fam path p Hp) in Hd. rewrite (from_prefix_rest fam path p o) by done. cbn [mbind outcome_bind].
    unfold modify_prefix. rewrite get_prefix_spec by (done || by apply idx_range). cbn [mbind outcome_bind always_remove].
    destruct (pmap n !! _); cbn [mbind outcome_bind]; split_binds. }
  assert (Hk : (8 <= length (rest (length path) p))%nat)
    by (destruct (decide (8 <= length (rest (length path) p))%nat); [done|]; exfalso; apply Hd, (ends_here fam); [done|lia]).
  rewrite get_child_spec by done. cbn [mbind outcome_bind]. rewrite (is_fringe_spec fam) by done.
  destruct (cmap n !! o) as [c|] eqn:Hc; [|done].
  destruct c as [n1|lp v|v]; cbn [mbind outcome_bind].
  - unfold in_child. rewrite (child_node_spec n o n1) by done. cbn [mbind outcome_bind].
    destruct (ok_child _ _ _ _ _ _ Hn Hc) as [Hok1 _].
    pose proof (fun rd => IH (path ++ [o]) n1 rd Hok1) as IH1. rewrite snoc_length in IH1.
    rewrite IH1 by (lia || by apply on_path_down). cbv beta.
    destruct (remove_loop _ _ _ _ _ _) as [[[ret info] n']|]; [|done]. split_binds.
  - case_decide; [done|]. unfold remove_immediate, modify_present. cbn [always_remove mbind outcome_bind]. split_binds.
  - destruct (bool_decide _); [|done]. unfold remove_immediate, modify_present.
    cbn [negb always_remove mbind outcome_bind]. split_binds.
Qed.

(** ** Whole tries *)

(** A trie of the family. *)
Definition trie_ok (root : N) : Prop := ok (n_octets fam) [] root.
Definition routes (root : N) (k : list bool) : option T := sem (n_octets fam) [] root k.

Lemma n_octets_S : exists r, n_octets fam = S r.
Proof. destruct fam; simpl; eauto. Qed.

Lemma on_path_root p : is_ipv4 (net_addr p) = fam -> on_path [] (net_trunc p).
Proof. intros Hf. split_and!; [apply trunc_truncated|by rewrite net_trunc_family|done|simpl; lia]. Qed.

Lemma empty_trie : trie_ok node_default /\ forall k, routes node_default k = None.
Proof.
  unfold trie_ok, routes. destruct n_octets_S as [r ->]. split; [apply default_node_ok|]. intros k. apply default_sem.
Qed.

Lemma insert_trie root p v :
  trie_ok root -> is_ipv4 (net_addr p) = fam ->
  exists root', insert root p v = Done (routes root (key p), root') /\ trie_ok root' /\
    forall k, routes root' k = set_at (key p) (Some v) (routes root) k.
Proof.
  intros Hn Hf. pose proof (n_octets_le fam).
  destruct (insert_loop_ok fam (n_octets fam) (S MAX_DEPTH) ltac:(unfold MAX_DEPTH; lia) [] root (net_trunc p) v
    ltac:(done) Hn (on_path_root p Hf)) as (old & n' & E & Hold & Hok & Hs & _).
  cbn [length] in Hold, Hs. rewrite rest_0, key_trunc in Hold, Hs. rewrite Nat.sub_diag in E.
  exists n'. unfold insert, insert_inner. rewrite E, Hold. done.
Qed.

Lemma finish_modification {A} root root1 (k0 : list bool) new (ret : A) removal :
  modified (n_octets fam) [] root k0 new 0 removal root1 ->
  exists root',
    match removal with
    | Some info => node ← compress_removal_path root1 info; mret (ret, node)
    | None => mret (ret, root1)
    end = Done (ret, root') /\ trie_ok root' /\ forall k, routes root' k = set_at k0 new (routes root) k.
Proof.
  intros Hm. destruct removal as [info|]; cbn [modified] in Hm.
  - destruct Hm as [_ Hm]. cbn [length] in Hm. rewrite decide_False in Hm by lia.
    destruct Hm as (Hlt & n'' & E & Hok & Hs & _). rewrite drop_0, Nat.sub_0_r in E.
    unfold compress_removal_path. rewrite decide_True by lia. rewrite E. by exists n''.
  - destruct Hm as (Hok & Hs & _). by exists root1.
Qed.

Lemma modify_trie root p f :
  trie_ok root -> is_ipv4 (net_addr p) = fam ->
  exists root', modify root p f = Done (fst (apply_mod f (routes root (key p))), root') /\ trie_ok root' /\
    forall k, routes root' k = set_at (key p) (snd (apply_mod f (routes root (key p)))) (routes root) k.
Proof.
  intros Hn Hf. destruct (modify_loop_ok f (n_octets fam) [] root (net_trunc p) 0) as (ret & info & n' & E & Hret & Hm);
    [done|done|by apply on_path_root|by right|].
  cbn [length] in E, Hret, Hm. rewrite drop_0 in E. rewrite rest_0, key_trunc in Hret, Hm.
  unfold modify. cbv zeta. rewrite E. cbn [mbind outcome_bind]. fold (routes root (key p)) in Hret. rewrite <- Hret.
  by apply finish_modification.
Qed.

Lemma remove_trie root p :
  trie_ok root -> is_ipv4 (net_addr p) = fam ->
  exists root', remove root p = Done (routes root (key p), root') /\ trie_ok root' /\
    forall k, routes root' k = set_at (key p) None (routes root) k.
Proof.
  intros Hn Hf. destruct (modify_trie root p always_remove Hn Hf) as (root' & E & Hok & Hs).
  pose proof (remove_loop_eq (n_octets fam) [] root (net_trunc p) 0 Hn ltac:(done) (on_path_root p Hf)) as Heq.
  cbn [length] in Heq. rewrite drop_0 in Heq.
  exists root'. split_and!; [|done|].
  - unfold remove. unfold modify in E. cbv zeta in *. rewrite Heq in E.
    unfold apply_mod, always_remove in E. cbn [fst] in E. destruct (remove_loop _ _ _ _ _ _) as [[[ret info] n']|]; [|done].
    cbn [mbind outcome_bind mret outcome_ret] in *.
    destruct info as [info|]; [destruct (compress_removal_path n' info); [|done]|]; cbn [mbind outcome_bind] in *;
      injection E as Er <-; f_equal; f_equal; rewrite Er; by destruct (routes root (key p)).
  - intros k. rewrite Hs. unfold apply_mod, always_remove. by destruct (routes root (key p)).
Qed.

End Mod.
End IpTrieMod.
