(* ===== verification/IpTrieLookup.v ===== *)
(** * Lookups find the longest matching prefixes

    [matches] lists the values of the prefixes of a bit string, longest first, as [sem]
    gives them.  The descent, the stack and the iterators of the lookups compute it. *)

From Stdlib Require Import ZifyNat Sorting.Sorted.
From S2P Require Import Prelude Bitset Array256 BaseIndex IpNet BartNode IpTrie IpTrieSpec IpTrieMod.
Import BaseIndex IpNet BartNode IpTrie IpTrieSpec IpTrieMod.

Module IpTrieLookup.

Definition isnil {A} (l : list A) : bool := match l with [] => true | _ => false end.

Lemma isnil_app {A} (l1 l2 : list A) : isnil (l1 ++ l2) = isnil l1 && isnil l2.
Proof. by destruct l1. Qed.

Section Lookup.
Context `{HI : Ipnet} `{HL : !IpnetLaws} {N T : Type} `{HO : !StrideOps N T} `{HS : !StrideLaws N T}.
Context (fam : bool).

Implicit Types n : N.
Implicit Types k b : list bool.
Implicit Types p : IpNet.
Implicit Types path : list nat.

Abbreviation ok := (ok fam).
Abbreviation on_path := (on_path fam).

(** ** The exact lookup *)

Lemma exact_loop_ok r path n p :
  ok r path n -> (length path + r = n_octets fam)%nat -> on_path path p ->
  exact_loop (drop (length path) (ip_octets (net_addr p))) n p (length path)
    = Done (sem r path n (rest (length path) p)).
Proof.
  revert path n. induction r as [|r IH]; intros path n Hn Hr Hp; [done|].
  pose proof (ok_wf _ _ _ _ Hn) as Hw. pose proof Hp as (Ht & Hf & Htk & Hl).
  destruct (path_octet fam path p r Hf Hr) as (o & Ho & Hlt). rewrite (drop_S _ _ _ Ho).
  cbn [exact_loop]. unfold stride_count_and_overflow. cbv zeta.
  destruct (decide (length path = net_prefix_len p / 8)%nat) as [Hd|Hd].
  { apply (ends_here fam path p Hp) in Hd. rewrite (from_prefix_rest fam path p o) by done. cbn [mbind outcome_bind].
    rewrite get_prefix_spec by (done || by apply idx_range). by rewrite sem_short. }
  assert (Hk : (8 <= length (rest (length path) p))%nat)
    by (destruct (decide (8 <= length (rest (length path) p))%nat); [done|]; exfalso; apply Hd, (ends_here fam); [done|lia]).
  pose proof (on_path_down fam path p o Hp Ho Hk) as Hpd.
  rewrite get_child_spec by done. cbn [mbind outcome_bind]. rewrite (is_fringe_spec fam) by done.
  rewrite (rest_long _ _ o Ho Hk), sem_long by done.
  destruct (cmap n !! o) as [c|] eqn:Hc; [|done]. pose proof (ok_child _ _ _ _ _ _ Hn Hc) as Hco.
  destruct c as [n1|lp v|v]; cbn [mbind outcome_bind child_sem].
  - destruct Hco as [Hok1 _]. pose proof (IH (path ++ [o]) n1 Hok1) as IH1. rewrite snoc_length in IH1.
    apply IH1; [lia|done].
  - pose proof (leaf_on_path _ _ _ Hco) as (Hlt' & Hlf & _). f_equal.
    pose proof (key_at_path fam (path ++ [o]) p (rest (S (length path)) p) Hpd) as Hkp. rewrite snoc_length in Hkp.
    destruct (decide (p = lp)) as [<-|Hne].
    + rewrite decide_True; [done|]. by apply Hkp.
    + rewrite decide_False; [done|]. intros E. apply Hne. apply key_inj; [done..|congruence|].
      rewrite E. by apply Hkp.
  - unfold mret, outcome_ret. f_equal. rewrite length_app, octet_bits_length.
    destruct (decide (rest (S (length path)) p = [])) as [->|E]; [done|].
    rewrite bool_decide_eq_false_2; [done|]. intros E8. apply E, nil_length_inv. lia.
Qed.

Lemma exact_trie root p :
  trie_ok fam root -> is_ipv4 (net_addr p) = fam -> truncated p ->
  lookup_prefix_exact root p = Done (routes fam root (key p)).
Proof.
  intros Hn Hf Ht. pose proof (exact_loop_ok (n_octets fam) [] root p Hn ltac:(done)) as H.
  cbn [length] in H. rewrite drop_0 in H. apply H. split_and!; [done..|simpl; lia].
Qed.

(** ** Matches *)

(** The values stored for the prefixes of [b], longest first. *)
Definition matches (s : list bool -> option T) (b : list bool) : list T :=
  omap (fun l => s (take l b)) (rev (seq 0 (S (length b)))).

(** The matches of an octet among the prefixes of one node. *)
Definition node_matches n (o : nat) : list T :=
  omap (fun i => pmap n !! i) (ancestors (take 7 (octet_bits o))).

(** The matches through the child of an octet; [whole] is the address. *)
Definition child_matches (r : nat) path (oc : option (Child N T)) (whole : list bool) b : list T :=
  match oc with
  | None => []
  | Some (Path n) => matches (sem r path n) b
  | Some (Fringe v) => [v]
  | Some (Leaf p v) => if decide (key p = take (net_prefix_len p) whole) then [v] else []
  end.

Lemma matches_ext s s' b : (forall k, s k = s' k) -> matches s b = matches s' b.
Proof. intros H. apply omap_ext_in. intros l _. apply H. Qed.

Lemma matches_length s b : (length (matches s b) <= S (length b))%nat.
Proof. unfold matches. etrans; [apply omap_length|]. by rewrite length_rev, length_seq. Qed.

Lemma matches_child r path oc b whole :
  whole = octs_bits path ++ b ->
  match oc with Some (Leaf p _) => on_path path p /\ (net_prefix_len p <= length whole)%nat | _ => True end ->
  matches (child_sem (sem r path) path oc) b = child_matches r path oc whole b.
Proof.
  intros Hwhole Hleaf. unfold matches. destruct oc as [[n1|p v|v]|]; cbn [child_sem child_matches].
  - done.
  - destruct Hleaf as [Hp Hlen]. pose proof Hp as (_ & _ & _ & Hl). pose proof (key_at_path fam path p) as Hkey.
    assert (Hwl : length whole = (8 * length path + length b)%nat)
      by (rewrite Hwhole, length_app, octs_bits_length; done).
    assert (Htake : take (net_prefix_len p) whole = octs_bits path ++ take (length (rest (length path) p)) b).
    { rewrite Hwhole, take_app_ge by (rewrite octs_bits_length; lia). by rewrite octs_bits_length, rest_length. }
    assert (Hone : forall l, (l <= length b)%nat -> key p = octs_bits path ++ take l b <->
      l = length (rest (length path) p) /\ key p = take (net_prefix_len p) whole).
    { intros l Hlb. rewrite Htake. split; [|by intros [-> ?]]. intros E. split; [|].
      - apply Hkey in E; [|done]. rewrite <- E, length_take. lia.
      - pose proof E as E'. apply Hkey in E'; [|done]. rewrite E, <- E', length_take, Nat.min_l by done. done. }
    case_decide as Hk.
    + eapply (omap_one _ _ (length (rest (length path) p))).
      * apply NoDup_ListNoDup, List.NoDup_rev, NoDup_ListNoDup, NoDup_seq.
      * apply list_elem_of_In. rewrite <- in_rev. apply in_seq. rewrite rest_length. lia.
      * intros l Hin%list_elem_of_In. rewrite <- in_rev in Hin. apply in_seq in Hin.
        pose proof (Hone l ltac:(lia)). repeat case_decide; tauto.
    + apply omap_none. intros l Hin%list_elem_of_In. rewrite <- in_rev in Hin. apply in_seq in Hin.
      rewrite decide_False; [done|]. intros E%Hone; [|lia]. tauto.
  - eapply (omap_one _ _ 0%nat).
    + apply NoDup_ListNoDup, List.NoDup_rev, NoDup_ListNoDup, NoDup_seq.
    + apply list_elem_of_In. rewrite <- in_rev. apply in_seq. lia.
    + intros l Hin%list_elem_of_In. rewrite <- in_rev in Hin. apply in_seq in Hin.
      destruct (decide (l = 0)%nat) as [->|Hne]; [done|]. rewrite decide_False; [done|].
      intros E%(f_equal length). rewrite length_take in E. simpl in E. lia.
  - by apply omap_none.
Qed.

Lemma matches_step r path n o b whole :
  (o < 256)%nat -> whole = octs_bits path ++ octet_bits o ++ b ->
  match cmap n !! o with Some (Leaf p _) => on_path (path ++ [o]) p /\ (net_prefix_len p <= length whole)%nat | _ => True end ->
  matches (sem (S r) path n) (octet_bits o ++ b) =
    child_matches r (path ++ [o]) (cmap n !! o) whole b ++ node_matches n o.
Proof.
  intros Ho Hwhole Hleaf. rewrite <- (matches_child r (path ++ [o]) (cmap n !! o) b whole); [|by rewrite octs_bits_app, <- app_assoc, octs_bits_cons, app_nil_r|done].
  unfold matches. rewrite length_app, octet_bits_length.
  replace (seq 0 (S (8 + length b))) with (seq 0 8 ++ seq 8 (S (length b))) by (rewrite <- seq_app; f_equal; lia).
  rewrite rev_app_distr, omap_app_eq. apply (f_equal2 app).
  - rewrite <- (fmap_add_seq 8 0). rewrite <- map_rev, omap_map. apply omap_ext_in. intros l _.
    rewrite take_app_ge by (rewrite octet_bits_length; lia). rewrite octet_bits_length.
    replace (8 + l - 8)%nat with l by lia. by apply sem_long.
  - unfold node_matches, ancestors. rewrite length_take, octet_bits_length. change (S (7 `min` 8)) with 8%nat.
    rewrite omap_map. apply omap_ext_in. intros l Hl%list_elem_of_In. rewrite <- in_rev in Hl. apply in_seq in Hl.
    rewrite take_app_le by (rewrite octet_bits_length; lia). rewrite take_take, Nat.min_l by lia.
    apply sem_short. rewrite length_take, octet_bits_length. lia.
Qed.

(** ** The iterator over the prefixes of a node *)

(** The bits left to yield, and the indices they stand for, in the order they come. *)
Definition yields n (s : Bitset.Bitset) (is_ : list nat) : Prop :=
  Bitset.wf s /\ length s = 4%nat /\ rev (Bitset.members s) = is_ /\ Forall (fun i => is_Some (pmap n !! i)) is_.

Lemma lpm_octet n o :
  node_wf n -> (o < 256)%nat ->
  exists s, (i ← from_pfx_7 o; lpm i) = Done s /\ Bitset.wf s /\
    yields n (Bitset.intersect_inplace (prefix_bitset n) s) (filter (fun j => Bitset.mem (prefix_bitset n) j = true) (ancestors (take 7 (octet_bits o)))).
Proof.
  intros Hn Ho. destruct (prefix_bitset_wf n Hn) as [Hb Hbl].
  destruct (lpm_spec (take 7 (octet_bits o))) as (s & Es & Hs & Hsl & Hm); [rewrite length_take, octet_bits_length; simpl; lia|].
  exists s. rewrite from_pfx_7_spec by done. cbn [mbind outcome_bind]. split_and!; [done..|]. split_and!.
  - by apply Bitset.wf_intersect.
  - rewrite Bitset.intersect_length; congruence.
  - rewrite ancestors_asc, <- rev_filter. f_equal. rewrite <- (common_ancestors _ _ s) by done.
    apply Bitset.members_restrict; [rewrite Bitset.intersect_length; congruence|]. intros i _.
    rewrite Bitset.mem_intersect by congruence. rewrite andb_comm. f_equal. by destruct (Bitset.mem s i).
  - apply Forall_forall. intros i [Hi _]%list_elem_of_filter. by apply prefix_bitset_mem.
Qed.

Lemma node_matches_filter n o :
  node_wf n -> node_matches n o =
    omap (fun i => pmap n !! i) (filter (fun j => Bitset.mem (prefix_bitset n) j = true) (ancestors (take 7 (octet_bits o)))).
Proof. intros Hn. apply omap_filter. intros i _ Hi. by apply prefix_bitset_mem. Qed.

Lemma for_octet_spec n o :
  node_wf n -> (o < 256)%nat ->
  exists s is_, for_octet n o = Done s /\ yields n s is_ /\ node_matches n o = omap (fun i => pmap n !! i) is_.
Proof.
  intros Hn Ho. destruct (lpm_octet n o Hn Ho) as (s & Es & _ & Hy). exists (Bitset.intersect_inplace (prefix_bitset n) s). eexists. split_and!.
  - unfold for_octet. destruct (from_pfx_7 o) as [i|]; [|done]. cbn [mbind outcome_bind] in *. by rewrite Es.
  - done.
  - by apply node_matches_filter.
Qed.

Lemma clear_last s i is_ s' :
  rev (Bitset.members s) = i :: is_ ->
  (forall j, Bitset.mem s' j = negb (bool_decide (j = i)) && Bitset.mem s j) -> rev (Bitset.members s') = is_.
Proof.
  intros Hr Hm. assert (Hms : Bitset.members s = rev is_ ++ [i]) by (by rewrite <- (rev_involutive (Bitset.members s)), Hr).
  rewrite <- (rev_involutive is_). f_equal. pose proof (Bitset.members_sorted s) as Hs. rewrite Hms in Hs.
  assert (Hlt : StronglySorted lt (rev is_) /\ forall j, j ∈ rev is_ -> (j < i)%nat).
  { clear -Hs. induction (rev is_) as [|x l IH]; [split; [constructor|set_solver]|].
    inversion Hs as [|? ? Hs' Hx]; subst. destruct (IH Hs') as [H1 H2]. rewrite Forall_forall in Hx. split.
    - constructor; [done|]. apply Forall_forall. intros j Hj. apply Hx. set_solver.
    - intros j [->|Hj]%elem_of_cons; [apply Hx; set_solver|auto]. }
  destruct Hlt as [Hs1 Hlt]. apply sorted_ext; [apply Bitset.members_sorted|done|].
  intros j. rewrite Bitset.members_spec, Hm, andb_true_iff, negb_true_iff, bool_decide_eq_false.
  rewrite <- Bitset.members_spec, Hms. split.
  - intros [Hne [?| ->%list_elem_of_singleton]%elem_of_app]; done.
  - intros Hj. specialize (Hlt j Hj). split; [lia|set_solver].
Qed.

Lemma prefix_iter_next_spec n s is_ :
  node_wf n -> yields n s is_ ->
  match is_ with
  | [] => prefix_iter_next n s = Done (None, s)
  | i :: is_ => exists v s', pmap n !! i = Some v /\ prefix_iter_next n s = Done (Some (i, v), s') /\ yields n s' is_
  end.
Proof.
  intros Hn (Hs & Hl & Hr & Hall). unfold prefix_iter_next. change 257%nat with (S 256). cbn [prefix_iter_loop].
  rewrite Bitset.last_set_spec; [|done|by destruct s]. rewrite last_rev, Hr. cbn [mbind outcome_bind].
  destruct is_ as [|i is_]; [done|]. cbn [head]. apply Forall_cons in Hall as [[v Hv] Hall].
  destruct (pmap_range n i v Hn Hv) as [H0 H256].
  destruct (Bitset.clear_spec s i Hs) as (s' & -> & Hs' & Hl' & Hm); [rewrite Hl; unfold Bitset.N_BITS; lia|].
  cbn [mbind outcome_bind]. unfold new, try_new. rewrite decide_False by lia. cbn [unwrap mbind outcome_bind].
  rewrite get_prefix_spec, Hv by (done || lia). exists v, s'. split_and!; [done..|]. split_and!; [done|congruence| |done].
  by eapply clear_last.
Qed.

(** ** The walk up the stack *)

Definition stack_ok (st : list (N * nat)) : Prop := Forall (fun x => node_wf (fst x) /\ (snd x < 256)%nat) st.

Definition stack_matches (st : list (N * nat)) : list T := flat_map (fun x => node_matches (fst x) (snd x)) st.

(** The values the walk has still to yield. *)
Definition pending (st : list (N * nat)) (it : option (N * Bitset.Bitset)) (vs : list T) : Prop :=
  match it with
  | None => vs = stack_matches st
  | Some (n, s) => exists o below is_, st = (n, o) :: below /\ yields n s is_ /\
      vs = omap (fun i => pmap n !! i) is_ ++ stack_matches below
  end.

Lemma walk_loop_ok fuel st it vs :
  stack_ok st -> pending st it vs -> (2 * length st + (if it is Some _ then 0 else 1) <= fuel)%nat ->
  exists st' it', walk_loop fuel st it = Done (head vs, (st', it')) /\ stack_ok st' /\ pending st' it' (tail vs).
Proof.
  revert st it vs. induction fuel as [|fuel IH]; intros st it vs Hst Hp Hf.
  { destruct it as [[n s]|]; [|lia]. destruct Hp as (o & below & is_ & -> & _). simpl in Hf. lia. }
  destruct st as [|[n o] below].
  { destruct it as [[n s]|]; [by destruct Hp as (o & below & is_ & Hx & _)|]. simpl in Hp. subst vs. by exists [], None. }
  apply Forall_cons in Hst as [[Hn Ho] Hbelow]. cbn [fst snd] in *. cbn [walk_loop]. destruct it as [[n' s]|].
  - destruct Hp as (o' & below' & is_ & [= <- <- <-] & Hy & ->).
    pose proof (prefix_iter_next_spec n s is_ Hn Hy) as Hnext. destruct is_ as [|i is_].
    + rewrite Hnext. cbn [mbind outcome_bind]. apply IH; [done..|]. simpl in *. lia.
    + destruct Hnext as (v & s' & Hv & -> & Hy'). cbn [mbind outcome_bind]. rewrite omap_cons_eq, Hv.
      exists ((n, o) :: below), (Some (n, s')). split_and!; [done|by apply Forall_cons|]. by exists o, below, is_.
  - destruct (for_octet_spec n o Hn Ho) as (s & is_ & -> & Hy & Hm). cbn [mbind outcome_bind].
    apply IH; [by apply Forall_cons| |simpl in *; lia]. exists o, below, is_. split_and!; [done..|].
    simpl in Hp. subst vs. cbn [stack_matches flat_map fst snd]. by rewrite Hm.
Qed.

Lemma walk_stack_ok st it vs :
  stack_ok st -> pending st it vs ->
  exists st' it', walk_stack st it = Done (head vs, (st', it')) /\ stack_ok st' /\ pending st' it' (tail vs).
Proof. intros. apply walk_loop_ok; [done..|]. destruct it; lia. Qed.

(** ** The descent *)

Lemma descend_ok r path n addr st :
  ok r path n -> (length path + r = n_octets fam)%nat -> addr_ok addr -> is_ipv4 addr = fam ->
  take (length path) (ip_octets addr) = path -> length st = length path -> stack_ok st ->
  exists v st', descend (drop (length path) (ip_octets addr)) n addr st = Done (v, st' ++ st) /\ stack_ok (st' ++ st) /\
    matches (sem r path n) (octs_bits (drop (length path) (ip_octets addr))) =
      match v with Some v => [v] | None => [] end ++ stack_matches st'.
Proof.
  revert path n st. induction r as [|r IH]; intros path n st Hn Hr Ha Hf Htk Hst Hok; [done|].
  pose proof (ok_wf _ _ _ _ Hn) as Hw. pose proof Ha as [Hlen Hoct]%addr_ok_spec.
  destruct (lookup_lt_is_Some_2 (ip_octets addr) (length path)) as [o Ho]; [rewrite Hlen, Hf; lia|].
  assert (Holt : (o < 256)%nat) by (eapply Forall_lookup_1 in Hoct; done).
  rewrite (drop_S _ _ _ Ho), octs_bits_cons.
  assert (Hwhole : addr_bits addr = octs_bits path ++ octet_bits o ++ octs_bits (drop (S (length path)) (ip_octets addr))).
  { unfold addr_bits. rewrite <- (take_drop (length path) (ip_octets addr)) at 1.
    by rewrite Htk, octs_bits_app, (drop_S _ _ _ Ho), octs_bits_cons. }
  assert (Hwl : length (addr_bits addr) = (8 * n_octets fam)%nat) by (unfold addr_bits; rewrite octs_bits_length, Hlen; congruence).
  assert (Htk' : take (length (path ++ [o])) (ip_octets addr) = path ++ [o])
    by (rewrite snoc_length, (take_S_r _ _ _ Ho); by f_equal).
  rewrite (matches_step r path n o _ (addr_bits addr)); [|done..|].
  2: { destruct (cmap n !! o) as [[|p v|]|] eqn:Hc; try done. pose proof (ok_child _ _ _ _ _ _ Hn Hc) as Hco.
       apply (leaf_on_path fam) in Hco. split; [done|]. destruct Hco as (_ & Hpf & _). rewrite Hwl, <- Hpf. apply net_len_ok. }
  cbn [descend]. unfold push. rewrite decide_True by (pose proof (n_octets_le fam); unfold MAX_DEPTH; lia).
  cbn [mbind outcome_bind]. rewrite get_child_spec by done. cbn [mbind outcome_bind].
  assert (Hok' : stack_ok ((n, o) :: st)) by (by apply Forall_cons).
  assert (Hthis : forall v : option T, exists v0 st', Done (v, (n, o) :: st) = Done (v0, st' ++ st) /\ stack_ok (st' ++ st) /\
    match v with Some v => [v] | None => [] end ++ node_matches n o =
      match v0 with Some v => [v] | None => [] end ++ stack_matches st').
  { intros v. exists v, [(n, o)]. split_and!; [done..|]. cbn [stack_matches flat_map fst snd]. by rewrite app_nil_r. }
  destruct (cmap n !! o) as [c|] eqn:Hc; [|apply (Hthis None)]. pose proof (ok_child _ _ _ _ _ _ Hn Hc) as Hco.
  destruct c as [n1|p v|v]; cbn [child_matches].
  - destruct Hco as [Hok1 _]. destruct (IH (path ++ [o]) n1 ((n, o) :: st) Hok1) as (v & st' & E & Hs' & Hm);
      [rewrite snoc_length; lia|done..|rewrite snoc_length; simpl; lia|done|].
    rewrite snoc_length in E, Hm. exists v, (st' ++ [(n, o)]). rewrite <- app_assoc. split_and!; [done..|].
    rewrite Hm. unfold stack_matches. rewrite flat_map_app, <- app_assoc. cbn [flat_map fst snd]. by rewrite app_nil_r.
  - destruct Hco as (_ & Hpf & _). pose proof (net_contains_spec p addr Ha) as Hcs. rewrite Hpf, Hf in Hcs.
    case_decide as Hk; destruct (net_contains p addr) eqn:Ec; [apply (Hthis (Some v))|intuition congruence..|apply (Hthis None)].
  - apply (Hthis (Some v)).
Qed.

(** ** The lookups of an address *)

Lemma matches_trie root addr v st :
  trie_ok fam root -> addr_ok addr -> is_ipv4 addr = fam ->
  descend (ip_octets addr) root addr [] = Done (v, st) ->
  stack_ok st /\ matches (routes fam root) (addr_bits addr) = match v with Some v => [v] | None => [] end ++ stack_matches st.
Proof.
  intros Hn Ha Hf E. destruct (descend_ok (n_octets fam) [] root addr [] Hn) as (v' & st' & E' & Hs & Hm);
    [done..|by constructor|]. rewrite app_nil_r in *. cbn [length] in *. rewrite drop_0 in *. rewrite E in E'.
  by injection E' as -> ->.
Qed.

Lemma descend_trie root addr :
  trie_ok fam root -> addr_ok addr -> is_ipv4 addr = fam ->
  exists v st, descend (ip_octets addr) root addr [] = Done (v, st).
Proof.
  intros Hn Ha Hf. destruct (descend_ok (n_octets fam) [] root addr [] Hn) as (v' & st' & E' & _);
    [done..|by constructor|]. cbn [length] in *. rewrite drop_0 in *. eauto.
Qed.

Lemma lookup_trie root addr :
  trie_ok fam root -> addr_ok addr -> is_ipv4 addr = fam ->
  lookup_address root addr = Done (head (matches (routes fam root) (addr_bits addr))).
Proof.
  intros Hn Ha Hf. destruct (descend_trie root addr Hn Ha Hf) as (v & st & E).
  destruct (matches_trie _ _ _ _ Hn Ha Hf E) as [Hs ->]. unfold lookup_address. rewrite E. cbn [mbind outcome_bind].
  destruct v as [v|]; [done|]. destruct (walk_stack_ok st None (stack_matches st) Hs) as (st' & it' & -> & _); [done|].
  done.
Qed.

(** The values an iterator has still to yield. *)
Definition iter_pending (it : LookupIter) (vs : list T) : Prop :=
  stack_ok (iter_stack it) /\
  exists ws, pending (iter_stack it) (iter_prefix it) ws /\ vs = match iter_value it with Some v => [v] | None => [] end ++ ws.

Lemma iter_next_ok it vs :
  iter_pending it vs -> exists it', iter_next it = Done (head vs, it') /\ iter_pending it' (tail vs).
Proof.
  intros (Hs & ws & Hp & ->). unfold iter_next. destruct (iter_value it) as [v|].
  - eexists. split; [done|]. split; [done|]. by exists ws.
  - destruct (walk_stack_ok _ _ ws Hs Hp) as (st' & it' & -> & Hs' & Hp'). eexists. split; [done|]. split; [done|].
    by exists (tail ws).
Qed.

Lemma lookup_all_trie root addr :
  trie_ok fam root -> addr_ok addr -> is_ipv4 addr = fam ->
  exists it, lookup_address_all root addr = Done it /\ iter_pending it (matches (routes fam root) (addr_bits addr)).
Proof.
  intros Hn Ha Hf. destruct (descend_trie root addr Hn Ha Hf) as (v & st & E).
  destruct (matches_trie _ _ _ _ Hn Ha Hf E) as [Hs ->]. unfold lookup_address_all. rewrite E.
  eexists. split; [done|]. split; [done|]. by exists (stack_matches st).
Qed.

(** ** Containment *)

Lemma hit_spec n o :
  node_wf n -> (o < 256)%nat ->
  (i ← from_pfx_7 o; if (prefix_count n =? 0)%nat then mret false else supersets_prefix n i)
    = Done (negb (isnil (node_matches n o))).
Proof.
  intros Hn Ho. destruct (lpm_octet n o Hn Ho) as (s & Es & Hs & Hy).
  pose proof (node_matches_filter n o Hn) as Hm. rewrite from_pfx_7_spec in * by done. cbn [mbind outcome_bind] in *.
  destruct (prefix_bitset_wf n Hn) as [Hb _].
  destruct (Nat.eqb_spec (prefix_count n) 0) as [E0|_].
  - rewrite prefix_count_spec in E0 by done. apply map_size_empty_inv in E0.
    unfold node_matches. rewrite omap_none; [done|]. intros i _. by rewrite E0.
  - unfold supersets_prefix. rewrite Es. cbn [mbind outcome_bind]. unfold mret, outcome_ret. f_equal.
    rewrite Bitset.intersects_spec, Hm by done. destruct Hy as (_ & _ & Hr & Hall).
    destruct (Bitset.members (Bitset.intersect_inplace (prefix_bitset n) s)) as [|i l] eqn:Em.
    + by rewrite <- Hr.
    + assert (Hi : i ∈ filter (fun j => Bitset.mem (prefix_bitset n) j = true) (ancestors (take 7 (octet_bits o))))
        by (rewrite <- Hr; apply list_elem_of_In; rewrite <- in_rev; by left).
      apply list_elem_of_split in Hi as (l1 & l2 & El). rewrite El in *. apply Forall_app in Hall as [_ [[v Hv] _]%Forall_cons].
      rewrite omap_app_eq, omap_cons_eq, Hv, isnil_app. cbn [isnil]. by rewrite andb_false_r, bool_decide_eq_false_2.
Qed.

(** [contains] visits the nodes of the descent and stops at the first with a match. *)
Lemma contains_descend os n addr st v st2 :
  descend os n addr st = Done (v, st2) -> stack_ok st2 ->
  exists st', st2 = st' ++ st /\
    contains_loop os n addr = Done (negb (isnil (match v with Some v => [v] | None => [] end ++ stack_matches st'))).
Proof.
  revert n st. induction os as [|o os IH]; intros n st E Hs.
  { injection E as <- <-. by exists []. }
  cbn [descend] in E. unfold push in E. case_decide; [|done]. cbn [mbind outcome_bind] in E.
  destruct (get_child n o) as [c|] eqn:Ec; [|done]. cbn [mbind outcome_bind] in E.
  assert (Hb : exists st1, st2 = st1 ++ [(n, o)] ++ st /\
    match c with
    | Some (Path n1) => contains_loop os n1 addr = Done (negb (isnil (match v with Some v => [v] | None => [] end ++ stack_matches st1)))
    | _ => st1 = [] /\ v = match c with Some (Leaf p x) => if net_contains p addr then Some x else None | Some (Fringe x) => Some x | _ => None end
    end).
  { destruct c as [[n1|p x|x]|].
    - destruct (IH _ _ E Hs) as (st1 & -> & Hc). by exists st1.
    - exists []. by injection E as <- <-.
    - exists []. by injection E as <- <-.
    - exists []. by injection E as <- <-. }
  destruct Hb as (st1 & -> & Hc). exists (st1 ++ [(n, o)]). rewrite <- app_assoc. split; [done|].
  apply Forall_app in Hs as [_ [[Hn Ho] _]%Forall_cons]. cbn [fst snd] in *. pose proof (hit_spec n o Hn Ho) as Hh.
  cbn [contains_loop]. destruct (from_pfx_7 o) as [i|]; [|done]. cbn [mbind outcome_bind] in *.
  rewrite Hh. cbn [mbind outcome_bind]. unfold stack_matches at 1. rewrite flat_map_app. cbn [flat_map fst snd]. rewrite app_nil_r.
  rewrite app_assoc, isnil_app. destruct (node_matches n o) as [|x l]; cbn [isnil andb negb]; [|by rewrite andb_false_r].
  rewrite andb_true_r, Ec. cbn [mbind outcome_bind]. destruct c as [[n1|p x|x]|]; [done|..]; destruct Hc as [-> ->]; [|done..].
  by destruct (net_contains p addr).
Qed.

Lemma contains_trie root addr :
  trie_ok fam root -> addr_ok addr -> is_ipv4 addr = fam ->
  contains root addr = Done (negb (isnil (matches (routes fam root) (addr_bits addr)))).
Proof.
  intros Hn Ha Hf. destruct (descend_trie root addr Hn Ha Hf) as (v & st & E).
  destruct (matches_trie _ _ _ _ Hn Ha Hf E) as [Hs ->]. unfold contains.
  destruct (contains_descend _ _ _ _ _ _ E Hs) as (st' & -> & ->). by rewrite app_nil_r.
Qed.

End Lookup.
End IpTrieLookup.
