(* ===== verification/RoutingTable.v ===== *)
(** * The trait [RoutingTable] (ts_bart/src/table/mod.rs)

    The operations of a routing table as a class, the abstract table they promise (a pair
    of finite maps from bit strings to values, one per address family) and the laws that
    relate the two; what follows from the laws for sequences of operations. *)

From S2P Require Import Prelude Bitset BaseIndex IpNet BartNode IpTrie IpTrieSpec IpTrieMod IpTrieLookup.
Import BaseIndex IpNet BartNode IpTrieSpec IpTrieMod IpTrieLookup.

Module RoutingTable.

(** ** The trait *)

(** [RoutingTable]: [Tb] is the table, [T] the type of values, [It] the type of the iterators
    of [lookup_all]. *)
Class RoutingTable `{HI : Ipnet} (Tb T It : Type) : Type := {
  rt_contains : Tb -> IpAddr -> outcome bool;
  rt_insert : Tb -> IpNet -> T -> outcome (option T * Tb);
  rt_remove : Tb -> IpNet -> outcome (option T * Tb);
  rt_clear : Tb -> Tb;
  rt_modify_impl : Tb -> IpNet -> (option T -> IpTrie.RouteModification (T := T) * option T) -> outcome (option T * Tb);
  rt_lookup : Tb -> IpAddr -> outcome (option T);
  rt_lookup_all : Tb -> IpAddr -> outcome It;
  rt_next : It -> outcome (option T * It);
  rt_lookup_prefix_exact : Tb -> IpNet -> outcome (option T);
  rt_lookup_prefix : Tb -> IpNet -> outcome (option T);
  rt_lookup_prefix_lpm : Tb -> IpNet -> outcome (option (IpNet * T));
  rt_size : Tb -> outcome Z;
}.

(** ** The abstract table *)

Section Abstract.
Context `{HI : Ipnet} {T : Type}.

(** The routes by the bits of their prefixes. *)
Record Routes : Type := mkRoutes {
  routes4 : gmap (list bool) T;
  routes6 : gmap (list bool) T;
}.

Definition no_routes : Routes := mkRoutes ∅ ∅.

Definition sel (M : Routes) (ipv4 : bool) : gmap (list bool) T := if ipv4 then routes4 M else routes6 M.

Definition rget (M : Routes) (p : IpNet) : option T := sel M (is_ipv4 (net_addr p)) !! key p.

Definition rset (M : Routes) (p : IpNet) (o : option T) : Routes :=
  if is_ipv4 (net_addr p) then mkRoutes (partial_alter (fun _ => o) (key p) (routes4 M)) (routes6 M)
  else mkRoutes (routes4 M) (partial_alter (fun _ => o) (key p) (routes6 M)).

(** The values of the prefixes that cover an address, most specific first. *)
Definition rmatches (M : Routes) (ip : IpAddr) : list T := matches (fun k => sel M (is_ipv4 ip) !! k) (addr_bits ip).

Definition rsize (M : Routes) : Z := Z.of_nat (size (routes4 M)) + Z.of_nat (size (routes6 M)).

Lemma size_put (m : gmap (list bool) T) k v :
  Z.of_nat (size (partial_alter (fun _ => Some v) k m)) =
    match m !! k with Some _ => Z.of_nat (size m) | None => Z.of_nat (size m) + 1 end.
Proof. pose proof (map_size_insert k v m) as H. unfold base.insert, map_insert in H. rewrite H. destruct (m !! k); simpl; lia. Qed.

Lemma size_drop (m : gmap (list bool) T) k :
  Z.of_nat (size (partial_alter (fun _ => None) k m)) =
    match m !! k with Some _ => Z.of_nat (size m) - 1 | None => Z.of_nat (size m) end /\
  (is_Some (m !! k) -> 1 <= Z.of_nat (size m)).
Proof.
  assert (Hk : is_Some (m !! k) -> 1 <= Z.of_nat (size m)) by (intros H%map_size_ne_0_lookup_2; lia). split; [|done].
  pose proof (map_size_delete k m) as H. unfold base.delete, map_delete in H. rewrite H.
  destruct (m !! k); simpl; [|done]. specialize (Hk ltac:(done)). lia.
Qed.

Lemma rsize_set M p o : rsize (rset M p o) <= rsize M + 1.
Proof.
  assert (H : forall m : gmap (list bool) T, (size (partial_alter (fun _ => o) (key p) m) <= S (size m))%nat).
  { intros m. destruct o as [v|].
    - pose proof (size_put m (key p) v). destruct (m !! key p); lia.
    - pose proof (size_drop m (key p)) as [? _]. destruct (m !! key p); lia. }
  unfold rsize, rset. pose proof (H (routes4 M)). pose proof (H (routes6 M)). case_match; simpl; lia.
Qed.

End Abstract.
Arguments Routes : clear implicits.

(** What a routing table promises: it holds some routes, changes them as asked and answers
    from them, and no operation panics while the number of routes fits a [usize]. *)
Class RoutingTableLaws `{HI : Ipnet} (Tb T It : Type) `{HR : !RoutingTable Tb T It} : Type := {
  rt_repr : Tb -> Routes T -> Prop;
  rt_iter : It -> list T -> Prop;
  rt_insert_spec t M p v :
    rt_repr t M -> rsize M + 1 < U64 ->
    exists t', rt_insert t p v = Done (rget M p, t') /\ rt_repr t' (rset M p (Some v));
  rt_remove_spec t M p :
    rt_repr t M -> exists t', rt_remove t p = Done (rget M p, t') /\ rt_repr t' (rset M p None);
  rt_modify_spec t M p f :
    rt_repr t M -> rsize M + 1 < U64 ->
    exists t', rt_modify_impl t p f = Done (fst (fst (apply_mod f (rget M p))), t') /\
      rt_repr t' (rset M p (snd (apply_mod f (rget M p))));
  rt_clear_spec t : rt_repr (rt_clear t) no_routes;
  rt_contains_spec t M ip :
    rt_repr t M -> addr_ok ip -> rt_contains t ip = Done (negb (isnil (rmatches M ip)));
  rt_lookup_spec t M ip :
    rt_repr t M -> addr_ok ip -> rt_lookup t ip = Done (head (rmatches M ip));
  rt_lookup_all_spec t M ip :
    rt_repr t M -> addr_ok ip -> exists it, rt_lookup_all t ip = Done it /\ rt_iter it (rmatches M ip);
  rt_next_spec it vs :
    rt_iter it vs -> exists it', rt_next it = Done (head vs, it') /\ rt_iter it' (tail vs);
  rt_exact_spec t M p :
    rt_repr t M -> truncated p -> rt_lookup_prefix_exact t p = Done (rget M p);
  rt_size_spec t M : rt_repr t M -> rsize M < U64 -> rt_size t = Done (rsize M);
}.

(** ** Sequences of operations *)

Section Ops.
Context `{HI : Ipnet} {Tb T It : Type} `{HR : !RoutingTable Tb T It}.

Inductive Op : Type :=
| OpInsert (p : IpNet) (v : T)
| OpRemove (p : IpNet)
| OpModify (p : IpNet) (f : option T -> IpTrie.RouteModification (T := T) * option T)
| OpClear
| OpContains (ip : IpAddr)
| OpLookup (ip : IpAddr)
| OpLookupAll (ip : IpAddr)
| OpExact (p : IpNet)
| OpSize.

Inductive Out : Type :=
| OutValue (v : option T)
| OutValues (vs : list T)
| OutBool (b : bool)
| OutSize (n : Z)
| OutUnit.

(** What a [for] loop over an iterator sees, if it ends within [fuel] items. *)
Fixpoint drain (fuel : nat) (it : It) : outcome (list T) :=
  match fuel with
  | O => Panic
  | S fuel =>
      '(o, it) ← rt_next it;
      match o with
      | None => mret []
      | Some v => vs ← drain fuel it; mret (v :: vs)
      end
  end.

(** An address has at most 129 prefixes. *)
Definition exec (t : Tb) (op : Op) : outcome (Out * Tb) :=
  match op with
  | OpInsert p v => '(r, t) ← rt_insert t p v; mret (OutValue r, t)
  | OpRemove p => '(r, t) ← rt_remove t p; mret (OutValue r, t)
  | OpModify p f => '(r, t) ← rt_modify_impl t p f; mret (OutValue r, t)
  | OpClear => mret (OutUnit, rt_clear t)
  | OpContains ip => b ← rt_contains t ip; mret (OutBool b, t)
  | OpLookup ip => r ← rt_lookup t ip; mret (OutValue r, t)
  | OpLookupAll ip => it ← rt_lookup_all t ip; vs ← drain 130 it; mret (OutValues vs, t)
  | OpExact p => r ← rt_lookup_prefix_exact t p; mret (OutValue r, t)
  | OpSize => n ← rt_size t; mret (OutSize n, t)
  end.

Fixpoint exec_all (t : Tb) (ops : list Op) : outcome (list Out * Tb) :=
  match ops with
  | [] => mret ([], t)
  | op :: ops => '(o, t) ← exec t op; '(os, t) ← exec_all t ops; mret (o :: os, t)
  end.

(** The same on the abstract table. *)
Definition answer (M : Routes T) (op : Op) : Out * Routes T :=
  match op with
  | OpInsert p v => (OutValue (rget M p), rset M p (Some v))
  | OpRemove p => (OutValue (rget M p), rset M p None)
  | OpModify p f => let r := apply_mod f (rget M p) in (OutValue (fst (fst r)), rset M p (snd r))
  | OpClear => (OutUnit, no_routes)
  | OpContains ip => (OutBool (negb (isnil (rmatches M ip))), M)
  | OpLookup ip => (OutValue (head (rmatches M ip)), M)
  | OpLookupAll ip => (OutValues (rmatches M ip), M)
  | OpExact p => (OutValue (rget M p), M)
  | OpSize => (OutSize (rsize M), M)
  end.

Fixpoint answers (M : Routes T) (ops : list Op) : list Out * Routes T :=
  match ops with
  | [] => ([], M)
  | op :: ops => let '(o, M) := answer M op in let '(os, M) := answers M ops in (o :: os, M)
  end.

(** Addresses have octets, and an exact lookup is for a prefix without host bits. *)
Definition op_ok (op : Op) : Prop :=
  match op with
  | OpContains ip | OpLookup ip | OpLookupAll ip => addr_ok ip
  | OpExact p => truncated p
  | _ => True
  end.

Context `{HT : !RoutingTableLaws Tb T It}.

Lemma drain_ok fuel it vs : rt_iter it vs -> (length vs < fuel)%nat -> drain fuel it = Done vs.
Proof.
  revert it vs. induction fuel as [|fuel IH]; intros it vs Hp Hl; [lia|]. cbn [drain].
  destruct (rt_next_spec it vs Hp) as (it' & -> & Hp'). cbn [mbind outcome_bind]. destruct vs as [|v vs]; [done|].
  cbn [head]. rewrite (IH it' vs) by (done || simpl in *; lia). done.
Qed.

Lemma rmatches_length (M : Routes T) ip : addr_ok ip -> (length (rmatches M ip) < 130)%nat.
Proof.
  intros [Hl _]%addr_ok_spec. unfold rmatches. pose proof (matches_length (fun k => sel M (is_ipv4 ip) !! k) (addr_bits ip)) as H.
  unfold addr_bits in *. rewrite octs_bits_length, Hl in H. pose proof (n_octets_le (is_ipv4 ip)). lia.
Qed.

Lemma exec_ok t M op :
  rt_repr t M -> op_ok op -> rsize M + 1 < U64 ->
  exists t', exec t op = Done (fst (answer M op), t') /\ rt_repr t' (snd (answer M op)) /\ rsize (snd (answer M op)) <= rsize M + 1.
Proof.
  intros Ht Hop Hsz. destruct op as [p v|p|p f| |ip|ip|ip|p|]; cbn [exec answer fst snd op_ok] in *.
  - destruct (rt_insert_spec t M p v Ht Hsz) as (t' & -> & Ht'). exists t'. split_and!; [done..|apply rsize_set].
  - destruct (rt_remove_spec t M p Ht) as (t' & -> & Ht'). exists t'. split_and!; [done..|apply rsize_set].
  - destruct (rt_modify_spec t M p f Ht Hsz) as (t' & -> & Ht'). exists t'. split_and!; [done..|apply rsize_set].
  - eexists. split_and!; [done|apply rt_clear_spec|]. unfold rsize. change (size (routes4 no_routes)) with 0%nat. change (size (routes6 no_routes)) with 0%nat. lia.
  - rewrite (rt_contains_spec t M ip) by done. exists t. split_and!; [done..|lia].
  - rewrite (rt_lookup_spec t M ip) by done. exists t. split_and!; [done..|lia].
  - destruct (rt_lookup_all_spec t M ip Ht Hop) as (it & -> & Hit). cbn [mbind outcome_bind].
    rewrite (drain_ok 130 it _ Hit) by (by apply rmatches_length). exists t. split_and!; [done..|lia].
  - rewrite (rt_exact_spec t M p) by done. exists t. split_and!; [done..|lia].
  - rewrite (rt_size_spec t M) by (done || lia). exists t. split_and!; [done..|lia].
Qed.

Lemma exec_all_ok ops t M :
  rt_repr t M -> Forall op_ok ops -> rsize M + Z.of_nat (length ops) < U64 ->
  exists t', exec_all t ops = Done (fst (answers M ops), t') /\ rt_repr t' (snd (answers M ops)).
Proof.
  revert t M. induction ops as [|op ops IH]; intros t M Ht Hops Hsz; [by exists t|].
  apply Forall_cons in Hops as [Hop Hops]. cbn [length] in Hsz.
  destruct (exec_ok t M op Ht Hop) as (t1 & E & Ht1 & Hsz1); [lia|]. cbn [exec_all answers]. rewrite E. cbn [mbind outcome_bind].
  destruct (answer M op) as [o M1]. cbn [fst snd] in *. destruct (IH t1 M1 Ht1 Hops) as (t2 & -> & Ht2); [lia|].
  destruct (answers M1 ops) as [os M2]. by exists t2.
Qed.

(** ** Longest match *)

Lemma head_omap {A B} (f : A -> option B) (l : list A) v :
  head (omap f l) = Some v <-> exists l1 x l2, l = l1 ++ x :: l2 /\ f x = Some v /\ forall y, y ∈ l1 -> f y = None.
Proof.
  split.
  - induction l as [|x l IH]; [done|]. rewrite omap_cons_eq. destruct (f x) as [y|] eqn:E.
    + intros [= ->]. exists [], x, l. split_and!; [done..|set_solver].
    + intros (l1 & z & l2 & -> & Hz & Hl)%IH. exists (x :: l1), z, l2. split_and!; [done..|].
      intros y [->|Hy]%elem_of_cons; [done|auto].
  - intros (l1 & x & l2 & -> & Hx & Hl). rewrite omap_app_eq, omap_none by done. rewrite omap_cons_eq, Hx. done.
Qed.

Lemma matches_head (s : list bool -> option T) b v :
  head (matches s b) = Some v <->
  exists l, (l <= length b)%nat /\ s (take l b) = Some v /\ forall l', (l < l' <= length b)%nat -> s (take l' b) = None.
Proof.
  unfold matches. rewrite head_omap. split.
  - intros (l1 & x & l2 & El & Hx & Hl). exists x.
    assert (Hs : seq 0 (S (length b)) = rev l2 ++ x :: rev l1)
      by (rewrite <- (rev_involutive (seq _ _)), El, rev_app_distr; simpl; by rewrite <- app_assoc).
    assert (Hlen : length (rev l2 ++ x :: rev l1) = S (length b)) by (by rewrite <- Hs, length_seq).
    assert (Hn : forall i, (i < S (length b))%nat -> (rev l2 ++ x :: rev l1) !! i = Some i)
      by (intros i Hi; rewrite <- Hs; by apply lookup_seq_lt).
    rewrite length_app in Hlen. cbn [length] in Hlen.
    assert (Hx2 : x = length (rev l2)).
    { specialize (Hn (length (rev l2)) ltac:(lia)). rewrite list_lookup_middle in Hn by done. by injection Hn. }
    split_and!; [lia|done|]. intros l' Hl'. apply Hl. specialize (Hn l' ltac:(lia)).
    rewrite lookup_app_r, lookup_cons in Hn by lia. destruct (l' - length (rev l2))%nat as [|j] eqn:Ej; [lia|].
    apply list_elem_of_In. rewrite in_rev. apply list_elem_of_In. by eapply list_elem_of_lookup_2.
  - intros (l & Hl & Hv & Hno). exists (rev (seq (S l) (length b - l))), l, (rev (seq 0 l)). split_and!; [|done|].
    + replace (S (length b)) with (l + S (length b - l))%nat by lia. rewrite seq_app, rev_app_distr. simpl.
      by rewrite <- app_assoc.
    + intros y Hy%list_elem_of_In. rewrite <- in_rev in Hy. apply in_seq in Hy. apply Hno. lia.
Qed.

End Ops.
Arguments Op {HI} T.
Arguments Out T : clear implicits.

End RoutingTable.
