(* ===== verification/SimpleTable.v ===== *)
(** * [SimpleTable] (ts_bart/src/table/simple.rs)

    A trie with the number of its routes. *)

From S2P Require Import Prelude IpNet BartNode IpTrie RoutingTable.
Import IpNet BartNode RoutingTable.

Module SimpleTable.
Section SimpleTable.
Context `{HI : Ipnet} {N T : Type} `{HO : !StrideOps N T}.

Record SimpleTable : Type := mkSimple {
  root : N;
  size : Z;
}.

Definition EMPTY : SimpleTable := mkSimple node_default 0.

Implicit Types self : SimpleTable.

Definition contains self (ip : IpAddr) : outcome bool := IpTrie.contains (root self) ip.

Definition insert self (prefix : IpNet) (val : T) : outcome (option T * SimpleTable) :=
  '(ret, r) ← IpTrie.insert (root self) (net_trunc prefix) val;
  size ← match ret with None => add_w 64 (size self) 1 | Some _ => mret (size self) end;
  mret (ret, mkSimple r size).

Definition remove self (prefix : IpNet) : outcome (option T * SimpleTable) :=
  '(ret, r) ← IpTrie.remove (root self) prefix;
  size ← match ret with Some _ => sub_w (size self) 1 | None => mret (size self) end;
  mret (ret, mkSimple r size).

Definition modify_impl self (prefix : IpNet) (modify : option T -> IpTrie.RouteModification (T := T) * option T)
    : outcome (option T * SimpleTable) :=
  '((ret, op), r) ← IpTrie.modify (root self) prefix modify;
  size ← match ret, op with
         | None, Some (IpTrie.Insert _) => add_w 64 (size self) 1
         | Some _, Some IpTrie.Remove => sub_w (size self) 1
         | _, _ => mret (size self)
         end;
  mret (ret, mkSimple r size).

Definition clear self : SimpleTable := mkSimple node_default 0.

Definition lookup self (ip : IpAddr) : outcome (option T) := IpTrie.lookup_address (root self) ip.

Definition lookup_all self (ip : IpAddr) : outcome (IpTrie.LookupIter (N := N) (T := T)) :=
  IpTrie.lookup_address_all (root self) ip.

Definition lookup_prefix_exact self (prefix : IpNet) : outcome (option T) :=
  IpTrie.lookup_prefix_exact (root self) prefix.

Definition lookup_prefix self (prefix : IpNet) : outcome (option T) :=
  o ← IpTrie.lookup_prefix_lpm (root self) prefix; mret (option_map snd o).

Definition lookup_prefix_lpm self (prefix : IpNet) : outcome (option (IpNet * T)) :=
  IpTrie.lookup_prefix_lpm (root self) prefix.

#[global] Instance simple_table : RoutingTable SimpleTable T (IpTrie.LookupIter (N := N) (T := T)) := {|
  rt_contains := contains;
  rt_insert := insert;
  rt_remove := remove;
  rt_clear := clear;
  rt_modify_impl := modify_impl;
  rt_lookup := lookup;
  rt_lookup_all := lookup_all;
  rt_next := IpTrie.iter_next;
  rt_lookup_prefix_exact := lookup_prefix_exact;
  rt_lookup_prefix := lookup_prefix;
  rt_lookup_prefix_lpm := lookup_prefix_lpm;
  rt_size self := mret (size self);
|}.

End SimpleTable.
Arguments SimpleTable : clear implicits.
End SimpleTable.
