(* ===== verification/SplitStackTable.v ===== *)
(** * [SplitStackTable] (ts_bart/src/table/split_stack.rs)

    One [SimpleTable] per address family. *)

From S2P Require Import Prelude IpNet BartNode IpTrie RoutingTable SimpleTable.
Import IpNet BartNode RoutingTable.

Module SplitStackTable.
Section SplitStackTable.
Context `{HI : Ipnet} {N T : Type} `{HO : !StrideOps N T}.

Record SplitStackTable : Type := mkSplit {
  table4 : SimpleTable.SimpleTable N;
  table6 : SimpleTable.SimpleTable N;
}.

Definition EMPTY : SplitStackTable := mkSplit SimpleTable.EMPTY SimpleTable.EMPTY.

Implicit Types self : SplitStackTable.

Definition size4 self : Z := SimpleTable.size (table4 self).
Definition size6 self : Z := SimpleTable.size (table6 self).

Definition stack_table self (ipv4 : bool) : SimpleTable.SimpleTable N := if ipv4 then table4 self else table6 self.

Definition root self (ipv4 : bool) : N := SimpleTable.root (stack_table self ipv4).

(** A write through the reference of [stack_table_mut]. *)
Definition stack_table_mut self (ipv4 : bool) (t : SimpleTable.SimpleTable N) : SplitStackTable :=
  if ipv4 then mkSplit t (table6 self) else mkSplit (table4 self) t.

Definition contains self (ip : IpAddr) : outcome bool := SimpleTable.contains (stack_table self (is_ipv4 ip)) ip.

Definition insert self (prefix : IpNet) (val : T) : outcome (option T * SplitStackTable) :=
  let ipv4 := is_ipv4 (net_addr prefix) in
  '(ret, t) ← SimpleTable.insert (stack_table self ipv4) prefix val;
  mret (ret, stack_table_mut self ipv4 t).

Definition remove self (prefix : IpNet) : outcome (option T * SplitStackTable) :=
  let ipv4 := is_ipv4 (net_addr prefix) in
  '(ret, t) ← SimpleTable.remove (stack_table self ipv4) prefix;
  mret (ret, stack_table_mut self ipv4 t).

Definition modify_impl self (prefix : IpNet) (modify : option T -> IpTrie.RouteModification (T := T) * option T)
    : outcome (option T * SplitStackTable) :=
  let ipv4 := is_ipv4 (net_addr prefix) in
  '(ret, t) ← SimpleTable.modify_impl (stack_table self ipv4) prefix modify;
  mret (ret, stack_table_mut self ipv4 t).

Definition clear self : SplitStackTable := mkSplit (SimpleTable.clear (table4 self)) (SimpleTable.clear (table6 self)).

Definition lookup self (ip : IpAddr) : outcome (option T) := SimpleTable.lookup (stack_table self (is_ipv4 ip)) ip.

Definition lookup_all self (ip : IpAddr) : outcome (IpTrie.LookupIter (N := N) (T := T)) :=
  SimpleTable.lookup_all (stack_table self (is_ipv4 ip)) ip.

Definition lookup_prefix_exact self (prefix : IpNet) : outcome (option T) :=
  SimpleTable.lookup_prefix_exact (stack_table self (is_ipv4 (net_addr prefix))) prefix.

Definition lookup_prefix self (prefix : IpNet) : outcome (option T) :=
  SimpleTable.lookup_prefix (stack_table self (is_ipv4 (net_addr prefix))) prefix.

Definition lookup_prefix_lpm self (prefix : IpNet) : outcome (option (IpNet * T)) :=
  SimpleTable.lookup_prefix_lpm (stack_table self (is_ipv4 (net_addr prefix))) prefix.

Definition size self : outcome Z := add_w 64 (SimpleTable.size (table4 self)) (SimpleTable.size (table6 self)).

#[global] Instance split_table : RoutingTable SplitStackTable T (IpTrie.LookupIter (N := N) (T := T)) := {|
  rt_contains := contains;
  rt_insert := insert;
  rt_remove := remove;
  rt_clear := clear;
  rt_modify_impl := modify_impl;
  rt_lookup := lookup;
  rt_lookup_all := lookup_all;
  rt_next := IpTrie.iter_next;
  rt_lookup_prefix_exact := lookup_prefix_exact;
  rt_lookup_prefix := lookup_prefix;
  rt_lookup_prefix_lpm := lookup_prefix_lpm;
  rt_size := size;
|}.

End SplitStackTable.
Arguments SplitStackTable : clear implicits.
End SplitStackTable.
