(* ===== verification/BartTable.v ===== *)
(** * The tables of ts_bart keep their promise

    [SplitStackTable], over tries of any [StrideOps] node, satisfies the laws of
    [RoutingTable]; its lookups are longest-prefix matches. *)

From S2P Require Import Prelude Bitset BaseIndex IpNet BartNode IpTrie IpTrieSpec IpTrieMod IpTrieLookup RoutingTable SimpleTable SplitStackTable.
Import BaseIndex IpNet BartNode IpTrieSpec IpTrieMod IpTrieLookup RoutingTable.

Module BartTable.

(** ** The simple table *)

Section Simple.
Context `{HI : Ipnet} `{HL : !IpnetLaws} {N T : Type} `{HO : !StrideOps N T} `{HS : !StrideLaws N T}.

(** A table of one address family. *)
Definition simple_repr (fam : bool) (t : SimpleTable.SimpleTable N) (m : gmap (list bool) T) : Prop :=
  trie_ok fam (SimpleTable.root t) /\ (forall k, routes fam (SimpleTable.root t) k = m !! k) /\
  SimpleTable.size t = Z.of_nat (size m).

Lemma repr_set fam r n m k0 o (s : Z) :
  (forall k, routes fam r k = m !! k) ->
  trie_ok fam n -> (forall k, routes fam n k = set_at k0 o (routes fam r) k) ->
  s = Z.of_nat (size (partial_alter (fun _ => o) k0 m)) ->
  simple_repr fam (SimpleTable.mkSimple n s) (partial_alter (fun _ => o) k0 m).
Proof.
  intros Hm Hn Hs Hz. split_and!; [done| |done]. intros k. cbn [SimpleTable.root]. rewrite Hs. unfold set_at.
  case_decide; subst; [by rewrite lookup_partial_alter_eq|by rewrite lookup_partial_alter_ne].
Qed.

Lemma size_le (fam : bool) M : Z.of_nat (size (sel M fam : gmap (list bool) T)) <= rsize M.
Proof. unfold rsize. destruct fam; simpl; lia. Qed.

Lemma simple_insert fam t m p v :
  simple_repr fam t m -> is_ipv4 (net_addr p) = fam -> Z.of_nat (size m) + 1 < U64 ->
  exists t', SimpleTable.insert t p v = Done (m !! key p, t') /\ simple_repr fam t' (partial_alter (fun _ => Some v) (key p) m).
Proof.
  intros (Hok & Hm & Hz) Hf Hlt.
  destruct (insert_trie fam (SimpleTable.root t) (net_trunc p) v Hok) as (n & E & Hn & Hs); [by rewrite net_trunc_family|].
  rewrite key_trunc in *. rewrite Hm in E. unfold SimpleTable.insert. rewrite E. cbn [mbind outcome_bind].
  pose proof (size_put m (key p) v) as Hsz. destruct (m !! key p) as [x|]; cbn [mbind outcome_bind].
  - eexists. split; [done|]. eapply repr_set; [done..|]. congruence.
  - unfold add_w. rewrite Hz. rewrite (proj2 (Z.ltb_lt _ _)) by done. cbn [mbind outcome_bind].
    eexists. split; [done|]. eapply repr_set; [done..|]. congruence.
Qed.

Lemma size_removed fam t m k x :
  simple_repr fam t m -> m !! k = Some x ->
  sub_w (SimpleTable.size t) 1 = Done (Z.of_nat (size (partial_alter (fun _ => None) k m))).
Proof.
  intros (_ & _ & Hz) Hk. destruct (size_drop m k) as [Hsz Hpos]. rewrite Hk in *. specialize (Hpos ltac:(done)).
  unfold sub_w. rewrite Hz, Hsz. by rewrite (proj2 (Z.leb_le _ _)).
Qed.

Lemma simple_remove fam t m p :
  simple_repr fam t m -> is_ipv4 (net_addr p) = fam ->
  exists t', SimpleTable.remove t p = Done (m !! key p, t') /\ simple_repr fam t' (partial_alter (fun _ => None) (key p) m).
Proof.
  intros Hr Hf. pose proof Hr as (Hok & Hm & Hz).
  destruct (remove_trie fam (SimpleTable.root t) p Hok Hf) as (n & E & Hn & Hs).
  rewrite Hm in E. unfold SimpleTable.remove. rewrite E. cbn [mbind outcome_bind].
  destruct (m !! key p) as [x|] eqn:Ex.
  - rewrite (size_removed fam t m (key p) x) by done. cbn [mbind outcome_bind]. eexists. split; [done|]. by eapply repr_set.
  - cbn [mbind outcome_bind]. eexists. split; [done|]. eapply repr_set; [done..|].
    destruct (size_drop m (key p)) as [Hsz _]. rewrite Ex in Hsz. congruence.
Qed.

Lemma simple_modify fam t m p f :
  simple_repr fam t m -> is_ipv4 (net_addr p) = fam -> Z.of_nat (size m) + 1 < U64 ->
  let r := apply_mod f (m !! key p) in
  exists t', SimpleTable.modify_impl t p f = Done (fst (fst r), t') /\
    simple_repr fam t' (partial_alter (fun _ => snd r) (key p) m).
Proof.
  intros Hr Hf Hlt. pose proof Hr as (Hok & Hm & Hz).
  destruct (modify_trie fam (SimpleTable.root t) p f Hok Hf) as (n & E & Hn & Hs).
  rewrite Hm in E, Hs. cbv zeta. unfold SimpleTable.modify_impl. rewrite E. cbn [mbind outcome_bind].
  pose proof (fun v => size_put m (key p) v) as Hput. pose proof (size_drop m (key p)) as [Hdrop _].
  assert (Hdone : forall s o, snd (apply_mod f (m !! key p)) = o -> s = Z.of_nat (size (partial_alter (fun _ => o) (key p) m)) ->
    simple_repr fam (SimpleTable.mkSimple n s) (partial_alter (fun _ => o) (key p) m)).
  { intros s o Ho Hso. eapply repr_set; [done..|by rewrite <- Ho|done]. }
  pose proof (size_removed fam t m (key p)) as Hrem.
  unfold apply_mod in *. destruct (f (m !! key p)) as [d w]. destruct (m !! key p) as [x|] eqn:Ex.
  - set (x' := match w with Some w => Some w | None => Some x end) in *.
    assert (exists y, x' = Some y) as [y Hy] by (unfold x'; destruct w; eauto). rewrite Hy in *.
    destruct d as [v| |]; cbn [fst snd mbind outcome_bind] in *.
    + eexists. split; [done|]. apply Hdone; [done|]. by rewrite Hput.
    + rewrite (Hrem x) by done. cbn [mbind outcome_bind]. eexists. split; [done|]. by apply Hdone.
    + eexists. split; [done|]. apply Hdone; [done|]. by rewrite Hput.
  - destruct d as [v| |]; cbn [fst snd mbind outcome_bind] in *.
    + unfold add_w. rewrite Hz, (proj2 (Z.ltb_lt _ _)) by done. cbn [mbind outcome_bind].
      eexists. split; [done|]. apply Hdone; [done|]. by rewrite Hput.
    + eexists. split; [done|]. apply Hdone; [done|]. by rewrite Hdrop.
    + eexists. split; [done|]. apply Hdone; [done|]. by rewrite Hdrop.
Qed.

(** ** The split table *)

Definition split_repr (t : SplitStackTable.SplitStackTable N) (M : Routes T) : Prop :=
  forall fam, simple_repr fam (SplitStackTable.stack_table t fam) (sel M fam).

Lemma split_set t M p o t4 :
  split_repr t M ->
  simple_repr (is_ipv4 (net_addr p)) t4 (partial_alter (fun _ => o) (key p) (sel M (is_ipv4 (net_addr p)))) ->
  split_repr (SplitStackTable.stack_table_mut t (is_ipv4 (net_addr p)) t4) (rset M p o).
Proof.
  intros Ht H fam. specialize (Ht fam). unfold SplitStackTable.stack_table_mut, SplitStackTable.stack_table, rset, sel in *.
  by destruct (is_ipv4 (net_addr p)), fam.
Qed.

Lemma simple_empty fam : simple_repr fam SimpleTable.EMPTY ∅.
Proof. destruct (empty_trie (N := N) (T := T) fam) as [Hok Hr]. split_and!; [done| |done]. intros k. rewrite lookup_empty. apply Hr. Qed.

Lemma split_empty : split_repr SplitStackTable.EMPTY no_routes.
Proof. intros []; apply simple_empty. Qed.

#[export] Program Instance split_laws : RoutingTableLaws (SplitStackTable.SplitStackTable N) T (IpTrie.LookupIter (N := N) (T := T)) := {|
  rt_repr := split_repr;
  rt_iter := iter_pending;
|}.
Next Obligation.
  intros t M p v Ht Hlt. pose proof (size_le (is_ipv4 (net_addr p)) M).
  destruct (simple_insert _ _ _ p v (Ht (is_ipv4 (net_addr p)))) as (t' & E & Ht'); [done|lia|].
  eexists. cbn [rt_insert SplitStackTable.split_table]. unfold SplitStackTable.insert. cbv zeta. rewrite E. split; [done|]. by apply split_set.
Qed.
Next Obligation.
  intros t M p Ht. destruct (simple_remove _ _ _ p (Ht (is_ipv4 (net_addr p)))) as (t' & E & Ht'); [done|].
  eexists. cbn [rt_remove SplitStackTable.split_table]. unfold SplitStackTable.remove. cbv zeta. rewrite E. split; [done|]. by apply split_set.
Qed.
Next Obligation.
  intros t M p f Ht Hlt. pose proof (size_le (is_ipv4 (net_addr p)) M).
  destruct (simple_modify _ _ _ p f (Ht (is_ipv4 (net_addr p)))) as (t' & E & Ht'); [done|lia|].
  eexists. cbn [rt_modify_impl SplitStackTable.split_table]. unfold SplitStackTable.modify_impl. cbv zeta. rewrite E. split; [done|]. by apply split_set.
Qed.
Next Obligation. intros t. apply split_empty. Qed.
Next Obligation.
  intros t M ip Ht Ha. destruct (Ht (is_ipv4 ip)) as (Hok & Hm & _). cbn [rt_contains SplitStackTable.split_table].
  unfold SplitStackTable.contains, SimpleTable.contains. rewrite (contains_trie (is_ipv4 ip)) by done.
  by rewrite (matches_ext _ _ _ Hm).
Qed.
Next Obligation.
  intros t M ip Ht Ha. destruct (Ht (is_ipv4 ip)) as (Hok & Hm & _). cbn [rt_lookup SplitStackTable.split_table].
  unfold SplitStackTable.lookup, SimpleTable.lookup. rewrite (lookup_trie (is_ipv4 ip)) by done.
  by rewrite (matches_ext _ _ _ Hm).
Qed.
Next Obligation.
  intros t M ip Ht Ha. destruct (Ht (is_ipv4 ip)) as (Hok & Hm & _).
  destruct (lookup_all_trie (is_ipv4 ip) (SplitStackTable.root t (is_ipv4 ip)) ip) as (it & E & Hi); [done..|].
  exists it. rewrite (matches_ext _ _ _ Hm) in Hi. done.
Qed.
Next Obligation. intros it vs. apply iter_next_ok. Qed.
Next Obligation.
  intros t M p Ht Htr. destruct (Ht (is_ipv4 (net_addr p))) as (Hok & Hm & _). cbn [rt_lookup_prefix_exact SplitStackTable.split_table].
  unfold SplitStackTable.lookup_prefix_exact, SimpleTable.lookup_prefix_exact.
  rewrite (exact_trie (is_ipv4 (net_addr p))) by done. by rewrite Hm.
Qed.
Next Obligation.
  intros t M Ht Hlt. destruct (Ht true) as (_ & _ & H4), (Ht false) as (_ & _ & H6). cbn in H4, H6.
  cbn [rt_size SplitStackTable.split_table]. unfold SplitStackTable.size, add_w. rewrite H4, H6.
  by rewrite (proj2 (Z.ltb_lt _ _)).
Qed.

End Simple.

(** ** Properties *)

Section Properties.
Context `{HI : Ipnet} `{HL : !IpnetLaws} {T : Type}.

Abbreviation Table := (SplitStackTable.SplitStackTable (Node T)).


(** The head of the matches is the value of the longest prefix that contains the address. *)
Lemma head_longest (M : Routes T) (ip : IpAddr) :
  addr_ok ip ->
  match head (rmatches M ip) with
  | Some v => exists p, net_contains p ip = true /\ rget M p = Some v /\
      forall q, net_contains q ip = true -> (net_prefix_len p < net_prefix_len q)%nat -> rget M q = None
  | None => forall q, net_contains q ip = true -> rget M q = None
  end.
Proof.
  intros Ha.
  assert (Hlen : length (addr_bits ip) = (8 * n_octets (is_ipv4 ip))%nat)
    by (unfold addr_bits; rewrite octs_bits_length; by apply addr_ok_spec in Ha as [-> _]).
  assert (Hq : forall q, net_contains q ip = true ->
    rget M q = sel M (is_ipv4 ip) !! take (net_prefix_len q) (addr_bits ip) /\ (net_prefix_len q <= length (addr_bits ip))%nat).
  { intros q [Hf Hk]%net_contains_spec; [|done]. unfold rget. rewrite Hf, Hk, Hlen, <- Hf. split; [done|apply net_len_ok]. }
  destruct (head (rmatches M ip)) as [v|] eqn:Eh.
  - apply matches_head in Eh as (l & Hl & Hv & Hno). rewrite Hlen in Hl.
    destruct (net_new_spec ip l Ha Hl) as (p & _ & Hpa & Hpl). exists p.
    assert (Hc : net_contains p ip = true).
    { apply net_contains_spec; [done|]. unfold key. by rewrite Hpa. }
    split_and!; [done|rewrite (proj1 (Hq p Hc)); by rewrite Hpl|].
    intros q Hqc Hlt. destruct (Hq q Hqc) as [-> Hql]. apply Hno. lia.
  - intros q Hqc. destruct (Hq q Hqc) as [-> Hql]. destruct (sel M (is_ipv4 ip) !! _) as [v|] eqn:Ev; [|done]. exfalso.
    apply head_None in Eh. unfold rmatches, matches in Eh.
    assert (Hin : net_prefix_len q ∈ rev (seq 0 (S (length (addr_bits ip)))))
      by (apply list_elem_of_In; rewrite <- in_rev; apply in_seq; lia).
    apply list_elem_of_split in Hin as (l1 & l2 & El). rewrite El, omap_app_eq, omap_cons_eq, Ev in Eh.
    by destruct (omap _ l1).
Qed.

(** C14: [lookup] is the longest-prefix match: it returns the value of a prefix of the table
    that contains the address, when no longer prefix of the table contains it, and nothing
    exactly when no prefix of the table contains the address. *)
Theorem lookup_longest_match (t : Table) (M : Routes T) (ip : IpAddr) :
  rt_repr t M -> addr_ok ip ->
  exists r, SplitStackTable.lookup t ip = Done r /\
    match r with
    | Some v => exists p, net_contains p ip = true /\ rget M p = Some v /\
        forall q, net_contains q ip = true -> (net_prefix_len p < net_prefix_len q)%nat -> rget M q = None
    | None => forall q, net_contains q ip = true -> rget M q = None
    end.
Proof.
  intros Ht Ha. pose proof (rt_lookup_spec t M ip Ht Ha) as E. exists (head (rmatches M ip)). split; [exact E|by apply head_longest].
Qed.

(** *** Lookups of prefixes *)

Lemma trunc_trunc p : net_trunc (net_trunc p) = net_trunc p.
Proof.
  apply key_inj; [apply trunc_truncated..|by rewrite !net_trunc_family|by rewrite !key_trunc].
Qed.

Lemma first_octet p : exists o, head (ip_octets (net_addr p)) = Some o /\ ip_octets (net_addr p) !! 0%nat = Some o /\ (o < 256)%nat.
Proof.
  pose proof (net_octets p) as Hl. pose proof (n_octets_le (is_ipv4 (net_addr p))).
  destruct (lookup_lt_is_Some_2 (ip_octets (net_addr p)) 0) as [o Ho]; [lia|]. exists o.
  split_and!; [by rewrite head_lookup|done|by eapply net_octet_lt].
Qed.

(** The first route of a table, if it is longer than an octet, is a leaf below the root. *)
Lemma lone_leaf p v :
  (8 < net_prefix_len p)%nat ->
  exists (n : Node T) o, IpTrie.insert node_default p v = Done (None, n) /\ node_wf n /\
    head (ip_octets (net_addr (net_trunc p))) = Some o /\ (o < 256)%nat /\ cmap n !! o = Some (Leaf (net_trunc p) v).
Proof.
  intros Hl. set (p' := net_trunc p). destruct (first_octet p') as (o & Hh & Ho & Hlt).
  pose proof (default_wf (N := Node T) (T := T)) as Hw. pose proof (default_cmap (N := Node T) (T := T)) as Hc.
  assert (Hlen : (8 < net_prefix_len p')%nat) by (unfold p'; by rewrite net_trunc_len).
  destruct (insert_child_spec node_default o (Leaf p' v) Hw Hlt) as (n & E & Hw' & _ & Hc').
  exists n, o. split_and!; [|done..|by rewrite Hc', lookup_insert_eq].
  unfold IpTrie.insert, IpTrie.insert_inner. generalize IpTrie.MAX_DEPTH. intros fuel. cbn [IpTrie.insert_loop].
  unfold IpTrie.stride_count_and_overflow. fold p'. rewrite Ho.
  rewrite decide_False by (pose proof (Nat.Div0.div_le_mono 8 (net_prefix_len p') 8 ltac:(lia)); simpl in *; lia).
  rewrite (test_child node_default o Hw Hlt), Hc. cbn [mbind outcome_bind]. rewrite lookup_empty. rewrite bool_decide_eq_false_2 by (by intros []).
  cbn [negb]. pose proof (is_fringe_spec (is_ipv4 (net_addr p')) [] p') as Hf. cbn [length] in Hf. rewrite rest_length in Hf.
  rewrite Hf; [|split_and!; [apply trunc_truncated|done|done|simpl; lia]|lia].
  cbn [mbind outcome_bind]. rewrite bool_decide_eq_false_2 by lia. rewrite E, Hc, lookup_empty. done.
Qed.

(** C39: [lookup_prefix_lpm] answers with routes that do not cover the prefix it is given.  In
    a table whose only route is longer than eight bits, it returns that route for every
    prefix with the same first octet. *)
Theorem prefix_lookup_strays (p q : IpNet) (v : T) :
  is_ipv4 (net_addr p) = is_ipv4 (net_addr q) -> (8 < net_prefix_len p)%nat ->
  head (ip_octets (net_addr (net_trunc p))) = head (ip_octets (net_addr (net_trunc q))) ->
  exists t : Table, SplitStackTable.insert SplitStackTable.EMPTY p v = Done (None, t) /\
    SplitStackTable.lookup_prefix_lpm t q = Done (Some (net_trunc p, v)).
Proof.
  intros Hf Hl Hh. destruct (lone_leaf (net_trunc p) v) as (n & o & E & Hw & Ho & Hlt & Hc); [by rewrite net_trunc_len|].
  rewrite trunc_trunc in *.
  exists (SplitStackTable.stack_table_mut SplitStackTable.EMPTY (is_ipv4 (net_addr p)) (SimpleTable.mkSimple n 1)). split.
  - unfold SplitStackTable.insert, SimpleTable.insert. cbv zeta.
    replace (SimpleTable.root (SplitStackTable.stack_table SplitStackTable.EMPTY (is_ipv4 (net_addr p)))) with (node_default : Node T)
      by (by destruct (is_ipv4 (net_addr p))).
    rewrite E. cbn [mbind outcome_bind]. by destruct (is_ipv4 (net_addr p)).
  - unfold SplitStackTable.lookup_prefix_lpm, SimpleTable.lookup_prefix_lpm. rewrite <- Hf.
    replace (SimpleTable.root (SplitStackTable.stack_table _ _)) with n by (by destruct (is_ipv4 (net_addr p))).
    unfold IpTrie.lookup_prefix_lpm. cbv zeta. rewrite Hh in Ho.
    destruct (ip_octets (net_addr (net_trunc q))) as [|o' os]; [done|]. injection Ho as ->.
    cbn [IpTrie.lpm_descend]. unfold IpTrie.stride_count_and_overflow. cbv zeta. rewrite decide_False by lia.
    cbn [IpTrie.push length mbind outcome_bind]. rewrite get_child_spec, Hc by done.
    unfold IpTrie.push. rewrite decide_True by (unfold IpTrie.MAX_DEPTH; simpl; lia). cbn [mbind outcome_bind].
    rewrite Nat.ltb_irrefl. cbn [orb]. rewrite (proj2 (net_contains_spec _ _ (net_addr_ok _))); [done|]. done.
Qed.

End Properties.

#[local] Existing Instance RefNet.ref_net.
#[local] Existing Instance RefNet.ref_laws.

(** 10.0.0.0/8, 10.1.0.0/16 and 10.2.0.0/16 *)
Definition net8 : IpNet := exist _ (V4 [10; 0; 0; 0]%nat, 8%nat) I.
Definition net16 : IpNet := exist _ (V4 [10; 1; 0; 0]%nat, 16%nat) I.
Definition other16 : IpNet := exist _ (V4 [10; 2; 0; 0]%nat, 16%nat) I.

Definition some_ops : list (Op nat) :=
  [OpInsert net8 1%nat; OpInsert net16 2%nat; OpLookupAll (V4 [10; 1; 7; 7]%nat); OpRemove net16;
   OpLookup (V4 [10; 1; 7; 7]%nat); OpSize].


Lemma lookup_longest_match_witness :
  exists (t : SplitStackTable.SplitStackTable (Node nat)) v,
    SplitStackTable.insert SplitStackTable.EMPTY net8 1%nat = Done (None, t) /\
    SplitStackTable.lookup t (V4 [10; 1; 7; 7]%nat) = Done (Some v).
Proof.
  destruct (rt_insert_spec (T := nat) (SplitStackTable.EMPTY (N := Node nat)) no_routes net8 1%nat) as (t & E & Ht);
    [apply split_empty|done|].
  destruct (lookup_longest_match t _ (V4 [10; 1; 7; 7]%nat) Ht) as ([v|] & El & H); [reflexivity| |].
  { exists t, v. split; [|exact El]. replace (@None nat) with (rget (T := nat) no_routes net8) by reflexivity. exact E. }
  specialize (H net8 eq_refl). vm_compute in H. discriminate H.
Defined.

(** 10.1.0.0/16 is returned for 10.2.0.0/16. *)
Lemma prefix_lookup_strays_witness :
  net_contains net16 (net_addr other16) = false /\
  exists t : SplitStackTable.SplitStackTable (Node nat), SplitStackTable.insert SplitStackTable.EMPTY net16 1%nat = Done (None, t) /\
    SplitStackTable.lookup_prefix_lpm t other16 = Done (Some (net_trunc net16, 1%nat)).
Proof. split; [reflexivity|]. apply (prefix_lookup_strays net16 other16 1%nat); [reflexivity|simpl; lia|reflexivity]. Defined.

End BartTable.
