(* ===== verification/DynBitset.v ===== *)
(** * Growable bit sets (ts_dynbitset/src/lib.rs)

    A vector of bit sets of [WORDS] words each, grown and truncated as bits are set and
    cleared: the sets of rule and match ids of the packet filter. *)

From Stdlib Require Import ZifyNat Sorting.Sorted.
From S2P Require Import Prelude Bitset.
Import Bitset.

Module DynBitset.


Abbreviation DynBitset := (list Bitset).

Section Ops.
Context (WORDS : nat).
Implicit Types self other : DynBitset.

Definition BITSET_WIDTH : nat := (WORDS * 64)%nat.

Definition empty : DynBitset := [].

Definition clear_all self : DynBitset := [].

Definition bitset_and_idx (bit : nat) : nat * nat := ((bit / BITSET_WIDTH)%nat, (bit mod BITSET_WIDTH)%nat).

(** [while self.inner.last().is_some_and(|x| x.is_empty()) { self.inner.pop(); }], from the
    last bit set. *)
Fixpoint pop_empty (rev_inner : DynBitset) : DynBitset :=
  match rev_inner with
  | x :: rest => if Bitset.is_empty x then pop_empty rest else rev_inner
  | [] => []
  end.

Definition truncate_empty self : DynBitset := rev (pop_empty (rev self)).

Definition ensure_capacity self (bit : nat) : DynBitset :=
  let '(bitset, _) := bitset_and_idx bit in
  self ++ replicate (S bitset - length self) (Bitset.EMPTY WORDS).

Definition zero_from self (bit_inclusive : nat) : outcome DynBitset :=
  let '(word, idx) := bitset_and_idx bit_inclusive in
  let self := take (S word) self in
  match self !! word with
  | None => mret self
  | Some w =>
      mask ← Bitset.with_bits_upto WORDS idx;
      mret (truncate_empty (<[word := Bitset.intersect_inplace w mask]> self))
  end.

Definition set self (bit : nat) : outcome DynBitset :=
  let self := ensure_capacity self bit in
  let '(bitset, idx) := bitset_and_idx bit in
  b ← index self bitset;
  b ← Bitset.set b idx;
  store self bitset b.

Definition clear self (bit : nat) : outcome DynBitset :=
  let '(bitset_idx, idx) := bitset_and_idx bit in
  match self !! bitset_idx with
  | None => mret self
  | Some bitset => bitset ← Bitset.clear bitset idx; mret (truncate_empty (<[bitset_idx := bitset]> self))
  end.

Definition test self (bit : nat) : outcome bool :=
  let '(bitset, idx) := bitset_and_idx bit in
  match self !! bitset with None => mret false | Some bitset => Bitset.test bitset idx end.

(** The loop of [first_set]: the offset of a bit set is its index times 64. *)
Fixpoint first_set_from (inner : DynBitset) (bs_idx : nat) : option nat :=
  match inner with
  | [] => None
  | bitset :: inner =>
      match Bitset.first_set bitset with
      | Some s => Some (bs_idx * 64 + s)%nat
      | None => first_set_from inner (S bs_idx)
      end
  end.

Definition first_set self : option nat := first_set_from self 0.

(** The loop of [next_set] from the bit set [i]. *)
Fixpoint next_set_from (inner : DynBitset) (i query : nat) : outcome (option nat) :=
  match inner with
  | [] => mret None
  | bitset :: inner =>
      o ← Bitset.next_set bitset query;
      match o with
      | Some x => mret (Some (x + i * BITSET_WIDTH)%nat)
      | None => next_set_from inner (S i) 0
      end
  end.

Definition next_set self (bit : nat) : outcome (option nat) :=
  let '(starting_bitset_idx, idx) := bitset_and_idx bit in
  next_set_from (drop starting_bitset_idx self) starting_bitset_idx idx.

(** The reversed enumeration of [last_set]. *)
Fixpoint last_of (pairs : list (nat * Bitset)) : outcome (option nat) :=
  match pairs with
  | [] => mret None
  | (i, x) :: pairs =>
      o ← Bitset.last_set x;
      match o with Some x => mret (Some (x + i * BITSET_WIDTH)%nat) | None => last_of pairs end
  end.

Definition last_set self : outcome (option nat) := last_of (rev (imap pair self)).

Definition is_empty self : bool := forallb Bitset.is_empty self.
Definition count_ones self : nat := sum_list (map Bitset.count_ones self).
Definition invert_inplace self : DynBitset := truncate_empty (map Bitset.invert_inplace self).

Definition with_bit self (bit : nat) : outcome DynBitset := set self bit.

Fixpoint with_bits self (bits : list nat) : outcome DynBitset :=
  match bits with
  | [] => mret self
  | bit :: bits => self ← set self bit; with_bits self bits
  end.

Definition without_bit self (bit : nat) : outcome DynBitset := self ← clear self bit; mret (truncate_empty self).

Definition intersects self other : bool := existsb (fun xy => Bitset.intersects (fst xy) (snd xy)) (zip self other).

Definition union_inplace self other : DynBitset :=
  zip_with Bitset.union_inplace self other ++ drop (length other) self ++ drop (length self) other.

Definition intersect_inplace self other : DynBitset :=
  truncate_empty (zip_with Bitset.intersect_inplace (take (length other) self) other).

Definition bits self : list nat :=
  concat (imap (fun idx bitset => map (fun x => (x + idx * BITSET_WIDTH)%nat) (Bitset.bits bitset)) self).

Definition from_iter (l : list nat) : outcome DynBitset := out ← with_bits empty l; mret (truncate_empty out).

End Ops.

(** ** What a set holds *)

Section Spec.
Context (WORDS : nat) (Hpos : (0 < WORDS)%nat).
Implicit Types self other : DynBitset.

Definition wf self : Prop := Forall (fun b => Bitset.wf b /\ length b = WORDS) self.

Definition mem self (i : nat) : bool := Bitset.mem (concat self) i.

Lemma wf_concat self : wf self -> Bitset.wf (concat self) /\ length (concat self) = (length self * WORDS)%nat.
Proof.
  induction 1 as [|b self [Hb Hl] _ [IH1 IH2]]; [split; [constructor|done]|]. cbn [concat]. split.
  - by apply Forall_app.
  - rewrite length_app, Hl, IH2. cbn [length]. lia.
Qed.

Lemma mem_app a b i : Bitset.mem (a ++ b) i = if decide (i < length a * 64)%nat then Bitset.mem a i else Bitset.mem b (i - length a * 64).
Proof.
  unfold Bitset.mem. case_decide.
  - rewrite lookup_app_l by ndlia. done.
  - rewrite lookup_app_r by ndlia. replace ((i - length a * 64) / 64)%nat with (i / 64 - length a)%nat by ndlia.
    replace ((i - length a * 64) mod 64)%nat with (i mod 64)%nat by ndlia. done.
Qed.

(** Bit [i] is bit [i mod BITSET_WIDTH] of the bit set [i / BITSET_WIDTH]. *)
Lemma mem_lookup self i :
  wf self ->
  mem self i = match self !! (i / BITSET_WIDTH WORDS)%nat with
               | Some b => Bitset.mem b (i mod BITSET_WIDTH WORDS)
               | None => false
               end.
Proof.
  intros Hwf. unfold mem, BITSET_WIDTH. revert i. induction Hwf as [|b self [Hb Hl] _ IH]; intros i; [done|]. cbn [concat]. rewrite mem_app, Hl.
  case_decide as Hi.
  - rewrite Nat.div_small, Nat.mod_small by lia. done.
  - rewrite IH. replace (i / (WORDS * 64))%nat with (S ((i - WORDS * 64) / (WORDS * 64))).
    2: { replace i with ((i - WORDS * 64) + 1 * (WORDS * 64))%nat at 2 by lia. rewrite Nat.div_add by lia. lia. }
    cbn [lookup list_lookup]. replace (i mod (WORDS * 64))%nat with ((i - WORDS * 64) mod (WORDS * 64))%nat; [done|].
    replace i with ((i - WORDS * 64) + 1 * (WORDS * 64))%nat at 2 by lia. by rewrite Nat.Div0.mod_add.
Qed.

(** ** Truncation *)

Lemma pop_empty_split rl : exists zs, rl = zs ++ pop_empty rl /\ Forall (fun b => Bitset.is_empty b = true) zs.
Proof.
  induction rl as [|x rl (zs & E & Hz)]; [by exists []|]. cbn [pop_empty]. destruct (Bitset.is_empty x) eqn:Ex.
  - exists (x :: zs). cbn. rewrite <- E. split; [done|by constructor].
  - by exists [].
Qed.

Lemma truncate_split self : exists zs, self = truncate_empty self ++ zs /\ Forall (fun b => Bitset.is_empty b = true) zs.
Proof.
  destruct (pop_empty_split (rev self)) as (zs & E & Hz). exists (rev zs). unfold truncate_empty. rewrite <- rev_app_distr, <- E, rev_involutive.
  split; [done|]. by apply List.Forall_rev.
Qed.

Lemma empty_mem b i : Bitset.wf b -> Bitset.is_empty b = true -> Bitset.mem b i = false.
Proof.
  intros Hwf He. rewrite is_empty_spec in He by done. apply bool_decide_eq_true in He. destruct (Bitset.mem b i) eqn:E; [|done].
  apply members_spec in E. rewrite He in E. set_solver.
Qed.

Lemma truncate_spec self : wf self -> wf (truncate_empty self) /\ forall i, mem (truncate_empty self) i = mem self i.
Proof.
  intros Hwf. destruct (truncate_split self) as (zs & E & Hz). set (t := truncate_empty self) in *. clearbody t. subst self.
  pose proof Hwf as [Ht Hzs]%Forall_app. split; [done|]. intros i. rewrite !mem_lookup by done.
  destruct (t !! _) as [b|] eqn:Eb; [by rewrite (lookup_app_l_Some _ _ _ _ Eb)|]. rewrite lookup_app_r by (by apply lookup_ge_None).
  destruct (zs !! _) as [b|] eqn:Ez; [|done]. symmetry.
  rewrite Forall_lookup in Hzs. rewrite Forall_lookup in Hz. apply empty_mem; [by eapply Hzs|by eapply Hz].
Qed.

(** ** Updates *)

Lemma wf_ensure self bit : wf self -> wf (ensure_capacity WORDS self bit).
Proof.
  intros Hwf. apply Forall_app. split; [done|]. apply Forall_replicate. split; [apply wf_EMPTY|apply length_replicate].
Qed.

Lemma mem_ensure self bit i : wf self -> mem (ensure_capacity WORDS self bit) i = mem self i.
Proof.
  intros Hwf. rewrite (mem_lookup _ _ (wf_ensure self bit Hwf)), mem_lookup by done. unfold ensure_capacity. cbn [bitset_and_idx].
  destruct (self !! _) as [b|] eqn:Eb; [by rewrite (lookup_app_l_Some _ _ _ _ Eb)|]. rewrite lookup_app_r by (by apply lookup_ge_None).
  destruct (replicate _ _ !! _) as [b|] eqn:Er; [|done]. apply lookup_replicate in Er as [-> _]. apply mem_EMPTY.
Qed.

Lemma bit_idx_lt bit : (bit mod BITSET_WIDTH WORDS < N_BITS WORDS)%nat.
Proof. unfold BITSET_WIDTH, N_BITS. apply Nat.mod_upper_bound. lia. Qed.

Lemma same_bit i bit : (i = bit)%nat <-> (i / BITSET_WIDTH WORDS = bit / BITSET_WIDTH WORDS /\ i mod BITSET_WIDTH WORDS = bit mod BITSET_WIDTH WORDS)%nat.
Proof.
  split; [by intros ->|]. intros [Hd Hm]. pose proof (Nat.div_mod_eq i (BITSET_WIDTH WORDS)). pose proof (Nat.div_mod_eq bit (BITSET_WIDTH WORDS)). congruence.
Qed.

(** Replacing the bit set of [bit] by one that differs in its bit. *)
Lemma mem_replace self bit b b' (f : bool -> bool) :
  wf self -> self !! (bit / BITSET_WIDTH WORDS)%nat = Some b -> Bitset.wf b' -> length b' = WORDS ->
  (forall i, Bitset.mem b' i = if decide (i = bit mod BITSET_WIDTH WORDS)%nat then f (Bitset.mem b i) else Bitset.mem b i) ->
  wf (<[(bit / BITSET_WIDTH WORDS)%nat := b']> self) /\
  forall i, mem (<[(bit / BITSET_WIDTH WORDS)%nat := b']> self) i = if decide (i = bit)%nat then f (mem self i) else mem self i.
Proof.
  intros Hwf Hb Hwf' Hl' Hm. assert (Hw : wf (<[(bit / BITSET_WIDTH WORDS)%nat := b']> self)) by (by apply Forall_insert).
  split; [done|]. intros i. rewrite !mem_lookup by done. destruct (decide (i / BITSET_WIDTH WORDS = bit / BITSET_WIDTH WORDS)%nat) as [E|Hne].
  - rewrite E, list_lookup_insert_eq, Hb by (by eapply lookup_lt_Some). rewrite Hm.
    destruct (decide (i mod BITSET_WIDTH WORDS = bit mod BITSET_WIDTH WORDS)%nat).
    + by rewrite decide_True by (by apply same_bit).
    + by rewrite decide_False by (rewrite same_bit; naive_solver).
  - rewrite list_lookup_insert_ne by done. by rewrite decide_False by (rewrite same_bit; naive_solver).
Qed.

Lemma wf_at self k b : wf self -> self !! k = Some b -> Bitset.wf b /\ length b = WORDS.
Proof. intros Hwf Hb. by apply (Forall_lookup_1 _ _ _ _ Hwf Hb). Qed.

Lemma dset_spec self bit :
  wf self -> exists self', set WORDS self bit = Done self' /\ wf self' /\ forall i, mem self' i = bool_decide (i = bit) || mem self i.
Proof.
  intros Hwf. pose proof (wf_ensure self bit Hwf) as Hwe. unfold set. cbn [bitset_and_idx].
  assert (is_Some (ensure_capacity WORDS self bit !! (bit / BITSET_WIDTH WORDS)%nat)) as [b Hb].
  { apply lookup_lt_is_Some. unfold ensure_capacity. cbn [bitset_and_idx]. rewrite length_app, length_replicate. lia. }
  unfold index. rewrite Hb. cbn [unwrap mbind outcome_bind]. destruct (wf_at _ _ _ Hwe Hb) as [Hbw Hbl].
  destruct (set_spec b (bit mod BITSET_WIDTH WORDS) Hbw) as (b' & -> & Hw' & Hl' & Hm'); [rewrite Hbl; apply bit_idx_lt|]. cbn [mbind outcome_bind].
  rewrite store_in by (by eapply lookup_lt_Some). eexists. split; [reflexivity|].
  destruct (mem_replace (ensure_capacity WORDS self bit) bit b b' (fun _ => true) Hwe Hb Hw') as [H1 H2]; [congruence| |].
  - intros i. rewrite Hm'. case_decide; [by rewrite bool_decide_eq_true_2|by rewrite bool_decide_eq_false_2].
  - split; [done|]. intros i. rewrite H2, mem_ensure by done. case_decide; [by rewrite bool_decide_eq_true_2|by rewrite bool_decide_eq_false_2].
Qed.

Lemma dclear_spec self bit :
  wf self -> exists self', clear WORDS self bit = Done self' /\ wf self' /\ forall i, mem self' i = negb (bool_decide (i = bit)) && mem self i.
Proof.
  intros Hwf. unfold clear. cbn [bitset_and_idx]. destruct (self !! _) as [b|] eqn:Hb.
  2: { exists self. split_and!; [done..|]. intros i. rewrite mem_lookup by done. destruct (decide (i = bit)) as [->|]; [by rewrite Hb, andb_false_r|].
       by rewrite bool_decide_eq_false_2. }
  destruct (wf_at _ _ _ Hwf Hb) as [Hbw Hbl].
  destruct (clear_spec b (bit mod BITSET_WIDTH WORDS) Hbw) as (b' & -> & Hw' & Hl' & Hm'); [rewrite Hbl; apply bit_idx_lt|]. cbn [mbind outcome_bind].
  eexists. split; [reflexivity|].
  destruct (mem_replace self bit b b' (fun _ => false) Hwf Hb Hw') as [H1 H2]; [congruence| |].
  - intros i. rewrite Hm'. case_decide; [by rewrite bool_decide_eq_true_2|by rewrite bool_decide_eq_false_2].
  - destruct (truncate_spec _ H1) as [H3 H4]. split; [done|]. intros i. rewrite H4, H2.
    case_decide; [by rewrite bool_decide_eq_true_2|by rewrite bool_decide_eq_false_2].
Qed.

Lemma dtest_spec self bit : wf self -> test WORDS self bit = Done (mem self bit).
Proof.
  intros Hwf. unfold test. cbn [bitset_and_idx]. rewrite mem_lookup by done. destruct (self !! _) as [b|] eqn:Hb; [|done].
  destruct (wf_at _ _ _ Hwf Hb) as [Hbw Hbl]. apply test_spec; [done|]. rewrite Hbl. apply bit_idx_lt.
Qed.

(** ** Whole sets *)

Lemma wf_zip_with f self other :
  (forall a b, Bitset.wf a -> Bitset.wf b -> Bitset.wf (f a b)) -> (forall a b, length a = length b -> length (f a b) = length b) ->
  wf self -> wf other -> wf (zip_with f self other).
Proof.
  intros Hw Hl Hs Ho. apply Forall_lookup. intros k x. rewrite lookup_zip_with_Some. intros (a & b & -> & Ha & Hb).
  destruct (wf_at _ _ _ Hs Ha), (wf_at _ _ _ Ho Hb). split; [by apply Hw|]. rewrite Hl; congruence.
Qed.

Lemma wf_union self other : wf self -> wf other -> wf (union_inplace self other).
Proof.
  intros Hs Ho. unfold union_inplace. apply Forall_app. split; [|apply Forall_app; split; by apply Forall_drop].
  apply wf_zip_with; [|intros a b E; unfold Bitset.union_inplace; rewrite length_zip_with; lia|done..].
  intros a b Ha Hb. apply wf_zip; [apply lor_ok|done..].
Qed.

Lemma dunion_spec self other i : wf self -> wf other -> mem (union_inplace self other) i = mem self i || mem other i.
Proof.
  intros Hs Ho. rewrite (mem_lookup _ _ (wf_union self other Hs Ho)), !mem_lookup by done. unfold union_inplace.
  set (k := (i / BITSET_WIDTH WORDS)%nat). rewrite !lookup_app, lookup_zip_with, length_zip_with, !lookup_drop, length_drop.
  destruct (self !! k) as [a|] eqn:Ea, (other !! k) as [b|] eqn:Eb; cbn [mbind option_bind].
  - apply mem_union. destruct (wf_at _ _ _ Hs Ea), (wf_at _ _ _ Ho Eb). congruence.
  - apply lookup_lt_Some in Ea as Hlt. apply lookup_ge_None in Eb.
    replace (length other + (k - length self `min` length other))%nat with k by lia. rewrite Ea. by rewrite orb_false_r.
  - apply lookup_lt_Some in Eb as Hlt. apply lookup_ge_None in Ea.
    rewrite (lookup_ge_None_2 self) by lia.
    replace (length self + (k - length self `min` length other - (length self - length other)))%nat with k by lia. by rewrite Eb.
  - apply lookup_ge_None in Ea, Eb. rewrite (lookup_ge_None_2 self) by lia. rewrite (lookup_ge_None_2 other) by lia. done.
Qed.

Lemma dintersect_spec self other :
  wf self -> wf other ->
  wf (intersect_inplace self other) /\ forall i, mem (intersect_inplace self other) i = mem self i && mem other i.
Proof.
  intros Hs Ho. unfold intersect_inplace.
  assert (Hz : wf (zip_with Bitset.intersect_inplace (take (length other) self) other)).
  { apply wf_zip_with; [apply wf_intersect|apply intersect_length|by apply Forall_take|done]. }
  destruct (truncate_spec _ Hz) as [H1 H2]. split; [done|]. intros i. rewrite H2, !mem_lookup by done. rewrite lookup_zip_with.
  set (k := (i / BITSET_WIDTH WORDS)%nat). destruct (other !! k) as [b|] eqn:Eb.
  2: { rewrite andb_false_r. by destruct (take _ _ !! k). }
  rewrite lookup_take_lt by (by eapply lookup_lt_Some). destruct (self !! k) as [a|] eqn:Ea; [|done]. cbn [mbind option_bind].
  apply mem_intersect. destruct (wf_at _ _ _ Hs Ea), (wf_at _ _ _ Ho Eb). congruence.
Qed.

(** ** Enumeration and searches *)

Lemma dbits_shift k self :
  wf self ->
  concat (imap (fun idx b => map (fun x => (x + (k + idx) * BITSET_WIDTH WORDS)%nat) (Bitset.bits b)) self)
  = map (fun x => (x + k * BITSET_WIDTH WORDS)%nat) (members (concat self)).
Proof.
  intros Hwf. revert k. induction Hwf as [|b self [Hb Hl] _ IH]; intros k; [done|]. rewrite imap_cons. cbn [concat].
  rewrite members_app, map_app, bits_spec by done. f_equal.
  - apply map_ext. intros x. lia.
  - rewrite map_map, Hl. etransitivity; [|etransitivity; [apply (IH (S k))|]].
    + f_equal. apply imap_ext. intros j x _. cbn. apply map_ext. intros y. lia.
    + apply map_ext. intros x. unfold BITSET_WIDTH. lia.
Qed.

Lemma dbits_spec self : wf self -> bits WORDS self = members (concat self).
Proof.
  intros Hwf. pose proof (dbits_shift 0 self Hwf) as H. unfold bits. cbn [Nat.add Nat.mul] in H. rewrite H.
  rewrite <- (map_id (members (concat self))) at 2. apply map_ext. intros x. lia.
Qed.

Lemma dbits_mem self i : wf self -> i ∈ bits WORDS self <-> mem self i = true.
Proof. intros Hwf. rewrite dbits_spec by done. apply members_spec. Qed.

Lemma dis_empty_spec self : wf self -> is_empty self = bool_decide (bits WORDS self = []).
Proof.
  intros Hwf. rewrite dbits_spec by done. induction Hwf as [|b self [Hb _] _ IH]; [done|]. cbn [is_empty forallb concat].
  fold (is_empty self). rewrite IH, is_empty_spec by done. rewrite members_app.
  destruct (members b); cbn [app]; [|by rewrite bool_decide_eq_false_2 by done]. rewrite bool_decide_eq_true_2 by done. cbn [andb].
  apply bool_decide_ext. split; [by intros ->|]. by destruct (members (concat self)).
Qed.

Lemma dcount_ones_spec self : wf self -> count_ones self = length (bits WORDS self).
Proof.
  intros Hwf. rewrite dbits_spec by done. induction Hwf as [|b self [Hb _] _ IH]; [done|]. unfold count_ones in *. cbn [map sum_list sum_list_with concat].
  rewrite members_app, length_app, length_map, <- count_ones_spec. unfold sum_list in IH. by rewrite <- IH.
Qed.

(** With one word per bit set, the search finds the least member. *)
Lemma dfirst_set_spec self : WORDS = 1%nat -> wf self -> first_set self = head (bits WORDS self).
Proof.
  intros H1 Hwf. rewrite dbits_spec by done. unfold first_set.
  enough (forall k, first_set_from self k = option_map (fun x => (k * 64 + x)%nat) (head (members (concat self)))) as ->.
  { by destruct (head _). }
  induction Hwf as [|b self [Hb Hl] _ IH]; intros k; [done|]. cbn [first_set_from concat]. rewrite first_set_spec, members_app by done.
  destruct (members b) as [|x l]; cbn [head app]; [|done]. rewrite IH, head_map. rewrite Hl, H1. destruct (head _); [|done]. cbn. f_equal. lia.
Qed.

Lemma dzero_from_spec self bit :
  wf self -> exists self', zero_from WORDS self bit = Done self' /\ wf self' /\ forall i, mem self' i = bool_decide (i < bit)%nat && mem self i.
Proof.
  intros Hwf. unfold zero_from. cbn [bitset_and_idx]. set (q := (bit / BITSET_WIDTH WORDS)%nat). set (r := (bit mod BITSET_WIDTH WORDS)%nat).
  assert (Hw0 : (0 < BITSET_WIDTH WORDS)%nat) by (unfold BITSET_WIDTH; lia).
  pose proof (Nat.div_mod_eq bit (BITSET_WIDTH WORDS)) as Hbit. fold q r in Hbit.
  pose proof (bit_idx_lt bit) as Hr. fold r in Hr. assert (Ht : wf (take (S q) self)) by (by apply Forall_take).
  assert (Hlt : forall i, (i / BITSET_WIDTH WORDS < q)%nat -> (i < bit)%nat).
  { intros i Hi. pose proof (Nat.div_mod_eq i (BITSET_WIDTH WORDS)). pose proof (Nat.mod_upper_bound i (BITSET_WIDTH WORDS)). nia. }
  assert (Hge : forall i, (q < i / BITSET_WIDTH WORDS)%nat -> (bit <= i)%nat).
  { intros i Hi. pose proof (Nat.div_mod_eq i (BITSET_WIDTH WORDS)). unfold BITSET_WIDTH, N_BITS in *. nia. }
  destruct (take (S q) self !! q) as [w|] eqn:Ew.
  - pose proof (with_bits_upto_spec WORDS r) as Hup. rewrite decide_True in Hup by (unfold N_BITS in *; lia).
    destruct Hup as (mask & Em & Hml & Hmm). rewrite Em. cbn [mbind outcome_bind]. pose proof (with_bits_upto_wf _ _ _ Em) as Hmw.
    destruct (wf_at _ _ _ Ht Ew) as [Hww Hwl].
    assert (Hins : wf (<[q := Bitset.intersect_inplace w mask]> (take (S q) self))).
    { apply Forall_insert; [done|]. split; [by apply wf_intersect|]. rewrite intersect_length; congruence. }
    eexists. split; [reflexivity|]. destruct (truncate_spec _ Hins) as [H1 H2]. split; [done|]. intros i. rewrite H2, !mem_lookup by done.
    pose proof (Nat.div_mod_eq i (BITSET_WIDTH WORDS)) as Hi. destruct (Nat.lt_trichotomy (i / BITSET_WIDTH WORDS) q) as [Hq|[Hq|Hq]].
    + rewrite list_lookup_insert_ne, lookup_take_lt by lia. by rewrite bool_decide_eq_true_2 by (by apply Hlt).
    + rewrite Hq, list_lookup_insert_eq by (by eapply lookup_lt_Some). rewrite mem_intersect by congruence.
      rewrite lookup_take_lt in Ew by lia. rewrite Ew, Hmm by apply bit_idx_lt. rewrite andb_comm. f_equal. apply bool_decide_ext. lia.
    + rewrite list_lookup_insert_ne, lookup_take_ge by lia. rewrite bool_decide_eq_false_2; [done|]. specialize (Hge i Hq). lia.
  - exists (take (S q) self). split_and!; [done..|]. intros i. rewrite !mem_lookup by done.
    apply lookup_ge_None in Ew. rewrite length_take in Ew. rewrite take_ge by lia.
    destruct (self !! _) as [b|] eqn:Eb; [|by rewrite andb_false_r]. apply lookup_lt_Some in Eb.
    by rewrite bool_decide_eq_true_2 by (apply Hlt; lia).
Qed.

Lemma dwith_bits_spec self l :
  wf self -> exists self', with_bits WORDS self l = Done self' /\ wf self' /\ forall i, mem self' i = bool_decide (i ∈ l) || mem self i.
Proof.
  revert self. induction l as [|b l IH]; intros self Hwf; [by exists self|]. cbn [with_bits].
  destruct (dset_spec self b Hwf) as (s1 & -> & Hw1 & Hm1). cbn [mbind outcome_bind]. destruct (IH s1 Hw1) as (s2 & -> & Hw2 & Hm2).
  exists s2. split_and!; [done..|]. intros i. rewrite Hm2, Hm1, orb_assoc. f_equal. apply eq_bool_prop_intro.
  rewrite orb_True, !bool_decide_spec. set_solver.
Qed.

Lemma dfrom_iter_spec l : exists self, from_iter WORDS l = Done self /\ wf self /\ forall i, mem self i = bool_decide (i ∈ l).
Proof.
  unfold from_iter. destruct (dwith_bits_spec empty l) as (s & -> & Hw & Hm); [constructor|]. cbn [mbind outcome_bind].
  destruct (truncate_spec s Hw) as [H1 H2]. eexists. split_and!; [done..|]. intros i. rewrite H2, Hm. unfold mem, empty. cbn. by rewrite orb_false_r.
Qed.

(** The search from [query] on finds the least member. *)
Lemma next_set_from_spec inner i query :
  wf inner -> (query < BITSET_WIDTH WORDS)%nat ->
  exists o, next_set_from WORDS inner i query = Done (option_map (fun x => (x + i * BITSET_WIDTH WORDS)%nat) o) /\ least (concat inner) query o.
Proof.
  intros Hwf. revert i query. induction Hwf as [|b inner [Hb Hl] Hwf IH]; intros i query Hq; [by exists None|].
  cbn [next_set_from concat]. destruct (next_set_least b query Hb) as (o & -> & Ho); [unfold N_BITS, BITSET_WIDTH in *; lia|]. cbn [mbind outcome_bind].
  destruct o as [x|].
  - destruct Ho as (Hx & Hm & Hlow). exists (Some x). split; [done|].
    assert (x < length b * 64)%nat by (destruct (decide (x < length b * 64)%nat); [done|]; rewrite mem_out in Hm by lia; done).
    split_and!; [done|by rewrite mem_app, decide_True|]. intros j Hj. rewrite mem_app, decide_True by lia. by apply Hlow.
  - destruct (IH (S i) 0%nat) as (o & -> & Ho2); [lia|]. exists (option_map (Nat.add (length b * 64)) o). split.
    + destruct o; [|done]. cbn. do 2 f_equal. unfold BITSET_WIDTH. lia.
    + apply least_drop; [unfold BITSET_WIDTH in Hq; lia| |].
      * intros j Hj. rewrite mem_app, decide_True by lia. apply Ho. lia.
      * by rewrite drop_app_length.
Qed.

Lemma concat_drop self k : wf self -> concat (drop k self) = drop (k * WORDS) (concat self).
Proof.
  intros Hwf. revert k. induction Hwf as [|b self [_ Hl] _ IH]; intros [|k]; [done| |done|].
  - cbn [concat]. by rewrite !drop_nil.
  - cbn [drop concat]. rewrite IH. rewrite drop_app_ge by lia. f_equal. lia.
Qed.

Lemma dnext_set_spec self bit : wf self -> exists o, next_set WORDS self bit = Done o /\ least (concat self) bit o.
Proof.
  intros Hwf. unfold next_set. cbn [bitset_and_idx]. set (q := (bit / BITSET_WIDTH WORDS)%nat).
  destruct (next_set_from_spec (drop q self) q (bit mod BITSET_WIDTH WORDS)) as (o & -> & Ho); [by apply Forall_drop|apply bit_idx_lt|].
  eexists. split; [reflexivity|]. rewrite concat_drop in Ho by done. pose proof (Nat.div_mod_eq bit (BITSET_WIDTH WORDS)) as Hb. fold q in Hb.
  unfold BITSET_WIDTH in *. destruct o as [x|]; cbn [option_map].
  - destruct Ho as (Hx & Hm & Hlow). rewrite mem_drop in Hm. split_and!; [lia|by replace (x + q * (WORDS * 64))%nat with (q * WORDS * 64 + x)%nat by lia|].
    intros i Hi. specialize (Hlow (i - q * WORDS * 64)%nat). rewrite mem_drop in Hlow.
    replace (q * WORDS * 64 + (i - q * WORDS * 64))%nat with i in Hlow by lia. apply Hlow. lia.
  - intros i Hi. specialize (Ho (i - q * WORDS * 64)%nat). rewrite mem_drop in Ho.
    replace (q * WORDS * 64 + (i - q * WORDS * 64))%nat with i in Ho by lia. apply Ho. lia.
Qed.

Lemma dlast_set_spec self : wf self -> last_set WORDS self = Done (list.last (bits WORDS self)).
Proof.
  intros Hwf. rewrite dbits_spec by done. unfold last_set. induction self as [|b self IH] using rev_ind; [done|].
  apply Forall_app in Hwf as [Hs [[Hb Hl] _]%Forall_cons]. rewrite imap_app, rev_app_distr. cbn [imap rev app last_of].
  rewrite last_set_spec by (done || (intros ->; cbn in Hl; lia)). cbn [mbind outcome_bind]. rewrite concat_app, members_app. cbn [concat]. rewrite app_nil_r.
  destruct (wf_concat self Hs) as [_ Hlen]. rewrite last_app, last_map, Hlen. destruct (list.last (members b)) as [x|]; cbn [option_map].
  - do 2 f_equal. unfold BITSET_WIDTH. lia.
  - by apply IH.
Qed.

Lemma dintersects_spec self other : wf self -> wf other -> intersects self other = true <-> exists i, mem self i = true /\ mem other i = true.
Proof.
  intros Hs Ho. unfold intersects. rewrite existsb_exists. split.
  - intros ([a b] & Hin & Hx). apply list_elem_of_In, list_elem_of_lookup in Hin as (k & Hk).
    rewrite lookup_zip_with_Some in Hk. destruct Hk as (a' & b' & [= <- <-] & Ha & Hb).
    destruct (wf_at _ _ _ Hs Ha) as [Hwa Hla], (wf_at _ _ _ Ho Hb) as [Hwb Hlb].
    cbn [fst snd] in Hx. rewrite intersects_spec in Hx by done. apply negb_true_iff, bool_decide_eq_false in Hx.
    destruct (members (Bitset.intersect_inplace a b)) as [|x l] eqn:E; [done|].
    assert (Hm : Bitset.mem (Bitset.intersect_inplace a b) x = true) by (apply members_spec; rewrite E; set_solver).
    rewrite mem_intersect in Hm by congruence. apply andb_true_iff in Hm as [Hma Hmb].
    assert (x < BITSET_WIDTH WORDS)%nat by (destruct (decide (x < BITSET_WIDTH WORDS)%nat); [done|]; rewrite mem_out in Hma by (unfold BITSET_WIDTH in *; lia); done).
    exists (x + k * BITSET_WIDTH WORDS)%nat. rewrite !mem_lookup by done.
    rewrite Nat.div_add, Nat.div_small, Nat.Div0.mod_add, Nat.mod_small by lia. cbn [Nat.add]. by rewrite Ha, Hb.
  - intros (i & Hi & Hj). rewrite mem_lookup in Hi, Hj by done. destruct (self !! _) as [a|] eqn:Ea; [|done]. destruct (other !! _) as [b|] eqn:Eb; [|done].
    destruct (wf_at _ _ _ Hs Ea), (wf_at _ _ _ Ho Eb). exists (a, b). split.
    + apply list_elem_of_In, list_elem_of_lookup. eexists. rewrite lookup_zip_with, Ea, Eb. done.
    + cbn [fst snd]. rewrite intersects_spec by done. apply negb_true_iff, bool_decide_eq_false. intros E.
      assert ((i mod BITSET_WIDTH WORDS)%nat ∈ members (Bitset.intersect_inplace a b)) as Hin.
      { apply members_spec. rewrite mem_intersect by congruence. by rewrite Hi, Hj. }
      rewrite E in Hin. set_solver.
Qed.

End Spec.



(** [DynBitset::first_set] is wrong for bit sets of several words: it multiplies the
    index of the bit set by 64 and not by its width, so that of a set whose only member is
    the first bit of the second bit set it returns a number that is not a member. *)
Theorem first_set_not_member (WORDS : nat) :
  (1 < WORDS)%nat ->
  exists self, set WORDS empty (WORDS * 64) = Done self /\ first_set self = Some 64%nat /\ mem self 64 = false.
Proof.
  intros Hw. destruct (dset_spec WORDS ltac:(lia) empty (WORDS * 64)) as (self & E & Hwf & Hm); [constructor|]. exists self. split; [done|].
  rewrite Hm, bool_decide_eq_false_2 by lia. split; [|done].
  revert E. unfold set, ensure_capacity. cbn [bitset_and_idx]. unfold BITSET_WIDTH. rewrite Nat.div_same, Nat.Div0.mod_same by lia. cbn [empty app length Nat.sub replicate index lookup list_lookup unwrap mbind outcome_bind].
  destruct (set_spec (EMPTY WORDS) 0 (wf_EMPTY WORDS)) as (b & -> & Hb & _ & Hmb); [unfold N_BITS, EMPTY; rewrite length_replicate; lia|].
  cbn. intros [= <-]. unfold first_set. cbn [first_set_from].
  rewrite (first_set_spec (EMPTY WORDS)) by apply wf_EMPTY. rewrite first_set_spec by done.
  destruct (members (EMPTY WORDS)) as [|x l] eqn:Ee.
  2: { assert (x ∈ members (EMPTY WORDS)) as Hx by (rewrite Ee; set_solver). apply members_spec in Hx. by rewrite mem_EMPTY in Hx. }
  cbn [head]. pose proof (least_head b) as Hl. destruct (head (members b)) as [x|].
  - destruct Hl as (_ & Hx & _). rewrite Hmb, mem_EMPTY in Hx. rewrite orb_false_r in Hx. apply bool_decide_eq_true in Hx as ->. done.
  - specialize (Hl 0%nat ltac:(lia)). by rewrite Hmb in Hl.
Qed.

Lemma first_set_not_member_witness :
  exists self, set 2 empty 128 = Done self /\ first_set self = Some 64%nat /\ mem self 64 = false.
Proof. apply (first_set_not_member 2). lia. Defined.

End DynBitset.
