(* ===== verification/IdSets.v ===== *)
(** * Sets of identifiers (ts_bart_packetfilter/src/lib.rs)

    What the lookup structures of the filter share: free lists, vectors of slots that are
    trimmed at the end, and tables whose values are sets of identifiers. *)

From Stdlib Require Import Sorted.
From S2P Require Import Prelude Bitset DynBitset IpNet IpTrie IpTrieMod IpTrieLookup RoutingTable.
Import DynBitset IpNet IpTrieMod IpTrieLookup RoutingTable.

Module IdSets.

(** [DynBitset] with its default parameters. *)
Abbreviation IdSet := DynBitset.

(** ** Free lists and slots *)

Definition pop_freelist (b : IdSet) : outcome (option nat * IdSet) :=
  match first_set b with
  | Some first => b ← clear 1 b first; mret (Some first, b)
  | None => mret (None, b)
  end.

(** [while let Some(None) = v.last() { v.pop(); }] *)
Fixpoint pop_none {A} (v : list (option A)) : list (option A) :=
  match v with None :: v => pop_none v | _ => v end.

Definition trim {A} (v : list (option A)) : list (option A) := rev (pop_none (rev v)).

(** ** Closures for [modify] *)

(** Setting and clearing a bit does not panic, see [dset_spec] and [dclear_spec]. *)
Definition written (v : IdSet) (o : outcome IdSet) : IdSet := match o with Done v' => v' | Panic => v end.

Definition set_id (id : nat) (val : option IdSet) : IpTrie.RouteModification (T := IdSet) * option IdSet :=
  match val with
  | Some v => (IpTrie.Noop, Some (written v (set 1 v id)))
  | None => (IpTrie.Insert (written empty (with_bit 1 empty id)), None)
  end.

Definition clear_id (id : nat) (val : option IdSet) : IpTrie.RouteModification (T := IdSet) * option IdSet :=
  match val with
  | Some v =>
      let v := written v (clear 1 v id) in
      (if is_empty v then IpTrie.Remove else IpTrie.Noop, Some v)
  | None => (IpTrie.Noop, None)
  end.

(** ** Loops over prefixes *)

Section Loop.
Context `{HI : Ipnet} {Tb It : Type} `{HR : !RoutingTable Tb IdSet It}.

Fixpoint modify_each (t : Tb) (pfxs : list IpNet) (f : option IdSet -> IpTrie.RouteModification (T := IdSet) * option IdSet) : outcome Tb :=
  match pfxs with
  | [] => mret t
  | pfx :: pfxs => '(_, t) ← rt_modify_impl t pfx f; modify_each t pfxs f
  end.

End Loop.

(** [fold(DynBitset::default(), |acc, x| acc.union_inplace(x))] *)
Definition union_all (l : list IdSet) : IdSet := fold_left union_inplace l empty.

(** ** Lemmas *)

Abbreviation wfs := (DynBitset.wf 1).

Lemma one_pos : (0 < 1)%nat.
Proof. lia. Qed.

Definition omem (o : option IdSet) (i : nat) : bool := match o with Some v => mem v i | None => false end.

(** A stored set is well formed and not empty. *)
Definition full (o : option IdSet) : Prop := forall v, o = Some v -> wfs v /\ exists i, mem v i = true.

Lemma full_None : full None.
Proof. intros v. done. Qed.

Lemma wfs_empty : wfs empty.
Proof. constructor. Qed.

Lemma mem_empty i : mem empty i = false.
Proof. done. Qed.

Lemma is_empty_mem v : wfs v -> is_empty v = false -> exists i, mem v i = true.
Proof.
  intros Hw H. rewrite (dis_empty_spec 1 one_pos v Hw) in H. apply bool_decide_eq_false_1 in H.
  destruct (bits 1 v) as [|i l] eqn:E; [done|]. exists i. apply (dbits_mem 1 one_pos v i Hw). rewrite E. set_solver.
Qed.

Lemma is_empty_none v i : wfs v -> is_empty v = true -> mem v i = false.
Proof.
  intros Hw H. rewrite (dis_empty_spec 1 one_pos v Hw) in H. apply bool_decide_eq_true_1 in H.
  apply not_true_iff_false. intros Hm. apply (dbits_mem 1 one_pos v i Hw) in Hm. rewrite H in Hm. by apply not_elem_of_nil in Hm.
Qed.

Lemma set_mod id o :
  full o -> let o' := snd (apply_mod (set_id id) o) in
  full o' /\ forall i, omem o' i = bool_decide (i = id) || omem o i.
Proof.
  intros Hf. cbv zeta. destruct o as [v|]; cbn [apply_mod set_id omem snd].
  - destruct (Hf v eq_refl) as [Hw _]. destruct (dset_spec 1 one_pos v id Hw) as (v' & -> & Hw' & Hm). cbn [written]. split.
    + intros x [= <-]. split; [done|]. exists id. by rewrite Hm, bool_decide_eq_true_2.
    + done.
  - unfold with_bit. destruct (dset_spec 1 one_pos empty id wfs_empty) as (v' & -> & Hw' & Hm). cbn [written]. split.
    + intros x [= <-]. split; [done|]. exists id. by rewrite Hm, bool_decide_eq_true_2.
    + done.
Qed.

Lemma clear_mod id o :
  full o -> let o' := snd (apply_mod (clear_id id) o) in
  full o' /\ (o = None -> o' = None) /\ forall i, omem o' i = negb (bool_decide (i = id)) && omem o i.
Proof.
  intros Hf. cbv zeta. destruct o as [v|]; [|by split_and!; [apply full_None|done|intros i; rewrite andb_false_r]].
  unfold apply_mod, clear_id. destruct (Hf v eq_refl) as [Hw _]. destruct (dclear_spec 1 one_pos v id Hw) as (v' & -> & Hw' & Hm). cbn [written].
  destruct (is_empty v') eqn:E; cbn [snd omem].
  - split_and!; [apply full_None|done|]. intros i. rewrite <- Hm. symmetry. by apply is_empty_none.
  - split_and!; [|done|done]. intros x [= <-]. split; [done|]. by apply is_empty_mem.
Qed.

Lemma pop_freelist_spec b :
  wfs b -> exists o b', pop_freelist b = Done (o, b') /\ wfs b' /\
    match o with
    | Some id => mem b id = true /\ (forall j, mem b j = true -> (id <= j)%nat) /\ forall i, mem b' i = negb (bool_decide (i = id)) && mem b i
    | None => b' = b /\ forall i, mem b i = false
    end.
Proof.
  intros Hw. unfold pop_freelist. rewrite (dfirst_set_spec 1 one_pos b eq_refl Hw).
  pose proof (fun i => dbits_mem 1 one_pos b i Hw) as Hb. pose proof (dbits_spec 1 one_pos b Hw) as Eb. destruct (bits 1 b) as [|id l]; cbn [head].
  - exists None, b. split_and!; [done..|]. intros i. apply not_true_iff_false. intros Hi%Hb. by apply not_elem_of_nil in Hi.
  - destruct (dclear_spec 1 one_pos b id Hw) as (b' & -> & Hw' & Hm). exists (Some id), b'. split_and!; [done..|apply Hb; set_solver| |done].
    intros j Hj. pose proof (Bitset.members_sorted (concat b)) as Hs. rewrite <- Eb in Hs. apply StronglySorted_inv in Hs as [_ Hs].
    rewrite List.Forall_forall in Hs. apply Hb, elem_of_cons in Hj as [->|Hj]; [done|]. apply list_elem_of_In, Hs in Hj. lia.
Qed.

Lemma pop_none_split {A} (v : list (option A)) : exists n, v = replicate n None ++ pop_none v.
Proof.
  induction v as [|[x|] v [n IH]]; [by exists 0%nat|by exists 0%nat|]. exists (S n). cbn [pop_none replicate app]. by rewrite <- IH.
Qed.

Lemma rev_replicate {A} n (x : A) : rev (replicate n x) = replicate n x.
Proof. induction n as [|n IH]; [done|]. cbn [replicate rev]. rewrite IH. symmetry. apply replicate_S_end. Qed.

Lemma trim_split {A} (v : list (option A)) : exists n, v = trim v ++ replicate n None.
Proof.
  destruct (pop_none_split (rev v)) as [n E]. exists n. apply (f_equal (@rev _)) in E. rewrite rev_involutive, rev_app_distr, rev_replicate in E. done.
Qed.

(** Trimming keeps the occupied slots, and what is left in range is as before. *)
Lemma trim_Some {A} (v : list (option A)) i x : trim v !! i = Some (Some x) <-> v !! i = Some (Some x).
Proof.
  destruct (trim_split v) as [n E]. rewrite E at 2. rewrite lookup_app. destruct (trim v !! i) as [o|]; [done|].
  split; [done|]. intros [? _]%lookup_replicate. done.
Qed.

Lemma trim_lookup {A} (v : list (option A)) i : (i < length (trim v))%nat -> trim v !! i = v !! i.
Proof. intros Hi. destruct (trim_split v) as [n E]. rewrite E at 2. by rewrite lookup_app_l. Qed.

(** [fold] with [union_inplace]. *)
Lemma union_all_spec l :
  Forall wfs l -> wfs (union_all l) /\ forall i, mem (union_all l) i = true <-> exists v, v ∈ l /\ mem v i = true.
Proof.
  intros Hl. unfold union_all.
  enough (forall acc, wfs acc -> wfs (fold_left union_inplace l acc) /\
    forall i, mem (fold_left union_inplace l acc) i = true <-> mem acc i = true \/ exists v, v ∈ l /\ mem v i = true) as H.
  { destruct (H empty wfs_empty) as [H1 H2]. split; [done|]. intros i. rewrite H2, mem_empty. naive_solver. }
  induction Hl as [|v l Hv Hl IH]; intros acc Ha; cbn [fold_left].
  - split; [done|]. intros i. split; [by left|]. by intros [|(v & ?%not_elem_of_nil & _)].
  - destruct (IH (union_inplace acc v)) as [H1 H2]; [apply (wf_union 1); [lia|done..]|]. split; [done|]. intros i.
    rewrite H2, (dunion_spec 1 one_pos) by done. rewrite orb_true_iff. set_solver.
Qed.

(** ** Tables of sets *)

Section Table.
Context `{HI : Ipnet} {Tb It : Type} `{HR : !RoutingTable Tb IdSet It} `{HT : !RoutingTableLaws Tb IdSet It}.
Implicit Types M : Routes IdSet.

(** Prefix [k] of a family holds the identifier [i]. *)
Definition holds M (fam : bool) (k : list bool) (i : nat) : Prop := omem (sel M fam !! k) i = true.

Definition full_routes M : Prop := forall fam k, full (sel M fam !! k).

Lemma full_no_routes : full_routes no_routes.
Proof. intros [] k; apply full_None. Qed.

Lemma holds_no_routes fam k i : ~ holds no_routes fam k i.
Proof. by destruct fam. Qed.

(** The keys of some prefixes. *)
Definition keyed (pfxs : list IpNet) (fam : bool) (k : list bool) : Prop :=
  exists p, p ∈ pfxs /\ is_ipv4 (net_addr p) = fam /\ key p = k.

Lemma sel_rset M p o fam k :
  sel (rset M p o) fam !! k = if decide (is_ipv4 (net_addr p) = fam /\ key p = k) then o else sel M fam !! k.
Proof.
  unfold rset, sel. destruct (is_ipv4 (net_addr p)), fam; cbn [routes4 routes6];
    rewrite ?lookup_partial_alter; repeat case_decide; naive_solver.
Qed.

Lemma rget_sel M p : rget M p = sel M (is_ipv4 (net_addr p)) !! key p.
Proof. done. Qed.

Lemma full_rset M p o : full_routes M -> full o -> full_routes (rset M p o).
Proof. intros HM Ho fam k. rewrite sel_rset. case_decide; [done|apply HM]. Qed.

Lemma rsize_clear M p o : (rget M p = None -> o = None) -> rsize (rset M p o) <= rsize M.
Proof.
  intros Ho. assert (H : forall m : gmap (list bool) IdSet, (m !! key p = None -> o = None) -> (size (partial_alter (fun _ => o) (key p) m) <= size m)%nat).
  { intros m Hm. destruct o as [v|].
    - pose proof (size_put m (key p) v). destruct (m !! key p); [lia|]. discriminate Hm. done.
    - pose proof (size_drop m (key p)) as [? _]. destruct (m !! key p); lia. }
  unfold rsize, rset, rget, sel in *. destruct (is_ipv4 (net_addr p)); cbn [routes4 routes6]; pose proof (H _ Ho); lia.
Qed.

Lemma set_each id pfxs t M :
  rt_repr t M -> full_routes M -> rsize M + Z.of_nat (length pfxs) < U64 ->
  exists t' M', modify_each t pfxs (set_id id) = Done t' /\ rt_repr t' M' /\ full_routes M' /\
    rsize M' <= rsize M + Z.of_nat (length pfxs) /\
    forall fam k i, holds M' fam k i <-> holds M fam k i \/ i = id /\ keyed pfxs fam k.
Proof.
  revert t M. induction pfxs as [|p pfxs IH]; intros t M Ht HM Hsz; cbn [modify_each length] in *.
  - exists t, M. split_and!; [done..|lia|]. intros fam k i. split; [by left|]. intros [|[_ (p & ?%not_elem_of_nil & _)]]; done.
  - destruct (rt_modify_spec t M p (set_id id) Ht ltac:(lia)) as (t1 & -> & Ht1). cbn [mbind outcome_bind].
    set (o := snd (apply_mod (set_id id) (rget M p))) in *. destruct (set_mod id (rget M p) (HM _ _)) as [Hf Hm]. fold o in Hf, Hm.
    pose proof (rsize_set M p o). destruct (IH t1 _ Ht1 (full_rset M p o HM Hf)) as (t2 & M2 & -> & Ht2 & HM2 & Hs2 & Hh2); [lia|].
    exists t2, M2. split_and!; [done..|lia|]. intros fam k i. rewrite Hh2. unfold holds at 1. rewrite sel_rset. unfold keyed.
    case_decide as Hd.
    + destruct Hd as [Hd1 Hd2]. rewrite Hm, orb_true_iff, bool_decide_eq_true, rget_sel, Hd1, Hd2. unfold holds. set_solver.
    + unfold holds. set_solver.
Qed.

Lemma clear_each id pfxs t M :
  rt_repr t M -> full_routes M -> rsize M + 1 < U64 ->
  exists t' M', modify_each t pfxs (clear_id id) = Done t' /\ rt_repr t' M' /\ full_routes M' /\ rsize M' <= rsize M /\
    forall fam k i, holds M' fam k i <-> holds M fam k i /\ ~ (i = id /\ keyed pfxs fam k).
Proof.
  revert t M. induction pfxs as [|p pfxs IH]; intros t M Ht HM Hsz; cbn [modify_each] in *.
  - exists t, M. split_and!; [done..|]. intros fam k i. split; [|by intros []]. intros H. split; [done|]. by intros [_ (p & ?%not_elem_of_nil & _)].
  - destruct (rt_modify_spec t M p (clear_id id) Ht ltac:(lia)) as (t1 & -> & Ht1). cbn [mbind outcome_bind].
    set (o := snd (apply_mod (clear_id id) (rget M p))) in *. destruct (clear_mod id (rget M p) (HM _ _)) as (Hf & Hn & Hm). fold o in Hf, Hn, Hm.
    pose proof (rsize_clear M p o Hn). destruct (IH t1 _ Ht1 (full_rset M p o HM Hf)) as (t2 & M2 & -> & Ht2 & HM2 & Hs2 & Hh2); [lia|].
    exists t2, M2. split_and!; [done..|lia|]. intros fam k i. rewrite Hh2. unfold holds at 1. rewrite sel_rset. unfold keyed.
    case_decide as Hd.
    + destruct Hd as [Hd1 Hd2]. rewrite Hm, andb_true_iff, negb_true_iff, bool_decide_eq_false, rget_sel, Hd1, Hd2. unfold holds. set_solver.
    + unfold holds. set_solver.
Qed.

(** The identifiers under the prefixes of an address. *)
Lemma rmatches_mem M ip :
  full_routes M -> Forall wfs (rmatches M ip) /\ forall i, mem (union_all (rmatches M ip)) i = true <->
    exists l, (l <= length (addr_bits ip))%nat /\ holds M (is_ipv4 ip) (take l (addr_bits ip)) i.
Proof.
  intros HM. assert (Hin : forall v, v ∈ rmatches M ip <-> exists l, (l <= length (addr_bits ip))%nat /\ sel M (is_ipv4 ip) !! take l (addr_bits ip) = Some v).
  { intros v. unfold rmatches, matches. rewrite list_elem_of_omap. setoid_rewrite list_elem_of_In. setoid_rewrite <- in_rev. setoid_rewrite in_seq.
    split; intros (l & Hl & Hv); exists l; (split; [lia|done]). }
  assert (Hw : Forall wfs (rmatches M ip)) by (apply Forall_forall; intros v (l & _ & Hv)%Hin; by apply (HM _ _ _ Hv)).
  split; [done|]. intros i. rewrite (proj2 (union_all_spec _ Hw)). setoid_rewrite Hin. unfold holds. split.
  - intros (v & (l & Hl & Hv) & Hm). exists l. split; [done|]. by rewrite Hv.
  - intros (l & Hl & Hm). destruct (sel M (is_ipv4 ip) !! take l (addr_bits ip)) as [v|] eqn:E; [|done]. exists v. split; [by exists l|done].
Qed.

Lemma keyed_contains `{HL : !IpnetLaws} pfxs ip :
  addr_ok ip -> existsb (fun p => net_contains p ip) pfxs = true <->
    exists l, (l <= length (addr_bits ip))%nat /\ keyed pfxs (is_ipv4 ip) (take l (addr_bits ip)).
Proof.
  intros Hip. rewrite existsb_exists. setoid_rewrite net_contains_spec; [|done]. unfold keyed. split.
  - intros (p & Hp & Hf & Hk). exists (net_prefix_len p). split.
    + pose proof (key_length p) as Hl. rewrite Hk, length_take in Hl. lia.
    + exists p. split_and!; [by apply list_elem_of_In|done..].
  - intros (l & Hl & p & Hp & Hf & Hk). exists p. split_and!; [by apply list_elem_of_In|done|].
    pose proof (key_length p) as Hlen. rewrite Hk, length_take in Hlen. rewrite Hk. f_equal. lia.
Qed.

End Table.
End IdSets.
