(* ===== verification/PortTrie.v ===== *)
(** * Tries of ports (ts_bart_packetfilter/src/port_trie)

    A set of ports is stored as the port prefixes that [iter_prefixes] splits its range
    into: prefixes of the upper octet, prefixes of the lower octet under an upper octet, and
    single ports.  Ports are [u16] values. *)

From Stdlib Require Import ZifyNat.
From S2P Require Import Prelude Bitset Array256 BaseIndex IpTrie.
Import BaseIndex.

Module PortTrie.

(** ** Port prefixes *)

Inductive PortPrefix : Type :=
| Prefix (i : BaseIndex)
| ChildPrefix (hi : nat) (lo_pfx : BaseIndex)
| Singleton (port : Z).

#[global] Instance PortPrefix_eq_dec : EqDecision PortPrefix.
Proof. solve_decision. Defined.

Definition U16_MAX : Z := 65535.
Definition sat_add (x y : Z) : Z := Z.min (x + y) U16_MAX.
Definition sat_sub (x y : Z) : Z := Z.max (x - y) 0.

(** [PortTrie::port_byte] and [Child::port_byte] *)
Definition hi_byte (port : Z) : nat := Z.to_nat (Z.shiftr port 8).
Definition lo_byte (port : Z) : nat := Z.to_nat (Z.land port 255).

(** [u16::from_be_bytes] *)
Definition from_be_bytes (hi lo : nat) : Z := Z.of_nat hi * 256 + Z.of_nat lo.

Definition from_pfx (port : Z) (pfx : nat) : outcome PortPrefix :=
  if decide (pfx = 16)%nat then mret (Singleton port)
  else if decide (pfx < 8)%nat then i ← from_prefix (hi_byte port) pfx; mret (Prefix i)
  else i ← from_prefix (lo_byte port) (pfx - 8); mret (ChildPrefix (hi_byte port) i).

Definition prefix_form (self : PortPrefix) : outcome (Z * nat) :=
  match self with
  | Singleton port => mret (port, 16%nat)
  | ChildPrefix hi lo_pfx => '(lo_addr, lo_len) ← prefix lo_pfx; mret (from_be_bytes hi lo_addr, (8 + lo_len)%nat)
  | Prefix idx => '(addr, len) ← prefix idx; mret (from_be_bytes addr 0, len)
  end.

Definition start (self : PortPrefix) : outcome Z := '(addr, _) ← prefix_form self; mret addr.

Definition end_ (self : PortPrefix) : outcome Z :=
  '(addr, len) ← prefix_form self;
  if decide (len = 0)%nat then mret U16_MAX
  else let range := Z.shiftr 32768 (Z.of_nat (len - 1)) in mret (sat_add addr (range - 1)).

Definition to_range (self : PortPrefix) : outcome (Z * Z) := s ← start self; e ← end_ self; mret (s, e).

(** [u16::leading_zeros] and [u16::trailing_zeros] *)
Definition leading_zeros16 (x : Z) : nat := if decide (x = 0) then 16%nat else (15 - Z.to_nat (Z.log2 x))%nat.
Definition trailing_zeros16 (x : Z) : nat :=
  match List.find (fun i => Z.testbit x (Z.of_nat i)) (seq 0 16) with Some i => i | None => 16%nat end.

Record PortPrefixIter : Type := mkIter { it_start : Z; it_end : Z }.

Definition iter_next (self : PortPrefixIter) : outcome (option PortPrefix * PortPrefixIter) :=
  match Z.compare (it_start self) (it_end self) with
  | Lt =>
      let range := sat_add (sat_sub (it_end self) (it_start self)) 1 in
      if decide (range = U16_MAX) then ret ← from_pfx 0 0; mret (Some ret, mkIter 1 0)
      else
        let range_bits := (16 - leading_zeros16 range - 1)%nat in
        let start_tz := trailing_zeros16 (it_start self) in
        let new_prefix_len := (16 - Nat.min range_bits start_tz)%nat in
        ret ← from_pfx (it_start self) new_prefix_len;
        e ← end_ ret;
        let start := sat_add e 1 in
        mret (Some ret, mkIter start (if decide (start = U16_MAX) then 0 else it_end self))
  | Eq => mret (Some (Singleton (it_start self)), mkIter 1 0)
  | Gt => mret (None, self)
  end.

(** What a [for] loop over the iterator sees, if it ends within [fuel] calls. *)
Fixpoint iter_all (fuel : nat) (it : PortPrefixIter) : outcome (list PortPrefix) :=
  match fuel with
  | O => Panic
  | S fuel =>
      '(o, it) ← iter_next it;
      match o with
      | None => mret []
      | Some p => l ← iter_all fuel it; mret (p :: l)
      end
  end.

(** The prefixes grow to the largest that fits and shrink from there; 40 calls are enough,
    see [iter_prefixes_cover]. *)
Definition iter_prefixes (ports : Z * Z) : outcome (list PortPrefix) := iter_all 40 (mkIter (fst ports) (snd ports)).

(** ** The trie *)

Record Child (T : Type) : Type := mkChild { child_prefixes : Array256.Array256 T }.
Arguments mkChild {T} _.
Arguments child_prefixes {T} _.

Record PortTrie (T : Type) : Type := mkTrie {
  prefixes : Array256.Array256 T;
  children : Array256.Array256 (Child T);
  singletons : gmap Z T;
}.
Arguments mkTrie {T} _ _ _.
Arguments prefixes {T} _.
Arguments children {T} _.
Arguments singletons {T} _.

Definition EMPTY {T} : PortTrie T := mkTrie Array256.EMPTY Array256.EMPTY ∅.

Section Ops.
Context {T : Type}.
Implicit Types self : PortTrie T.

(** A closure reads the entry and returns its decision and what it wrote through the
    reference. *)
Abbreviation Closure := (option T -> IpTrie.RouteModification (T := T) * option T).

(** One entry of a sparse array. *)
Definition modify_array (a : Array256.Array256 T) (i : nat) (f : Closure) : outcome (Array256.Array256 T) :=
  entry ← Array256.get a i;
  let '(decision, written) := f entry in
  a ← match entry, written with
      | Some _, Some w => o ← Array256.get_mut_set a i w; unwrap o
      | _, _ => mret a
      end;
  match decision with
  | IpTrie.Insert val => '(_, a) ← Array256.insert a i val; mret a
  | IpTrie.Remove => '(_, a) ← Array256.remove a i; mret a
  | IpTrie.Noop => mret a
  end.

Definition modify_prefix self (pfx : PortPrefix) (f : Closure) : outcome (PortTrie T) :=
  match pfx with
  | Prefix prefix =>
      a ← modify_array (prefixes self) prefix f;
      mret (mkTrie a (children self) (singletons self))
  | ChildPrefix hi lo_pfx =>
      present ← Array256.test (children self) hi;
      if negb present then
        match fst (f None) with
        | IpTrie.Insert val =>
            a ← Array256.from_iter [(lo_pfx, val)];
            '(_, c) ← Array256.insert (children self) hi (mkChild a);
            mret (mkTrie (prefixes self) c (singletons self))
        | _ => mret self
        end
      else
        o ← Array256.get (children self) hi;
        child ← unwrap o;
        a ← modify_array (child_prefixes child) lo_pfx f;
        o ← Array256.get_mut_set (children self) hi (mkChild a);
        c ← unwrap o;
        mret (mkTrie (prefixes self) c (singletons self))
  | Singleton port =>
      let entry := singletons self !! port in
      let '(decision, written) := f entry in
      let m := match entry, written with Some _, Some w => <[port := w]> (singletons self) | _, _ => singletons self end in
      mret (mkTrie (prefixes self) (children self)
              match decision with
              | IpTrie.Insert val => <[port := val]> m
              | IpTrie.Remove => base.delete port m
              | IpTrie.Noop => m
              end)
  end.

Fixpoint modify_all self (pfxs : list PortPrefix) (f : Closure) : outcome (PortTrie T) :=
  match pfxs with
  | [] => mret self
  | pfx :: pfxs => self ← modify_prefix self pfx f; modify_all self pfxs f
  end.

Definition modify self (ports : Z * Z) (f : Closure) : outcome (PortTrie T) :=
  pfxs ← iter_prefixes ports; modify_all self pfxs f.

(** [bits().filter_map(|bit| prefixes.get(bit))] *)
Fixpoint get_all (a : Array256.Array256 T) (bits : list nat) : outcome (list T) :=
  match bits with
  | [] => mret []
  | bit :: bits =>
      o ← Array256.get a bit;
      l ← get_all a bits;
      mret (match o with Some v => v :: l | None => l end)
  end.

(** The body of [prefix_matches] and of [Child::lookup]. *)
Definition octet_matches (a : Array256.Array256 T) (octet : nat) : outcome (list T) :=
  pfx ← from_pfx_7 octet;
  s ← lpm pfx;
  get_all a (Bitset.bits (Bitset.intersect_inplace s (Array256.bitset a))).

Definition prefix_matches self (port : Z) : outcome (list T) := octet_matches (prefixes self) (hi_byte port).

Definition child_lookup (self : Child T) (port : Z) : outcome (list T) := octet_matches (child_prefixes self) (lo_byte port).

Definition child_matches self (port : Z) : outcome (list T) :=
  o ← Array256.get (children self) (hi_byte port);
  match o with None => mret [] | Some child => child_lookup child port end.

Definition lookup self (port : Z) : outcome (list T) :=
  a ← prefix_matches self port;
  b ← child_matches self port;
  mret (a ++ b ++ option_list (singletons self !! port)).

Definition clear self : PortTrie T := EMPTY.

End Ops.
End PortTrie.
