(* ===== verification/PortTrieSpec.v ===== *)
(** * What the tries of ports store

    The prefixes that [iter_prefixes] yields tile the range it is given, except for a range
    of 65535 ports, and the iteration ends; a trie is a finite map from port prefixes to
    values, and its lookup returns the values of the prefixes that cover a port. *)

From S2P Require Import Prelude Bitset Array256 BaseIndex IpTrie IpTrieMod PortTrie.
Import BaseIndex IpTrieMod PortTrie.

Module PortTrieSpec.

(** ** Port prefixes as sets of ports *)

Definition port_ok (x : Z) : Prop := 0 <= x <= U16_MAX.

Definition pfx_ok (p : PortPrefix) : Prop :=
  match p with
  | Prefix i => (0 < i < 256)%nat
  | ChildPrefix hi lo => (hi < 256 /\ 0 < lo < 256)%nat
  | Singleton q => port_ok q
  end.

Definition covers (p : PortPrefix) (x : Z) : bool :=
  match p with
  | Prefix i => prefixb (key_of i) (octet_bits (hi_byte x))
  | ChildPrefix hi lo => (hi =? hi_byte x)%nat && prefixb (key_of lo) (octet_bits (lo_byte x))
  | Singleton q => x =? q
  end.

Lemma hi_byte_eq x : port_ok x -> Z.of_nat (hi_byte x) = x / 256.
Proof. unfold port_ok, hi_byte, U16_MAX. intros. rewrite Z.shiftr_div_pow2 by done. change (2 ^ 8) with 256. dlia. Qed.

Lemma lo_byte_eq x : port_ok x -> Z.of_nat (lo_byte x) = x mod 256.
Proof. unfold port_ok, lo_byte, U16_MAX. intros. change 255 with (Z.ones 8). rewrite Z.land_ones by done. change (2 ^ 8) with 256. dlia. Qed.

Lemma bytes_lt x : port_ok x -> (hi_byte x < 256 /\ lo_byte x < 256)%nat.
Proof. intros Hx. pose proof (hi_byte_eq x Hx). pose proof (lo_byte_eq x Hx). unfold port_ok, U16_MAX in *. split; dlia. Qed.

(** The octets under a bit string are an interval. *)
Definition span_ok (k : list bool) : bool :=
  match range (idx k) with
  | Done (first, last) => ((first =? octet_of k) && (last + 1 =? octet_of k + 2 ^ (8 - length k)))%nat
  | Panic => false
  end.

Lemma span_all k : (length k < 8)%nat -> span_ok k = true.
Proof. revert k. apply key_check. vm_compute. reflexivity. Qed.

Lemma prefixb_span k x :
  (length k < 8)%nat -> (x < 256)%nat ->
  prefixb k (octet_bits x) = true <-> (octet_of k <= x < octet_of k + 2 ^ (8 - length k))%nat.
Proof.
  intros Hk Hx. pose proof (prefix_all k Hk) as H. pose proof (span_all k Hk) as Hs. unfold prefix_ok, span_ok in *.
  destruct (prefix (idx k)) as [[o l]|]; [|done]. destruct (range (idx k)) as [[f t]|]; [|done].
  destruct (from_prefix _ _) as [j|]; [|done]. apply andb_true_iff in H as [_ H]. rewrite forallb_forall in H.
  specialize (H x ltac:(apply in_seq; lia)). apply eqb_prop in H. rewrite H.
  apply andb_true_iff in Hs as [->%Nat.eqb_eq Ht%Nat.eqb_eq]. rewrite andb_true_iff, !Nat.leb_le. lia.
Qed.

(** An octet without host bits. *)
Definition host_ok (o : nat) : bool :=
  forallb (fun l => negb (o mod 2 ^ (8 - l) =? 0) || (octet_of (take l (octet_bits o)) =? o))%nat (seq 0 8).

Lemma host_all o : (o < 256)%nat -> host_ok o = true.
Proof. revert o. apply octet_check. vm_compute. reflexivity. Qed.

Lemma block_spec o l :
  (o < 256)%nat -> (l < 8)%nat -> (o mod 2 ^ (8 - l) = 0)%nat ->
  exists i, from_prefix o l = Done i /\ prefix i = Done (o, l) /\ (0 < i < 256)%nat /\
    forall x, (x < 256)%nat -> prefixb (key_of i) (octet_bits x) = true <-> (o <= x < o + 2 ^ (8 - l))%nat.
Proof.
  intros Ho Hl Hm. pose proof (host_all o Ho) as H. unfold host_ok in H. rewrite forallb_forall in H.
  specialize (H l ltac:(apply in_seq; lia)). rewrite Hm in H. cbn [Nat.eqb negb orb] in H. apply Nat.eqb_eq in H.
  assert (Hk : length (take l (octet_bits o)) = l) by (rewrite length_take, octet_bits_length; lia).
  exists (idx (take l (octet_bits o))). pose proof (idx_pos (take l (octet_bits o))).
  pose proof (idx_lt (take l (octet_bits o)) 8 ltac:(lia)). change (2 ^ 8)%nat with 256%nat in *.
  split_and!; [by apply from_prefix_spec|rewrite prefix_spec by lia; congruence|done..|].
  intros x Hx. rewrite key_of_idx, prefixb_span by lia. by rewrite H, Hk.
Qed.

Lemma of_nat_mod_pow (a n : nat) : Z.of_nat a mod 2 ^ Z.of_nat n = 0 -> (a mod 2 ^ n = 0)%nat.
Proof. intros H. apply Nat2Z.inj. rewrite Nat2Z.inj_mod, Nat2Z.inj_pow. done. Qed.

Lemma end_form p a j :
  prefix_form p = Done (a, 16 - j)%nat -> (j <= 16)%nat -> 0 <= a -> a + 2 ^ Z.of_nat j <= 65536 ->
  end_ p = Done (a + 2 ^ Z.of_nat j - 1).
Proof.
  intros E Hl Ha Hs. unfold end_. rewrite E. cbn [mbind outcome_bind]. destruct (decide (16 - j = 0)%nat) as [Hj|Hj].
  - replace j with 16%nat in * by lia. change (2 ^ Z.of_nat 16) with 65536 in *. unfold mret, outcome_ret, U16_MAX. f_equal. lia.
  - assert (Er : Z.shiftr 32768 (Z.of_nat (16 - j - 1)) = 2 ^ Z.of_nat j).
    { clear -Hl Hj. do 17 (destruct j as [|j]; [done|]). lia. }
    rewrite Er. unfold mret, outcome_ret, sat_add, U16_MAX. f_equal. lia.
Qed.

(** A block of [2^j] ports that starts at a multiple of its size. *)
Lemma block_fits s j n : 0 <= s < 2 ^ n -> 0 <= j <= n -> s mod 2 ^ j = 0 -> s + 2 ^ j <= 2 ^ n.
Proof.
  intros Hs Hj Hm. assert (E : 2 ^ n = 2 ^ j * 2 ^ (n - j)) by (rewrite <- Z.pow_add_r by lia; f_equal; lia). rewrite E in *.
  pose proof (Z.pow_pos_nonneg 2 j ltac:(lia) ltac:(lia)).
  pose proof (Z.div_mod s (2 ^ j) ltac:(lia)). pose proof (Z.div_lt_upper_bound s (2 ^ j) (2 ^ (n - j)) ltac:(lia) ltac:(lia)). nia.
Qed.

Lemma block_hi s n : port_ok s -> 0 <= n -> s mod 2 ^ (n + 8) = 0 -> s = 256 * (s / 256) /\ (s / 256) mod 2 ^ n = 0.
Proof.
  intros Hs Hn Hm. rewrite Z.pow_add_r, Z.mul_comm in Hm by lia. change (2 ^ 8) with 256 in Hm.
  rewrite Z.rem_mul_r in Hm by lia. pose proof (Z.mod_pos_bound s 256). pose proof (Z.mod_pos_bound (s / 256) (2 ^ n)). split; [dlia|lia].
Qed.

Lemma block_lo s n : 0 <= n <= 8 -> s mod 2 ^ n = 0 -> (s mod 256) mod 2 ^ n = 0.
Proof.
  intros Hn Hm. rewrite Z.mod_mod_divide; [done|]. change 256 with (2 ^ 8). exists (2 ^ (8 - n)).
  rewrite <- Z.pow_add_r by lia. f_equal. lia.
Qed.

Lemma hi_span s x b : s = 256 * (s / 256) -> s / 256 <= x / 256 < s / 256 + b <-> s <= x < s + 256 * b.
Proof. dlia. Qed.

Lemma lo_span s x b : s mod 256 + b <= 256 -> s / 256 = x / 256 /\ s mod 256 <= x mod 256 < s mod 256 + b <-> s <= x < s + b.
Proof. dlia. Qed.

Lemma from_pfx_spec s j :
  port_ok s -> (j <= 16)%nat -> s mod 2 ^ Z.of_nat j = 0 ->
  exists p, from_pfx s (16 - j) = Done p /\ pfx_ok p /\ end_ p = Done (s + 2 ^ Z.of_nat j - 1) /\
    forall x, port_ok x -> covers p x = true <-> s <= x < s + 2 ^ Z.of_nat j.
Proof.
  intros Hs Hj Hm. unfold from_pfx. pose proof (hi_byte_eq s Hs) as Eh. pose proof (lo_byte_eq s Hs) as El.
  destruct (bytes_lt s Hs) as [Bh Bl].
  assert (Hle : s + 2 ^ Z.of_nat j <= 65536) by (apply (block_fits s (Z.of_nat j) 16); [unfold port_ok, U16_MAX in *; lia..|done]).
  assert (Hend : forall p, prefix_form p = Done (s, 16 - j)%nat -> end_ p = Done (s + 2 ^ Z.of_nat j - 1))
    by (intros p Ep; apply (end_form p s j Ep); unfold port_ok in *; [lia..|done]).
  destruct (decide (16 - j = 16)%nat) as [Hj0|Hj0]; [|destruct (decide (16 - j < 8)%nat) as [Hj8|Hj8]].
  - exists (Singleton s). split_and!; [done..|by apply Hend; rewrite Hj0|].
    intros x Hx. cbn [covers]. rewrite Z.eqb_eq. replace j with 0%nat by lia. change (2 ^ Z.of_nat 0) with 1. lia.
  - destruct (block_hi s (Z.of_nat (j - 8)) Hs) as [Es Hd]; [lia|by replace (Z.of_nat (j - 8) + 8) with (Z.of_nat j) by lia|].
    destruct (block_spec (hi_byte s) (16 - j) Bh Hj8) as (i & -> & Ep & Hi & Hc).
    { apply of_nat_mod_pow. rewrite Eh. by replace (8 - (16 - j))%nat with (j - 8)%nat by lia. }
    exists (Prefix i). cbn [mbind outcome_bind]. split_and!; [done..| |].
    + apply Hend. cbn [prefix_form]. rewrite Ep. cbn [mbind outcome_bind]. unfold mret, outcome_ret, from_be_bytes. do 2 f_equal. lia.
    + intros x Hx. cbn [covers]. rewrite Hc by apply bytes_lt, Hx. pose proof (hi_byte_eq x Hx).
      assert (Ej : 2 ^ Z.of_nat j = 256 * Z.of_nat (2 ^ (8 - (16 - j)))).
      { rewrite Nat2Z.inj_pow. change 256 with (2 ^ 8). change (Z.of_nat 2) with 2. rewrite <- Z.pow_add_r by lia. f_equal. lia. }
      rewrite Ej, <- (hi_span s x) by done. lia.
  - destruct (block_spec (lo_byte s) (16 - j - 8) Bl ltac:(lia)) as (i & -> & Ep & Hi & Hc).
    { apply of_nat_mod_pow. rewrite El. replace (8 - (16 - j - 8))%nat with j by lia. apply block_lo; [lia|done]. }
    exists (ChildPrefix (hi_byte s) i). cbn [mbind outcome_bind]. split_and!; [done..| |].
    + apply Hend. cbn [prefix_form]. rewrite Ep. cbn [mbind outcome_bind]. unfold mret, outcome_ret, from_be_bytes.
      replace (8 + (16 - j - 8))%nat with (16 - j)%nat by lia. do 2 f_equal. dlia.
    + intros x Hx. cbn [covers]. rewrite andb_true_iff, Nat.eqb_eq, Hc by apply bytes_lt, Hx.
      pose proof (hi_byte_eq x Hx). pose proof (lo_byte_eq x Hx). replace (8 - (16 - j - 8))%nat with j by lia.
      pose proof (block_fits (s mod 256) (Z.of_nat j) 8 ltac:(dlia) ltac:(lia) ltac:(apply block_lo; [lia|done])) as Hf.
      assert (Ej : 2 ^ Z.of_nat j = Z.of_nat (2 ^ j)) by (by rewrite Nat2Z.inj_pow).
      rewrite <- (lo_span s x) by done. lia.
Qed.

(** ** The iteration *)

Lemma find_seq_first (f : nat -> bool) a n :
  match List.find f (seq a n) with
  | Some i => (a <= i < a + n)%nat /\ f i = true /\ forall j, (a <= j < i)%nat -> f j = false
  | None => forall j, (a <= j < a + n)%nat -> f j = false
  end.
Proof.
  revert a. induction n as [|n IH]; intros a; cbn [seq List.find]; [lia|]. destruct (f a) eqn:E; [split_and!; [lia..|done|lia]|].
  specialize (IH (S a)). destruct (List.find f (seq (S a) n)) as [i|].
  - destruct IH as (? & ? & H). split_and!; [lia..|done|]. intros j Hj. destruct (decide (j = a)) as [->|]; [done|]. apply H. lia.
  - intros j Hj. destruct (decide (j = a)) as [->|]; [done|]. apply IH. lia.
Qed.

Lemma low_bits_zero s n : 0 <= n -> (forall i, 0 <= i < n -> Z.testbit s i = false) -> s mod 2 ^ n = 0.
Proof.
  intros Hn H. apply Z.bits_inj_0. intros i. destruct (Z.lt_ge_cases i 0); [by apply Z.testbit_neg_r|].
  destruct (Z.lt_ge_cases i n); [rewrite Z.mod_pow2_bits_low by done; by apply H|by apply Z.mod_pow2_bits_high].
Qed.

(** The block after a block of the size of its start. *)
Lemma next_block s n : 0 <= n -> s mod 2 ^ n = 0 -> Z.testbit s n = true -> (s + 2 ^ n) mod 2 ^ (n + 1) = 0.
Proof.
  intros Hn Hm Hb. rewrite Z.testbit_odd, Z.shiftr_div_pow2 in Hb by done. apply Z.odd_spec in Hb as [q Hq].
  pose proof (Z.pow_pos_nonneg 2 n ltac:(lia) Hn). pose proof (Z.div_mod s (2 ^ n) ltac:(lia)) as Hd.
  rewrite Z.pow_add_r by lia. apply Z.mod_divide; [lia|]. exists (q + 1). change (2 ^ 1) with 2. rewrite Hq in Hd. lia.
Qed.

Lemma trailing_zeros16_spec s :
  port_ok s -> let t := trailing_zeros16 s in
  (t <= 16)%nat /\ s mod 2 ^ Z.of_nat t = 0 /\ (t = 16%nat \/ (s + 2 ^ Z.of_nat t) mod 2 ^ (Z.of_nat t + 1) = 0).
Proof.
  intros Hs. cbv zeta. unfold trailing_zeros16. pose proof (find_seq_first (fun i => Z.testbit s (Z.of_nat i)) 0 16) as H.
  destruct (List.find _ _) as [i|].
  - destruct H as (Hi & Hb & Hz). assert (s mod 2 ^ Z.of_nat i = 0).
    { apply low_bits_zero; [lia|]. intros j Hj. rewrite <- (Z2Nat.id j) by lia. apply Hz. lia. }
    split_and!; [lia|done|]. right. by apply next_block; [lia|..].
  - split_and!; [lia| |by left]. apply low_bits_zero; [lia|]. intros j Hj. rewrite <- (Z2Nat.id j) by lia. apply H. lia.
Qed.

Lemma mod_pow_le s a b : 0 <= a <= b -> s mod 2 ^ b = 0 -> s mod 2 ^ a = 0.
Proof.
  intros Hab Hm. pose proof (Z.pow_pos_nonneg 2 a ltac:(lia) ltac:(lia)). pose proof (Z.pow_pos_nonneg 2 b ltac:(lia) ltac:(lia)).
  apply Z.mod_divide in Hm; [|lia]. apply Z.mod_divide; [lia|]. etransitivity; [|exact Hm].
  exists (2 ^ (b - a)). rewrite <- Z.pow_add_r by lia. f_equal. lia.
Qed.

(** An iterator that still has the ports from [s] to [e] to yield. *)
Definition at_ports (s e : Z) (it : PortPrefixIter) : Prop :=
  (s <= e /\ it = mkIter s e) \/ (s = e + 1 /\ it_end it < it_start it).

(** [p] is the block of ports from [s] up to [s']. *)
Definition block (p : PortPrefix) (s s' : Z) : Prop :=
  pfx_ok p /\ s < s' /\ forall x, port_ok x -> covers p x = true <-> s <= x < s'.

Lemma leading_zeros_log n : 0 < n <= U16_MAX -> (16 - leading_zeros16 n - 1)%nat = Z.to_nat (Z.log2 n) /\ Z.log2 n <= 15.
Proof.
  unfold U16_MAX. intros Hn. unfold leading_zeros16. rewrite decide_False by lia.
  assert (Z.log2 n <= 15) by (apply (Z.log2_le_mono n 65535); lia). pose proof (Z.log2_nonneg n). lia.
Qed.

(** The start of an unfinished iteration is not the last port: the case the code tells apart
    is the one where the addition saturates. *)
Lemma not_last s j e :
  0 <= j -> s mod 2 ^ j = 0 -> s + 2 ^ j <= e <= U16_MAX ->
  j = Z.log2 (e - s + 1) \/ (s + 2 ^ j) mod 2 ^ (j + 1) = 0 -> s + 2 ^ j <> U16_MAX.
Proof.
  unfold U16_MAX. intros Hj Hm Hle Hk E. assert (e = 65535) as -> by lia.
  assert (Hodd : forall n, 1 <= n -> 65535 mod 2 ^ n = 0 -> False).
  { intros n Hn H. apply (mod_pow_le _ 1) in H; [done|lia]. }
  destruct Hk as [Hk|Hk]; [|rewrite E in Hk; by apply (Hodd (j + 1)); [lia|]].
  destruct (decide (j = 0)) as [->|]; [|apply (Hodd j); [lia|]].
  - assert (s = 65534) as -> by lia. done.
  - rewrite <- E, Z.add_mod, Hm, Z.mod_same by lia. done.
Qed.

Lemma next_block_le s k j : 0 <= j -> s mod 2 ^ k = 0 -> (s + 2 ^ j) mod 2 ^ (j + 1) = 0 -> k <= j.
Proof.
  intros Hj Hm Hn. destruct (Z.le_gt_cases k j) as [|Hk]; [done|exfalso]. apply (mod_pow_le s (j + 1)) in Hm; [|lia].
  pose proof (Z.pow_pos_nonneg 2 j ltac:(lia) ltac:(lia)). rewrite Z.add_mod, Hm, Z.pow_add_r in Hn by lia.
  change (2 ^ 1) with 2 in Hn. rewrite Z.add_0_l, Z.mod_mod, Z.mod_small in Hn by lia. lia.
Qed.

Lemma at_ports_next s j e :
  0 <= j -> 0 <= s -> s mod 2 ^ j = 0 -> s + 2 ^ j <= e + 1 -> e <= U16_MAX ->
  j = Z.log2 (e - s + 1) \/ (s + 2 ^ j) mod 2 ^ (j + 1) = 0 ->
  let start := sat_add (s + 2 ^ j - 1) 1 in at_ports (s + 2 ^ j) e (mkIter start (if decide (start = U16_MAX) then 0 else e)).
Proof.
  intros Hj Hs Hm Hle He Hk. cbv zeta. unfold at_ports. cbn [it_start it_end].
  assert (sat_add (s + 2 ^ j - 1) 1 = Z.min (s + 2 ^ j) U16_MAX) as -> by (unfold sat_add; lia).
  pose proof (Z.pow_pos_nonneg 2 j ltac:(lia) Hj). destruct (decide (s + 2 ^ j <= e)) as [Hlt|Hlt].
  - left. pose proof (not_last s j e Hj Hm ltac:(lia) Hk). rewrite decide_False by lia. split; [lia|]. f_equal. lia.
  - right. split; [lia|]. case_decide; unfold U16_MAX in *; lia.
Qed.

(** A call yields the largest block that starts at [s] and fits. *)
Lemma iter_step s e :
  0 <= s < e -> e <= U16_MAX -> e - s < 65534 ->
  exists j p it, iter_next (mkIter s e) = Done (Some p, it) /\ 0 <= j <= 15 /\ block p s (s + 2 ^ j) /\
    at_ports (s + 2 ^ j) e it /\ s mod 2 ^ j = 0 /\ s + 2 ^ j <= e + 1 /\
    (j = Z.log2 (e - s + 1) \/ (s + 2 ^ j) mod 2 ^ (j + 1) = 0).
Proof.
  intros Hse He Hr. unfold iter_next. cbn [it_start it_end]. rewrite (proj2 (Z.compare_lt_iff s e)) by lia.
  assert (sat_add (sat_sub e s) 1 = e - s + 1) as -> by (unfold sat_add, sat_sub, U16_MAX in *; lia).
  rewrite decide_False by (unfold U16_MAX in *; lia). cbv zeta.
  destruct (leading_zeros_log (e - s + 1)) as [-> Hl]; [unfold U16_MAX in *; lia|].
  assert (Hs : port_ok s) by (unfold port_ok, U16_MAX in *; lia).
  pose proof (Z.log2_nonneg (e - s + 1)). destruct (Z.log2_spec (e - s + 1)) as [Hlo _]; [lia|].
  destruct (trailing_zeros16_spec s Hs) as (Ht & Htm & Hnext). set (t := trailing_zeros16 s) in *.
  set (j := Nat.min (Z.to_nat (Z.log2 (e - s + 1))) t).
  assert (Hm : s mod 2 ^ Z.of_nat j = 0) by (apply (mod_pow_le s (Z.of_nat j) (Z.of_nat t)); [lia|done]).
  assert (Hfit : s + 2 ^ Z.of_nat j <= e + 1).
  { assert (2 ^ Z.of_nat j <= 2 ^ Z.log2 (e - s + 1)) by (apply Z.pow_le_mono_r; lia). lia. }
  pose proof (Z.pow_pos_nonneg 2 (Z.of_nat j) ltac:(lia) ltac:(lia)).
  destruct (from_pfx_spec s j Hs ltac:(lia) Hm) as (p & -> & Hp & E & Hc). cbn [mbind outcome_bind]. rewrite E. cbn [mbind outcome_bind].
  assert (Hk : Z.of_nat j = Z.log2 (e - s + 1) \/ (s + 2 ^ Z.of_nat j) mod 2 ^ (Z.of_nat j + 1) = 0).
  { destruct (decide (Z.log2 (e - s + 1) <= Z.of_nat t)); [left; lia|right]. destruct Hnext as [|Hn]; [lia|]. by replace j with t by lia. }
  exists (Z.of_nat j), p. eexists. split; [reflexivity|].
  split; [lia|]. split; [by split_and!; [done|lia|]|]. split; [apply at_ports_next; (lia || done)|done].
Qed.

(** Blocks one after the other, from [s] to [e]. *)
Inductive tiles (e : Z) : Z -> list PortPrefix -> Prop :=
| tiles_nil : tiles e (e + 1) []
| tiles_cons s s' p l : block p s s' -> tiles e s' l -> tiles e s (p :: l).

Lemma iter_done fuel s e it : at_ports s e it -> e < s -> (0 < fuel)%nat -> exists l, iter_all fuel it = Done l /\ tiles e s l.
Proof.
  intros [[? _]|[-> Hit]] Hlt Hf; [lia|]. destruct fuel as [|fuel]; [lia|]. cbn [iter_all]. unfold iter_next.
  rewrite (proj2 (Z.compare_gt_iff _ _)) by lia. cbn [mbind outcome_bind]. eexists. split; [done|constructor].
Qed.

Lemma iter_one fuel s it :
  port_ok s -> at_ports s s it -> (1 < fuel)%nat -> exists l, iter_all fuel it = Done l /\ tiles s s l.
Proof.
  intros Hs [[_ ->]|[? _]] Hf; [|lia]. destruct fuel as [|[|fuel]]; [lia..|]. cbn [iter_all].
  assert (iter_next (mkIter s s) = Done (Some (Singleton s), mkIter 1 0)) as -> by (unfold iter_next; cbn [it_start it_end]; by rewrite Z.compare_refl).
  cbn. eexists. split; [done|]. econstructor; [|constructor]. split_and!; [done|lia|].
  intros x Hx. cbn [covers]. rewrite Z.eqb_eq. lia.
Qed.

(** One call, then the rest. *)
Lemma iter_cons fuel s e it :
  at_ports s e it -> 0 <= s < e -> e <= U16_MAX -> e - s < 65534 ->
  exists j it', 0 <= j <= 15 /\ at_ports (s + 2 ^ j) e it' /\ s mod 2 ^ j = 0 /\ s + 2 ^ j <= e + 1 /\
    (j = Z.log2 (e - s + 1) \/ (s + 2 ^ j) mod 2 ^ (j + 1) = 0) /\
    ((exists l, iter_all fuel it' = Done l /\ tiles e (s + 2 ^ j) l) -> exists l, iter_all (S fuel) it = Done l /\ tiles e s l).
Proof.
  intros [[_ ->]|[? _]] Hs He Hr; [|lia]. destruct (iter_step s e Hs He Hr) as (j & p & it' & E & Hj & Hb & Hat & Hm & Hle & Hk).
  exists j, it'. split_and!; [lia|lia|done|done|done|done|]. intros (l & El & Ht). cbn [iter_all]. rewrite E. cbn [mbind outcome_bind]. rewrite El.
  eexists. split; [done|]. by econstructor.
Qed.

(** The start is a multiple of a block larger than the rest: the blocks shrink. *)
Lemma iter_shrink k fuel s e it :
  at_ports s e it -> 0 <= s <= e + 1 -> e <= U16_MAX -> e - s < 65534 ->
  s mod 2 ^ Z.of_nat k = 0 -> e - s + 1 < 2 ^ Z.of_nat k -> (k < fuel)%nat ->
  exists l, iter_all fuel it = Done l /\ tiles e s l.
Proof.
  revert fuel s it. induction k as [k IH] using lt_wf_ind. intros fuel s it Hat Hs He Hr Hm Hn Hf.
  destruct (decide (e < s)) as [|Hse]; [apply (iter_done fuel s e it); [done|lia..]|].
  destruct k as [|k']; [change (2 ^ Z.of_nat 0) with 1 in Hn; lia|]. set (k := S k') in *.
  destruct (decide (s = e)) as [->|]; [apply iter_one; [unfold port_ok; lia|done|lia]|].
  destruct fuel as [|fuel]; [lia|]. destruct (iter_cons fuel s e it Hat) as (j & it' & Hj & Hat' & Hjm & Hle & Hk & Hdone); [lia..|].
  assert (Hjk : j < Z.of_nat k) by (apply (Z.pow_lt_mono_r_iff 2); lia).
  destruct Hk as [Hk|Hk].
  2: { pose proof (next_block_le s (Z.of_nat k) j ltac:(lia) Hm Hk). lia. }
  pose proof (Z.log2_spec (e - s + 1) ltac:(lia)) as [_ Hl]. rewrite <- Hk, Z.pow_succ_r in Hl by lia.
  apply Hdone. apply (IH (Z.to_nat j)); rewrite ?Z2Nat.id by lia; [lia|done|lia..| |lia|lia].
  rewrite Z.add_mod, Hjm, Z.mod_same by lia. done.
Qed.

(** The start is a multiple of a block: the blocks grow while they fit. *)
Lemma iter_grow d k fuel s e it :
  (16 <= k + d)%nat -> (k <= 16)%nat ->
  at_ports s e it -> 0 <= s <= e + 1 -> e <= U16_MAX -> e - s < 65534 ->
  s mod 2 ^ Z.of_nat k = 0 -> (d + 18 < fuel)%nat ->
  exists l, iter_all fuel it = Done l /\ tiles e s l.
Proof.
  revert k fuel s it. induction d as [|d IH]; intros k fuel s it Hd Hk16 Hat Hs He Hr Hm Hf.
  - replace k with 16%nat in * by lia. apply (iter_shrink 16 fuel); (done || change (2 ^ Z.of_nat 16) with 65536; lia).
  - destruct (decide (e < s)) as [|Hse]; [apply (iter_done fuel s e it); [done|lia..]|].
    destruct (decide (s = e)) as [->|]; [apply iter_one; [unfold port_ok; lia|done|lia]|].
    destruct fuel as [|fuel]; [lia|]. destruct (iter_cons fuel s e it Hat) as (j & it' & Hj & Hat' & Hjm & Hle & Hk & Hdone); [lia..|].
    apply Hdone. pose proof (Z.pow_pos_nonneg 2 j ltac:(lia) ltac:(lia)). destruct Hk as [Hk|Hk].
    + pose proof (Z.log2_spec (e - s + 1) ltac:(lia)) as [_ Hl]. rewrite <- Hk, Z.pow_succ_r in Hl by lia.
      apply (iter_shrink (Z.to_nat j)); rewrite ?Z2Nat.id by lia; [done|lia..| |lia|lia].
      rewrite Z.add_mod, Hjm, Z.mod_same by lia. done.
    + pose proof (next_block_le s (Z.of_nat k) j ltac:(lia) Hm Hk).
      apply (IH (Z.to_nat (j + 1))); rewrite ?Z2Nat.id by lia; (done || lia).
Qed.

Lemma tiles_le e s l : tiles e s l -> s <= e + 1.
Proof. induction 1 as [|s s' p l (_ & Hlt & _) _ IH]; lia. Qed.

Lemma tiles_cover e s l x : tiles e s l -> port_ok x -> (exists p, p ∈ l /\ covers p x = true) <-> s <= x <= e.
Proof.
  intros Ht Hx. induction Ht as [|s s' p l (_ & Hlt & Hc) Ht IH].
  - split; [|lia]. by intros (p & Hp%not_elem_of_nil & _).
  - apply tiles_le in Ht. split.
    + intros (q & [->|Hq]%elem_of_cons & Hq'); [apply (Hc x Hx) in Hq'; lia|]. assert (s' <= x <= e) by (apply IH; eauto). lia.
    + intros Hs. destruct (decide (x < s')).
      * exists p. split; [set_solver|]. apply Hc; [done|lia].
      * destruct (proj2 IH) as (q & Hq & Hq'); [lia|]. exists q. split; [set_solver|done].
Qed.

Lemma tiles_once e s l x p q :
  tiles e s l -> port_ok x -> p ∈ l -> q ∈ l -> covers p x = true -> covers q x = true -> p = q.
Proof.
  intros Ht Hx. induction Ht as [|s s' r l (_ & Hlt & Hc) Ht IH]; [by intros ?%not_elem_of_nil|].
  assert (Hex : forall p', p' ∈ l -> covers p' x = true -> covers r x = true -> False).
  { intros p' Hp' Hp1 Hr%Hc; [|done]. assert (s' <= x <= e) by (apply (tiles_cover e s' l x Ht Hx); eauto). lia. }
  intros [->|Hp]%elem_of_cons [->|Hq]%elem_of_cons Hcp Hcq; [done|exfalso; eauto..|by apply IH].
Qed.

Lemma tiles_ok e s l : 0 <= s -> e <= U16_MAX -> tiles e s l -> Forall pfx_ok l /\ NoDup l.
Proof.
  intros Hs He Ht. induction Ht as [|s s' p l (Hp & Hlt & Hc) Ht IH]; [split; constructor|].
  destruct IH as [IH1 IH2]; [lia|]. pose proof (tiles_le e s' l Ht). split; constructor; [done..| |done]. intros Hin.
  assert (Hso : port_ok s) by (unfold port_ok; lia). assert (s' <= s <= e); [|lia].
  apply (tiles_cover e s' l s Ht Hso). exists p. split; [done|]. apply Hc; [done|lia].
Qed.

(** The ports of a range as the iteration takes it: a range of 65535 ports stands for all
    65536. *)
Definition admits (ports : Z * Z) (x : Z) : Prop := snd ports - fst ports = 65534 \/ fst ports <= x <= snd ports.

Lemma iter_all_length fuel it l : iter_all fuel it = Done l -> (length l < fuel)%nat.
Proof.
  revert it l. induction fuel as [|fuel IH]; intros it l; cbn [iter_all]; [done|].
  destruct (iter_next it) as [[[p|] it']|]; cbn [mbind outcome_bind]; [|intros [= <-]; simpl; lia|done].
  destruct (iter_all fuel it') as [l'|] eqn:E; cbn [mbind outcome_bind]; [|done]. intros [= <-]. apply IH in E. simpl. lia.
Qed.

Lemma iter_whole s e : port_ok s -> port_ok e -> 65534 <= e - s -> iter_prefixes (s, e) = Done [Prefix 1].
Proof.
  unfold port_ok, U16_MAX. intros Hs He Hr. unfold iter_prefixes. cbn [fst snd].
  assert (iter_next (mkIter s e) = Done (Some (Prefix 1), mkIter 1 0)) as H.
  { unfold iter_next. cbn [it_start it_end]. rewrite (proj2 (Z.compare_lt_iff s e)) by lia.
    rewrite decide_True by (unfold sat_add, sat_sub, U16_MAX; lia). reflexivity. }
  cbn [iter_all]. rewrite H. reflexivity.
Qed.

Lemma iter_tiles s e : port_ok s -> port_ok e -> s <= e -> e - s < 65534 -> exists l, iter_prefixes (s, e) = Done l /\ tiles e s l.
Proof.
  intros Hs He Hle Hr. unfold port_ok in *. apply (iter_grow 16 0); unfold at_ports; try lia. by left.
Qed.

Lemma iter_empty s e : e < s -> iter_prefixes (s, e) = Done [].
Proof.
  intros Hlt. unfold iter_prefixes. cbn [iter_all fst snd]. unfold iter_next. cbn [it_start it_end].
  by rewrite (proj2 (Z.compare_gt_iff s e)) by lia.
Qed.

Lemma iter_prefixes_spec s e :
  port_ok s -> port_ok e ->
  exists l, iter_prefixes (s, e) = Done l /\ Forall pfx_ok l /\ NoDup l /\
    (forall x, port_ok x -> (exists p, p ∈ l /\ covers p x = true) <-> admits (s, e) x) /\
    (forall x p q, port_ok x -> p ∈ l -> q ∈ l -> covers p x = true -> covers q x = true -> p = q).
Proof.
  intros Hs He. unfold admits. cbn [fst snd]. destruct (Z.lt_ge_cases e s) as [Hlt|Hge]; [|destruct (decide (e - s < 65534)) as [Hr|Hr]].
  - rewrite iter_empty by done. eexists. split_and!; [done|constructor|constructor| |set_solver].
    intros x Hx. split; [by intros (p & Hp%not_elem_of_nil & _)|]. lia.
  - destruct (iter_tiles s e Hs He Hge Hr) as (l & -> & Ht). unfold port_ok in Hs, He.
    destruct (tiles_ok e s l ltac:(lia) ltac:(lia) Ht) as [H1 H2].
    eexists. split_and!; [done..| |intros x p q Hx; by apply (tiles_once e s)].
    intros x Hx. rewrite (tiles_cover e s l x Ht Hx). lia.
  - rewrite iter_whole by (done || lia). eexists. split_and!; [done|repeat constructor; cbn; lia|repeat constructor; set_solver| |].
    + intros x Hx. split; [|intros _; exists (Prefix 1); split; [set_solver|done]]. intros _. unfold port_ok, U16_MAX in *. lia.
    + intros x p q _ Hp Hq _ _. set_solver.
Qed.

(** The prefixes of a range. *)
Definition range_ok (ports : Z * Z) : Prop := port_ok (fst ports) /\ port_ok (snd ports).

Definition pfxs_of (ports : Z * Z) : list PortPrefix := match iter_prefixes ports with Done l => l | Panic => [] end.

Lemma pfxs_of_admits ports x :
  range_ok ports -> port_ok x -> (exists p, p ∈ pfxs_of ports /\ pfx_ok p /\ covers p x = true) <-> admits ports x.
Proof.
  destruct ports as [s e]. intros [Hs He] Hx. destruct (iter_prefixes_spec s e Hs He) as (l & E & Hok & _ & Hc & _).
  unfold pfxs_of. rewrite E, <- Hc by done. rewrite Forall_forall in Hok. naive_solver.
Qed.

(** ** The trie as a finite map *)

Section Trie.
Context {T : Type}.
Implicit Types t : PortTrie T.

Record trie_wf t : Prop := {
  wf_prefixes : Array256.wf (prefixes t);
  wf_children : Array256.wf (children t);
  wf_child hi c : Array256.amap (children t) !! hi = Some c -> Array256.wf (child_prefixes c);
}.

Definition tget t (p : PortPrefix) : option T :=
  match p with
  | Prefix i => Array256.amap (prefixes t) !! i
  | ChildPrefix hi lo => c ← Array256.amap (children t) !! hi; Array256.amap (child_prefixes c) !! lo
  | Singleton q => singletons t !! q
  end.

Abbreviation Closure := (option T -> IpTrie.RouteModification (T := T) * option T).

Lemma trie_wf_EMPTY : trie_wf EMPTY.
Proof. split; [apply Array256.array_wf_EMPTY..|]. intros hi c. cbn [children EMPTY]. by rewrite Array256.amap_EMPTY. Qed.

Lemma tget_EMPTY p : tget EMPTY p = None.
Proof. destruct p; cbn [tget prefixes children singletons EMPTY]; by rewrite ?Array256.amap_EMPTY. Qed.

Lemma modify_array_spec (a : Array256.Array256 T) i (f : Closure) :
  Array256.wf a -> (i < 256)%nat ->
  exists a', modify_array a i f = Done a' /\ Array256.wf a' /\
    forall k, Array256.amap a' !! k = if decide (k = i) then snd (apply_mod f (Array256.amap a !! i)) else Array256.amap a !! k.
Proof.
  intros Hw Hi. unfold modify_array. rewrite Array256.get_spec by done. cbn [mbind outcome_bind]. unfold apply_mod.
  destruct (f (Array256.amap a !! i)) as [decision written] eqn:Ef.
  set (o := match Array256.amap a !! i, written with Some _, Some w => Some w | _, _ => Array256.amap a !! i end).
  assert (exists a1, match Array256.amap a !! i, written with
      | Some _, Some w => o ← Array256.get_mut_set a i w; unwrap o | _, _ => mret a end = Done a1 /\ Array256.wf a1 /\
      forall k, Array256.amap a1 !! k = if decide (k = i) then o else Array256.amap a !! k) as (a1 & -> & Hw1 & Ha1).
  { subst o. pose proof (Array256.get_mut_set_spec a i) as Hset. destruct (Array256.amap a !! i) as [v|] eqn:Ev; [destruct written as [w|]|].
    - destruct (Hset w Hw Hi) as (a1 & -> & Hw1 & Ha1). exists a1. split_and!; [done..|]. intros k. rewrite Ha1, lookup_insert. by repeat case_decide; simplify_eq.
    - exists a. split_and!; [done..|]. intros k. by case_decide; subst.
    - exists a. split_and!; [done..|]. intros k. by case_decide; subst. }
  cbn [mbind outcome_bind]. destruct decision as [v| |].
  - destruct (Array256.insert_spec a1 i v Hw1 Hi) as (a2 & -> & Hw2 & Ha2). exists a2. split_and!; [done..|]. intros k.
    rewrite Ha2, lookup_insert, Ha1. by repeat case_decide; simplify_eq.
  - destruct (Array256.remove_spec a1 i Hw1 Hi) as (a2 & -> & Hw2 & Ha2). exists a2. split_and!; [done..|]. intros k.
    rewrite Ha2, lookup_delete, Ha1. by repeat case_decide; simplify_eq.
  - by exists a1.
Qed.

(** A child's array replaced. *)
Lemma tget_child t c hi a :
  Array256.amap c = <[hi := mkChild a]> (Array256.amap (children t)) ->
  forall q, tget (mkTrie (prefixes t) c (singletons t)) q =
    match q with
    | ChildPrefix h l => if decide (h = hi) then Array256.amap a !! l else tget t q
    | _ => tget t q
    end.
Proof.
  intros E [j|h l|y]; cbn [tget prefixes children singletons]; [done| |done]. rewrite E, lookup_insert.
  by repeat case_decide; simplify_eq.
Qed.

Lemma child_wf t c hi a :
  trie_wf t -> Array256.wf c -> Array256.wf a -> Array256.amap c = <[hi := mkChild a]> (Array256.amap (children t)) ->
  trie_wf (mkTrie (prefixes t) c (singletons t)).
Proof.
  intros [Hp Hc Hch] Hwc Hwa E. split; [done..|]. cbn [children]. intros h ch. rewrite E, lookup_insert.
  case_decide; [by intros [= <-]|apply Hch].
Qed.

Lemma modify_child_spec t hi lo (f : Closure) :
  trie_wf t -> (hi < 256)%nat -> (lo < 256)%nat ->
  exists t', modify_prefix t (ChildPrefix hi lo) f = Done t' /\ trie_wf t' /\
    forall q, tget t' q = if decide (q = ChildPrefix hi lo) then snd (apply_mod f (tget t (ChildPrefix hi lo))) else tget t q.
Proof.
  intros Hwf Hhi Hlo. pose proof Hwf as [Hp Hc Hch]. cbn [modify_prefix]. rewrite Array256.test_eq by done. cbn [mbind outcome_bind].
  rewrite Array256.amap_occupied by done. cbn [tget]. destruct (Array256.amap (children t) !! hi) as [child|] eqn:Ec; cbn [mbind option_bind].
  - rewrite bool_decide_eq_true_2 by done. cbn [negb]. rewrite Array256.get_spec by done. rewrite Ec. cbn [mbind outcome_bind unwrap].
    destruct (modify_array_spec (child_prefixes child) lo f (Hch _ _ Ec) Hlo) as (a & -> & Hwa & Ha). cbn [mbind outcome_bind].
    pose proof (Array256.get_mut_set_spec (children t) hi (mkChild a) Hc Hhi) as Hset. rewrite Ec in Hset.
    destruct Hset as (c & -> & Hwc & Hca). cbn [mbind outcome_bind unwrap]. eexists. split; [done|]. split; [by eapply child_wf|].
    intros q. rewrite (tget_child t c hi a Hca). destruct q as [j|h l|y]; [by rewrite decide_False..| |by rewrite decide_False].
    destruct (decide (h = hi)) as [->|]; [|by rewrite decide_False by congruence]. rewrite Ha. cbn [tget]. rewrite Ec. cbn [mbind option_bind].
    by repeat case_decide; simplify_eq.
  - rewrite bool_decide_eq_false_2 by (by intros []). cbn [negb]. unfold apply_mod. destruct (f None) as [decision written]. cbn [fst].
    destruct decision as [v| |]; cbn [snd].
    + destruct (Array256.extend_spec Array256.EMPTY [(lo, v)]) as (a & Ea & Hwa & Haa); [apply Array256.array_wf_EMPTY|by apply Forall_cons; split; [|apply Forall_nil]|].
      unfold Array256.from_iter. rewrite Ea. cbn [mbind outcome_bind foldl] in *. rewrite Array256.amap_EMPTY in Haa.
      destruct (Array256.insert_spec (children t) hi (mkChild a) Hc Hhi) as (c & -> & Hwc & Hca). cbn [mbind outcome_bind].
      eexists. split; [done|]. split; [by eapply child_wf|]. intros q. rewrite (tget_child t c hi a Hca).
      destruct q as [j|h l|y]; [by rewrite decide_False..| |by rewrite decide_False].
      destruct (decide (h = hi)) as [->|]; [|by rewrite decide_False by congruence]. rewrite Haa, lookup_insert. cbn [tget]. rewrite Ec.
      by repeat case_decide; simplify_eq.
    + exists t. split_and!; [done..|]. intros q. case_decide; [subst; cbn [tget]; by rewrite Ec|done].
    + exists t. split_and!; [done..|]. intros q. case_decide; [subst; cbn [tget]; by rewrite Ec|done].
Qed.

Lemma modify_prefix_spec t p (f : Closure) :
  trie_wf t -> pfx_ok p ->
  exists t', modify_prefix t p f = Done t' /\ trie_wf t' /\
    forall q, tget t' q = if decide (q = p) then snd (apply_mod f (tget t p)) else tget t q.
Proof.
  intros [Hp Hc Hch] Hok. destruct p as [i|hi lo|x]; cbn [modify_prefix pfx_ok] in *.
  - destruct (modify_array_spec (prefixes t) i f Hp ltac:(lia)) as (a & -> & Hw & Ha). cbn [mbind outcome_bind].
    eexists. split; [done|]. split; [by split|]. intros [j|h l|y]; cbn [tget prefixes children singletons]; [|by rewrite decide_False..].
    rewrite Ha. by repeat case_decide; simplify_eq.
  - apply modify_child_spec; [by split|lia..].
  - unfold apply_mod. cbn [tget]. destruct (f (singletons t !! x)) as [decision written].
    eexists. split; [done|]. split; [by split|]. intros [j|h l|y]; cbn [tget prefixes children singletons]; [by rewrite decide_False..|].
    destruct (decide (y = x)) as [->|]; [rewrite decide_True by done|rewrite decide_False by congruence];
      destruct decision; destruct (singletons t !! x) eqn:E, written;
      rewrite ?lookup_insert_eq, ?lookup_delete_eq, ?lookup_insert_ne, ?lookup_delete_ne, ?lookup_insert_ne by done; done.
Qed.

Lemma modify_all_spec l t (f : Closure) :
  trie_wf t -> Forall pfx_ok l -> NoDup l ->
  exists t', modify_all t l f = Done t' /\ trie_wf t' /\
    forall q, tget t' q = if decide (q ∈ l) then snd (apply_mod f (tget t q)) else tget t q.
Proof.
  intros Hwf Hok Hnd. revert t Hwf Hok. induction Hnd as [|p l Hp Hnd IH]; intros t Hwf Hok.
  - exists t. split_and!; [done..|]. intros q. by rewrite decide_False by apply not_elem_of_nil.
  - apply Forall_cons in Hok as [Hpok Hok]. cbn [modify_all].
    destruct (modify_prefix_spec t p f Hwf Hpok) as (t1 & -> & Hw1 & Hg1). cbn [mbind outcome_bind].
    destruct (IH t1 Hw1 Hok) as (t2 & -> & Hw2 & Hg2). exists t2. split_and!; [done..|]. intros q. rewrite Hg2, !Hg1.
    destruct (decide (q = p)) as [->|]; [rewrite decide_False, decide_True by set_solver; done|].
    destruct (decide (q ∈ l)); [by rewrite decide_True by set_solver|by rewrite decide_False by set_solver].
Qed.
Lemma modify_spec t ports (f : Closure) :
  trie_wf t -> range_ok ports ->
  exists t', modify t ports f = Done t' /\ trie_wf t' /\
    forall q, tget t' q = if decide (q ∈ pfxs_of ports) then snd (apply_mod f (tget t q)) else tget t q.
Proof.
  intros Hwf [Hs He]. destruct ports as [s e]. destruct (iter_prefixes_spec s e Hs He) as (l & E & Hok & Hnd & _).
  unfold modify, pfxs_of. rewrite E. cbn [mbind outcome_bind]. by apply modify_all_spec.
Qed.

(** ** Lookups *)

(** The prefixes of an octet, as the longest-match set holds them. *)
Lemma octet_prefixes o j :
  (exists l, (l <= 7)%nat /\ j = idx (take l (take 7 (octet_bits o)))) <-> (0 < j < 256)%nat /\ prefixb (key_of j) (octet_bits o) = true.
Proof.
  split.
  - intros (l & Hl & ->). rewrite take_take, Nat.min_l by done.
    assert (Hk : (length (take l (octet_bits o)) < 8)%nat) by (rewrite length_take, octet_bits_length; lia).
    pose proof (idx_pos (take l (octet_bits o))). pose proof (idx_lt _ 8 Hk). change (2 ^ 8)%nat with 256%nat in *.
    split; [lia|]. rewrite key_of_idx, prefixb_spec by done. apply bool_decide_eq_true_2, prefix_take.
  - intros [Hj Hp]. destruct (idx_key_of j Hj) as [Ej Hl]. rewrite prefixb_spec in Hp. apply bool_decide_eq_true_1 in Hp as [k Ek].
    exists (length (key_of j)). split; [lia|]. rewrite take_take, Nat.min_l by lia. by rewrite Ek, take_app_length.
Qed.

Lemma get_all_spec (a : Array256.Array256 T) bits :
  Array256.wf a -> Forall (fun i => (i < 256)%nat) bits -> get_all a bits = Done (omap (fun i => Array256.amap a !! i) bits).
Proof.
  intros Hw Hb. induction Hb as [|i bits Hi _ IH]; [done|]. cbn [get_all]. rewrite Array256.get_spec by done. cbn [mbind outcome_bind].
  rewrite IH. cbn [mbind outcome_bind]. cbn [omap list_omap]. by destruct (Array256.amap a !! i).
Qed.

Lemma octet_matches_spec (a : Array256.Array256 T) o :
  Array256.wf a -> (o < 256)%nat ->
  exists vs, octet_matches a o = Done vs /\
    forall v, v ∈ vs <-> exists i, (0 < i < 256)%nat /\ prefixb (key_of i) (octet_bits o) = true /\ Array256.amap a !! i = Some v.
Proof.
  intros Hw Ho. unfold octet_matches. rewrite from_pfx_7_spec by done. cbn [mbind outcome_bind].
  destruct (lpm_spec (take 7 (octet_bits o))) as (s & -> & Hws & Hls & Hms); [rewrite length_take, octet_bits_length; lia|].
  cbn [mbind outcome_bind]. pose proof (Bitset.wf_intersect _ _ Hws (Array256.wf_words _ Hw)) as Hwi.
  assert (Hm : forall i, i ∈ Bitset.bits (Bitset.intersect_inplace s (Array256.bitset a)) <->
    ((0 < i < 256)%nat /\ prefixb (key_of i) (octet_bits o) = true) /\ is_Some (Array256.amap a !! i)).
  { intros i. rewrite Bitset.bits_spec, Bitset.members_spec by done. rewrite Bitset.mem_intersect by (rewrite Hls; symmetry; apply Hw).
    rewrite andb_true_iff, Hms, length_take, octet_bits_length. change (7 `min` 8)%nat with 7%nat. rewrite octet_prefixes.
    by rewrite <- Bitset.members_spec, Array256.members_amap. }
  rewrite get_all_spec; [|done|apply Forall_forall; intros i Hi; apply Hm in Hi; lia].
  eexists. split; [done|]. intros v. rewrite list_elem_of_omap. split.
  - intros (i & [[? ?] ?]%Hm & ?). eauto.
  - intros (i & ? & ? & Hv). exists i. split; [|done]. apply Hm. eauto.
Qed.

Lemma lookup_spec t x :
  trie_wf t -> port_ok x ->
  exists vs, lookup t x = Done vs /\ forall v, v ∈ vs <-> exists p, pfx_ok p /\ covers p x = true /\ tget t p = Some v.
Proof.
  intros [Hp Hc Hch] Hx. destruct (bytes_lt x Hx) as [Bh Bl]. unfold lookup, prefix_matches, child_matches.
  destruct (octet_matches_spec (prefixes t) (hi_byte x) Hp Bh) as (va & -> & Ha). cbn [mbind outcome_bind].
  rewrite Array256.get_spec by done. cbn [mbind outcome_bind].
  assert (exists vb, match Array256.amap (children t) !! hi_byte x with None => mret [] | Some child => child_lookup child x end = Done vb /\
    forall v, v ∈ vb <-> exists lo c, Array256.amap (children t) !! hi_byte x = Some c /\ (0 < lo < 256)%nat /\
      prefixb (key_of lo) (octet_bits (lo_byte x)) = true /\ Array256.amap (child_prefixes c) !! lo = Some v) as (vb & -> & Hb).
  { destruct (Array256.amap (children t) !! hi_byte x) as [c|] eqn:Ec.
    - destruct (octet_matches_spec (child_prefixes c) (lo_byte x) (Hch _ _ Ec) Bl) as (vb & E & Hb). exists vb. split; [done|].
      intros v. rewrite Hb. split; [intros (i & ? & ? & ?); exists i, c; done|]. intros (i & c' & [= <-] & ?). by exists i.
    - exists []. split; [done|]. intros v. split; [by intros ?%not_elem_of_nil|]. by intros (? & ? & ? & _). }
  cbn [mbind outcome_bind]. eexists. split; [done|]. intros v. rewrite !elem_of_app, Ha, Hb.
  assert (v ∈ option_list (singletons t !! x) <-> singletons t !! x = Some v) as -> by (destruct (singletons t !! x); set_solver). split.
  - intros [(i & Hi & Hpf & Hv)|[(lo & c & Ec & Hlo & Hpf & Hv)|Hv]].
    + by exists (Prefix i).
    + exists (ChildPrefix (hi_byte x) lo). split_and!; cbn [pfx_ok covers tget]; [lia..|by rewrite Nat.eqb_refl|by rewrite Ec].
    + exists (Singleton x). split_and!; cbn [covers]; [done|apply Z.eqb_refl|done].
  - intros ([i|hi lo|y] & Hok & Hcov & Hv); cbn [pfx_ok covers tget] in *.
    + left. by exists i.
    + right. left. apply andb_true_iff in Hcov as [->%Nat.eqb_eq Hcov]. apply bind_Some in Hv as (c & Ec & Hv). exists lo, c. split_and!; (done || lia).
    + right. right. apply Z.eqb_eq in Hcov as ->. done.
Qed.

End Trie.

(** ** Main theorems *)

(** C32: iterating over the prefixes of a port range ends, within 40 calls, without a panic:
    the prefixes are distinct and well formed, no port is under two of them, and the ports
    under them are those of the range, except that a range of exactly 65535 ports yields
    the prefix of all 65536. *)
Theorem iter_prefixes_cover (s e : Z) :
  port_ok s -> port_ok e ->
  exists l, iter_prefixes (s, e) = Done l /\ (length l < 40)%nat /\ NoDup l /\
    (forall x, port_ok x -> (exists p, p ∈ l /\ covers p x = true) <-> e - s = 65534 \/ s <= x <= e) /\
    (forall x p q, port_ok x -> p ∈ l -> q ∈ l -> covers p x = true -> covers q x = true -> p = q).
Proof.
  intros Hs He. destruct (iter_prefixes_spec s e Hs He) as (l & E & _ & Hnd & Hc & Hu). exists l. split_and!; [done| |done..].
  by apply (iter_all_length 40 (mkIter s e)).
Qed.

Lemma iter_prefixes_cover_witness :
  exists l, iter_prefixes (1, 65535) = Done l /\ exists p, p ∈ l /\ covers p 0 = true.
Proof.
  destruct (iter_prefixes_cover 1 65535) as (l & E & _ & _ & Hc & _); [by split..|]. exists l. split; [done|].
  apply Hc; [by split|]. by left.
Defined.

End PortTrieSpec.
