(* ===== verification/CapLookup.v ===== *)
(** * Lookup of capabilities (ts_bart_packetfilter/src/cap_lookup.rs)

    Rules by the names of the capabilities they accept: names have numbers, numbers index a
    vector of sets of rules, and free numbers are reused.  The lookup refines a relation
    between names and rules. *)

From S2P Require Import Prelude Bitset DynBitset IdSets.
Import DynBitset IdSets.

Module CapLookup.

Record CapLookup : Type := mkCaps {
  ids : gmap string nat;
  caps_to_rules : list (option IdSet);
  freelist : IdSet;
}.

Definition default : CapLookup := mkCaps ∅ [] empty.

Definition compact (self : CapLookup) : outcome CapLookup :=
  let v := trim (caps_to_rules self) in
  f ← zero_from 1 (freelist self) (length v);
  mret (mkCaps (ids self) v f).

(** The number of a name: its own, a free one or a new one. *)
Definition allocate (self : CapLookup) (cap_name : string) : outcome (nat * CapLookup) :=
  match ids self !! cap_name with
  | Some id => mret (id, self)
  | None =>
      '(o, f) ← pop_freelist (freelist self);
      match o with
      | Some id => mret (id, mkCaps (<[cap_name := id]> (ids self)) (caps_to_rules self) f)
      | None =>
          let id := length (caps_to_rules self) in
          mret (id, mkCaps (<[cap_name := id]> (ids self)) (caps_to_rules self ++ [None]) f)
      end
  end.

Definition insert (self : CapLookup) (cap_name : string) (rule_id : nat) : outcome (nat * CapLookup) :=
  '(id, self) ← allocate self cap_name;
  slot ← index (caps_to_rules self) id;
  s ← set 1 (match slot with Some s => s | None => empty end) rule_id;
  v ← store (caps_to_rules self) id (Some s);
  mret (id, mkCaps (ids self) v (freelist self)).

Definition remove (self : CapLookup) (rule_id : nat) (cap_name : string) : outcome CapLookup :=
  match ids self !! cap_name with
  | None => mret self
  | Some id =>
      '(remove, v) ←
        match caps_to_rules self !! id with
        | Some (Some rules) =>
            rules ← clear 1 rules rule_id;
            mret (is_empty rules, <[id := Some rules]> (caps_to_rules self))
        | _ => mret (false, caps_to_rules self)
        end;
      self ← (if remove : bool then
        f ← set 1 (freelist self) id;
        mret (mkCaps (base.delete cap_name (ids self)) (<[id := None]> v) f)
      else mret (mkCaps (ids self) v (freelist self)));
      compact self
  end.

Definition clear (self : CapLookup) : CapLookup := mkCaps ∅ [] (clear_all (freelist self)).

Definition lookup (self : CapLookup) (caps : list string) : IdSet :=
  union_all (omap (fun id => match caps_to_rules self !! id with Some o => o | None => None end)
    (omap (fun c => ids self !! c) caps)).

(** ** Invariant and view *)

Record wf (self : CapLookup) : Prop := {
  wf_id c id : ids self !! c = Some id -> exists s, caps_to_rules self !! id = Some (Some s);
  wf_inj c c' id : ids self !! c = Some id -> ids self !! c' = Some id -> c = c';
  wf_sets id s : caps_to_rules self !! id = Some (Some s) -> wfs s;
  wf_free : wfs (freelist self);
  wf_freed id : mem (freelist self) id = true -> caps_to_rules self !! id = Some None;
}.

(** [rule] accepts the capability [c]. *)
Definition accepts (self : CapLookup) (c : string) (rule : nat) : Prop :=
  exists id s, ids self !! c = Some id /\ caps_to_rules self !! id = Some (Some s) /\ mem s rule = true.

Lemma cap_default_wf : wf default.
Proof. split; cbn [default ids caps_to_rules freelist]; [done..|apply wfs_empty|done]. Qed.

Lemma default_accepts c r : ~ accepts default c r.
Proof. intros (id & s & H & _). done. Qed.

Lemma cap_compact_spec self :
  wf self -> exists self', compact self = Done self' /\ wf self' /\ forall c r, accepts self' c r <-> accepts self c r.
Proof.
  intros [H1 H2 H3 H4 H5]. unfold compact. destruct (dzero_from_spec 1 one_pos (freelist self) (length (trim (caps_to_rules self))) H4) as (f & -> & Hf & Hm).
  eexists. split; [done|]. split.
  - split; cbn [ids caps_to_rules freelist].
    + intros c id [s Hs]%H1. exists s. by apply trim_Some.
    + done.
    + intros id s. rewrite trim_Some. apply H3.
    + done.
    + intros id Hid. rewrite Hm in Hid. apply andb_true_iff in Hid as [Hlt%bool_decide_eq_true_1 Hid]. rewrite trim_lookup by done. by apply H5.
  - intros c r. unfold accepts. cbn [ids caps_to_rules]. by setoid_rewrite trim_Some.
Qed.

(** A name that has a number, whose slot may still be empty. *)
Record reserved (self : CapLookup) (cap : string) (id : nat) (o : option IdSet) : Prop := {
  res_id : ids self !! cap = Some id;
  res_slot : caps_to_rules self !! id = Some o;
  res_others c j : c <> cap -> ids self !! c = Some j -> j <> id /\ exists s, caps_to_rules self !! j = Some (Some s);
  res_inj c c' j : c <> cap -> c' <> cap -> ids self !! c = Some j -> ids self !! c' = Some j -> c = c';
  res_sets j s : caps_to_rules self !! j = Some (Some s) -> wfs s;
  res_free : wfs (freelist self);
  res_freed j : mem (freelist self) j = true -> j <> id /\ caps_to_rules self !! j = Some None;
}.

Lemma cap_allocate_spec self cap :
  wf self -> exists id o self', allocate self cap = Done (id, self') /\ reserved self' cap id o /\
    (forall c r, c <> cap -> accepts self' c r <-> accepts self c r) /\ (forall r, omem o r = true <-> accepts self cap r).
Proof.
  intros [H1 H2 H3 H4 H5]. unfold allocate. destruct (ids self !! cap) as [id|] eqn:E.
  - destruct (H1 _ _ E) as [s Es]. exists id, (Some s), self. split_and!; [done| |done|].
    + split; [done|done| |naive_solver|done|done|].
      * intros c j Hc Ej. split; [|by eapply H1]. intros ->. by pose proof (H2 _ _ _ E Ej).
      * intros j Hj. split; [|by apply H5]. intros ->. apply H5 in Hj. congruence.
    + intros r. unfold accepts. rewrite E. cbn [omem]. naive_solver.
  - assert (Hno : forall r, ~ accepts self cap r) by (intros r (id & s & ? & _); congruence).
    destruct (pop_freelist_spec (freelist self) H4) as (o & f & -> & Hf & Hpop). cbn [mbind outcome_bind]. destruct o as [id|].
    + destruct Hpop as (Hin & _ & Hm). pose proof (H5 _ Hin) as Hslot. exists id, None. eexists. split; [done|]. split_and!.
      * split; cbn [ids caps_to_rules freelist]; [by rewrite lookup_insert_eq|done| | |done|done|].
        -- intros c j Hc. rewrite lookup_insert_ne by done. intros Ej. destruct (H1 _ _ Ej) as [s Es]. split; [congruence|eauto].
        -- intros c c' j Hc Hc'. rewrite !lookup_insert_ne by done. apply H2.
        -- intros j Hj. rewrite Hm in Hj. apply andb_true_iff in Hj as [Hne Hj]. apply negb_true_iff, bool_decide_eq_false_1 in Hne. auto.
      * intros c r Hc. unfold accepts. cbn [ids caps_to_rules]. by rewrite lookup_insert_ne by done.
      * intros r. cbn [omem]. split; [done|]. by intros ?%Hno.
    + destruct Hpop as [-> Hnone]. exists (length (caps_to_rules self)), None. eexists. split; [done|].
      assert (Hold : forall j s, (caps_to_rules self ++ [None]) !! j = Some (Some s) <-> caps_to_rules self !! j = Some (Some s)).
      { intros j s. destruct (decide (j < length (caps_to_rules self))%nat); [by rewrite lookup_app_l by done|].
        rewrite lookup_app_r by lia. rewrite (lookup_ge_None_2 (caps_to_rules self)) by lia. destruct (j - _)%nat; done. }
      split_and!.
      * split; cbn [ids caps_to_rules freelist]; [by rewrite lookup_insert_eq|by apply list_lookup_middle| | | |done|].
        -- intros c j Hc. rewrite lookup_insert_ne by done. intros Ej. destruct (H1 _ _ Ej) as [s Es].
           split; [apply lookup_lt_Some in Es; lia|]. exists s. by apply Hold.
        -- intros c c' j Hc Hc'. rewrite !lookup_insert_ne by done. apply H2.
        -- intros j s ?%Hold. eauto.
        -- intros j Hj. rewrite Hnone in Hj. done.
      * intros c r Hc. unfold accepts. cbn [ids caps_to_rules]. rewrite lookup_insert_ne by done. by setoid_rewrite Hold.
      * intros r. cbn [omem]. split; [done|]. by intros ?%Hno.
Qed.

Lemma cap_insert_spec self cap rule :
  wf self -> exists id self', insert self cap rule = Done (id, self') /\ wf self' /\
    forall c r, accepts self' c r <-> accepts self c r \/ c = cap /\ r = rule.
Proof.
  intros Hw. destruct (cap_allocate_spec self cap Hw) as (id & o & s1 & E & [R1 R2 R3 R4 R5 R6 R7] & Hoth & Hown). unfold insert. rewrite E.
  cbn [mbind outcome_bind]. unfold index. rewrite R2. cbn [unwrap mbind outcome_bind].
  assert (Hwo : wfs (match o with Some s => s | None => empty end)) by (destruct o; [by eapply R5|apply wfs_empty]).
  destruct (dset_spec 1 one_pos _ rule Hwo) as (s & -> & Hws & Hms). cbn [mbind outcome_bind].
  rewrite store_in by (by eapply lookup_lt_Some). cbn [mbind outcome_bind]. eexists id, _. split; [done|].
  assert (Hid : <[id := Some s]> (caps_to_rules s1) !! id = Some (Some s)) by (apply list_lookup_insert_eq; by eapply lookup_lt_Some).
  assert (Hne : forall j, j <> id -> <[id := Some s]> (caps_to_rules s1) !! j = caps_to_rules s1 !! j) by (intros; by rewrite list_lookup_insert_ne).
  split.
  - split; cbn [ids caps_to_rules freelist].
    + intros c j Hc. destruct (decide (c = cap)) as [->|Hcc]; [replace j with id by congruence; eauto|].
      destruct (R3 _ _ Hcc Hc) as [Hj Hs]. by rewrite Hne.
    + intros c c' j Hc Hc'. destruct (decide (c = cap)) as [->|Hcc], (decide (c' = cap)) as [->|Hcc']; [done| | |by eapply R4];
        [destruct (R3 _ _ Hcc' Hc')|destruct (R3 _ _ Hcc Hc)]; congruence.
    + intros j s'. destruct (decide (j = id)) as [->|]; [rewrite Hid; by intros [= <-]|rewrite Hne by done; apply R5].
    + done.
    + intros j Hj%R7. rewrite Hne by apply Hj. apply Hj.
  - intros c r. destruct (decide (c = cap)) as [->|Hcc].
    + rewrite <- Hown. unfold accepts. cbn [ids caps_to_rules]. rewrite R1. transitivity (mem s r = true); [naive_solver|].
      rewrite Hms, orb_true_iff, bool_decide_eq_true. destruct o; cbn [omem]; [naive_solver|]. rewrite mem_empty. naive_solver.
    + rewrite <- Hoth by done. unfold accepts. cbn [ids caps_to_rules]. split.
      * intros (j & s' & Hj & Hs' & Hm). left. exists j, s'. by rewrite Hne in Hs' by (by eapply R3).
      * intros [(j & s' & Hj & Hs' & Hm)|[? _]]; [|done]. exists j, s'. by rewrite Hne by (by eapply R3).
Qed.

Lemma cap_remove_spec self rule cap :
  wf self -> exists self', remove self rule cap = Done self' /\ wf self' /\
    forall c r, accepts self' c r <-> accepts self c r /\ ~ (c = cap /\ r = rule).
Proof.
  intros Hw. pose proof Hw as [H1 H2 H3 H4 H5]. unfold remove. destruct (ids self !! cap) as [id|] eqn:E.
  2: { exists self. split_and!; [done..|]. intros c r. split; [|by intros []]. intros H. split; [done|]. intros [-> ->].
       destruct H as (? & ? & ? & _). congruence. }
  destruct (H1 _ _ E) as [s Es]. rewrite Es. destruct (dclear_spec 1 one_pos s rule (H3 _ _ Es)) as (s' & -> & Hs' & Hm). cbn [mbind outcome_bind mret outcome_ret].
  assert (Hlt : (id < length (caps_to_rules self))%nat) by (by eapply lookup_lt_Some).
  assert (Hoth : forall c j, c <> cap -> ids self !! c = Some j -> j <> id) by (intros c j Hc Hj ->; by pose proof (H2 _ _ _ E Hj)).
  assert (Hold : forall r, accepts self cap r <-> mem s r = true) by (intros r; unfold accepts; rewrite E; naive_solver).
  assert (Hfin : forall self1, wf self1 -> (forall c r, accepts self1 c r <-> accepts self c r /\ ~ (c = cap /\ r = rule)) ->
    exists self', compact self1 = Done self' /\ wf self' /\ forall c r, accepts self' c r <-> accepts self c r /\ ~ (c = cap /\ r = rule)).
  { intros self1 Hw1 Ha1. destruct (cap_compact_spec self1 Hw1) as (self2 & E2 & Hw2 & Ha2). exists self2. split_and!; [done..|].
    intros c r. by rewrite Ha2. }
  destruct (is_empty s') eqn:Ee.
  - destruct (dset_spec 1 one_pos (freelist self) id H4) as (f & -> & Hf & Hmf). cbn [mbind outcome_bind].
    rewrite list_insert_insert_eq. apply Hfin.
    + split; cbn [ids caps_to_rules freelist].
      * intros c j [Hc Hj]%lookup_delete_Some. rewrite list_lookup_insert_ne by (intros ->; by eapply Hoth). by eapply H1.
      * intros c c' j [_ Hc]%lookup_delete_Some [_ Hc']%lookup_delete_Some. eauto.
      * intros j x Hx. apply list_lookup_insert_Some in Hx as [(_ & ? & _)|[_ Hx]]; [done|eauto].
      * done.
      * intros j Hj. rewrite Hmf in Hj. destruct (decide (j = id)) as [->|]; [by apply list_lookup_insert_eq|].
        rewrite bool_decide_eq_false_2 in Hj by done. rewrite list_lookup_insert_ne by done. by apply H5.
    + intros c r. destruct (decide (c = cap)) as [->|Hc].
      * rewrite Hold. split; [intros (j & x & Hj & _); cbn [ids] in Hj; by rewrite lookup_delete_eq in Hj|].
        intros [Hr Hn]. exfalso. pose proof (is_empty_none s' r Hs' Ee) as Hr'. rewrite Hm, Hr, andb_true_r in Hr'.
        apply negb_false_iff, bool_decide_eq_true_1 in Hr'. naive_solver.
      * unfold accepts. cbn [ids caps_to_rules]. rewrite lookup_delete_ne by done. split.
        -- intros (j & x & Hj & Hx & Hr). rewrite list_lookup_insert_ne in Hx by (intros ->; by eapply Hoth). split; [eauto|naive_solver].
        -- intros [(j & x & Hj & Hx & Hr) _]. exists j, x. rewrite list_lookup_insert_ne by (intros ->; by eapply Hoth). done.
  - apply Hfin.
    + split; cbn [ids caps_to_rules freelist]; [|done| |done|].
      * intros c j Hj. destruct (decide (j = id)) as [->|]; [rewrite list_lookup_insert_eq by done; eauto|].
        rewrite list_lookup_insert_ne by done. eauto.
      * intros j x Hx. apply list_lookup_insert_Some in Hx as [(_ & [= ->] & _)|[_ Hx]]; [done|eauto].
      * intros j Hj. rewrite list_lookup_insert_ne; [by apply H5|]. intros <-. apply H5 in Hj. congruence.
    + intros c r. destruct (decide (c = cap)) as [->|Hc].
      * rewrite Hold. unfold accepts. cbn [ids caps_to_rules]. rewrite E. transitivity (mem s' r = true).
        -- split; [intros (j & x & [= <-] & Hx & Hr); rewrite list_lookup_insert_eq in Hx by done; congruence|].
           intros Hr. exists id, s'. by rewrite list_lookup_insert_eq by done.
        -- rewrite Hm, andb_true_iff, negb_true_iff, bool_decide_eq_false. naive_solver.
      * unfold accepts. cbn [ids caps_to_rules]. split.
        -- intros (j & x & Hj & Hx & Hr). rewrite list_lookup_insert_ne in Hx by (intros ->; by eapply Hoth). split; [eauto|naive_solver].
        -- intros [(j & x & Hj & Hx & Hr) _]. exists j, x. rewrite list_lookup_insert_ne by (intros ->; by eapply Hoth). done.
Qed.

Lemma cap_lookup_spec self caps :
  wf self -> wfs (lookup self caps) /\ forall r, mem (lookup self caps) r = true <-> exists c, c ∈ caps /\ accepts self c r.
Proof.
  intros [H1 _ H3 _ _]. unfold lookup.
  assert (Hin : forall s, s ∈ omap (fun id => match caps_to_rules self !! id with Some o => o | None => None end) (omap (fun c => ids self !! c) caps) <->
    exists c id, c ∈ caps /\ ids self !! c = Some id /\ caps_to_rules self !! id = Some (Some s)).
  { intros s. rewrite list_elem_of_omap. setoid_rewrite list_elem_of_omap. split.
    - intros (id & (c & Hc & Hid) & Hs). exists c, id. split_and!; [done..|]. destruct (caps_to_rules self !! id); [by f_equal|done].
    - intros (c & id & Hc & Hid & Hs). exists id. split; [by exists c|]. by rewrite Hs. }
  edestruct (union_all_spec) as [Hw Hm]; [|split; [exact Hw|]].
  - apply Forall_forall. intros s (c & id & _ & _ & Hs)%Hin. eauto.
  - intros r. rewrite Hm. setoid_rewrite Hin. unfold accepts. naive_solver.
Qed.

End CapLookup.
