(* ===== verification/PacketFilter.v ===== *)
(** * Packet filters (ts_packetfilter/src, ts_packetfilter_state/src/lib.rs)

    Rules and what they match, the traits [Filter] and [FilterStorage], the filters over
    maps of rulesets, the filter that drops everything, the filter that checks another one,
    and the update of a filter from the coordination server. *)

From S2P Require Import Prelude IpNet.
Import IpNet.

Module PacketFilter.

(** An IP protocol number, an [i64]. *)
Abbreviation IpProto := Z.

Record PacketInfo : Type := mkInfo {
  info_src : IpAddr;
  info_dst : IpAddr;
  ip_proto : IpProto;
  port : Z;
}.

(** The special ruleset names. *)
Definition DEFAULT_RULESET_NAME : string := "base".
Definition CLEAR_MAP_KEY : string := "*".

Section Rules.
Context `{HI : Ipnet}.

(** ** Rules *)

Record SrcMatch : Type := mkSrc { pfxs : list IpNet; src_caps : list string }.

(** [ports] are the ends of the [RangeInclusive<u16>]. *)
Record DstMatch : Type := mkDst { ports : Z * Z; ips : list IpNet }.

Record Rule : Type := mkRule {
  src : SrcMatch;
  protos : list IpProto;
  dst : list DstMatch;
}.

Abbreviation Ruleset := (list Rule).

#[global] Instance DstMatch_eq_dec : EqDecision DstMatch.
Proof. solve_decision. Defined.

(** [RangeInclusive::contains] *)
Definition range_contains (r : Z * Z) (x : Z) : bool := (fst r <=? x) && (x <=? snd r).

Definition src_matches (self : SrcMatch) (info : PacketInfo) (caps : list string) : bool :=
  existsb (fun pfx => net_contains pfx (info_src info)) (pfxs self)
  || existsb (fun cap => existsb (fun c => bool_decide (c = cap)) (src_caps self)) caps.

Definition dst_matches (self : DstMatch) (info : PacketInfo) : bool :=
  range_contains (ports self) (port info) && existsb (fun pfx => net_contains pfx (info_dst info)) (ips self).

Definition rule_matches (self : Rule) (info : PacketInfo) (caps : list string) : bool :=
  bool_decide (ip_proto info ∈ protos self) && src_matches (src self) info caps
  && existsb (fun dst => dst_matches dst info) (dst self).

(** ** The traits *)

(** [Filter]; an implementation may provide its own [matches]. *)
Class Filter (F : Type) : Type := {
  match_for : F -> PacketInfo -> list string -> outcome (option string);
  matches : F -> PacketInfo -> list string -> outcome bool;
}.

(** [Filter::matches] as the trait provides it. *)
Definition default_matches {F} (match_for : F -> PacketInfo -> list string -> outcome (option string))
    (self : F) (info : PacketInfo) (caps : list string) : outcome bool :=
  o ← match_for self info caps; mret (if o is Some _ then true else false).

Class FilterStorage (F : Type) : Type := {
  insert_dyn : F -> string -> Ruleset -> outcome F;
  remove : F -> string -> outcome F;
  clear : F -> outcome F;
}.

(** ** Maps of rulesets *)

(** [BTreeMap<String, Ruleset>] and the hash maps: [hash_keys] is the order of iteration. *)
Abbreviation MapFilter := (gmap string Ruleset).

#[global] Instance map_storage : FilterStorage MapFilter := {|
  insert_dyn self name ruleset := mret (<[name := ruleset]> self);
  remove self name := mret (base.delete name self);
  clear self := mret ∅;
|}.

Definition map_match_for `{HO : !HashOrder string} (self : MapFilter) (info : PacketInfo) (caps : list string) : option string :=
  List.find (fun name => match self !! name with
                         | Some rules => existsb (fun rule => rule_matches rule info caps) rules
                         | None => false
                         end) (hash_keys self).

#[global] Instance map_filter `{HO : !HashOrder string} : Filter MapFilter := {|
  match_for self info caps := mret (map_match_for self info caps);
  matches := default_matches (fun self info caps => mret (map_match_for self info caps));
|}.

(** ** [DropAllFilter] *)

Inductive DropAllFilter : Type := DropAll.

#[global] Instance drop_all : Filter DropAllFilter := {|
  match_for _ _ _ := mret None;
  matches := default_matches (fun _ _ _ => mret None);
|}.

(** ** [CheckingFilter]: the first filter decides, the second is compared with it *)

Section Checking.
Context {P C : Type} `{!Filter P} `{!Filter C} `{!FilterStorage P} `{!FilterStorage C}.

Record CheckingFilter : Type := mkChecking { primary : P; checked : C }.

#[global] Instance checking_filter : Filter CheckingFilter := {|
  match_for self info caps :=
    result ← match_for (primary self) info caps;
    _ ← match_for (checked self) info caps;
    mret result;
  matches self info caps :=
    result ← matches (primary self) info caps;
    _ ← matches (checked self) info caps;
    mret result;
|}.

#[global] Instance checking_storage : FilterStorage CheckingFilter := {|
  insert_dyn self name ruleset :=
    p ← insert_dyn (primary self) name ruleset; c ← insert_dyn (checked self) name ruleset; mret (mkChecking p c);
  remove self name := p ← remove (primary self) name; c ← remove (checked self) name; mret (mkChecking p c);
  clear self := p ← clear (primary self); c ← clear (checked self); mret (mkChecking p c);
|}.

End Checking.

(** ** Updates *)

Section Update.
Context {F : Type} `{!FilterStorage F}.

(** The loop over the rulesets of the update. *)
Fixpoint apply_rulesets (storage : F) (packet_filters : list (string * option Ruleset)) : outcome F :=
  match packet_filters with
  | [] => mret storage
  | (ruleset_name, ruleset) :: packet_filters =>
      storage ←
        match ruleset with
        | None => remove storage ruleset_name
        | Some [] => remove storage ruleset_name
        | Some ruleset => insert_dyn storage ruleset_name ruleset
        end;
      apply_rulesets storage packet_filters
  end.

(** [ts_packetfilter::apply_update] *)
Definition apply_update_dyn (storage : F) (packet_filter : option Ruleset) (clear_storage : bool)
    (packet_filters : list (string * option Ruleset)) : outcome F :=
  storage ←
    (if clear_storage then clear storage
     else match packet_filter with
          | Some ruleset => insert_dyn storage DEFAULT_RULESET_NAME ruleset
          | None => mret storage
          end);
  let is_clear_rule '(k, v) := bool_decide (k = CLEAR_MAP_KEY) && (if v is Some _ then false else true) in
  apply_rulesets storage (List.filter (fun kv => negb (is_clear_rule kv)) packet_filters).

(** [should_clear_storage]: the entries of the map in their order, at most one per key. *)
Definition should_clear_storage (packet_filters : list (string * option Ruleset)) : bool :=
  match List.find (fun kv => bool_decide (fst kv = CLEAR_MAP_KEY)) packet_filters with
  | Some (_, None) => true
  | _ => false
  end.

(** [ts_packetfilter_state::apply_update] *)
Definition apply_update (storage : F) (packet_filter : option Ruleset) (update_map : list (string * option Ruleset)) : outcome F :=
  apply_update_dyn storage packet_filter (should_clear_storage update_map) update_map.

End Update.
End Rules.
End PacketFilter.
