(* ===== verification/DstLookup.v ===== *)
(** * Lookup of destinations (ts_bart_packetfilter/src/dst_port.rs)

    Every pair of a rule and one of its destination matches has an identifier; a routing
    table and a trie of ports map addresses and ports to sets of identifiers, and a packet's
    rules are those of the identifiers in both sets.  The lookup refines a relation between
    destination matches and rules. *)

From S2P Require Import Prelude Bitset DynBitset IpNet IpTrie IpTrieMod IpTrieLookup RoutingTable IdSets PortTrie PortTrieSpec PacketFilter.
Import DynBitset IpNet IpTrieMod IpTrieLookup RoutingTable IdSets PortTrieSpec PacketFilter.

Module DstLookup.

Section Model.
Context `{HI : Ipnet} {Tb It : Type} `{HR : !RoutingTable Tb IdSet It}.

(** [HashMap<DstMatch, DstMatchBitset>]; the code never iterates over it. *)
Abbreviation DstMap := (list (DstMatch * IdSet)).

Fixpoint dst_get (m : DstMap) (d : DstMatch) : option IdSet :=
  match m with
  | [] => None
  | (d', s) :: m => if decide (d' = d) then Some s else dst_get m d
  end.

Fixpoint dst_del (m : DstMap) (d : DstMatch) : DstMap :=
  match m with
  | [] => []
  | (d', s) :: m => if decide (d' = d) then dst_del m d else (d', s) :: dst_del m d
  end.

Definition dst_put (m : DstMap) (d : DstMatch) (s : IdSet) : DstMap := (d, s) :: dst_del m d.

Record DstMatchLookup : Type := mkLookup {
  dsts : Tb;
  dst_ports : PortTrie.PortTrie IdSet;
  dstmatch_ids : DstMap;
  dstmatch_id_to_rule_id : list (option nat);
  freelist : IdSet;
}.

(** [ids.bits().find(|&id| self.dstmatch_id_to_rule_id[id].is_some_and(|r| r == rule))] *)
Fixpoint find_rule (v : list (option nat)) (rule : nat) (ids : list nat) : outcome (option nat) :=
  match ids with
  | [] => mret None
  | id :: ids =>
      r ← index v id;
      if decide (r = Some rule) then mret (Some id) else find_rule v rule ids
  end.

Definition lookup_dstmatch_id (self : DstMatchLookup) (rule : nat) (dst : DstMatch) : outcome (option nat) :=
  match dst_get (dstmatch_ids self) dst with
  | None => mret None
  | Some ids => find_rule (dstmatch_id_to_rule_id self) rule (bits 1 ids)
  end.

Definition compact (self : DstMatchLookup) : outcome DstMatchLookup :=
  let v := trim (dstmatch_id_to_rule_id self) in
  f ← zero_from 1 (freelist self) (length v);
  mret (mkLookup (dsts self) (dst_ports self) (dstmatch_ids self) v f).

(** [self.dstmatch_ids.entry(dst).or_default().set(id)] *)
Definition add_id (m : DstMap) (dst : DstMatch) (id : nat) : outcome DstMap :=
  s ← set 1 (match dst_get m dst with Some s => s | None => empty end) id;
  mret (dst_put m dst s).

(** The identifier of a rule's destination: its own, a free one or a new one. *)
Definition allocate (self : DstMatchLookup) (rule : nat) (dst : DstMatch) : outcome (nat * DstMatchLookup) :=
  allocated_id ← lookup_dstmatch_id self rule dst;
  match allocated_id with
  | Some id => mret (id, self)
  | None =>
      '(o, f) ← pop_freelist (freelist self);
      match o with
      | Some free =>
          _ ← index (dstmatch_id_to_rule_id self) free;
          v ← store (dstmatch_id_to_rule_id self) free (Some rule);
          m ← add_id (dstmatch_ids self) dst free;
          mret (free, mkLookup (dsts self) (dst_ports self) m v f)
      | None =>
          let idx := length (dstmatch_id_to_rule_id self) in
          m ← add_id (dstmatch_ids self) dst idx;
          mret (idx, mkLookup (dsts self) (dst_ports self) m (dstmatch_id_to_rule_id self ++ [Some rule]) f)
      end
  end.

Definition insert (self : DstMatchLookup) (rule : nat) (dst : DstMatch) : outcome DstMatchLookup :=
  '(id, self) ← allocate self rule dst;
  t ← modify_each (dsts self) (ips dst) (set_id id);
  p ← PortTrie.modify (dst_ports self) (ports dst) (set_id id);
  compact (mkLookup t p (dstmatch_ids self) (dstmatch_id_to_rule_id self) (freelist self)).

Definition remove (self : DstMatchLookup) (rule : nat) (dst : DstMatch) : outcome DstMatchLookup :=
  o ← lookup_dstmatch_id self rule dst;
  match o with
  | None => mret self
  | Some dst_port_id =>
      t ← modify_each (dsts self) (ips dst) (clear_id dst_port_id);
      p ← PortTrie.modify (dst_ports self) (ports dst) (clear_id dst_port_id);
      entry ← unwrap (dst_get (dstmatch_ids self) dst);
      entry ← DynBitset.clear 1 entry dst_port_id;
      let m := if is_empty entry then dst_del (dstmatch_ids self) dst else dst_put (dstmatch_ids self) dst entry in
      stored_rule_id ← index (dstmatch_id_to_rule_id self) dst_port_id;
      v ← store (dstmatch_id_to_rule_id self) dst_port_id None;
      _ ← (if decide (stored_rule_id = Some rule) then Done tt else Panic);
      f ← set 1 (freelist self) dst_port_id;
      compact (mkLookup t p m v f)
  end.

Definition clear (self : DstMatchLookup) : DstMatchLookup :=
  mkLookup (rt_clear (dsts self)) (PortTrie.clear (dst_ports self)) [] [] (clear_all (freelist self)).

(** [.bits().filter_map(|x| self.dstmatch_id_to_rule_id[x])] *)
Fixpoint rules_of (v : list (option nat)) (ids : list nat) : outcome (list nat) :=
  match ids with
  | [] => mret []
  | id :: ids =>
      r ← index v id;
      l ← rules_of v ids;
      mret (match r with Some r => r :: l | None => l end)
  end.

(** An address has at most 129 prefixes, see [drain_ok]. *)
Definition lookup (self : DstMatchLookup) (dst : IpAddr) (port : Z) : outcome IdSet :=
  ps ← PortTrie.lookup (dst_ports self) port;
  it ← rt_lookup_all (dsts self) dst;
  ds ← drain 130 it;
  rules ← rules_of (dstmatch_id_to_rule_id self) (bits 1 (intersect_inplace (union_all ps) (union_all ds)));
  from_iter 1 rules.

End Model.
Arguments DstMatchLookup {HI} Tb.

(** ** The map of identifiers *)

Section Spec.
Context `{HI : Ipnet} `{HL : !IpnetLaws} {Tb It : Type} `{HR : !RoutingTable Tb IdSet It} `{HT : !RoutingTableLaws Tb IdSet It}.
Implicit Types self : DstMatchLookup Tb.
Implicit Types M : Routes IdSet.

Lemma dst_get_del m d d' : dst_get (dst_del m d) d' = if decide (d' = d) then None else dst_get m d'.
Proof.
  induction m as [|[x s] m IH]; cbn [dst_get dst_del]; [by case_decide|]. repeat case_decide; subst; cbn [dst_get]; rewrite ?IH;
    repeat case_decide; congruence.
Qed.

Lemma dst_get_put m d s d' : dst_get (dst_put m d s) d' = if decide (d' = d) then Some s else dst_get m d'.
Proof. unfold dst_put. cbn [dst_get]. rewrite dst_get_del. repeat case_decide; congruence. Qed.

(** [id] is an identifier of [d]. *)
Definition of_dst (m : list (DstMatch * IdSet)) (d : DstMatch) (id : nat) : Prop := omem (dst_get m d) id = true.

(** The vector and the map agree: identifiers in the map have a rule, belong to one
    destination, and are unique for a rule and a destination; free identifiers have none. *)
Record ids_wf (m : list (DstMatch * IdSet)) (v : list (option nat)) (f : IdSet) : Prop := {
  wf_set d s : dst_get m d = Some s -> wfs s;
  wf_slot d id : of_dst m d id -> exists r, v !! id = Some (Some r);
  wf_one d d' id : of_dst m d id -> of_dst m d' id -> d = d';
  wf_unique d id id' r : of_dst m d id -> of_dst m d id' -> v !! id = Some (Some r) -> v !! id' = Some (Some r) -> id = id';
  wf_free : wfs f;
  wf_freed id : mem f id = true -> v !! id = Some None;
}.

(** [r] is a rule of the destination [d], under the identifier [id]. *)
Definition pair_id (m : list (DstMatch * IdSet)) (v : list (option nat)) (d : DstMatch) (r : nat) (id : nat) : Prop :=
  of_dst m d id /\ v !! id = Some (Some r).

(** The tables hold the identifiers under the prefixes and ports of their destinations. *)
Record tables_wf self M : Prop := {
  wf_repr : rt_repr (dsts self) M;
  wf_routes : full_routes M;
  wf_trie : trie_wf (dst_ports self);
  wf_ports p : full (tget (dst_ports self) p);
}.

Record content (m : list (DstMatch * IdSet)) self M : Prop := {
  wf_dsts fam k id : holds M fam k id <-> exists d, of_dst m d id /\ keyed (ips d) fam k;
  wf_prefixes p id : omem (tget (dst_ports self) p) id = true <-> exists d, of_dst m d id /\ p ∈ pfxs_of (ports d);
}.

Record wf self M : Prop := {
  wf_ids : ids_wf (dstmatch_ids self) (dstmatch_id_to_rule_id self) (freelist self);
  wf_tables : tables_wf self M;
  wf_content : content (dstmatch_ids self) self M;
  wf_range d id : of_dst (dstmatch_ids self) d id -> range_ok (ports d);
}.

Definition has self (d : DstMatch) (r : nat) : Prop :=
  exists id, pair_id (dstmatch_ids self) (dstmatch_id_to_rule_id self) d r id.

Lemma find_rule_spec v rule ids :
  (forall id, id ∈ ids -> exists r, v !! id = Some (Some r)) ->
  exists o, find_rule v rule ids = Done o /\
    match o with
    | Some id => id ∈ ids /\ v !! id = Some (Some rule)
    | None => forall id, id ∈ ids -> v !! id <> Some (Some rule)
    end.
Proof.
  induction ids as [|id ids IH]; intros Hv; [exists None; split; [done|]; by intros ? ?%not_elem_of_nil|]. cbn [find_rule].
  destruct (Hv id) as [r Hr]; [set_solver|]. unfold index. rewrite Hr. cbn [unwrap mbind outcome_bind]. case_decide as Hd.
  - exists (Some id). split; [done|]. split; [set_solver|congruence].
  - destruct IH as (o & -> & Ho); [set_solver|]. exists o. split; [done|]. destruct o as [id'|]; [set_solver|].
    intros j [->|Hj]%elem_of_cons; [congruence|auto].
Qed.

Lemma lookup_id_spec self rule d :
  ids_wf (dstmatch_ids self) (dstmatch_id_to_rule_id self) (freelist self) ->
  exists o, lookup_dstmatch_id self rule d = Done o /\
    match o with
    | Some id => pair_id (dstmatch_ids self) (dstmatch_id_to_rule_id self) d rule id
    | None => ~ has self d rule
    end.
Proof.
  intros Hw. unfold lookup_dstmatch_id. destruct (dst_get (dstmatch_ids self) d) as [s|] eqn:E.
  2: { exists None. split; [done|]. intros (id & Hid & _). unfold of_dst in Hid. by rewrite E in Hid. }
  assert (Hb : forall id, id ∈ bits 1 s <-> of_dst (dstmatch_ids self) d id).
  { intros id. unfold of_dst. rewrite E. apply dbits_mem; [lia|]. by eapply Hw. }
  destruct (find_rule_spec (dstmatch_id_to_rule_id self) rule (bits 1 s)) as (o & -> & Ho).
  { intros id Hid%Hb. by eapply Hw. }
  exists o. split; [done|]. destruct o as [id|].
  - destruct Ho as [Hid Hr]. split; [by apply Hb|done].
  - intros (id & Hid & Hr). by eapply Ho, Hr; apply Hb.
Qed.

Lemma add_id_spec m d id :
  (forall d s, dst_get m d = Some s -> wfs s) ->
  exists m', add_id m d id = Done m' /\ (forall d s, dst_get m' d = Some s -> wfs s) /\
    forall d' i, of_dst m' d' i <-> of_dst m d' i \/ d' = d /\ i = id.
Proof.
  intros Hw. unfold add_id. assert (Hs : wfs (match dst_get m d with Some s => s | None => empty end)).
  { destruct (dst_get m d) eqn:E; [by eapply Hw|apply wfs_empty]. }
  destruct (dset_spec 1 one_pos _ id Hs) as (s & -> & Hws & Hm). eexists. split; [done|]. split.
  - intros d' s'. rewrite dst_get_put. case_decide; [by intros [= <-]|apply Hw].
  - intros d' i. unfold of_dst. rewrite dst_get_put. case_decide as Hd; [|naive_solver]. subst. cbn [omem]. rewrite Hm, orb_true_iff, bool_decide_eq_true.
    destruct (dst_get m d); cbn [omem]; rewrite ?mem_empty; naive_solver.
Qed.

(** An unused identifier given to a rule and a destination that had none. *)
Lemma fresh_ids m v f m' v' f' d rule id :
  ids_wf m v f -> (forall r, v !! id <> Some (Some r)) -> (forall j, ~ pair_id m v d rule j) ->
  (forall d s, dst_get m' d = Some s -> wfs s) -> (forall d' i, of_dst m' d' i <-> of_dst m d' i \/ d' = d /\ i = id) ->
  v' !! id = Some (Some rule) -> (forall j r, j <> id -> v' !! j = Some (Some r) <-> v !! j = Some (Some r)) ->
  wfs f' -> (forall j, mem f' j = true -> v' !! j = Some None) ->
  ids_wf m' v' f' /\
  forall d' r', (exists i, pair_id m' v' d' r' i) <-> (exists i, pair_id m v d' r' i) \/ d' = d /\ r' = rule.
Proof.
  intros [H1 H2 H3 H4 H5 H6] Hid Hno Hm1 Hm2 Hv Hv' Hf1 Hf2.
  assert (Hne : forall d' i, of_dst m d' i -> i <> id) by (intros d' i [r Hr]%H2 ->; by eapply Hid). split.
  - split; [done| | | |done|done].
    + intros d' i Hi. apply Hm2 in Hi as [Hi|[-> ->]]; [|eauto]. pose proof (Hne _ _ Hi). destruct (H2 _ _ Hi) as [r Hr]. exists r. by apply Hv'.
    + intros d1 d2 i Hi1 Hi2. apply Hm2 in Hi1 as [Hi1|[-> ->]], Hi2 as [Hi2|[-> ?]]; [by eapply H3| | |done]; exfalso; by eapply Hne.
    + intros d' i i' r Hi Hi' Hr Hr'. apply Hm2 in Hi as [Hi|[-> ->]], Hi' as [Hi'|[? ->]]; [| | |done].
      * pose proof (Hne _ _ Hi). pose proof (Hne _ _ Hi'). apply Hv' in Hr, Hr'; [|done..]. by eapply H4.
      * subst. pose proof (Hne _ _ Hi). apply Hv' in Hr; [|done]. exfalso. apply (Hno i). split; [done|congruence].
      * pose proof (Hne _ _ Hi'). apply Hv' in Hr'; [|done]. exfalso. apply (Hno i'). split; [done|congruence].
  - intros d' r'. unfold pair_id. split.
    + intros (i & Hi & Hr). apply Hm2 in Hi as [Hi|[-> ->]]; [|right; split; [done|congruence]]. left. exists i. split; [done|].
      apply Hv'; [by eapply Hne|done].
    + intros [(i & Hi & Hr)|[-> ->]].
      * exists i. split; [apply Hm2; by left|]. apply Hv'; [by eapply Hne|done].
      * exists id. split; [apply Hm2; by right|done].
Qed.

Lemma dst_allocate_spec self rule d :
  ids_wf (dstmatch_ids self) (dstmatch_id_to_rule_id self) (freelist self) ->
  exists id self', allocate self rule d = Done (id, self') /\ dsts self' = dsts self /\ dst_ports self' = dst_ports self /\
    ids_wf (dstmatch_ids self') (dstmatch_id_to_rule_id self') (freelist self') /\
    (forall d' i, of_dst (dstmatch_ids self') d' i <-> of_dst (dstmatch_ids self) d' i \/ d' = d /\ i = id) /\
    forall d' r', has self' d' r' <-> has self d' r' \/ d' = d /\ r' = rule.
Proof.
  intros Hw. pose proof Hw as [H1 H2 H3 H4 H5 H6]. unfold allocate. destruct (lookup_id_spec self rule d Hw) as (o & -> & Ho). cbn [mbind outcome_bind].
  destruct o as [id|].
  { exists id, self. split_and!; [done..| |].
    - intros d' i. split; [by left|]. intros [|[-> ->]]; [done|apply Ho].
    - intros d' r'. split; [by left|]. intros [|[-> ->]]; [done|by exists id]. }
  assert (Hno : forall j, ~ pair_id (dstmatch_ids self) (dstmatch_id_to_rule_id self) d rule j) by (intros j Hj; apply Ho; by exists j).
  destruct (pop_freelist_spec (freelist self) H5) as (o & f & -> & Hf & Hpop). cbn [mbind outcome_bind]. destruct o as [id|].
  - destruct Hpop as (Hin & _ & Hm). pose proof (H6 _ Hin) as Hslot. unfold index. rewrite Hslot. cbn [unwrap mbind outcome_bind].
    assert (Hlt : (id < length (dstmatch_id_to_rule_id self))%nat) by (by eapply lookup_lt_Some). rewrite store_in by done. cbn [mbind outcome_bind].
    destruct (add_id_spec (dstmatch_ids self) d id H1) as (m' & -> & Hm1 & Hm2). cbn [mbind outcome_bind].
    eexists id, _. split; [done|]. split_and!; [done..| |done|].
    all: eapply (fresh_ids _ _ _ m' (<[id:=Some rule]> (dstmatch_id_to_rule_id self)) f d rule id Hw);
      [congruence|done|done|done|by apply list_lookup_insert_eq|intros j r Hj; by rewrite list_lookup_insert_ne|done|].
    all: intros j Hj; rewrite Hm in Hj; apply andb_true_iff in Hj as [Hne%negb_true_iff%bool_decide_eq_false_1 Hj];
      rewrite list_lookup_insert_ne by done; by apply H6.
  - destruct Hpop as [-> Hnone]. destruct (add_id_spec (dstmatch_ids self) d (length (dstmatch_id_to_rule_id self)) H1) as (m' & -> & Hm1 & Hm2). cbn [mbind outcome_bind].
    eexists _, _. split; [done|]. split_and!; [done..| |done|].
    all: eapply (fresh_ids _ _ _ m' (dstmatch_id_to_rule_id self ++ [Some rule]) (freelist self) d rule (length (dstmatch_id_to_rule_id self)) Hw);
      [intros r; by rewrite lookup_ge_None_2|done|done|done|by apply list_lookup_middle| |done|intros j Hj; by rewrite Hnone in Hj].
    all: intros j r Hj; destruct (decide (j < length (dstmatch_id_to_rule_id self))%nat); [by rewrite lookup_app_l|];
      rewrite (lookup_ge_None_2 (dstmatch_id_to_rule_id self)), (lookup_ge_None_2 (_ ++ _)) by (rewrite ?length_app; simpl; lia); done.
Qed.

Lemma dst_compact_spec self M :
  wf self M -> exists self', compact self = Done self' /\ wf self' M /\ forall d r, has self' d r <-> has self d r.
Proof.
  intros [[H1 H2 H3 H4 H5 H6] Ht Hc Hr]. unfold compact.
  destruct (dzero_from_spec 1 one_pos (freelist self) (length (trim (dstmatch_id_to_rule_id self))) H5) as (f & -> & Hf & Hm).
  eexists. split; [done|]. split.
  - split; cbn [dstmatch_ids dstmatch_id_to_rule_id freelist]; [|by destruct Ht; split|by destruct Hc; split|done]. split; [done| |done| |done|].
    + intros d id [r Hrr]%H2. exists r. by apply trim_Some.
    + intros d id id' r Hi Hi'. rewrite !trim_Some. by apply (H4 d).
    + intros id Hid. rewrite Hm in Hid. apply andb_true_iff in Hid as [Hlt%bool_decide_eq_true_1 Hid]. rewrite trim_lookup by done. by apply H6.
  - intros d r. unfold has, pair_id. cbn [dstmatch_ids dstmatch_id_to_rule_id]. by setoid_rewrite trim_Some.
Qed.

(** Setting and clearing an identifier in the trie of ports. *)
Lemma set_ports t ports id :
  trie_wf t -> (forall p, full (tget t p)) -> range_ok ports ->
  exists t', PortTrie.modify t ports (set_id id) = Done t' /\ trie_wf t' /\ (forall p, full (tget t' p)) /\
    forall p i, omem (tget t' p) i = true <-> omem (tget t p) i = true \/ i = id /\ p ∈ pfxs_of ports.
Proof.
  intros Ht Hf Hr. destruct (modify_spec t ports (set_id id) Ht Hr) as (t' & E & Ht' & Hg). exists t'. split_and!; [done..| |].
  - intros p. rewrite Hg. case_decide; [by apply set_mod|apply Hf].
  - intros p i. rewrite Hg. case_decide; [|naive_solver]. destruct (set_mod id (tget t p) (Hf p)) as [_ ->].
    rewrite orb_true_iff, bool_decide_eq_true. naive_solver.
Qed.

Lemma clear_ports t ports id :
  trie_wf t -> (forall p, full (tget t p)) -> range_ok ports ->
  exists t', PortTrie.modify t ports (clear_id id) = Done t' /\ trie_wf t' /\ (forall p, full (tget t' p)) /\
    forall p i, omem (tget t' p) i = true <-> omem (tget t p) i = true /\ ~ (i = id /\ p ∈ pfxs_of ports).
Proof.
  intros Ht Hf Hr. destruct (modify_spec t ports (clear_id id) Ht Hr) as (t' & E & Ht' & Hg). exists t'. split_and!; [done..| |].
  - intros p. rewrite Hg. case_decide; [by apply clear_mod|apply Hf].
  - intros p i. rewrite Hg. case_decide; [|naive_solver]. destruct (clear_mod id (tget t p) (Hf p)) as (_ & _ & ->).
    rewrite andb_true_iff, negb_true_iff, bool_decide_eq_false. naive_solver.
Qed.

Lemma dst_insert_spec self M rule d :
  wf self M -> range_ok (ports d) -> rsize M + Z.of_nat (length (ips d)) < U64 ->
  exists self' M', insert self rule d = Done self' /\ wf self' M' /\ rsize M' <= rsize M + Z.of_nat (length (ips d)) /\
    forall d' r', has self' d' r' <-> has self d' r' \/ d' = d /\ r' = rule.
Proof.
  intros [Hi Ht Hc Hr] Hrd Hsz. unfold insert. destruct (dst_allocate_spec self rule d Hi) as (id & s1 & -> & Ed & Ep & Hi1 & Ho1 & Hh1).
  cbn [mbind outcome_bind]. rewrite Ed, Ep. destruct Ht as [T1 T2 T3 T4], Hc as [C1 C2].
  destruct (set_each id (ips d) (dsts self) M T1 T2 Hsz) as (t & M' & -> & Ht & HM & Hs & Hh). cbn [mbind outcome_bind].
  destruct (set_ports (dst_ports self) (ports d) id T3 T4 Hrd) as (p & -> & Hp & Hpf & Hpm). cbn [mbind outcome_bind].
  edestruct (dst_compact_spec) as (s2 & -> & Hw2 & Hh2); [|exists s2, M'; split_and!; [done|exact Hw2|done|]].
  - split; cbn [dstmatch_ids dstmatch_id_to_rule_id freelist]; [done|by split| |].
    + split; cbn [dst_ports].
      * intros fam k i. rewrite Hh, C1. setoid_rewrite Ho1. naive_solver.
      * intros q i. rewrite Hpm, C2. setoid_rewrite Ho1. naive_solver.
    + intros d' i [Hi'|[-> ->]]%Ho1; eauto.
  - intros d' r'. rewrite Hh2. apply Hh1.
Qed.

(** The identifier of a rule and a destination taken away. *)
Lemma drop_ids m v f m' f' d rule id :
  ids_wf m v f -> pair_id m v d rule id ->
  (forall d s, dst_get m' d = Some s -> wfs s) -> (forall d' i, of_dst m' d' i <-> of_dst m d' i /\ ~ (d' = d /\ i = id)) ->
  wfs f' -> (forall i, mem f' i = bool_decide (i = id) || mem f i) ->
  ids_wf m' (<[id := None]> v) f' /\
  forall d' r', (exists i, pair_id m' (<[id := None]> v) d' r' i) <-> (exists i, pair_id m v d' r' i) /\ ~ (d' = d /\ r' = rule).
Proof.
  intros [H1 H2 H3 H4 H5 H6] [Hid Hrule] Hm1 Hm2 Hf1 Hf2. assert (Hlt : (id < length v)%nat) by (by eapply lookup_lt_Some).
  assert (Hne : forall d' i, of_dst m' d' i -> i <> id).
  { intros d' i [Hi Hn]%Hm2 ->. apply Hn. split; [|done]. by eapply H3. }
  assert (Hv : forall i r, <[id := None]> v !! i = Some (Some r) <-> i <> id /\ v !! i = Some (Some r)).
  { intros i r. destruct (decide (i = id)) as [->|]; [rewrite list_lookup_insert_eq by done; naive_solver|rewrite list_lookup_insert_ne by done; naive_solver]. }
  split.
  - split; [done| | | |done|].
    + intros d' i Hi. pose proof (Hne _ _ Hi). apply Hm2 in Hi as [Hi _]. destruct (H2 _ _ Hi) as [r Hr]. exists r. by apply Hv.
    + intros d1 d2 i [Hi1 _]%Hm2 [Hi2 _]%Hm2. by eapply H3.
    + intros d' i i' r [Hi _]%Hm2 [Hi' _]%Hm2 [_ Hr]%Hv [_ Hr']%Hv. by eapply H4.
    + intros i Hi. rewrite Hf2 in Hi. destruct (decide (i = id)) as [->|Hn]; [by apply list_lookup_insert_eq|].
      rewrite bool_decide_eq_false_2 in Hi by done. rewrite list_lookup_insert_ne by done. by apply H6.
  - intros d' r'. unfold pair_id. split.
    + intros (i & Hi & [Hn Hr]%Hv). pose proof Hi as [Hi' _]%Hm2. split; [by exists i|]. intros [-> ->]. apply Hn. by eapply H4.
    + intros [(i & Hi & Hr) Hn]. assert (i <> id).
      { intros ->. apply Hn. split; [by eapply H3|]. congruence. }
      exists i. split; [apply Hm2; split; [done|naive_solver]|]. by apply Hv.
Qed.

Lemma drop_entry m d s s' id :
  (forall d s, dst_get m d = Some s -> wfs s) -> dst_get m d = Some s ->
  wfs s' -> (forall i, mem s' i = negb (bool_decide (i = id)) && mem s i) ->
  let m' := if is_empty s' then dst_del m d else dst_put m d s' in
  (forall d s, dst_get m' d = Some s -> wfs s) /\ forall d' i, of_dst m' d' i <-> of_dst m d' i /\ ~ (d' = d /\ i = id).
Proof.
  intros Hw Es Hs' Hm. cbv zeta. split.
  - intros d' x. destruct (is_empty s'); rewrite ?dst_get_del, ?dst_get_put; case_decide; [done|apply Hw|by intros [= <-]|apply Hw].
  - intros d' i. unfold of_dst. assert (Hput : dst_get (if is_empty s' then dst_del m d else dst_put m d s') d' =
      if decide (d' = d) then (if is_empty s' then None else Some s') else dst_get m d') by (destruct (is_empty s'); [apply dst_get_del|apply dst_get_put]).
    rewrite Hput. destruct (decide (d' = d)) as [->|Hd]; [|clear -Hd; naive_solver]. rewrite Es. cbn [omem].
    assert (omem (if is_empty s' then None else Some s') i = mem s' i) as ->.
    { destruct (is_empty s') eqn:Ee; [|done]. cbn [omem]. symmetry. by apply is_empty_none. }
    rewrite Hm, andb_true_iff, negb_true_iff, bool_decide_eq_false. clear. naive_solver.
Qed.

Lemma dst_remove_spec self M rule d :
  wf self M -> rsize M + 1 < U64 ->
  exists self' M', remove self rule d = Done self' /\ wf self' M' /\ rsize M' <= rsize M /\
    forall d' r', has self' d' r' <-> has self d' r' /\ ~ (d' = d /\ r' = rule).
Proof.
  intros Hw Hsz. pose proof Hw as [Hi Ht Hc Hr]. unfold remove. destruct (lookup_id_spec self rule d Hi) as (o & -> & Ho). cbn [mbind outcome_bind].
  destruct o as [id|].
  2: { exists self, M. split_and!; [done..|]. intros d' r'. split; [|by intros []]. intros H. split; [done|]. by intros [-> ->]. }
  pose proof Ho as [Hid Hrule]. destruct Ht as [T1 T2 T3 T4], Hc as [C1 C2].
  destruct (clear_each id (ips d) (dsts self) M T1 T2 Hsz) as (t & M' & -> & Ht & HM & Hs & Hh). cbn [mbind outcome_bind].
  destruct (clear_ports (dst_ports self) (ports d) id T3 T4 (Hr _ _ Hid)) as (p & -> & Hp & Hpf & Hpm). cbn [mbind outcome_bind].
  destruct (dst_get (dstmatch_ids self) d) as [s|] eqn:Es; [|unfold of_dst in Hid; by rewrite Es in Hid]. cbn [unwrap mbind outcome_bind].
  destruct (dclear_spec 1 one_pos s id (wf_set _ _ _ Hi _ _ Es)) as (s' & -> & Hs' & Hm). cbn [mbind outcome_bind].
  unfold index. rewrite Hrule. cbn [unwrap mbind outcome_bind]. rewrite store_in by (by eapply lookup_lt_Some). cbn [mbind outcome_bind].
  rewrite decide_True by done. cbn [mbind outcome_bind]. destruct (dset_spec 1 one_pos (freelist self) id (wf_free _ _ _ Hi)) as (f & -> & Hf & Hmf). cbn [mbind outcome_bind].
  set (m := if is_empty s' then _ else _). destruct (drop_entry (dstmatch_ids self) d s s' id (wf_set _ _ _ Hi) Es Hs' Hm) as [Hm1 Hm2]. fold m in Hm1, Hm2.
  destruct (drop_ids _ _ _ m f d rule id Hi Ho Hm1 Hm2 Hf Hmf) as [Hi' Hh'].
  edestruct (dst_compact_spec) as (s2 & -> & Hw2 & Hh2); [|exists s2, M'; split_and!; [done|exact Hw2|done|]].
  - split; cbn [dstmatch_ids dstmatch_id_to_rule_id freelist]; [done|by split| |].
    + pose proof (wf_one _ _ _ Hi) as Hone. split; cbn [dst_ports].
      * intros fam k i. rewrite Hh, C1. setoid_rewrite Hm2. split.
        -- intros [(d' & Hd' & Hk) Hn]. exists d'. split; [split; [done|]|done]. intros [-> ->]. by apply Hn.
        -- intros (d' & [Hd' Hn] & Hk). split; [by exists d'|]. intros [-> Hk']. apply Hn. split; [by eapply Hone|done].
      * intros q i. rewrite Hpm, C2. setoid_rewrite Hm2. split.
        -- intros [(d' & Hd' & Hk) Hn]. exists d'. split; [split; [done|]|done]. intros [-> ->]. by apply Hn.
        -- intros (d' & [Hd' Hn] & Hk). split; [by exists d'|]. intros [-> Hk']. apply Hn. split; [by eapply Hone|done].
    + intros d' i [Hi2 _]%Hm2. eauto.
  - intros d' r'. rewrite Hh2. apply Hh'.
Qed.

Lemma rules_of_spec v ids :
  (forall id, id ∈ ids -> exists r, v !! id = Some (Some r)) ->
  exists l, rules_of v ids = Done l /\ forall r, r ∈ l <-> exists id, id ∈ ids /\ v !! id = Some (Some r).
Proof.
  induction ids as [|id ids IH]; intros Hv; [exists []; split; [done|]; intros r; split; [by intros ?%not_elem_of_nil|]; by intros (? & ?%not_elem_of_nil & _)|].
  cbn [rules_of]. destruct (Hv id) as [r Hr]; [set_solver|]. unfold index. rewrite Hr. cbn [unwrap mbind outcome_bind].
  destruct IH as (l & -> & Hl); [set_solver|]. eexists. split; [done|]. intros r'. rewrite elem_of_cons, Hl. setoid_rewrite elem_of_cons. naive_solver.
Qed.

(** The rules of the destinations that match an address and a port. *)
Lemma dst_lookup_spec self M ip x :
  wf self M -> addr_ok ip -> port_ok x ->
  exists s, lookup self ip x = Done s /\ wfs s /\
    forall r, mem s r = true <-> exists d, has self d r /\ admits (ports d) x /\ existsb (fun p => net_contains p ip) (ips d) = true.
Proof.
  intros [[H1 H2 H3 H4 H5 H6] [T1 T2 T3 T4] [C1 C2] Hr] Hip Hx. unfold lookup.
  destruct (PortTrieSpec.lookup_spec (dst_ports self) x T3 Hx) as (ps & -> & Hps). cbn [mbind outcome_bind].
  destruct (rt_lookup_all_spec (dsts self) M ip T1 Hip) as (it & -> & Hit). cbn [mbind outcome_bind].
  rewrite (drain_ok 130 it _ Hit) by (by apply rmatches_length). cbn [mbind outcome_bind].
  destruct (rmatches_mem M ip T2) as [Wds Hds].
  assert (Wps : Forall wfs ps) by (apply Forall_forall; intros v (p & _ & _ & Hv)%Hps; by apply (T4 p)).
  destruct (union_all_spec ps Wps) as [Wu Hu]. destruct (union_all_spec _ Wds) as [Wd _].
  destruct (dintersect_spec 1 one_pos (union_all ps) (union_all (rmatches M ip)) Wu Wd) as [Wi Hi].
  assert (Hid : forall id, id ∈ bits 1 (intersect_inplace (union_all ps) (union_all (rmatches M ip))) <->
    exists d, of_dst (dstmatch_ids self) d id /\ admits (ports d) x /\ existsb (fun p => net_contains p ip) (ips d) = true).
  { intros id. rewrite dbits_mem, Hi, andb_true_iff, Hu, Hds by (lia || done). setoid_rewrite keyed_contains; [|done]. split.
    - intros [(v & (p & Hpo & Hc & Hg)%Hps & Hm) (l & Hl & Hh)]. apply C1 in Hh as (d & Hd & Hk).
      assert (exists d', of_dst (dstmatch_ids self) d' id /\ p ∈ pfxs_of (ports d')) as (d' & Hd' & Hp) by (apply C2; by rewrite Hg).
      rewrite (H3 _ _ _ Hd' Hd) in Hp. exists d. split_and!; [done| |by exists l]. apply pfxs_of_admits; [by eapply Hr|done|by exists p].
    - intros (d & Hd & Hadm & (l & Hl & Hk)). apply pfxs_of_admits in Hadm as (p & Hp & Hpo & Hc); [|by eapply Hr|done]. split.
      + assert (Hm : omem (tget (dst_ports self) p) id = true) by (apply C2; by exists d).
        destruct (tget (dst_ports self) p) as [v|] eqn:Ev; [|done]. exists v. split; [apply Hps; by exists p|done].
      + exists l. split; [done|]. apply C1. by exists d. }
  destruct (rules_of_spec (dstmatch_id_to_rule_id self) (bits 1 (intersect_inplace (union_all ps) (union_all (rmatches M ip))))) as (rs & -> & Hrs).
  { intros id (d & Hd & _)%Hid. by eapply H2. }
  cbn [mbind outcome_bind]. destruct (dfrom_iter_spec 1 one_pos rs) as (s & -> & Ws & Hs). exists s. split_and!; [done..|]. intros r.
  rewrite Hs, bool_decide_eq_true, Hrs. setoid_rewrite Hid. unfold has, pair_id. naive_solver.
Qed.

(** A lookup without entries. *)
Lemma empty_wf t f : rt_repr t no_routes -> wf (mkLookup t PortTrie.EMPTY [] [] (clear_all f)) no_routes.
Proof.
  intros Ht. split; cbn [dsts dst_ports dstmatch_ids dstmatch_id_to_rule_id freelist]; [| | |done].
  - split; [done..|apply wfs_empty|done].
  - split; cbn [dsts dst_ports]; [done|apply full_no_routes|apply trie_wf_EMPTY|]. intros p. rewrite tget_EMPTY. apply full_None.
  - split; cbn [dst_ports].
    + intros fam k id. split; [by intros ?%holds_no_routes|]. by intros (d & ? & _).
    + intros p id. rewrite tget_EMPTY. split; [done|]. by intros (d & ? & _).
Qed.

Lemma empty_has t f d r : ~ has (mkLookup t PortTrie.EMPTY [] [] (clear_all f)) d r.
Proof. by intros (id & ? & _). Qed.

End Spec.
End DstLookup.
