(* ===== verification/BartFilter.v ===== *)
(** * The packet filter over routing tables (ts_bart_packetfilter/src/lib.rs)

    Rules have numbers; each component of a rule is stored in a structure of its own that
    maps a packet's field to the set of rules it satisfies, and the rules of a packet are the
    intersection of the sets. *)

From S2P Require Import Prelude Bitset DynBitset IpNet IpTrie RoutingTable IdSets PortTrie CapLookup DstLookup PacketFilter.
Import DynBitset IpNet RoutingTable IdSets PacketFilter.

Module BartFilter.

Section Model.
Context `{HI : Ipnet} {Tb It : Type} `{HR : !RoutingTable Tb IdSet It}.

Record RulesetEntry : Type := mkEntry { ruleset : list Rule; rule_ids : IdSet }.

Record BartFilter : Type := mkFilter {
  caps : CapLookup.CapLookup;
  srcs : Tb;
  dsts : DstLookup.DstMatchLookup Tb;
  ip_protos : gmap Z IdSet;
  rules_to_rulesets : list (option string);
  rule_freelist : IdSet;
  rulesets : gmap string RulesetEntry;
}.

(** [BartFilter::default()], from an empty table. *)
Definition default (t : Tb) : BartFilter :=
  mkFilter CapLookup.default t (DstLookup.mkLookup t PortTrie.EMPTY [] [] empty) ∅ [] empty ∅.

Definition rules_and_ids (self : RulesetEntry) : list (nat * Rule) := zip (bits 1 (rule_ids self)) (ruleset self).

(** ** The loops over the fields of a rule *)

Fixpoint set_protos (m : gmap Z IdSet) (protos : list Z) (rule_id : nat) : outcome (gmap Z IdSet) :=
  match protos with
  | [] => mret m
  | proto :: protos =>
      s ← set 1 (match m !! proto with Some s => s | None => empty end) rule_id;
      set_protos (<[proto := s]> m) protos rule_id
  end.

Fixpoint clear_protos (m : gmap Z IdSet) (protos : list Z) (rule_id : nat) : outcome (gmap Z IdSet) :=
  match protos with
  | [] => mret m
  | proto :: protos =>
      '(remove, m) ←
        match m !! proto with
        | Some rules => rules ← DynBitset.clear 1 rules rule_id; mret (is_empty rules, <[proto := rules]> m)
        | None => mret (false, m)
        end;
      clear_protos (if remove : bool then base.delete proto m else m) protos rule_id
  end.

Fixpoint insert_caps (c : CapLookup.CapLookup) (names : list string) (rule_id : nat) : outcome CapLookup.CapLookup :=
  match names with
  | [] => mret c
  | name :: names => '(_, c) ← CapLookup.insert c name rule_id; insert_caps c names rule_id
  end.

Fixpoint remove_caps (c : CapLookup.CapLookup) (names : list string) (rule_id : nat) : outcome CapLookup.CapLookup :=
  match names with
  | [] => mret c
  | name :: names => c ← CapLookup.remove c rule_id name; remove_caps c names rule_id
  end.

Fixpoint insert_dsts (d : DstLookup.DstMatchLookup Tb) (l : list DstMatch) (rule_id : nat) : outcome (DstLookup.DstMatchLookup Tb) :=
  match l with
  | [] => mret d
  | dst :: l => d ← DstLookup.insert d rule_id dst; insert_dsts d l rule_id
  end.

Fixpoint remove_dsts (d : DstLookup.DstMatchLookup Tb) (l : list DstMatch) (rule_id : nat) : outcome (DstLookup.DstMatchLookup Tb) :=
  match l with
  | [] => mret d
  | dst :: l => d ← DstLookup.remove d rule_id dst; remove_dsts d l rule_id
  end.

(** [for rule_id in entry.rule_ids.bits() { self.rules_to_rulesets[rule_id] = None; }] *)
Fixpoint forget_ids (v : list (option string)) (ids : list nat) : outcome (list (option string)) :=
  match ids with
  | [] => mret v
  | id :: ids => v ← store v id None; forget_ids v ids
  end.

(** ** Operations *)

Definition compact (self : BartFilter) : outcome BartFilter :=
  let v := trim (rules_to_rulesets self) in
  f ← zero_from 1 (rule_freelist self) (length v);
  mret (mkFilter (caps self) (srcs self) (dsts self) (ip_protos self) v f (rulesets self)).

(** The body of the loop of [remove] over the rules. *)
Definition remove_rule (self : BartFilter) (rule_id : nat) (rule : Rule) : outcome BartFilter :=
  m ← clear_protos (ip_protos self) (protos rule) rule_id;
  d ← remove_dsts (dsts self) (dst rule) rule_id;
  c ← remove_caps (caps self) (src_caps (src rule)) rule_id;
  t ← modify_each (srcs self) (pfxs (src rule)) (clear_id rule_id);
  mret (mkFilter c t d m (rules_to_rulesets self) (rule_freelist self) (rulesets self)).

Fixpoint remove_rules (self : BartFilter) (l : list (nat * Rule)) : outcome BartFilter :=
  match l with
  | [] => mret self
  | (rule_id, rule) :: l => self ← remove_rule self rule_id rule; remove_rules self l
  end.

Definition remove (self : BartFilter) (ruleset_name : string) : outcome BartFilter :=
  match rulesets self !! ruleset_name with
  | None => mret self
  | Some entry =>
      let f := union_inplace (rule_freelist self) (rule_ids entry) in
      v ← forget_ids (rules_to_rulesets self) (bits 1 (rule_ids entry));
      let self := mkFilter (caps self) (srcs self) (dsts self) (ip_protos self) v f (base.delete ruleset_name (rulesets self)) in
      self ← remove_rules self (rules_and_ids entry);
      compact self
  end.

(** The number of a new rule. *)
Definition new_rule_id (v : list (option string)) (f : IdSet) : outcome (nat * list (option string) * IdSet) :=
  '(o, f) ← pop_freelist f;
  match o with
  | Some idx => mret (idx, v, f)
  | None => mret (length v, v ++ [None], f)
  end.

(** The body of the loop of [insert] over the rules; also the numbers given so far. *)
Definition insert_rule (self : BartFilter) (ids : IdSet) (name : string) (rule : Rule) : outcome (BartFilter * IdSet) :=
  '(rule_id, v, f) ← new_rule_id (rules_to_rulesets self) (rule_freelist self);
  ids ← set 1 ids rule_id;
  v ← store v rule_id (Some name);
  m ← set_protos (ip_protos self) (protos rule) rule_id;
  c ← insert_caps (caps self) (src_caps (src rule)) rule_id;
  t ← modify_each (srcs self) (pfxs (src rule)) (set_id rule_id);
  d ← insert_dsts (dsts self) (dst rule) rule_id;
  mret (mkFilter c t d m v f (rulesets self), ids).

Fixpoint insert_rules (self : BartFilter) (ids : IdSet) (name : string) (rules : list Rule) : outcome (BartFilter * IdSet) :=
  match rules with
  | [] => mret (self, ids)
  | rule :: rules => '(self, ids) ← insert_rule self ids name rule; insert_rules self ids name rules
  end.

Definition insert (self : BartFilter) (name : string) (rules : list Rule) : outcome BartFilter :=
  self ← remove self name;
  '(self, ids) ← insert_rules self empty name rules;
  compact (mkFilter (caps self) (srcs self) (dsts self) (ip_protos self) (rules_to_rulesets self) (rule_freelist self)
    (<[name := mkEntry rules ids]> (rulesets self))).

Definition lookup (self : BartFilter) (info : PacketInfo) (names : list string) : outcome IdSet :=
  let src_matches := CapLookup.lookup (caps self) names in
  ip_matches ← rt_lookup (srcs self) (info_src info);
  let all_matches := match ip_matches with Some s => union_inplace src_matches s | None => src_matches end in
  if is_empty all_matches then mret all_matches
  else
    let all_matches := match ip_protos self !! ip_proto info with
                       | Some proto_matches => intersect_inplace all_matches proto_matches
                       | None => clear_all all_matches
                       end in
    if is_empty all_matches then mret all_matches
    else
      dstport_matches ← DstLookup.lookup (dsts self) (info_dst info) (port info);
      mret (intersect_inplace all_matches dstport_matches).

#[global] Instance bart_storage : FilterStorage BartFilter := {|
  insert_dyn self name ruleset := insert self name ruleset;
  PacketFilter.remove self name := remove self name;
  PacketFilter.clear self := mret (mkFilter (CapLookup.clear (caps self)) (rt_clear (srcs self)) (DstLookup.clear (dsts self)) ∅
    [] (clear_all (rule_freelist self)) ∅);
|}.

#[global] Instance bart_filter : Filter BartFilter := {|
  match_for self info names :=
    all_matches ← lookup self info names;
    match first_set all_matches with
    | None => mret None
    | Some rule_id => o ← index (rules_to_rulesets self) rule_id; name ← unwrap o; mret (Some name)
    end;
  matches self info names :=
    all_matches ← lookup self info names;
    mret (negb (is_empty all_matches));
|}.

End Model.
Arguments BartFilter {HI} Tb.
Arguments RulesetEntry {HI}.
End BartFilter.
