(* ===== verification/BartFilterSpec.v ===== *)
(** * What the packet filter over routing tables grants

    The filter refines the map of rulesets it was given: the structures for the fields hold
    exactly the rules that are in force, and a packet matches the rules that the map filter
    matches it with, up to the two ways in which the code departs from it (longest source
    prefixes only, and port ranges of 65535 ports). *)

From Stdlib Require Import Sorted.
From S2P Require Import Prelude Bitset DynBitset IpNet BartNode IpTrie IpTrieMod IpTrieLookup RoutingTable SplitStackTable BartTable IdSets PortTrie PortTrieSpec CapLookup DstLookup PacketFilter BartFilter.
Import DynBitset IpNet RoutingTable IdSets PortTrieSpec PacketFilter BartFilter.

Module BartFilterSpec.

Lemma bits_sorted s : wfs s -> StronglySorted lt (bits 1 s).
Proof. intros Hw. rewrite (dbits_spec 1 one_pos s Hw). apply Bitset.members_sorted. Qed.

Lemma bits_snoc s s' id :
  wfs s -> wfs s' -> (forall i, mem s' i = bool_decide (i = id) || mem s i) -> (forall i, mem s i = true -> (i < id)%nat) ->
  bits 1 s' = bits 1 s ++ [id].
Proof.
  intros Hw Hw' Hm Hlt. apply BartNode.sorted_ext; [by apply bits_sorted| |].
  - pose proof (bits_sorted s Hw) as Hs.
    assert (Hb : forall i, i ∈ bits 1 s -> (i < id)%nat) by (intros i Hi; apply Hlt; by apply (dbits_mem 1 one_pos s i Hw)).
    clear -Hs Hb. induction Hs as [|x l Hs IH Hx]; [repeat constructor|]. cbn [app]. constructor; [apply IH; set_solver|].
    apply Forall_app. split; [done|]. repeat constructor. apply Hb. set_solver.
  - intros i. rewrite elem_of_app, !(dbits_mem 1 one_pos) by done. rewrite Hm, orb_true_iff, bool_decide_eq_true. set_solver.
Qed.

(** ** Relations between the values of a field and rules *)

Section Spec.
Context `{HI : Ipnet} `{HL : !IpnetLaws} {Tb It : Type} `{HR : !RoutingTable Tb IdSet It} `{HT : !RoutingTableLaws Tb IdSet It}.
Implicit Types self : BartFilter Tb.
Implicit Types rho : gmap nat Rule.

(** [rel] relates the numbers in [rho] with the values of their rules. *)
Definition indexes {A} (get : Rule -> A -> Prop) rho (rel : A -> nat -> Prop) : Prop :=
  forall x r, rel x r <-> exists rule, rho !! r = Some rule /\ get rule x.

Lemma indexes_insert {A} (get : Rule -> A -> Prop) rho (rel rel' : A -> nat -> Prop) id rule :
  indexes get rho rel -> rho !! id = None -> (forall x r, rel' x r <-> rel x r \/ r = id /\ get rule x) ->
  indexes get (<[id := rule]> rho) rel'.
Proof.
  intros H Hid Hrel x r. rewrite Hrel, (H x r). destruct (decide (r = id)) as [->|Hr].
  - rewrite lookup_insert_eq, Hid. naive_solver.
  - rewrite lookup_insert_ne by done. naive_solver.
Qed.

Lemma indexes_delete {A} (get : Rule -> A -> Prop) rho (rel rel' : A -> nat -> Prop) id rule :
  indexes get rho rel -> rho !! id = Some rule -> (forall x r, rel' x r <-> rel x r /\ ~ (r = id /\ get rule x)) ->
  indexes get (base.delete id rho) rel'.
Proof.
  intros H Hid Hrel x r. rewrite Hrel, (H x r). destruct (decide (r = id)) as [->|Hr].
  - rewrite lookup_delete_eq, Hid. naive_solver.
  - rewrite lookup_delete_ne by done. naive_solver.
Qed.

Lemma indexes_empty {A} (get : Rule -> A -> Prop) (rel : A -> nat -> Prop) : (forall x r, ~ rel x r) -> indexes get ∅ rel.
Proof. intros H x r. split; [by intros ?%H|]. by intros (? & ? & _). Qed.

(** The structures hold the rules of [rho], with [M] and [D] the routes of the two tables. *)
Record parts_wf self rho (M D : Routes IdSet) : Prop := {
  parts_caps : CapLookup.wf (caps self);
  parts_accepts : indexes (fun rule c => c ∈ src_caps (src rule)) rho (CapLookup.accepts (caps self));
  parts_srcs : rt_repr (srcs self) M;
  parts_full : full_routes M;
  parts_holds : indexes (fun rule x => keyed (pfxs (src rule)) (fst x) (snd x)) rho (fun x r => holds M (fst x) (snd x) r);
  parts_dsts : DstLookup.wf (dsts self) D;
  parts_has : indexes (fun rule d => d ∈ dst rule) rho (DstLookup.has (dsts self));
  parts_sets p : full (ip_protos self !! p);
  parts_protos : indexes (fun rule p => p ∈ protos rule) rho (fun p r => omem (ip_protos self !! p) r = true);
}.

(** ** The loops *)

Lemma set_protos_spec l m id :
  (forall p, full (m !! p)) ->
  exists m', set_protos m l id = Done m' /\ (forall p, full (m' !! p)) /\
    forall p r, omem (m' !! p) r = true <-> omem (m !! p) r = true \/ r = id /\ p ∈ l.
Proof.
  revert m. induction l as [|q l IH]; intros m Hf; cbn [set_protos].
  - exists m. split_and!; [done..|]. set_solver.
  - assert (Hw : wfs (match m !! q with Some s => s | None => empty end)) by (destruct (m !! q) eqn:E; [by apply (Hf q)|apply wfs_empty]).
    destruct (dset_spec 1 one_pos _ id Hw) as (s & -> & Hws & Hm). cbn [mbind outcome_bind].
    assert (Hs : forall r, mem s r = true <-> r = id \/ omem (m !! q) r = true).
    { intros r. rewrite Hm, orb_true_iff, bool_decide_eq_true. destruct (m !! q); done. }
    destruct (IH (<[q := s]> m)) as (m' & -> & Hf' & Hm').
    { intros p. rewrite lookup_insert. case_decide; [|apply Hf]. intros v [= <-]. split; [done|]. exists id. apply Hs. by left. }
    exists m'. split_and!; [done..|]. intros p r. rewrite Hm', lookup_insert. clear Hm'. case_decide; subst; cbn [omem]; rewrite ?Hs; set_solver.
Qed.

Lemma clear_protos_spec l m id :
  (forall p, full (m !! p)) ->
  exists m', clear_protos m l id = Done m' /\ (forall p, full (m' !! p)) /\
    forall p r, omem (m' !! p) r = true <-> omem (m !! p) r = true /\ ~ (r = id /\ p ∈ l).
Proof.
  revert m. induction l as [|q l IH]; intros m Hf; cbn [clear_protos].
  - exists m. split_and!; [done..|]. set_solver.
  - assert (exists b m1, match m !! q with
        | Some rules => rules ← DynBitset.clear 1 rules id; mret (is_empty rules, <[q := rules]> m)
        | None => mret (false, m) end = Done (b, m1) /\ let m2 := if b : bool then base.delete q m1 else m1 in
        (forall p, full (m2 !! p)) /\ forall p r, omem (m2 !! p) r = true <-> omem (m !! p) r = true /\ ~ (r = id /\ p = q)) as (b & m1 & -> & Hf1 & Hm1).
    { destruct (m !! q) as [s|] eqn:E; [|exists false, m; cbv zeta; split_and!; [done..|]; intros p r; split; [|by intros []]; intros Hr; split; [done|]; intros [-> ->]; by rewrite E in Hr].
      destruct (Hf q s E) as [Hw _]. destruct (dclear_spec 1 one_pos s id Hw) as (s' & -> & Hw' & Hm). eexists _, _. split; [done|].
      assert (Hl : forall p, (if is_empty s' then base.delete q (<[q := s']> m) else <[q := s']> m) !! p =
        if decide (p = q) then (if is_empty s' then None else Some s') else m !! p).
      { intros p. destruct (is_empty s'); rewrite ?lookup_delete, ?lookup_insert; repeat case_decide; congruence. }
      split.
      - intros p. rewrite Hl. case_decide; [|apply Hf]. destruct (is_empty s') eqn:Ee; [apply full_None|]. intros v [= <-]. split; [done|by apply is_empty_mem].
      - intros p r. rewrite Hl. case_decide; [subst; rewrite E|clear Hl Hm; set_solver].
        assert (omem (if is_empty s' then None else Some s') r = mem s' r) as ->.
        { destruct (is_empty s') eqn:Ee; [|done]. symmetry. by apply is_empty_none. }
        cbn [omem]. rewrite Hm, andb_true_iff, negb_true_iff, bool_decide_eq_false. clear. naive_solver. }
    cbn [mbind outcome_bind]. destruct (IH _ Hf1) as (m' & -> & Hf' & Hm'). exists m'. split_and!; [done..|]. intros p r. rewrite Hm', Hm1. clear. set_solver.
Qed.

Lemma insert_caps_spec l c id :
  CapLookup.wf c ->
  exists c', insert_caps c l id = Done c' /\ CapLookup.wf c' /\
    forall x r, CapLookup.accepts c' x r <-> CapLookup.accepts c x r \/ r = id /\ x ∈ l.
Proof.
  revert c. induction l as [|n l IH]; intros c Hc; cbn [insert_caps]; [exists c; split_and!; [done..|set_solver]|].
  destruct (CapLookup.cap_insert_spec c n id Hc) as (i & c1 & -> & Hc1 & H1). cbn [mbind outcome_bind].
  destruct (IH c1 Hc1) as (c2 & -> & Hc2 & H2). exists c2. split_and!; [done..|]. intros x r. rewrite H2, H1. set_solver.
Qed.

Lemma remove_caps_spec l c id :
  CapLookup.wf c ->
  exists c', remove_caps c l id = Done c' /\ CapLookup.wf c' /\
    forall x r, CapLookup.accepts c' x r <-> CapLookup.accepts c x r /\ ~ (r = id /\ x ∈ l).
Proof.
  revert c. induction l as [|n l IH]; intros c Hc; cbn [remove_caps]; [exists c; split_and!; [done..|set_solver]|].
  destruct (CapLookup.cap_remove_spec c id n Hc) as (c1 & -> & Hc1 & H1). cbn [mbind outcome_bind].
  destruct (IH c1 Hc1) as (c2 & -> & Hc2 & H2). exists c2. split_and!; [done..|]. intros x r. rewrite H2, H1. set_solver.
Qed.

(** The prefixes of destinations. *)
Definition dst_count (l : list DstMatch) : Z := Z.of_nat (length (flat_map ips l)).

Lemma insert_dsts_spec l d D id :
  DstLookup.wf d D -> Forall (fun x => range_ok (ports x)) l -> rsize D + dst_count l < U64 ->
  exists d' D', insert_dsts d l id = Done d' /\ DstLookup.wf d' D' /\ rsize D' <= rsize D + dst_count l /\
    forall x r, DstLookup.has d' x r <-> DstLookup.has d x r \/ r = id /\ x ∈ l.
Proof.
  intros Hd Hl. revert d D Hd. induction Hl as [|x l Hx Hl IH]; intros d D Hd Hsz; cbn [insert_dsts].
  - exists d, D. split_and!; [done..|unfold dst_count; simpl; lia|set_solver].
  - unfold dst_count in *. cbn [flat_map] in *. rewrite length_app in *.
    destruct (DstLookup.dst_insert_spec d D id x Hd Hx) as (d1 & D1 & -> & Hd1 & Hs1 & H1); [lia|]. cbn [mbind outcome_bind].
    destruct (IH d1 D1 Hd1) as (d2 & D2 & -> & Hd2 & Hs2 & H2); [lia|]. exists d2, D2. split_and!; [done..|lia|]. intros y r. rewrite H2, H1. set_solver.
Qed.

Lemma remove_dsts_spec l d D id :
  DstLookup.wf d D -> rsize D + 1 < U64 ->
  exists d' D', remove_dsts d l id = Done d' /\ DstLookup.wf d' D' /\ rsize D' <= rsize D /\
    forall x r, DstLookup.has d' x r <-> DstLookup.has d x r /\ ~ (r = id /\ x ∈ l).
Proof.
  revert d D. induction l as [|x l IH]; intros d D Hd Hsz; cbn [remove_dsts].
  - exists d, D. split_and!; [done..|set_solver].
  - destruct (DstLookup.dst_remove_spec d D id x Hd Hsz) as (d1 & D1 & -> & Hd1 & Hs1 & H1). cbn [mbind outcome_bind].
    destruct (IH d1 D1 Hd1) as (d2 & D2 & -> & Hd2 & Hs2 & H2); [lia|]. exists d2, D2. split_and!; [done..|lia|]. intros y r. rewrite H2, H1. set_solver.
Qed.

(** ** The bookkeeping of rules *)

(** The rulesets [R], the names of the rules [v] and the free numbers [f] agree with [rho]. *)
Record books (R : gmap string RulesetEntry) (v : list (option string)) (f : IdSet) rho : Prop := {
  books_ids name ent : R !! name = Some ent -> wfs (rule_ids ent);
  books_rules name ent : R !! name = Some ent ->
    Forall2 (fun id rule => rho !! id = Some rule /\ v !! id = Some (Some name)) (bits 1 (rule_ids ent)) (ruleset ent);
  books_cover id rule : rho !! id = Some rule -> exists name ent, R !! name = Some ent /\ (id, rule) ∈ rules_and_ids ent;
  books_free : wfs f;
  books_freed id : mem f id = true -> v !! id = Some None;
}.

(** The numbers of a ruleset under construction are below those it may still get. *)
Definition above (ids : IdSet) (v : list (option string)) (f : IdSet) : Prop :=
  forall i, mem ids i = true -> (i < length v)%nat /\ forall j, mem f j = true -> (i < j)%nat.

Lemma Forall2_zip {A B} (P : A -> B -> Prop) l l' x y : Forall2 P l l' -> (x, y) ∈ zip l l' -> P x y.
Proof. intros H. induction H as [|a b l l' Hab _ IH]; cbn [zip zip_with]; [by intros ?%not_elem_of_nil|]. by intros [[= -> ->]|?]%elem_of_cons; [|apply IH]. Qed.

Lemma books_named R v f rho id rule :
  books R v f rho -> rho !! id = Some rule ->
  exists name ent, R !! name = Some ent /\ rule ∈ ruleset ent /\ v !! id = Some (Some name) /\ (id, rule) ∈ rules_and_ids ent.
Proof.
  intros Hb Hr. destruct (books_cover _ _ _ _ Hb _ _ Hr) as (name & ent & He & Hin). exists name, ent.
  destruct (Forall2_zip _ _ _ _ _ (books_rules _ _ _ _ Hb _ _ He) Hin) as [_ Hv]. split_and!; [done| |done..].
  unfold rules_and_ids in Hin. apply list_elem_of_lookup in Hin as [i Hi]. apply lookup_zip_with_Some in Hi as (? & ? & [= -> ->] & _ & Hi).
  by eapply list_elem_of_lookup_2.
Qed.

Lemma books_unnamed R v f rho id : books R v f rho -> (forall n, v !! id <> Some (Some n)) -> rho !! id = None.
Proof.
  intros Hb Hv. destruct (rho !! id) as [rule|] eqn:E; [|done]. destruct (books_named _ _ _ _ _ _ Hb E) as (n & ? & _ & _ & Hn & _). by apply Hv in Hn.
Qed.

Lemma new_id_spec ids R v f rho :
  books R v f rho -> above ids v f ->
  exists id v' f', new_rule_id v f = Done (id, v', f') /\ (id < length v')%nat /\ (length v <= length v')%nat /\
    (forall j x, v' !! j = Some (Some x) <-> v !! j = Some (Some x)) /\ (forall x, v !! id <> Some (Some x)) /\
    wfs f' /\ (forall j, mem f' j = true -> (id < j)%nat /\ v' !! j = Some None) /\ (forall i, mem ids i = true -> (i < id)%nat).
Proof.
  intros [_ _ _ Hf Hfr] Hab. unfold new_rule_id. destruct (pop_freelist_spec f Hf) as (o & f' & -> & Hf' & Hpop). cbn [mbind outcome_bind].
  destruct o as [id|].
  - destruct Hpop as (Hin & Hmin & Hm). pose proof (Hfr _ Hin) as Hid. exists id, v, f'. split_and!; [done|by eapply lookup_lt_Some|done|done|congruence|done| |].
    + intros j Hj. rewrite Hm in Hj. apply andb_true_iff in Hj as [Hn%negb_true_iff%bool_decide_eq_false_1 Hj]. specialize (Hmin _ Hj). split; [lia|auto].
    + intros i Hi. by apply (proj2 (Hab i Hi)).
  - destruct Hpop as [-> Hnone]. exists (length v), (v ++ [None]), f. rewrite length_app. cbn [length]. split_and!; [done|lia|lia| | |done| |].
    + intros j x. destruct (decide (j < length v)%nat); [by rewrite lookup_app_l|]. rewrite lookup_app_r, (lookup_ge_None_2 v) by lia. destruct (j - length v)%nat; done.
    + intros x. by rewrite lookup_ge_None_2.
    + intros j Hj. by rewrite Hnone in Hj.
    + intros i Hi. exact (proj1 (Hab i Hi)).
Qed.

(** A rule added to a ruleset under construction. *)
Lemma books_insert R v f rho name L ids ids' id rule v' f' :
  books (<[name := mkEntry L ids]> R) v f rho ->
  (id < length v')%nat -> (forall j x, v' !! j = Some (Some x) <-> v !! j = Some (Some x)) -> (forall x, v !! id <> Some (Some x)) ->
  wfs f' -> (forall j, mem f' j = true -> (id < j)%nat /\ v' !! j = Some None) -> (forall i, mem ids i = true -> (i < id)%nat) ->
  wfs ids' -> (forall i, mem ids' i = bool_decide (i = id) || mem ids i) ->
  books (<[name := mkEntry (L ++ [rule]) ids']> R) (<[id := Some name]> v') f' (<[id := rule]> rho).
Proof.
  intros Hb Hlt Hv Hid Hf' Hfr' Hle Hw' Hm. pose proof Hb as [B1 B2 B3 B4 B5].
  pose proof (B1 name (mkEntry L ids) ltac:(apply lookup_insert_eq)) as Hw. cbn [rule_ids] in Hw.
  pose proof (books_unnamed _ _ _ _ id Hb Hid) as Hnew.
  assert (Hkeep : forall n l l', Forall2 (fun i r => rho !! i = Some r /\ v !! i = Some (Some n)) l l' ->
    Forall2 (fun i r => <[id := rule]> rho !! i = Some r /\ <[id := Some name]> v' !! i = Some (Some n)) l l').
  { intros n l l' H. eapply Forall2_impl; [exact H|]. intros i r [Hi Hn]. assert (i <> id) by congruence.
    rewrite lookup_insert_ne, list_lookup_insert_ne by done. split; [done|by apply Hv]. }
  pose proof (bits_snoc ids ids' id Hw Hw' Hm Hle) as Eb.
  pose proof (B2 name (mkEntry L ids) ltac:(apply lookup_insert_eq)) as Hold. cbn [rule_ids ruleset] in Hold.
  assert (Hnow : rules_and_ids (mkEntry (L ++ [rule]) ids') = rules_and_ids (mkEntry L ids) ++ [(id, rule)]).
  { unfold rules_and_ids. cbn [rule_ids ruleset]. rewrite Eb. rewrite zip_with_app by (by eapply Forall2_length). done. }
  split; [| | |done|].
  - intros n ent. rewrite lookup_insert. case_decide; [by intros [= <-]|]. intros He. apply (B1 n). by rewrite lookup_insert_ne.
  - intros n ent. rewrite lookup_insert. case_decide as Hd.
    + intros [= <-]. subst. cbn [rule_ids ruleset]. rewrite Eb. apply Forall2_app; [by apply Hkeep|]. repeat constructor; [apply lookup_insert_eq|by apply list_lookup_insert_eq].
    + intros He. apply Hkeep, B2. by rewrite lookup_insert_ne.
  - intros i r. rewrite lookup_insert. case_decide as Hd.
    + intros [= <-]. subst. exists name. eexists. split; [apply lookup_insert_eq|]. rewrite Hnow. set_solver.
    + intros (n & ent & He & Hin)%B3. destruct (decide (n = name)) as [->|Hn].
      * rewrite lookup_insert_eq in He. injection He as <-. exists name. eexists. split; [apply lookup_insert_eq|]. rewrite Hnow. set_solver.
      * rewrite lookup_insert_ne in He by done. exists n, ent. by rewrite lookup_insert_ne.
  - intros j [Hj1 Hj2]%Hfr'. rewrite list_lookup_insert_ne by lia. done.
Qed.

(** ** Inserting rules *)

Definition rule_ok (rule : Rule) : Prop := Forall (fun d => range_ok (ports d)) (dst rule).

(** The prefixes of a rule. *)
Definition rule_weight (rule : Rule) : Z := Z.of_nat (length (pfxs (src rule))) + dst_count (dst rule).

Lemma insert_rule_spec self ids name rule L R rho M D (n : Z) :
  parts_wf self rho M D -> books (<[name := mkEntry L ids]> R) (rules_to_rulesets self) (rule_freelist self) rho ->
  above ids (rules_to_rulesets self) (rule_freelist self) -> rule_ok rule ->
  rsize M <= n -> rsize D <= n -> n + rule_weight rule < U64 ->
  exists self' ids' rho' M' D', insert_rule self ids name rule = Done (self', ids') /\ rulesets self' = rulesets self /\
    parts_wf self' rho' M' D' /\ books (<[name := mkEntry (L ++ [rule]) ids']> R) (rules_to_rulesets self') (rule_freelist self') rho' /\
    above ids' (rules_to_rulesets self') (rule_freelist self') /\ rsize M' <= n + rule_weight rule /\ rsize D' <= n + rule_weight rule.
Proof.
  intros [P1 P2 P3 P4 P5 P6 P7 P8 P9] Hb Hab Hok HM HD Hn. unfold insert_rule, rule_weight in *.
  assert (0 <= dst_count (dst rule)) by (unfold dst_count; lia).
  destruct (new_id_spec ids _ _ _ _ Hb Hab) as (id & v' & f' & -> & Hlt & Hlen & Hv & Hid & Hf' & Hfr & Hle). cbn [mbind outcome_bind].
  pose proof (books_unnamed _ _ _ _ id Hb Hid) as Hnew.
  destruct (dset_spec 1 one_pos ids id) as (ids' & -> & Hw' & Hm'); [exact (books_ids _ _ _ _ Hb name _ (lookup_insert_eq _ _ _))|]. cbn [mbind outcome_bind].
  rewrite store_in by done. cbn [mbind outcome_bind]. destruct (set_protos_spec (protos rule) (ip_protos self) id P8) as (m & -> & Hmf & Hm). cbn [mbind outcome_bind].
  destruct (insert_caps_spec (src_caps (src rule)) (caps self) id P1) as (c & -> & Hc & Hca). cbn [mbind outcome_bind].
  destruct (set_each id (pfxs (src rule)) (srcs self) M P3 P4 ltac:(lia)) as (t & M' & -> & Ht & HMf & Hs & Hh). cbn [mbind outcome_bind].
  destruct (insert_dsts_spec (dst rule) (dsts self) D id P6 Hok ltac:(lia)) as (d & D' & -> & Hd & HsD & Hhd). cbn [mbind outcome_bind].
  eexists _, ids', (<[id := rule]> rho), M', D'. split; [done|]. cbn [rulesets rules_to_rulesets rule_freelist]. split_and!; [done| | | |lia|lia].
  - split; cbn [caps srcs dsts ip_protos]; [done| |done|done| |done| |done|].
    + eapply indexes_insert; [exact P2|done|done].
    + eapply indexes_insert; [exact P5|done|]. intros [fam k] r. apply Hh.
    + eapply indexes_insert; [exact P7|done|done].
    + eapply indexes_insert; [exact P9|done|done].
  - by eapply books_insert.
  - intros i Hi. rewrite length_insert. rewrite Hm' in Hi. apply orb_true_iff in Hi as [->%bool_decide_eq_true_1|Hi].
    + split; [done|]. intros j Hj. by apply (Hfr j).
    + pose proof (Hle _ Hi). split; [lia|]. intros j Hj. pose proof (Hfr _ Hj). lia.
Qed.

Definition rules_weight (rules : list Rule) : Z := foldr (fun r n => rule_weight r + n) 0 rules.

Lemma rule_weight_nonneg rule : 0 <= rule_weight rule.
Proof. unfold rule_weight, dst_count. lia. Qed.

Lemma rules_weight_nonneg rules : 0 <= rules_weight rules.
Proof. induction rules as [|r l IH]; [done|]. unfold rules_weight. cbn [foldr]. fold (rules_weight l). pose proof (rule_weight_nonneg r). lia. Qed.

Lemma insert_rules_spec rules self ids name L R rho M D (n : Z) :
  parts_wf self rho M D -> books (<[name := mkEntry L ids]> R) (rules_to_rulesets self) (rule_freelist self) rho ->
  above ids (rules_to_rulesets self) (rule_freelist self) -> Forall rule_ok rules ->
  rsize M <= n -> rsize D <= n -> n + rules_weight rules < U64 ->
  exists self' ids' rho' M' D', insert_rules self ids name rules = Done (self', ids') /\ rulesets self' = rulesets self /\
    parts_wf self' rho' M' D' /\ books (<[name := mkEntry (L ++ rules) ids']> R) (rules_to_rulesets self') (rule_freelist self') rho' /\
    rsize M' <= n + rules_weight rules /\ rsize D' <= n + rules_weight rules.
Proof.
  intros Hp Hb Hab Hok. revert self ids L rho M D n Hp Hb Hab. induction Hok as [|rule rules Hr Hok IH]; intros self ids L rho M D n Hp Hb Hab HM HD Hn; cbn [insert_rules].
  - exists self, ids, rho, M, D. rewrite app_nil_r. split_and!; [done..|unfold rules_weight; simpl; lia|unfold rules_weight; simpl; lia].
  - unfold rules_weight in *. cbn [foldr] in *. fold (rules_weight rules) in *. pose proof (rules_weight_nonneg rules). pose proof (rule_weight_nonneg rule).
    destruct (insert_rule_spec self ids name rule L R rho M D n Hp Hb Hab Hr HM HD) as (s1 & i1 & r1 & M1 & D1 & -> & E1 & Hp1 & Hb1 & Hab1 & HM1 & HD1); [lia|].
    cbn [mbind outcome_bind].
    destruct (IH s1 i1 (L ++ [rule]) r1 M1 D1 (n + rule_weight rule) Hp1 Hb1 Hab1 HM1 HD1) as (s2 & i2 & r2 & M2 & D2 & -> & E2 & Hp2 & Hb2 & HM2 & HD2); [lia|].
    exists s2, i2, r2, M2, D2. rewrite <- app_assoc in Hb2. split_and!; [done|congruence|done|done|lia|lia].
Qed.

(** ** Removing rules *)

Lemma remove_rule_spec self id rule rho M D :
  parts_wf self rho M D -> rho !! id = Some rule -> rsize M + 1 < U64 -> rsize D + 1 < U64 ->
  exists self' M' D', remove_rule self id rule = Done self' /\ rulesets self' = rulesets self /\
    rules_to_rulesets self' = rules_to_rulesets self /\ rule_freelist self' = rule_freelist self /\
    parts_wf self' (base.delete id rho) M' D' /\ rsize M' <= rsize M /\ rsize D' <= rsize D.
Proof.
  intros [P1 P2 P3 P4 P5 P6 P7 P8 P9] Hid HM HD. unfold remove_rule.
  destruct (clear_protos_spec (protos rule) (ip_protos self) id P8) as (m & -> & Hmf & Hm). cbn [mbind outcome_bind].
  destruct (remove_dsts_spec (dst rule) (dsts self) D id P6 HD) as (d & D' & -> & Hd & HsD & Hhd). cbn [mbind outcome_bind].
  destruct (remove_caps_spec (src_caps (src rule)) (caps self) id P1) as (c & -> & Hc & Hca). cbn [mbind outcome_bind].
  destruct (clear_each id (pfxs (src rule)) (srcs self) M P3 P4 HM) as (t & M' & -> & Ht & HMf & Hs & Hh). cbn [mbind outcome_bind].
  eexists _, M', D'. split; [done|]. cbn [rulesets rules_to_rulesets rule_freelist]. split_and!; [done..| |done|done].
  split; cbn [caps srcs dsts ip_protos]; [done| |done|done| |done| |done|].
  - eapply indexes_delete; [exact P2|exact Hid|done].
  - eapply indexes_delete; [exact P5|exact Hid|]. intros [fam k] r. apply Hh.
  - eapply indexes_delete; [exact P7|exact Hid|done].
  - eapply indexes_delete; [exact P9|exact Hid|done].
Qed.

Definition without rho (ids : list nat) : gmap nat Rule := foldl (fun rho id => base.delete id rho) rho ids.

Lemma without_lookup ids rho i : without rho ids !! i = if decide (i ∈ ids) then None else rho !! i.
Proof.
  revert rho. induction ids as [|j ids IH]; intros rho; cbn [without foldl].
  - by rewrite decide_False by apply not_elem_of_nil.
  - fold (without (base.delete j rho) ids). rewrite IH, lookup_delete. repeat case_decide; set_solver.
Qed.

Lemma remove_rules_spec l self rho M D :
  parts_wf self rho M D -> Forall (fun x => rho !! fst x = Some (snd x)) l -> NoDup (map fst l) -> rsize M + 1 < U64 -> rsize D + 1 < U64 ->
  exists self' M' D', remove_rules self l = Done self' /\ rulesets self' = rulesets self /\
    rules_to_rulesets self' = rules_to_rulesets self /\ rule_freelist self' = rule_freelist self /\
    parts_wf self' (without rho (map fst l)) M' D' /\ rsize M' <= rsize M /\ rsize D' <= rsize D.
Proof.
  revert self rho M D. induction l as [|[id rule] l IH]; intros self rho M D Hp Hl Hnd HM HD; cbn [remove_rules map without foldl fst].
  - by exists self, M, D.
  - apply Forall_cons in Hl as [Hid Hl]. cbn [map] in Hnd. apply NoDup_cons in Hnd as [Hni Hnd]. cbn [fst snd] in *.
    destruct (remove_rule_spec self id rule rho M D Hp Hid HM HD) as (s1 & M1 & D1 & -> & E1 & E2 & E3 & Hp1 & HM1 & HD1). cbn [mbind outcome_bind].
    destruct (IH s1 (base.delete id rho) M1 D1 Hp1) as (s2 & M2 & D2 & -> & F1 & F2 & F3 & Hp2 & HM2 & HD2); [|done|lia|lia|].
    + rewrite Forall_forall in *. intros x Hx. rewrite lookup_delete_ne; [by apply Hl|]. intros ->. apply Hni. apply list_elem_of_In, in_map, list_elem_of_In, Hx.
    + exists s2, M2, D2. split_and!; [done|congruence..|done|lia|lia].
Qed.

Lemma forget_ids_spec ids v :
  Forall (fun i => (i < length v)%nat) ids ->
  exists v', forget_ids v ids = Done v' /\ length v' = length v /\ forall i, v' !! i = if decide (i ∈ ids) then (if decide (i < length v)%nat then Some None else None) else v !! i.
Proof.
  revert v. induction ids as [|j ids IH]; intros v Hv; cbn [forget_ids].
  - exists v. split_and!; [done..|]. intros i. by rewrite decide_False by apply not_elem_of_nil.
  - apply Forall_cons in Hv as [Hj Hv]. rewrite store_in by done. cbn [mbind outcome_bind].
    destruct (IH (<[j := None]> v)) as (v' & -> & Hl & Hv'); [eapply Forall_impl; [exact Hv|]; intros; by rewrite length_insert|].
    rewrite length_insert in *. exists v'. split_and!; [done..|]. intros i. rewrite Hv'. destruct (decide (i ∈ ids)).
    + by rewrite (decide_True (P := i ∈ j :: ids)) by set_solver.
    + destruct (decide (i = j)) as [->|]; [|rewrite list_lookup_insert_ne, decide_False by set_solver; done].
      rewrite (decide_True (P := j ∈ j :: ids)), decide_True by set_solver. by apply list_lookup_insert_eq.
Qed.

Lemma parts_same self self' rho M D :
  caps self' = caps self -> srcs self' = srcs self -> dsts self' = dsts self -> ip_protos self' = ip_protos self ->
  parts_wf self rho M D -> parts_wf self' rho M D.
Proof. intros E1 E2 E3 E4 [P1 P2 P3 P4 P5 P6 P7 P8 P9]. split; rewrite ?E1, ?E2, ?E3, ?E4; done. Qed.

Lemma bits_in_range R v f rho name ent :
  books R v f rho -> R !! name = Some ent -> Forall (fun i => (i < length v)%nat) (bits 1 (rule_ids ent)).
Proof.
  intros Hb He. pose proof (books_rules _ _ _ _ Hb _ _ He) as H. induction H as [|i r l l' [_ Hi] _ IH]; constructor; [by eapply lookup_lt_Some|done].
Qed.

Lemma books_ids_named R v f rho name ent i :
  books R v f rho -> R !! name = Some ent -> i ∈ bits 1 (rule_ids ent) -> v !! i = Some (Some name) /\ exists r, rho !! i = Some r.
Proof.
  intros Hb He Hi. pose proof (books_rules _ _ _ _ Hb _ _ He) as H. induction H as [|j r l l' [Hr Hj] _ IH]; [by apply not_elem_of_nil in Hi|].
  apply elem_of_cons in Hi as [->|Hi]; [eauto|auto].
Qed.

Lemma books_remove R v f rho name ent v' :
  books R v f rho -> R !! name = Some ent ->
  (forall i, v' !! i = if decide (i ∈ bits 1 (rule_ids ent)) then (if decide (i < length v)%nat then Some None else None) else v !! i) ->
  books (base.delete name R) v' (union_inplace f (rule_ids ent)) (without rho (bits 1 (rule_ids ent))).
Proof.
  intros Hb He Hv. pose proof Hb as [B1 B2 B3 B4 B5]. pose proof (B1 _ _ He) as Hw. split.
  - intros n e [_ Hn]%lookup_delete_Some. by eapply B1.
  - intros n e [Hne Hn]%lookup_delete_Some. eapply Forall2_impl; [by apply B2|]. intros i r [Hi Hvi].
    assert (i ∉ bits 1 (rule_ids ent)) by (intros Hin; destruct (books_ids_named _ _ _ _ _ _ _ Hb He Hin); congruence).
    rewrite without_lookup, Hv, !decide_False by done. done.
  - intros i r. rewrite without_lookup. case_decide as Hi; [done|]. intros (n & e & Hn & Hin)%B3. exists n, e. split; [|done].
    rewrite lookup_delete_ne; [done|]. intros ->. assert (e = ent) as -> by congruence. apply Hi. unfold rules_and_ids in Hin.
    apply list_elem_of_lookup in Hin as [k Hk]. apply lookup_zip_with_Some in Hk as (? & ? & [= -> ->] & Hk & _). by eapply list_elem_of_lookup_2.
  - apply (wf_union 1); [lia|done..].
  - intros i. rewrite (dunion_spec 1 one_pos) by done. rewrite Hv, orb_true_iff. case_decide as Hi.
    + intros _. pose proof (bits_in_range _ _ _ _ _ _ Hb He) as Hr. rewrite Forall_forall in Hr. by rewrite decide_True by (by apply Hr).
    + intros [Hf|Hm]; [by apply B5|]. apply (dbits_mem 1 one_pos _ _ Hw) in Hm. done.
Qed.

Lemma books_compact R v f rho f' :
  books R v f rho -> wfs f' -> (forall i, mem f' i = bool_decide (i < length (trim v))%nat && mem f i) -> books R (trim v) f' rho.
Proof.
  intros [B1 B2 B3 B4 B5] Hf Hm. split; [done| |done|done|].
  - intros n e He. eapply Forall2_impl; [by apply B2|]. intros i r [Hr Hi]. split; [done|by apply trim_Some].
  - intros i Hi. rewrite Hm in Hi. apply andb_true_iff in Hi as [Hlt%bool_decide_eq_true_1 Hi]. rewrite trim_lookup by done. by apply B5.
Qed.

(** ** The filter *)

(** The filter holds its rulesets, in tables of at most [n] prefixes. *)
Definition filter_wf self (n : Z) : Prop :=
  exists rho M D, parts_wf self rho M D /\ books (rulesets self) (rules_to_rulesets self) (rule_freelist self) rho /\ rsize M <= n /\ rsize D <= n.

Lemma bart_compact_spec self n :
  filter_wf self n -> exists self', compact self = Done self' /\ filter_wf self' n /\ rulesets self' = rulesets self.
Proof.
  intros (rho & M & D & Hp & Hb & HM & HD). unfold compact.
  destruct (dzero_from_spec 1 one_pos (rule_freelist self) (length (trim (rules_to_rulesets self))) (books_free _ _ _ _ Hb)) as (f & -> & Hf & Hm).
  eexists. split; [done|]. split; [|done]. exists rho, M, D. split_and!; [by apply (parts_same self)|by eapply books_compact|done|done].
Qed.

Lemma bart_remove_spec self n name :
  filter_wf self n -> n + 1 < U64 ->
  exists self', remove self name = Done self' /\ filter_wf self' n /\ rulesets self' = base.delete name (rulesets self).
Proof.
  intros (rho & M & D & Hp & Hb & HM & HD) Hn. unfold remove. destruct (rulesets self !! name) as [ent|] eqn:He.
  2: { exists self. split_and!; [done|by exists rho, M, D|]. by rewrite delete_id. }
  destruct (forget_ids_spec _ _ (bits_in_range _ _ _ _ _ _ Hb He)) as (v' & -> & Hl & Hv). cbn [mbind outcome_bind].
  pose proof (books_rules _ _ _ _ Hb _ _ He) as Hr. pose proof (books_ids _ _ _ _ Hb _ _ He) as Hw.
  assert (Hfst : map fst (rules_and_ids ent) = bits 1 (rule_ids ent)).
  { unfold rules_and_ids. change (map fst) with (fmap (M := list) (@fst nat Rule)). apply fst_zip. by rewrite (Forall2_length _ _ _ Hr). }
  set (self1 := mkFilter _ _ _ _ _ _ _). assert (Hp1 : parts_wf self1 rho M D) by (by apply (parts_same self)).
  destruct (remove_rules_spec (rules_and_ids ent) self1 rho M D Hp1) as (s2 & M2 & D2 & -> & E1 & E2 & E3 & Hp2 & HM2 & HD2); [| |lia|lia|].
  - apply Forall_forall. intros [i r] Hin. by destruct (Forall2_zip _ _ _ _ _ Hr Hin).
  - rewrite Hfst. pose proof (bits_sorted _ Hw) as Hs. clear -Hs. induction Hs as [|x l Hs IH Hx]; constructor; [|done].
    intros Hin. rewrite Forall_forall in Hx. apply Hx in Hin. lia.
  - cbn [mbind outcome_bind]. destruct (bart_compact_spec s2 n) as (s3 & -> & Hw3 & Er).
    + exists (without rho (bits 1 (rule_ids ent))), M2, D2. rewrite Hfst in Hp2. split_and!; [done| |lia|lia]. rewrite E1, E2, E3. by eapply books_remove.
    + exists s3. split_and!; [done..|]. by rewrite Er, E1.
Qed.

Lemma bart_insert_spec self n name rules :
  filter_wf self n -> Forall rule_ok rules -> n + rules_weight rules + 1 < U64 ->
  exists self' ids, insert self name rules = Done self' /\ filter_wf self' (n + rules_weight rules) /\
    rulesets self' = <[name := mkEntry rules ids]> (rulesets self).
Proof.
  intros Hw Hok Hn. pose proof (rules_weight_nonneg rules). unfold insert.
  destruct (bart_remove_spec self n name Hw ltac:(lia)) as (s1 & -> & (rho & M & D & Hp & Hb & HM & HD) & E1). cbn [mbind outcome_bind].
  destruct (insert_rules_spec rules s1 empty name [] (rulesets s1) rho M D n Hp) as (s2 & ids & rho2 & M2 & D2 & -> & E2 & Hp2 & Hb2 & HM2 & HD2);
    [|by intros i|done|done|done|lia|].
  - assert (Hno : rulesets s1 !! name = None) by (rewrite E1; apply lookup_delete_eq). destruct Hb as [B1 B2 B3 B4 B5]. split; [| | |done|done].
    + intros k e. rewrite lookup_insert. case_decide; [intros [= <-]; apply wfs_empty|apply B1].
    + intros k e. rewrite lookup_insert. case_decide; [intros [= <-]; constructor|apply B2].
    + intros i r (k & e & He & Hin)%B3. exists k, e. rewrite lookup_insert_ne by congruence. done.
  - cbn [mbind outcome_bind]. edestruct (bart_compact_spec) as (s3 & -> & Hw3 & Er); [|exists s3, ids; split_and!; [done|exact Hw3|]].
    + exists rho2, M2, D2. cbn [rulesets rules_to_rulesets rule_freelist]. split_and!; [by apply (parts_same s2)| |done|done]. by rewrite E2.
    + rewrite Er. cbn [rulesets]. by rewrite E2, E1, insert_delete_eq.
Qed.

Lemma empty_filter_wf t t' f f' : rt_repr t no_routes -> rt_repr t' no_routes ->
  filter_wf (mkFilter CapLookup.default t (DstLookup.mkLookup t' PortTrie.EMPTY [] [] (clear_all f)) ∅ [] (clear_all f') ∅) 0.
Proof.
  intros Ht Ht'. exists ∅, no_routes, no_routes. split_and!; [| |done..].
  - split; cbn [caps srcs dsts ip_protos].
    + apply CapLookup.cap_default_wf.
    + apply indexes_empty, CapLookup.default_accepts.
    + done.
    + apply full_no_routes.
    + apply indexes_empty. intros x r. apply holds_no_routes.
    + by apply DstLookup.empty_wf.
    + apply indexes_empty, DstLookup.empty_has.
    + intros p. rewrite lookup_empty. apply full_None.
    + apply indexes_empty. intros p r. by rewrite lookup_empty.
  - split; [done|done|done|apply wfs_empty|done].
Qed.

(** ** Lookups *)

(** A prefix of the rule contains the source, and no prefix of the rules in [rho] that
    contains it is longer. *)
Definition longest rho (rule : Rule) (ip : IpAddr) : Prop :=
  exists p, p ∈ pfxs (src rule) /\ net_contains p ip = true /\
    forall r' rule' q, rho !! r' = Some rule' -> q ∈ pfxs (src rule') -> net_contains q ip = true -> (net_prefix_len q <= net_prefix_len p)%nat.

Lemma take_key p ip l :
  addr_ok ip -> (l <= length (addr_bits ip))%nat -> is_ipv4 (net_addr p) = is_ipv4 ip -> key p = take l (addr_bits ip) ->
  net_contains p ip = true /\ net_prefix_len p = l.
Proof.
  intros Hip Hl Hf Hk. pose proof (key_length p) as Hlen. rewrite Hk, length_take, Nat.min_l in Hlen by done.
  split; [|done]. apply net_contains_spec; [done|]. split; [done|]. by rewrite <- Hlen.
Qed.

Lemma contained_len p ip : addr_ok ip -> net_contains p ip = true -> (net_prefix_len p <= length (addr_bits ip))%nat.
Proof. intros Hip [_ Hk]%net_contains_spec; [|done]. pose proof (key_length p) as Hlen. rewrite Hk, length_take in Hlen. lia. Qed.

Lemma lookup_longest M rho ip r :
  full_routes M -> indexes (fun rule x => keyed (pfxs (src rule)) (fst x) (snd x)) rho (fun x r => holds M (fst x) (snd x) r) -> addr_ok ip ->
  (exists v, head (rmatches M ip) = Some v /\ mem v r = true) <-> exists rule, rho !! r = Some rule /\ longest rho rule ip.
Proof.
  intros HM Hrel Hip. unfold rmatches. setoid_rewrite matches_head. unfold longest. split.
  - intros (v & (l & Hl & Hv & Hno) & Hr). destruct (proj1 (Hrel (is_ipv4 ip, take l (addr_bits ip)) r)) as (rule & Hrule & p & Hp & Hpf & Hpk).
    { unfold holds. cbn [fst snd]. by rewrite Hv. }
    cbn [fst snd] in *. destruct (take_key p ip l Hip Hl Hpf Hpk) as [Hc Hlen]. exists rule. split; [done|]. exists p. split_and!; [done..|].
    intros r' rule' q Hr' Hq Hqc. destruct (decide (net_prefix_len q <= net_prefix_len p)%nat) as [|Hlt]; [done|exfalso].
    pose proof (contained_len q ip Hip Hqc). apply net_contains_spec in Hqc as [Hqf Hqk]; [|done].
    assert (Hh : holds M (is_ipv4 ip) (take (net_prefix_len q) (addr_bits ip)) r').
    { apply (Hrel (is_ipv4 ip, take (net_prefix_len q) (addr_bits ip))). exists rule'. split; [done|]. by exists q. }
    unfold holds in Hh. rewrite Hno in Hh by lia. done.
  - intros (rule & Hrule & p & Hp & Hc & Hmax). pose proof (contained_len p ip Hip Hc). apply net_contains_spec in Hc as [Hpf Hpk]; [|done].
    assert (Hh : holds M (is_ipv4 ip) (take (net_prefix_len p) (addr_bits ip)) r).
    { apply (Hrel (is_ipv4 ip, take (net_prefix_len p) (addr_bits ip))). exists rule. split; [done|]. by exists p. }
    unfold holds in Hh. destruct (sel M (is_ipv4 ip) !! _) as [v|] eqn:Ev; [|done]. exists v. split; [|done].
    exists (net_prefix_len p). split_and!; [done..|]. intros l' Hl'. destruct (sel M (is_ipv4 ip) !! take l' (addr_bits ip)) as [v'|] eqn:Ev'; [|done].
    destruct (HM _ _ _ Ev') as [_ [i Hi]]. destruct (proj1 (Hrel (is_ipv4 ip, take l' (addr_bits ip)) i)) as (rule' & Hr' & q & Hq & Hqf & Hqk).
    { unfold holds. cbn [fst snd]. by rewrite Ev'. }
    cbn [fst snd] in *. destruct (take_key q ip l' Hip ltac:(lia) Hqf Hqk) as [Hqc Hlen]. specialize (Hmax _ _ _ Hr' Hq Hqc). lia.
Qed.

Definition info_ok (info : PacketInfo) : Prop := addr_ok (info_src info) /\ addr_ok (info_dst info) /\ port_ok (port info).

(** The rule matches, by the structures of the filter. *)
Definition rule_hit rho (rule : Rule) (info : PacketInfo) (names : list string) : Prop :=
  ((exists c, c ∈ names /\ c ∈ src_caps (src rule)) \/ longest rho rule (info_src info)) /\ ip_proto info ∈ protos rule /\
  exists d, d ∈ dst rule /\ admits (ports d) (port info) /\ existsb (fun p => net_contains p (info_dst info)) (ips d) = true.

Lemma bart_lookup_spec self rho M D info names :
  parts_wf self rho M D -> info_ok info ->
  exists s, lookup self info names = Done s /\ wfs s /\ forall r, mem s r = true <-> exists rule, rho !! r = Some rule /\ rule_hit rho rule info names.
Proof.
  intros [P1 P2 P3 P4 P5 P6 P7 P8 P9] (Hs & Hd & Hp). unfold indexes in P2, P7, P9. unfold lookup. destruct (CapLookup.cap_lookup_spec (caps self) names P1) as [Wc Hc].
  rewrite (rt_lookup_spec (srcs self) M) by done. cbn [mbind outcome_bind].
  set (S1 := match head (rmatches M (info_src info)) with Some s => _ | None => _ end).
  assert (H1 : wfs S1 /\ forall r, mem S1 r = true <-> exists rule, rho !! r = Some rule /\ ((exists c, c ∈ names /\ c ∈ src_caps (src rule)) \/ longest rho rule (info_src info))).
  { pose proof (fun r => lookup_longest M rho (info_src info) r P4 P5 Hs) as Hlong.
    assert (Hw : forall v, head (rmatches M (info_src info)) = Some v -> wfs v).
    { intros v Hv. destruct (rmatches_mem M (info_src info) P4) as [Hw _]. rewrite Forall_forall in Hw. apply Hw.
      destruct (rmatches M (info_src info)); [done|]. injection Hv as ->. set_solver. }
    assert (Hm : wfs S1 /\ forall r, mem S1 r = true <-> (exists c, c ∈ names /\ CapLookup.accepts (caps self) c r) \/ exists v, head (rmatches M (info_src info)) = Some v /\ mem v r = true).
    { subst S1. destruct (head (rmatches M (info_src info))) as [v|].
      - split; [apply (wf_union 1); [lia|done|by apply Hw]|]. intros r. rewrite (dunion_spec 1 one_pos) by auto. rewrite orb_true_iff, Hc. naive_solver.
      - split; [done|]. intros r. rewrite Hc. naive_solver. }
    split; [apply Hm|]. intros r. rewrite (proj2 Hm r), Hlong. setoid_rewrite P2. clear. naive_solver. }
  destruct H1 as [W1 H1]. destruct (is_empty S1) eqn:E1.
  { exists S1. split_and!; [done..|]. intros r. rewrite (is_empty_none S1 r W1 E1). split; [done|]. intros (rule & Hr & Hh & _).
    rewrite <- (is_empty_none S1 r W1 E1). apply H1. by exists rule. }
  set (S2 := match ip_protos self !! ip_proto info with Some s => _ | None => _ end).
  assert (H2 : wfs S2 /\ forall r, mem S2 r = true <-> mem S1 r = true /\ exists rule, rho !! r = Some rule /\ ip_proto info ∈ protos rule).
  { pose proof (P8 (ip_proto info)) as Hf. pose proof (fun r => P9 (ip_proto info) r) as H9. subst S2. destruct (ip_protos self !! ip_proto info) as [v|].
    - destruct (Hf v eq_refl) as [Wv _]. destruct (dintersect_spec 1 one_pos S1 v W1 Wv) as [W2 H2]. split; [done|]. intros r. rewrite H2, andb_true_iff, <- H9. done.
    - split; [apply wfs_empty|]. intros r. rewrite <- H9. naive_solver. }
  destruct H2 as [W2 H2]. destruct (is_empty S2) eqn:E2.
  { exists S2. split_and!; [done..|]. intros r. rewrite (is_empty_none S2 r W2 E2). split; [done|]. intros (rule & Hr & Hh & Hpr & _).
    rewrite <- (is_empty_none S2 r W2 E2). apply H2. split; [apply H1|]; by exists rule. }
  destruct (DstLookup.dst_lookup_spec (dsts self) D (info_dst info) (port info) P6 Hd Hp) as (S3 & -> & W3 & H3). cbn [mbind outcome_bind].
  destruct (dintersect_spec 1 one_pos S2 S3 W2 W3) as [W4 H4]. eexists. split_and!; [done..|]. intros r.
  rewrite H4, andb_true_iff, H2, H3, H1. setoid_rewrite P7. unfold rule_hit. clear. naive_solver.
Qed.

(** ** Against the map of rulesets *)

(** [BTreeMap<String, Ruleset>] *)
Abbreviation MapFilter := (gmap string (list Rule)).

Definition view self : MapFilter := ruleset <$> rulesets self.

Definition live (A : MapFilter) (rule : Rule) : Prop := exists name rules, A !! name = Some rules /\ rule ∈ rules.

(** A prefix of the rule contains the source, and no prefix of the rules in force that
    contains it is longer. *)
Definition src_longest (A : MapFilter) (rule : Rule) (ip : IpAddr) : Prop :=
  exists p, p ∈ pfxs (src rule) /\ net_contains p ip = true /\
    forall rule' q, live A rule' -> q ∈ pfxs (src rule') -> net_contains q ip = true -> (net_prefix_len q <= net_prefix_len p)%nat.

(** What the filter grants under a name. *)
Definition grants (A : MapFilter) (name : string) (info : PacketInfo) (names : list string) : Prop :=
  exists rules rule, A !! name = Some rules /\ rule ∈ rules /\
    ((exists c, c ∈ names /\ c ∈ src_caps (src rule)) \/ src_longest A rule (info_src info)) /\ ip_proto info ∈ protos rule /\
    exists d, d ∈ dst rule /\ admits (ports d) (port info) /\ existsb (fun p => net_contains p (info_dst info)) (ips d) = true.

Lemma books_live R v f rho rule : books R v f rho -> (exists r, rho !! r = Some rule) <-> live (ruleset <$> R) rule.
Proof.
  intros Hb. split.
  - intros [r Hr]. destruct (books_named _ _ _ _ _ _ Hb Hr) as (name & ent & He & Hin & _). exists name, (ruleset ent). rewrite lookup_fmap, He. done.
  - intros (name & rules & He & Hin). rewrite lookup_fmap in He. apply fmap_Some in He as (ent & He & ->). apply list_elem_of_lookup in Hin as [i Hi].
    destruct (Forall2_lookup_r _ _ _ _ _ (books_rules _ _ _ _ Hb _ _ He) Hi) as (id & _ & Hr & _). by exists id.
Qed.

Lemma longest_view R v f rho rule ip : books R v f rho -> longest rho rule ip <-> src_longest (ruleset <$> R) rule ip.
Proof.
  intros Hb. unfold longest, src_longest. setoid_rewrite <- (books_live _ _ _ _ _ Hb). clear. naive_solver.
Qed.

Lemma match_spec self n info names :
  filter_wf self n -> info_ok info ->
  exists o b, match_for self info names = Done o /\ matches self info names = Done b /\
    (b = true <-> exists name, grants (view self) name info names) /\ (b = true <-> is_Some o) /\
    forall name, o = Some name -> grants (view self) name info names.
Proof.
  intros (rho & M & D & Hp & Hb & _) Hi. destruct (bart_lookup_spec self rho M D info names Hp Hi) as (s & E & Hw & Hs).
  assert (Hname : forall r rule, rho !! r = Some rule -> rule_hit rho rule info names -> exists name, rules_to_rulesets self !! r = Some (Some name) /\ grants (view self) name info names).
  { intros r rule Hr (Hsrc & Hpr & Hd). destruct (books_named _ _ _ _ _ _ Hb Hr) as (name & ent & He & Hin & Hv & _). exists name. split; [done|].
    exists (ruleset ent), rule. unfold view. rewrite lookup_fmap, He. rewrite (longest_view _ _ _ _ _ _ Hb) in Hsrc. done. }
  assert (Hex : forall name, grants (view self) name info names -> exists r, mem s r = true).
  { intros name (rules & rule & He & Hin & Hsrc & Hpr & Hd). assert (Hl : live (ruleset <$> rulesets self) rule) by (by exists name, rules).
    apply (books_live _ _ _ _ _ Hb) in Hl as [r Hr]. exists r. apply Hs. exists rule. split; [done|]. unfold rule_hit. rewrite (longest_view _ _ _ _ _ _ Hb). done. }
  cbn [match_for matches bart_filter]. rewrite E. cbn [mbind outcome_bind]. rewrite (dfirst_set_spec 1 one_pos s eq_refl Hw).
  rewrite (dis_empty_spec 1 one_pos s Hw). pose proof (fun i => dbits_mem 1 one_pos s i Hw) as Hbits. destruct (bits 1 s) as [|r l]; cbn [head].
  - assert (Hno : ~ exists name, grants (view self) name info names).
    { intros [name [r Hr]%Hex]. apply Hbits in Hr. by apply not_elem_of_nil in Hr. }
    exists None, false. rewrite bool_decide_eq_true_2 by done. split_and!; [done|done|by split|by split; [|intros []]|done].
  - assert (Hr : mem s r = true) by (apply Hbits; set_solver). apply Hs in Hr as (rule & Hr & Hh). destruct (Hname _ _ Hr Hh) as (name & Hv & Hg).
    unfold index. rewrite Hv. cbn [unwrap mbind outcome_bind]. exists (Some name), true. rewrite bool_decide_eq_false_2 by done.
    split_and!; [done|done|split; eauto|split; eauto|by intros ? [= <-]].
Qed.

(** ** Updates *)

Definition refines self (n : Z) (A : MapFilter) : Prop := filter_wf self n /\ view self = A.

Lemma refines_insert self n A name rules :
  refines self n A -> Forall rule_ok rules -> n + rules_weight rules + 1 < U64 ->
  exists self', insert_dyn self name rules = Done self' /\ refines self' (n + rules_weight rules) (<[name := rules]> A).
Proof.
  intros [Hw <-] Hok Hn. destruct (bart_insert_spec self n name rules Hw Hok Hn) as (self' & ids & E & Hw' & Hr). exists self'. split; [done|]. split; [done|].
  unfold view. by rewrite Hr, fmap_insert.
Qed.

Lemma refines_remove self n A name :
  refines self n A -> n + 1 < U64 -> exists self', PacketFilter.remove self name = Done self' /\ refines self' n (base.delete name A).
Proof.
  intros [Hw <-] Hn. destruct (bart_remove_spec self n name Hw Hn) as (self' & E & Hw' & Hr). exists self'. split; [done|]. split; [done|].
  unfold view. by rewrite Hr, fmap_delete.
Qed.

Lemma filter_wf_mono self n n' : filter_wf self n -> n <= n' -> filter_wf self n'.
Proof. intros (rho & M & D & Hp & Hb & HM & HD) Hle. exists rho, M, D. split_and!; [done..|lia|lia]. Qed.

Lemma refines_clear self n A : refines self n A -> 0 <= n -> exists self', PacketFilter.clear self = Done self' /\ refines self' n ∅.
Proof.
  intros _ Hn. eexists. split; [done|]. split; [|done]. eapply filter_wf_mono; [|exact Hn]. apply empty_filter_wf; apply rt_clear_spec.
Qed.

Definition oweight (o : option (list Rule)) : Z := match o with Some rules => rules_weight rules | None => 0 end.
Definition ook (o : option (list Rule)) : Prop := match o with Some rules => Forall rule_ok rules | None => True end.

Definition map_weight (l : list (string * option (list Rule))) : Z := foldr (fun x n => oweight (snd x) + n) 0 l.

Lemma oweight_nonneg o : 0 <= oweight o.
Proof. destruct o; [apply rules_weight_nonneg|done]. Qed.

Lemma map_weight_cons x l : map_weight (x :: l) = oweight (snd x) + map_weight l.
Proof. done. Qed.

Lemma map_weight_nonneg l : 0 <= map_weight l.
Proof. induction l as [|x l IH]; [done|]. rewrite map_weight_cons. pose proof (oweight_nonneg (snd x)). lia. Qed.

Lemma map_weight_filter f l : map_weight (List.filter f l) <= map_weight l.
Proof.
  induction l as [|x l IH]; [done|]. cbn [List.filter]. pose proof (oweight_nonneg (snd x)). destruct (f x); rewrite ?map_weight_cons; lia.
Qed.

Lemma refines_rulesets l self n A :
  refines self n A -> Forall (fun x => ook (snd x)) l -> n + map_weight l + 1 < U64 ->
  exists self' A', apply_rulesets self l = Done self' /\ apply_rulesets A l = Done A' /\ refines self' (n + map_weight l) A'.
Proof.
  intros Hr Hok. revert self n A Hr. induction Hok as [|[name o] l Ho Hok IH]; intros self n A Hr Hn; cbn [apply_rulesets].
  - exists self, A. split_and!; [done..|]. by rewrite Z.add_0_r.
  - rewrite map_weight_cons in *. cbn [snd] in *. pose proof (map_weight_nonneg l). pose proof (oweight_nonneg o).
    assert (exists s1 A1, match o with None => PacketFilter.remove self name | Some [] => PacketFilter.remove self name
        | Some rules => insert_dyn self name rules end = Done s1 /\
      match o with None => PacketFilter.remove A name | Some [] => PacketFilter.remove A name | Some rules => insert_dyn A name rules end = Done A1 /\
      refines s1 (n + oweight o) A1) as (s1 & A1 & -> & -> & Hr1).
    { destruct o as [[|rule rules]|]; cbn [oweight] in *.
      - destruct (refines_remove self n A name Hr ltac:(lia)) as (s1 & E & Hr1). exists s1, (base.delete name A). split_and!; [done..|]. by rewrite Z.add_0_r.
      - destruct (refines_insert self n A name (rule :: rules) Hr Ho ltac:(lia)) as (s1 & E & Hr1). by exists s1, (<[name := rule :: rules]> A).
      - destruct (refines_remove self n A name Hr ltac:(lia)) as (s1 & E & Hr1). exists s1, (base.delete name A). split_and!; [done..|]. by rewrite Z.add_0_r. }
    cbn [mbind outcome_bind]. destruct (IH s1 _ A1 Hr1) as (s2 & A2 & E2 & E2' & Hr2); [lia|]. exists s2, A2. split_and!; [done..|]. by rewrite Z.add_assoc.
Qed.

(** An update of the coordination server: the base ruleset and the named rulesets. *)
Abbreviation Update := (option (list Rule) * list (string * option (list Rule)))%type.

Definition update_ok (u : Update) : Prop := ook (fst u) /\ Forall (fun x => ook (snd x)) (snd u).
Definition update_weight (u : Update) : Z := oweight (fst u) + map_weight (snd u).

Lemma refines_update u self n A :
  refines self n A -> update_ok u -> 0 <= n -> n + update_weight u + 1 < U64 ->
  exists self' A', apply_update self (fst u) (snd u) = Done self' /\ apply_update A (fst u) (snd u) = Done A' /\ refines self' (n + update_weight u) A'.
Proof.
  destruct u as [pf l]. intros Hr [Ho Hok] H0 Hn. unfold update_weight in *. cbn [fst snd] in *. unfold apply_update, apply_update_dyn.
  pose proof (map_weight_nonneg l). pose proof (oweight_nonneg pf).
  assert (exists s1 A1, (if should_clear_storage l then PacketFilter.clear self else match pf with
      | Some rules => insert_dyn self DEFAULT_RULESET_NAME rules | None => mret self end) = Done s1 /\
    (if should_clear_storage l then PacketFilter.clear A else match pf with
      | Some rules => insert_dyn A DEFAULT_RULESET_NAME rules | None => mret A end) = Done A1 /\ refines s1 (n + oweight pf) A1) as (s1 & A1 & -> & -> & Hr1).
  { destruct (should_clear_storage l); [|destruct pf as [rules|]]; cbn [oweight] in *.
    - destruct (refines_clear self n A Hr H0) as (s1 & E & Hr1 & Hv). exists s1, ∅. split_and!; [done..|]. split; [|done]. eapply filter_wf_mono; [done|lia].
    - destruct (refines_insert self n A DEFAULT_RULESET_NAME rules Hr Ho ltac:(lia)) as (s1 & E & Hr1). by exists s1, (<[DEFAULT_RULESET_NAME := rules]> A).
    - exists self, A. split_and!; [done..|]. by rewrite Z.add_0_r. }
  cbn [mbind outcome_bind]. match goal with |- context [List.filter ?g l] => set (f := g) end. pose proof (map_weight_filter f l).
  destruct (refines_rulesets (List.filter f l) s1 _ A1 Hr1) as (s2 & A2 & E2 & E2' & Hw & Hv); [|lia|].
  - rewrite List.Forall_forall in *. intros x [Hx _]%filter_In. by apply Hok.
  - exists s2, A2. split_and!; [done..|]. split; [|done]. eapply filter_wf_mono; [done|lia].
Qed.

Fixpoint apply_updates {F} `{!FilterStorage F} (storage : F) (us : list Update) : outcome F :=
  match us with
  | [] => mret storage
  | u :: us => storage ← apply_update storage (fst u) (snd u); apply_updates storage us
  end.

Definition updates_weight (us : list Update) : Z := foldr (fun u n => update_weight u + n) 0 us.

Lemma updates_weight_nonneg us : 0 <= updates_weight us.
Proof.
  induction us as [|u us IH]; [done|]. cbn [updates_weight foldr]. fold (updates_weight us). unfold update_weight.
  pose proof (oweight_nonneg (fst u)). pose proof (map_weight_nonneg (snd u)). lia.
Qed.

Lemma refines_updates us self n A :
  refines self n A -> Forall update_ok us -> 0 <= n -> n + updates_weight us + 1 < U64 ->
  exists self' A', apply_updates self us = Done self' /\ apply_updates A us = Done A' /\ refines self' (n + updates_weight us) A'.
Proof.
  intros Hr Hok. revert self n A Hr. induction Hok as [|u us Hu Hok IH]; intros self n A Hr H0 Hn; cbn [apply_updates].
  - exists self, A. split_and!; [done..|]. by rewrite Z.add_0_r.
  - cbn [updates_weight foldr] in *. fold (updates_weight us) in *. pose proof (updates_weight_nonneg us).
    assert (0 <= update_weight u) by (unfold update_weight; pose proof (oweight_nonneg (fst u)); pose proof (map_weight_nonneg (snd u)); lia).
    destruct (refines_update u self n A Hr Hu H0 ltac:(lia)) as (s1 & A1 & -> & -> & Hr1). cbn [mbind outcome_bind].
    destruct (IH s1 _ A1 Hr1) as (s2 & A2 & E2 & E2' & Hr2); [lia|lia|]. exists s2, A2. split_and!; [done..|]. by rewrite Z.add_assoc.
Qed.

(** ** The map filter *)

Lemma src_matches_spec (s : SrcMatch) info names :
  src_matches s info names = true <->
  (exists p, p ∈ pfxs s /\ net_contains p (info_src info) = true) \/ exists c, c ∈ names /\ c ∈ src_caps s.
Proof.
  unfold src_matches. rewrite orb_true_iff, !existsb_exists. setoid_rewrite existsb_exists. setoid_rewrite bool_decide_eq_true.
  setoid_rewrite <- list_elem_of_In. split; (intros [?|H]; [by left|right]); [destruct H as (c & Hc & c' & Hc' & ->); eauto|destruct H as (c & Hc & Hc'); eauto 10].
Qed.

Lemma rule_matches_spec (rule : Rule) info names :
  rule_matches rule info names = true <->
  src_matches (src rule) info names = true /\ ip_proto info ∈ protos rule /\
  exists d, d ∈ dst rule /\ fst (ports d) <= port info <= snd (ports d) /\ existsb (fun p => net_contains p (info_dst info)) (ips d) = true.
Proof.
  unfold rule_matches. rewrite !andb_true_iff, bool_decide_eq_true, existsb_exists. setoid_rewrite <- list_elem_of_In.
  unfold dst_matches, range_contains. setoid_rewrite andb_true_iff. setoid_rewrite andb_true_iff. setoid_rewrite Z.leb_le. naive_solver.
Qed.

Lemma map_matches_spec `{HO : !HashOrder string} (A : MapFilter) info names :
  exists b, matches A info names = Done b /\ (b = true <-> exists rule, live A rule /\ rule_matches rule info names = true).
Proof.
  cbn [matches map_filter]. unfold default_matches. cbn [mbind outcome_bind mret outcome_ret]. eexists. split; [done|]. unfold map_match_for.
  match goal with |- context [List.find ?f ?l] => pose proof (List.find_some f l) as Hs; pose proof (List.find_none f l) as Hn; destruct (List.find f l) as [name|] end.
  - split; [|done]. intros _. destruct (Hs name eq_refl) as [_ H]. destruct (A !! name) as [rules|] eqn:E; [|done].
    apply existsb_exists in H as (rule & Hr & Hm). exists rule. split; [|done]. exists name, rules. split; [done|by apply list_elem_of_In].
  - split; [done|]. intros (rule & (name & rules & E & Hr) & Hm). specialize (Hn eq_refl name).
    rewrite E in Hn. exfalso. assert (Ht : existsb (fun rule => rule_matches rule info names) rules = true).
    { apply existsb_exists. exists rule. split; [by apply list_elem_of_In|done]. }
    rewrite Ht in Hn. discriminate Hn. apply list_elem_of_In. rewrite (hash_keys_perm A). apply list_elem_of_In, in_map_iff. exists (name, rules). split; [done|]. by apply list_elem_of_In, elem_of_map_to_list.
Qed.

End Spec.
End BartFilterSpec.
