(* ===== verification/BartFilterProof.v ===== *)
(** * The packet filter against the map of rulesets: main theorems

    [BartFilter] over the tables of ts_bart, updated by [apply_update], compared with the
    map filter updated the same way. *)

From S2P Require Import Prelude Bitset DynBitset IpNet BartNode IpTrie IpTrieMod IpTrieLookup RoutingTable SplitStackTable BartTable IdSets PortTrie PortTrieSpec CapLookup DstLookup PacketFilter BartFilter BartFilterSpec.
Import IpNet BartNode RoutingTable BartTable IdSets PortTrieSpec PacketFilter BartFilter BartFilterSpec.

Module BartFilterProof.

Section Proof.
Context `{HI : Ipnet} `{HL : !IpnetLaws} `{HO : !HashOrder string}.

(** [ts_bart::Table] *)
Abbreviation Table := (SplitStackTable.SplitStackTable (Node IdSet)).
Abbreviation Bart := (BartFilter Table).
Abbreviation MapFilter := (gmap string (list Rule)).
Abbreviation Update := (option (list Rule) * list (string * option (list Rule)))%type.

(** No port range in force has exactly 65535 ports. *)
Definition plain_ports (A : MapFilter) : Prop :=
  forall rule d, live A rule -> d ∈ dst rule -> snd (ports d) - fst (ports d) <> 65534.

(** The source prefixes in force that contain the address have the same length. *)
Definition unnested (A : MapFilter) (ip : IpAddr) : Prop :=
  forall rule p rule' q, live A rule -> p ∈ pfxs (src rule) -> net_contains p ip = true ->
    live A rule' -> q ∈ pfxs (src rule') -> net_contains q ip = true -> net_prefix_len p = net_prefix_len q.

Lemma start_refines : refines (default SplitStackTable.EMPTY : Bart) 0 ∅.
Proof. split; [|done]. apply (empty_filter_wf _ _ DynBitset.empty DynBitset.empty); apply split_empty. Qed.

Lemma run_updates us :
  Forall update_ok us -> updates_weight us + 1 < U64 ->
  exists (f : Bart) (A : MapFilter), apply_updates (default SplitStackTable.EMPTY) us = Done f /\ apply_updates ∅ us = Done A /\
    filter_wf f (updates_weight us) /\ view f = A.
Proof. intros Hok Hw. destruct (refines_updates us _ 0 ∅ start_refines Hok ltac:(lia) ltac:(lia)) as (f & A & Ef & EA & Hr). by exists f, A. Qed.

Lemma grants_matches A name info names :
  plain_ports A -> grants A name info names ->
  exists rules rule, A !! name = Some rules /\ rule ∈ rules /\ rule_matches rule info names = true.
Proof.
  intros Hpl (rules & rule & He & Hin & Hsrc & Hpr & d & Hd & Hadm & Hip). exists rules, rule. split_and!; [done..|]. apply rule_matches_spec. split_and!.
  - apply src_matches_spec. destruct Hsrc as [?|(p & Hp & Hc & _)]; [by right|left; eauto].
  - done.
  - exists d. split_and!; [done| | |done]; destruct Hadm as [Hx|Hx]; try lia; exfalso; eapply Hpl, Hx; [by exists name, rules|done|by exists name, rules|done].
Qed.

Lemma matches_grants A rule info names :
  unnested A (info_src info) -> live A rule -> rule_matches rule info names = true -> exists name, grants A name info names.
Proof.
  intros Hun Hl Hm. pose proof Hl as (name & rules & He & Hin). apply rule_matches_spec in Hm as (Hsrc & Hpr & d & Hd & Hx & Hip).
  exists name, rules, rule. split_and!; [done..| |done|exists d; split_and!; [done|right; lia|done]].
  apply src_matches_spec in Hsrc as [(p & Hp & Hc)|?]; [right|by left]. exists p. split_and!; [done..|].
  intros rule' q Hl' Hq Hqc. by rewrite (Hun rule p rule' q).
Qed.

(** ** Main theorems *)


(** The filter never matches a packet that no rule in force matches, unless a rule has a
    range of exactly 65535 ports. *)
Theorem bart_filter_safe (us : list Update) :
  Forall update_ok us -> updates_weight us + 1 < U64 ->
  exists (f : Bart) (A : MapFilter), apply_updates (default SplitStackTable.EMPTY) us = Done f /\ apply_updates ∅ us = Done A /\
    forall info names, info_ok info -> plain_ports A -> matches f info names = Done true -> matches A info names = Done true.
Proof.
  intros Hok Hw. destruct (run_updates us Hok Hw) as (f & A & Ef & EA & Hf & <-). exists f, (view f). split_and!; [done..|].
  intros info names Hi Hpl Hm. destruct (match_spec f _ info names Hf Hi) as (o & b & _ & Eb & Hb & _). rewrite Eb in Hm. injection Hm as ->.
  destruct (map_matches_spec (view f) info names) as (b & -> & Hb'). f_equal. apply Hb'.
  destruct (proj1 Hb eq_refl) as (name & (rules & rule & He & Hin & Hm)%grants_matches); [|done]. exists rule. split; [by exists name, rules|done].
Qed.

(** C27: for a packet whose sender is under source prefixes of one length only, and without
    ranges of 65535 ports, the filter and the map filter give the same answer, and the
    ruleset the filter names has a rule that matches the packet. *)
Theorem bart_filter_equiv (us : list Update) :
  Forall update_ok us -> updates_weight us + 1 < U64 ->
  exists (f : Bart) (A : MapFilter), apply_updates (default SplitStackTable.EMPTY) us = Done f /\ apply_updates ∅ us = Done A /\
    forall info names, info_ok info -> plain_ports A -> unnested A (info_src info) ->
      matches f info names = matches A info names /\
      exists o, match_for f info names = Done o /\ (is_Some o <-> matches A info names = Done true) /\
        forall name, o = Some name -> exists rules rule, A !! name = Some rules /\ rule ∈ rules /\ rule_matches rule info names = true.
Proof.
  intros Hok Hw. destruct (run_updates us Hok Hw) as (f & A & Ef & EA & Hf & <-). exists f, (view f). split_and!; [done..|].
  intros info names Hi Hpl Hun. destruct (match_spec f _ info names Hf Hi) as (o & b & Eo & Eb & Hb & Hbo & Hname).
  destruct (map_matches_spec (view f) info names) as (b' & E' & Hb'). assert (b = b') as <-.
  { apply eq_true_iff_eq. rewrite Hb, Hb'. split.
    - intros (name & (rules & rule & He & Hin & Hm)%grants_matches); [|done]. exists rule. split; [by exists name, rules|done].
    - intros (rule & Hl & Hm). by eapply matches_grants. }
  rewrite Eb, E'. split; [done|]. exists o. split_and!; [done| |].
  - rewrite <- Hbo. split; [by intros ->|by intros [=]].
  - intros name ->. by apply grants_matches; [|apply Hname].
Qed.

End Proof.

(** ** Concrete filters *)

#[local] Existing Instance RefNet.ref_net.
#[local] Existing Instance RefNet.ref_laws.
#[local] Existing Instance list_order.

(** TCP from 10.0.0.0/8 and UDP from 10.1.0.0/16, to port 80 of 10.2.0.0/16. *)
Definition wide_tcp : Rule := mkRule (mkSrc [net8] []) [6] [mkDst (80, 80) [other16]].
Definition narrow_udp : Rule := mkRule (mkSrc [net16] []) [17] [mkDst (80, 80) [other16]].

(** TCP to every port but the first. *)
Definition most_ports : Rule := mkRule (mkSrc [net8] []) [6] [mkDst (1, 65535) [other16]].

Definition from_wide : PacketInfo := mkInfo (V4 [10; 9; 0; 1]%nat) (V4 [10; 2; 0; 1]%nat) 6 80.
Definition from_narrow : PacketInfo := mkInfo (V4 [10; 1; 0; 1]%nat) (V4 [10; 2; 0; 1]%nat) 6 80.
Definition to_port_0 : PacketInfo := mkInfo (V4 [10; 9; 0; 1]%nat) (V4 [10; 2; 0; 1]%nat) 6 0.

Abbreviation Updates := (list (option (list Rule) * list (string * option (list Rule)))).
Definition two_rules : Updates := [(Some [wide_tcp; narrow_udp], [])].
Definition port_rule : Updates := [(Some [most_ports], [])].

(** The rulesets that one update of the base ruleset puts in force. *)
Lemma base_in_force rules : apply_updates (∅ : gmap string (list Rule)) [(Some rules, [])] = Done {[ DEFAULT_RULESET_NAME := rules ]}.
Proof. done. Qed.

Lemma base_live rules rule : live {[ DEFAULT_RULESET_NAME := rules ]} rule <-> rule ∈ rules.
Proof.
  split; [|intros H; exists DEFAULT_RULESET_NAME, rules; split; [apply lookup_singleton_eq|done]].
  intros (name & rules' & [_ <-]%lookup_singleton_Some & H). done.
Qed.

Lemma base_matches rules info names :
  matches ({[ DEFAULT_RULESET_NAME := rules ]} : gmap string (list Rule)) info names = Done (existsb (fun rule => rule_matches rule info names) rules).
Proof.
  destruct (map_matches_spec {[ DEFAULT_RULESET_NAME := rules ]} info names) as (b & -> & Hb). f_equal. apply eq_true_iff_eq. rewrite Hb, existsb_exists.
  setoid_rewrite base_live. by setoid_rewrite <- list_elem_of_In.
Qed.

Lemma two_rules_ok : Forall update_ok two_rules /\ updates_weight two_rules + 1 < U64.
Proof. split; [repeat constructor; done|done]. Qed.

Lemma port_rule_ok : Forall update_ok port_rule /\ updates_weight port_rule + 1 < U64.
Proof. split; [repeat constructor; done|done]. Qed.

Lemma from_narrow_ok : info_ok from_narrow.
Proof. by split_and!. Qed.

Lemma from_wide_ok : info_ok from_wide.
Proof. by split_and!. Qed.

Lemma to_port_0_ok : info_ok to_port_0.
Proof. by split_and!. Qed.

(** Two rules whose source prefixes are nested: the filter drops a packet from the inner
    prefix that the rule with the outer prefix admits. *)
Lemma nested_source_dropped :
  exists (f : BartFilter (SplitStackTable.SplitStackTable (Node IdSet))) (A : gmap string (list Rule)),
    apply_updates (default SplitStackTable.EMPTY) two_rules = Done f /\ apply_updates ∅ two_rules = Done A /\
    rule_matches wide_tcp from_narrow [] = true /\ matches A from_narrow [] = Done true /\ matches f from_narrow [] = Done false.
Proof.
  destruct (run_updates two_rules) as (f & A & Ef & EA & Hw & HA); [apply two_rules_ok..|]. unfold two_rules in EA. rewrite base_in_force in EA.
  injection EA as EA. exists f, A. rewrite <- EA, base_matches. split; [exact Ef|]. split; [done|]. split; [done|]. split; [done|].
  destruct (match_spec f (updates_weight two_rules) from_narrow [] Hw from_narrow_ok) as (o & b & _ & Eb & Hb & _). rewrite Eb. f_equal. apply not_true_iff_false.
  rewrite Hb, HA, <- EA.
  intros (name & rules & rule & [_ <-]%lookup_singleton_Some & Hin & Hsrc & Hpr & _). apply elem_of_cons in Hin as [->|Hin].
  - destruct Hsrc as [(c & ?%not_elem_of_nil & _)|(p & ->%list_elem_of_singleton & _ & Hmax)]; [done|].
    assert (Hl : live {[ DEFAULT_RULESET_NAME := [wide_tcp; narrow_udp] ]} narrow_udp) by (apply base_live, list_elem_of_further, list_elem_of_here).
    specialize (Hmax narrow_udp net16 Hl (list_elem_of_here _ _) eq_refl). change (16 <= 8)%nat in Hmax. lia.
  - apply list_elem_of_singleton in Hin as ->. apply list_elem_of_singleton in Hpr. done.
Qed.

(** A rule for the ports 1 to 65535: the filter admits port 0. *)
Lemma port_zero_admitted :
  exists (f : BartFilter (SplitStackTable.SplitStackTable (Node IdSet))) (A : gmap string (list Rule)),
    apply_updates (default SplitStackTable.EMPTY) port_rule = Done f /\ apply_updates ∅ port_rule = Done A /\
    matches A to_port_0 [] = Done false /\ matches f to_port_0 [] = Done true.
Proof.
  destruct (run_updates port_rule) as (f & A & Ef & EA & Hw & HA); [apply port_rule_ok..|]. unfold port_rule in EA. rewrite base_in_force in EA.
  injection EA as EA. exists f, A. rewrite <- EA, base_matches. split; [exact Ef|]. split; [done|]. split; [done|].
  destruct (match_spec f (updates_weight port_rule) to_port_0 [] Hw to_port_0_ok) as (o & b & _ & Eb & Hb & _). rewrite Eb. f_equal. apply Hb. rewrite HA, <- EA.
  exists DEFAULT_RULESET_NAME, [most_ports], most_ports. split_and!; [apply lookup_singleton_eq|by apply list_elem_of_singleton| |by apply list_elem_of_singleton|].
  - right. exists net8. split_and!; [by apply list_elem_of_singleton|done|]. intros rule' q Hl Hq _. apply base_live, list_elem_of_singleton in Hl as ->.
    apply list_elem_of_singleton in Hq as ->. done.
  - exists (mkDst (1, 65535) [other16]). split_and!; [by apply list_elem_of_singleton|by left|done].
Qed.

(** ** Witnesses *)


Lemma two_rules_plain : plain_ports {[ DEFAULT_RULESET_NAME := [wide_tcp; narrow_udp] ]}.
Proof. intros rule d Hl Hd. apply base_live in Hl. repeat (apply elem_of_cons in Hl as [->|Hl]; [apply list_elem_of_singleton in Hd as ->; done|]). by apply not_elem_of_nil in Hl. Qed.

Lemma bart_filter_safe_witness :
  exists (f : BartFilter (SplitStackTable.SplitStackTable (Node IdSet))),
    apply_updates (default SplitStackTable.EMPTY) two_rules = Done f /\ matches f to_port_0 [] <> Done true.
Proof.
  destruct (bart_filter_safe two_rules) as (f & A & Ef & EA & H); [apply two_rules_ok..|]. exists f. split; [exact Ef|].
  unfold two_rules in EA. rewrite base_in_force in EA. injection EA as EA. subst A.
  intros Hm. apply H in Hm; [|apply to_port_0_ok|apply two_rules_plain]. rewrite base_matches in Hm. discriminate Hm.
Defined.

Lemma bart_filter_equiv_witness :
  exists (f : BartFilter (SplitStackTable.SplitStackTable (Node IdSet))),
    apply_updates (default SplitStackTable.EMPTY) two_rules = Done f /\ matches f from_wide [] = Done true.
Proof.
  destruct (bart_filter_equiv two_rules) as (f & A & Ef & EA & H); [apply two_rules_ok..|]. exists f. split; [exact Ef|].
  unfold two_rules in EA. rewrite base_in_force in EA. injection EA as EA. subst A.
  destruct (H from_wide [] from_wide_ok two_rules_plain) as [E _]; [|rewrite E; by rewrite base_matches].
  assert (Hin : forall rule p, live {[ DEFAULT_RULESET_NAME := [wide_tcp; narrow_udp] ]} rule -> p ∈ pfxs (src rule) ->
    net_contains p (info_src from_wide) = true -> net_prefix_len p = 8%nat).
  { intros rule p Hl%base_live Hp Hc. apply elem_of_cons in Hl as [->|Hl]; [by apply list_elem_of_singleton in Hp as ->|]. apply list_elem_of_singleton in Hl as ->.
    apply list_elem_of_singleton in Hp as ->. discriminate Hc. }
  intros rule p rule' q Hl Hp Hc Hl' Hq Hqc. rewrite (Hin rule p Hl Hp Hc). symmetry. by apply (Hin rule' q).
Defined.

End BartFilterProof.
