(* ===== verification/ShadowCrypto.v ===== *)
(** * The datagrams of ShadowVPN (ts_tunnel/src/shadowvpn/crypto.rs)

    One UDP datagram is [salt ++ ciphertext ++ tag]: a fresh random salt, from which and the
    master key HKDF-SHA1 derives the key of one AEAD message under the zero nonce.  The hash,
    the key derivation, the AEAD ciphers and the random generator come from third-party
    crates and are the operations of [Primitives] and [Rng], with what is documented of them
    as laws. *)

From S2P Require Import Prelude Packet Crypto.

Module ShadowCrypto.

(** ** Third-party code *)

(** An AEAD algorithm ([aead::KeyInit], [aead::AeadInPlace]): the key size, the longest
    message, and sealing and opening with a detached tag; arguments are the key, the nonce, the
    associated data and the buffer. *)
Record AeadAlg : Type := mkAlg {
  key_size : nat;
  max_message : nat;
  encrypt_in_place_detached : bytes -> bytes -> bytes -> bytes -> option (bytes * bytes);
  decrypt_in_place_detached : bytes -> bytes -> bytes -> bytes -> bytes -> option bytes;
}.

Class Primitives : Type := {
  md5 : bytes -> bytes;
  (** [Hkdf::<Sha1>::new(Some(salt), ikm).expand(info, out)] *)
  hkdf_sha1 : bytes -> bytes -> bytes -> nat -> option bytes;
  aes128gcm : AeadAlg;
  aes256gcm : AeadAlg;
  chacha20poly1305 : AeadAlg;
}.

(** What an AEAD documents: messages up to the limit are sealed, keep their length and get
    a tag of 16 bytes; opening accepts exactly what sealing produces. *)
Record AlgLaws (size : nat) (a : AeadAlg) : Prop := {
  alg_key_size : key_size a = size;
  alg_seal k n ad m : (length m <= max_message a)%nat ->
    exists c t, encrypt_in_place_detached a k n ad m = Some (c, t) /\ length c = length m /\ length t = 16%nat;
  alg_open k n ad c t m :
    decrypt_in_place_detached a k n ad c t = Some m <-> encrypt_in_place_detached a k n ad m = Some (c, t);
}.

Class PrimitivesLaws `{P : Primitives} : Prop := {
  md5_length m : length (md5 m) = 16%nat;
  (** HKDF has [255 * 20] bytes to give. *)
  hkdf_sha1_ok salt ikm info n : (n <= 255 * 20)%nat ->
    exists out, hkdf_sha1 salt ikm info n = Some out /\ length out = n;
  aes128gcm_laws : AlgLaws 16 aes128gcm;
  aes256gcm_laws : AlgLaws 32 aes256gcm;
  chacha20poly1305_laws : AlgLaws 32 chacha20poly1305;
}.

(** [rand::rng().fill(buf)]: the bytes of each draw.  Programs count their draws. *)
Class Rng : Type := {
  rng_fill : nat -> nat -> bytes;
  rng_fill_length i n : length (rng_fill i n) = n;
}.

Definition fill `{Rng} (n : nat) : ST nat bytes := fun i => Done (rng_fill i n, S i).

(** ** The ciphers *)

Definition NONCE_LEN : nat := 12.
Definition TAG_LEN : nat := 16.
Definition SS_SUBKEY_INFO : bytes := [x73; x73; x2d; x73; x75; x62; x6b; x65; x79].

Inductive CryptoError : Type :=
| UnknownCipher (name : string)
| TooShort (got need : nat)
| HkdfError
| AeadError.

(** [Result<A, CryptoError>] *)
Abbreviation result A := (CryptoError + A)%type.

Inductive Cipher : Type := Aes128Gcm | Aes256Gcm | ChaCha20Poly1305.

#[global] Instance Cipher_eq_dec : EqDecision Cipher.
Proof. solve_decision. Defined.

Definition from_name (name : string) : result Cipher :=
  if decide (name = "aes-128-gcm") then inr Aes128Gcm
  else if decide (name = "aes-256-gcm") then inr Aes256Gcm
  else if decide (name = "chacha20-poly1305" \/ name = "chacha20-ietf-poly1305") then inr ChaCha20Poly1305
  else inl (UnknownCipher name).

Definition name (self : Cipher) : string :=
  match self with
  | Aes128Gcm => "aes-128-gcm"
  | Aes256Gcm => "aes-256-gcm"
  | ChaCha20Poly1305 => "chacha20-poly1305"
  end.

Definition key_len (self : Cipher) : nat :=
  match self with
  | Aes128Gcm => 16
  | Aes256Gcm | ChaCha20Poly1305 => 32
  end.

Definition salt_len (self : Cipher) : nat := key_len self.

Section Crypto.
Context `{P : Primitives} `{R : Rng}.

(** ** Keys *)

(** The loop of [evp_bytes_to_key]: [key] holds the digests so far, [prev] the last one. *)
Fixpoint evp_loop (fuel : nat) (password : bytes) (key_len : nat) (key prev : bytes) : option bytes :=
  if decide (length key < key_len)%nat then
    match fuel with
    | O => None
    | S fuel =>
        let prev := md5 (prev ++ password) in
        evp_loop fuel password key_len (key ++ prev) prev
    end
  else Some (take key_len key).

(** Every round adds a digest, so [key_len] rounds are more than enough. *)
Definition evp_bytes_to_key (password : bytes) (key_len : nat) : option bytes :=
  evp_loop key_len password key_len [] [].

Definition derive_subkey (master_key salt : bytes) (out_len : nat) : result bytes :=
  match hkdf_sha1 salt master_key SS_SUBKEY_INFO out_len with
  | Some out => inr out
  | None => inl HkdfError
  end.

(** ** Sealing and opening *)

(** The type the macros [seal!] and [open!] are expanded with. *)
Definition algorithm (cipher : Cipher) : AeadAlg :=
  match cipher with
  | Aes128Gcm => aes128gcm
  | Aes256Gcm => aes256gcm
  | ChaCha20Poly1305 => chacha20poly1305
  end.

(** [KeyInit::new_from_slice] refuses a key of another size. *)
Definition new_from_slice (alg : AeadAlg) (key : bytes) : option bytes :=
  if decide (length key = key_size alg) then Some key else None.

(** The new contents of [buf] and the tag. *)
Definition aead_seal_in_place (cipher : Cipher) (subkey buf : bytes) : result (bytes * bytes) :=
  let nonce := zeroes NONCE_LEN in
  let alg := algorithm cipher in
  match new_from_slice alg subkey with
  | None => inl AeadError
  | Some aead =>
      match encrypt_in_place_detached alg aead nonce [] buf with
      | None => inl AeadError
      | Some out => inr out
      end
  end.

(** The new contents of [buf].  [GenericArray::from_slice] panics on a tag of another
    length. *)
Definition aead_open_in_place (cipher : Cipher) (subkey buf tag : bytes) : outcome (result bytes) :=
  if decide (length tag = TAG_LEN) then
    let nonce := zeroes NONCE_LEN in
    let alg := algorithm cipher in
    mret match new_from_slice alg subkey with
         | None => inl AeadError
         | Some aead =>
             match decrypt_in_place_detached alg aead nonce [] buf tag with
             | None => inl AeadError
             | Some plaintext => inr plaintext
             end
         end
  else Panic.

(** [encrypt_packet] once the salt is drawn. *)
Definition encrypt_with (cipher : Cipher) (master_key plaintext salt : bytes) : result bytes :=
  match derive_subkey master_key salt (key_len cipher) with
  | inl e => inl e
  | inr subkey =>
      match aead_seal_in_place cipher subkey plaintext with
      | inl e => inl e
      | inr (ciphertext, tag) => inr (salt ++ ciphertext ++ tag)
      end
  end.

Definition encrypt_packet (cipher : Cipher) (master_key plaintext : bytes) : ST nat (result bytes) :=
  salt ← fill (salt_len cipher);
  mret (encrypt_with cipher master_key plaintext salt).

Definition decrypt_packet (cipher : Cipher) (master_key datagram : bytes) : outcome (result bytes) :=
  let salt_len := salt_len cipher in
  let need := (salt_len + TAG_LEN)%nat in
  if decide (length datagram < need)%nat then mret (inl (TooShort (length datagram) need))
  else
    let salt := take salt_len datagram in
    let rest := drop salt_len datagram in
    match derive_subkey master_key salt (key_len cipher) with
    | inl e => mret (inl e)
    | inr subkey =>
        let at_ := (length rest - TAG_LEN)%nat in
        aead_open_in_place cipher subkey (take at_ rest) (drop at_ rest)
    end.

End Crypto.

(** ** What is sealed is opened *)

Section Facts.
Context `{P : Primitives} `{L : !PrimitivesLaws} `{R : Rng}.

(** The digests: [d_0 = MD5(password)], [d_i = MD5(d_{i-1} ++ password)]. *)
Fixpoint digests (n : nat) (password prev : bytes) : bytes :=
  match n with
  | O => []
  | S n => let d := md5 (prev ++ password) in d ++ digests n password d
  end.

Lemma evp_loop_ok fuel n pw key prev :
  (n <= length key + fuel)%nat ->
  evp_loop fuel pw n key prev = Some (take n (key ++ digests fuel pw prev)) /\
  (n <= length (key ++ digests fuel pw prev))%nat.
Proof.
  revert key prev. induction fuel as [|fuel IH]; intros key prev Hn; simpl.
  - rewrite app_nil_r, decide_False by lia. split; [done|lia].
  - rewrite app_assoc. case_decide as Hlt.
    + apply IH. rewrite length_app, md5_length. lia.
    + rewrite <- app_assoc, take_app_le by lia. rewrite length_app. split; [done|lia].
Qed.

(** The key is the requested number of leading bytes of the digests. *)
Lemma evp_bytes_to_key_spec pw n :
  exists key, evp_bytes_to_key pw n = Some key /\ length key = n /\ key = take n (digests n pw []).
Proof.
  destruct (evp_loop_ok n n pw [] []) as [E H]; [simpl; lia|].
  eexists. split; [exact E|]. split; [|done]. rewrite length_take. simpl in *. lia.
Qed.

Lemma algorithm_laws cipher : AlgLaws (key_len cipher) (algorithm cipher).
Proof. destruct cipher; apply L. Qed.

Lemma derive_subkey_ok cipher mk salt :
  exists sk, derive_subkey mk salt (key_len cipher) = inr sk /\ length sk = key_len cipher.
Proof.
  unfold derive_subkey.
  destruct (hkdf_sha1_ok salt mk SS_SUBKEY_INFO (key_len cipher)) as (out & -> & ?); [destruct cipher; simpl; lia|eauto].
Qed.

Lemma new_from_slice_ok cipher sk :
  length sk = key_len cipher -> new_from_slice (algorithm cipher) sk = Some sk.
Proof. intros H. unfold new_from_slice. by rewrite (alg_key_size _ _ (algorithm_laws cipher)), decide_True. Qed.

(** A datagram made with the salt [salt]. *)
Definition sealed (cipher : Cipher) (mk salt m d : bytes) : Prop :=
  exists sk c t, derive_subkey mk salt (key_len cipher) = inr sk /\
    encrypt_in_place_detached (algorithm cipher) sk (zeroes NONCE_LEN) [] m = Some (c, t) /\
    length salt = salt_len cipher /\ length t = TAG_LEN /\ d = salt ++ c ++ t.

Lemma encrypt_packet_ok cipher mk m i :
  (length m <= max_message (algorithm cipher))%nat ->
  exists d, encrypt_packet cipher mk m i = Done (inr d, S i) /\
    sealed cipher mk (rng_fill i (salt_len cipher)) m d /\ length d = (salt_len cipher + length m + TAG_LEN)%nat.
Proof.
  intros Hm. destruct (derive_subkey_ok cipher mk (rng_fill i (salt_len cipher))) as (sk & E & Hk).
  destruct (alg_seal _ _ (algorithm_laws cipher) sk (zeroes NONCE_LEN) [] m Hm) as (c & t & Es & Hc & Ht).
  exists (rng_fill i (salt_len cipher) ++ c ++ t). split_and!.
  - change (encrypt_packet cipher mk m i) with (Done (encrypt_with cipher mk m (rng_fill i (salt_len cipher)), S i)).
    unfold encrypt_with, aead_seal_in_place. by rewrite E, new_from_slice_ok, Es.
  - exists sk, c, t. split_and!; [done..|apply rng_fill_length|done|done].
  - rewrite !length_app, rng_fill_length, Hc, Ht. unfold TAG_LEN. lia.
Qed.

Lemma decrypt_sealed cipher mk salt m d :
  sealed cipher mk salt m d -> decrypt_packet cipher mk d = Done (inr m).
Proof.
  intros (sk & c & t & Ek & Es & Hs & Ht & ->). unfold decrypt_packet.
  rewrite decide_False by (rewrite !length_app; lia).
  rewrite take_app_length', drop_app_length' by done. rewrite Ek.
  assert (Hlen : (length (c ++ t) - TAG_LEN)%nat = length c) by (rewrite length_app; lia).
  rewrite Hlen, take_app_length, drop_app_length. unfold aead_open_in_place. rewrite decide_True by done.
  destruct (derive_subkey_ok cipher mk salt) as (sk' & Ek' & Hk). assert (sk' = sk) as -> by congruence.
  rewrite new_from_slice_ok by done. by rewrite (proj2 (alg_open _ _ (algorithm_laws cipher) sk _ _ c t m) Es).
Qed.

(** Opening never panics, and accepts a datagram only as a sealed one. *)
Lemma decrypt_packet_ok cipher mk d :
  exists r, decrypt_packet cipher mk d = Done r /\
    match r with
    | inr m => sealed cipher mk (take (salt_len cipher) d) m d
    | inl (TooShort got need) =>
        got = length d /\ need = (salt_len cipher + TAG_LEN)%nat /\ (length d < salt_len cipher + TAG_LEN)%nat
    | inl e => e = AeadError /\ (salt_len cipher + TAG_LEN <= length d)%nat /\
        forall m, ~ sealed cipher mk (take (salt_len cipher) d) m d
    end.
Proof.
  destruct (decide (length d < salt_len cipher + TAG_LEN)%nat) as [Hs|Hs].
  { exists (inl (TooShort (length d) (salt_len cipher + TAG_LEN))). unfold decrypt_packet.
    rewrite decide_True by done. done. }
  destruct (decrypt_packet cipher mk d) as [r|] eqn:E.
  2:{ exfalso. unfold decrypt_packet in E. rewrite decide_False in E by done.
      destruct (derive_subkey _ _ _); [done|]. unfold aead_open_in_place in E.
      rewrite decide_True in E; [done|]. rewrite !length_drop. unfold TAG_LEN in *. lia. }
  exists r. split; [done|]. pose proof E as E0. unfold decrypt_packet in E. rewrite decide_False in E by done.
  destruct (derive_subkey_ok cipher mk (take (salt_len cipher) d)) as (sk & Ek & Hk). rewrite Ek in E.
  unfold aead_open_in_place in E. rewrite decide_True in E by (rewrite !length_drop; unfold TAG_LEN in *; lia).
  rewrite new_from_slice_ok in E by done.
  destruct (decrypt_in_place_detached _ _ _ _ _ _) as [m|] eqn:Eo; injection E as <-.
  - apply (alg_open _ _ (algorithm_laws cipher)) in Eo. exists sk. do 2 eexists. split_and!; [exact Ek|exact Eo|..].
    + rewrite length_take. lia.
    + rewrite !length_drop. unfold TAG_LEN in *. lia.
    + by rewrite !take_drop.
  - split_and!; [done|lia|]. intros m Hm. apply decrypt_sealed in Hm. congruence.
Qed.

End Facts.
End ShadowCrypto.
