(* ===== verification/Obfs.v ===== *)
(** * The carrier obfuscation of ShadowVPN (ts_tunnel/src/shadowvpn/obfs.rs)

    A datagram goes out bare, behind a QUIC short header or in base64; every form is undone
    by the receiver. *)

From S2P Require Import Prelude Packet ShadowCrypto.
Import ShadowCrypto.

Module Obfs.

(** ** The QUIC short header *)

Definition DEFAULT_DCID_LEN : nat := 8.
Definition PN_LEN : nat := 2.

(** [pn] is an [AtomicU32]. *)
Record QuicObfs : Type := mkQuic { dcid : bytes; dcid_len : nat; pn : Z }.

(** Bits of a byte. *)
Definition band (b : byte) (mask : Z) : Z := Z.land (byte_to_Z b) mask.

Section Quic.
Context `{R : Rng}.

Definition quic_new (dcid_len : nat) : ST nat QuicObfs :=
  dcid ← fill dcid_len;
  seed ← fill 4;
  mret (mkQuic dcid dcid_len (be_int seed)).

(** [fetch_add] wraps around and returns the previous value. *)
Definition fetch_add (self : QuicObfs) : QuicObfs := mkQuic (dcid self) (dcid_len self) ((pn self + 1) mod U32).

Definition first_byte (rnd : byte) : byte :=
  byte_of_Z (Z.lor (Z.lor 0x40 (band rnd 0x3C)) (Z.land (Z.of_nat PN_LEN - 1) 0x03)).

Definition quic_wrap (self : QuicObfs) (datagram : bytes) : ST nat (bytes * QuicObfs) :=
  let pn := pn self in
  rnd ← fill 1;
  let first := first_byte (hd x00 rnd) in
  mret ([first] ++ dcid self ++ drop (4 - PN_LEN) (be_bytes 4 pn) ++ datagram, fetch_add self).

Definition quic_unwrap (self : QuicObfs) (pkt : bytes) : option bytes :=
  match pkt with
  | [] => None
  | first :: _ =>
      if negb (band first 0x80 =? 0) || (band first 0x40 =? 0) then None
      else
        let pn_len := (Z.to_nat (band first 0x03) + 1)%nat in
        let hdr := (1 + dcid_len self + pn_len)%nat in
        if decide (length pkt < hdr)%nat then None else Some (drop hdr pkt)
  end.

End Quic.

(** ** Base64 *)

Definition B64 : list byte :=
  String.list_byte_of_string "ABCDEFGHIJKLMNOPQRSTUVWXYZabcdefghijklmnopqrstuvwxyz0123456789+/".

(** The table built at compile time: position [i] of [B64] at the index of its character. *)
Definition B64_REV : list Z :=
  foldl (fun t i => <[Z.to_nat (byte_to_Z (nth i B64 x00)) := Z.of_nat i]> t) (replicate 256 0xFF) (seq 0 64).

(** Character [v & 63] of the alphabet. *)
Definition b64_char (v : Z) : byte := nth (Z.to_nat (Z.land v 63)) B64 x00.

Definition PAD : byte := x3d.

(** The four characters of a chunk of up to three bytes. *)
Definition encode_chunk (chunk : bytes) : bytes :=
  let b0 := byte_to_Z (nth 0 chunk x00) in
  let b1 := byte_to_Z (nth 1 chunk x00) in
  let b2 := byte_to_Z (nth 2 chunk x00) in
  let n := Z.lor (Z.lor (Z.shiftl b0 16) (Z.shiftl b1 8)) b2 in
  [b64_char (Z.shiftr n 18);
   b64_char (Z.shiftr n 12);
   if decide (1 < length chunk)%nat then b64_char (Z.shiftr n 6) else PAD;
   if decide (2 < length chunk)%nat then b64_char n else PAD].

(** [data.chunks(3)] *)
Fixpoint base64_encode (data : bytes) : bytes :=
  match data with
  | a :: b :: c :: data => encode_chunk [a; b; c] ++ base64_encode data
  | [] => []
  | chunk => encode_chunk chunk
  end.

(** The loop of [base64_decode]: [buf] and [bits] are [u32]s. *)
Fixpoint decode_loop (input : bytes) (buf bits : Z) (out : bytes) : option bytes :=
  match input with
  | [] => Some out
  | c :: input =>
      if decide (c = PAD) then Some out
      else
        let v := nth (Z.to_nat (byte_to_Z c)) B64_REV 0xFF in
        if v =? 0xFF then None
        else
          let buf := Z.lor (Z.shiftl buf 6 mod U32) v in
          let bits := bits + 6 in
          if 8 <=? bits then decode_loop input buf (bits - 8) (out ++ [byte_of_Z (Z.shiftr buf (bits - 8))])
          else decode_loop input buf bits out
  end.

Definition base64_decode (input : bytes) : option bytes := decode_loop input 0 0 [].

(** ** The obfuscators *)

Inductive Obfuscator : Type :=
| ObfsNone
| ObfsQuic (q : QuicObfs)
| ObfsBase64.

Section Obfuscator.
Context `{R : Rng}.

Definition obfs_from_name (name : string) : ST nat Obfuscator :=
  if decide (name = "quic") then q ← quic_new DEFAULT_DCID_LEN; mret (ObfsQuic q)
  else if decide (name = "base64") then mret ObfsBase64
  else mret ObfsNone.

(** [wrap] also advances the packet number of the QUIC obfuscator. *)
Definition wrap (self : Obfuscator) (datagram : bytes) : ST nat (bytes * Obfuscator) :=
  match self with
  | ObfsNone => mret (datagram, self)
  | ObfsQuic q => '(out, q) ← quic_wrap q datagram; mret (out, ObfsQuic q)
  | ObfsBase64 => mret (base64_encode datagram, self)
  end.

Definition unwrap_pkt (self : Obfuscator) (pkt : bytes) : option bytes :=
  match self with
  | ObfsNone => Some pkt
  | ObfsQuic q => quic_unwrap q pkt
  | ObfsBase64 => base64_decode pkt
  end.

End Obfuscator.

(** ** Base64 is undone *)

Lemma lor_add x v k : 0 <= k -> 0 <= v < 2 ^ k -> Z.lor (x * 2 ^ k) v = x * 2 ^ k + v.
Proof.
  intros Hk Hv. rewrite <- Z.shiftl_mul_pow2 by done.
  assert (H : Z.land (Z.shiftl x k) v = 0).
  { apply Z.bits_inj'. intros n Hn. rewrite Z.land_spec, Z.bits_0.
    destruct (decide (n < k)).
    - by rewrite Z.shiftl_spec_low.
    - rewrite <- (Z.mod_small v (2 ^ k)), Z.mod_pow2_bits_high by lia. apply andb_false_r. }
  by rewrite Z.add_nocarry_lxor, Z.lxor_lor.
Qed.

(** Every six bits are recovered from their character. *)
Lemma b64_char_spec v :
  b64_char v <> PAD /\ nth (Z.to_nat (byte_to_Z (b64_char v))) B64_REV 0xFF = v mod 64.
Proof.
  unfold b64_char. change 63 with (Z.ones 6). rewrite (Z.land_ones v 6) by done. change (2 ^ 6) with 64.
  pose proof (Z.mod_pos_bound v 64 eq_refl) as Hv.
  assert (H : forallb (fun i => negb (Byte.eqb (nth i B64 x00) PAD) &&
            (nth (Z.to_nat (byte_to_Z (nth i B64 x00))) B64_REV 0xFF =? Z.of_nat i)) (seq 0 64) = true)
    by (vm_compute; reflexivity).
  rewrite forallb_forall in H. specialize (H (Z.to_nat (v mod 64))).
  rewrite in_seq, andb_true_iff, negb_true_iff, Z.eqb_eq, Z2Nat.id in H by lia.
  destruct H as [H1 H2]; [lia|]. split; [|done]. intros E. rewrite E in H1. by vm_compute in H1.
Qed.

(** One character: six more bits. *)
Definition push (buf v : Z) : Z := buf * 64 mod U32 + v mod 64.

Lemma decode_char v input buf bits out :
  decode_loop (b64_char v :: input) buf bits out =
    if 8 <=? bits + 6 then decode_loop input (push buf v) (bits + 6 - 8) (out ++ [byte_of_Z (push buf v / 2 ^ (bits + 6 - 8))])
    else decode_loop input (push buf v) (bits + 6) out.
Proof.
  destruct (b64_char_spec v) as [Hp Hv]. cbn [decode_loop]. rewrite decide_False by done. rewrite Hv.
  pose proof (Z.mod_pos_bound v 64 eq_refl) as Hb. rewrite (proj2 (Z.eqb_neq _ _)) by lia.
  assert (E : Z.lor (Z.shiftl buf 6 mod U32) (v mod 64) = push buf v).
  { unfold push. rewrite Z.shiftl_mul_pow2 by done. change (2 ^ 6) with 64.
    assert (Hm : buf * 64 mod U32 = (buf mod 2 ^ 26) * 2 ^ 6) by (unfold U32; change (2 ^ 32) with (2 ^ 26 * 64); rewrite Z.mul_mod_distr_r by done; done).
    rewrite Hm. by apply lor_add. }
  rewrite E. destruct (8 <=? bits + 6) eqn:Eb; [|done]. b2p. by rewrite Z.shiftr_div_pow2 by lia.
Qed.

(** The sextets of three bytes. *)
Lemma chunk_sextets (b0 b1 b2 : Z) :
  0 <= b0 < 256 -> 0 <= b1 < 256 -> 0 <= b2 < 256 ->
  let n := Z.lor (Z.lor (Z.shiftl b0 16) (Z.shiftl b1 8)) b2 in
  Z.shiftr n 18 mod 64 = b0 / 4 /\ Z.shiftr n 12 mod 64 = b0 mod 4 * 16 + b1 / 16 /\
  Z.shiftr n 6 mod 64 = b1 mod 16 * 4 + b2 / 64 /\ n mod 64 = b2 mod 64.
Proof.
  intros H0 H1 H2 n.
  assert (E : n = b0 * 65536 + b1 * 256 + b2).
  { unfold n. rewrite !Z.shiftl_mul_pow2 by done. rewrite (lor_add b0 (b1 * 2 ^ 8) 16) by lia.
    replace (b0 * 2 ^ 16 + b1 * 2 ^ 8) with ((b0 * 256 + b1) * 2 ^ 8) by lia. rewrite lor_add by lia. lia. }
  rewrite !Z.shiftr_div_pow2 by done. clearbody n. subst n.
  change (2 ^ 18) with 262144. change (2 ^ 12) with 4096. change (2 ^ 6) with 64. split_and!; dlia.
Qed.

Lemma byte_of_eq z b : z mod 256 = byte_to_Z b -> byte_of_Z z = b.
Proof. intros H. by rewrite <- (byte_of_to (byte_of_Z z)), byte_to_of, H, byte_of_to. Qed.

(** What three sextets push past whatever the buffer held. *)
Lemma push_bytes buf v1 v2 v3 v4 b0 b1 b2 :
  0 <= b0 < 256 -> 0 <= b1 < 256 -> 0 <= b2 < 256 ->
  v1 mod 64 = b0 / 4 -> v2 mod 64 = b0 mod 4 * 16 + b1 / 16 ->
  (push (push buf v1) v2 / 16) mod 256 = b0 /\
  (v3 mod 64 = b1 mod 16 * 4 + b2 / 64 ->
   (push (push (push buf v1) v2) v3 / 4) mod 256 = b1 /\
   (v4 mod 64 = b2 mod 64 -> (push (push (push (push buf v1) v2) v3) v4) mod 256 = b2)).
Proof.
  intros H0 H1 H2 E1 E2. unfold push. rewrite E1, E2. change U32 with 4294967296.
  split; [dlia|]. intros ->. split; [dlia|]. intros ->. dlia.
Qed.

Lemma decode_one v input buf out :
  decode_loop (b64_char v :: input) buf 0 out = decode_loop input (push buf v) 6 out.
Proof. apply decode_char. Qed.

Lemma decode_two v input buf out b :
  (push buf v / 16) mod 256 = byte_to_Z b ->
  decode_loop (b64_char v :: input) buf 6 out = decode_loop input (push buf v) 4 (out ++ [b]).
Proof. intros H. rewrite decode_char. cbn. by rewrite (byte_of_eq _ b). Qed.

Lemma decode_three v input buf out b :
  (push buf v / 4) mod 256 = byte_to_Z b ->
  decode_loop (b64_char v :: input) buf 4 out = decode_loop input (push buf v) 2 (out ++ [b]).
Proof. intros H. rewrite decode_char. cbn. by rewrite (byte_of_eq _ b). Qed.

Lemma decode_four v input buf out b :
  push buf v mod 256 = byte_to_Z b ->
  decode_loop (b64_char v :: input) buf 2 out = decode_loop input (push buf v) 0 (out ++ [b]).
Proof. intros H. rewrite decode_char. cbn. rewrite (byte_of_eq _ b); [done|by rewrite Z.div_1_r]. Qed.

(** A whole chunk, wherever it stands; a short one ends the input. *)
Lemma decode_chunk chunk input buf out :
  match chunk with
  | [_; _; _] => exists buf', decode_loop (encode_chunk chunk ++ input) buf 0 out = decode_loop input buf' 0 (out ++ chunk)
  | [_; _] | [_] => decode_loop (encode_chunk chunk ++ input) buf 0 out = Some (out ++ chunk)
  | _ => True
  end.
Proof.
  destruct (chunk_sextets (byte_to_Z (nth 0 chunk x00)) (byte_to_Z (nth 1 chunk x00)) (byte_to_Z (nth 2 chunk x00)))
    as (S1 & S2 & S3 & S4); [apply byte_to_Z_range..|].
  unfold encode_chunk. set (n := Z.lor _ _) in *.
  destruct (push_bytes buf _ _ (Z.shiftr n 6) n _ _ (byte_to_Z (nth 2 chunk x00)) (byte_to_Z_range (nth 0 chunk x00))
    (byte_to_Z_range (nth 1 chunk x00)) (byte_to_Z_range (nth 2 chunk x00)) S1 S2) as [B1 B2].
  destruct (B2 S3) as [B3 B4]. specialize (B4 S4). clear B2.
  cbn [app]. destruct chunk as [|b0 [|b1 [|b2 [|]]]]; [done|..|done]; cbn [nth length] in *.
  - rewrite decode_one, (decode_two _ _ _ _ b0) by done. reflexivity.
  - rewrite decode_one, (decode_two _ _ _ _ b0) by done. rewrite decide_True by lia.
    rewrite (decode_three _ _ _ _ b1) by done. rewrite <- app_assoc. reflexivity.
  - rewrite decode_one, (decode_two _ _ _ _ b0) by done. rewrite !decide_True by lia.
    rewrite (decode_three _ _ _ _ b1), (decode_four _ _ _ _ b2) by done. rewrite <- !app_assoc. eauto.
Qed.

Lemma decode_encode data buf out : decode_loop (base64_encode data) buf 0 out = Some (out ++ data).
Proof.
  revert buf out. induction data as [data IH] using (induction_ltof1 _ length). intros buf out. unfold ltof in IH.
  destruct data as [|b0 [|b1 [|b2 rest]]]; cbn [base64_encode].
  - by rewrite app_nil_r.
  - pose proof (decode_chunk [b0] [] buf out) as H. by rewrite app_nil_r in H.
  - pose proof (decode_chunk [b0; b1] [] buf out) as H. by rewrite app_nil_r in H.
  - destruct (decode_chunk [b0; b1; b2] (base64_encode rest) buf out) as [buf' ->].
    rewrite IH by (simpl; lia). by rewrite <- app_assoc.
Qed.

(** ** Every obfuscator is undone *)

Section Roundtrip.
Context `{R : Rng}.

(** The obfuscators of two ends that agree. *)
Inductive same_carrier : Obfuscator -> Obfuscator -> Prop :=
| same_none : same_carrier ObfsNone ObfsNone
| same_base64 : same_carrier ObfsBase64 ObfsBase64
| same_quic q q' : length (dcid q) = dcid_len q -> dcid_len q' = dcid_len q -> same_carrier (ObfsQuic q) (ObfsQuic q').

Lemma first_byte_spec rnd :
  band (first_byte rnd) 0x80 = 0 /\ band (first_byte rnd) 0x40 <> 0 /\ band (first_byte rnd) 0x03 = 1.
Proof. destruct rnd; vm_compute; done. Qed.

Lemma quic_unwrap_wrap q q' d i :
  length (dcid q) = dcid_len q -> dcid_len q' = dcid_len q ->
  exists w, quic_wrap q d i = Done ((w, fetch_add q), S i) /\ quic_unwrap q' w = Some d.
Proof.
  intros Hd Hd'. exists ([first_byte (hd x00 (rng_fill i 1))] ++ dcid q ++ drop (4 - PN_LEN) (be_bytes 4 (pn q)) ++ d).
  split; [reflexivity|]. cbn [app quic_unwrap].
  destruct (first_byte_spec (hd x00 (rng_fill i 1))) as (H1 & H2 & H3). rewrite H1, H3.
  rewrite (proj2 (Z.eqb_neq _ _) H2). cbn [negb orb Z.eqb].
  set (n := drop _ _). assert (Hn : length n = 2%nat) by (unfold n; by rewrite length_drop, be_bytes_length).
  cbn [length]. rewrite decide_False by (rewrite !length_app, Hn, Hd, Hd'; simpl; lia).
  change (1 + dcid_len q' + (Z.to_nat 1 + 1))%nat with (S (dcid_len q' + 2)). cbn [drop].
  rewrite app_assoc. by rewrite drop_app_length' by (rewrite length_app, Hn, Hd, Hd'; lia).
Qed.

(** Wrapping succeeds; whoever agrees with the sender unwraps the datagram and still agrees
    afterwards. *)
Lemma unwrap_wrap o d i :
  exists w o2 i', wrap o d i = Done ((w, o2), i') /\
    forall o', same_carrier o o' -> unwrap_pkt o' w = Some d /\ same_carrier o2 o'.
Proof.
  destruct o as [|q|].
  - do 3 eexists. split; [reflexivity|]. intros o' H. inversion H. split; [done|constructor].
  - exists ([first_byte (hd x00 (rng_fill i 1))] ++ dcid q ++ drop (4 - PN_LEN) (be_bytes 4 (pn q)) ++ d), (ObfsQuic (fetch_add q)), (S i).
    split; [reflexivity|]. intros o' H. inversion H as [| |? q' Hd Hd']; subst.
    destruct (quic_unwrap_wrap q q' d i Hd Hd') as (w & E & Hw). injection E as <-.
    split; [done|by constructor].
  - do 3 eexists. split; [reflexivity|]. intros o' H. inversion H. split; [apply decode_encode|constructor].
Qed.

Lemma quic_new_ok n i : exists q, quic_new n i = Done (q, S (S i)) /\ length (dcid q) = n /\ dcid_len q = n.
Proof. exists (mkQuic (rng_fill i n) n (be_int (rng_fill (S i) 4))). split_and!; [done|apply rng_fill_length|done]. Qed.

End Roundtrip.
End Obfs.
