(* ===== verification/ShadowEndpoint.v ===== *)
(** * The ShadowVPN endpoint (ts_tunnel/src/shadowvpn/endpoint.rs)

    Peers by handle, an index from their public keys, and the stateless sealing and trial
    opening of datagrams. *)

From S2P Require Import Prelude Scheduler Packet Crypto Noise WgState WgPeer ShadowCrypto Obfs.

Module ShadowEndpoint.
Import Results ShadowCrypto Obfs.

Abbreviation PeerConfig := WgPeer.PeerConfig.

Definition MIN_DELIVER_LEN : nat := 20.

Record Peer : Type := mkPeer { id : Z; config : PeerConfig; master_key : bytes }.

(** [draws] counts the draws from the random generator, which the program does not own. *)
Record Endpoint : Type := mkEndpoint {
  my_key : X25519KeyPair;
  cipher : Cipher;
  obfs : Obfuscator;
  peers : gmap Z Peer;
  by_key : gmap bytes Z;
  draws : nat;
}.

Definition with_peers (e : Endpoint) (p : gmap Z Peer) (k : gmap bytes Z) : Endpoint :=
  mkEndpoint (my_key e) (cipher e) (obfs e) p k (draws e).
Definition with_obfs (e : Endpoint) (o : Obfuscator) (i : nat) : Endpoint :=
  mkEndpoint (my_key e) (cipher e) o (peers e) (by_key e) i.

Section Endpoint.
Context `{P : Primitives} `{R : Rng} `{HO : !HashOrder Z}.

(** [config.psk[..cipher.key_len()]] *)
Definition peer_new (id : Z) (config : PeerConfig) (cipher : Cipher) : outcome Peer :=
  if decide (key_len cipher <= length (WgPeer.psk config))%nat
  then Done (mkPeer id config (take (key_len cipher) (WgPeer.psk config)))
  else Panic.

Definition with_config (my_key : X25519KeyPair) (cipher : Cipher) (obfs : Obfuscator) (draws : nat) : Endpoint :=
  mkEndpoint my_key cipher obfs ∅ ∅ draws.

Definition endpoint_new (my_key : X25519KeyPair) : ST nat Endpoint := fun i =>
  '(obfs, i) ← obfs_from_name "quic" i;
  Done (with_config my_key ChaCha20Poly1305 obfs i, i).

Definition upsert_peer (id : Z) (cfg : PeerConfig) : ST Endpoint (option PeerConfig) := fun e =>
  let collides := match by_key e !! WgPeer.key cfg with
                  | Some existing => bool_decide (existing <> id)
                  | None => false
                  end in
  if (collides : bool) then Panic
  else
    peer ← peer_new id cfg (cipher e);
    let new_key := WgPeer.key (config peer) in
    let ps := <[id := peer]> (peers e) in
    match peers e !! id with
    | Some old =>
        let ks := if decide (WgPeer.key (config old) = new_key) then by_key e
                  else <[new_key := id]> (delete (WgPeer.key (config old)) (by_key e)) in
        Done (Some (config old), with_peers e ps ks)
    | None => Done (None, with_peers e ps (<[new_key := id]> (by_key e)))
    end.

Definition remove_peer (peer : Z) : ST Endpoint bool := fun e =>
  match peers e !! peer with
  | None => Done (false, e)
  | Some p => Done (true, with_peers e (delete peer (peers e)) (delete (WgPeer.key (config p)) (by_key e)))
  end.

(** The packets of one peer; a packet that cannot be sealed is skipped. *)
Fixpoint send_packets (peer : Peer) (packets out : list bytes) (e : Endpoint) : outcome (list bytes * Endpoint) :=
  match packets with
  | [] => Done (out, e)
  | packet :: packets =>
      '(r, i) ← encrypt_packet (cipher e) (master_key peer) packet (draws e);
      match r with
      | inr datagram =>
          '((w, o), i) ← wrap (obfs e) datagram i;
          send_packets peer packets (out ++ [w]) (with_obfs e o i)
      | inl _ => send_packets peer packets out (with_obfs e (obfs e) i)
      end
  end.

Fixpoint send_loop (packets : list (Z * list bytes)) (ret : SendResult) : ST Endpoint SendResult := fun e =>
  match packets with
  | [] => Done (ret, e)
  | (peer_id, batch) :: packets =>
      match peers e !! peer_id with
      | None => send_loop packets ret e
      | Some peer =>
          '(out, e) ← send_packets peer batch [] e;
          send_loop packets (queue_to_peer ret peer_id out) e
      end
  end.

Definition send (packets : list (Z * list bytes)) : ST Endpoint SendResult := send_loop packets send_default.

(** [self.peers.values()] *)
Definition peer_values (e : Endpoint) : list Peer := omap (fun k => peers e !! k) (hash_keys (peers e)).

(** The first peer whose key opens the datagram, and the plaintext. *)
Fixpoint trial (cipher : Cipher) (datagram : bytes) (ps : list Peer) : outcome (option (Peer * bytes)) :=
  match ps with
  | [] => mret None
  | peer :: ps =>
      r ← decrypt_packet cipher (master_key peer) datagram;
      match r with
      | inl _ => trial cipher datagram ps
      | inr plaintext => mret (Some (peer, plaintext))
      end
  end.

Fixpoint recv_loop (e : Endpoint) (packets : list bytes) (ret : RecvResult) : outcome RecvResult :=
  match packets with
  | [] => mret ret
  | packet :: packets =>
      match unwrap_pkt (obfs e) packet with
      | None => recv_loop e packets ret
      | Some datagram =>
          o ← trial (cipher e) datagram (peer_values e);
          match o with
          | None => recv_loop e packets ret
          | Some (peer, plaintext) =>
              if decide (length plaintext < MIN_DELIVER_LEN)%nat then recv_loop e packets ret
              else recv_loop e packets (queue_to_local ret (id peer) [plaintext])
          end
      end
  end.

Definition recv (packets : list bytes) : ST Endpoint RecvResult := fun e =>
  ret ← recv_loop e packets recv_default; Done (ret, e).

Definition dispatch_events (now : Z) : ST Endpoint EventResult := fun e => Done (event_default, e).

Definition next_event (e : Endpoint) : option TimeRange.range := None.

Definition peer_key (e : Endpoint) (id : Z) : option bytes :=
  peer ← peers e !! id; Some (WgPeer.key (config peer)).

Definition peer_id (e : Endpoint) (key : bytes) : option Z := by_key e !! key.

(** ** The invariant *)

Record peer_ok (c : Cipher) (pid : Z) (p : Peer) : Prop := {
  pk_id : id p = pid;
  pk_psk : length (WgPeer.psk (config p)) = 32%nat;
  pk_master : master_key p = take (key_len c) (WgPeer.psk (config p));
}.

(** The index is the inverse of the peers' keys. *)
Record inv (e : Endpoint) : Prop := {
  inv_peers pid p : peers e !! pid = Some p -> peer_ok (cipher e) pid p;
  inv_index k pid : by_key e !! k = Some pid <-> exists p, peers e !! pid = Some p /\ WgPeer.key (config p) = k;
}.

Lemma new_inv k c o i : inv (with_config k c o i).
Proof. split; [done|]. intros k' pid. simpl. rewrite lookup_empty. split; [done|]. intros (p & Hp & _). by rewrite lookup_empty in Hp. Qed.

Lemma key_len_32 c : (key_len c <= 32)%nat.
Proof. destruct c; simpl; lia. Qed.

(** Distinct peers have distinct keys. *)
Lemma keys_inj e i j p q :
  inv e -> peers e !! i = Some p -> peers e !! j = Some q -> WgPeer.key (config p) = WgPeer.key (config q) -> i = j.
Proof.
  intros He Hp Hq Hk. assert (Hi : by_key e !! WgPeer.key (config p) = Some i) by (apply (inv_index e He); eauto).
  assert (Hj : by_key e !! WgPeer.key (config p) = Some j) by (apply (inv_index e He); eauto). congruence.
Qed.

(** The state with a peer added or replaced. *)
Definition put_peer (e : Endpoint) (pid : Z) (cfg : PeerConfig) : gmap Z Peer :=
  <[pid := mkPeer pid cfg (take (key_len (cipher e)) (WgPeer.psk cfg))]> (peers e).

(** The index after [pid] got the key of [cfg]. *)
Definition put_index (e : Endpoint) (pid : Z) (cfg : PeerConfig) (ks : gmap bytes Z) : Prop :=
  forall k, ks !! k = if decide (k = WgPeer.key cfg) then Some pid
                      else by_key e !! k ≫= fun x => if decide (x = pid) then None else Some x.

Lemma put_inv e pid cfg ks :
  inv e -> length (WgPeer.psk cfg) = 32%nat ->
  (forall other, by_key e !! WgPeer.key cfg = Some other -> other = pid) ->
  put_index e pid cfg ks -> inv (with_peers e (put_peer e pid cfg) ks).
Proof.
  intros He Hpsk Hfree Hks. split; simpl.
  - intros pid' p. unfold put_peer. rewrite lookup_insert. case_decide; [|apply (inv_peers e He)].
    intros [= <-]. by subst.
  - intros k pid'. rewrite Hks. unfold put_peer. rewrite lookup_insert.
    pose proof (inv_index e He) as Hi. specialize (Hi k pid'). repeat case_decide; subst; simpl in *.
    + split; [|done]. eexists. done.
    + split; [congruence|]. intros H%Hi%Hfree. congruence.
    + destruct (by_key e !! k) as [x|]; simpl; [case_decide|].
      all: split; [intros [=]; congruence|intros (p & [= <-] & <-); done].
    + rewrite <- Hi. destruct (by_key e !! k) as [x|]; simpl; [|done]. case_decide; [|done]. split; congruence.
Qed.

Lemma upsert_spec e pid cfg :
  inv e -> length (WgPeer.psk cfg) = 32%nat ->
  (upsert_peer pid cfg e = Panic /\ exists other, other <> pid /\ peer_id e (WgPeer.key cfg) = Some other) \/
  (exists ks, upsert_peer pid cfg e = Done (config <$> peers e !! pid, with_peers e (put_peer e pid cfg) ks) /\
     inv (with_peers e (put_peer e pid cfg) ks) /\
     forall other, peer_id e (WgPeer.key cfg) = Some other -> other = pid).
Proof.
  intros He Hpsk. unfold upsert_peer, peer_id.
  destruct (match by_key e !! WgPeer.key cfg with Some x => bool_decide (x <> pid) | None => false end) eqn:Ec.
  { left. destruct (by_key e !! WgPeer.key cfg) as [x|]; [|done]. apply bool_decide_eq_true in Ec. eauto. }
  assert (Hfree : forall other, by_key e !! WgPeer.key cfg = Some other -> other = pid).
  { intros other E. rewrite E in Ec. apply bool_decide_eq_false in Ec. by apply dec_stable in Ec. }
  right. unfold peer_new. rewrite decide_True by (rewrite Hpsk; apply key_len_32). cbn [mbind outcome_bind config].
  pose proof (fun k => inv_index e He k pid) as Hi.
  destruct (peers e !! pid) as [old|] eqn:Eo; (eexists; split; [done|]); (split; [|done]); apply put_inv; try done; intros k.
  - assert (Hold : by_key e !! WgPeer.key (config old) = Some pid) by (apply Hi; eauto).
    assert (Hno : forall x, by_key e !! x = Some pid -> x = WgPeer.key (config old)) by (intros x (p & [= <-] & <-)%Hi; done).
    case_decide as Hk.
    + case_decide; subst; [congruence|]. destruct (by_key e !! k) as [x|] eqn:Ex; simpl; [|done]. case_decide; subst; [|done].
      apply Hno in Ex. congruence.
    + rewrite lookup_insert. repeat case_decide; subst; try done. rewrite lookup_delete. case_decide; subst.
      * rewrite Hold. simpl. by rewrite decide_True.
      * destruct (by_key e !! k) as [x|] eqn:Ex; simpl; [|done]. case_decide; subst; [|done]. apply Hno in Ex. congruence.
  - rewrite lookup_insert. repeat case_decide; subst; try done.
    destruct (by_key e !! k) as [x|] eqn:Ex; simpl; [|done]. case_decide; subst; [|done].
    apply Hi in Ex as (p & [=] & _).
Qed.

Lemma shadow_remove_spec e pid :
  inv e ->
  exists e', remove_peer pid e = Done (bool_decide (is_Some (peers e !! pid)), e') /\ inv e' /\ peers e' = delete pid (peers e) /\
    cipher e' = cipher e /\ obfs e' = obfs e.
Proof.
  intros He. unfold remove_peer. destruct (peers e !! pid) as [p|] eqn:Ep; eexists.
  2:{ split; [done|]. split; [done|]. by rewrite delete_id. }
  split; [done|]. split; [|done]. split; simpl.
  - intros pid' q [_ Hq]%lookup_delete_Some. by apply (inv_peers e He).
  - intros k pid'. rewrite lookup_delete_Some, (inv_index e He). setoid_rewrite lookup_delete_Some. split.
    + intros (Hk & q & Hq & <-). exists q. split_and!; [|done..]. intros <-. congruence.
    + intros (q & [Hne Hq] & <-). split; [|eauto]. intros Hk. apply Hne. by eapply keys_inj.
Qed.

(** ** Receiving *)

Context `{L : !PrimitivesLaws}.

Lemma elem_of_peer_values e p : p ∈ peer_values e <-> exists k, peers e !! k = Some p.
Proof.
  unfold peer_values. rewrite list_elem_of_omap. split; [intros (k & _ & Hk); eauto|].
  intros (k & Hk). exists k. split; [|done]. rewrite hash_keys_perm. apply list_elem_of_fmap.
  exists (k, p). split; [done|]. by apply elem_of_map_to_list.
Qed.

(** A datagram that [p] could have sent. *)
Definition sealed_by (c : Cipher) (p : Peer) (m d : bytes) : Prop :=
  sealed c (master_key p) (take (salt_len c) d) m d.

Lemma trial_ok c d ps :
  exists o, trial c d ps = Done o /\
    match o with
    | Some (p, m) => p ∈ ps /\ sealed_by c p m d
    | None => forall p m, p ∈ ps -> ~ sealed_by c p m d
    end.
Proof.
  induction ps as [|p ps (o & E & Ho)]; simpl; [eexists; split; [done|]; intros p m H; by apply not_elem_of_nil in H|].
  destruct (decrypt_packet_ok c (master_key p) d) as (r & Er & Hr). rewrite Er. simpl. destruct r as [err|m].
  - exists o. split; [done|]. destruct o as [[q m]|]; [destruct Ho; split; [by apply list_elem_of_further|done]|].
    intros q m [->|Hq]%elem_of_cons; [|by apply Ho]. intros Hs. apply decrypt_sealed in Hs. congruence.
  - eexists. split; [done|]. split; [apply list_elem_of_here|done].
Qed.

(** What a wire packet adds to the packets received from [pid]. *)
Definition delivered (e : Endpoint) (pid : Z) (w : bytes) : option bytes :=
  d ← unwrap_pkt (obfs e) w;
  match trial (cipher e) d (peer_values e) with
  | Done (Some (p, m)) => if decide (id p = pid /\ MIN_DELIVER_LEN <= length m)%nat then Some m else None
  | _ => None
  end.

Lemma recv_loop_ok e ws ret :
  exists r, recv_loop e ws ret = Done r /\ rr_to_peers r = rr_to_peers ret /\
    forall pid, queued (rr_to_local r) pid = queued (rr_to_local ret) pid ++ omap (delivered e pid) ws.
Proof.
  revert ret. induction ws as [|w ws IH]; intros ret; cbn [recv_loop].
  { eexists. split; [done|]. split; [done|]. intros. by rewrite app_nil_r. }
  assert (Hskip : (forall pid, delivered e pid w = None) -> exists r, recv_loop e ws ret = Done r /\ rr_to_peers r = rr_to_peers ret /\
    forall pid, queued (rr_to_local r) pid = queued (rr_to_local ret) pid ++ omap (delivered e pid) (w :: ws)).
  { intros Hw. destruct (IH ret) as (r & E & Hp & Hr). exists r. split_and!; [done..|]. intros pid. rewrite omap_cons_eq, Hw. apply Hr. }
  unfold delivered in Hskip at 1. destruct (unwrap_pkt (obfs e) w) as [d|] eqn:Ed; [|by apply Hskip].
  destruct (trial_ok (cipher e) d (peer_values e)) as (o & Eo & Ho). simpl in Hskip. rewrite Eo in Hskip |- *. cbn [mbind outcome_bind].
  destruct o as [[p m]|]; [|by apply Hskip]. destruct (decide (length m < MIN_DELIVER_LEN)%nat) as [Hm|Hm].
  { apply Hskip. intros pid. rewrite decide_False; [done|lia]. }
  destruct (IH (queue_to_local ret (id p) [m])) as (r & E & Hp & Hr). exists r. split_and!; [done..|].
  intros pid. rewrite Hr, omap_cons_eq. unfold delivered at 2. rewrite Ed. simpl. rewrite Eo, queued_append.
  destruct (decide (pid = id p)) as [->|Hne].
  - rewrite decide_True by (split; [done|lia]). by rewrite <- app_assoc.
  - rewrite decide_False by (intros []; congruence). done.
Qed.

Lemma shadow_recv_ok e ws :
  exists r, recv ws e = Done (r, e) /\ rr_to_peers r = ∅ /\ forall pid, queued (rr_to_local r) pid = omap (delivered e pid) ws.
Proof.
  destruct (recv_loop_ok e ws recv_default) as (r & E & Hp & Hr). exists r. unfold recv. rewrite E. done.
Qed.

Lemma delivered_sealed e pid w m :
  inv e -> delivered e pid w = Some m ->
  exists p d, peers e !! pid = Some p /\ unwrap_pkt (obfs e) w = Some d /\ sealed_by (cipher e) p m d /\ (MIN_DELIVER_LEN <= length m)%nat.
Proof.
  intros He. unfold delivered. destruct (unwrap_pkt (obfs e) w) as [d|]; simpl; [|done].
  destruct (trial_ok (cipher e) d (peer_values e)) as (o & -> & Ho). destruct o as [[p m']|]; [|done].
  case_decide as Hd; [|done]. intros [= ->]. destruct Ho as [Hp Hs], Hd as [<- Hm]. apply elem_of_peer_values in Hp as [k Hk].
  rewrite (pk_id _ _ _ (inv_peers e He k p Hk)). eauto 6.
Qed.

(** A datagram that only the key of [pid] opens is delivered as coming from it. *)
Lemma delivered_own e pid p w d salt m :
  inv e -> peers e !! pid = Some p -> unwrap_pkt (obfs e) w = Some d -> sealed (cipher e) (master_key p) salt m d ->
  (forall pid' q m', peers e !! pid' = Some q -> pid' <> pid -> ~ sealed_by (cipher e) q m' d) ->
  delivered e pid w = if decide (MIN_DELIVER_LEN <= length m)%nat then Some m else None.
Proof.
  intros He Hp Hw Hs Hother. unfold delivered. rewrite Hw. simpl.
  destruct (trial_ok (cipher e) d (peer_values e)) as (o & -> & Ho).
  assert (Hs' : sealed_by (cipher e) p m d).
  { unfold sealed_by. destruct Hs as (sk & c & t & ? & ? & Hl & ? & ->). rewrite take_app_length' by done. exists sk, c, t. done. }
  destruct o as [[q m']|]; [|destruct (Ho p m); [|done]; apply elem_of_peer_values; eauto].
  destruct Ho as [Hq Hqs]. apply elem_of_peer_values in Hq as [k Hk].
  destruct (decide (k = pid)) as [->|Hne]; [|by destruct (Hother k q m' Hk Hne)].
  assert (q = p) as -> by congruence. rewrite (pk_id _ _ _ (inv_peers e He pid p Hp)).
  apply decrypt_sealed in Hqs, Hs'. rewrite Hs' in Hqs. injection Hqs as <-.
  repeat case_decide; naive_solver.
Qed.

(** ** Sending *)

(** A wire packet for [p] that carries [m], as whoever shares the carrier [o] sees it. *)
Definition carries (c : Cipher) (o : Obfuscator) (p : Peer) (m w : bytes) : Prop :=
  exists salt d, sealed c (master_key p) salt m d /\ forall o', same_carrier o o' -> unwrap_pkt o' w = Some d.

(** What sending leaves alone. *)
Record sent_from (e e' : Endpoint) : Prop := {
  sf_key : my_key e' = my_key e;
  sf_cipher : cipher e' = cipher e;
  sf_peers : peers e' = peers e;
  sf_index : by_key e' = by_key e;
  sf_carrier o : same_carrier (obfs e) o -> same_carrier (obfs e') o;
}.

Lemma sent_trans e1 e2 e3 : sent_from e1 e2 -> sent_from e2 e3 -> sent_from e1 e3.
Proof. intros [] []. split; try congruence. auto. Qed.

Lemma sent_inv e e' : sent_from e e' -> inv e -> inv e'.
Proof. intros [Hk Hc Hp Hi Ho] [A B]. split; rewrite Hp; [by rewrite Hc|by rewrite Hi]. Qed.

Lemma carries_weaken c o o' p m w :
  (forall x, same_carrier o x -> same_carrier o' x) -> carries c o' p m w -> carries c o p m w.
Proof. intros H (salt & d & Hs & Hd). exists salt, d. auto. Qed.

Definition sendable (c : Cipher) (m : bytes) : Prop := (length m <= max_message (algorithm c))%nat.

Lemma send_packets_ok p ms out e :
  Forall (sendable (cipher e)) ms ->
  exists ws e', send_packets p ms out e = Done (out ++ ws, e') /\ sent_from e e' /\
    Forall2 (carries (cipher e) (obfs e) p) ms ws.
Proof.
  intros Hms. revert e out Hms. induction ms as [|m ms IH]; intros e out Hms.
  { exists [], e. rewrite app_nil_r. done. }
  apply Forall_cons_1 in Hms as [Hm Hms]. cbn [send_packets].
  destruct (encrypt_packet_ok (cipher e) (master_key p) m (draws e) Hm) as (d & E & Hs & _). rewrite E. cbn [mbind outcome_bind].
  destruct (unwrap_wrap (obfs e) d (S (draws e))) as (w & o2 & i & Ew & Hw). rewrite Ew. cbn [mbind outcome_bind].
  assert (Hsent : sent_from e (with_obfs e o2 i)) by (split; try done; intros o Ho; by apply Hw).
  destruct (IH (with_obfs e o2 i) (out ++ [w]) Hms) as (ws & e' & E' & He' & HF).
  exists (w :: ws), e'. rewrite E', <- app_assoc. split_and!; [done|by eapply sent_trans|]. constructor.
  - exists (rng_fill (draws e) (salt_len (cipher e))), d. split; [done|]. intros o' Ho. by apply Hw.
  - eapply Forall2_impl; [exact HF|]. intros m' w' Hc. eapply carries_weaken; [|exact Hc]. apply (sf_carrier _ _ Hsent).
Qed.

(** Sending returns even when a packet is too long to be sealed. *)
Lemma send_packets_total p ms out e : exists out' e', send_packets p ms out e = Done (out', e') /\ sent_from e e'.
Proof.
  revert e out. induction ms as [|m ms IH]; intros e out; cbn [send_packets]; [by exists out, e|].
  change (encrypt_packet (cipher e) (master_key p) m (draws e))
    with (Done (encrypt_with (cipher e) (master_key p) m (rng_fill (draws e) (salt_len (cipher e))), S (draws e))).
  cbn [mbind outcome_bind]. destruct (encrypt_with _ _ _ _) as [err|d].
  - destruct (IH (with_obfs e (obfs e) (S (draws e))) out) as (out' & e' & E & H). exists out', e'. split; [done|].
    eapply sent_trans; [|exact H]. done.
  - destruct (unwrap_wrap (obfs e) d (S (draws e))) as (w & o2 & i & Ew & Hw). rewrite Ew. cbn [mbind outcome_bind].
    destruct (IH (with_obfs e o2 i) (out ++ [w])) as (out' & e' & E & H). exists out', e'. split; [done|].
    eapply sent_trans; [|exact H]. split; try done. intros o Ho. by apply Hw.
Qed.

Lemma send_loop_total batches ret e : exists r e', send_loop batches ret e = Done (r, e') /\ sent_from e e'.
Proof.
  revert ret e. induction batches as [|[k ms] batches IH]; intros ret e; cbn [send_loop]; [by exists ret, e|].
  destruct (peers e !! k) as [p|]; [|apply IH].
  destruct (send_packets_total p ms [] e) as (out & e1 & E & H1). rewrite E. cbn [mbind outcome_bind].
  destruct (IH (queue_to_peer ret k out) e1) as (r & e' & E' & H). exists r, e'. split; [done|by eapply sent_trans].
Qed.

(** The packets of a batch list for one peer. *)
Definition batch_for (pid : Z) (batches : list (Z * list bytes)) : list bytes :=
  concat (omap (fun '(k, ps) => if decide (k = pid) then Some ps else None) batches).

Lemma shadow_send_loop_ok batches ret e :
  Forall (fun b => Forall (sendable (cipher e)) (snd b)) batches ->
  exists r e', send_loop batches ret e = Done (r, e') /\ sent_from e e' /\
    forall pid, exists ws, to_peer r pid = to_peer ret pid ++ ws /\
      match peers e !! pid with
      | Some p => Forall2 (carries (cipher e) (obfs e) p) (batch_for pid batches) ws
      | None => ws = []
      end.
Proof.
  revert ret e. induction batches as [|[k ms] batches IH]; intros ret e Hms.
  { exists ret, e. split_and!; [done..|]. intros pid. exists []. rewrite app_nil_r. split; [done|]. destruct (peers e !! pid); [constructor|done]. }
  apply Forall_cons_1 in Hms as [Hk Hms]. cbn [send_loop].
  destruct (peers e !! k) as [p|] eqn:Ep.
  - destruct (send_packets_ok p ms [] e Hk) as (ws & e1 & E & H1 & HF). rewrite E. cbn [mbind outcome_bind app].
    destruct (IH (queue_to_peer ret k ws) e1) as (r & e' & E' & He' & Hr); [by rewrite (sf_cipher _ _ H1)|].
    exists r, e'. split; [done|]. split; [by eapply sent_trans|]. intros pid. destruct (Hr pid) as (ws' & Et & Hws').
    rewrite (sf_peers _ _ H1), (sf_cipher _ _ H1) in Hws'. rewrite Et, to_peer_queue. unfold batch_for. rewrite omap_cons_eq.
    assert (HF' : forall q l l', Forall2 (carries (cipher e) (obfs e1) q) l l' -> Forall2 (carries (cipher e) (obfs e) q) l l').
    { intros q l l' H. eapply Forall2_impl; [exact H|]. intros ??. apply carries_weaken, (sf_carrier _ _ H1). }
    destruct (decide (pid = k)) as [->|Hne].
    + exists (ws ++ ws'). rewrite <- app_assoc. split; [done|]. rewrite Ep in *. rewrite decide_True by done. cbn [concat].
      apply Forall2_app; [done|]. by apply HF'.
    + exists ws'. split; [done|]. rewrite decide_False by done. destruct (peers e !! pid); [by apply HF'|done].
  - destruct (IH ret e Hms) as (r & e' & E' & He' & Hr). exists r, e'. split_and!; [done..|]. intros pid.
    destruct (Hr pid) as (ws & Et & Hws). exists ws. split; [done|]. destruct (decide (pid = k)) as [->|Hne]; [by rewrite Ep in *|].
    unfold batch_for. rewrite omap_cons_eq. by rewrite decide_False.
Qed.

Lemma send_ok batches e :
  Forall (fun b => Forall (sendable (cipher e)) (snd b)) batches ->
  exists r e', send batches e = Done (r, e') /\ sent_from e e' /\
    forall pid, match peers e !! pid with
                | Some p => Forall2 (carries (cipher e) (obfs e) p) (batch_for pid batches) (to_peer r pid)
                | None => to_peer r pid = []
                end.
Proof.
  intros Hb. destruct (shadow_send_loop_ok batches send_default e Hb) as (r & e' & E & He & Hr). exists r, e'. split_and!; [done..|].
  intros pid. destruct (Hr pid) as (ws & -> & Hws). done.
Qed.

End Endpoint.
End ShadowEndpoint.
