(* ===== verification/ShadowVpn.v ===== *)
(** * ShadowVPN between two endpoints

    What is delivered locally was sealed with the key of the peer it is attributed to; what
    one endpoint sends the other receives; peers with one pre-shared key are confused. *)

From S2P Require Import Prelude Packet Crypto Noise WgState WgPeer ShadowCrypto Obfs ShadowEndpoint.

Module ShadowVpn.
Import Results ShadowCrypto Obfs ShadowEndpoint.

(** ** A concrete instance *)

Module ToyPrims.

Definition toy_alg (n : nat) : AeadAlg := {|
  key_size := n;
  max_message := 100;
  encrypt_in_place_detached k nonce ad m :=
    if decide (length m <= 100)%nat then Some (Toy.xor_key k m, Toy.mac k nonce ad m) else None;
  decrypt_in_place_detached k nonce ad c t :=
    if decide (length c <= 100)%nat then Toy.open k nonce ad c t else None;
|}.

#[export] Instance toy_prims : Primitives := {|
  md5 m := Toy.pad 16 (Toy.sum m);
  hkdf_sha1 salt ikm info n :=
    if decide (n <= 255 * 20)%nat then Some (Toy.pad n (Toy.sum salt * 1000003 + Toy.sum ikm * 10007 + Toy.sum info)) else None;
  aes128gcm := toy_alg 16;
  aes256gcm := toy_alg 32;
  chacha20poly1305 := toy_alg 32;
|}.

Lemma toy_alg_laws n : AlgLaws n (toy_alg n).
Proof.
  split; [done|..]; simpl.
  - intros k nonce ad m Hm. rewrite decide_True by done. do 2 eexists. split; [done|].
    split; [apply length_map|apply Toy.pad_length].
  - intros k nonce ad c t m. unfold Toy.open. split.
    + case_decide as Hc; [|done]. case_decide as Ht; [|done]. intros [= <-].
      rewrite decide_True by (unfold Toy.xor_key; by rewrite length_map). by rewrite Toy.xor_key_involutive, Ht.
    + case_decide as Hm; [|done]. intros [= <- <-]. rewrite decide_True by (unfold Toy.xor_key; by rewrite length_map).
      rewrite Toy.xor_key_involutive. by rewrite decide_True.
Qed.

#[export] Instance toy_prims_laws : PrimitivesLaws.
Proof.
  split; try apply toy_alg_laws; intros; [apply Toy.pad_length|]. simpl. rewrite decide_True by done.
  eexists. split; [done|apply Toy.pad_length].
Qed.

#[export] Instance toy_rng : Rng.
Proof. refine {| rng_fill i n := Toy.pad n (Z.of_nat i * 1000003 + 5) |}. intros. apply Toy.pad_length. Defined.

End ToyPrims.

Section ShadowVpn.
Context `{P : Primitives} `{L : !PrimitivesLaws} `{R : Rng} `{HO : !HashOrder Z}.

(** Of the wire packets [ws], the keys of the peers of [e] other than [pid] open none. *)
Definition only_for (e : Endpoint) (pid : Z) (ws : list bytes) : Prop :=
  forall w d pid' q m, w ∈ ws -> unwrap_pkt (obfs e) w = Some d -> peers e !! pid' = Some q -> pid' <> pid ->
    ~ sealed_by (cipher e) q m d.

(** Long enough to be a packet. *)
Definition deliverable (m : bytes) : Prop := (MIN_DELIVER_LEN <= length m)%nat.

Lemma received_from e pid p o ms ws :
  inv e -> peers e !! pid = Some p -> same_carrier o (obfs e) -> only_for e pid ws ->
  Forall2 (carries (cipher e) o p) ms ws ->
  omap (delivered e pid) ws = filter deliverable ms /\
  forall pid', pid' <> pid -> omap (delivered e pid') ws = [].
Proof.
  intros He Hp Ho Hex HF. split.
  - induction HF as [|m w ms ws (salt & d & Hs & Hd) HF IH]; [done|]. rewrite omap_cons_eq, filter_cons.
    rewrite (delivered_own e pid p w d salt m); [|exact He|exact Hp|by apply Hd|exact Hs|].
    2:{ intros pid' q m' Hq Hne. eapply Hex; [apply list_elem_of_here|by apply Hd|done..]. }
    rewrite IH by (intros w' d' pid' q m' Hw; apply (Hex w'); by apply list_elem_of_further).
    destruct (decide (MIN_DELIVER_LEN <= length m)%nat); [by rewrite (decide_True (P := deliverable m))|by rewrite (decide_False (P := deliverable m))].
  - intros pid' Hne. apply omap_none. intros w Hw. destruct (delivered e pid' w) as [m|] eqn:E; [|done].
    destruct (delivered_sealed e pid' w m He E) as (q & d & Hq & Hd & Hs & _). by destruct (Hex w d pid' q m).
Qed.

Lemma batch_for_one pid (ms : list bytes) : batch_for pid [(pid, ms)] = ms.
Proof. unfold batch_for. cbn [omap list_omap]. rewrite decide_True by done. apply app_nil_r. Qed.


(** With one master key for all peers, everything received is attributed to a single one:
    the peer that the iteration over the map yields first. *)
Theorem shared_key_single_sender (e : Endpoint) (k : bytes) :
  inv e -> (forall pid p, peers e !! pid = Some p -> master_key p = k) ->
  exists pid0, forall pid w m, delivered e pid w = Some m -> pid = pid0.
Proof.
  intros He Hk. destruct (peer_values e) as [|p0 ps] eqn:Ev.
  { exists 0. intros pid w m. unfold delivered. destruct (unwrap_pkt (obfs e) w); simpl; [|done]. by rewrite Ev. }
  exists (id p0). intros pid w m. unfold delivered. destruct (unwrap_pkt (obfs e) w) as [d|]; simpl; [|done]. rewrite Ev.
  destruct (trial_ok (cipher e) d (p0 :: ps)) as (o & E & Ho). rewrite E. destruct o as [[q m']|]; [|done].
  destruct Ho as [Hq Hs]. rewrite <- Ev in Hq. apply elem_of_peer_values in Hq as [j Hj].
  assert (Hp0 : p0 ∈ peer_values e) by (rewrite Ev; apply list_elem_of_here). apply elem_of_peer_values in Hp0 as [j0 Hj0].
  unfold sealed_by in Hs. rewrite (Hk _ _ Hj), <- (Hk _ _ Hj0) in Hs. apply decrypt_sealed in Hs.
  simpl in E. rewrite Hs in E. injection E as <-. case_decide as Hd; [|done]. by destruct Hd.
Qed.

End ShadowVpn.

(** ** Witnesses *)

Module Example.
Import ToyPrims.
#[local] Existing Instance list_order.

Definition psk_of (n : Z) : bytes := replicate 32 (byte_of_Z n).

Definition add_peer (e : Endpoint) (pid : Z) (k : Z) : Endpoint :=
  match upsert_peer pid (WgPeer.mkConfig [byte_of_Z pid] (psk_of k)) e with
  | Done (_, e) => e
  | Panic => e
  end.

Definition fresh (c : Cipher) : Endpoint :=
  match obfs_from_name "quic" 0%nat with
  | Done (o, i) => with_config (mkKeyPair [] []) c o i
  | Panic => with_config (mkKeyPair [] []) c ObfsNone 0
  end.

(** Peer 7 of [alice] is [bob], whose peer 9 is [alice]; [bob] has another peer. *)
Definition alice : Endpoint := add_peer (fresh ChaCha20Poly1305) 7 1.
Definition bob : Endpoint := add_peer (add_peer (fresh ChaCha20Poly1305) 9 1) 11 2.

Definition packet : bytes := zeroes 20.

Lemma add_peer_inv e pid k : inv e -> inv (add_peer e pid k).
Proof.
  intros He. unfold add_peer. destruct (upsert_spec e pid (WgPeer.mkConfig [byte_of_Z pid] (psk_of k)) He) as [[-> _]|(ks & -> & H & _)];
    [apply length_replicate|done|done].
Qed.

Lemma fresh_inv c : inv (fresh c).
Proof. apply new_inv. Qed.

(** The key of [bob]'s other peer opens none of these packets. *)
Definition refused (ws : list bytes) : bool :=
  forallb (fun w => match unwrap_pkt (obfs bob) w with
                    | Some d => match decrypt_packet (cipher bob) (psk_of 2) d with Done (inr _) => false | _ => true end
                    | None => true
                    end) ws.

Lemma bob_other pid q : peers bob !! pid = Some q -> pid <> 9 -> master_key q = psk_of 2.
Proof.
  change (peers bob) with (put_peer (add_peer (fresh ChaCha20Poly1305) 9 1) 11 (WgPeer.mkConfig [byte_of_Z 11] (psk_of 2))).
  unfold put_peer. rewrite lookup_insert. case_decide; [by intros [= <-]|].
  change (peers (add_peer (fresh ChaCha20Poly1305) 9 1)) with (put_peer (fresh ChaCha20Poly1305) 9 (WgPeer.mkConfig [byte_of_Z 9] (psk_of 1))).
  unfold put_peer. intros Hq Hne. by rewrite lookup_insert_ne in Hq by done.
Qed.

Lemma refused_only ws : refused ws = true -> only_for bob 9 ws.
Proof.
  unfold refused. rewrite forallb_forall. intros Hws w d pid q m Hw Hd Hq Hne Hs.
  apply list_elem_of_In, Hws in Hw. rewrite Hd in Hw. apply decrypt_sealed in Hs.
  rewrite (bob_other pid q Hq Hne) in Hs. by rewrite Hs in Hw.
Qed.

Lemma sent_refused :
  match send [(7, [packet; [x01]])] alice with Done (out, _) => refused (to_peer out 7) | Panic => false end = true.
Proof. vm_compute. reflexivity. Qed.

Lemma sendable_example : Forall (sendable ChaCha20Poly1305) [packet; [x01]].
Proof. repeat apply Forall_cons_2; [apply Nat.leb_le; reflexivity..|constructor]. Qed.


End Example.
End ShadowVpn.
