(* ===== verification/Tunnel.v ===== *)
(** * The tunnel endpoint (ts_tunnel/src/lib.rs)

    The two backends share one interface, the class [Tunnel] with what it promises in
    [TunnelLaws]; [Endpoint] dispatches to the backend that was chosen when it was made. *)

From S2P Require Import Prelude Scheduler Packet Crypto Noise WgEnv WgState WgPeer WgEndpoint WgKeys WgInv WgSafety ShadowCrypto Obfs ShadowEndpoint.

Module Tunnel.
Import Results.

(** ** The interface *)

Class Tunnel (E : Type) : Type := {
  upsert_peer : Z -> WgPeer.PeerConfig -> ST E (option WgPeer.PeerConfig);
  remove_peer : Z -> ST E bool;
  send : list (Z * list bytes) -> ST E SendResult;
  recv : list bytes -> ST E RecvResult;
  dispatch_events : Z -> ST E EventResult;
  next_event : E -> outcome (option TimeRange.range);
  peer_key : E -> Z -> option bytes;
  peer_id : E -> bytes -> option Z;
}.

(** What a backend promises the data plane: calls that respect its limits return and keep it
    well-formed, and the time it asks to be called at is a range. *)
Class TunnelLaws (E : Type) `{T : Tunnel E} : Type := {
  tunnel_ok : E -> Prop;
  can_send : list (Z * list bytes) -> E -> Prop;
  can_recv : list bytes -> E -> Prop;
  can_dispatch : Z -> E -> Prop;
  send_total b e : tunnel_ok e -> can_send b e -> exists r e', send b e = Done (r, e') /\ tunnel_ok e';
  recv_total ps e : tunnel_ok e -> can_recv ps e -> exists r e', recv ps e = Done (r, e') /\ tunnel_ok e';
  dispatch_total now e : tunnel_ok e -> can_dispatch now e -> exists r e', dispatch_events now e = Done (r, e') /\ tunnel_ok e';
  next_event_total e : tunnel_ok e -> exists o, next_event e = Done o /\ forall r, o = Some r -> TimeRange.ok r;
  (** Peers by their keys: an upsert needs a key that no other peer has. *)
  upsert_total id cfg e : tunnel_ok e -> length (WgPeer.psk cfg) = 32%nat -> (forall j, j <> id -> peer_key e j <> Some (WgPeer.key cfg)) ->
    exists o e', upsert_peer id cfg e = Done (o, e') /\ tunnel_ok e' /\
      forall j, peer_key e' j = if decide (j = id) then Some (WgPeer.key cfg) else peer_key e j;
  upsert_collides id cfg e j : tunnel_ok e -> j <> id -> peer_key e j = Some (WgPeer.key cfg) -> peer_key e id = None ->
    upsert_peer id cfg e = Panic;
  remove_total id e : tunnel_ok e ->
    exists b e', remove_peer id e = Done (b, e') /\ tunnel_ok e' /\ forall j, peer_key e' j = if decide (j = id) then None else peer_key e j;
  (** Traffic does not change the peers, and is attributed to them only. *)
  send_keys b e r e' j : tunnel_ok e -> send b e = Done (r, e') -> peer_key e' j = peer_key e j;
  recv_keys ps e r e' j : tunnel_ok e -> recv ps e = Done (r, e') -> peer_key e' j = peer_key e j;
  dispatch_keys now e r e' j : tunnel_ok e -> dispatch_events now e = Done (r, e') -> peer_key e' j = peer_key e j;
  recv_known ps e r e' j : tunnel_ok e -> recv ps e = Done (r, e') -> queued (rr_to_local r) j <> [] -> is_Some (peer_key e j);
}.

Lemma next_range_total {A} (q : @Scheduler.t A) :
  Scheduler.inv q -> exists o, Scheduler.next_dispatch_range q = Done o /\ forall r, o = Some r -> TimeRange.ok r.
Proof.
  intros Hq. destruct (Scheduler.next_dispatch_range_spec q Hq) as [H0 H1].
  destruct (decide (length (Scheduler.events q) = 0%nat)) as [He|He].
  { exists None. split; [by apply H0, nil_length_inv|done]. }
  destruct H1 as (r & E & _ & (e & He' & Hend) & _); [by intros Hn; rewrite Hn in He|]. exists (Some r). split; [done|]. intros r' [= <-].
  unfold Scheduler.next_dispatch_range in E. destruct (rev (Scheduler.events q)); [done|]. unfold TimeRange.new in E.
  case_match eqn:Hle; [|done]. injection E as <-. b2p. done.
Qed.

(** ** WireGuard *)

Section Wireguard.
Context `{C : Crypto} `{W : World}.

(** Every call reads clocks and randomness of its own. *)
#[global] Instance wireguard_tunnel : Tunnel WgEndpoint.Endpoint := {|
  upsert_peer id cfg e := WgEndpoint.upsert_peer id cfg (WgEndpoint.fresh_env e);
  remove_peer id e := WgEndpoint.remove_peer id (WgEndpoint.fresh_env e);
  send b e := WgEndpoint.send b (WgEndpoint.fresh_env e);
  recv ps e := WgEndpoint.recv ps (WgEndpoint.fresh_env e);
  dispatch_events now e := WgEndpoint.dispatch_events now (WgEndpoint.fresh_env e);
  next_event := WgEndpoint.next_event;
  peer_key := WgEndpoint.peer_key;
  peer_id := WgEndpoint.peer_id;
|}.

Lemma wireguard_step `{L : !CryptoLaws} {N : nat} `{WL : !WgInv.WorldLaws N} {A} (m : ST WgEndpoint.Endpoint A) o e :
  WgSafety.step W o e = ('(_, e) ← m (WgEndpoint.fresh_env e); Done e) ->
  WgSafety.reachable N e -> WgSafety.op_pre N o e -> exists r e', m (WgEndpoint.fresh_env e) = Done (r, e') /\ WgSafety.reachable N e'.
Proof.
  intros Hm He Hpre. destruct (WgSafety.endpoint_step_inv W WL o e (WgSafety.reachable_inv e He) Hpre) as (e' & E & _).
  pose proof (WgSafety.reachable_step N W o e e' He WL Hpre E) as Hr. rewrite Hm in E.
  destruct (m (WgEndpoint.fresh_env e)) as [[r e2]|]; [|done]. injection E as ->. eauto.
Qed.

Lemma wireguard_upsert_keys id cfg e o e' j :
  WgEndpoint.upsert_peer id cfg (WgEndpoint.fresh_env e) = Done (o, e') ->
  WgEndpoint.peer_key e' j = if decide (j = id) then Some (WgPeer.key cfg) else WgEndpoint.peer_key e j.
Proof.
  unfold WgEndpoint.upsert_peer, WgEndpoint.peer_key. cbn [WgEndpoint.peers WgEndpoint.fresh_env WgEndpoint.state].
  assert (Hput : forall p, WgPeer.config p = cfg ->
    (peer ← <[id := p]> (WgEndpoint.peers e) !! j; Some (WgPeer.key (WgPeer.config peer))) =
    if decide (j = id) then Some (WgPeer.key cfg) else peer ← WgEndpoint.peers e !! j; Some (WgPeer.key (WgPeer.config peer))).
  { intros p <-. destruct (decide (j = id)) as [->|Hne]; [by rewrite lookup_insert_eq|by rewrite lookup_insert_ne]. }
  destruct (WgEndpoint.peers e !! id) as [p|].
  - match goal with |- (?m ≫= _) = _ -> _ => destruct m as [i|]; [|discriminate] end. cbn [mbind outcome_bind]. intros [= _ <-]. cbn [WgEndpoint.peers]. by apply Hput.
  - destruct (WgState.add_peer _ _ _) as [[] i]; [|done]. intros [= _ <-]. cbn [WgEndpoint.peers]. by apply Hput.
Qed.

Lemma wireguard_remove_keys id e b e' j :
  WgEndpoint.remove_peer id (WgEndpoint.fresh_env e) = Done (b, e') ->
  WgEndpoint.peer_key e' j = if decide (j = id) then None else WgEndpoint.peer_key e j.
Proof.
  unfold WgEndpoint.remove_peer, WgEndpoint.peer_key. cbn [WgEndpoint.peers WgEndpoint.fresh_env WgEndpoint.state].
  destruct (WgEndpoint.peers e !! id) as [p|] eqn:Ep.
  - destruct (WgPeer.shutdown p _) as [[p' s]|]; [|done]. cbn [mbind outcome_bind].
    destruct (WgState.idmap_remove_peer _ _) as [i|]; [|done]. cbn [mbind outcome_bind]. intros [= _ <-]. cbn [WgEndpoint.peers].
    destruct (decide (j = id)) as [->|Hne]; [by rewrite lookup_delete_eq|by rewrite lookup_delete_ne].
  - intros [= _ <-]. cbn [WgEndpoint.peers WgEndpoint.fresh_env]. destruct (decide (j = id)) as [->|Hne]; [by rewrite Ep|done].
Qed.

Lemma wireguard_recv_known `{L : !CryptoLaws} {N : nat} `{WL : !WgInv.WorldLaws N} ps e r e' :
  WgSafety.reachable N e -> WgEndpoint.recv ps (WgEndpoint.fresh_env e) = Done (r, e') ->
  WgKeys.keys_kept (WgEndpoint.fresh_env e) e' /\ forall j, queued (rr_to_local r) j <> [] -> is_Some (WgEndpoint.peer_key e' j).
Proof.
  intros He E. apply (WgKeys.recv_known_peers ps r _ e' E). intros j p Hp.
  apply (WgSafety.ok_peer _ _ _ _ _ _ (WgSafety.reachable_inv e He) j p). exact Hp.
Qed.

#[global] Program Instance wireguard_laws `{L : !CryptoLaws} {N : nat} `{WL : !WgInv.WorldLaws N} : TunnelLaws WgEndpoint.Endpoint := {|
  tunnel_ok := WgSafety.reachable N;
  can_send b := WgSafety.op_pre N (WgSafety.OpSend b);
  can_recv ps := WgSafety.op_pre N (WgSafety.OpRecv ps);
  can_dispatch now := WgSafety.op_pre N (WgSafety.OpDispatch now);
|}.
Next Obligation. intros. by eapply (wireguard_step _ (WgSafety.OpSend b)). Qed.
Next Obligation. intros. by eapply (wireguard_step _ (WgSafety.OpRecv ps)). Qed.
Next Obligation. intros. by eapply (wireguard_step _ (WgSafety.OpDispatch now)). Qed.
Next Obligation.
  intros L N WL e He. apply WgSafety.reachable_inv in He. apply next_range_total, He.
Qed.
Next Obligation.
  intros L N WL id cfg e He _ Hfree. pose proof (WgSafety.reachable_inv e He) as Hi.
  destruct (wireguard_step (WgEndpoint.upsert_peer id cfg) (WgSafety.OpUpsert id cfg) e eq_refl He) as (o & e' & E & He').
  { intros q Hq. destruct (decide (q = id)) as [|Hne]; [done|]. apply (WgSafety.ok_node _ _ _ _ _ _ Hi) in Hq as (p & Hp & Hk).
    destruct (Hfree q Hne). cbn. unfold WgEndpoint.peer_key. by rewrite Hp, <- Hk. }
  exists o, e'. split_and!; [exact E|done|]. intros j. exact (wireguard_upsert_keys id cfg e o e' j E).
Qed.
Next Obligation.
  intros L N WL id cfg e j He Hne Hj Hid. pose proof (WgSafety.reachable_inv e He) as Hi. cbn in *. unfold WgEndpoint.peer_key in *.
  destruct (WgEndpoint.peers e !! j) as [p|] eqn:Ep; [|done]. injection Hj as Hk. destruct (WgEndpoint.peers e !! id) eqn:Eid; [done|].
  unfold WgEndpoint.upsert_peer. cbn [WgEndpoint.peers WgEndpoint.fresh_env WgEndpoint.state]. rewrite Eid. unfold WgState.add_peer.
  cbn [WgState.ids WgState.with_env]. rewrite <- Hk, (WgSafety.ok_key _ _ _ _ _ _ Hi j p Ep). done.
Qed.
Next Obligation.
  intros L N WL id e He. destruct (wireguard_step (WgEndpoint.remove_peer id) (WgSafety.OpRemove id) e eq_refl He I) as (b & e' & E & He').
  exists b, e'. split_and!; [exact E|done|]. intros j. exact (wireguard_remove_keys id e b e' j E).
Qed.
Next Obligation. intros L N WL b e r e' j He E. exact (WgKeys.send_loop_keys b _ r _ e' E j). Qed.
Next Obligation. intros L N WL ps e r e' j He E. exact (proj1 (wireguard_recv_known ps e r e' He E) j). Qed.
Next Obligation.
  intros L N WL now e r e' j He E. cbn in E.
  exact (WgKeys.events_loop_keys _ _ _ _ _ E j).
Qed.
Next Obligation.
  intros L N WL ps e r e' j He E Hj. destruct (wireguard_recv_known ps e r e' He E) as [Hk Hq]. specialize (Hq j Hj). rewrite (Hk j) in Hq. exact Hq.
Qed.

End Wireguard.

(** ** ShadowVPN *)

Section Shadowvpn.
Context `{P : ShadowCrypto.Primitives} `{R : ShadowCrypto.Rng} `{HO : !HashOrder Z}.

#[global] Instance shadowvpn_tunnel : Tunnel ShadowEndpoint.Endpoint := {|
  upsert_peer := ShadowEndpoint.upsert_peer;
  remove_peer := ShadowEndpoint.remove_peer;
  send := ShadowEndpoint.send;
  recv := ShadowEndpoint.recv;
  dispatch_events := ShadowEndpoint.dispatch_events;
  next_event e := mret (ShadowEndpoint.next_event e);
  peer_key := ShadowEndpoint.peer_key;
  peer_id := ShadowEndpoint.peer_id;
|}.

#[global] Program Instance shadowvpn_laws `{L : !ShadowCrypto.PrimitivesLaws} : TunnelLaws ShadowEndpoint.Endpoint := {|
  tunnel_ok := ShadowEndpoint.inv;
  can_send _ _ := True;
  can_recv _ _ := True;
  can_dispatch _ _ := True;
|}.
Next Obligation.
  intros L b e He _. destruct (ShadowEndpoint.send_loop_total b send_default e) as (r & e' & E & Hs).
  exists r, e'. split; [exact E|by eapply ShadowEndpoint.sent_inv].
Qed.
Next Obligation. intros L ps e He _. destruct (ShadowEndpoint.shadow_recv_ok e ps) as (r & E & _). by exists r, e. Qed.
Next Obligation. intros L now e He _. by exists event_default, e. Qed.
Next Obligation. intros L e He. exists None. done. Qed.
Next Obligation.
  intros L id cfg e He Hpsk Hfree. destruct (ShadowEndpoint.upsert_spec e id cfg He Hpsk) as [[_ (q & Hne & Hq)]|(ks & E & He' & _)].
  - apply (ShadowEndpoint.inv_index e He) in Hq as (p & Hp & Hk). destruct (Hfree q Hne). cbn. unfold ShadowEndpoint.peer_key. by rewrite Hp, <- Hk.
  - eexists _, _. split_and!; [exact E|done|]. intros j. cbn. unfold ShadowEndpoint.peer_key. cbn [ShadowEndpoint.peers ShadowEndpoint.with_peers].
    unfold ShadowEndpoint.put_peer. destruct (decide (j = id)) as [->|Hne]; [by rewrite lookup_insert_eq|by rewrite lookup_insert_ne].
Qed.
Next Obligation.
  intros L id cfg e j He Hne Hj _. cbn in *. unfold ShadowEndpoint.peer_key in Hj. destruct (ShadowEndpoint.peers e !! j) as [p|] eqn:Ep; [|done].
  injection Hj as Hk. unfold ShadowEndpoint.upsert_peer. rewrite (proj2 (ShadowEndpoint.inv_index e He (WgPeer.key cfg) j)) by eauto.
  by rewrite bool_decide_eq_true_2.
Qed.
Next Obligation.
  intros L id e He. destruct (ShadowEndpoint.shadow_remove_spec e id He) as (e' & E & He' & Hp & _). eexists _, e'. split_and!; [exact E|done|].
  intros j. cbn. unfold ShadowEndpoint.peer_key. rewrite Hp. destruct (decide (j = id)) as [->|Hne]; [by rewrite lookup_delete_eq|by rewrite lookup_delete_ne].
Qed.
Next Obligation.
  intros L b e r e' j He E. destruct (ShadowEndpoint.send_loop_total b send_default e) as (r2 & e2 & E2 & Hs).
  assert (e' = e2) as -> by (cbn in E; unfold ShadowEndpoint.send in E; congruence). cbn. unfold ShadowEndpoint.peer_key.
  by rewrite (ShadowEndpoint.sf_peers _ _ Hs).
Qed.
Next Obligation.
  intros L ps e r e' j He E. destruct (ShadowEndpoint.shadow_recv_ok e ps) as (r2 & E2 & _). cbn in E. congruence.
Qed.
Next Obligation. intros L now e r e' j He E. by injection E as _ <-. Qed.
Next Obligation.
  intros L ps e r e' j He E Hj. destruct (ShadowEndpoint.shadow_recv_ok e ps) as (r2 & E2 & _ & Hr).
  assert (r = r2) as -> by (cbn in E; congruence). rewrite Hr in Hj.
  destruct (omap (ShadowEndpoint.delivered e j) ps) as [|m ms] eqn:Em; [done|].
  assert (Hm : m ∈ omap (ShadowEndpoint.delivered e j) ps) by (rewrite Em; apply list_elem_of_here).
  apply list_elem_of_omap in Hm as (w & _ & Hw). destruct (ShadowEndpoint.delivered_sealed e j w m He Hw) as (p & d & Hp & _).
  cbn. unfold ShadowEndpoint.peer_key. rewrite Hp. by eexists.
Qed.

End Shadowvpn.

(** ** The dispatcher *)

Inductive Protocol : Type := Wireguard | Shadowvpn.

#[global] Instance Protocol_eq_dec : EqDecision Protocol.
Proof. solve_decision. Defined.

Definition from_name (name : string) : option Protocol :=
  if decide (name = "wireguard" \/ name = "wg") then Some Wireguard
  else if decide (name = "shadowvpn" \/ name = "ss") then Some Shadowvpn
  else None.

Definition name (self : Protocol) : string :=
  match self with
  | Wireguard => "wireguard"
  | Shadowvpn => "shadowvpn"
  end.

Inductive Endpoint : Type :=
| EpWireguard (e : WgEndpoint.Endpoint)
| EpShadowvpn (e : ShadowEndpoint.Endpoint).

Definition protocol (self : Endpoint) : Protocol :=
  match self with
  | EpWireguard _ => Wireguard
  | EpShadowvpn _ => Shadowvpn
  end.

(** A method of a backend on the endpoint. *)
Definition on_wireguard {A} (m : ST WgEndpoint.Endpoint A) (e : WgEndpoint.Endpoint) : outcome (A * Endpoint) :=
  '(r, e) ← m e; Done (r, EpWireguard e).
Definition on_shadowvpn {A} (m : ST ShadowEndpoint.Endpoint A) (e : ShadowEndpoint.Endpoint) : outcome (A * Endpoint) :=
  '(r, e) ← m e; Done (r, EpShadowvpn e).

Section Endpoint.
Context `{C : Crypto} `{W : World} `{P : ShadowCrypto.Primitives} `{R : ShadowCrypto.Rng} `{HO : !HashOrder Z}.

Definition endpoint_new (protocol : Protocol) (my_key : X25519KeyPair) : ST nat Endpoint := fun i =>
  match protocol with
  | Wireguard => Done (EpWireguard (WgEndpoint.endpoint_new my_key), i)
  | Shadowvpn => '(e, i) ← ShadowEndpoint.endpoint_new my_key i; Done (EpShadowvpn e, i)
  end.

Definition dispatch {A} (m : ST WgEndpoint.Endpoint A) (m' : ST ShadowEndpoint.Endpoint A) : ST Endpoint A := fun self =>
  match self with
  | EpWireguard e => on_wireguard m e
  | EpShadowvpn e => on_shadowvpn m' e
  end.

#[global] Instance endpoint_tunnel : Tunnel Endpoint := {|
  upsert_peer id cfg := dispatch (upsert_peer id cfg) (upsert_peer id cfg);
  remove_peer id := dispatch (remove_peer id) (remove_peer id);
  send b := dispatch (send b) (send b);
  recv ps := dispatch (recv ps) (recv ps);
  dispatch_events now := dispatch (dispatch_events now) (dispatch_events now);
  next_event self := match self with EpWireguard e => next_event e | EpShadowvpn e => next_event e end;
  peer_key self id := match self with EpWireguard e => peer_key e id | EpShadowvpn e => peer_key e id end;
  peer_id self key := match self with EpWireguard e => peer_id e key | EpShadowvpn e => peer_id e key end;
|}.

(** A predicate on each backend. *)
Definition either (p : WgEndpoint.Endpoint -> Prop) (q : ShadowEndpoint.Endpoint -> Prop) (self : Endpoint) : Prop :=
  match self with EpWireguard e => p e | EpShadowvpn e => q e end.

Lemma dispatch_ok {A} (m : ST WgEndpoint.Endpoint A) (m' : ST ShadowEndpoint.Endpoint A) p q self :
  either (fun e => exists r e', m e = Done (r, e') /\ p e') (fun e => exists r e', m' e = Done (r, e') /\ q e') self ->
  exists r self', dispatch m m' self = Done (r, self') /\ either p q self'.
Proof.
  destruct self as [e|e]; intros (r & e' & E & H); cbn [dispatch]; unfold on_wireguard, on_shadowvpn; rewrite E; by do 2 eexists.
Qed.

Lemma dispatch_back {A} (m : ST WgEndpoint.Endpoint A) (m' : ST ShadowEndpoint.Endpoint A) self r self' :
  dispatch m m' self = Done (r, self') ->
  match self with
  | EpWireguard e => exists e', m e = Done (r, e') /\ self' = EpWireguard e'
  | EpShadowvpn e => exists e', m' e = Done (r, e') /\ self' = EpShadowvpn e'
  end.
Proof.
  destruct self as [e|e]; cbn [dispatch]; unfold on_wireguard, on_shadowvpn; [destruct (m e) as [[r1 e1]|]|destruct (m' e) as [[r1 e1]|]]; try done;
    intros [= <- <-]; eauto.
Qed.

#[global] Program Instance endpoint_laws `{CL : !CryptoLaws} {N : nat} `{WL : !WgInv.WorldLaws N} `{PL : !ShadowCrypto.PrimitivesLaws} :
  TunnelLaws Endpoint := {|
  tunnel_ok := either tunnel_ok tunnel_ok;
  can_send b := either (can_send b) (can_send b);
  can_recv ps := either (can_recv ps) (can_recv ps);
  can_dispatch now := either (can_dispatch now) (can_dispatch now);
|}.
Next Obligation. intros CL N WL PL b [e|e] He Hc; apply dispatch_ok; by apply send_total. Qed.
Next Obligation. intros CL N WL PL ps [e|e] He Hc; apply dispatch_ok; by apply recv_total. Qed.
Next Obligation. intros CL N WL PL now [e|e] He Hc; apply dispatch_ok; by apply dispatch_total. Qed.
Next Obligation. intros CL N WL PL [e|e] He; exact (next_event_total e He). Qed.
Next Obligation.
  intros CL N WL PL id cfg [e|e] He Hpsk Hfree; destruct (upsert_total id cfg e He Hpsk Hfree) as (o & e' & E & He' & Hk);
    cbn; unfold on_wireguard, on_shadowvpn; cbn in E; rewrite E; by eexists _, _.
Qed.
Next Obligation.
  intros CL N WL PL id cfg [e|e] j He Hne Hj Hid; pose proof (upsert_collides id cfg e j He Hne Hj Hid) as E;
    cbn; unfold on_wireguard, on_shadowvpn; cbn in E; by rewrite E.
Qed.
Next Obligation.
  intros CL N WL PL id [e|e] He; destruct (remove_total id e He) as (b & e' & E & He' & Hk);
    cbn; unfold on_wireguard, on_shadowvpn; cbn in E; rewrite E; by eexists _, _.
Qed.
Next Obligation. intros CL N WL PL b [e|e] r e' j He E; destruct (dispatch_back (send b) (send b) _ r e' E) as (e1 & E1 & ->); exact (send_keys b e r e1 j He E1). Qed.
Next Obligation. intros CL N WL PL ps [e|e] r e' j He E; destruct (dispatch_back (recv ps) (recv ps) _ r e' E) as (e1 & E1 & ->); exact (recv_keys ps e r e1 j He E1). Qed.
Next Obligation. intros CL N WL PL now [e|e] r e' j He E; destruct (dispatch_back (dispatch_events now) (dispatch_events now) _ r e' E) as (e1 & E1 & ->); exact (dispatch_keys now e r e1 j He E1). Qed.
Next Obligation. intros CL N WL PL ps [e|e] r e' j He E Hj; destruct (dispatch_back (recv ps) (recv ps) _ r e' E) as (e1 & E1 & ->); exact (recv_known ps e r e1 j He E1 Hj). Qed.

Lemma send_shadowvpn b e r self :
  send b (EpShadowvpn e) = Done (r, self) -> exists e', ShadowEndpoint.send b e = Done (r, e') /\ self = EpShadowvpn e'.
Proof.
  change (send b (EpShadowvpn e)) with (on_shadowvpn (ShadowEndpoint.send b) e). unfold on_shadowvpn.
  destruct (ShadowEndpoint.send b e) as [[r' e']|]; [|done]. intros H. injection H as <- <-. eauto.
Qed.

Lemma recv_shadowvpn ps e r self :
  recv ps (EpShadowvpn e) = Done (r, self) -> exists e', ShadowEndpoint.recv ps e = Done (r, e') /\ self = EpShadowvpn e'.
Proof.
  change (recv ps (EpShadowvpn e)) with (on_shadowvpn (ShadowEndpoint.recv ps) e). unfold on_shadowvpn.
  destruct (ShadowEndpoint.recv ps e) as [[r' e']|]; [|done]. intros H. injection H as <- <-. eauto.
Qed.

Lemma name_roundtrip p : from_name (name p) = Some p.
Proof. by destruct p. Qed.

End Endpoint.
End Tunnel.
