(* ===== verification/Routers.v ===== *)
(** * The routers of the data plane

    The overlay routers (ts_overlay_router/src/inbound.rs, outbound.rs) choose by the longest
    match of the destination address, the underlay router (ts_underlay_router/src/outbound.rs)
    by the peer. *)

From S2P Require Import Prelude Packet IpNet BartNode IpTrie RoutingTable SplitStackTable BartTable.
Import IpNet BartNode RoutingTable BartTable.

Module Routers.

(** ** Addresses of packets *)

(** The address of a packet's header by its octets. *)
Definition addr_octets (n : nat) (a : Z) : list nat := map (fun b => Z.to_nat (byte_to_Z b)) (be_bytes n a).

Definition to_ip (a : PacketMut.IpAddr) : IpAddr :=
  match a with
  | PacketMut.V4 a => V4 (addr_octets 4 a)
  | PacketMut.V6 a => V6 (addr_octets 16 a)
  end.

Definition src_addr (p : bytes) : option IpAddr := to_ip <$> PacketMut.get_src_addr p.
Definition dst_addr (p : bytes) : option IpAddr := to_ip <$> PacketMut.get_dst_addr p.

Lemma to_ip_ok a : addr_ok (to_ip a).
Proof.
  assert (H : forall n z, Forall (fun o => (o < 256)%nat) (addr_octets n z)).
  { intros n z. apply Forall_map, Forall_forall. intros b _. simpl. pose proof (byte_to_Z_range b). lia. }
  apply addr_ok_spec. destruct a; cbn [to_ip ip_octets is_ipv4 n_octets]; (split; [|apply H]); unfold addr_octets;
    rewrite length_map; apply be_bytes_length.
Qed.

Lemma dst_addr_ok p a : dst_addr p = Some a -> addr_ok a.
Proof. unfold dst_addr. destruct (PacketMut.get_dst_addr p); [|done]. intros [= <-]. apply to_ip_ok. Qed.

Lemma src_addr_ok p a : src_addr p = Some a -> addr_ok a.
Proof. unfold src_addr. destruct (PacketMut.get_src_addr p); [|done]. intros [= <-]. apply to_ip_ok. Qed.

#[global] Instance IpAddr_countable : Countable IpAddr.
Proof.
  refine (inj_countable' (fun ip => (is_ipv4 ip, ip_octets ip)) (fun '(f, o) => if f : bool then V4 o else V6 o) _).
  by intros [].
Defined.

(** ** Batches *)

(** [map.entry(k).or_default().extend(v)] *)
Definition extend {K} `{Countable K} {V} (m : gmap K (list V)) (k : K) (v : list V) : gmap K (list V) :=
  <[k := default [] (m !! k) ++ v]> m.

(** [Itertools::into_group_map] *)
Definition into_group_map {K} `{Countable K} {V} (l : list (K * V)) : gmap K (list V) :=
  foldl (fun m '(k, v) => extend m k [v]) ∅ l.

(** What is queued under a key. *)
Definition under {K} `{Countable K} {V} (m : gmap K (list V)) (k : K) : list V := default [] (m !! k).

(** The entries of a map in the order of iteration. *)
Definition hash_entries {K} `{Countable K} `{HO : !HashOrder K} {V} (m : gmap K V) : list (K * V) :=
  omap (fun k => v ← m !! k; Some (k, v)) (hash_keys m).

Section Routers.
Context `{HI : Ipnet} `{HOa : !HashOrder IpAddr}.

Abbreviation Table V := (SplitStackTable.SplitStackTable (Node V)).

(** ** Inbound *)

Inductive InAction : Type := InDrop | ToOverlay (id : Z).

(** [inbound::Router] is its table. *)
Definition route_one (table : Table InAction) (packet : bytes) : outcome (option (Z * bytes)) :=
  match dst_addr packet with
  | None => mret None
  | Some addr =>
      o ← rt_lookup table addr;
      mret (match o with
            | Some (ToOverlay key) => Some (key, packet)
            | Some InDrop => None
            | None => None
            end)
  end.

Fixpoint filter_map {A B} (f : A -> outcome (option B)) (l : list A) : outcome (list B) :=
  match l with
  | [] => mret []
  | x :: l =>
      o ← f x;
      rest ← filter_map f l;
      mret (match o with Some y => y :: rest | None => rest end)
  end.

Definition route_in (table : Table InAction) (packets : list bytes) : outcome (gmap Z (list bytes)) :=
  routed ← filter_map (route_one table) packets;
  mret (into_group_map routed).

(** [inbound::Router::swap]: the new router and the previous routes. *)
Definition swap {V} (table routes : Table V) : Table V * Table V := (routes, table).

(** ** Outbound *)

Inductive OutAction : Type := OutDrop | Wireguard (peer : Z) | Loopback (id : Z).

Record OutResult : Type := mkOut {
  to_wireguard : gmap Z (list bytes);
  loopback : gmap Z (list bytes);
}.

Fixpoint route_groups (table : Table OutAction) (by_dest : list (IpAddr * list bytes)) (ret : OutResult) : outcome OutResult :=
  match by_dest with
  | [] => mret ret
  | (addr, packets) :: by_dest =>
      o ← rt_lookup table addr;
      route_groups table by_dest
        (match o with
         | Some (Wireguard peer) => mkOut (extend (to_wireguard ret) peer packets) (loopback ret)
         | Some (Loopback id) => mkOut (to_wireguard ret) (extend (loopback ret) id packets)
         | Some OutDrop => ret
         | None => ret
         end)
  end.

Definition with_dst (packet : bytes) : option (IpAddr * bytes) := addr ← dst_addr packet; Some (addr, packet).

Definition route_out (table : Table OutAction) (packets : list bytes) : outcome OutResult :=
  route_groups table (hash_entries (into_group_map (omap with_dst packets))) (mkOut ∅ ∅).

(** ** Underlay *)

Fixpoint route_underlay_loop (table : gmap Z Z) (batches : list (Z * list bytes)) (ret : gmap (Z * Z) (list bytes)) : gmap (Z * Z) (list bytes) :=
  match batches with
  | [] => ret
  | (peer_id, packets) :: batches =>
      route_underlay_loop table batches
        (match table !! peer_id with
         | Some transport => extend ret (transport, peer_id) packets
         | None => ret
         end)
  end.

Definition route_underlay (table : gmap Z Z) (batches : list (Z * list bytes)) : gmap (Z * Z) (list bytes) :=
  route_underlay_loop table batches ∅.

End Routers.

(** ** Batches: lemmas *)

Section Batches.
Context {K : Type} `{Countable K} {V : Type}.

Lemma under_extend (m : gmap K (list V)) k v j : under (extend m k v) j = if decide (j = k) then under m k ++ v else under m j.
Proof. unfold under, extend. rewrite lookup_insert. repeat case_decide; subst; done. Qed.

Definition having (k : K) (l : list (K * V)) : list V := omap (fun '(j, v) => if decide (j = k) then Some v else None) l.

Lemma having_app k l1 l2 : having k (l1 ++ l2) = having k l1 ++ having k l2.
Proof. apply omap_app_eq. Qed.

Lemma having_one k j v : having k [(j, v)] = if decide (j = k) then [v] else [].
Proof. unfold having. cbn [omap list_omap]. by case_decide. Qed.

Lemma group_map_app (l1 l2 : list (K * V)) : into_group_map (l1 ++ l2) = foldl (fun m '(k, v) => extend m k [v]) (into_group_map l1) l2.
Proof. apply foldl_app. Qed.

Lemma under_group (l : list (K * V)) k : under (into_group_map l) k = having k l.
Proof.
  induction l as [|[j v] l IH] using rev_ind; [done|]. rewrite group_map_app, having_app. cbn [foldl].
  rewrite under_extend, having_one. repeat case_decide; subst; rewrite ?app_nil_r, ?IH; done.
Qed.

(** The keys of the groups. *)
Lemma group_keys (l : list (K * V)) k : is_Some (into_group_map l !! k) <-> k ∈ map fst l.
Proof.
  induction l as [|[j v] l IH] using rev_ind.
  { change (into_group_map []) with (∅ : gmap K (list V)). rewrite lookup_empty. split; [by intros []|intros Hk; by apply not_elem_of_nil in Hk]. }
  rewrite group_map_app. cbn [foldl]. unfold extend. rewrite lookup_insert, map_app, elem_of_app. cbn [map fst]. rewrite list_elem_of_singleton.
  case_decide; [subst; split; [by right|done]|]. rewrite IH. naive_solver.
Qed.

Lemma group_lookup (l : list (K * V)) k vs : into_group_map l !! k = Some vs -> vs = having k l.
Proof. intros E. rewrite <- under_group. unfold under. by rewrite E. Qed.

End Batches.

Section Entries.
Context {K : Type} `{Countable K} `{HO : !HashOrder K} {V : Type}.

Lemma hash_entries_perm (m : gmap K V) : hash_entries m ≡ₚ map_to_list m.
Proof.
  unfold hash_entries. rewrite (hash_keys_perm m). rewrite omap_map.
  assert (E : omap (fun x : K * V => v ← m !! fst x; Some (fst x, v)) (map_to_list m) = map_to_list m); [|by rewrite E].
  assert (Hin : forall x, x ∈ map_to_list m -> (v ← m !! fst x; Some (fst x, v)) = Some x).
  { intros [k v] Hx%elem_of_map_to_list. simpl. by rewrite Hx. }
  induction (map_to_list m) as [|x l IH]; [done|]. rewrite omap_cons_eq, Hin by apply list_elem_of_here. f_equal.
  apply IH. intros y Hy. apply Hin. by apply list_elem_of_further.
Qed.

Lemma elem_of_hash_entries (m : gmap K V) k v : (k, v) ∈ hash_entries m <-> m !! k = Some v.
Proof. by rewrite hash_entries_perm, elem_of_map_to_list. Qed.

Lemma hash_entries_nodup (m : gmap K V) : NoDup (map fst (hash_entries m)).
Proof. rewrite hash_entries_perm. apply NoDup_fst_map_to_list. Qed.

Lemma having_entries `{EqDecision V} (m : gmap K V) k : having k (hash_entries m) = option_list (m !! k).
Proof.
  unfold having. destruct (m !! k) as [v|] eqn:Em; cbn [option_list].
  - apply (omap_one _ _ (k, v)); [|by apply elem_of_hash_entries|].
    + apply (NoDup_fmap_1 fst), hash_entries_nodup.
    + intros [j w] Hj%elem_of_hash_entries. destruct (decide (j = k)) as [->|Hne].
      * assert (w = v) as -> by congruence. by rewrite decide_True.
      * rewrite decide_False by congruence. done.
  - apply omap_none. intros [j w] Hj%elem_of_hash_entries. rewrite decide_False by congruence. done.
Qed.

End Entries.

(** ** What is routed where *)

(** Splitting a list by the value of a function. *)
Section Split.
Context {A K : Type} `{EqDecision K} (f : A -> option K).

Lemma filter_or_perm (P Q : A -> Prop) `{!forall x, Decision (P x)} `{!forall x, Decision (Q x)} (l : list A) :
  (forall x, P x -> ~ Q x) -> filter (fun x => P x \/ Q x) l ≡ₚ filter P l ++ filter Q l.
Proof.
  intros Hd. induction l as [|x l IH]; [done|]. rewrite !filter_cons.
  destruct (decide (P x)) as [Hp|Hp].
  - rewrite decide_True by tauto. rewrite decide_False by auto. simpl. by rewrite IH.
  - destruct (decide (Q x)) as [Hq|Hq].
    + rewrite decide_True by tauto. rewrite IH. apply Permutation_middle.
    + rewrite decide_False by tauto. done.
Qed.

(** The groups of the keys that satisfy [Q]. *)
Definition picked (Q : K -> bool) (l : list A) (ks : list K) : list A :=
  concat (map (fun k => if Q k then filter (fun x => f x = Some k) l else []) ks).

Definition covered (Q : K -> bool) (ks : list K) (x : A) : bool :=
  match f x with Some k => bool_decide (k ∈ ks) && Q k | None => false end.

Lemma covered_cons Q k ks x : covered Q (k :: ks) x = true <-> (f x = Some k /\ Q k = true) \/ covered Q ks x = true.
Proof.
  unfold covered. destruct (f x) as [j|]; [|naive_solver]. rewrite !andb_true_iff, !bool_decide_eq_true, elem_of_cons. naive_solver.
Qed.

Lemma picked_cons Q l k ks : picked Q l (k :: ks) = filter (fun x => f x = Some k /\ Q k = true) l ++ picked Q l ks.
Proof.
  unfold picked. cbn [map concat]. f_equal. destruct (Q k).
  - apply list_filter_iff. naive_solver.
  - symmetry. apply filter_none. intros x _ [_ ?]. done.
Qed.

Lemma picked_perm Q (l : list A) ks : NoDup ks -> picked Q l ks ≡ₚ filter (fun x => covered Q ks x = true) l.
Proof.
  induction 1 as [|k ks Hk _ IH].
  { unfold picked. cbn. symmetry. rewrite filter_none; [done|]. intros x _. unfold covered. by destruct (f x). }
  rewrite picked_cons, IH, <- filter_or_perm.
  - erewrite list_filter_iff; [done|]. intros x. by rewrite covered_cons.
  - intros x [Hx _]. unfold covered. rewrite Hx, andb_true_iff, bool_decide_eq_true. naive_solver.
Qed.

(** Within a group the order is kept. *)
Lemma picked_order Q (l : list A) ks a :
  NoDup ks -> filter (fun x => f x = Some a) (picked Q l ks) = filter (fun x => f x = Some a /\ covered Q ks x = true) l.
Proof.
  induction 1 as [|k ks Hk _ IH].
  { unfold picked. cbn. symmetry. apply filter_none. intros x _ [_ H]. unfold covered in H. by destruct (f x). }
  rewrite picked_cons, filter_app, IH, list_filter_filter. destruct (decide (a = k)) as [->|Hne].
  - rewrite (filter_none (fun x => f x = Some k /\ covered Q ks x = true)), app_nil_r.
    + apply list_filter_iff. intros x. rewrite covered_cons. split; [naive_solver|]. intros [Hx [?|Hc]]; [done|].
      unfold covered in Hc. by rewrite Hx, bool_decide_eq_false_2 in Hc.
    + intros x _ [Hx Hc]. unfold covered in Hc. by rewrite Hx, bool_decide_eq_false_2 in Hc.
  - rewrite (filter_none (fun x => f x = Some a /\ f x = Some k /\ Q k = true)); [|intros x _ (H1 & H2 & _); congruence].
    apply list_filter_iff. intros x. rewrite covered_cons. naive_solver.
Qed.

End Split.

#[global] Instance InAction_eq_dec : EqDecision InAction.
Proof. solve_decision. Defined.
#[global] Instance OutAction_eq_dec : EqDecision OutAction.
Proof. solve_decision. Defined.

Section Specs.
Context `{HI : Ipnet} `{HL : !IpnetLaws} `{HOa : !HashOrder IpAddr}.

Abbreviation Table V := (SplitStackTable.SplitStackTable (Node V)).

(** The action of the longest match for an address. *)
Definition best {V} (M : Routes V) (a : IpAddr) : option V := head (rmatches M a).

(** The action for a packet's destination. *)
Definition hop {V} (M : Routes V) (p : bytes) : option V := a ← dst_addr p; best M a.

Lemma table_lookup {V} (t : Table V) M a : rt_repr t M -> addr_ok a -> rt_lookup t a = Done (best M a).
Proof. intros. by apply rt_lookup_spec. Qed.

Lemma route_one_ok t M p :
  rt_repr t M -> route_one t p = Done (match hop M p with Some (ToOverlay id) => Some (id, p) | _ => None end).
Proof.
  intros Ht. unfold route_one, hop. destruct (dst_addr p) as [a|] eqn:E; [|done]. cbn [mbind option_bind].
  rewrite (table_lookup t M) by (done || by eapply dst_addr_ok). cbn. by destruct (best M a) as [[]|].
Qed.

Lemma filter_map_ok {A B} (f : A -> outcome (option B)) (g : A -> option B) l :
  (forall x, f x = Done (g x)) -> filter_map f l = Done (omap g l).
Proof.
  intros Hf. induction l as [|x l IH]; [done|]. cbn [filter_map]. rewrite Hf. cbn [mbind outcome_bind]. rewrite IH.
  cbn [mbind outcome_bind]. rewrite omap_cons_eq. by destruct (g x).
Qed.

Lemma route_in_ok t M ps :
  rt_repr t M ->
  exists r, route_in t ps = Done r /\ forall id, under r id = filter (fun p => hop M p = Some (ToOverlay id)) ps.
Proof.
  intros Ht. unfold route_in. rewrite (filter_map_ok _ _ _ (fun p => route_one_ok t M p Ht)). eexists. split; [done|].
  intros id. rewrite under_group. induction ps as [|p ps IH]; [done|]. rewrite omap_cons_eq, filter_cons, <- IH. clear IH.
  destruct (hop M p) as [[|j]|]; try (by rewrite decide_False by done).
  unfold having. rewrite omap_cons_eq. repeat case_decide; subst; congruence.
Qed.

(** The packets with a destination, by destination. *)
Lemma having_dst a ps : having a (omap with_dst ps) = filter (fun p => dst_addr p = Some a) ps.
Proof.
  induction ps as [|p ps IH]; [done|]. rewrite omap_cons_eq, filter_cons, <- IH. unfold with_dst at 1.
  destruct (dst_addr p) as [b|]; cbn [mbind option_bind]; [|by rewrite decide_False].
  unfold having. rewrite omap_cons_eq. repeat case_decide; subst; congruence.
Qed.

(** The groups with action [act]. *)
Definition groups_for {V} `{EqDecision V} (M : Routes V) (act : V) (groups : list (IpAddr * list bytes)) : list bytes :=
  concat (map (fun '(a, g) => if bool_decide (best M a = Some act) then g else []) groups).

Lemma groups_for_cons {V} `{EqDecision V} (M : Routes V) act a g groups :
  groups_for M act ((a, g) :: groups) = (if bool_decide (best M a = Some act) then g else []) ++ groups_for M act groups.
Proof. done. Qed.

Lemma route_groups_ok t M groups ret :
  rt_repr t M -> Forall (fun g => addr_ok (fst g)) groups ->
  exists r, route_groups t groups ret = Done r /\
    (forall peer, under (to_wireguard r) peer = under (to_wireguard ret) peer ++ groups_for M (Wireguard peer) groups) /\
    (forall id, under (loopback r) id = under (loopback ret) id ++ groups_for M (Loopback id) groups).
Proof.
  intros Ht. revert ret. induction groups as [|[a g] groups IH]; intros ret Hok.
  { exists ret. split; [done|]. split; intros; by rewrite app_nil_r. }
  apply Forall_cons_1 in Hok as [Ha Hok]. cbn [route_groups]. rewrite (table_lookup t M) by done. cbn [mbind outcome_bind].
  edestruct IH as (r & E & Hw & Hl); [done|]. exists r. split; [exact E|]. clear IH E.
  split; intros k; rewrite groups_for_cons; [rewrite Hw|rewrite Hl]; clear Hw Hl; destruct (best M a) as [[|j|j]|];
    cbn [to_wireguard loopback]; try (by rewrite bool_decide_eq_false_2 by done);
    rewrite under_extend; destruct (decide (k = j)) as [->|Hne];
    [rewrite bool_decide_eq_true_2 by done; by rewrite <- app_assoc|rewrite bool_decide_eq_false_2 by congruence; done|
     rewrite bool_decide_eq_true_2 by done; by rewrite <- app_assoc|rewrite bool_decide_eq_false_2 by congruence; done].
Qed.

(** The batches in the order of their keys. *)
Lemma groups_for_picked {V} `{EqDecision V} (M : Routes V) act ps :
  groups_for M act (hash_entries (into_group_map (omap with_dst ps))) =
    picked dst_addr (fun a => bool_decide (best M a = Some act)) ps (map fst (hash_entries (into_group_map (omap with_dst ps)))).
Proof.
  unfold groups_for, picked. rewrite map_map. f_equal. apply map_ext_in. intros [a g] Hg%list_elem_of_In. simpl.
  apply elem_of_hash_entries, group_lookup in Hg as ->. by rewrite having_dst.
Qed.

Lemma covered_hop {V} `{EqDecision V} (M : Routes V) act ps p :
  p ∈ ps ->
  covered dst_addr (fun a => bool_decide (best M a = Some act)) (map fst (hash_entries (into_group_map (omap with_dst ps)))) p = true <->
  hop M p = Some act.
Proof.
  intros Hp. unfold covered, hop. destruct (dst_addr p) as [a|] eqn:E; [|done]. cbn [mbind option_bind].
  rewrite andb_true_iff, !bool_decide_eq_true. split; [naive_solver|]. intros Hb. split; [|done].
  assert (Hs : is_Some (into_group_map (omap with_dst ps) !! a)).
  { apply group_keys, list_elem_of_fmap. exists (a, p). split; [done|]. apply list_elem_of_omap. exists p. split; [done|].
    unfold with_dst. by rewrite E. }
  destruct Hs as [g Hg]. apply list_elem_of_fmap. exists (a, g). split; [done|]. by apply elem_of_hash_entries.
Qed.

Lemma groups_for_spec {V} `{EqDecision V} (M : Routes V) act ps :
  let sent := groups_for M act (hash_entries (into_group_map (omap with_dst ps))) in
  sent ≡ₚ filter (fun p => hop M p = Some act) ps /\
  forall a, filter (fun p => dst_addr p = Some a) sent = filter (fun p => dst_addr p = Some a /\ hop M p = Some act) ps.
Proof.
  cbv zeta. rewrite groups_for_picked. split.
  - rewrite picked_perm by apply hash_entries_nodup. erewrite filter_ext_in; [done|]. intros p Hp. by rewrite covered_hop.
  - intros a. rewrite picked_order by apply hash_entries_nodup. apply filter_ext_in. intros p Hp. by rewrite covered_hop.
Qed.

Lemma groups_addr_ok ps : Forall (fun g => addr_ok (fst g)) (hash_entries (into_group_map (omap with_dst ps))).
Proof.
  apply Forall_forall. intros [a g] Hg%elem_of_hash_entries. cbn [fst].
  assert (Hk : a ∈ map fst (omap with_dst ps)) by (apply group_keys; by rewrite Hg).
  apply list_elem_of_fmap in Hk as ([b p] & -> & Hb). apply list_elem_of_omap in Hb as (p' & _ & E).
  unfold with_dst in E. destruct (dst_addr p') as [c|] eqn:Ec; [|done]. injection E as -> ->. by eapply dst_addr_ok.
Qed.

(** Every packet goes where the longest match of its destination says, and packets for one
    address keep their order. *)
Lemma route_out_ok t M ps :
  rt_repr t M ->
  exists r, route_out t ps = Done r /\
    (forall peer, under (to_wireguard r) peer ≡ₚ filter (fun p => hop M p = Some (Wireguard peer)) ps /\
       forall a, filter (fun p => dst_addr p = Some a) (under (to_wireguard r) peer) =
         filter (fun p => dst_addr p = Some a /\ hop M p = Some (Wireguard peer)) ps) /\
    (forall id, under (loopback r) id ≡ₚ filter (fun p => hop M p = Some (Loopback id)) ps /\
       forall a, filter (fun p => dst_addr p = Some a) (under (loopback r) id) =
         filter (fun p => dst_addr p = Some a /\ hop M p = Some (Loopback id)) ps).
Proof.
  intros Ht. destruct (route_groups_ok t M _ (mkOut ∅ ∅) Ht (groups_addr_ok ps)) as (r & E & Hw & Hl). exists r. split; [exact E|].
  split; intros k; [rewrite Hw|rewrite Hl]; apply groups_for_spec.
Qed.

(** ** Underlay *)

(** All batches of a peer. *)
Definition batches_of (peer : Z) (l : list (Z * list bytes)) : list bytes := concat (having peer l).

Lemma route_underlay_ok table batches transport peer :
  under (route_underlay table batches) (transport, peer) =
    if decide (table !! peer = Some transport) then batches_of peer batches else [].
Proof.
  unfold route_underlay, batches_of. assert (H : forall ret : gmap (Z * Z) (list bytes), under (route_underlay_loop table batches ret) (transport, peer) =
    under ret (transport, peer) ++ if decide (table !! peer = Some transport) then concat (having peer batches) else []); [|by rewrite H].
  induction batches as [|[k ps] batches IH]; intros ret; cbn [route_underlay_loop].
  { case_decide; by rewrite app_nil_r. }
  rewrite IH. unfold having. rewrite omap_cons_eq. fold (having peer batches). destruct (table !! k) as [t|] eqn:Et.
  - rewrite under_extend. destruct (decide (k = peer)) as [->|Hne].
    + destruct (decide ((transport, peer) = (t, peer))) as [[= ->]|Hne]; cbn [concat].
      * rewrite !decide_True by done. by rewrite <- app_assoc.
      * rewrite !decide_False by congruence. done.
    + rewrite decide_False by congruence. done.
  - destruct (decide (k = peer)) as [->|Hne]; [|done]. rewrite !decide_False by congruence. done.
Qed.

End Specs.
End Routers.
