(* ===== verification/DataPlane.v ===== *)
(** * The data plane (ts_dataplane/src/lib.rs)

    Packets of the device are routed to peers, sealed by the tunnel and given to underlay
    transports; packets from the network are opened by the tunnel, filtered by source and by
    the packet filter, and routed to overlay transports.  The tunnel is any backend that
    keeps the promises of [TunnelLaws]; the header parser is the third-party crate
    [etherparse]. *)

From S2P Require Import Prelude Scheduler Packet Noise IpNet BartNode IpTrie RoutingTable SplitStackTable BartTable PacketFilter WgState Tunnel Routers.
Import IpNet BartNode RoutingTable BartTable PacketFilter Results Tunnel Routers.

Module DataPlane.

(** ** Third-party code: [etherparse::SlicedPacket::from_ip] *)

Inductive NetSlice : Type :=
| NetIpv4 (ip_number : Z) (source destination : IpAddr)
| NetIpv6 (ip_number : Z) (source destination : IpAddr)
| NetOther.

Inductive TransportSlice : Type :=
| TransportUdp (source_port destination_port : Z)
| TransportTcp (source_port destination_port : Z)
| TransportOther.

Record SlicedPacket : Type := mkSliced { net : option NetSlice; transport : option TransportSlice }.

Class Etherparse : Type := { from_ip : bytes -> option SlicedPacket }.

(** The fields of a packet the filter looks at. *)
Definition dst_port (s : SlicedPacket) : Z :=
  match transport s with
  | Some (TransportUdp _ p) => p
  | Some (TransportTcp _ p) => p
  | _ => 0
  end.

Definition packet_info (s : SlicedPacket) : outcome PacketInfo :=
  match net s with
  | Some (NetIpv4 n src dst) => mret (mkInfo src dst n (dst_port s))
  | Some (NetIpv6 n src dst) => mret (mkInfo src dst n (dst_port s))
  | _ => Panic
  end.

(** What [from_ip] accepts is an IPv4 or IPv6 packet. *)
Class EtherparseLaws `{HE : Etherparse} : Prop := {
  from_ip_net p s : from_ip p = Some s ->
    exists n src dst, (net s = Some (NetIpv4 n src dst) \/ net s = Some (NetIpv6 n src dst)) /\ addr_ok src /\ addr_ok dst;
  from_ip_port p s : from_ip p = Some s -> 0 <= dst_port s < U16;
}.

(** ** State *)

(** [Subsystem] *)
Inductive Subsystem : Type := SubTunnel.

(** [Arc<dyn Filter>] *)
Record DynFilter : Type := mkDyn {
  dyn_match_for : PacketInfo -> list string -> outcome (option string);
  dyn_matches : PacketInfo -> list string -> outcome bool;
}.

#[global] Instance dyn_filter : Filter DynFilter := {| match_for := dyn_match_for; matches := dyn_matches |}.

Definition as_dyn {F} `{Filter F} (f : F) : DynFilter := mkDyn (match_for f) (matches f).

Section DataPlane.
Context `{HI : Ipnet} `{HOa : !HashOrder IpAddr} `{HOz : !HashOrder Z} `{HE : Etherparse}.
Context {E : Type} `{T : !Tunnel E}.

Abbreviation Table V := (SplitStackTable.SplitStackTable (Node V)).

Record DataPlane : Type := mkDataPlane {
  tunnel : E;
  or_out : Table OutAction;
  ur_out : gmap Z Z;
  src_filter_in : Table Z;
  or_in : Table InAction;
  packet_filter : DynFilter;
  events : @Scheduler.t Subsystem;
  tunnel_next : option Scheduler.Handle;
}.

Record OutboundResult : Type := mkOutbound { ob_to_peers : gmap (Z * Z) (list bytes); ob_loopback : gmap Z (list bytes) }.
Record InboundResult : Type := mkInbound { ib_to_local : gmap Z (list bytes); ib_to_peers : gmap (Z * Z) (list bytes) }.

(** ** Operations *)

(** [DataPlane::new], once the tunnel endpoint is made. *)
Definition dataplane_new (tunnel : E) : DataPlane :=
  mkDataPlane tunnel SplitStackTable.EMPTY ∅ SplitStackTable.EMPTY SplitStackTable.EMPTY (as_dyn DropAll)
    Scheduler.default_ None.

Definition with_tunnel (dp : DataPlane) (t : E) : DataPlane :=
  mkDataPlane t (or_out dp) (ur_out dp) (src_filter_in dp) (or_in dp) (packet_filter dp) (events dp) (tunnel_next dp).
Definition with_events (dp : DataPlane) (q : @Scheduler.t Subsystem) (h : option Scheduler.Handle) : DataPlane :=
  mkDataPlane (tunnel dp) (or_out dp) (ur_out dp) (src_filter_in dp) (or_in dp) (packet_filter dp) q h.

(** The end of every operation: an event for the tunnel's next time replaces the previous
    one. *)
Definition arm (dp : DataPlane) : outcome DataPlane :=
  o ← next_event (tunnel dp);
  mret (match o with
        | None => dp
        | Some next =>
            let '(h, q) := Scheduler.add (events dp) next SubTunnel in
            match tunnel_next dp with
            | Some prev => with_events dp (Scheduler.cancel q prev) (Some h)
            | None => with_events dp q (Some h)
            end
        end).

Definition process_outbound (packets : list bytes) : ST DataPlane OutboundResult := fun dp =>
  routed ← route_out (or_out dp) packets;
  '(sent, t) ← send (hash_entries (to_wireguard routed)) (tunnel dp);
  let dp := with_tunnel dp t in
  let to_peers := route_underlay (ur_out dp) (hash_entries (sr_to_peers sent)) in
  dp ← arm dp;
  Done (mkOutbound to_peers (loopback routed), dp).

(** [packets.retain(|packet| ..)] with a predicate that can panic. *)
Fixpoint retain (f : bytes -> outcome bool) (packets : list bytes) : outcome (list bytes) :=
  match packets with
  | [] => mret []
  | p :: packets => b ← f p; rest ← retain f packets; mret (if (b : bool) then p :: rest else rest)
  end.

(** The source filter: the longest match for the source address is the sender. *)
Definition source_allowed (dp : DataPlane) (peer_id : Z) (packet : bytes) : outcome bool :=
  match src_addr packet with
  | None => mret false
  | Some src =>
      o ← rt_lookup (src_filter_in dp) src;
      mret (match o with Some allowed_peer => bool_decide (allowed_peer = peer_id) | None => false end)
  end.

Definition filter_allowed (dp : DataPlane) (packet : bytes) : outcome bool :=
  match from_ip packet with
  | None => mret false
  | Some s => info ← packet_info s; matches (packet_filter dp) info []
  end.

(** The decrypted packets of every peer, after both filters, in the order of iteration. *)
Fixpoint filter_inbound (dp : DataPlane) (batches : list (Z * list bytes)) : outcome (list bytes) :=
  match batches with
  | [] => mret []
  | (peer_id, packets) :: batches =>
      packets ← retain (source_allowed dp peer_id) packets;
      packets ← retain (filter_allowed dp) packets;
      rest ← filter_inbound dp batches;
      mret (packets ++ rest)
  end.

Definition process_inbound (packets : list bytes) : ST DataPlane InboundResult := fun dp =>
  '(received, t) ← recv packets (tunnel dp);
  let dp := with_tunnel dp t in
  accepted ← filter_inbound dp (hash_entries (rr_to_local received));
  to_local ← route_in (or_in dp) accepted;
  let to_peers := route_underlay (ur_out dp) (hash_entries (rr_to_peers received)) in
  dp ← arm dp;
  Done (mkInbound to_local to_peers, dp).

(** [DataPlane::next_event] *)
Definition dataplane_next_event (dp : DataPlane) : outcome (option Z) := Scheduler.next_dispatch (events dp).

(** The loop over the due events; [HashMap::extend] replaces the entries it has. *)
Fixpoint dispatch_loop (now : Z) (due : list Subsystem) (t : E) (to_peers : gmap Z (list bytes)) : outcome (gmap Z (list bytes) * E) :=
  match due with
  | [] => mret (to_peers, t)
  | SubTunnel :: due =>
      '(res, t) ← dispatch_events now t;
      dispatch_loop now due t (er_to_peers res ∪ to_peers)
  end.

(** [now] is the reading of the clock. *)
Definition process_events (now : Z) : ST DataPlane (gmap (Z * Z) (list bytes)) := fun dp =>
  let '(due, q) := Scheduler.dispatch (events dp) now in
  '(to_peers, t) ← dispatch_loop now due (tunnel dp) ∅;
  let dp := with_tunnel (with_events dp q (tunnel_next dp)) t in
  let routed := route_underlay (ur_out dp) (hash_entries to_peers) in
  dp ← arm dp;
  Done (routed, dp).

End DataPlane.
Arguments DataPlane {_} _.
End DataPlane.
