(* ===== verification/DataPlaneSpec.v ===== *)
(** * What the data plane does with packets and timers

    The operations of the data plane on every well-formed state: what is delivered, what is
    sent, and when the tunnel is called again. *)

From S2P Require Import Prelude Scheduler Packet IpNet BartNode IpTrie RoutingTable SplitStackTable BartTable PortTrie PortTrieSpec PacketFilter BartFilterSpec WgState Tunnel Routers DataPlane.
Import IpNet BartNode RoutingTable BartTable PacketFilter BartFilterSpec Results Tunnel Routers DataPlane.

Module DataPlaneSpec.

Section Spec.
Context `{HI : Ipnet} `{HL : !IpnetLaws} `{HOa : !HashOrder IpAddr} `{HOz : !HashOrder Z} `{HE : Etherparse} `{HEL : !EtherparseLaws}.
Context {E : Type} `{T : !Tunnel E} `{TL : !TunnelLaws E}.

Abbreviation DataPlane := (DataPlane E).
Implicit Types dp : DataPlane.

(** ** Well-formed states *)

(** The routes behind the tables. *)
Record Routing : Type := mkRouting {
  r_out : Routes OutAction;
  r_src : Routes Z;
  r_in : Routes InAction;
}.

(** The filter answers for every packet. *)
Definition filter_total (f : DynFilter) : Prop := forall info, info_ok info -> exists b, matches f info [] = Done b.

(** At most one event is pending, and [tunnel_next] is its handle. *)
Record timer_ok dp : Prop := {
  tm_inv : Scheduler.inv (events dp);
  tm_single i x : Scheduler.abs (events dp) !! i = Some x -> tunnel_next dp = Some (Scheduler.mkHandle i);
  tm_handle h : tunnel_next dp = Some h -> (Scheduler.h_event h < Scheduler.next_id (events dp))%nat;
}.

Record dp_ok (M : Routing) dp : Prop := {
  dp_tunnel : tunnel_ok (tunnel dp);
  dp_out : rt_repr (or_out dp) (r_out M);
  dp_src : rt_repr (src_filter_in dp) (r_src M);
  dp_in : rt_repr (or_in dp) (r_in M);
  dp_filter : filter_total (packet_filter dp);
  dp_timer : timer_ok dp;
}.

(** ** The timer *)

(** The tunnel's next time is the only event. *)
Definition armed dp (r : TimeRange.range) : Prop :=
  exists i, Scheduler.abs (events dp) = {[ i := (r, SubTunnel) ]}.

(** What [arm] may change. *)
Definition same_but_events dp dp' : Prop := dp' = with_events dp (events dp') (tunnel_next dp').

Lemma add_abs (q : @Scheduler.t Subsystem) r w :
  Scheduler.inv q -> TimeRange.ok r ->
  Scheduler.inv (Scheduler.add q r w).2 /\ Scheduler.abs q !! Scheduler.next_id q = None /\
  (Scheduler.add q r w).1 = Scheduler.mkHandle (Scheduler.next_id q) /\
  Scheduler.abs (Scheduler.add q r w).2 = <[Scheduler.next_id q := (r, w)]> (Scheduler.abs q).
Proof.
  intros Hq Hr. split; [by apply Scheduler.add_inv|]. pose proof (Scheduler.add_simulates q r w Hq Hr) as H.
  inversion H; subst; by split_and!.
Qed.

Lemma cancel_abs (q : @Scheduler.t Subsystem) h :
  Scheduler.inv q -> Scheduler.inv (Scheduler.cancel q h) /\ Scheduler.abs (Scheduler.cancel q h) = delete (Scheduler.h_event h) (Scheduler.abs q).
Proof.
  intros Hq. split; [by apply Scheduler.cancel_inv|]. pose proof (Scheduler.cancel_simulates q h Hq) as H. by inversion H.
Qed.

Lemma cancel_next_id (q : @Scheduler.t Subsystem) h : Scheduler.next_id (Scheduler.cancel q h) = Scheduler.next_id q.
Proof. unfold Scheduler.cancel. by repeat case_match. Qed.

(** A queue that holds one event, with its handle. *)
Lemma single_timer dp q n r :
  Scheduler.inv q -> Scheduler.abs q = {[ n := (r, SubTunnel) ]} -> (n < Scheduler.next_id q)%nat ->
  timer_ok (with_events dp q (Some (Scheduler.mkHandle n))) /\ armed (with_events dp q (Some (Scheduler.mkHandle n))) r.
Proof.
  intros Hq Ha Hn. split; [|by exists n]. split; simpl; [done|..].
  - intros i x. rewrite Ha. intros [-> _]%lookup_singleton_Some. done.
  - intros h [= <-]. done.
Qed.

Lemma arm_ok dp :
  tunnel_ok (tunnel dp) -> timer_ok dp ->
  exists dp', arm dp = Done dp' /\ same_but_events dp dp' /\ timer_ok dp' /\
    match next_event (tunnel dp) with
    | Done (Some r) => armed dp' r
    | _ => dp' = dp
    end.
Proof.
  intros Ht [Hq Hs Hh]. destruct (next_event_total (tunnel dp) Ht) as (o & En & Ho). unfold arm. rewrite En. cbn [mbind outcome_bind].
  destruct o as [r|]; [|exists dp; split_and!; [done|by destruct dp|done|done]].
  destruct (add_abs (events dp) r SubTunnel Hq (Ho r eq_refl)) as (Hq' & Hfresh & Hn & Ha).
  assert (Hid : Scheduler.next_id (Scheduler.add (events dp) r SubTunnel).2 = S (Scheduler.next_id (events dp))) by done.
  destruct (Scheduler.add (events dp) r SubTunnel) as [h q]. cbn [fst snd] in *. subst h. set (n := Scheduler.next_id (events dp)) in *.
  destruct (tunnel_next dp) as [prev|] eqn:Ep; (eexists; split; [done|]; split; [done|]); apply single_timer.
  - by apply cancel_abs.
  - destruct (cancel_abs q prev Hq') as [_ ->]. rewrite Ha. specialize (Hh prev eq_refl). apply map_eq. intros i.
    rewrite lookup_delete, lookup_insert, lookup_singleton. repeat case_decide; subst; try done; try lia.
    destruct (Scheduler.abs (events dp) !! i) as [x|] eqn:Ei; [|done]. apply Hs in Ei. injection Ei as ->. done.
  - rewrite cancel_next_id. lia.
  - done.
  - rewrite Ha. apply map_eq. intros i. rewrite lookup_insert, lookup_singleton. case_decide; [done|].
    destruct (Scheduler.abs (events dp) !! i) as [x|] eqn:Ei; [|done]. by apply Hs in Ei.
  - lia.
Qed.

Lemma armed_next dp r :
  timer_ok dp -> armed dp r -> Scheduler.next_dispatch_range (events dp) = Done (Some r).
Proof.
  intros [Hq _ _] (i & Ha).
  assert (Hin : forall e, e ∈ Scheduler.events (events dp) <-> e = Scheduler.mkEvent i r SubTunnel).
  { intros [j r' w]. rewrite <- Scheduler.abs_lookup by done. rewrite Ha, lookup_singleton_Some. naive_solver. }
  destruct (Scheduler.next_dispatch_range_spec (events dp) Hq) as [_ H].
  destruct H as (r' & Er & [(e & He & Hs) _] & [(e' & He' & He2) _]).
  { intros Hn. specialize (Hin (Scheduler.mkEvent i r SubTunnel)). rewrite Hn in Hin. exact (not_elem_of_nil _ (proj2 Hin eq_refl)). }
  apply Hin in He as ->. apply Hin in He' as ->. rewrite Er. destruct r, r'. cbn in *. congruence.
Qed.

(** A data plane with another tunnel and timer. *)
Lemma dp_ok_change M dp dp' t :
  dp_ok M dp -> same_but_events (with_tunnel dp t) dp' -> tunnel_ok t -> timer_ok dp' -> dp_ok M dp'.
Proof. intros [H1 H2 H3 H4 H5 H6] Hs Ht Hm. unfold same_but_events in Hs. rewrite Hs in *. by split. Qed.

Lemma same_tunnel dp dp' t : same_but_events (with_tunnel dp t) dp' -> tunnel dp' = t.
Proof. intros ->. done. Qed.

Lemma timer_tunnel dp t : timer_ok dp -> timer_ok (with_tunnel dp t).
Proof. intros []. by split. Qed.

(** What the operations do about the timer. *)
Definition rearmed dp dp' : Prop :=
  match next_event (tunnel dp') with
  | Done (Some r) => armed dp' r
  | _ => True
  end.

(** ** Outbound *)

(** The wire packets of a transport and peer. *)
Definition for_transport (table : gmap Z Z) (m : gmap Z (list bytes)) (k : Z * Z) : list bytes :=
  if decide (table !! snd k = Some (fst k)) then queued m (snd k) else [].

Lemma batches_of_entries (m : gmap Z (list bytes)) peer : batches_of peer (hash_entries m) = under m peer.
Proof. unfold batches_of, under. rewrite having_entries. destruct (m !! peer); cbn; [by rewrite app_nil_r|done]. Qed.

Lemma route_entries table (m : gmap Z (list bytes)) k : under (route_underlay table (hash_entries m)) k = for_transport table m k.
Proof. destruct k as [t p]. rewrite route_underlay_ok, batches_of_entries. done. Qed.

(** The packets that [f] sends to [peer], in whatever order of destinations. *)
Definition routed_to {V} `{EqDecision V} (R : Routes V) (act : V) (ps out : list bytes) : Prop :=
  out ≡ₚ filter (fun p => hop R p = Some act) ps /\
  forall a, filter (fun p => dst_addr p = Some a) out = filter (fun p => dst_addr p = Some a /\ hop R p = Some act) ps.

(** The batches that the outbound router hands to the tunnel. *)
Definition outbound_batches dp (ps : list bytes) : outcome (list (Z * list bytes)) :=
  routed ← route_out (or_out dp) ps; mret (hash_entries (to_wireguard routed)).

Lemma outbound_ok M dp ps :
  dp_ok M dp ->
  (forall batches, outbound_batches dp ps = Done batches -> can_send batches (tunnel dp)) ->
  exists batches sent r dp',
    outbound_batches dp ps = Done batches /\
    (forall peer, routed_to (r_out M) (Wireguard peer) ps (batches_of peer batches)) /\
    send batches (tunnel dp) = Done (sent, tunnel dp') /\
    process_outbound ps dp = Done (r, dp') /\ dp_ok M dp' /\ same_but_events (with_tunnel dp (tunnel dp')) dp' /\ rearmed dp dp' /\
    (forall k, under (ob_to_peers r) k = for_transport (ur_out dp) (sr_to_peers sent) k) /\
    (forall id, routed_to (r_out M) (Loopback id) ps (under (ob_loopback r) id)).
Proof.
  intros Hdp Hcan. destruct (route_out_ok (or_out dp) (r_out M) ps (dp_out M dp Hdp)) as (routed & Er & Hw & Hl).
  assert (Hb : forall peer, routed_to (r_out M) (Wireguard peer) ps (batches_of peer (hash_entries (to_wireguard routed)))).
  { intros peer. rewrite batches_of_entries. apply Hw. }
  assert (Eb : outbound_batches dp ps = Done (hash_entries (to_wireguard routed))) by (unfold outbound_batches; by rewrite Er).
  destruct (send_total (hash_entries (to_wireguard routed)) (tunnel dp) (dp_tunnel M dp Hdp) (Hcan _ Eb)) as (sent & t & Es & Ht).
  destruct (arm_ok (with_tunnel dp t) Ht (timer_tunnel dp t (dp_timer M dp Hdp))) as (dp' & Ea & Hsame & Htm & Harm).
  pose proof (same_tunnel _ _ _ Hsame) as Et. eexists _, sent, _, dp'. rewrite Et. split_and!; [exact Eb|exact Hb|exact Es|..].
  - unfold process_outbound. rewrite Er. cbn [mbind outcome_bind]. rewrite Es. cbn [mbind outcome_bind]. rewrite Ea. done.
  - by eapply dp_ok_change.
  - done.
  - unfold rearmed. rewrite Et. cbn [tunnel with_tunnel] in Harm. by repeat case_match.
  - intros k. apply route_entries.
  - exact Hl.
Qed.

(** ** Inbound *)

(** The packet filter grants the packet, which the parser accepts. *)
Definition grants dp (p : bytes) : Prop :=
  exists s info, from_ip p = Some s /\ packet_info s = Done info /\ matches (packet_filter dp) info [] = Done true.

Definition verdict (o : outcome bool) : bool := match o with Done b => b | Panic => false end.

Definition grantedb dp (p : bytes) : bool :=
  match from_ip p with
  | Some s => verdict (info ← packet_info s; matches (packet_filter dp) info [])
  | None => false
  end.

(** The source address of the packet belongs to the peer. *)
Definition ownedb (M : Routing) (peer : Z) (p : bytes) : bool :=
  match src_addr p with
  | Some a => bool_decide (best (r_src M) a = Some peer)
  | None => false
  end.

(** What becomes of the decrypted packets of [peer] at the overlay transport [id]. *)
Definition admittedb dp (M : Routing) (id peer : Z) (p : bytes) : bool :=
  ownedb M peer p && grantedb dp p && bool_decide (hop (r_in M) p = Some (ToOverlay id)).

Lemma retain_ok (f : bytes -> outcome bool) (g : bytes -> bool) ps : (forall p, f p = Done (g p)) -> retain f ps = Done (List.filter g ps).
Proof.
  intros Hf. induction ps as [|p ps IH]; [done|]. cbn [retain List.filter]. rewrite Hf. cbn [mbind outcome_bind]. rewrite IH. done.
Qed.

Lemma source_allowed_ok M dp peer p : dp_ok M dp -> source_allowed dp peer p = Done (ownedb M peer p).
Proof.
  intros Hdp. unfold source_allowed, ownedb. destruct (src_addr p) as [a|] eqn:Es; [|done].
  rewrite (table_lookup _ (r_src M)) by (apply Hdp || by eapply src_addr_ok). cbn [mbind outcome_bind].
  destruct (best (r_src M) a) as [q|]; [|done]. cbn. f_equal. apply bool_decide_ext. naive_solver.
Qed.

(** The packets that the parser accepts have what the filter asks for. *)
Lemma packet_info_ok p sl : from_ip p = Some sl -> exists info, packet_info sl = Done info /\ info_ok info.
Proof.
  intros Ep. destruct (from_ip_net p sl Ep) as (n & src & dst & Hn & Hs & Hd). pose proof (from_ip_port p sl Ep) as Hp.
  unfold packet_info. destruct Hn as [-> | ->]; (eexists; split; [done|]); split_and!; try done;
    unfold PortTrieSpec.port_ok, PortTrie.U16_MAX; unfold U16 in Hp; cbn [port]; lia.
Qed.

Lemma filter_allowed_ok M dp p : dp_ok M dp -> filter_allowed dp p = Done (grantedb dp p).
Proof.
  intros Hdp. unfold grantedb, filter_allowed. destruct (from_ip p) as [sl|] eqn:Ep; [|done].
  destruct (packet_info_ok p sl Ep) as (info & -> & Hi). cbn [mbind outcome_bind]. by destruct (dp_filter M dp Hdp info Hi) as [b ->].
Qed.

Lemma grantedb_spec dp p : grantedb dp p = true <-> grants dp p.
Proof.
  unfold grantedb, grants. split.
  - destruct (from_ip p) as [sl|]; [|done]. destruct (packet_info sl) as [info|] eqn:Ei; [|done]. cbn [mbind outcome_bind].
    destruct (matches _ _ _) as [[]|] eqn:Em; [|done..]. intros _. by exists sl, info.
  - intros (sl & info & -> & -> & Em). cbn [mbind outcome_bind]. by rewrite Em.
Qed.

Lemma list_filter_and {A} (f g : A -> bool) l : List.filter g (List.filter f l) = List.filter (fun x => f x && g x) l.
Proof. induction l as [|x l IH]; [done|]. cbn [List.filter]. destruct (f x); cbn [List.filter andb]; by rewrite IH. Qed.

Lemma filter_inbound_ok M dp batches :
  dp_ok M dp ->
  filter_inbound dp batches = Done (concat (map (fun '(peer, ps) => List.filter (fun p => ownedb M peer p && grantedb dp p) ps) batches)).
Proof.
  intros Hdp. induction batches as [|[peer ps] batches IH]; [done|]. cbn [filter_inbound].
  rewrite (retain_ok _ (ownedb M peer)) by (intros; by apply source_allowed_ok). cbn [mbind outcome_bind].
  rewrite (retain_ok _ (grantedb dp)) by (intros; by apply (filter_allowed_ok M)). cbn [mbind outcome_bind].
  rewrite IH. cbn [mbind outcome_bind map concat]. by rewrite list_filter_and.
Qed.

Lemma ownedb_spec M peer p : ownedb M peer p = true <-> exists a, src_addr p = Some a /\ best (r_src M) a = Some peer.
Proof.
  unfold ownedb. destruct (src_addr p) as [a|]; [rewrite bool_decide_eq_true; naive_solver|]. split; [done|]. intros (a & ? & _). done.
Qed.

Lemma admittedb_spec M dp id peer p :
  admittedb dp M id peer p = true <->
    (exists a, src_addr p = Some a /\ best (r_src M) a = Some peer) /\ grants dp p /\ hop (r_in M) p = Some (ToOverlay id).
Proof. unfold admittedb. rewrite !andb_true_iff, bool_decide_eq_true, ownedb_spec, grantedb_spec. tauto. Qed.

(** The decrypted packets that reach an overlay transport. *)
Definition admitted dp (M : Routing) (received : gmap Z (list bytes)) (id : Z) : list bytes :=
  concat (map (fun '(peer, ps) => List.filter (admittedb dp M id peer) ps) (hash_entries received)).

Lemma elem_of_admitted dp M received id p :
  p ∈ admitted dp M received id <-> exists peer, p ∈ queued received peer /\ admittedb dp M id peer p = true.
Proof.
  unfold admitted. rewrite list_elem_of_In, in_concat. setoid_rewrite in_map_iff. split.
  - intros (l & ([peer ps] & <- & Hin) & Hp). apply filter_In in Hp as [Hp Ha]. exists peer. split; [|done].
    apply list_elem_of_In, elem_of_hash_entries in Hin. unfold queued. rewrite Hin. by apply list_elem_of_In.
  - intros (peer & Hp & Ha). unfold queued in Hp. destruct (received !! peer) as [ps|] eqn:Er; [|by apply not_elem_of_nil in Hp].
    eexists. split; [exists (peer, ps); split; [done|]; by apply list_elem_of_In, elem_of_hash_entries|].
    apply filter_In. split; [by apply list_elem_of_In|done].
Qed.

(** All that was received came from one peer. *)
Lemma admitted_single dp M received id peer :
  (forall q, q <> peer -> queued received q = []) -> admitted dp M received id = List.filter (admittedb dp M id peer) (queued received peer).
Proof.
  intros Hq. unfold admitted.
  assert (Hl : forall l : list (Z * list bytes), (forall q ps, (q, ps) ∈ l -> received !! q = Some ps) ->
    concat (map (fun '(q, ps) => List.filter (admittedb dp M id q) ps) l) = List.filter (admittedb dp M id peer) (concat (having peer l))).
  { induction l as [|[q ps] l IH]; intros Hin; [done|]. cbn [map concat]. unfold having. rewrite omap_cons_eq.
    rewrite IH by (intros; apply Hin; by apply list_elem_of_further). fold (having peer l).
    destruct (decide (q = peer)) as [->|Hne]; cbn [concat]; [by rewrite List.filter_app|].
    specialize (Hq q Hne). unfold queued in Hq. rewrite (Hin q ps) in Hq by apply list_elem_of_here. simpl in Hq. by subst ps. }
  rewrite Hl by (intros q ps Hp; by apply elem_of_hash_entries). rewrite having_entries. unfold queued.
  destruct (received !! peer); cbn; [by rewrite app_nil_r|done].
Qed.

Lemma admitted_routed dp M received id :
  filter (fun p => hop (r_in M) p = Some (ToOverlay id))
    (concat (map (fun '(peer, ps) => List.filter (fun p => ownedb M peer p && grantedb dp p) ps) (hash_entries received))) =
  admitted dp M received id.
Proof.
  unfold admitted. induction (hash_entries received) as [|[peer ps] l IH]; [done|]. cbn [map concat]. rewrite filter_app, IH. f_equal. clear.
  induction ps as [|p ps IH]; [done|]. cbn [List.filter]. unfold admittedb at 1.
  destruct (ownedb M peer p && grantedb dp p); cbn [andb]; [|exact IH]. rewrite filter_cons, IH.
  destruct (decide (hop (r_in M) p = Some (ToOverlay id))); [by rewrite bool_decide_eq_true_2|by rewrite bool_decide_eq_false_2].
Qed.

Lemma inbound_ok M dp ps :
  dp_ok M dp -> can_recv ps (tunnel dp) ->
  exists received r dp',
    recv ps (tunnel dp) = Done (received, tunnel dp') /\
    process_inbound ps dp = Done (r, dp') /\ dp_ok M dp' /\ same_but_events (with_tunnel dp (tunnel dp')) dp' /\ rearmed dp dp' /\
    (forall id, under (ib_to_local r) id = admitted dp M (rr_to_local received) id) /\
    (forall k, under (ib_to_peers r) k = for_transport (ur_out dp) (rr_to_peers received) k).
Proof.
  intros Hdp Hcan. destruct (recv_total ps (tunnel dp) (dp_tunnel M dp Hdp) Hcan) as (received & t & Er & Ht).
  destruct (arm_ok (with_tunnel dp t) Ht (timer_tunnel dp t (dp_timer M dp Hdp))) as (dp' & Ea & Hsame & Htm & Harm).
  pose proof (same_tunnel _ _ _ Hsame) as Et.
  assert (Hdp' : dp_ok M (with_tunnel dp t)) by (destruct Hdp; split; try done; by apply timer_tunnel).
  destruct (route_in_ok (or_in dp) (r_in M) (concat (map (fun '(peer, ps) => List.filter (fun p => ownedb M peer p && grantedb dp p) ps)
    (hash_entries (rr_to_local received)))) (dp_in M dp Hdp)) as (local & El & Hl).
  exists received, (mkInbound local (route_underlay (ur_out dp) (hash_entries (rr_to_peers received)))), dp'. rewrite Et. split_and!; [exact Er|..].
  - unfold process_inbound. rewrite Er. cbn [mbind outcome_bind]. rewrite (filter_inbound_ok M _ _ Hdp'). cbn [mbind outcome_bind].
    change (or_in (with_tunnel dp t)) with (or_in dp). change (grantedb (with_tunnel dp t)) with (grantedb dp).
    rewrite El. cbn [mbind outcome_bind]. rewrite Ea. done.
  - by eapply dp_ok_change.
  - done.
  - unfold rearmed. rewrite Et. cbn [tunnel with_tunnel] in Harm. by repeat case_match.
  - intros id. cbn [ib_to_local]. rewrite Hl. apply admitted_routed.
  - intros k. apply route_entries.
Qed.

(** ** Events *)

Lemma at_most_one dp : timer_ok dp -> Scheduler.events (events dp) = [] \/ exists e, Scheduler.events (events dp) = [e].
Proof.
  intros [Hq Hs _]. pose proof (Scheduler.inv_ids _ Hq) as Hnd.
  assert (Hid : forall e, e ∈ Scheduler.events (events dp) -> tunnel_next dp = Some (Scheduler.mkHandle (Scheduler.ev_id e))).
  { intros [i r w] He. apply Scheduler.abs_lookup in He; [|done]. by eapply Hs. }
  destruct (Scheduler.events (events dp)) as [|e [|e' l]]; [by left|right; by eexists|]. exfalso.
  apply NoDup_cons in Hnd as [Hn _]. apply Hn. cbn [map].
  pose proof (Hid e (list_elem_of_here _ _)) as H1. pose proof (Hid e' (list_elem_of_further _ _ _ (list_elem_of_here _ _))) as H2.
  assert (Scheduler.ev_id e = Scheduler.ev_id e') as -> by congruence. apply list_elem_of_here.
Qed.

(** At most one event is due, so the tunnel is called at most once. *)
Lemma due_once dp now :
  timer_ok dp ->
  exists due q, Scheduler.dispatch (events dp) now = (due, q) /\ timer_ok (with_events dp q (tunnel_next dp)) /\
    (due = [] \/ due = [SubTunnel]) /\
    (due = [SubTunnel] <-> exists e, e ∈ Scheduler.events (events dp) /\ Scheduler.ev_start e <= now).
Proof.
  intros Ht. pose proof Ht as [Hq Hs Hh]. pose proof (Scheduler.dispatch_inv (events dp) now Hq) as Hq'.
  destruct (at_most_one dp Ht) as [He|(e & He)].
  - exists [], (events dp). unfold Scheduler.dispatch in *. rewrite He in *. destruct (events dp) as [evs n]. cbn in *. subst evs.
    split_and!; [done|by split|by left|]. split; [done|]. intros (e & Hin & _). by apply not_elem_of_nil in Hin.
  - unfold Scheduler.dispatch in *. rewrite He in *. cbn [Scheduler.partition_point] in *.
    destruct (now <? Scheduler.ev_start e) eqn:El; b2p; cbn [take drop rev map app] in *.
    + exists [], (events dp). split; [by destruct (events dp); cbn in *; subst|]. split; [by destruct dp|].
      split; [by left|]. split; [done|]. intros (e' & ->%list_elem_of_singleton & Hle). lia.
    + exists [SubTunnel], (Scheduler.mk [] (Scheduler.next_id (events dp))). split; [by destruct (Scheduler.what e)|].
      split; [|split; [by right|]]; [|split; [intros _; exists e; split; [apply list_elem_of_here|lia]|done]].
      split; cbn [events with_events tunnel_next]; [done| |exact Hh]. intros i [r w] Hx%Scheduler.abs_lookup; [by apply not_elem_of_nil in Hx|done].
Qed.

(** An event is due for the tunnel. *)
Definition tunnel_due dp (now : Z) : Prop := exists e, e ∈ Scheduler.events (events dp) /\ Scheduler.ev_start e <= now.

Lemma events_ok M dp now :
  dp_ok M dp -> can_dispatch now (tunnel dp) ->
  exists out dp',
    process_events now dp = Done (out, dp') /\ dp_ok M dp' /\ same_but_events (with_tunnel dp (tunnel dp')) dp' /\ rearmed dp dp' /\
    ((exists res, tunnel_due dp now /\ dispatch_events now (tunnel dp) = Done (res, tunnel dp') /\
        forall k, under out k = for_transport (ur_out dp) (er_to_peers res) k) \/
     (~ tunnel_due dp now /\ tunnel dp' = tunnel dp /\ forall k, under out k = [])).
Proof.
  intros Hdp Hcan. destruct (due_once dp now (dp_timer M dp Hdp)) as (due & q & Ed & Hq & Hdue & Hiff).
  set (dp1 := with_events dp q (tunnel_next dp)) in *.
  destruct (dispatch_total now (tunnel dp) (dp_tunnel M dp Hdp) Hcan) as (res & t1 & Et1 & Ht1).
  assert (Hloop : exists m t, dispatch_loop now due (tunnel dp) ∅ = Done (m, t) /\ tunnel_ok t /\
    ((tunnel_due dp now /\ t = t1 /\ m = er_to_peers res) \/ (~ tunnel_due dp now /\ t = tunnel dp /\ m = ∅))).
  { destruct Hdue as [-> | ->].
    - exists ∅, (tunnel dp). split_and!; [done|apply Hdp|]. right. split_and!; try done. intros Hd. by apply Hiff in Hd.
    - exists (er_to_peers res), t1. cbn [dispatch_loop]. rewrite Et1. cbn [mbind outcome_bind]. rewrite (right_id_L ∅ (∪)).
      split_and!; [done..|]. left. split_and!; try done. by apply Hiff. }
  destruct Hloop as (m & t & El & Ht & Hcase).
  destruct (arm_ok (with_tunnel dp1 t) Ht (timer_tunnel dp1 t Hq)) as (dp' & Ea & Hsame & Htm & Harm).
  pose proof (same_tunnel _ _ _ Hsame) as Et.
  assert (Hsame' : same_but_events (with_tunnel dp t) dp') by (unfold same_but_events in *; rewrite Hsame; done).
  exists (route_underlay (ur_out dp) (hash_entries m)), dp'. rewrite Et. split_and!.
  - unfold process_events. rewrite Ed, El. cbn [mbind outcome_bind]. fold dp1. rewrite Ea. done.
  - by eapply dp_ok_change.
  - done.
  - unfold rearmed. rewrite Et. cbn [tunnel with_tunnel] in Harm. by repeat case_match.
  - destruct Hcase as [(Hd & -> & ->)|(Hd & -> & ->)]; [left|right]; [exists res|]; split_and!; try done; intros k; rewrite route_entries; [done|].
    unfold for_transport, queued. rewrite lookup_empty. by case_decide.
Qed.

End Spec.
End DataPlaneSpec.
