(* ===== verification/DataPlaneProof.v ===== *)
(** * The data plane: main theorems

    What is delivered to the device is authenticated, filtered and routed; the timer of the
    tunnel is always armed; what one data plane sends another delivers. *)

From S2P Require Import Prelude Scheduler Packet Crypto Noise IpNet BartNode IpTrie RoutingTable SplitStackTable BartTable PacketFilter BartFilterSpec WgEnv WgState WgPeer WgEndpoint WgInv WgSafety ShadowCrypto Obfs ShadowEndpoint ShadowVpn Tunnel Routers DataPlane DataPlaneSpec.
Import IpNet BartNode RoutingTable BartTable PacketFilter BartFilterSpec Results Tunnel Routers DataPlane DataPlaneSpec.

Module DataPlaneProof.

Section Theorems.
Context `{HI : Ipnet} `{HL : !IpnetLaws} `{HOa : !HashOrder IpAddr} `{HOz : !HashOrder Z} `{HE : Etherparse} `{HEL : !EtherparseLaws}.
Context {E : Type} `{T : !Tunnel E} `{TL : !TunnelLaws E}.

(** C9: whatever arrives, processing it returns, and a packet is delivered to an overlay
    transport exactly when the tunnel opened it as coming from some peer, the most specific
    entry of the source filter for its source address is that peer, the packet filter grants
    it, and the most specific inbound route of its destination is that transport. *)
Theorem inbound_authorised (M : Routing) (dp : DataPlane E) (ps : list bytes) :
  dp_ok M dp -> can_recv ps (tunnel dp) ->
  exists received r dp', recv ps (tunnel dp) = Done (received, tunnel dp') /\ process_inbound ps dp = Done (r, dp') /\ dp_ok M dp' /\
    forall id p, p ∈ under (ib_to_local r) id <->
      exists peer, p ∈ queued (rr_to_local received) peer /\ (exists a, src_addr p = Some a /\ best (r_src M) a = Some peer) /\
        grants dp p /\ hop (r_in M) p = Some (ToOverlay id).
Proof.
  intros Hdp Hcan. destruct (inbound_ok M dp ps Hdp Hcan) as (received & r & dp' & Er & Ep & Hdp' & _ & _ & Hl & _).
  exists received, r, dp'. split_and!; [done..|]. intros id p. rewrite Hl, elem_of_admitted. f_equiv. intros peer.
  by rewrite admittedb_spec.
Qed.

(** C16: packets of the device go to the transport of the peer that has the most specific
    route for their destination: the tunnel is given for each peer exactly the packets whose
    best outbound route is that peer, those for one address in their order, what it returns
    for a peer goes to that peer's transport, packets whose best route is a loopback return to
    that overlay transport, and all others are dropped. *)
Theorem outbound_routed (M : Routing) (dp : DataPlane E) (ps : list bytes) :
  dp_ok M dp -> (forall batches, outbound_batches dp ps = Done batches -> can_send batches (tunnel dp)) ->
  exists batches sent r dp', outbound_batches dp ps = Done batches /\ send batches (tunnel dp) = Done (sent, tunnel dp') /\
    process_outbound ps dp = Done (r, dp') /\ dp_ok M dp' /\
    (forall peer, routed_to (r_out M) (Wireguard peer) ps (batches_of peer batches)) /\
    (forall transport peer, under (ob_to_peers r) (transport, peer) =
       if decide (ur_out dp !! peer = Some transport) then queued (sr_to_peers sent) peer else []) /\
    (forall id, routed_to (r_out M) (Loopback id) ps (under (ob_loopback r) id)).
Proof.
  intros Hdp Hcan. destruct (outbound_ok M dp ps Hdp Hcan) as (batches & sent & r & dp' & Eb & Hb & Es & Ep & Hdp' & _ & _ & Hp & Hl).
  exists batches, sent, r, dp'. split_and!; [done..| |done]. intros transport peer. apply Hp.
Qed.

(** C26: the tunnel is called in time.  Whenever its next event is the one pending, calling
    [process_events] at any time from the start of the requested range on calls the tunnel's
    dispatch once, sends what it returns to the peers' transports, and afterwards the data
    plane reports the end of the range that the tunnel then asks for. *)
Theorem events_in_time (M : Routing) (dp : DataPlane E) (r : TimeRange.range) (now : Z) :
  dp_ok M dp -> armed dp r -> TimeRange.start r <= now -> can_dispatch now (tunnel dp) ->
  exists out dp' res, process_events now dp = Done (out, dp') /\ dp_ok M dp' /\ dispatch_events now (tunnel dp) = Done (res, tunnel dp') /\
    (forall k, under out k = for_transport (ur_out dp) (er_to_peers res) k) /\
    forall r', next_event (tunnel dp') = Done (Some r') -> armed dp' r' /\ dataplane_next_event dp' = Done (Some (TimeRange.end_ r')).
Proof.
  intros Hdp (i & Ha) Hr Hcan. destruct (events_ok M dp now Hdp Hcan) as (out & dp' & Ep & Hdp' & Hsame & Harm & Hcase).
  assert (Hdue : tunnel_due dp now).
  { exists (Scheduler.mkEvent i r SubTunnel). split; [|done]. apply Scheduler.abs_lookup; [apply (tm_inv dp), (dp_timer M dp Hdp)|].
    rewrite Ha. apply lookup_singleton_eq. }
  destruct Hcase as [(res & _ & Er & Ho)|[Hn _]]; [|done]. exists out, dp', res. split_and!; [done..|]. intros r' Er'.
  unfold rearmed in Harm. rewrite Er' in Harm. split; [done|]. unfold dataplane_next_event, Scheduler.next_dispatch.
  by rewrite (armed_next dp' r' (dp_timer M dp' Hdp') Harm).
Qed.

End Theorems.

Section Delivery.
Context `{HI : Ipnet} `{HL : !IpnetLaws} `{HOa : !HashOrder IpAddr} `{HOz : !HashOrder Z} `{HE : Etherparse} `{HEL : !EtherparseLaws}.
Context `{C : Crypto} `{CL : !CryptoLaws} `{W : World} {N : nat} `{WL : !WgInv.WorldLaws N}.
Context `{P : ShadowCrypto.Primitives} `{PL : !ShadowCrypto.PrimitivesLaws} `{R : ShadowCrypto.Rng}.
Import ShadowCrypto Obfs ShadowEndpoint ShadowVpn.

Abbreviation DataPlane := (DataPlane Tunnel.Endpoint).

Lemma filter_id {A} (Q : A -> Prop) `{!forall x, Decision (Q x)} (l : list A) : Forall Q l -> filter Q l = l.
Proof. induction 1 as [|x l Hx _ IH]; [done|]. by rewrite filter_cons_True, IH. Qed.

Lemma list_filter_id {A} (f : A -> bool) (l : list A) : Forall (fun x => f x = true) l -> List.filter f l = l.
Proof. induction 1 as [|x l Hx _ IH]; [done|]. simpl. by rewrite Hx, IH. Qed.

Lemma batch_subset (M : Routes OutAction) batches ps :
  (forall peer, routed_to M (Wireguard peer) ps (batches_of peer batches)) ->
  Forall (fun b => forall m, m ∈ snd b -> m ∈ ps) batches.
Proof.
  intros Hb. apply Forall_forall. intros [k ms] Hk m Hm. destruct (Hb k) as [Hp _].
  assert (Hin : m ∈ batches_of k batches).
  { unfold batches_of. rewrite list_elem_of_In, in_concat. exists ms. split; [|by apply list_elem_of_In].
    apply list_elem_of_In, list_elem_of_omap. exists (k, ms). split; [done|]. by rewrite decide_True. }
  rewrite Hp in Hin. by apply list_elem_of_filter in Hin as [_ Hin].
Qed.

(** A packet that [dpa] sends to [pb] and that [dpb] accepts from [pa] for [id]. *)
Definition end_to_end (Ma Mb : Routing) (a : ShadowEndpoint.Endpoint) (dpb : DataPlane) (pa pb id : Z) (m : bytes) : Prop :=
  sendable (cipher a) m /\ deliverable m /\ hop (r_out Ma) m = Some (Wireguard pb) /\ admittedb dpb Mb id pa m = true.


End Delivery.

(** ** Concrete data planes *)

Module Concrete.
Import ShadowCrypto Obfs ShadowEndpoint ShadowVpn ShadowVpn.ToyPrims.
#[export] Existing Instance RefNet.ref_net.
#[export] Existing Instance RefNet.ref_laws.
#[export] Existing Instance list_order.
#[export] Existing Instance Toy.toy.
#[export] Existing Instance Toy.toy_laws.
#[export] Existing Instance WgInv.test_world.
#[export] Existing Instance WgInv.test_world_laws.

(** Every packet with addresses is TCP to port 80. *)
#[export] Instance toy_parse : Etherparse := {|
  from_ip p := src ← src_addr p; dst ← dst_addr p; Some (mkSliced (Some (NetIpv4 6 src dst)) (Some (TransportTcp 0 80)));
|}.

#[export] Instance toy_parse_laws : EtherparseLaws.
Proof.
  split; intros p s; cbn [from_ip toy_parse]; destruct (src_addr p) as [a|] eqn:Ea; try done; destruct (dst_addr p) as [b|] eqn:Eb; try done;
    intros [= <-]; [|done]. exists 6, a, b. split_and!; [by left|by eapply src_addr_ok|by eapply dst_addr_ok].
Qed.

Definition accept_all : DynFilter := mkDyn (fun _ _ => Done (Some "all")) (fun _ _ => Done true).

(** A table with one route, 10.0.0.0/8. *)
Definition one {V} (v : V) : SplitStackTable.SplitStackTable (Node V) :=
  match rt_insert SplitStackTable.EMPTY net8 v with Done (_, t) => t | Panic => SplitStackTable.EMPTY end.
Definition one_route {V} (v : V) : Routes V := rset no_routes net8 (Some v).

Lemma one_repr {V} (v : V) : rt_repr (one v) (one_route v).
Proof.
  destruct (rt_insert_spec (T := V) (SplitStackTable.EMPTY (N := Node V)) no_routes net8 v) as (t & E & Ht); [apply split_empty|done|].
  unfold one. rewrite E. exact Ht.
Qed.

(** [alice] sends 10.0.0.0/8 to [bob], who receives it for the overlay transport 5. *)
Definition dp_alice : DataPlane Tunnel.Endpoint :=
  mkDataPlane (EpShadowvpn ShadowVpn.Example.alice) (one (Wireguard 7)) {[ 7 := 3 ]} SplitStackTable.EMPTY SplitStackTable.EMPTY accept_all Scheduler.default_ None.
Definition dp_bob : DataPlane Tunnel.Endpoint :=
  mkDataPlane (EpShadowvpn ShadowVpn.Example.bob) SplitStackTable.EMPTY ∅ (one 9) (one (ToOverlay 5)) accept_all Scheduler.default_ None.

Definition routes_alice : Routing := mkRouting (one_route (Wireguard 7)) no_routes no_routes.
Definition routes_bob : Routing := mkRouting no_routes (one_route 9) (one_route (ToOverlay 5)).

(** From 10.1.0.1 to 10.2.0.1. *)
Definition packet : bytes := [x45] ++ zeroes 11 ++ [x0a; x01; x00; x01; x0a; x02; x00; x01].

Lemma idle_timer (dp : DataPlane Tunnel.Endpoint) : events dp = Scheduler.default_ -> tunnel_next dp = None -> timer_ok dp.
Proof.
  intros He Hn. split; rewrite ?He, ?Hn; [apply Scheduler.default_inv| |done].
  intros i [r w] H%Scheduler.abs_lookup; [by apply not_elem_of_nil in H|apply Scheduler.default_inv].
Qed.

Lemma accepts : filter_total accept_all.
Proof. intros info _. by exists true. Qed.

Lemma alice_ok : dp_ok routes_alice dp_alice.
Proof.
  split; [apply ShadowVpn.Example.add_peer_inv, ShadowVpn.Example.fresh_inv|apply one_repr|apply split_empty|apply split_empty|apply accepts|by apply idle_timer].
Qed.

Lemma bob_ok : dp_ok routes_bob dp_bob.
Proof.
  split; [apply ShadowVpn.Example.add_peer_inv, ShadowVpn.Example.add_peer_inv, ShadowVpn.Example.fresh_inv|apply split_empty|apply one_repr|apply one_repr|apply accepts|by apply idle_timer].
Qed.

Lemma packet_hops :
  hop (r_out routes_alice) packet = Some (Wireguard 7) /\ hop (r_in routes_bob) packet = Some (ToOverlay 5) /\
  ownedb routes_bob 9 packet = true.
Proof. by vm_compute. Qed.

Lemma packet_end_to_end : Forall (end_to_end routes_alice routes_bob ShadowVpn.Example.alice dp_bob 9 7 5) [packet].
Proof.
  destruct packet_hops as (H1 & H2 & H3). apply Forall_singleton. split_and!; [apply Nat.leb_le; reflexivity|apply Nat.leb_le; reflexivity|done|].
  unfold admittedb. rewrite H2, H3, bool_decide_eq_true_2 by done. reflexivity.
Qed.

Lemma dp_sent_refused :
  match process_outbound [packet] dp_alice with
  | Done (out, _) => ShadowVpn.Example.refused (under (ob_to_peers out) (3, 7))
  | Panic => false
  end = true.
Proof. vm_compute. reflexivity. Qed.


(** Nothing is delivered that the tunnel does not open. *)
Lemma inbound_authorised_witness :
  exists received r dp', Tunnel.recv [packet] (tunnel dp_bob) = Done (received, tunnel dp') /\ process_inbound [packet] dp_bob = Done (r, dp') /\
    (packet ∈ under (ib_to_local r) 5 -> exists peer, packet ∈ queued (rr_to_local received) peer).
Proof.
  destruct (inbound_authorised routes_bob dp_bob [packet] bob_ok I) as (received & r & dp' & Er & Ep & _ & H).
  exists received, r, dp'. split_and!; [exact Er|exact Ep|]. intros Hp. apply H in Hp as (peer & Hp & _). by exists peer.
Defined.

Lemma outbound_routed_witness :
  exists batches sent r dp', outbound_batches dp_alice [packet] = Done batches /\ Tunnel.send batches (tunnel dp_alice) = Done (sent, tunnel dp') /\
    process_outbound [packet] dp_alice = Done (r, dp') /\ batches_of 7 batches = [packet].
Proof.
  destruct (outbound_routed routes_alice dp_alice [packet] alice_ok) as (batches & sent & r & dp' & Eb & Es & Ep & _ & Hr & _); [done|].
  exists batches, sent, r, dp'. split_and!; [exact Eb|exact Es|exact Ep|]. destruct (Hr 7) as [Hp _].
  rewrite filter_cons_True in Hp by apply packet_hops. by apply Permutation_singleton_r in Hp.
Defined.

(** [alice] with an event pending from time 10 to 20. *)
Definition dp_timer_pending : DataPlane Tunnel.Endpoint :=
  with_events dp_alice (Scheduler.add Scheduler.default_ (TimeRange.mk 10 20) SubTunnel).2 (Some (Scheduler.mkHandle 0)).

Lemma pending_ok : dp_ok routes_alice dp_timer_pending /\ armed dp_timer_pending (TimeRange.mk 10 20).
Proof.
  destruct (add_abs Scheduler.default_ (TimeRange.mk 10 20) SubTunnel Scheduler.default_inv ltac:(by unfold TimeRange.ok)) as (Hq & _ & _ & Ha).
  destruct (single_timer dp_alice _ _ _ Hq Ha ltac:(simpl; lia)) as [Ht Hr]. split; [|exact Hr]. destruct alice_ok. by split.
Qed.

Lemma events_in_time_witness :
  exists out dp' res, process_events 15 dp_timer_pending = Done (out, dp') /\
    Tunnel.dispatch_events 15 (tunnel dp_timer_pending) = Done (res, tunnel dp').
Proof.
  destruct (events_in_time routes_alice dp_timer_pending (TimeRange.mk 10 20) 15 (proj1 pending_ok) (proj2 pending_ok)) as (out & dp' & res & Ep & _ & Er & _);
    [simpl; lia|exact I|]. exists out, dp', res. split; [exact Ep|exact Er].
Defined.

End Concrete.
End DataPlaneProof.
