(* ===== verification/PeerDb.v ===== *)
(** * The peer database of the runtime (ts_runtime/src/peer_tracker/peer_db.rs, ts_control/src/node.rs)

    Peers by identifier, with one index per field that identifies a peer; the nodes are those
    of the control plane. *)

From S2P Require Import Prelude IpNet BartNode IpTrie RoutingTable SplitStackTable.
Import IpNet BartNode RoutingTable.

Module PeerDb.

Section Model.
Context `{HI : Ipnet}.

Abbreviation Table V := (SplitStackTable.SplitStackTable (Node V)).

(** ** Nodes *)

(** Timestamps are seconds. *)
Record NodeLastSeen : Type := mkLastSeen { control : option Z; estimated : Z }.

Inductive NodeStatus : Type :=
| Unknown
| Online
| Offline (last_seen : NodeLastSeen).

Record TailnetAddress : Type := mkAddress { ipv4 : IpNet; ipv6 : IpNet }.

Record PeerNode : Type := mkNode {
  node_id : Z;
  stable_id : string;
  hostname : string;
  capability_version : Z;
  status : NodeStatus;
  tailnet : option string;
  node_capabilities : gmap string (list string);
  tags : list string;
  tailnet_address : TailnetAddress;
  node_key : list byte;
  node_key_expiry : option Z;
  machine_key : option (list byte);
  disco_key : option (list byte);
  tailnet_lock_key_signature : option (list byte);
  accepted_routes : list IpNet;
  underlay_addresses : list (IpAddr * Z);
  derp_region : option Z;
}.

#[global] Instance NodeLastSeen_eq_dec : EqDecision NodeLastSeen.
Proof. solve_decision. Defined.
#[global] Instance NodeStatus_eq_dec : EqDecision NodeStatus.
Proof. solve_decision. Defined.
#[global] Instance TailnetAddress_eq_dec : EqDecision TailnetAddress.
Proof. solve_decision. Defined.
#[global] Instance PeerNode_eq_dec : EqDecision PeerNode.
Proof. solve_decision. Defined.

Record NodeUpdate : Type := mkUpdate {
  up_id : Z;
  up_status : NodeStatus;
  up_derp_region : option Z;
  up_cap : option Z;
  up_cap_map : option (gmap string (list string));
  up_node_key : option (list byte);
  up_node_key_expiry : option Z;
  up_disco_key : option (list byte);
  up_tailnet_lock_key_signature : option (list byte);
  up_underlay_addresses : option (list (IpAddr * Z));
}.

(** [if let Some(x) = update.x { self.x = Some(x) }] *)
Definition or_keep {A} (new old : option A) : option A := match new with Some _ => new | None => old end.

Definition apply_update (self : PeerNode) (update : NodeUpdate) : outcome PeerNode :=
  if decide (node_id self = up_id update) then
    Done (mkNode (node_id self) (stable_id self) (hostname self)
      (default (capability_version self) (up_cap update))
      (if decide (up_status update = Unknown) then status self else up_status update)
      (tailnet self)
      (default (node_capabilities self) (up_cap_map update))
      (tags self) (tailnet_address self)
      (default (node_key self) (up_node_key update))
      (or_keep (up_node_key_expiry update) (node_key_expiry self))
      (machine_key self)
      (or_keep (up_disco_key update) (disco_key self))
      (or_keep (up_tailnet_lock_key_signature update) (tailnet_lock_key_signature self))
      (accepted_routes self)
      (default (underlay_addresses self) (up_underlay_addresses update))
      (or_keep (up_derp_region update) (derp_region self)))
  else Panic.

(** [fqdn_opt(false)] *)
Definition fqdn_opt (self : PeerNode) : option string :=
  tailnet ← tailnet self; Some (hostname self +:+ "." +:+ tailnet).

(** ** The database *)

Record IndexState : Type := mkIndex {
  nk_idx : gmap (list byte) Z;
  disco_idx : gmap (list byte) Z;
  stableid_idx : gmap string Z;
  control_idx : gmap Z Z;
  name_idx : gmap string Z;
  ip_idx : Table Z;
  route_idx : Table (list Z);
}.

(** [next_id] is a [u32]. *)
Record PeerDb : Type := mkDb { peers : gmap Z PeerNode; index_state : IndexState; next_id : Z }.

Definition default_db : PeerDb := mkDb ∅ (mkIndex ∅ ∅ ∅ ∅ ∅ SplitStackTable.EMPTY SplitStackTable.EMPTY) 0.

Definition assert_ (b : bool) : outcome unit := if b then Done tt else Panic.

(** [removed.is_some_and(|x| x == id)] *)
Definition is_id (o : option Z) (id : Z) : bool := bool_decide (o = Some id).

(** [maybe_update], with the effects of [remove] and [insert] on the index. *)
Definition maybe_update {T Idx} `{EqDecision T} (new : PeerNode) (old : option PeerNode) (accessor : PeerNode -> T)
    (remove insert : PeerNode -> Idx -> outcome Idx) (idx : Idx) : outcome Idx :=
  match old with
  | Some old =>
      if decide (accessor old = accessor new) then Done idx
      else idx ← remove old idx; insert new idx
  | None => insert new idx
  end.

(** [idx.remove(k)] with the assertion on the identifier that was stored. *)
Definition remove_asserted {K} `{Countable K} (k : K) (id : Z) (idx : gmap K Z) : outcome (gmap K Z) :=
  _ ← assert_ (is_id (idx !! k) id); Done (delete k idx).

Definition maybe_update_idx {K} `{Countable K} (new : PeerNode) (old : option PeerNode) (accessor : PeerNode -> K)
    (new_id : Z) (idx : gmap K Z) : outcome (gmap K Z) :=
  maybe_update new old accessor
    (fun old idx => remove_asserted (accessor old) new_id idx)
    (fun new idx => Done (<[accessor new := new_id]> idx)) idx.

(** *** The closures of [upsert] *)

Definition disco_remove (id : Z) (old : PeerNode) (idx : gmap (list byte) Z) : outcome (gmap (list byte) Z) :=
  match disco_key old with Some k => remove_asserted k id idx | None => Done idx end.

Definition disco_insert (id : Z) (new : PeerNode) (idx : gmap (list byte) Z) : outcome (gmap (list byte) Z) :=
  Done (match disco_key new with Some k => <[k := id]> idx | None => idx end).

Definition drop_hostname (id : Z) (node : PeerNode) (idx : gmap string Z) : gmap string Z :=
  if is_id (idx !! hostname node) id then delete (hostname node) idx else idx.

Definition name_remove (id : Z) (old : PeerNode) (idx : gmap string Z) : outcome (gmap string Z) :=
  let idx := drop_hostname id old idx in
  match fqdn_opt old with Some fqdn => remove_asserted fqdn id idx | None => Done idx end.

Definition name_insert (id : Z) (new : PeerNode) (idx : gmap string Z) : outcome (gmap string Z) :=
  let idx := <[hostname new := id]> idx in
  Done (match fqdn_opt new with Some fqdn => <[fqdn := id]> idx | None => idx end).

Definition ip_remove (id : Z) (old : PeerNode) (idx : Table Z) : outcome (Table Z) :=
  '(id4, idx) ← rt_remove idx (ipv4 (tailnet_address old));
  '(id6, idx) ← rt_remove idx (ipv6 (tailnet_address old));
  _ ← assert_ (is_id id4 id);
  _ ← assert_ (is_id id6 id);
  Done idx.

Definition ip_insert (id : Z) (new : PeerNode) (idx : Table Z) : outcome (Table Z) :=
  '(_, idx) ← rt_insert idx (ipv4 (tailnet_address new)) id;
  '(_, idx) ← rt_insert idx (ipv6 (tailnet_address new)) id;
  Done idx.

(** The closure of [remove_route] on the identifiers of a route: the others stay. *)
Definition without_id (id : Z) (val : option (list Z)) : IpTrie.RouteModification (T := list Z) * option (list Z) :=
  match val with
  | Some val =>
      let kept := filter (fun x => x <> id) val in
      (if decide (kept = []) then IpTrie.Remove else IpTrie.Noop, Some kept)
  | None => (IpTrie.Noop, None)
  end.

(** The closure asserts that it found the identifier; it sees the value of the truncated
    route. *)
Definition remove_route (route : IpNet) (id : Z) (idx : Table (list Z)) : outcome (Table (list Z)) :=
  val ← (rt_lookup_prefix_exact idx (net_trunc route) : outcome (option (list Z)));
  _ ← assert_ (match val with Some val => bool_decide (id ∈ val) | None => true end);
  '(_, idx) ← rt_modify_impl idx route (without_id id);
  Done idx.

Fixpoint remove_routes (routes : list IpNet) (id : Z) (idx : Table (list Z)) : outcome (Table (list Z)) :=
  match routes with
  | [] => Done idx
  | route :: routes => idx ← remove_route route id idx; remove_routes routes id idx
  end.

Definition with_id (id : Z) (val : option (list Z)) : IpTrie.RouteModification (T := list Z) * option (list Z) :=
  match val with
  | Some val => (IpTrie.Noop, Some (val ++ [id]))
  | None => (IpTrie.Insert [id], None)
  end.

Fixpoint insert_routes (routes : list IpNet) (id : Z) (idx : Table (list Z)) : outcome (Table (list Z)) :=
  match routes with
  | [] => Done idx
  | route :: routes => '(_, idx) ← rt_modify_impl idx route (with_id id); insert_routes routes id idx
  end.

(** *** Operations *)

(** The identifier for a stable identifier: its own, or the next one. *)
Definition choose_id (self : PeerDb) (stable : string) : outcome (Z * Z) :=
  match stableid_idx (index_state self) !! stable with
  | Some id => Done (id, next_id self)
  | None => n ← add_w 32 (next_id self) 1; Done (next_id self, n)
  end.

(** The updates of the indexes. *)
Definition update_indexes (new : PeerNode) (old : option PeerNode) (id : Z) (s : IndexState) : outcome IndexState :=
  nk ← maybe_update_idx new old node_key id (nk_idx s);
  stable ← maybe_update_idx new old stable_id id (stableid_idx s);
  ctl ← maybe_update_idx new old node_id id (control_idx s);
  disco ← maybe_update new old disco_key (disco_remove id) (disco_insert id) (disco_idx s);
  name ← maybe_update new old (fun x => (hostname x, tailnet x)) (name_remove id) (name_insert id) (name_idx s);
  ip ← maybe_update new old tailnet_address (ip_remove id) (ip_insert id) (ip_idx s);
  route ← maybe_update new old accepted_routes
    (fun old => remove_routes (accepted_routes old) id) (fun new => insert_routes (accepted_routes new) id) (route_idx s);
  Done (mkIndex nk disco stable ctl name ip route).

Definition upsert (new : PeerNode) : ST PeerDb Z := fun self =>
  '(id, n) ← choose_id self (stable_id new);
  let old := peers self !! id in
  if decide (old = Some new) then Done (id, mkDb (peers self) (index_state self) n)
  else
    s ← update_indexes new old id (index_state self);
    Done (id, mkDb (<[id := new]> (peers self)) s n).

Definition patch (update : NodeUpdate) : ST PeerDb Z := fun self =>
  id ← unwrap (control_idx (index_state self) !! up_id update);
  peer ← unwrap (peers self !! id);
  let self := mkDb (delete id (peers self)) (index_state self) (next_id self) in
  peer ← apply_update peer update;
  upsert peer self.

(** [IndexState::remove] *)
Definition index_remove (id : Z) (node : PeerNode) (s : IndexState) : outcome IndexState :=
  '(_, ip) ← rt_remove (ip_idx s) (ipv4 (tailnet_address node));
  '(_, ip) ← rt_remove ip (ipv6 (tailnet_address node));
  let name := drop_hostname id node (name_idx s) in
  let name := match fqdn_opt node with Some fqdn => delete fqdn name | None => name end in
  route ← remove_routes (accepted_routes node) id (route_idx s);
  let disco := match disco_key node with Some k => delete k (disco_idx s) | None => disco_idx s end in
  Done (mkIndex (delete (node_key node) (nk_idx s)) disco (delete (stable_id node) (stableid_idx s))
          (delete (node_id node) (control_idx s)) name ip route).

(** [IndexedField]: the types a peer can be looked up by. *)
Inductive Field : Type :=
| ByPeerId (id : Z)
| ByNodeKey (key : list byte)
| ByDiscoKey (key : list byte)
| ByStableId (id : string)
| ByNodeId (id : Z)
| ByName (name : string)
| ByIp (ip : IpAddr).

Definition lookup (field : Field) (db : PeerDb) : outcome (option Z) :=
  let s := index_state db in
  match field with
  | ByPeerId id => Done (if decide (is_Some (peers db !! id)) then Some id else None)
  | ByNodeKey key => Done (nk_idx s !! key)
  | ByDiscoKey key => Done (disco_idx s !! key)
  | ByStableId id => Done (stableid_idx s !! id)
  | ByNodeId id => Done (control_idx s !! id)
  | ByName name => Done (name_idx s !! name)
  | ByIp ip => rt_lookup (ip_idx s) ip
  end.

Definition remove (field : Field) : ST PeerDb (option (Z * PeerNode)) := fun self =>
  o ← lookup field self;
  match o with
  | None => Done (None, self)
  | Some id =>
      match peers self !! id with
      | None => Done (None, self)
      | Some node =>
          s ← index_remove id node (index_state self);
          Done (Some (id, node), mkDb (delete id (peers self)) s (next_id self))
      end
  end.

Definition get (field : Field) (self : PeerDb) : outcome (option (Z * PeerNode)) :=
  o ← lookup field self;
  Done (id ← o; peer ← peers self !! id; Some (id, peer)).

(** The nodes of the identifiers; [unwrap] of each. *)
Fixpoint nodes_of (ps : gmap Z PeerNode) (ids : list Z) : outcome (list (Z * PeerNode)) :=
  match ids with
  | [] => Done []
  | id :: ids => node ← unwrap (ps !! id); rest ← nodes_of ps ids; Done ((id, node) :: rest)
  end.

Definition get_route (route : IpNet) (self : PeerDb) : outcome (list (Z * PeerNode)) :=
  o ← rt_lookup_prefix (route_idx (index_state self)) route;
  nodes_of (peers self) (default [] o).

(** [HashMap::retain] over the entries in the order [keys]; the closure also removes the
    entries it drops from the indexes. *)
Fixpoint retain_loop (keys : list Z) (predicate : Z -> PeerNode -> bool) (self : PeerDb) : outcome PeerDb :=
  match keys with
  | [] => Done self
  | id :: keys =>
      match peers self !! id with
      | None => retain_loop keys predicate self
      | Some node =>
          if predicate id node then retain_loop keys predicate self
          else
            s ← index_remove id node (index_state self);
            retain_loop keys predicate (mkDb (delete id (peers self)) s (next_id self))
      end
  end.

Definition retain `{HO : !HashOrder Z} (predicate : Z -> PeerNode -> bool) (self : PeerDb) : outcome PeerDb :=
  retain_loop (hash_keys (peers self)) predicate self.

End Model.
End PeerDb.
