(* ===== verification/PeerDbSpec.v ===== *)
(** * The indexes of the peer database

    The invariant that every index is the inverse of its field over the stored nodes, and the
    operations that keep it. *)

From S2P Require Import Prelude Bitset IpNet BartNode IpTrie IpTrieMod IpTrieLookup RoutingTable SplitStackTable BartTable PeerDb.
Import IpNet BartNode IpTrieMod IpTrieLookup RoutingTable BartTable PeerDb.

Module PeerDbSpec.

(** ** Indexes over maps *)

Section Index.
Context {K : Type} `{Countable K} {N : Type}.
Implicit Types (ps : gmap Z N) (idx : gmap K Z) (acc : N -> option K).

(** The index holds exactly the nodes' values of the field. *)
Definition index_of acc idx ps : Prop :=
  forall k id, idx !! k = Some id <-> exists n, ps !! id = Some n /\ acc n = Some k.

Definition drop_key (o : option K) idx : gmap K Z := match o with Some k => delete k idx | None => idx end.
Definition put_key (o : option K) (id : Z) idx : gmap K Z := match o with Some k => <[k := id]> idx | None => idx end.

(** No other node has the value. *)
Definition unused acc (id : Z) (o : option K) ps : Prop :=
  forall id' n, ps !! id' = Some n -> id' <> id -> is_Some o -> acc n <> o.

Lemma index_empty acc : index_of acc ∅ ∅.
Proof. intros k id. rewrite lookup_empty. split; [done|]. intros (n & Hn & _). by rewrite lookup_empty in Hn. Qed.

Lemma index_del acc idx ps id n :
  index_of acc idx ps -> ps !! id = Some n -> index_of acc (drop_key (acc n) idx) (delete id ps).
Proof.
  intros Hi Hn k j. unfold index_of in Hi. setoid_rewrite lookup_delete_Some. destruct (acc n) as [k0|] eqn:Ek; cbn [drop_key].
  - rewrite lookup_delete_Some, Hi. split.
    + intros (Hk & m & Hm & Hmk). exists m. split_and!; [|done..]. intros <-. congruence.
    + intros (m & [Hj Hm] & Hmk). split; [|eauto]. intros <-.
      assert (H1 : idx !! k0 = Some id) by (apply Hi; eauto). assert (H2 : idx !! k0 = Some j) by (apply Hi; eauto). congruence.
  - rewrite Hi. split; [|naive_solver]. intros (m & Hm & Hmk). exists m. split_and!; [|done..]. intros <-. congruence.
Qed.

Lemma index_put acc idx ps id new :
  index_of acc idx ps -> ps !! id = None -> unused acc id (acc new) ps ->
  index_of acc (put_key (acc new) id idx) (<[id := new]> ps).
Proof.
  intros Hi Hn Hu k j. unfold index_of in Hi. setoid_rewrite lookup_insert. destruct (acc new) as [k0|] eqn:Ek; cbn [put_key].
  - rewrite lookup_insert. destruct (decide (k0 = k)) as [->|Hk].
    + split; [intros [= <-]; exists new; by rewrite decide_True|]. intros (m & Hm & Hmk). case_decide as Hj; [congruence|].
      exfalso. by eapply (Hu j m).
    + rewrite Hi. f_equiv. intros m. case_decide as Hj; [|done]. subst j. rewrite Hn. naive_solver.
  - rewrite Hi. f_equiv. intros m. case_decide as Hj; [|done]. subst j. rewrite Hn. naive_solver.
Qed.

(** The same field value again. *)
Lemma index_same acc idx ps id old new :
  index_of acc idx ps -> ps !! id = Some old -> acc old = acc new -> index_of acc idx (<[id := new]> ps).
Proof.
  intros Hi Ho He k j. unfold index_of in Hi. rewrite Hi. setoid_rewrite lookup_insert. destruct (decide (id = j)) as [<-|Hj]; [|done].
  rewrite Ho. split; intros (m & [= <-] & Hk); eexists; (split; [done|]); congruence.
Qed.

Lemma unused_delete acc id o ps : unused acc id o ps -> unused acc id o (delete id ps).
Proof. intros Hu id' n [_ Hn]%lookup_delete_Some. by apply Hu. Qed.

(** Replacing a node. *)
Lemma index_replace acc idx ps id old new :
  index_of acc idx ps -> ps !! id = Some old -> unused acc id (acc new) ps ->
  index_of acc (put_key (acc new) id (drop_key (acc old) idx)) (<[id := new]> ps).
Proof.
  intros Hi Ho Hu. rewrite <- insert_delete_eq. apply index_put; [by apply index_del|by rewrite lookup_delete_eq|by apply unused_delete].
Qed.

End Index.

Section Fields.
Context `{HI : Ipnet} `{HL : !IpnetLaws}.
Implicit Types (ps : gmap Z PeerNode) (new : PeerNode).

(** [maybe_update] keeps what holds of the index after removal and insertion. *)
Lemma maybe_update_ok {T Idx} `{EqDecision T} (acc : PeerNode -> T) (rem ins : PeerNode -> Idx -> outcome Idx)
    (I : gmap Z PeerNode -> Idx -> Prop) ps id new idx :
  I ps idx ->
  (forall old, ps !! id = Some old -> acc old = acc new -> I (<[id := new]> ps) idx) ->
  (forall old, ps !! id = Some old -> exists idx', rem old idx = Done idx' /\ I (delete id ps) idx') ->
  (forall ps0 idx0, ps0 !! id = None -> (forall j n, ps0 !! j = Some n -> ps !! j = Some n) -> I ps0 idx0 ->
     exists idx', ins new idx0 = Done idx' /\ I (<[id := new]> ps0) idx') ->
  exists idx', maybe_update new (ps !! id) acc rem ins idx = Done idx' /\ I (<[id := new]> ps) idx'.
Proof.
  intros Hi Hsame Hrem Hins. unfold maybe_update. destruct (ps !! id) as [old|] eqn:Ho.
  - case_decide as He; [eauto|]. destruct (Hrem old eq_refl) as (idx1 & -> & H1). cbn [mbind outcome_bind].
    rewrite <- insert_delete_eq. apply Hins; [by rewrite lookup_delete_eq|by intros j n [_ ?]%lookup_delete_Some|done].
  - by apply Hins.
Qed.

Lemma remove_asserted_ok {K} `{Countable K} (k : K) id (idx : gmap K Z) :
  idx !! k = Some id -> remove_asserted k id idx = Done (delete k idx).
Proof. intros Hk. unfold remove_asserted, is_id. by rewrite Hk, bool_decide_eq_true_2. Qed.

Lemma unused_sub {K} (acc : PeerNode -> option K) id o ps ps0 :
  (forall j n, ps0 !! j = Some n -> ps !! j = Some n) -> unused acc id o ps -> unused acc id o ps0.
Proof. intros Hs Hu j n Hn. by apply Hu, Hs. Qed.

Lemma maybe_update_idx_ok {K} `{Countable K} (acc : PeerNode -> K) idx ps id new :
  index_of (fun n => Some (acc n)) idx ps -> unused (fun n => Some (acc n)) id (Some (acc new)) ps ->
  exists idx', maybe_update_idx new (ps !! id) acc id idx = Done idx' /\ index_of (fun n => Some (acc n)) idx' (<[id := new]> ps).
Proof.
  intros Hi Hu. unfold maybe_update_idx. apply (maybe_update_ok _ _ _ (fun ps idx => index_of (fun n => Some (acc n)) idx ps)); [done|..].
  - intros old Ho He. eapply index_same; [done..|]. by rewrite He.
  - intros old Ho. eexists. split; [apply remove_asserted_ok, Hi; eauto|]. by apply (index_del (fun n => Some (acc n)) idx ps id old).
  - intros ps0 idx0 Hn Hs H0. eexists. split; [done|].
    apply (index_put (fun n => Some (acc n)) idx0 ps0 id new); [done..|]. by eapply unused_sub.
Qed.

Lemma disco_ok idx ps id new :
  index_of disco_key idx ps -> unused disco_key id (disco_key new) ps ->
  exists idx', maybe_update new (ps !! id) disco_key (disco_remove id) (disco_insert id) idx = Done idx' /\ index_of disco_key idx' (<[id := new]> ps).
Proof.
  intros Hi Hu. apply (maybe_update_ok _ _ _ (fun ps idx => index_of disco_key idx ps)); [done|..].
  - intros old Ho He. by eapply index_same.
  - intros old Ho. pose proof (index_del disco_key idx ps id old Hi Ho) as Hd. unfold disco_remove.
    destruct (disco_key old) as [k|] eqn:Ek; [|eauto]. eexists. split; [apply remove_asserted_ok, Hi; eauto|exact Hd].
  - intros ps0 idx0 Hn Hs H0. eexists. split; [done|]. apply (index_put disco_key idx0 ps0 id new); [done..|]. by eapply unused_sub.
Qed.

(** ** Names *)

Definition dotless (s : string) : Prop := ~ exists a b, s = a +:+ "." +:+ b.

(** Every full name leads to its node, and every name to a node that has it. *)
Definition names_ok (idx : gmap string Z) ps : Prop :=
  (forall id n f, ps !! id = Some n -> fqdn_opt n = Some f -> idx !! f = Some id) /\
  (forall s id, idx !! s = Some id -> exists n, ps !! id = Some n /\ (hostname n = s \/ fqdn_opt n = Some s)).

Lemma fqdn_not_dotless n f s : fqdn_opt n = Some f -> dotless s -> f <> s.
Proof.
  unfold fqdn_opt. destruct (tailnet n) as [t|]; [|done]. intros [= <-] Hs <-. apply Hs. by eexists _, _.
Qed.

Lemma fqdn_same old new :
  (hostname old, tailnet old) = (hostname new, tailnet new) -> fqdn_opt old = fqdn_opt new /\ hostname old = hostname new.
Proof. intros [= Hh Ht]. unfold fqdn_opt. by rewrite Hh, Ht. Qed.

Lemma drop_hostname_lookup id n idx s :
  drop_hostname id n idx !! s = if decide (s = hostname n /\ idx !! s = Some id) then None else idx !! s.
Proof.
  unfold drop_hostname, is_id. destruct (decide (idx !! hostname n = Some id)) as [He|He].
  - rewrite bool_decide_eq_true_2 by done. rewrite lookup_delete. repeat case_decide; naive_solver.
  - rewrite bool_decide_eq_false_2 by done. rewrite decide_False by naive_solver. done.
Qed.

Lemma drop_hostname_other id n idx s x : drop_hostname id n idx !! s = Some x -> idx !! s = Some x /\ (s = hostname n -> x <> id).
Proof. rewrite drop_hostname_lookup. case_decide; [done|]. naive_solver. Qed.

(** Dropping a node's names. *)
Lemma names_del idx ps id n :
  names_ok idx ps -> ps !! id = Some n -> dotless (hostname n) ->
  (forall id' n' f, ps !! id' = Some n' -> id' <> id -> fqdn_opt n = Some f -> fqdn_opt n' <> Some f) ->
  names_ok (drop_key (fqdn_opt n) (drop_hostname id n idx)) (delete id ps).
Proof.
  intros [Ha Hb] Hn Hd Hu.
  assert (Hkeep : forall f' id', idx !! f' = Some id' -> id' <> id -> drop_hostname id n idx !! f' = Some id').
  { intros f' id' Hf Hne. rewrite drop_hostname_lookup, decide_False; [done|]. intros [_ He]. congruence. }
  split.
  - intros id' n' f' [Hne Hn']%lookup_delete_Some Hf'. pose proof (Hkeep f' id' (Ha id' n' f' Hn' Hf') ltac:(done)) as Hk.
    destruct (fqdn_opt n) as [f|] eqn:Ef; [|exact Hk]. cbn [drop_key]. rewrite lookup_delete_ne; [done|].
    intros <-. by apply (Hu id' n' f).
  - intros s x Hs. assert (Hs' : drop_hostname id n idx !! s = Some x /\ fqdn_opt n <> Some s).
    { destruct (fqdn_opt n) as [f|]; cbn [drop_key] in Hs; [|done]. apply lookup_delete_Some in Hs as [Hne Hs]. split; [done|congruence]. }
    destruct Hs' as [Hs' Hf]. apply drop_hostname_other in Hs' as [Hs' Hx]. destruct (Hb s x Hs') as (m & Hm & Hor).
    exists m. split; [|done]. apply lookup_delete_Some. split; [|done]. intros <-. assert (m = n) as -> by congruence.
    destruct Hor as [<-|Hor]; [by apply Hx|done].
Qed.

Lemma names_put idx ps id new :
  names_ok idx ps -> ps !! id = None -> dotless (hostname new) ->
  (forall id' n' f, ps !! id' = Some n' -> fqdn_opt new = Some f -> fqdn_opt n' <> Some f) ->
  (forall id' n', ps !! id' = Some n' -> dotless (hostname n')) ->
  names_ok (put_key (fqdn_opt new) id (<[hostname new := id]> idx)) (<[id := new]> ps).
Proof.
  intros [Ha Hb] Hn Hd Hu Hdots. split.
  - intros id' n' f [[<- <-]|[Hne Hn']]%lookup_insert_Some Hf; [rewrite Hf; apply lookup_insert_eq|].
    assert (Hk : <[hostname new := id]> idx !! f = Some id').
    { rewrite lookup_insert_ne; [by eapply Ha|]. intros He. by apply (fqdn_not_dotless n' f (hostname new)). }
    destruct (fqdn_opt new) as [f'|] eqn:Ef; [|exact Hk]. cbn [put_key]. rewrite lookup_insert_ne; [done|].
    intros ->. by apply (Hu id' n' f).
  - intros s x Hs. assert (Hor : (x = id /\ (hostname new = s \/ fqdn_opt new = Some s)) \/ idx !! s = Some x).
    { destruct (fqdn_opt new) as [f|]; cbn [put_key] in Hs.
      - apply lookup_insert_Some in Hs as [[<- <-]|[_ Hs]]; [by left; split; [|right]|].
        apply lookup_insert_Some in Hs as [[<- <-]|[_ Hs]]; [left; split; [|left]; done|by right].
      - apply lookup_insert_Some in Hs as [[<- <-]|[_ Hs]]; [left; split; [|left]; done|by right]. }
    destruct Hor as [[-> Hor]|Hs']; [exists new; by rewrite lookup_insert_eq|].
    destruct (Hb s x Hs') as (m & Hm & Hor). exists m. split; [|done]. rewrite lookup_insert_ne; [done|]. intros <-. congruence.
Qed.

(** No other node has the full name. *)
Definition fqdn_free (id : Z) new ps : Prop := unused fqdn_opt id (fqdn_opt new) ps.

Lemma names_update_ok idx ps id new :
  names_ok idx ps -> (forall id' n, ps !! id' = Some n -> dotless (hostname n)) -> dotless (hostname new) ->
  (forall i j m n f, ps !! i = Some m -> ps !! j = Some n -> fqdn_opt m = Some f -> fqdn_opt n = Some f -> i = j) ->
  fqdn_free id new ps ->
  exists idx', maybe_update new (ps !! id) (fun x => (hostname x, tailnet x)) (name_remove id) (name_insert id) idx = Done idx' /\
    names_ok idx' (<[id := new]> ps).
Proof.
  intros Hi Hdots Hd Huniq Hfree. apply (maybe_update_ok _ _ _ (fun ps idx => names_ok idx ps)); [done|..].
  - intros old Ho [Hf Hh]%fqdn_same. destruct Hi as [Ha Hb]. split.
    + intros id' n f [[<- <-]|[Hne Hn]]%lookup_insert_Some Hnf; [|by eapply Ha]. by eapply Ha; [|rewrite Hf].
    + intros s x Hs. destruct (Hb s x Hs) as (m & Hm & Hor). destruct (decide (id = x)) as [<-|Hne].
      * exists new. rewrite lookup_insert_eq. split; [done|]. assert (m = old) as -> by congruence. by rewrite <- Hf, <- Hh.
      * exists m. by rewrite lookup_insert_ne.
  - intros old Ho. pose proof (names_del idx ps id old Hi Ho (Hdots _ _ Ho)) as Hdel. unfold name_remove.
    destruct (fqdn_opt old) as [f|] eqn:Ef.
    + eexists. split; [apply remove_asserted_ok|]; [|apply Hdel; intros id' n' f' Hn' Hne [= <-] Hf'; apply Hne; by eapply Huniq].
      rewrite drop_hostname_lookup, decide_False; [by apply (proj1 Hi id old)|]. intros [He _].
      by apply (fqdn_not_dotless old f (hostname old)); [|apply (Hdots _ _ Ho)|].
    + eexists. split; [done|]. apply Hdel. done.
  - intros ps0 idx0 Hn Hs H0. eexists. split; [done|]. apply names_put; try done.
    + intros id' n' f Hn' Hf. assert (id' <> id) by congruence. rewrite <- Hf. eapply Hfree; [by apply Hs|done|by rewrite Hf].
    + intros id' n' Hn'. by eapply Hdots, Hs.
Qed.

(** ** Addresses *)

Abbreviation Table V := (SplitStackTable.SplitStackTable (Node V)).

Definition key4 (n : PeerNode) : list bool := key (ipv4 (tailnet_address n)).
Definition key6 (n : PeerNode) : list bool := key (ipv6 (tailnet_address n)).

(** [Ipv4Net] and [Ipv6Net]. *)
Definition typed (n : PeerNode) : Prop :=
  is_ipv4 (net_addr (ipv4 (tailnet_address n))) = true /\ is_ipv4 (net_addr (ipv6 (tailnet_address n))) = false.

Definition ips_in (M : Routes Z) ps : Prop :=
  index_of (fun n => Some (key4 n)) (routes4 M) ps /\ index_of (fun n => Some (key6 n)) (routes6 M) ps.

Definition ips_ok (idx : Table Z) ps : Prop := exists M, rt_repr idx M /\ ips_in M ps.

Lemma index_size {K} `{Countable K} (acc : PeerNode -> option K) idx ps : index_of acc idx ps -> (size idx <= size ps)%nat.
Proof.
  intros Hi. unfold index_of in Hi. rewrite <- (length_map_to_list idx), <- (length_map snd), <- (length_map_to_list ps), <- (length_map fst (map_to_list ps)).
  apply submseteq_length, NoDup_submseteq.
  - apply NoDup_fmap_2_strong; [|apply NoDup_map_to_list]. intros [k id] [k' id'] H1%elem_of_map_to_list H2%elem_of_map_to_list Heq.
    simpl in Heq. subst id'. apply Hi in H1 as (n & Hn & E1), H2 as (n' & Hn' & E2). congruence.
  - intros id ([k id'] & -> & Hk)%list_elem_of_fmap. apply elem_of_map_to_list, Hi in Hk as (n & Hn & _).
    apply list_elem_of_fmap. exists (id', n). split; [done|]. by apply elem_of_map_to_list.
Qed.

Lemma ips_size M ps : ips_in M ps -> rsize M <= 2 * Z.of_nat (size ps).
Proof. intros [H4%index_size H6%index_size]. unfold rsize. lia. Qed.

Lemma rset4 (M : Routes Z) p o : is_ipv4 (net_addr p) = true -> rset M p o = mkRoutes (partial_alter (fun _ => o) (key p) (routes4 M)) (routes6 M).
Proof. intros H. unfold rset. by rewrite H. Qed.

Lemma rset6 (M : Routes Z) p o : is_ipv4 (net_addr p) = false -> rset M p o = mkRoutes (routes4 M) (partial_alter (fun _ => o) (key p) (routes6 M)).
Proof. intros H. unfold rset. by rewrite H. Qed.

Lemma ip_drop idx ps id n :
  ips_ok idx ps -> ps !! id = Some n -> typed n ->
  exists idx1 idx2, rt_remove idx (ipv4 (tailnet_address n)) = Done (Some id, idx1) /\
    rt_remove idx1 (ipv6 (tailnet_address n)) = Done (Some id, idx2) /\ ips_ok idx2 (delete id ps).
Proof.
  intros (M & Hr & H4 & H6) Hn [T4 T6].
  destruct (rt_remove_spec idx M (ipv4 (tailnet_address n)) Hr) as (idx1 & E1 & Hr1). rewrite rset4 in Hr1 by done.
  destruct (rt_remove_spec idx1 _ (ipv6 (tailnet_address n)) Hr1) as (idx2 & E2 & Hr2). rewrite rset6 in Hr2 by done.
  exists idx1, idx2. rewrite E1, E2. unfold rget, sel. rewrite T4, T6. cbn [routes6].
  assert (K4 : routes4 M !! key4 n = Some id) by (apply H4; eauto). assert (K6 : routes6 M !! key6 n = Some id) by (apply H6; eauto).
  unfold key4, key6 in K4, K6. rewrite K4, K6. split_and!; [done..|]. eexists. split; [exact Hr2|]. split; cbn [routes4 routes6].
  - apply (index_del (fun n => Some (key4 n)) (routes4 M) ps id n H4 Hn).
  - apply (index_del (fun n => Some (key6 n)) (routes6 M) ps id n H6 Hn).
Qed.

Lemma ip_update_ok idx ps id new :
  ips_ok idx ps -> (forall j n, ps !! j = Some n -> typed n) -> typed new -> 2 * Z.of_nat (size ps) + 2 < U64 ->
  unused (fun n => Some (key4 n)) id (Some (key4 new)) ps -> unused (fun n => Some (key6 n)) id (Some (key6 new)) ps ->
  exists idx', maybe_update new (ps !! id) tailnet_address (ip_remove id) (ip_insert id) idx = Done idx' /\ ips_ok idx' (<[id := new]> ps).
Proof.
  intros Hi Hty Ht Hsz H4 H6. apply (maybe_update_ok _ _ _ (fun ps idx => ips_ok idx ps)); [done|..].
  - intros old Ho He. destruct Hi as (M & Hr & I4 & I6). exists M. split; [done|].
    split; (eapply index_same; [done..|]); unfold key4, key6; by rewrite He.
  - intros old Ho. destruct (ip_drop idx ps id old Hi Ho (Hty _ _ Ho)) as (idx1 & idx2 & E1 & E2 & H). exists idx2.
    unfold ip_remove. rewrite E1. cbn [mbind outcome_bind]. rewrite E2. cbn [mbind outcome_bind].
    unfold is_id. by rewrite bool_decide_eq_true_2.
  - intros ps0 idx0 Hn Hs (M & Hr & I4 & I6). destruct Ht as [T4 T6].
    assert (Hsub : (size ps0 <= size ps)%nat) by (apply map_subseteq_size, map_subseteq_spec; exact Hs).
    pose proof (ips_size M ps0 (conj I4 I6)) as Hb.
    destruct (rt_insert_spec idx0 M (ipv4 (tailnet_address new)) id Hr) as (idx1 & E1 & Hr1); [lia|].
    pose proof (rsize_set M (ipv4 (tailnet_address new)) (Some id)) as Hb1.
    destruct (rt_insert_spec idx1 _ (ipv6 (tailnet_address new)) id Hr1) as (idx2 & E2 & Hr2); [lia|].
    exists idx2. unfold ip_insert. rewrite E1. cbn [mbind outcome_bind]. rewrite E2. cbn [mbind outcome_bind]. split; [done|].
    eexists. split; [exact Hr2|]. rewrite (rset4 M), rset6 by done. split; cbn [routes4 routes6].
    + apply (index_put (fun n => Some (key4 n)) (routes4 M) ps0 id new); [done..|]. by eapply unused_sub.
    + apply (index_put (fun n => Some (key6 n)) (routes6 M) ps0 id new); [done..|]. by eapply unused_sub.
Qed.

(** ** Routes *)

(** A route by its family and bits. *)
Abbreviation Rkey := (bool * list bool)%type.
Definition rkey (r : IpNet) : Rkey := (is_ipv4 (net_addr r), key r).

Definition at_key {V} (M : Routes V) (k : Rkey) : option V := sel M (fst k) !! snd k.

Lemma at_rset {V} (M : Routes V) r o k : at_key (rset M r o) k = if decide (k = rkey r) then o else at_key M k.
Proof.
  unfold at_key, rset, rkey. destruct k as [fam b]. cbn [fst snd]. destruct (is_ipv4 (net_addr r)), fam; cbn [sel routes4 routes6];
    rewrite ?lookup_partial_alter; repeat case_decide; try done; congruence.
Qed.

(** The peers that accept a route. *)
Definition owners (M : Routes (list Z)) (k : Rkey) : list Z := default [] (at_key M k).

Definition no_empty (M : Routes (list Z)) : Prop := forall k l, at_key M k = Some l -> l <> [].

Lemma alter_size {V} (m : gmap (list bool) V) k (v : V) o :
  m !! k = Some v -> Z.of_nat (size (partial_alter (fun _ => o) k m)) <= Z.of_nat (size m).
Proof.
  intros Hk. destruct o as [w|]; [pose proof (size_put m k w) as H|pose proof (size_drop m k) as [H _]]; rewrite Hk in H; lia.
Qed.

Lemma rsize_keep {V} (M : Routes V) r v o : at_key M (rkey r) = Some v -> rsize (rset M r o) <= rsize M.
Proof.
  unfold at_key, rkey, rsize, rset. cbn [fst snd]. destruct (is_ipv4 (net_addr r)); cbn [sel routes4 routes6]; intros Hl;
    pose proof (alter_size _ _ _ o Hl); lia.
Qed.

Lemma remove_route_ok idx M r id :
  rt_repr idx M -> no_empty M -> rsize M + 1 < U64 -> id ∈ owners M (rkey r) ->
  exists idx' M', remove_route r id idx = Done idx' /\ rt_repr idx' M' /\ no_empty M' /\ rsize M' <= rsize M /\
    forall k, owners M' k = if decide (k = rkey r) then filter (fun x => x <> id) (owners M k) else owners M k.
Proof.
  intros Hr Hne Hsz Hin. unfold owners in Hin. destruct (at_key M (rkey r)) as [l|] eqn:El; [|by apply not_elem_of_nil in Hin].
  simpl in Hin. assert (Eg : rget M r = Some l) by exact El.
  assert (Eg' : rget M (net_trunc r) = Some l) by (unfold rget in *; by rewrite net_trunc_family, key_trunc).
  destruct (rt_modify_spec idx M r (without_id id) Hr Hsz) as (idx' & Em & Hr'). rewrite Eg in Hr'.
  exists idx'. eexists. unfold remove_route. rewrite (rt_exact_spec idx M) by (done || apply trunc_truncated). rewrite Eg'.
  cbn [mbind outcome_bind]. rewrite (bool_decide_eq_true_2 (id ∈ l) Hin). cbn [assert_ mbind outcome_bind]. rewrite Em. cbn [mbind outcome_bind].
  split; [done|]. split; [exact Hr'|]. unfold apply_mod, without_id in *. cbn [fst snd] in *. set (kept := filter _ l) in *.
  split_and!.
  - intros k v. destruct (decide (kept = [])) as [He|He]; cbn [snd]; rewrite at_rset; case_decide; try done; [apply Hne|by intros [= <-]|apply Hne].
  - by eapply rsize_keep.
  - intros k. unfold owners. destruct (decide (kept = [])) as [He|He]; cbn [snd]; rewrite at_rset; case_decide; subst; try done; rewrite El; cbn; [exact (eq_sym He)|done].
Qed.

Lemma remove_routes_ok rs idx M id :
  rt_repr idx M -> no_empty M -> rsize M + 1 < U64 -> NoDup (map rkey rs) -> (forall k, k ∈ map rkey rs -> id ∈ owners M k) ->
  exists idx' M', remove_routes rs id idx = Done idx' /\ rt_repr idx' M' /\ no_empty M' /\ rsize M' <= rsize M /\
    forall k, owners M' k = if decide (k ∈ map rkey rs) then filter (fun x => x <> id) (owners M k) else owners M k.
Proof.
  revert idx M. induction rs as [|r rs IH]; intros idx M Hr Hne Hsz Hnd Hin; cbn [remove_routes map].
  { exists idx, M. split_and!; [done..|]. intros k. by rewrite decide_False by apply not_elem_of_nil. }
  apply NoDup_cons in Hnd as [Hr0 Hnd].
  destruct (remove_route_ok idx M r id Hr Hne Hsz) as (idx1 & M1 & E1 & Hr1 & Hne1 & Hsz1 & Ho1); [apply Hin; apply list_elem_of_here|].
  destruct (IH idx1 M1 Hr1 Hne1) as (idx2 & M2 & E2 & Hr2 & Hne2 & Hsz2 & Ho2); [lia|done| |].
  { intros k Hk. rewrite Ho1, decide_False by (intros ->; done). apply Hin. by apply list_elem_of_further. }
  exists idx2, M2. rewrite E1. cbn [mbind outcome_bind]. split_and!; [done..|lia|]. intros k. rewrite Ho2, Ho1.
  destruct (decide (k = rkey r)) as [->|Hk].
  - rewrite decide_False by done. by rewrite decide_True by apply list_elem_of_here.
  - destruct (decide (k ∈ map rkey rs)) as [Hk'|Hk']; [by rewrite decide_True by (by apply list_elem_of_further)|].
    rewrite decide_False; [done|]. by intros [?|?]%elem_of_cons.
Qed.

Lemma insert_routes_ok rs idx M id :
  rt_repr idx M -> no_empty M -> rsize M + Z.of_nat (length rs) < U64 -> NoDup (map rkey rs) ->
  exists idx' M', insert_routes rs id idx = Done idx' /\ rt_repr idx' M' /\ no_empty M' /\
    forall k, owners M' k = if decide (k ∈ map rkey rs) then owners M k ++ [id] else owners M k.
Proof.
  revert idx M. induction rs as [|r rs IH]; intros idx M Hr Hne Hsz Hnd; cbn [insert_routes map].
  { exists idx, M. split_and!; [done..|]. intros k. by rewrite decide_False by apply not_elem_of_nil. }
  apply NoDup_cons in Hnd as [Hr0 Hnd]. cbn [length] in Hsz.
  destruct (rt_modify_spec idx M r (with_id id) Hr) as (idx1 & E1 & Hr1); [lia|].
  set (M1 := rset M r _) in Hr1. assert (HM1 : forall k, at_key M1 k = if decide (k = rkey r) then Some (owners M k ++ [id]) else at_key M k).
  { intros k. unfold M1. rewrite at_rset. case_decide as Hk; [|done]. subst k. unfold owners, rkey. change (at_key M _) with (rget M r).
    destruct (rget M r); done. }
  destruct (IH idx1 M1 Hr1) as (idx2 & M2 & E2 & Hr2 & Hne2 & Ho2).
  { intros k l. rewrite HM1. case_decide; [|apply Hne]. intros [= <-]. by destruct (owners M k). }
  { pose proof (rsize_set M r (snd (apply_mod (with_id id) (rget M r)))). unfold M1. lia. }
  { done. }
  exists idx2, M2. rewrite E1. cbn [mbind outcome_bind]. split_and!; [done..|]. intros k. rewrite Ho2.
  assert (Ho1 : owners M1 k = if decide (k = rkey r) then owners M k ++ [id] else owners M k).
  { unfold owners at 1. rewrite HM1. by case_decide. }
  rewrite Ho1. destruct (decide (k = rkey r)) as [->|Hk].
  - rewrite decide_False by done. by rewrite decide_True by apply list_elem_of_here.
  - destruct (decide (k ∈ map rkey rs)) as [Hk'|Hk']; [by rewrite decide_True by (by apply list_elem_of_further)|].
    rewrite decide_False; [done|]. by intros [?|?]%elem_of_cons.
Qed.

(** The table holds for every route the peers that accept it. *)
Definition routes_in (M : Routes (list Z)) ps : Prop :=
  no_empty M /\ (forall k, NoDup (owners M k)) /\
  (forall k id, id ∈ owners M k <-> exists n, ps !! id = Some n /\ k ∈ map rkey (accepted_routes n)).

Definition routes_ok (idx : Table (list Z)) ps : Prop := exists M, rt_repr idx M /\ routes_in M ps.

(** A node lists a route once. *)
Definition routes_once (n : PeerNode) : Prop := NoDup (map rkey (accepted_routes n)).

(** All routes of all nodes. *)
Definition all_routes ps : list Rkey := concat (map (fun p => map rkey (accepted_routes (snd p))) (map_to_list ps)).

Lemma keys_size {V} (M : Routes V) (l : list Rkey) : (forall k, is_Some (at_key M k) -> k ∈ l) -> rsize M <= Z.of_nat (length l).
Proof.
  intros Hk. set (d := map (fun p => (true, fst p)) (map_to_list (routes4 M)) ++ map (fun p => (false, fst p)) (map_to_list (routes6 M))).
  assert (Hd : length d = (size (routes4 M) + size (routes6 M))%nat) by (unfold d; by rewrite length_app, !length_map, !length_map_to_list).
  assert (Hle : (length d <= length l)%nat); [|unfold rsize; lia]. apply submseteq_length, NoDup_submseteq.
  - apply NoDup_app. split_and!.
    + rewrite <- (map_map fst (pair true)). apply NoDup_fmap_2; [by intros ?? [= ->]|apply NoDup_fst_map_to_list].
    + intros x (? & -> & _)%list_elem_of_fmap (? & ? & _)%list_elem_of_fmap. done.
    + rewrite <- (map_map fst (pair false)). apply NoDup_fmap_2; [by intros ?? [= ->]|apply NoDup_fst_map_to_list].
  - intros k [([b v] & -> & Hb)%list_elem_of_fmap|([b v] & -> & Hb)%list_elem_of_fmap]%elem_of_app; apply elem_of_map_to_list in Hb; apply Hk; by exists v.
Qed.

Lemma routes_size M ps : routes_in M ps -> rsize M <= Z.of_nat (length (all_routes ps)).
Proof.
  intros (Hne & _ & Hin). apply keys_size. intros k [l Hl]. destruct l as [|id l]; [by destruct (Hne _ _ Hl)|].
  destruct (proj1 (Hin k id)) as (n & Hn & Hk); [unfold owners; rewrite Hl; apply list_elem_of_here|].
  unfold all_routes. rewrite list_elem_of_In, in_concat. exists (map rkey (accepted_routes n)). split; [|by apply list_elem_of_In].
  apply list_elem_of_In, list_elem_of_fmap. exists (id, n). split; [done|]. by apply elem_of_map_to_list.
Qed.

(** The number of routes of all nodes. *)
Definition routes_total ps : nat := sum_list_with (fun p => length (accepted_routes (snd p))) (map_to_list ps).

Lemma all_routes_length ps : length (all_routes ps) = routes_total ps.
Proof. unfold all_routes, routes_total. induction (map_to_list ps) as [|[id n] l IH]; [done|]. cbn. by rewrite length_app, length_map, IH. Qed.

Lemma routes_total_sub ps0 ps : ps0 ⊆ ps -> (routes_total ps0 <= routes_total ps)%nat.
Proof.
  intros Hs%map_to_list_submseteq. apply submseteq_Permutation in Hs as [k Hk]. unfold routes_total. rewrite Hk, sum_list_with_app. lia.
Qed.

Lemma routes_del idx ps id n :
  routes_ok idx ps -> ps !! id = Some n -> routes_once n -> Z.of_nat (routes_total ps) + 1 < U64 ->
  exists idx', remove_routes (accepted_routes n) id idx = Done idx' /\ routes_ok idx' (delete id ps).
Proof.
  intros (M & Hr & Hin) Hn Honce Hsz. pose proof (routes_size M ps Hin) as Hb. rewrite all_routes_length in Hb. destruct Hin as (Hne & Hnd & Hin).
  destruct (remove_routes_ok (accepted_routes n) idx M id Hr Hne) as (idx' & M' & E & Hr' & Hne' & _ & Ho); [lia|done|intros k Hk; apply Hin; eauto|].
  exists idx'. split; [done|]. exists M'. split; [done|]. split_and!; [done|..].
  - intros k. rewrite Ho. case_decide; [by apply NoDup_filter|done].
  - intros k j. rewrite Ho. setoid_rewrite lookup_delete_Some. case_decide as Hk.
    + rewrite list_elem_of_filter, Hin. naive_solver.
    + rewrite Hin. split; [|naive_solver]. intros (m & Hm & Hmk). exists m. split_and!; [|done..]. intros <-. congruence.
Qed.

Lemma routes_put idx ps id new :
  routes_ok idx ps -> ps !! id = None -> routes_once new -> Z.of_nat (routes_total ps + length (accepted_routes new)) < U64 ->
  exists idx', insert_routes (accepted_routes new) id idx = Done idx' /\ routes_ok idx' (<[id := new]> ps).
Proof.
  intros (M & Hr & Hin) Hn Honce Hsz. pose proof (routes_size M ps Hin) as Hb. rewrite all_routes_length in Hb. destruct Hin as (Hne & Hnd & Hin).
  destruct (insert_routes_ok (accepted_routes new) idx M id Hr Hne) as (idx' & M' & E & Hr' & Hne' & Ho); [lia|done|].
  assert (Hid : forall k, id ∉ owners M k) by (intros k (m & Hm & _)%Hin; congruence).
  exists idx'. split; [done|]. exists M'. split; [done|]. split_and!; [done|..].
  - intros k. rewrite Ho. case_decide; [|done]. apply NoDup_app. split_and!; [done| |apply NoDup_singleton].
    intros x Hx ->%list_elem_of_singleton. by apply (Hid k).
  - intros k j. rewrite Ho. setoid_rewrite lookup_insert_Some. case_decide as Hk.
    + rewrite elem_of_app, list_elem_of_singleton, Hin. split; [|naive_solver]. intros [(m & Hm & Hmk)| ->]; [|naive_solver].
      exists m. split; [|done]. right. split; [|done]. intros <-. congruence.
    + rewrite Hin. split; [|naive_solver]. intros (m & Hm & Hmk). exists m. split; [|done]. right. split; [|done]. intros <-. congruence.
Qed.

Lemma routes_update_ok idx ps id new :
  routes_ok idx ps -> (forall j n, ps !! j = Some n -> routes_once n) -> routes_once new ->
  Z.of_nat (routes_total ps + length (accepted_routes new)) + 1 < U64 ->
  exists idx', maybe_update new (ps !! id) accepted_routes (fun old => remove_routes (accepted_routes old) id)
      (fun new => insert_routes (accepted_routes new) id) idx = Done idx' /\ routes_ok idx' (<[id := new]> ps).
Proof.
  intros Hi Honce Hnew Hsz. apply (maybe_update_ok _ _ _ (fun ps idx => routes_ok idx ps)); [done|..].
  - intros old Ho He. destruct Hi as (M & Hr & Hne & Hnd & Hin). exists M. split; [done|]. split_and!; [done..|].
    intros k j. rewrite Hin. setoid_rewrite lookup_insert. destruct (decide (id = j)) as [<-|Hj]; [|done].
    rewrite Ho. split; intros (m & [= <-] & Hk); eexists; (split; [done|]); congruence.
  - intros old Ho. apply routes_del; try done; [by eapply Honce|lia].
  - intros ps0 idx0 Hn Hs H0. pose proof (routes_total_sub ps0 ps (proj2 (map_subseteq_spec ps0 ps) Hs)). apply routes_put; try done. lia.
Qed.

End Fields.

(** ** The database *)

Section Db.
Context `{HI : Ipnet} `{HL : !IpnetLaws}.
Implicit Types (db : PeerDb) (new : PeerNode).

(** A node as the control plane sends it: a hostname without dots, addresses of the right
    family, no route twice. *)
Record node_ok new : Prop := {
  no_dot : dotless (hostname new);
  no_typed : typed new;
  no_once : routes_once new;
}.

Record indexed (s : IndexState) (ps : gmap Z PeerNode) : Prop := {
  ix_nk : index_of (fun n => Some (node_key n)) (nk_idx s) ps;
  ix_stable : index_of (fun n => Some (stable_id n)) (stableid_idx s) ps;
  ix_control : index_of (fun n => Some (node_id n)) (control_idx s) ps;
  ix_disco : index_of disco_key (disco_idx s) ps;
  ix_names : names_ok (name_idx s) ps;
  ix_ips : ips_ok (ip_idx s) ps;
  ix_routes : routes_ok (route_idx s) ps;
}.

(** Full names are not shared. *)
Definition fqdns_distinct (ps : gmap Z PeerNode) : Prop :=
  forall i j m n f, ps !! i = Some m -> ps !! j = Some n -> fqdn_opt m = Some f -> fqdn_opt n = Some f -> i = j.

Record wf db : Prop := {
  wf_indexed : indexed (index_state db) (peers db);
  wf_nodes id n : peers db !! id = Some n -> node_ok n /\ 0 <= id < next_id db;
  wf_fqdns : fqdns_distinct (peers db);
  wf_next : 0 <= next_id db <= U32;
  wf_room : Z.of_nat (routes_total (peers db)) + 1 < U64;
}.

Lemma count_le (ps : gmap Z PeerNode) (n : Z) : 0 <= n -> (forall id x, ps !! id = Some x -> 0 <= id < n) -> Z.of_nat (size ps) <= n.
Proof.
  intros Hn Hr. rewrite <- (length_map_to_list ps), <- (length_map fst).
  assert (Hle : (length (map fst (map_to_list ps)) <= length (seqZ 0 n))%nat).
  { apply submseteq_length, NoDup_submseteq; [apply NoDup_fst_map_to_list|]. intros id ([id' x] & -> & Hx)%list_elem_of_fmap.
    apply elem_of_map_to_list, Hr in Hx. apply elem_of_seqZ. simpl. lia. }
  rewrite length_seqZ in Hle. lia.
Qed.

Lemma db_default_wf : wf default_db.
Proof.
  split; cbn [index_state peers next_id default_db]; [|done|done|done|].
  - split; cbn [nk_idx stableid_idx control_idx disco_idx name_idx ip_idx route_idx]; try apply index_empty; [done|exists no_routes; split; [apply split_empty|split; apply index_empty]|].
    exists no_routes. split; [apply split_empty|]. split_and!.
    + intros [[] k] l; by unfold at_key.
    + intros [[] k]; apply NoDup_nil_2.
    + intros [[] k] id; (split; [by intros ?%not_elem_of_nil|intros (n & Hn & _); by rewrite lookup_empty in Hn]).
  - done.
Qed.

(** The new node shares no identifying field with a node of another stable identifier. *)
Definition fits new db : Prop :=
  forall j n, peers db !! j = Some n -> stable_id n <> stable_id new ->
    node_key n <> node_key new /\ node_id n <> node_id new /\ (is_Some (disco_key new) -> disco_key n <> disco_key new) /\
    (is_Some (fqdn_opt new) -> fqdn_opt n <> fqdn_opt new) /\ key4 n <> key4 new /\ key6 n <> key6 new.

(** The identifier the node gets. *)
Definition id_of db new : Z := default (next_id db) (stableid_idx (index_state db) !! stable_id new).

Lemma other_stable db new j n : wf db -> peers db !! j = Some n -> j <> id_of db new -> stable_id n <> stable_id new.
Proof.
  intros Hw Hn Hj He. apply Hj. assert (Hs : stableid_idx (index_state db) !! stable_id new = Some j).
  { apply (ix_stable _ _ (wf_indexed db Hw)). exists n. by rewrite He. }
  unfold id_of. by rewrite Hs.
Qed.

Lemma fits_unused {K} (acc : PeerNode -> option K) db new :
  wf db -> (forall j n, peers db !! j = Some n -> stable_id n <> stable_id new -> is_Some (acc new) -> acc n <> acc new) ->
  unused acc (id_of db new) (acc new) (peers db).
Proof. intros Hw Hf j n Hn Hj Hs. eapply Hf; [done| |done]. by eapply other_stable. Qed.

Lemma routes_total_insert (ps : gmap Z PeerNode) id new : (routes_total (<[id := new]> ps) <= routes_total ps + length (accepted_routes new))%nat.
Proof.
  rewrite <- insert_delete_eq. unfold routes_total at 1. rewrite map_to_list_insert by apply lookup_delete_eq. cbn [sum_list_with].
  pose proof (routes_total_sub (delete id ps) ps (delete_subseteq _ _)) as H. unfold routes_total in *. cbn [snd]. lia.
Qed.

Lemma update_indexes_ok db new :
  wf db -> node_ok new -> fits new db -> Z.of_nat (routes_total (peers db) + length (accepted_routes new)) + 1 < U64 ->
  exists s, update_indexes new (peers db !! id_of db new) (id_of db new) (index_state db) = Done s /\ indexed s (<[id_of db new := new]> (peers db)).
Proof.
  intros Hw [N1 N2 N3] Hf Hsz. pose proof (wf_indexed db Hw) as [I1 I2 I3 I4 I5 I6 I7]. set (id := id_of db new). set (ps := peers db) in *.
  assert (Hnode : forall j n, ps !! j = Some n -> node_ok n) by (intros j n Hn; by apply (wf_nodes db Hw j)).
  assert (Hcount : Z.of_nat (size ps) <= U32).
  { pose proof (wf_next db Hw). etrans; [apply (count_le ps (next_id db)); [lia|]|lia]. intros j n Hn. by apply (wf_nodes db Hw j n). }
  destruct (maybe_update_idx_ok node_key (nk_idx (index_state db)) ps id new I1) as (s1 & E1 & H1).
  { apply (fits_unused (fun n => Some (node_key n))); [done|]. intros j n Hn Hs _ [= He]. destruct (Hf j n Hn Hs) as (? & ? & ? & ? & ? & ?); auto. }
  destruct (maybe_update_idx_ok stable_id (stableid_idx (index_state db)) ps id new I2) as (s2 & E2 & H2).
  { apply (fits_unused (fun n => Some (stable_id n))); [done|]. intros j n Hn Hs _. congruence. }
  destruct (maybe_update_idx_ok node_id (control_idx (index_state db)) ps id new I3) as (s3 & E3 & H3).
  { apply (fits_unused (fun n => Some (node_id n))); [done|]. intros j n Hn Hs _ [= He]. destruct (Hf j n Hn Hs) as (? & ? & ? & ? & ? & ?); auto. }
  destruct (disco_ok (disco_idx (index_state db)) ps id new I4) as (s4 & E4 & H4).
  { apply fits_unused; [done|]. intros j n Hn Hs. destruct (Hf j n Hn Hs) as (? & ? & ? & ? & ? & ?); auto. }
  destruct (names_update_ok (name_idx (index_state db)) ps id new I5) as (s5 & E5 & H5).
  { intros j n Hn. by apply (Hnode j). }
  { done. }
  { apply (wf_fqdns db Hw). }
  { apply (fits_unused fqdn_opt); [done|]. intros j n Hn Hs. destruct (Hf j n Hn Hs) as (? & ? & ? & ? & ? & ?); auto. }
  destruct (ip_update_ok (ip_idx (index_state db)) ps id new I6) as (s6 & E6 & H6).
  { intros j n Hn. by apply (Hnode j). }
  { done. }
  { unfold U32, U64 in *. lia. }
  { apply (fits_unused (fun n => Some (key4 n))); [done|]. intros j n Hn Hs _ [= He]. destruct (Hf j n Hn Hs) as (? & ? & ? & ? & ? & ?); auto. }
  { apply (fits_unused (fun n => Some (key6 n))); [done|]. intros j n Hn Hs _ [= He]. destruct (Hf j n Hn Hs) as (? & ? & ? & ? & ? & ?); auto. }
  destruct (routes_update_ok (route_idx (index_state db)) ps id new I7) as (s7 & E7 & H7).
  { intros j n Hn. by apply (Hnode j). }
  { done. }
  { done. }
  eexists. unfold update_indexes. rewrite E1, E2, E3, E4, E5, E6, E7. cbn [mbind outcome_bind]. split; [done|]. by split.
Qed.

Lemma choose_id_ok db new :
  wf db -> next_id db + 1 < U32 ->
  exists n, choose_id db (stable_id new) = Done (id_of db new, n) /\ next_id db <= n <= U32 /\ 0 <= id_of db new < n.
Proof.
  intros Hw Hn. pose proof (wf_next db Hw) as Hx. unfold choose_id, id_of. destruct (stableid_idx (index_state db) !! stable_id new) as [id|] eqn:Es.
  - exists (next_id db). split; [done|]. apply (ix_stable _ _ (wf_indexed db Hw)) in Es as (m & Hm & _).
    destruct (wf_nodes db Hw id m Hm) as [_ Hid]. simpl. lia.
  - unfold add_w. rewrite (proj2 (Z.ltb_lt _ _)) by (unfold U32 in *; lia). eexists. split; [done|]. simpl. lia.
Qed.

Lemma upsert_ok db new :
  wf db -> node_ok new -> fits new db -> next_id db + 1 < U32 -> Z.of_nat (routes_total (peers db) + length (accepted_routes new)) + 1 < U64 ->
  exists db', upsert new db = Done (id_of db new, db') /\ wf db' /\ peers db' = <[id_of db new := new]> (peers db) /\ next_id db <= next_id db' <= next_id db + 1.
Proof.
  intros Hw Hok Hf Hn Hsz. destruct (choose_id_ok db new Hw Hn) as (n & Ec & Hnn & Hid).
  assert (Hn1 : n <= next_id db + 1).
  { unfold choose_id in Ec. destruct (stableid_idx (index_state db) !! stable_id new); [injection Ec as _ <-; lia|].
    unfold add_w in Ec. case_match; [|done]. injection Ec as _ <-. lia. }
  unfold upsert. rewrite Ec. cbn [mbind outcome_bind]. case_decide as Ho.
  - eexists. split; [done|]. cbn [peers next_id]. split_and!; [|by rewrite insert_id|lia..].
    destruct Hw as [W1 W2 W3 W4 W5]. split; cbn [peers next_id index_state]; try done; [|lia].
    intros id' m Hm. destruct (W2 id' m Hm) as [? ?]. split; [done|lia].
  - destruct (update_indexes_ok db new Hw Hok Hf Hsz) as (s & -> & Hs). cbn [mbind outcome_bind]. eexists. split; [done|]. cbn [peers next_id].
    split_and!; [|done|lia..]. split; cbn [peers next_id index_state].
    + done.
    + intros id' m [[<- <-]|[_ Hm]]%lookup_insert_Some; [split; [done|lia]|]. destruct (wf_nodes db Hw id' m Hm). split; [done|lia].
    + intros i j m m' f Hm Hm' Hmf Hmf'. destruct (decide (i = j)) as [|Hij]; [done|].
      assert (Hnew : forall k x, k <> id_of db new -> peers db !! k = Some x -> fqdn_opt x = Some f -> fqdn_opt new = Some f -> False).
      { intros k x Hk Hx Hxf Hnf. destruct (Hf k x Hx (other_stable db new k x Hw Hx Hk)) as (_ & _ & _ & H & _). rewrite Hnf in H. by apply H. }
      apply lookup_insert_Some in Hm as [[<- <-]|[Hi Hm]], Hm' as [[<- <-]|[Hj Hm']]; try done.
      * by destruct (Hnew j m').
      * by destruct (Hnew i m).
      * by eapply (wf_fqdns db Hw).
    + pose proof (wf_next db Hw). lia.
    + pose proof (routes_total_insert (peers db) (id_of db new) new). lia.
Qed.

(** ** Removal *)

Lemma index_remove_ok s ps id n :
  indexed s ps -> ps !! id = Some n -> (forall j m, ps !! j = Some m -> node_ok m) -> fqdns_distinct ps -> Z.of_nat (routes_total ps) + 1 < U64 ->
  exists s', index_remove id n s = Done s' /\ indexed s' (delete id ps).
Proof.
  intros [I1 I2 I3 I4 I5 I6 I7] Hn Hok Hdis Hsz. destruct (Hok id n Hn) as [N1 N2 N3].
  destruct (ip_drop (ip_idx s) ps id n I6 Hn N2) as (ip1 & ip2 & E1 & E2 & H6).
  destruct (routes_del (route_idx s) ps id n I7 Hn N3 Hsz) as (rt & E7 & H7).
  eexists. unfold index_remove. rewrite E1. cbn [mbind outcome_bind]. rewrite E2. cbn [mbind outcome_bind]. rewrite E7. cbn [mbind outcome_bind].
  split; [done|]. split; cbn [nk_idx stableid_idx control_idx disco_idx name_idx ip_idx route_idx]; try done.
  - by apply (index_del (fun n => Some (node_key n)) _ ps id n).
  - by apply (index_del (fun n => Some (stable_id n)) _ ps id n).
  - by apply (index_del (fun n => Some (node_id n)) _ ps id n).
  - by apply (index_del disco_key _ ps id n).
  - apply (names_del (name_idx s) ps id n I5 Hn N1). intros id' n' f Hn' Hne Hf Hf'. apply Hne. by eapply Hdis.
Qed.

Lemma delete_wf db id n :
  wf db -> peers db !! id = Some n ->
  exists s, index_remove id n (index_state db) = Done s /\ wf (mkDb (delete id (peers db)) s (next_id db)).
Proof.
  intros [W1 W2 W3 W4 W5] Hn. destruct (index_remove_ok (index_state db) (peers db) id n W1 Hn) as (s & E & Hs); [|done..|].
  { intros j m Hm. by apply (W2 j m). }
  exists s. split; [done|]. split; cbn [peers next_id index_state]; try done.
  - intros j m [_ Hm]%lookup_delete_Some. by apply W2.
  - intros i j m m' f [_ Hm]%lookup_delete_Some [_ Hm']%lookup_delete_Some. by apply W3.
  - pose proof (routes_total_sub (delete id (peers db)) (peers db) (delete_subseteq _ _)). lia.
Qed.

End Db.
End PeerDbSpec.
