(* ===== verification/PeerDbProof.v ===== *)
(** * The peer database: main theorem

    Any sequence of insertions, updates and removals of nodes with distinct fields leaves every
    index consistent with the nodes; patches do not. *)

From S2P Require Import Prelude Bitset IpNet BartNode IpTrie RoutingTable SplitStackTable BartTable PeerDb PeerDbSpec.
Import IpNet BartNode RoutingTable BartTable PeerDb PeerDbSpec.

Module PeerDbProof.

Section Lookup.
Context `{HI : Ipnet} `{HL : !IpnetLaws}.
Implicit Types db : PeerDb.

(** The node has the field. *)
Definition has_field (field : Field) (id : Z) (n : PeerNode) : Prop :=
  match field with
  | ByPeerId i => i = id
  | ByNodeKey k => node_key n = k
  | ByDiscoKey k => disco_key n = Some k
  | ByStableId s => stable_id n = s
  | ByNodeId i => node_id n = i
  | ByName s => hostname n = s \/ fqdn_opt n = Some s
  | ByIp ip => net_contains (ipv4 (tailnet_address n)) ip = true \/ net_contains (ipv6 (tailnet_address n)) ip = true
  end.

(** The field names the node unambiguously: hostnames may be shared, and of addresses only
    whole ones. *)
Definition identifies (field : Field) (n : PeerNode) : Prop :=
  match field with
  | ByName s => fqdn_opt n = Some s
  | ByIp ip => (key4 n = addr_bits ip /\ is_ipv4 ip = true) \/ (key6 n = addr_bits ip /\ is_ipv4 ip = false)
  | _ => True
  end.

Definition field_ok (field : Field) : Prop := match field with ByIp ip => addr_ok ip | _ => True end.

Lemma whole_address (M : Routes Z) ip v : sel M (is_ipv4 ip) !! addr_bits ip = Some v -> head (rmatches M ip) = Some v.
Proof.
  intros Hv. apply matches_head. exists (length (addr_bits ip)). rewrite take_ge by lia. split_and!; [lia|done|lia].
Qed.

Lemma ip_lookup_ok M (ps : gmap Z PeerNode) ip :
  ips_in M ps -> (forall j n, ps !! j = Some n -> typed n) -> addr_ok ip ->
  (forall id, head (rmatches M ip) = Some id -> exists n, ps !! id = Some n /\ has_field (ByIp ip) id n) /\
  (forall id n, ps !! id = Some n -> identifies (ByIp ip) n -> head (rmatches M ip) = Some id).
Proof.
  intros [I4 I6] Hty Ha. split.
  - intros id Hh. pose proof (head_longest M ip Ha) as Hl. rewrite Hh in Hl. destruct Hl as (p & Hc & Hp & _).
    apply net_contains_spec in Hc as [Hf Hk]; [|done]. unfold rget, sel in Hp. destruct (is_ipv4 (net_addr p)) eqn:Ep.
    + apply I4 in Hp as (n & Hn & [= Hkn]). exists n. split; [done|]. left. apply net_contains_spec; [done|]. destruct (Hty id n Hn) as [T4 _].
      unfold key4 in Hkn. rewrite T4, Hf. split; [done|]. rewrite Hkn, Hk. f_equal. rewrite <- !key_length. congruence.
    + apply I6 in Hp as (n & Hn & [= Hkn]). exists n. split; [done|]. right. apply net_contains_spec; [done|]. destruct (Hty id n Hn) as [_ T6].
      unfold key6 in Hkn. rewrite T6, Hf. split; [done|]. rewrite Hkn, Hk. f_equal. rewrite <- !key_length. congruence.
  - intros id n Hn [[Hk Hf]|[Hk Hf]]; apply whole_address; rewrite Hf, <- Hk; [apply I4|apply I6]; eauto.
Qed.

Lemma lookup_ok db field :
  wf db -> field_ok field ->
  exists o, lookup field db = Done o /\ (forall id, o = Some id -> exists n, peers db !! id = Some n /\ has_field field id n) /\
    (forall id n, peers db !! id = Some n -> has_field field id n -> identifies field n -> o = Some id).
Proof.
  intros Hw Hf. pose proof (wf_indexed db Hw) as [I1 I2 I3 I4 I5 I6 I7]. unfold index_of in *.
  destruct field as [i|k|k|s|i|s|ip]; cbn [lookup]; (eexists; split; [done|]) || idtac.
  - split; [intros id; case_decide as Hi; [|done]; intros [= <-]; destruct Hi as [n Hn]; by exists n|].
    intros id n Hn -> _. rewrite decide_True by (by rewrite Hn). done.
  - split; [intros id (n & Hn & [= Hk])%I1; by exists n|]. intros id n Hn Hk _. apply I1. exists n. cbn in Hk. by rewrite Hk.
  - split; [intros id (n & Hn & Hk)%I4; by exists n|]. intros id n Hn Hk _. apply I4. by exists n.
  - split; [intros id (n & Hn & [= Hk])%I2; by exists n|]. intros id n Hn Hk _. apply I2. exists n. cbn in Hk. by rewrite Hk.
  - split; [intros id (n & Hn & [= Hk])%I3; by exists n|]. intros id n Hn Hk _. apply I3. exists n. cbn in Hk. by rewrite Hk.
  - destruct I5 as [Ha Hb]. split; [intros id Hs; by apply Hb|]. intros id n Hn _ Hi. by eapply Ha.
  - destruct I6 as (M & Hr & Hin). exists (head (rmatches M ip)). rewrite (rt_lookup_spec _ M) by done. split; [done|].
    destruct (ip_lookup_ok M (peers db) ip Hin) as [H1 H2]; [intros j n Hn; by apply (wf_nodes db Hw j)|done|]. split; [done|]. eauto.
Qed.

(** ** Removal *)

Lemma remove_ok db field :
  wf db -> field_ok field ->
  exists o db', remove field db = Done (o, db') /\ wf db' /\ next_id db' = next_id db /\
    match o with
    | Some (id, n) => peers db !! id = Some n /\ has_field field id n /\ peers db' = delete id (peers db)
    | None => db' = db /\ forall id n, peers db !! id = Some n -> has_field field id n -> ~ identifies field n
    end.
Proof.
  intros Hw Hf. destruct (lookup_ok db field Hw Hf) as (o & El & Hs & Hc). unfold remove. rewrite El. cbn [mbind outcome_bind].
  destruct o as [id|].
  - destruct (Hs id eq_refl) as (n & Hn & Hh). rewrite Hn. destruct (delete_wf db id n Hw Hn) as (s & E & Hw'). rewrite E. cbn [mbind outcome_bind].
    by eexists _, _.
  - exists None, db. split_and!; try done. intros id n Hn Hh Hi. by specialize (Hc id n Hn Hh Hi).
Qed.

Lemma retain_loop_ok keys pred db :
  wf db -> NoDup keys ->
  exists db', retain_loop keys pred db = Done db' /\ wf db' /\ next_id db' = next_id db /\
    forall id n, peers db' !! id = Some n <-> peers db !! id = Some n /\ (id ∈ keys -> pred id n = true).
Proof.
  intros Hw Hnd. revert db Hw. induction Hnd as [|id keys Hid _ IH]; intros db Hw; cbn [retain_loop].
  { exists db. split_and!; [done..|]. intros id n. split; [intros H; split; [done|by intros ?%not_elem_of_nil]|by intros [? _]]. }
  destruct (peers db !! id) as [n|] eqn:En; [destruct (pred id n) eqn:Ep|].
  - destruct (IH db Hw) as (db' & E & Hw' & Hx & Hp). exists db'. split_and!; [done..|]. intros j m. rewrite Hp, elem_of_cons. naive_solver.
  - destruct (delete_wf db id n Hw En) as (s & -> & Hw1). cbn [mbind outcome_bind].
    destruct (IH _ Hw1) as (db' & E & Hw' & Hx & Hp). exists db'. split_and!; [done..|]. intros j m. rewrite Hp. cbn [peers].
    rewrite lookup_delete_Some, elem_of_cons. split; [intros [[Hne Hm] Hk]; split; [done|]; intros [->|?]; [done|auto]|].
    intros [Hm Hk]. split; [split; [|done]|auto]. intros <-. specialize (Hk (or_introl eq_refl)). congruence.
  - destruct (IH db Hw) as (db' & E & Hw' & Hx & Hp). exists db'. split_and!; [done..|]. intros j m. rewrite Hp, elem_of_cons. naive_solver.
Qed.

Lemma db_retain_ok `{HO : !HashOrder Z} pred db :
  wf db ->
  exists db', retain pred db = Done db' /\ wf db' /\ next_id db' = next_id db /\
    forall id n, peers db' !! id = Some n <-> peers db !! id = Some n /\ pred id n = true.
Proof.
  intros Hw. unfold retain. destruct (retain_loop_ok (hash_keys (peers db)) pred db Hw) as (db' & E & Hw' & Hx & Hp).
  { rewrite hash_keys_perm. apply NoDup_fst_map_to_list. }
  exists db'. split_and!; [done..|]. intros id n. rewrite Hp. split; [|naive_solver]. intros [Hn Hk]. split; [done|]. apply Hk.
  rewrite hash_keys_perm. apply list_elem_of_fmap. exists (id, n). split; [done|]. by apply elem_of_map_to_list.
Qed.

(** ** Sequences of operations *)

Context `{HO : !HashOrder Z}.

Inductive Op : Type :=
| OpUpsert (new : PeerNode)
| OpRemove (field : Field)
| OpRetain (pred : Z -> PeerNode -> bool).

Definition exec (op : Op) (db : PeerDb) : outcome PeerDb :=
  match op with
  | OpUpsert new => '(_, db) ← upsert new db; Done db
  | OpRemove field => '(_, db) ← remove field db; Done db
  | OpRetain pred => retain pred db
  end.

(** What the database assumes: fields are not shared between nodes, and identifiers and
    routes do not run out. *)
Definition op_ok (op : Op) db : Prop :=
  match op with
  | OpUpsert new => node_ok new /\ fits new db /\ next_id db + 1 < U32 /\
      Z.of_nat (routes_total (peers db) + length (accepted_routes new)) + 1 < U64
  | OpRemove field => field_ok field
  | OpRetain _ => True
  end.

(** What an operation does to the nodes. *)
Definition effect (op : Op) db db' : Prop :=
  match op with
  | OpUpsert new => peers db' = <[id_of db new := new]> (peers db)
  | OpRemove field => (exists id n, peers db !! id = Some n /\ has_field field id n /\ peers db' = delete id (peers db)) \/
      (db' = db /\ forall id n, peers db !! id = Some n -> has_field field id n -> ~ identifies field n)
  | OpRetain pred => forall id n, peers db' !! id = Some n <-> peers db !! id = Some n /\ pred id n = true
  end.

Lemma db_exec_ok op db : wf db -> op_ok op db -> exists db', exec op db = Done db' /\ wf db' /\ effect op db db'.
Proof.
  intros Hw Hok. destruct op as [new|field|pred]; cbn [exec op_ok effect] in *.
  - destruct Hok as (H1 & H2 & H3 & H4). destruct (upsert_ok db new Hw H1 H2 H3 H4) as (db' & E & Hw' & Hp & _). exists db'. by rewrite E.
  - destruct (remove_ok db field Hw Hok) as (o & db' & E & Hw' & _ & Ho). exists db'. rewrite E. split_and!; [done..|].
    destruct o as [[id n]|]; [left; by exists id, n|by right].
  - destruct (db_retain_ok pred db Hw) as (db' & E & Hw' & _ & Hp). by exists db'.
Qed.

Inductive reachable : PeerDb -> Prop :=
| reachable_default : reachable default_db
| reachable_exec op db db' : reachable db -> op_ok op db -> exec op db = Done db' -> reachable db'.

Lemma reachable_wf db : reachable db -> wf db.
Proof.
  induction 1 as [|op db db' _ IH Hok E]; [apply db_default_wf|]. destruct (db_exec_ok op db IH Hok) as (db2 & E2 & Hw & _). congruence.
Qed.


End Lookup.

(** ** Patches *)

Section Patch.
Context `{HI : Ipnet} `{HL : !IpnetLaws}.

Lemma insert_ips_total id new (idx : SplitStackTable.SplitStackTable (Node Z)) M :
  rt_repr idx M -> rsize M + 2 < U64 -> exists idx', ip_insert id new idx = Done idx'.
Proof.
  intros Hr Hsz. unfold ip_insert. destruct (rt_insert_spec idx M (ipv4 (tailnet_address new)) id Hr) as (idx1 & E1 & Hr1); [lia|].
  pose proof (rsize_set M (ipv4 (tailnet_address new)) (Some id)) as Hb1.
  destruct (rt_insert_spec idx1 _ (ipv6 (tailnet_address new)) id Hr1) as (idx2 & E2 & _); [lia|].
  rewrite E1. cbn [mbind outcome_bind]. rewrite E2. by eexists.
Qed.

(** The fields a patch leaves alone. *)
Lemma apply_update_keeps n u n' :
  apply_update n u = Done n' -> stable_id n' = stable_id n /\ accepted_routes n' = accepted_routes n.
Proof. unfold apply_update. case_decide; [|done]. intros [= <-]. done. Qed.

(** [patch] takes the node out of the map before it calls [upsert], which then finds no
    previous node: nothing is removed from the indexes.  The previous node key still leads to
    the peer, whatever the new one is, and the peer is listed once more for each of its
    routes. *)
Theorem patch_leaves_indexes (db : PeerDb) (u : NodeUpdate) (id : Z) (n : PeerNode) :
  wf db -> peers db !! id = Some n -> node_id n = up_id u -> next_id db + 1 < U32 ->
  Z.of_nat (routes_total (peers db) + length (accepted_routes n)) + 1 < U64 ->
  exists db' n', apply_update n u = Done n' /\ patch u db = Done (id, db') /\ peers db' !! id = Some n' /\
    lookup (ByNodeKey (node_key n)) db' = Done (Some id) /\
    exists M, rt_repr (route_idx (index_state db')) M /\ forall r, r ∈ accepted_routes n -> ~ NoDup (owners M (rkey r)).
Proof.
  intros Hw Hn Hu Hx Hsz. pose proof (wf_indexed db Hw) as [I1 I2 I3 I4 I5 I6 I7].
  destruct (wf_nodes db Hw id n Hn) as [[_ _ N3] _].
  assert (Hcount : Z.of_nat (size (peers db)) <= U32).
  { pose proof (wf_next db Hw). etrans; [apply (count_le (peers db) (next_id db)); [lia|]|lia]. intros j m Hm. by apply (wf_nodes db Hw j m). }
  assert (En : exists n', apply_update n u = Done n') by (unfold apply_update; rewrite decide_True by done; by eexists).
  destruct En as [n' En]. destruct (apply_update_keeps n u n' En) as [Hs Hr].
  destruct I6 as (Mi & Ri & Hi). pose proof (ips_size Mi _ Hi) as Hbi.
  destruct (insert_ips_total id n' (ip_idx (index_state db)) Mi Ri) as (ip & Eip); [unfold U32, U64 in *; lia|].
  destruct I7 as (M & Rm & Hin). pose proof (routes_size M _ Hin) as Hbr. rewrite all_routes_length in Hbr. destruct Hin as (Hne & _ & Hin).
  destruct (insert_routes_ok (accepted_routes n') (route_idx (index_state db)) M id Rm Hne) as (rt & M' & Ert & Rm' & _ & Ho);
    [rewrite Hr; lia|by rewrite Hr|].
  unfold patch. rewrite <- Hu. rewrite (proj2 (I3 (node_id n) id)) by eauto. cbn [unwrap mbind outcome_bind]. rewrite Hn.
  cbn [unwrap mbind outcome_bind]. rewrite En. cbn [mbind outcome_bind]. unfold upsert, choose_id. cbn [index_state next_id peers].
  rewrite Hs, (proj2 (I2 (stable_id n) id)) by eauto. cbn [mbind outcome_bind]. rewrite lookup_delete_eq, decide_False by done.
  unfold update_indexes, maybe_update_idx, maybe_update, disco_insert, name_insert. cbn [mbind outcome_bind]. rewrite Eip. cbn [mbind outcome_bind].
  rewrite Ert. cbn [mbind outcome_bind]. eexists _, n'. split_and!; [done|done|apply lookup_insert_eq| |].
  - cbn [lookup index_state nk_idx]. f_equal. rewrite lookup_insert. case_decide; [done|]. apply I1. eauto.
  - exists M'. split; [done|]. intros r Hrt Hnd. rewrite Ho, Hr in Hnd. assert (Hk : rkey r ∈ map rkey (accepted_routes n)) by (by apply list_elem_of_fmap_2).
    rewrite decide_True in Hnd by done. apply NoDup_app in Hnd as (_ & Hd & _). apply (Hd id); [apply Hin; eauto|apply list_elem_of_here].
Qed.

End Patch.

(** ** Concrete nodes *)

Lemma list_ascii_app a b : String.list_ascii_of_string (a +:+ b) = String.list_ascii_of_string a ++ String.list_ascii_of_string b.
Proof. induction a as [|c a IH]; [done|]. cbn. by rewrite <- IH. Qed.

Lemma dotless_check s : forallb (fun c => negb (Ascii.eqb c (Ascii.ascii_of_nat 46))) (String.list_ascii_of_string s) = true -> dotless s.
Proof. intros H (a & b & ->). rewrite !list_ascii_app, !forallb_app in H. rewrite !andb_true_iff in H. by destruct H as (_ & H & _). Qed.

Module Concrete.
#[export] Existing Instance RefNet.ref_net.
#[export] Existing Instance RefNet.ref_laws.
#[export] Existing Instance list_order.

(** 100.64.0.1/32 and fd7a::1/128. *)
Definition host4 : IpNet := exist _ (V4 [100; 64; 0; 1]%nat, 32%nat) I.
Definition host6 : IpNet := exist _ (V6 [253; 122; 0; 0; 0; 0; 0; 0; 0; 0; 0; 0; 0; 0; 0; 1]%nat, 128%nat) I.

(** A node that accepts 10.1.0.0/16. *)
Definition alpha : PeerNode :=
  mkNode 40 "n1" "alpha" 0 Unknown (Some "tail.net") ∅ [] (mkAddress host4 host6) [x01] None None (Some [x02]) None [net16] [] None.

Definition with_alpha : PeerDb := match exec (OpUpsert alpha) default_db with Done db => db | Panic => default_db end.

Lemma alpha_ok : node_ok alpha.
Proof.
  split; [by apply dotless_check|done|]. unfold routes_once. apply NoDup_singleton.
Qed.

Lemma alpha_op_ok : op_ok (OpUpsert alpha) default_db.
Proof. split_and!; [apply alpha_ok|by intros j n Hn|done|done]. Qed.


(** [get_route] answers with a peer none of whose routes contains the address. *)
Lemma get_route_strays :
  match get_route other16 with_alpha with
  | Done [(0, n)] => forallb (fun r => negb (net_contains r (net_addr other16))) (accepted_routes n)
  | _ => false
  end = true.
Proof. vm_compute. reflexivity. Qed.

End Concrete.
End PeerDbProof.
