(* ===== verification/DerpClient.v ===== *)
(** * The DERP client (ts_derp/src/client.rs)

    The handshake with a relay server, sending and receiving packets, and the mapping of the
    relay's keys to peers (ts_transport/src/map_key.rs, ts_runtime/src/multiderp.rs).  What the
    framed reader yields is the input of the client, what the framed writer is given its
    output. *)

From S2P Require Import Prelude Packet Crypto Framing IpNet PeerDb PeerDbSpec PeerDbProof DerpFrame.
Import IpNet PeerDb DerpFrame.

Module DerpClient.

(** error.rs *)
Inductive Error : Type :=
| Deserialize
| Frame (e : DerpFrame.Error)
| IoFailure
| UnsupportedProtocolVersion (found supported : Z)
| UnexpectedRecvFrameType (t : FrameType).

(** serde_json: the text of the client's payload, and the version in a server's payload. *)
Class InfoJson : Type := {
  client_info_json : option bytes;
  server_info_version : bytes -> option Z;
}.

(** Both ends of the connection: the results that the framed reader still yields before the
    stream ends, and the bytes written so far. *)
Record Client : Type := mkClient { incoming : list (DerpFrame.Error + RawFrame); written : bytes }.

(** ** Fallible steps on the client *)
Definition M (A : Type) : Type := ST Client (Error + A).

Definition ok {A} (a : A) : M A := fun self => Done (inr a, self).
Definition fail {A} (e : Error) : M A := fun self => Done (inl e, self).

(** The question mark operator. *)
Definition and_then {A B} (m : M A) (k : A -> M B) : M B := fun self =>
  match m self with
  | Done (inr a, self) => k a self
  | Done (inl e, self) => Done (inl e, self)
  | Panic => Panic
  end.

Notation "'let?' x := m 'in' k" := (and_then m (fun x => k)) (at level 10, x name, m at level 100, k at level 200).

(** [fr.next().await.ok_or(..)??] *)
Definition next : M RawFrame := fun self =>
  match incoming self with
  | [] => Done (inl IoFailure, self)
  | inl e :: incoming => Done (inl IoFailure, mkClient incoming (written self))
  | inr f :: incoming => Done (inr f, mkClient incoming (written self))
  end.

(** [fw.send((frame, extra))] *)
Definition write (f : RawFrame) (extra : bytes) : M unit := fun self =>
  dst ← encode f extra (written self); Done (inr tt, mkClient (incoming self) dst).

Definition of_frame {A} (r : DerpFrame.Error + A) : M A := match r with inr a => ok a | inl e => fail (Frame e) end.

Definition of_option {A} (e : Error) (o : option A) : M A := match o with Some a => ok a | None => fail e end.

Section Client.
Context `{B : CryptoBox} `{J : InfoJson}.

(** [PROTOCOL_VERSION] (frame/mod.rs) *)
Definition PROTOCOL_VERSION : Z := 2.

(** [ServerInfoPayload::version]: an [i32] as a [usize] *)
Definition version (v : Z) : Z := v mod U64.

Definition make_clientinfo (public secret server_key nonce : bytes) : M (ClientInfo * bytes) :=
  let? json := of_option Deserialize client_info_json in
  let? encrypted := of_option (Frame EncryptionFailed) (box_encrypt server_key secret nonce json) in
  ok (mkClientInfo public nonce, encrypted).

Definition decrypt_server_info (secret : bytes) (sk : ServerKey) (si : ServerInfo) (payload : bytes) : M Z :=
  let? payload := of_option (Frame DecryptionFailed) (box_decrypt (sk_key sk) secret (si_nonce si) payload) in
  let? v := of_option Deserialize (server_info_version payload) in
  if decide (version v = PROTOCOL_VERSION) then ok v else fail (UnsupportedProtocolVersion (version v) PROTOCOL_VERSION).

(** [Client::handshake]; [nonce] is the one drawn for the client's payload. *)
Definition handshake (public secret nonce : bytes) : M unit :=
  let? frame := next in
  let? found := of_option IoFailure (as_type (T := ServerKey) frame) in
  let sk := found.1 in
  let? _ := of_frame (server_key_validate sk) in
  let? info := make_clientinfo public secret (sk_key sk) nonce in
  let '(client_info, encrypted) := info in
  let? raw := of_frame (from_body client_info (length encrypted)) in
  let? _ := write raw encrypted in
  let? frame := next in
  let? found := of_option IoFailure (as_type (T := ServerInfo) frame) in
  let '(si, payload) := found in
  let? _ := decrypt_server_info secret sk si payload in
  ok tt.

(** [send_frame_with_extra] *)
Definition send_frame_with_extra {T} `{Body T} (frame : T) (additional_payload : bytes) : M unit :=
  let? raw := of_frame (from_body frame (length additional_payload)) in
  write raw additional_payload.

Definition send_frame {T} `{Body T} (frame : T) : M unit := send_frame_with_extra frame [].

Definition send_one (node_key msg : bytes) : M unit := send_frame_with_extra (mkSend node_key) msg.

(** [Client::recv_one]: the loop over the incoming frames.  [debug] says whether debug logging
    is enabled: only then is the reason of a [PeerGone] frame looked at. *)
Fixpoint recv_loop (debug : bool) (frames : list (DerpFrame.Error + RawFrame)) (out : bytes) : outcome ((Error + bytes * bytes) * Client) :=
  match frames with
  | [] => Done (inl IoFailure, mkClient [] out)
  | inl _ :: frames => Done (inl IoFailure, mkClient frames out)
  | inr frame :: frames =>
      match typ (header frame) with
      | TKeepAlive => recv_loop debug frames out
      | TPing =>
          match as_type (T := Ping) frame with
          | None => recv_loop debug frames out
          | Some (ping, _) =>
              '(r, self) ← send_frame (pong_from ping) (mkClient frames out);
              match r with
              | inl e => Done (inl e, self)
              | inr _ => recv_loop debug frames (written self)
              end
          end
      | TPeerGone =>
          '(gone, _) ← unwrap (as_type (T := PeerGone) frame);
          match reason gone with
          | inl e => if debug then Done (inl (Frame e), mkClient frames out) else recv_loop debug frames out
          | inr _ => recv_loop debug frames out
          end
      | TRecvPacket =>
          '(recv, payload) ← unwrap (as_type (T := RecvPacket) frame);
          Done (inr (src recv, payload), mkClient frames out)
      | t => Done (inl (UnexpectedRecvFrameType t), mkClient frames out)
      end
  end.

Definition recv_one (debug : bool) : M (bytes * bytes) := fun self => recv_loop debug (incoming self) (written self).

(** ** The transport: [UnderlayTransport for Client] *)
Fixpoint send_packets (key : bytes) (pkts : list bytes) : M unit :=
  match pkts with
  | [] => ok tt
  | pkt :: pkts => let? _ := send_one key pkt in send_packets key pkts
  end.

Fixpoint send (packet_batch : list (bytes * list bytes)) : M unit :=
  match packet_batch with
  | [] => ok tt
  | (key, pkts) :: packet_batch => let? _ := send_packets key pkts in send packet_batch
  end.

(** ** Key lookup (map_key.rs)

    [lookup] is the [PeerLookup] of the direction; the batch is mapped while it is sent. *)
Fixpoint map_send (lookup : Z -> outcome (option bytes)) (packet_batch : list (Z * list bytes)) : M unit := fun self =>
  match packet_batch with
  | [] => ok tt self
  | (peer, pkts) :: packet_batch =>
      k ← lookup peer;
      match k with
      | None => map_send lookup packet_batch self
      | Some key => (let? _ := send_packets key pkts in map_send lookup packet_batch) self
      end
  end.

(** A received packet of an unknown key is dropped. *)
Definition map_recv (lookup : bytes -> outcome (option Z)) (debug : bool) : ST Client (list (Error + Z * bytes)) := fun self =>
  '(r, self) ← recv_one debug self;
  match r with
  | inr (key, pkt) => k ← lookup key; Done (match k with Some peer => [inr (peer, pkt)] | None => [] end, self)
  | inl e => Done ([inl e], self)
  end.

End Client.

(** [PeerDbLookup] (ts_runtime/src/multiderp.rs): the database of the last peer state, if there
    was one. *)
Section Lookup.
Context `{HI : Ipnet}.

Definition lookup_node_key (db : option PeerDb) (id : Z) : outcome (option bytes) :=
  match db with
  | None => Done None
  | Some db => o ← get (ByPeerId id) db; Done (option_map (fun e => node_key (snd e)) o)
  end.

Definition lookup_peer_id (db : option PeerDb) (key : bytes) : outcome (option Z) :=
  match db with
  | None => Done None
  | Some db => o ← get (ByNodeKey key) db; Done (option_map fst o)
  end.

End Lookup.
End DerpClient.

(** * Correctness of the DERP client

    Against a server that follows the protocol the handshake succeeds, packets arrive in order
    under the keys of their senders while pings are answered, and batches are sent as one frame
    per packet; with the lookup of the peer database, peers are named by their identifiers. *)

Module DerpProof.
Import Framing IpNet PeerDb PeerDbSpec PeerDbProof DerpFrame DerpClient.

(** The frame of a body with its payload. *)
Definition sent_frame {T} `{Body T} (t : T) (payload : bytes) : RawFrame :=
  mkFrame (mkHeader FRAME_TYPE (Z.of_nat (SIZE + length payload))) (body_bytes t ++ payload).

Definition fits (size : nat) (payload : bytes) : Prop := Z.of_nat (size + length payload) <= MAX_PACKET_SIZE.

Lemma sent_whole {T} `{BL : BodyLaws T} (t : T) payload : body_ok t -> fits SIZE payload -> whole (sent_frame t payload).
Proof.
  intros Ht Hf. unfold fits in Hf. split; unfold header_ok; cbn [header sent_frame len raw_body]; [lia|]. by rewrite length_app, body_length.
Qed.

Lemma send_frame_ok {T} `{BL : BodyLaws T} (t : T) payload c : body_ok t -> fits SIZE payload ->
  send_frame_with_extra t payload c = Done (inr tt, mkClient (incoming c) (written c ++ frame_bytes (sent_frame t payload))).
Proof.
  intros Ht Hf. destruct (encode_body t payload (written c) Ht Hf) as (f & E1 & E2).
  unfold send_frame_with_extra, and_then, of_frame. rewrite E1. cbn [ok]. unfold write. by rewrite E2.
Qed.

(** ** Receiving *)

(** What a server may send to a connected client. *)
Inductive event : Type :=
| EKeepAlive
| EPing (payload : bytes)
| EGone (key : bytes) (why : byte)
| EPacket (key payload : bytes).

Definition event_ok (e : event) : Prop :=
  match e with
  | EKeepAlive => True
  | EPing p => length p = 8%nat
  | EGone key why => length key = 32%nat /\ (why = x00 \/ why = x01)
  | EPacket key payload => length key = 32%nat /\ fits 32 payload
  end.

Definition event_frame (e : event) : RawFrame :=
  match e with
  | EKeepAlive => sent_frame mkKeepAlive []
  | EPing p => sent_frame (mkPing p) []
  | EGone key why => sent_frame (mkGone key why) []
  | EPacket key payload => sent_frame (mkRecv key) payload
  end.

Definition packets (evs : list event) : list (bytes * bytes) :=
  omap (fun e => match e with EPacket key payload => Some (key, payload) | _ => None end) evs.

(** The answers to the pings. *)
Definition pongs (evs : list event) : list RawFrame :=
  omap (fun e => match e with EPing p => Some (sent_frame (mkPong p) []) | _ => None end) evs.

Lemma fits_nil size : Z.of_nat size <= MAX_PACKET_SIZE -> fits size [].
Proof. unfold fits. cbn [length]. by rewrite Nat.add_0_r. Qed.

Lemma event_whole e : event_ok e -> whole (event_frame e).
Proof. destruct e; intros He; apply sent_whole; cbn; try done; try (by apply He); by apply fits_nil. Qed.

Lemma as_type_sent {T} `{BL : BodyLaws T} (t : T) payload : body_ok t -> as_type (sent_frame t payload) = Some (t, payload).
Proof. apply as_type_body. Qed.

Section Client.
Context `{L : CryptoBoxLaws} `{J : InfoJson}.

Lemma recv_loop_step debug e evs rest out : event_ok e ->
  recv_loop debug (map inr (map event_frame (e :: evs)) ++ rest) out =
  match e with
  | EPacket key payload => Done (inr (key, payload), mkClient (map inr (map event_frame evs) ++ rest) out)
  | EPing p => recv_loop debug (map inr (map event_frame evs) ++ rest) (out ++ frame_bytes (sent_frame (mkPong p) []))
  | _ => recv_loop debug (map inr (map event_frame evs) ++ rest) out
  end.
Proof.
  intros He. cbn [map app]. destruct e as [|p|key why|key payload]; cbn [event_frame].
  - reflexivity.
  - cbn [recv_loop header typ sent_frame FRAME_TYPE ping_body]. rewrite (as_type_sent (mkPing p) []) by exact He.
    unfold pong_from, send_frame. cbn [ping_payload]. rewrite (send_frame_ok (mkPong p) []) by (exact He || by apply fits_nil). reflexivity.
  - destruct He as [Hk Hw]. cbn [recv_loop header typ sent_frame FRAME_TYPE peer_gone_body].
    rewrite (as_type_sent (mkGone key why) []) by exact Hk. cbn [unwrap mbind outcome_bind]. unfold reason. cbn [raw_reason]. by destruct Hw as [-> | ->].
  - destruct He as [Hk Hf]. cbn [recv_loop header typ sent_frame FRAME_TYPE recv_packet_body].
    rewrite (as_type_sent (mkRecv key) payload) by exact Hk. reflexivity.
Qed.

(** [n] calls of [recv_one]. *)
Fixpoint recv_many (debug : bool) (n : nat) : ST Client (list (Error + bytes * bytes)) :=
  match n with
  | O => mret []
  | S n => r ← recv_one debug; rs ← recv_many debug n; mret (r :: rs)
  end.

Lemma recv_many_skip debug n e evs rest out : event_ok e -> packets [e] = [] ->
  recv_many debug (S n) (mkClient (map inr (map event_frame (e :: evs)) ++ rest) out) =
  recv_many debug (S n) (mkClient (map inr (map event_frame evs) ++ rest) (out ++ concat (map frame_bytes (pongs [e])))).
Proof.
  intros He Hp. cbn [recv_many]. unfold mbind, ST_bind, recv_one. cbn [incoming written]. rewrite recv_loop_step by done.
  destruct e as [|p|key why|key payload]; [| | |discriminate Hp]; cbn [pongs omap list_omap map concat]; by rewrite ?app_nil_r.
Qed.

Lemma packets_cons e evs : packets (e :: evs) = packets [e] ++ packets evs.
Proof. unfold packets. by rewrite <- omap_app_eq. Qed.

Lemma pongs_cons e evs : pongs (e :: evs) = pongs [e] ++ pongs evs.
Proof. unfold pongs. by rewrite <- omap_app_eq. Qed.

(** The frames up to the last packet are worked off; the pings among them are answered. *)
Lemma recv_many_ok debug evs rest out : Forall event_ok evs ->
  exists done left, evs = done ++ left /\ packets left = [] /\
    recv_many debug (length (packets evs)) (mkClient (map inr (map event_frame evs) ++ rest) out) =
    Done (map inr (packets evs), mkClient (map inr (map event_frame left) ++ rest) (out ++ concat (map frame_bytes (pongs done)))).
Proof.
  intros Hevs. revert out. induction Hevs as [|e evs He Hevs IH]; intros out.
  { exists [], []. cbn. by rewrite app_nil_r. }
  destruct (decide (packets (e :: evs) = [])) as [Hp|Hp].
  { exists [], (e :: evs). rewrite Hp. split_and!; [done..|]. cbn [length recv_many pongs omap list_omap map concat]. by rewrite app_nil_r. }
  destruct (IH (out ++ concat (map frame_bytes (pongs [e])))) as (d & l & -> & Hl & E). exists (e :: d), l. split_and!; [done..|].
  rewrite (pongs_cons e d), map_app, concat_app, app_assoc. rewrite packets_cons in *. destruct (packets [e]) as [|x xs] eqn:Ee.
  - cbn [app] in *. destruct (packets (d ++ l)) as [|y ys] eqn:Ey; [done|]. cbn [length] in *. by rewrite recv_many_skip.
  - destruct e as [|p|key why|key payload]; try discriminate Ee. injection Ee as <- <-. cbn [app length recv_many].
    unfold mbind, ST_bind, recv_one. cbn [incoming written]. rewrite (recv_loop_step debug (EPacket key payload) (d ++ l)) by done.
    cbn [pongs omap list_omap map concat] in E |- *. rewrite app_nil_r in E |- *. by rewrite E.
Qed.

(** ** The handshake *)

(** The messages of a server with the secret key [s] to a client with the public key [c]. *)
Record greets (s c : bytes) (key_frame info_frame : RawFrame) : Prop := {
  gr_key : exists extra, fits 40 extra /\ key_frame = sent_frame (mkServerKey MAGIC (box_public s)) extra;
  gr_info : exists n json sealed, length n = 24%nat /\ box_encrypt c s n json = Some sealed /\ server_info_version json = Some PROTOCOL_VERSION /\
    fits 24 sealed /\ info_frame = sent_frame (mkServerInfo n) sealed;
}.

Lemma greets_whole s c key_frame info_frame : greets s c key_frame info_frame -> whole key_frame /\ whole info_frame.
Proof.
  intros [(extra & Hx & ->) (n & json & sealed & Hn & _ & _ & Hf & ->)]. split; apply sent_whole; try done. split; [done|apply box_public_length].
Qed.

Lemma handshake_ok (s c n json : bytes) key_frame info_frame rest out :
  greets s (box_public c) key_frame info_frame -> client_info_json = Some json -> Z.of_nat (length json) <= 65000 -> length n = 24%nat ->
  exists sealed, box_decrypt (box_public c) s n sealed = Some json /\
    handshake (box_public c) c n (mkClient (inr key_frame :: inr info_frame :: rest) out) =
    Done (inr tt, mkClient rest (out ++ frame_bytes (sent_frame (mkClientInfo (box_public c) n) sealed))).
Proof.
  intros [(extra & Hx & ->) (n2 & json2 & sealed2 & Hn2 & Eb & Ev & Hf & ->)] Hj Hl Hn.
  destruct (box_encrypt_total (box_public s) c n json) as [sealed Es]; [lia|]. pose proof (box_encrypt_length _ _ _ _ _ Es) as Hlen.
  exists sealed. split; [by eapply box_decrypt_encrypt|].
  assert (Hk : length (box_public s) = 32%nat) by apply box_public_length. assert (Hc : length (box_public c) = 32%nat) by apply box_public_length.
  assert (Hfit : fits 56 sealed) by (unfold fits; rewrite max_packet, Hlen; lia).
  unfold handshake. unfold and_then at 1. cbn [next incoming written]. unfold and_then at 1. rewrite as_type_sent by done. cbn [of_option ok fst].
  unfold and_then at 1. unfold server_key_validate. cbn [magic]. rewrite decide_True by done. cbn [of_frame ok].
  unfold and_then at 1. unfold make_clientinfo, and_then at 1. rewrite Hj. cbn [of_option ok]. unfold and_then at 1. cbn [sk_key]. rewrite Es. cbn [of_option ok].
  destruct (encode_body (mkClientInfo (box_public c) n) sealed out) as (f & E1 & E2); [done|done|].
  unfold and_then at 1. rewrite E1. cbn [of_frame ok]. unfold and_then at 1. unfold write at 1. cbn [written incoming]. rewrite E2. cbn [mbind outcome_bind].
  unfold and_then at 1. cbn [next incoming written]. unfold and_then at 1. rewrite as_type_sent by done. cbn [of_option ok].
  unfold and_then at 1. unfold decrypt_server_info, and_then at 1. cbn [sk_key si_nonce].
  rewrite (box_decrypt_encrypt s c n2 json2 sealed2 Eb). cbn [of_option ok]. unfold and_then at 1. rewrite Ev. cbn [of_option ok].
  by rewrite decide_True.
Qed.

(** C12: a DERP session.  When the server greets the client and then sends any mix of
    keep-alives, pings, notices of peers gone and packets, however its stream is cut, the
    handshake succeeds and sends the client's payload sealed for the server, and successive
    calls of [recv_one] return exactly the packets with their senders' keys, in order, having
    answered each ping before the last packet with its payload; nothing panics. *)
Theorem derp_session_receives (debug : bool) (s c n json : bytes) (key_frame info_frame : RawFrame) (evs : list event) (frags : list bytes) :
  greets s (box_public c) key_frame info_frame -> Forall event_ok evs ->
  client_info_json = Some json -> Z.of_nat (length json) <= 65000 -> length n = 24%nat ->
  concat frags = concat (map frame_bytes (key_frame :: info_frame :: map event_frame evs)) ->
  exists frames sealed self, reads decode (tt, []) frags frames (tt, []) /\
    handshake (box_public c) c n (mkClient (map inr frames) []) = Done (inr tt, self) /\
    box_decrypt (box_public c) s n sealed = Some json /\
    written self = frame_bytes (sent_frame (mkClientInfo (box_public c) n) sealed) /\
    exists done left self', evs = done ++ left /\ packets left = [] /\
      recv_many debug (length (packets evs)) self = Done (map inr (packets evs), self') /\
      written self' = written self ++ concat (map frame_bytes (pongs done)).
Proof.
  intros Hg Hevs Hj Hl Hn Hc. destruct (handshake_ok s c n json key_frame info_frame (map inr (map event_frame evs)) [] Hg Hj Hl Hn) as (sealed & Hs & Eh).
  exists (key_frame :: info_frame :: map event_frame evs), sealed. eexists. split_and!; [|exact Eh|exact Hs|done|].
  - eapply reads_frames; [apply derp_frames; constructor; [|constructor]| |by rewrite app_nil_r].
    + by apply (greets_whole s (box_public c) key_frame info_frame).
    + by apply (greets_whole s (box_public c) key_frame info_frame).
    + apply Forall_map. eapply Forall_impl; [exact Hevs|]. apply event_whole.
    + intros p Hp. by apply prefix_nil_inv in Hp as ->.
  - destruct (recv_many_ok debug evs [] (frame_bytes (sent_frame (mkClientInfo (box_public c) n) sealed)) Hevs) as (d & l & He & Hp & E).
    rewrite !app_nil_r in E. exists d, l. eexists. split_and!; [done|done|exact E|done].
Qed.

(** ** Sending *)

Definition batch_ok (b : bytes * list bytes) : Prop := length (fst b) = 32%nat /\ Forall (fits 32) (snd b).

Definition batch_frames (batches : list (bytes * list bytes)) : list RawFrame :=
  concat (map (fun b => map (sent_frame (mkSend (fst b))) (snd b)) batches).

Lemma derp_send_packets_ok key pkts self : length key = 32%nat -> Forall (fits 32) pkts ->
  send_packets key pkts self = Done (inr tt, mkClient (incoming self) (written self ++ concat (map frame_bytes (map (sent_frame (mkSend key)) pkts)))).
Proof.
  intros Hk Hf. revert self. induction Hf as [|p pkts Hp _ IH]; intros self; cbn [send_packets map concat].
  { rewrite app_nil_r. by destruct self. }
  unfold and_then, send_one. rewrite (send_frame_ok (mkSend key) p) by done. rewrite IH. cbn [incoming written]. by rewrite app_assoc.
Qed.

Lemma batch_whole b : batch_ok b -> Forall whole (map (sent_frame (mkSend (fst b))) (snd b)).
Proof. intros [Hk Hf]. apply Forall_map. eapply Forall_impl; [exact Hf|]. intros p Hp. by apply sent_whole. Qed.

End Client.

(** ** Peers *)

Section Peers.
Context `{HI : Ipnet} `{HL : !IpnetLaws} `{HO : !HashOrder Z}.

Lemma lookup_node_key_ok db id : lookup_node_key (Some db) id = Done (option_map node_key (peers db !! id)).
Proof.
  unfold lookup_node_key, get. cbn [lookup mbind outcome_bind]. case_decide as Hs; cbn.
  - by destruct (peers db !! id).
  - destruct (peers db !! id); [exfalso; eauto|done].
Qed.

Lemma lookup_peer_id_ok db key : wf db ->
  exists o, lookup_peer_id (Some db) key = Done o /\ forall id, o = Some id <-> exists node, peers db !! id = Some node /\ node_key node = key.
Proof.
  intros Hw. pose proof (ix_nk _ _ (wf_indexed db Hw) key) as Hi. unfold lookup_peer_id, get. cbn [lookup mbind outcome_bind].
  destruct (nk_idx (index_state db) !! key) as [i|] eqn:E.
  - destruct (proj1 (Hi i) eq_refl) as (n & Hn & [= Hk]). cbn. rewrite Hn. exists (Some i). split; [done|]. intros id. split.
    + intros [= <-]. eauto.
    + intros (m & Hm & Hk'). f_equal. enough (Some i = Some id) by congruence. apply Hi. exists m. by rewrite Hk'.
  - exists None. split; [done|]. intros id. split; [done|]. intros (m & Hm & Hk'). enough (None = Some id) by done. apply Hi. exists m. by rewrite Hk'.
Qed.

(** The frames of a batch for peers: those in the database, under their node keys. *)
Definition peer_frames (db : PeerDb) (batches : list (Z * list bytes)) : list RawFrame :=
  batch_frames (omap (fun '(id, pkts) => option_map (fun n => (node_key n, pkts)) (peers db !! id)) batches).

(** C23: packets for peers go through the relay under the peers' keys.  With the lookup of a
    consistent database, a batch of packets of admissible size is written as one frame per
    packet for the batches of known peers, in order, addressed to their node keys, and any
    fragmentation of what was written is decoded to those frames; a packet that arrives from
    the key of a known peer is handed on as that peer's, any other is dropped. *)
Theorem relay_names_peers `{L : CryptoBoxLaws} `{J : InfoJson} (db : PeerDb) (batches : list (Z * list bytes)) (self : Client) (debug : bool)
    (e : event) (rest : list (DerpFrame.Error + RawFrame)) (out : bytes) :
  reachable db -> (forall id n, peers db !! id = Some n -> length (node_key n) = 32%nat) -> Forall (fun b => Forall (fits 32) (snd b)) batches -> event_ok e ->
  (exists self', map_send (lookup_node_key (Some db)) batches self = Done (inr tt, self') /\
     written self' = written self ++ concat (map frame_bytes (peer_frames db batches)) /\
     forall frags, concat frags = concat (map frame_bytes (peer_frames db batches)) -> reads decode (tt, []) frags (peer_frames db batches) (tt, [])) /\
  (forall key payload, e = EPacket key payload ->
     exists got, map_recv (lookup_peer_id (Some db)) debug (mkClient (inr (event_frame e) :: rest) out) = Done (got, mkClient rest out) /\
       forall id p, inr (id, p) ∈ got <-> p = payload /\ exists node, peers db !! id = Some node /\ node_key node = key).
Proof.
  intros Hr Hkeys Hb He. pose proof (reachable_wf db Hr) as Hw. split.
  - assert (Hsend : map_send (lookup_node_key (Some db)) batches self =
        Done (inr tt, mkClient (incoming self) (written self ++ concat (map frame_bytes (peer_frames db batches)))) /\ Forall whole (peer_frames db batches)).
    { unfold peer_frames. clear -HL Hkeys Hb. revert self. induction Hb as [|[id pkts] batches Hp _ IH]; intros self; cbn [map_send].
      { cbn. rewrite app_nil_r. destruct self. split; [done|constructor]. }
      rewrite lookup_node_key_ok. cbn [mbind outcome_bind]. rewrite omap_cons_eq. destruct (peers db !! id) as [n|] eqn:En; cbn [option_map]; [|apply IH].
      pose proof (Hkeys id n En) as Hk. unfold and_then. rewrite derp_send_packets_ok by done. unfold batch_frames. cbn [map concat fst snd].
      destruct (IH (mkClient (incoming self) (written self ++ concat (map frame_bytes (map (sent_frame (mkSend (node_key n))) pkts))))) as [E F].
      rewrite E. cbn [incoming written]. rewrite map_app, concat_app, app_assoc. split; [done|]. apply Forall_app. split; [|done]. by apply (batch_whole (_, pkts)). }
    destruct Hsend as [-> Hwh]. eexists. split_and!; [done..|]. intros frags Hc. eapply reads_frames; [by apply derp_frames| |by rewrite app_nil_r].
    intros p Hp. by apply prefix_nil_inv in Hp as ->.
  - intros key payload ->. destruct (lookup_peer_id_ok db key Hw) as (o & Eo & Ho). unfold map_recv, recv_one. cbn [incoming written].
    pose proof (recv_loop_step debug (EPacket key payload) [] rest out He) as Hs. cbn [map app] in Hs. rewrite Hs. cbn [mbind outcome_bind]. rewrite Eo. cbn.
    eexists. split; [done|]. intros id p. rewrite <- Ho. destruct o as [i|]; [|by split; [intros ?%not_elem_of_nil|intros [_ ?]]].
    rewrite list_elem_of_singleton. split; [by intros [= -> ->]|by intros [-> [= ->]]].
Qed.

End Peers.

(** A short frame panics.  A packet frame whose body is shorter than a key makes
    [recv_one] panic, and so does a notice of a peer gone that is shorter than a key and a
    reason. *)
Theorem short_frame_panics `{B : CryptoBox} (debug : bool) (f : RawFrame) (rest : list (DerpFrame.Error + RawFrame)) (out : bytes) :
  (typ (header f) = TRecvPacket /\ (length (raw_body f) < 32)%nat) \/ (typ (header f) = TPeerGone /\ (length (raw_body f) < 33)%nat) ->
  recv_one debug (mkClient (inr f :: rest) out) = Panic.
Proof.
  intros [[Ht Hl]|[Ht Hl]]; unfold recv_one; cbn [incoming recv_loop]; rewrite Ht; unfold as_type; rewrite Ht;
    rewrite decide_True, decide_False by (done || cbn; lia); reflexivity.
Qed.

(** ** Concrete sessions *)
Module Concrete.
Import PeerDbProof.Concrete.
#[local] Existing Instance ToyBox.toy_box.
#[local] Existing Instance ToyBox.toy_box_laws.

(** Payloads whose first byte is the version. *)
#[local] Instance byte_json : InfoJson := {
  client_info_json := Some [x7b; x7d];
  server_info_version l := match l with b :: _ => Some (byte_to_Z b) | [] => None end }.

Definition nonce24 : bytes := repeat x05 24.
Definition key32 : bytes := repeat x06 32.
Definition server_key_frame : RawFrame := sent_frame (mkServerKey MAGIC (box_public [x01])) [].
Definition server_info_frame : RawFrame :=
  sent_frame (mkServerInfo nonce24) (default [] (box_encrypt (box_public [x02]) [x01] nonce24 [x02; x20])).

Lemma server_greets : greets [x01] (box_public [x02]) server_key_frame server_info_frame.
Proof.
  split; [exists []; split; [vm_compute; discriminate|reflexivity]|].
  exists nonce24, [x02; x20], (default [] (box_encrypt (box_public [x02]) [x01] nonce24 [x02; x20])).
  split; [reflexivity|]. split; [reflexivity|]. split; [reflexivity|]. split; [vm_compute; discriminate|reflexivity].
Qed.

Definition session : list event := [EKeepAlive; EPing (repeat x09 8); EPacket key32 [x01; x02]].

Lemma session_ok : Forall event_ok session.
Proof.
  constructor; [exact I|]. constructor; [reflexivity|]. constructor; [split; [reflexivity|vm_compute; discriminate]|constructor].
Qed.

Lemma derp_session_receives_witness :
  exists frames self, handshake (box_public [x02]) [x02] nonce24 (mkClient (map inr frames) []) = Done (inr tt, self) /\
    exists self', recv_many true 1 self = Done ([inr (key32, [x01; x02])], self').
Proof.
  destruct (derp_session_receives true [x01] [x02] nonce24 [x7b; x7d] server_key_frame server_info_frame session
      [concat (map frame_bytes (server_key_frame :: server_info_frame :: map event_frame session))])
    as (frames & sealed & self & _ & E1 & _ & _ & d & l & self' & _ & _ & E2 & _);
    [exact server_greets|exact session_ok|reflexivity|vm_compute; discriminate|reflexivity|apply app_nil_r|].
  exists frames, self. split; [exact E1|]. exists self'. exact E2.
Defined.

(** A node with a key of 32 bytes. *)
Definition beta : PeerNode :=
  mkNode 40 "n1" "beta" 0 Unknown (Some "tail.net") ∅ [] (mkAddress host4 host6) key32 None None (Some [x02]) None [] [] None.

Lemma beta_op_ok : op_ok (OpUpsert beta) default_db.
Proof. split_and!; [split; [by apply dotless_check|done|apply NoDup_nil_2]|by intros j n Hn|done|done]. Qed.

Lemma with_beta : exists db, reachable db /\ peers db = {[ 0 := beta ]}.
Proof.
  destruct (db_exec_ok (OpUpsert beta) default_db db_default_wf beta_op_ok) as (db & E & _ & Hp). exists db.
  split; [exact (reachable_exec _ _ _ reachable_default beta_op_ok E)|]. rewrite Hp. reflexivity.
Qed.

Lemma relay_names_peers_witness :
  exists db got, map_recv (lookup_peer_id (Some db)) true (mkClient [inr (event_frame (EPacket key32 [x01]))] []) = Done (got, mkClient [] []) /\
    inr (0, [x01]) ∈ got.
Proof.
  destruct with_beta as (db & Hr & Hp).
  destruct (relay_names_peers db [(0, [[x07]])] (mkClient [] []) true (EPacket key32 [x01]) [] [] Hr) as [_ H].
  - intros id n. rewrite Hp. intros [<- <-]%lookup_singleton_Some. reflexivity.
  - constructor; [constructor; [vm_compute; discriminate|constructor]|constructor].
  - split; [reflexivity|vm_compute; discriminate].
  - destruct (H key32 [x01] eq_refl) as (got & E & Hg). exists db, got. split; [exact E|]. apply Hg. split; [reflexivity|].
    exists beta. rewrite Hp. split; reflexivity.
Defined.

Lemma short_frame_panics_witness : recv_one true (mkClient [inr (mkFrame (mkHeader TRecvPacket 2) [x01; x02])] []) = Panic.
Proof. apply (short_frame_panics true (mkFrame (mkHeader TRecvPacket 2) [x01; x02]) [] []). left. split; [reflexivity|cbn; lia]. Defined.

End Concrete.
End DerpProof.
