(* ===== verification/PeerTracker.v ===== *)
(** * The peer tracker (ts_runtime/src/peer_tracker/mod.rs)

    The actor that applies the peer updates of the control plane to the database, publishes
    every new state, and answers lookups, which wait for the first update. *)

From S2P Require Import Prelude IpNet BartNode IpTrie RoutingTable SplitStackTable BartTable PacketFilter PeerDb PeerDbSpec PeerDbProof.
Import IpNet BartNode RoutingTable BartTable PacketFilter PeerDb PeerDbSpec.

Module PeerTracker.

Section Model.
Context `{HI : Ipnet} `{HO : !HashOrder Z}.

(** ** Messages (ts_control/src/tokio/map_stream.rs) *)

Inductive PeerUpdate : Type :=
| Full (nodes : list PeerNode)
| Delta (patch : list NodeUpdate) (upsert : list PeerNode) (remove : list Z).

(** The fields of an update that the runtime's actors read; the regions of the DERP map are
    their identifiers. *)
Record StateUpdate : Type := mkUpdate {
  derp : option (list Z);
  self_node : option PeerNode;
  peer_update : option PeerUpdate;
  packetfilter : option (option (list Rule) * list (string * option (list Rule)));
}.

Record PeerState : Type := mkPeerState { upserts : gset Z; deletions : gset Z; db_peers : PeerDb }.

(** A lookup; [Pending] pairs it with the reply it owes. *)
Inductive Query : Type :=
| PeerByName (name : string)
| PeerByAcceptedRoute (ip : IpAddr)
| PeerByTailnetIp (ip : IpAddr).

Inductive Reply : Type :=
| ReplyNode (node : option PeerNode)
| ReplyNodes (nodes : list PeerNode).

(** The senders of replies are numbered. *)
Abbreviation Pending := (Query * nat)%type.

Record PeerTracker : Type := mkTracker {
  peer_db : PeerDb;
  seen_state_update : bool;
  pending_requests : list Pending;
}.

(** [on_start] *)
Definition tracker_new : PeerTracker := mkTracker default_db false [].

(** ** Lookups *)

(** [str::trim_end_matches('.')] *)
Fixpoint trim_end_dots (s : string) : string :=
  match s with
  | EmptyString => EmptyString
  | String c s =>
      match trim_end_dots s with
      | EmptyString => if Ascii.eqb c (Ascii.ascii_of_nat 46) then EmptyString else String c EmptyString
      | t => String c t
      end
  end.

Definition peer_by_name_opt (db : PeerDb) (name : string) : outcome (option PeerNode) :=
  o ← get (ByName (trim_end_dots name)) db; Done (option_map snd o).

Definition peer_by_tailnet_ip_opt (db : PeerDb) (ip : IpAddr) : outcome (option PeerNode) :=
  o ← get (ByIp ip) db; Done (option_map snd o).

(** [IpNet::from(ip)] is the network of the one address. *)
Definition accepted_route (db : PeerDb) (ip : IpAddr) : outcome (list PeerNode) :=
  route ← new_assert ip (8 * n_octets (is_ipv4 ip));
  l ← get_route route db; Done (map snd l).

Definition answer (db : PeerDb) (q : Query) : outcome Reply :=
  match q with
  | PeerByName name => o ← peer_by_name_opt db name; Done (ReplyNode o)
  | PeerByAcceptedRoute ip => l ← accepted_route db ip; Done (ReplyNodes l)
  | PeerByTailnetIp ip => o ← peer_by_tailnet_ip_opt db ip; Done (ReplyNode o)
  end.

(** The three message handlers; without a sender nobody waits for the reply. *)
Definition request (q : Query) (sender : option nat) : ST PeerTracker (list (nat * Reply)) := fun self =>
  match sender with
  | None => Done ([], self)
  | Some sender =>
      if seen_state_update self then r ← answer (peer_db self) q; Done ([(sender, r)], self)
      else Done ([], mkTracker (peer_db self) false (pending_requests self ++ [(q, sender)]))
  end.

(** ** Updates *)

(** [for x in xs { let id = f(x); ids.insert(id); }] *)
Fixpoint collect {X} (f : X -> ST PeerDb Z) (xs : list X) (ids : gset Z) : ST PeerDb (gset Z) :=
  match xs with
  | [] => mret ids
  | x :: xs => id ← f x; collect f xs ({[id]} ∪ ids)
  end.

Fixpoint remove_all (nodes : list Z) (ids : gset Z) : ST PeerDb (gset Z) :=
  match nodes with
  | [] => mret ids
  | node :: nodes =>
      o ← remove (ByNodeId node);
      remove_all nodes (match o with Some (id, _) => {[id]} ∪ ids | None => ids end)
  end.

(** The upserted and deleted identifiers. *)
Definition apply_peer_update (u : PeerUpdate) : ST PeerDb (gset Z * gset Z) :=
  match u with
  | Full new_nodes => fun db =>
      let new_ids : gset string := list_to_set (map stable_id new_nodes) in
      let deletions : gset Z := dom (filter (fun p : Z * PeerNode => stable_id (snd p) ∉ new_ids) (peers db)) in
      db ← retain (fun id peer => bool_decide (stable_id peer ∈ new_ids)) db;
      '(upserts, db) ← collect upsert new_nodes ∅ db;
      Done ((upserts, deletions), db)
  | Delta patch upsert remove =>
      deletions ← remove_all remove ∅;
      upserts ← collect PeerDb.upsert upsert ∅;
      upserts ← collect PeerDb.patch patch upserts;
      mret (upserts, deletions)
  end.

Fixpoint answers (db : PeerDb) (reqs : list Pending) : outcome (list (nat * Reply)) :=
  match reqs with
  | [] => Done []
  | (q, sender) :: reqs => r ← answer db q; rest ← answers db reqs; Done ((sender, r) :: rest)
  end.

Definition service_pending_requests : ST PeerTracker (list (nat * Reply)) := fun self =>
  if seen_state_update self then Done ([], self)
  else
    replies ← answers (peer_db self) (pending_requests self);
    Done (replies, mkTracker (peer_db self) true []).

(** [handle] of a [StateUpdate]: the state it publishes and the replies it sends. *)
Definition tracker_handle (msg : StateUpdate) : ST PeerTracker (option PeerState * list (nat * Reply)) := fun self =>
  match peer_update msg with
  | None => Done ((None, []), self)
  | Some u =>
      '((upserts, deletions), db) ← apply_peer_update u (peer_db self);
      let self := mkTracker db (seen_state_update self) (pending_requests self) in
      '(replies, self) ← service_pending_requests self;
      Done ((Some (mkPeerState upserts deletions (peer_db self)), replies), self)
  end.

End Model.

(** ** Identifiers

    An identifier belongs to one node for good, whatever control sends: this needs neither
    distinct fields nor consistent indexes, and holds across patches. *)

Section Binding.
Context `{HI : Ipnet} `{HO : !HashOrder Z}.
Implicit Types (db : PeerDb) (B : gmap Z string).

(** [B] remembers the stable identifier that every identifier ever handed out belongs to. *)
Record bound B db : Prop := {
  bd_node id n : peers db !! id = Some n -> B !! id = Some (stable_id n);
  bd_index : index_of (fun n => Some (stable_id n)) (stableid_idx (index_state db)) (peers db);
  bd_next id : is_Some (B !! id) -> 0 <= id < next_id db;
  bd_room : 0 <= next_id db;
}.

(** What an operation may do: only [ids] are touched, no identifier changes hands, and one
    whose node is gone stays without a node. *)
Record advance (ids : gset Z) B db B' db' : Prop := {
  ad_bound : bound B' db';
  ad_grow : B ⊆ B';
  ad_gone id : is_Some (B !! id) -> peers db !! id = None -> peers db' !! id = None;
  ad_other id : id ∉ ids -> peers db' !! id = peers db !! id;
}.

Lemma bound_default : bound ∅ default_db.
Proof. split; cbn; [by intros ??|apply index_empty|by intros id [? ?]|done]. Qed.

Lemma advance_refl B db : bound B db -> advance ∅ B db B db.
Proof. by split. Qed.

Lemma advance_trans i j B1 db1 B2 db2 B3 db3 :
  advance i B1 db1 B2 db2 -> advance j B2 db2 B3 db3 -> advance (i ∪ j) B1 db1 B3 db3.
Proof.
  intros [A1 A2 A3 A4] [C1 C2 C3 C4]. split; [done|by etrans|..].
  - intros id Hb Hn. apply C3; [|by apply A3]. destruct Hb as [s Hs]. exists s. by eapply lookup_weaken.
  - intros id Hi. rewrite C4, A4; set_solver.
Qed.

Lemma advance_weaken i j B db B' db' : i ⊆ j -> advance i B db B' db' -> advance j B db B' db'.
Proof. intros Hs [A1 A2 A3 A4]. split; [done..|]. intros id Hi. apply A4. set_solver. Qed.

(** What [upsert] relies on: the index knows every stored node, and the next identifier is
    unused. *)
Record weak_index db : Prop := {
  wi_node id n : peers db !! id = Some n -> stableid_idx (index_state db) !! stable_id n = Some id;
  wi_inj s1 s2 id : stableid_idx (index_state db) !! s1 = Some id -> stableid_idx (index_state db) !! s2 = Some id -> s1 = s2;
  wi_next : peers db !! next_id db = None;
}.

Lemma bound_weak B ps0 ps s nx : bound B (mkDb ps0 s nx) -> ps ⊆ ps0 -> weak_index (mkDb ps s nx).
Proof.
  intros [B1 B2 B3 B4] Hs. unfold index_of in B2. cbn [peers index_state next_id] in *. split; cbn [peers index_state next_id].
  - intros id n Hn. apply B2. exists n. split; [by eapply lookup_weaken|done].
  - intros s1 s2 id (n & Hn & [= <-])%B2 (m & Hm & [= <-])%B2. congruence.
  - destruct (ps !! nx) as [n|] eqn:En; [|done]. assert (Hn : ps0 !! nx = Some n) by (by eapply lookup_weaken).
    apply B1 in Hn. specialize (B3 nx (ex_intro _ _ Hn)). lia.
Qed.

Lemma update_stable new old id s s' :
  update_indexes new old id s = Done s' -> (forall o, old = Some o -> stable_id o = stable_id new) ->
  (is_Some old -> stableid_idx s !! stable_id new = Some id) ->
  stableid_idx s' = <[stable_id new := id]> (stableid_idx s).
Proof.
  unfold update_indexes. intros E Ho Hi.
  repeat match type of E with (?m ≫= _) = Done _ => let F := fresh "F" in destruct m eqn:F; [cbn [mbind outcome_bind] in E|done] end.
  injection E as <-. cbn [stableid_idx]. unfold maybe_update_idx, maybe_update in F0. destruct old as [o|].
  - rewrite decide_True in F0 by (by apply Ho). injection F0 as <-. rewrite insert_id; [done|]. by apply Hi.
  - by injection F0 as <-.
Qed.

Lemma choose_id_shape db stable id nx :
  choose_id db stable = Done (id, nx) ->
  (stableid_idx (index_state db) !! stable = Some id /\ nx = next_id db) \/
  (stableid_idx (index_state db) !! stable = None /\ id = next_id db /\ nx = next_id db + 1).
Proof.
  unfold choose_id. destruct (stableid_idx (index_state db) !! stable) as [i|]; [intros [= <- <-]; by left|].
  unfold add_w. destruct (_ <? _); [|done]. cbn [mbind outcome_bind]. intros [= <- <-]. by right.
Qed.

Lemma upsert_shape new db id db' :
  weak_index db -> upsert new db = Done (id, db') ->
  choose_id db (stable_id new) = Done (id, next_id db') /\ peers db' = <[id := new]> (peers db) /\
  stableid_idx (index_state db') = <[stable_id new := id]> (stableid_idx (index_state db)).
Proof.
  intros [W1 W2 W3] E. unfold upsert in E. destruct (choose_id db (stable_id new)) as [[i nx]|] eqn:Ec; [|done]. cbn [mbind outcome_bind] in E.
  assert (Hold : forall o, peers db !! i = Some o -> stableid_idx (index_state db) !! stable_id new = Some i /\ stable_id o = stable_id new).
  { intros o Ho. destruct (choose_id_shape _ _ _ _ Ec) as [[Hs _]|(_ & -> & _)]; [|congruence]. split; [done|]. eapply W2; [by apply W1|done]. }
  destruct (decide (peers db !! i = Some new)) as [Hn|Hn].
  - injection E as <- <-. cbn [peers index_state next_id]. rewrite !insert_id; [done|by apply (Hold new)|done].
  - destruct (update_indexes new (peers db !! i) i (index_state db)) as [s'|] eqn:Eu; [|done]. injection E as <- <-. split_and!; [done..|]. cbn [index_state].
    apply (update_stable _ _ _ _ _ Eu); [intros o Ho; by apply Hold|]. intros [o Ho]. by apply (Hold o).
Qed.

(** A node put under the identifier chosen for its stable identifier. *)
Lemma put_advance new B db id db' :
  bound B db -> choose_id db (stable_id new) = Done (id, next_id db') -> peers db' = <[id := new]> (peers db) ->
  stableid_idx (index_state db') = <[stable_id new := id]> (stableid_idx (index_state db)) ->
  exists B', advance {[id]} B db B' db' /\ B' !! id = Some (stable_id new).
Proof.
  intros [B1 B2 B3 B4] Hid Hp Hs. unfold index_of in B2. exists (<[id := stable_id new]> B).
  assert (Hb : B !! id = None \/ B !! id = Some (stable_id new)).
  { apply choose_id_shape in Hid as [[Hi _]|(_ & -> & _)].
    - apply B2 in Hi as (n & Hn & [= <-]). right. by apply B1.
    - left. destruct (B !! next_id db) eqn:E; [|done]. specialize (B3 (next_id db) ltac:(by rewrite E)). lia. }
  assert (Hn : 0 <= id < next_id db' /\ next_id db <= next_id db').
  { apply choose_id_shape in Hid as [[Hi ->]|(_ & -> & ->)]; [|lia]. apply B2 in Hi as (n & Hn & _). apply B1 in Hn. split; [apply B3; by eexists|lia]. }
  assert (Hgone : peers db !! id = None -> B !! id = None).
  { intros Hn0. apply choose_id_shape in Hid as [[Hi _]|(_ & -> & _)]; [apply B2 in Hi as (n & ? & _); congruence|].
    destruct (B !! next_id db) eqn:E; [|done]. specialize (B3 (next_id db) ltac:(by rewrite E)). lia. }
  split; [|by rewrite lookup_insert_eq]. split.
  - split; rewrite ?Hp, ?Hs; [..|lia].
    + intros j n. rewrite lookup_insert_Some. intros [[<- <-]|[Hne Hj]]; [by rewrite lookup_insert_eq|]. rewrite lookup_insert_ne by done. by apply B1.
    + intros k j. rewrite lookup_insert_Some, B2. setoid_rewrite lookup_insert_Some. split.
      * intros [[<- <-]|(Hk & n & Hj & [= <-])]; [by exists new; split; [left|]|]. destruct (decide (id = j)) as [<-|Hne]; [|exists n; auto].
        apply B1 in Hj. destruct Hb as [Hb|Hb]; congruence.
      * intros (n & [[<- <-]|[Hne Hj]] & [= <-]); [by left|]. right. split; [|eauto]. intros Hk.
        apply choose_id_shape in Hid as [[Hi _]|(Hi & _)]; [apply B2 in Hi as (m & Hm & [= Hms])|]; 
          assert (Hj' : stableid_idx (index_state db) !! stable_id new = Some j) by (apply B2; rewrite Hk; eauto);
          [|congruence]. assert (stableid_idx (index_state db) !! stable_id new = Some id) by (apply B2; eauto with congruence). congruence.
    + intros j. rewrite lookup_insert. case_decide as Hj; [subst; lia|]. intros Hsome. specialize (B3 j Hsome). lia.
  - apply map_subseteq_spec. intros j v Hv. rewrite lookup_insert. case_decide as Hj; [subst|done]. destruct Hb; congruence.
  - intros j Hbj Hj. rewrite Hp, lookup_insert_ne; [done|]. intros <-. apply Hgone in Hj. by rewrite Hj in Hbj; destruct Hbj.
  - intros j Hj. rewrite Hp, lookup_insert_ne; [done|]. set_solver.
Qed.

(** An operation that puts a node under the identifier it returns. *)
Definition puts (m : ST PeerDb Z) : Prop := forall B db id db',
  bound B db -> m db = Done (id, db') -> exists B' n, advance {[id]} B db B' db' /\ peers db' = <[id := n]> (peers db).

Lemma upsert_puts new : puts (upsert new).
Proof.
  intros B [ps s nx] id db' Hb E. destruct (upsert_shape new _ id db' (bound_weak B ps ps s nx Hb ltac:(done)) E) as (Hid & Hp & Hs).
  destruct (put_advance new B _ id db' Hb Hid Hp Hs) as (B' & Ha & _). by exists B', new.
Qed.

Lemma patch_puts u : puts (patch u).
Proof.
  intros B [ps s nx] id db' Hb E. unfold patch in E. cbn [index_state peers next_id] in E.
  destruct (control_idx s !! up_id u) as [i|]; [|done]. cbn [unwrap mbind outcome_bind] in E.
  destruct (ps !! i) as [n|] eqn:En; [|done]. cbn [unwrap mbind outcome_bind] in E.
  destruct (apply_update n u) as [n'|] eqn:Eu; [|done]. cbn [mbind outcome_bind] in E. apply PeerDbProof.apply_update_keeps in Eu as [Hst _].
  destruct (upsert_shape n' _ id db' (bound_weak B ps (delete i ps) s nx Hb (delete_subseteq _ _)) E) as (Hid & Hp & Hs). cbn [peers index_state] in *.
  assert (Hi : stableid_idx s !! stable_id n' = Some i) by (apply (bd_index _ _ Hb); rewrite Hst; eauto).
  assert (id = i) as -> by (destruct (choose_id_shape _ _ _ _ Hid) as [[H _]|(H & _)]; cbn [index_state] in H; congruence).
  rewrite insert_delete_eq in Hp. destruct (put_advance n' B (mkDb ps s nx) i db' Hb) as (B' & Ha & _); [|done..|by exists B', n'].
  unfold choose_id in *. cbn [index_state next_id] in *. by rewrite Hi in *.
Qed.

Lemma collect_advance {X} (f : X -> ST PeerDb Z) xs ids B db ids' db' :
  (forall x, puts (f x)) -> bound B db -> (forall id, id ∈ ids -> is_Some (peers db !! id)) -> collect f xs ids db = Done (ids', db') ->
  exists B', ids ⊆ ids' /\ advance ids' B db B' db' /\ forall id, id ∈ ids' -> is_Some (peers db' !! id).
Proof.
  intros Hf. revert ids B db. induction xs as [|x xs IH]; intros ids B db Hb Hs E; cbn [collect] in E.
  { injection E as <- <-. exists B. split_and!; [done| |done]. eapply advance_weaken; [|by apply advance_refl]. set_solver. }
  unfold mbind, ST_bind in E. destruct (f x db) as [[id db1]|] eqn:Ef; [|done].
  destruct (Hf x B db id db1 Hb Ef) as (B1 & n & H1 & Hp). destruct (IH ({[id]} ∪ ids) B1 db1 (ad_bound _ _ _ _ _ H1)) as (B2 & Hsub & H2 & Hs2); [|done|].
  { intros j Hj. rewrite Hp. destruct (decide (j = id)) as [->|Hne]; [by rewrite lookup_insert_eq|]. rewrite lookup_insert_ne by done. apply Hs. set_solver. }
  exists B2. split_and!; [set_solver| |done]. eapply advance_weaken; [|by eapply advance_trans]. set_solver.
Qed.

(** ** Removal *)

Lemma index_remove_stable id n s s' : index_remove id n s = Done s' -> stableid_idx s' = delete (stable_id n) (stableid_idx s).
Proof.
  unfold index_remove. destruct (rt_remove (ip_idx s) _) as [[o1 ip1]|]; [|done]. cbn [mbind outcome_bind].
  destruct (rt_remove ip1 _) as [[o2 ip2]|]; [|done]. cbn [mbind outcome_bind].
  destruct (remove_routes _ _ _) as [rt|]; [|done]. cbn [mbind outcome_bind]. by intros [= <-].
Qed.

(** The identifiers removed so far. *)
Definition gone (ids : gset Z) B db : Prop := forall id, id ∈ ids -> is_Some (B !! id) /\ peers db !! id = None.

Lemma gone_advance ids j B db B' db' : gone ids B db -> advance j B db B' db' -> gone ids B' db'.
Proof.
  intros Hg [A1 A2 A3 A4] id Hid. destruct (Hg id Hid) as [[s Hs] Hn]. split; [|by apply A3; [eexists|]]. exists s. by eapply lookup_weaken.
Qed.

Lemma delete_advance id n s' B db :
  bound B db -> peers db !! id = Some n -> index_remove id n (index_state db) = Done s' ->
  advance {[id]} B db B (mkDb (delete id (peers db)) s' (next_id db)) /\ gone {[id]} B (mkDb (delete id (peers db)) s' (next_id db)).
Proof.
  intros [B1 B2 B3 B4] Hn E. apply index_remove_stable in E.
  split; [|intros j ->%elem_of_singleton; split; [rewrite (B1 id n Hn); by eexists|apply lookup_delete_eq]]. split; [|done|..]; cbn [peers].
  - split; cbn [peers index_state next_id]; [|rewrite E; exact (index_del _ _ _ _ _ B2 Hn)|done..].
    intros j m [_ Hj]%lookup_delete_Some. by apply B1.
  - intros j _ Hj. rewrite lookup_delete. by case_decide.
  - intros j Hj. rewrite lookup_delete_ne; [done|]. set_solver.
Qed.

Lemma remove_advance field B db o db' :
  bound B db -> remove field db = Done (o, db') ->
  match o with
  | Some (id, _) => advance {[id]} B db B db' /\ is_Some (B !! id) /\ peers db' !! id = None
  | None => db' = db
  end.
Proof.
  intros Hb E. unfold remove in E. destruct (lookup field db) as [[id|]|]; cbn [mbind outcome_bind] in E; [|by injection E as <- <-|done].
  destruct (peers db !! id) as [n|] eqn:En; [|by injection E as <- <-].
  destruct (index_remove id n (index_state db)) as [s'|] eqn:Ei; [|done]. injection E as <- <-.
  destruct (delete_advance id n s' B db Hb En Ei) as [Ha Hg]. split; [done|]. apply Hg. set_solver.
Qed.

Lemma remove_all_advance nodes ids B db ids' db' :
  bound B db -> gone ids B db -> remove_all nodes ids db = Done (ids', db') ->
  ids ⊆ ids' /\ advance ids' B db B db' /\ gone ids' B db'.
Proof.
  revert ids db. induction nodes as [|node nodes IH]; intros ids db Hb Hg E; cbn [remove_all] in E.
  { injection E as <- <-. split_and!; [done| |done]. eapply advance_weaken; [|by apply advance_refl]. set_solver. }
  unfold mbind, ST_bind in E. destruct (remove (ByNodeId node) db) as [[o db1]|] eqn:Er; [|done].
  pose proof (remove_advance _ B db o db1 Hb Er) as Ho. destruct o as [[id n]|]; [|subst db1; by apply (IH ids db)].
  destruct Ho as (H1 & Hb1 & Hn). destruct (IH ({[id]} ∪ ids) db1 (ad_bound _ _ _ _ _ H1)) as (Hsub & H2 & Hg2); [|done|].
  { intros j [->%elem_of_singleton|Hj]%elem_of_union; [done|]. by apply (gone_advance ids {[id]} B db B db1). }
  split_and!; [set_solver| |done]. eapply advance_weaken; [|by eapply advance_trans]. set_solver.
Qed.

Lemma retain_loop_advance keys pred B db db' :
  bound B db -> retain_loop keys pred db = Done db' ->
  exists ids, advance ids B db B db' /\ gone ids B db' /\ (forall id, id ∈ ids -> exists n, peers db !! id = Some n /\ pred id n = false) /\
    forall id n, id ∈ keys -> peers db !! id = Some n -> pred id n = false -> id ∈ ids.
Proof.
  revert db. induction keys as [|id keys IH]; intros db Hb E; cbn [retain_loop] in E.
  { injection E as <-. exists ∅. split_and!; [by apply advance_refl|set_solver..]. }
  assert (Hskip : retain_loop keys pred db = Done db' -> (forall n, peers db !! id = Some n -> pred id n = true) ->
    exists ids, advance ids B db B db' /\ gone ids B db' /\ (forall id, id ∈ ids -> exists n, peers db !! id = Some n /\ pred id n = false) /\
      forall j n, j ∈ id :: keys -> peers db !! j = Some n -> pred j n = false -> j ∈ ids).
  { intros E' Hk. destruct (IH db Hb E') as (ids & H1 & H2 & H3 & H4). exists ids. split_and!; [done..|].
    intros j n [->|Hj]%elem_of_cons Hn Hp; [|by eapply H4]. rewrite (Hk n Hn) in Hp. done. }
  destruct (peers db !! id) as [n|] eqn:En; [destruct (pred id n) eqn:Ep|]; [by apply Hskip; [|congruence]| |by apply Hskip].
  destruct (index_remove id n (index_state db)) as [s'|] eqn:Ei; [|done]. cbn [mbind outcome_bind] in E.
  destruct (delete_advance id n s' B db Hb En Ei) as [H1 G1]. destruct (IH _ (ad_bound _ _ _ _ _ H1) E) as (ids & H2 & G2 & I2 & J2). cbn [peers] in I2, J2.
  exists ({[id]} ∪ ids). split_and!; [by eapply advance_trans|..].
  - intros j [->%elem_of_singleton|Hj]%elem_of_union; [|by apply G2]. apply (gone_advance {[id]} ids B _ B db' G1 H2). set_solver.
  - intros j [->%elem_of_singleton|Hj]%elem_of_union; [eauto|]. destruct (I2 j Hj) as (m & [_ Hm]%lookup_delete_Some & Hp). eauto.
  - intros j m [->|Hj]%elem_of_cons Hm Hp; [set_solver|]. destruct (decide (j = id)) as [->|Hne]; [set_solver|].
    apply elem_of_union_r. eapply J2; [done| |done]. by rewrite lookup_delete_ne.
Qed.

Lemma all_empty (P : Z -> Prop) : forall id, id ∈ (∅ : gset Z) -> P id.
Proof. intros id Hid. set_solver. Qed.

(** What a published state says about the step that led to it. *)
Record delta (ups dels : gset Z) B db B' db' : Prop := {
  dl_advance : advance (ups ∪ dels) B db B' db';
  dl_upserts id : id ∈ ups -> is_Some (peers db' !! id);
  dl_deletions id : id ∈ dels -> peers db' !! id = None;
}.

Lemma peer_update_delta u B db ups dels db' :
  bound B db -> apply_peer_update u db = Done ((ups, dels), db') -> exists B', delta ups dels B db B' db'.
Proof.
  intros Hb E. destruct u as [nodes|pt us rs]; cbn [apply_peer_update] in E.
  - set (new_ids := list_to_set (map stable_id nodes) : gset string) in *. set (pred := fun (_ : Z) peer => bool_decide (stable_id peer ∈ new_ids)) in *.
    destruct (retain pred db) as [db1|] eqn:Er; [|done]. cbn [mbind outcome_bind] in E.
    destruct (retain_loop_advance _ _ B db db1 Hb Er) as (ids & H1 & G1 & I1 & J1).
    destruct (collect upsert nodes ∅ db1) as [[us' db2]|] eqn:Ec; [|done]. injection E as <- <- <-.
    destruct (collect_advance _ _ _ B db1 _ _ upsert_puts (ad_bound _ _ _ _ _ H1) (all_empty _) Ec) as (B2 & _ & H2 & S2).
    assert (Hids : ids = dom (filter (fun p : Z * PeerNode => stable_id p.2 ∉ new_ids) (peers db))).
    { apply set_eq. intros id. rewrite elem_of_dom. split.
      - intros (n & Hn & Hp)%I1. apply bool_decide_eq_false_1 in Hp. exists n. by apply map_lookup_filter_Some.
      - intros (n & [Hn Hp]%map_lookup_filter_Some). apply (J1 id n); [|done|by apply bool_decide_eq_false_2]. rewrite hash_keys_perm. apply list_elem_of_fmap.
        exists (id, n). split; [done|]. by apply elem_of_map_to_list. }
    rewrite <- Hids. exists B2. split; [|done|intros id Hid; by apply (gone_advance ids us' B db1 B2 db2)].
    eapply advance_weaken; [|by eapply advance_trans]. set_solver.
  - unfold mbind, ST_bind in E. destruct (remove_all rs ∅ db) as [[ds db1]|] eqn:E1; [|done].
    destruct (remove_all_advance rs ∅ B db ds db1 Hb (all_empty _) E1) as (_ & H1 & G1).
    destruct (collect PeerDb.upsert us ∅ db1) as [[us1 db2]|] eqn:E2; [|done].
    destruct (collect_advance _ _ _ B db1 _ _ upsert_puts (ad_bound _ _ _ _ _ H1) (all_empty _) E2) as (B2 & _ & H2 & S2).
    destruct (collect PeerDb.patch pt us1 db2) as [[us2 db3]|] eqn:E3; [|done]. injection E as <- <- <-.
    destruct (collect_advance _ _ _ B2 db2 _ _ patch_puts (ad_bound _ _ _ _ _ H2) S2 E3) as (B3 & Hsub & H3 & S3).
    pose proof (advance_trans _ _ _ _ _ _ _ _ H2 H3) as H23. exists B3. split; [|done|intros id Hid; by eapply (gone_advance ds _ B db1 B3 db3)].
    eapply advance_weaken; [|eapply advance_trans; [exact H1|exact H23]]. set_solver.
Qed.

(** ** The tracker *)

(** Replies come once, after the first update, from the state then. *)
Lemma handle_delta msg B t o rs t' :
  bound B (peer_db t) -> tracker_handle msg t = Done ((o, rs), t') ->
  match o with
  | None => t' = t
  | Some st => db_peers st = peer_db t' /\ seen_state_update t' = true /\
      exists B', delta (upserts st) (deletions st) B (peer_db t) B' (peer_db t')
  end.
Proof.
  intros Hb E. unfold tracker_handle in E. destruct (peer_update msg) as [u|]; [|by injection E as <- <- <-].
  destruct (apply_peer_update u (peer_db t)) as [[[us ds] db]|] eqn:Eu; [|done]. cbn [mbind outcome_bind] in E.
  destruct (peer_update_delta u B _ us ds db Hb Eu) as [B' Hd]. unfold service_pending_requests in E. cbn [seen_state_update peer_db pending_requests] in E.
  destruct (seen_state_update t) eqn:Es; cbn [mbind outcome_bind] in E.
  - injection E as <- <- <-. cbn. split_and!; eauto.
  - destruct (answers db (pending_requests t)) as [replies|]; [|done]. cbn [mbind outcome_bind] in E. injection E as <- <- <-. cbn. eauto.
Qed.

End Binding.
End PeerTracker.
