(* ===== verification/Runtime.v ===== *)
(** * The actors of the runtime (ts_runtime/src/dataplane.rs, src_filter.rs, route_updater.rs, packetfilter.rs)

    The handlers of the actors between the control plane and the data plane, and the system
    they form: every actor takes the messages of its mailbox one by one, in any interleaving
    with the others and with traffic.  A handler that panics stops its actor, which then takes
    no further step. *)

From S2P Require Import Prelude Scheduler Packet IpNet BartNode IpTrie RoutingTable SplitStackTable BartTable IdSets PacketFilter BartFilter BartFilterSpec WgState WgPeer Tunnel Routers DataPlane DataPlaneSpec PeerDb PeerDbSpec PeerTracker.
Import IpNet BartNode RoutingTable BartTable IdSets PacketFilter BartFilterSpec Results Tunnel Routers DataPlane PeerDb PeerTracker.

Module Runtime.

Section Model.
Context `{HI : Ipnet} `{HOa : !HashOrder IpAddr} `{HOz : !HashOrder Z} `{HOs : !HashOrder string} `{HE : Etherparse}.
Context {E : Type} `{T : !Tunnel E}.

Abbreviation Table V := (SplitStackTable.SplitStackTable (Node V)).
Abbreviation Bart := (BartFilter.BartFilter (Table IdSet)).
Abbreviation DataPlane := (DataPlane E).

(** ** Source filter *)

(** [for route in routes { table.insert(route, value) }] *)
Fixpoint insert_all {V} (routes : list IpNet) (value : V) (table : Table V) : outcome (Table V) :=
  match routes with
  | [] => Done table
  | route :: routes => '(_, table) ← rt_insert table route value; insert_all routes value table
  end.

Fixpoint source_loop (nodes : list (Z * PeerNode)) (src_filter : Table Z) : outcome (Table Z) :=
  match nodes with
  | [] => Done src_filter
  | (id, node) :: nodes => t ← insert_all (accepted_routes node) id src_filter; source_loop nodes t
  end.

(** [SourceFilterUpdater] *)
Definition source_handle (st : PeerState) : outcome (Table Z) :=
  source_loop (hash_entries (peers (db_peers st))) SplitStackTable.EMPTY.

(** ** Routes *)

(** The answer of the DERP actor about the transport of a region. *)
Inductive Answer : Type :=
| Transport (id : option Z)
| Unavailable.

(** [ask] gives the answer to the question for a peer's region. *)
Fixpoint routes_loop (ask : Z -> Z -> Answer) (nodes : list (Z * PeerNode)) (underlay : gmap Z Z) (overlay : Table OutAction)
  : outcome (gmap Z Z * Table OutAction) :=
  match nodes with
  | [] => Done (underlay, overlay)
  | (id, peer) :: nodes =>
      match derp_region peer with
      | None => routes_loop ask nodes underlay overlay
      | Some region =>
          let underlay := match ask id region with Transport (Some t) => <[id := t]> underlay | _ => underlay end in
          overlay ← insert_all (accepted_routes peer) (Wireguard id) overlay;
          routes_loop ask nodes underlay overlay
      end
  end.

(** [RouteUpdater] for a peer state *)
Definition routes_handle (ask : Z -> Z -> Answer) (st : PeerState) : outcome (gmap Z Z * Table OutAction) :=
  routes_loop ask (hash_entries (peers (db_peers st))) ∅ SplitStackTable.EMPTY.

(** [RouteUpdater] for an update of the own node *)
Definition self_handle (default_overlay_transport : Z) (node : PeerNode) : outcome (Table InAction) :=
  insert_all (accepted_routes node) (ToOverlay default_overlay_transport) SplitStackTable.EMPTY.

(** ** Packet filter *)

(** [CheckingFilter<HashbrownFilter, BartFilter>] *)
Abbreviation PfState := (CheckingFilter (P := gmap string (list Rule)) (C := Bart)).

Definition pf_new : PfState := mkChecking ∅ (BartFilter.default SplitStackTable.EMPTY).

(** [PacketfilterUpdater] *)
Definition filter_handle (u : option (list Rule) * list (string * option (list Rule))) (pf : PfState) : outcome PfState :=
  PacketFilter.apply_update pf (fst u) (snd u).

(** ** Data plane actor *)

Inductive DpMsg : Type :=
| PeerRouteUpdate (underlay_routes : gmap Z Z) (overlay_out_routes : Table OutAction)
| SelfRouteUpdate (overlay_in_routes : Table InAction)
| PacketFilterState (filter : DynFilter)
| SourceFilterState (filter : Table Z)
| PeersUpdate (st : PeerState).

(** Iteration over a [HashSet]. *)
Definition set_order (s : gset Z) : list Z := hash_keys (gset_to_gmap tt s).

Fixpoint upsert_peers (db : PeerDb) (ids : list Z) : ST E unit :=
  match ids with
  | [] => mret tt
  | id :: ids =>
      o ← st_lift (get (ByPeerId id) db);
      node ← st_lift (unwrap o);
      _ ← Tunnel.upsert_peer id (WgPeer.mkConfig (node_key (snd node)) (zeroes 32));
      upsert_peers db ids
  end.

Fixpoint remove_peers (ids : list Z) : ST E unit :=
  match ids with
  | [] => mret tt
  | id :: ids => _ ← Tunnel.remove_peer id; remove_peers ids
  end.

Definition apply_peers (st : PeerState) : ST E unit :=
  _ ← upsert_peers (db_peers st) (set_order (upserts st));
  remove_peers (set_order (deletions st)).

(** The handlers of [DataplaneActor] *)
Definition dp_handle (msg : DpMsg) (dp : DataPlane) : outcome DataPlane :=
  match msg with
  | PeerRouteUpdate underlay overlay =>
      Done (mkDataPlane (tunnel dp) (fst (swap (or_out dp) overlay)) underlay (src_filter_in dp) (or_in dp) (packet_filter dp) (events dp) (tunnel_next dp))
  | SelfRouteUpdate routes =>
      Done (mkDataPlane (tunnel dp) (or_out dp) (ur_out dp) (src_filter_in dp) (fst (swap (or_in dp) routes)) (packet_filter dp) (events dp) (tunnel_next dp))
  | PacketFilterState filter =>
      Done (mkDataPlane (tunnel dp) (or_out dp) (ur_out dp) (src_filter_in dp) (or_in dp) filter (events dp) (tunnel_next dp))
  | SourceFilterState filter =>
      Done (mkDataPlane (tunnel dp) (or_out dp) (ur_out dp) filter (or_in dp) (packet_filter dp) (events dp) (tunnel_next dp))
  | PeersUpdate st => '(_, t) ← apply_peers st (tunnel dp); Done (with_tunnel dp t)
  end.

(** ** The system *)

(** The actors with their mailboxes.  [published] are the peer states published so far and
    [applied] the filter updates handled so far; no actor reads them. *)
Record System : Type := mkSystem {
  tracker : PeerTracker;
  tracker_mail : list StateUpdate;
  source_mail : list PeerState;
  routes_mail : list (StateUpdate + PeerState);
  pf_state : PfState;
  filter_mail : list StateUpdate;
  plane : DataPlane;
  plane_mail : list DpMsg;
  published : list PeerState;
  applied : list (option (list Rule) * list (string * option (list Rule)));
}.

Definition start (t : E) : System := mkSystem tracker_new [] [] [] pf_new [] (dataplane_new t) [] [] [].

(** What control respects: a node key belongs to one node, and there are fewer than 2^64
    routes. *)
Definition keys_owned (sts : list PeerState) : Prop :=
  forall st st' id id' n n', st ∈ sts -> st' ∈ sts -> peers (db_peers st) !! id = Some n -> peers (db_peers st') !! id' = Some n' ->
    node_key n = node_key n' -> id = id'.

Definition room (st : PeerState) : Prop := Z.of_nat (PeerDbSpec.routes_total (peers (db_peers st))) + 1 < U64.

Definition self_room (u : StateUpdate) : Prop := forall n, self_node u = Some n -> Z.of_nat (length (accepted_routes n)) + 1 < U64.

(** Changes of one part of the system. *)
Definition set_tracker (t : PeerTracker) (mail : list StateUpdate) (s : System) : System :=
  mkSystem t mail (source_mail s) (routes_mail s) (pf_state s) (filter_mail s) (plane s) (plane_mail s) (published s) (applied s).
Definition set_source_mail (mail : list PeerState) (s : System) : System :=
  mkSystem (tracker s) (tracker_mail s) mail (routes_mail s) (pf_state s) (filter_mail s) (plane s) (plane_mail s) (published s) (applied s).
Definition set_routes_mail (mail : list (StateUpdate + PeerState)) (s : System) : System :=
  mkSystem (tracker s) (tracker_mail s) (source_mail s) mail (pf_state s) (filter_mail s) (plane s) (plane_mail s) (published s) (applied s).
Definition set_filter_mail (mail : list StateUpdate) (s : System) : System :=
  mkSystem (tracker s) (tracker_mail s) (source_mail s) (routes_mail s) (pf_state s) mail (plane s) (plane_mail s) (published s) (applied s).
Definition set_filter (pf : PfState) (u : option (list Rule) * list (string * option (list Rule))) (s : System) : System :=
  mkSystem (tracker s) (tracker_mail s) (source_mail s) (routes_mail s) pf (filter_mail s) (plane s) (plane_mail s) (published s) (applied s ++ [u]).
Definition set_plane (dp : DataPlane) (mail : list DpMsg) (s : System) : System :=
  mkSystem (tracker s) (tracker_mail s) (source_mail s) (routes_mail s) (pf_state s) (filter_mail s) dp mail (published s) (applied s).

(** [env.publish(..)]: the bus hands the message to every subscriber. *)
Definition post (m : DpMsg) (s : System) : System := set_plane (plane s) (plane_mail s ++ [m]) s.
Definition publish_update (u : StateUpdate) (s : System) : System :=
  mkSystem (tracker s) (tracker_mail s ++ [u]) (source_mail s) (routes_mail s ++ [inl u]) (pf_state s) (filter_mail s ++ [u])
    (plane s) (plane_mail s) (published s) (applied s).
Definition publish_peers (st : PeerState) (s : System) : System :=
  mkSystem (tracker s) (tracker_mail s) (source_mail s ++ [st]) (routes_mail s ++ [inr st]) (pf_state s) (filter_mail s)
    (plane s) (plane_mail s ++ [PeersUpdate st]) (published s ++ [st]) (applied s).

Section Steps.
Context `{HL : !IpnetLaws} `{TL : !TunnelLaws E}.
(** The overlay transport of the route updater. *)
Context (default_transport : Z).

Inductive step (s : System) : System -> Prop :=
| step_control u : self_room u -> step s (publish_update u s)
| step_request q sender replies t :
    request q sender (tracker s) = Done (replies, t) -> step s (set_tracker t (tracker_mail s) s)
| step_tracker u mail replies t :
    tracker_mail s = u :: mail -> tracker_handle u (tracker s) = Done ((None, replies), t) -> step s (set_tracker t mail s)
| step_publish u mail st replies t :
    tracker_mail s = u :: mail -> tracker_handle u (tracker s) = Done ((Some st, replies), t) ->
    keys_owned (published s ++ [st]) -> room st -> step s (publish_peers st (set_tracker t mail s))
| step_source st mail t :
    source_mail s = st :: mail -> source_handle st = Done t -> step s (post (SourceFilterState t) (set_source_mail mail s))
| step_routes ask st mail underlay overlay :
    routes_mail s = inr st :: mail -> routes_handle ask st = Done (underlay, overlay) ->
    step s (post (PeerRouteUpdate underlay overlay) (set_routes_mail mail s))
| step_self u n mail t :
    routes_mail s = inl u :: mail -> self_node u = Some n -> self_handle default_transport n = Done t ->
    step s (post (SelfRouteUpdate t) (set_routes_mail mail s))
| step_self_none u mail : routes_mail s = inl u :: mail -> self_node u = None -> step s (set_routes_mail mail s)
| step_filter u mail fu pf :
    filter_mail s = u :: mail -> packetfilter u = Some fu -> update_ok fu -> updates_weight (applied s ++ [fu]) + 1 < U64 ->
    filter_handle fu (pf_state s) = Done pf -> step s (post (PacketFilterState (as_dyn pf)) (set_filter pf fu (set_filter_mail mail s)))
| step_filter_none u mail : filter_mail s = u :: mail -> packetfilter u = None -> step s (set_filter_mail mail s)
| step_plane m mail dp : plane_mail s = m :: mail -> dp_handle m (plane s) = Done dp -> step s (set_plane dp mail s)
| step_inbound ps r dp :
    can_recv ps (tunnel (plane s)) -> process_inbound ps (plane s) = Done (r, dp) -> step s (set_plane dp (plane_mail s) s)
| step_outbound ps r dp :
    (forall batches, DataPlaneSpec.outbound_batches (plane s) ps = Done batches -> can_send batches (tunnel (plane s))) ->
    process_outbound ps (plane s) = Done (r, dp) -> step s (set_plane dp (plane_mail s) s)
| step_events now r dp :
    can_dispatch now (tunnel (plane s)) -> process_events now (plane s) = Done (r, dp) -> step s (set_plane dp (plane_mail s) s).

End Steps.
End Model.
End Runtime.
