(* ===== verification/RuntimeSpec.v ===== *)
(** * The invariant of the running system

    What every interleaving of the actors preserves: identifiers stay with their nodes, the
    tunnel's peers follow the published states one by one, and every table in use or on its
    way was built from a published state. *)

From S2P Require Import Prelude Scheduler Packet IpNet BartNode IpTrie RoutingTable SplitStackTable BartTable IdSets PacketFilter BartFilter BartFilterSpec BartFilterProof WgState WgPeer Tunnel Routers DataPlane DataPlaneSpec PeerDb PeerDbSpec PeerTracker Runtime.
Import IpNet BartNode RoutingTable BartTable IdSets PacketFilter BartFilterSpec Results Tunnel Routers DataPlane DataPlaneSpec PeerDb PeerDbSpec PeerTracker Runtime.

Module RuntimeSpec.

Section Spec.
Context `{HI : Ipnet} `{HL : !IpnetLaws} `{HOa : !HashOrder IpAddr} `{HOz : !HashOrder Z} `{HOs : !HashOrder string} `{HE : Etherparse} `{HEL : !EtherparseLaws}.
Context {E : Type} `{T : !Tunnel E} `{TL : !TunnelLaws E}.

Abbreviation Table V := (SplitStackTable.SplitStackTable (Node V)).
Abbreviation Update := (option (list Rule) * list (string * option (list Rule)))%type.
Implicit Types (db : PeerDb) (st : PeerState).

(** ** Tables built from a database *)

Section Tables.
Context {V : Type} (val : Z -> V) (sel : PeerNode -> bool).

(** The peer is selected and accepts the route. *)
Definition accepts db (id : Z) (k : bool * list bool) : Prop := exists n, peers db !! id = Some n /\ sel n = true /\ k ∈ map rkey (accepted_routes n).

(** Every route belongs to one of the peers that accept it. *)
Definition built (t : Table V) db : Prop :=
  exists M, rt_repr t M /\ (forall k v, at_key M k = Some v -> exists id, v = val id /\ accepts db id k) /\
    (forall id k, accepts db id k -> is_Some (at_key M k)).

Lemma insert_all_ok rs v (t : Table V) M :
  rt_repr t M -> rsize M + Z.of_nat (length rs) < U64 ->
  exists t' M', insert_all rs v t = Done t' /\ rt_repr t' M' /\ rsize M' <= rsize M + Z.of_nat (length rs) /\
    forall k, at_key M' k = if decide (k ∈ map rkey rs) then Some v else at_key M k.
Proof.
  revert t M. induction rs as [|r rs IH]; intros t M Hr Hsz; cbn [insert_all].
  { exists t, M. split_and!; [done..|lia|]. intros k. by rewrite decide_False by apply not_elem_of_nil. }
  cbn [length] in Hsz. destruct (rt_insert_spec t M r v Hr) as (t1 & -> & Hr1); [lia|]. cbn [mbind outcome_bind].
  pose proof (rsize_set M r (Some v)) as Hb. destruct (IH t1 _ Hr1) as (t' & M' & E' & Hr' & Hsz' & Hk); [lia|].
  exists t', M'. split_and!; [done..|cbn [length]; lia|]. intros k. rewrite Hk, at_rset. cbn [map].
  destruct (decide (k ∈ map rkey rs)) as [Hin|Hin]; [by rewrite decide_True by (by right)|].
  destruct (decide (k = rkey r)) as [->|Hne]; [by rewrite decide_True by left|]. rewrite decide_False; [done|]. by rewrite elem_of_cons; intros [].
Qed.

(** The loops of the updaters, over any selection of peers. *)
Fixpoint fill (nodes : list (Z * PeerNode)) (t : Table V) : outcome (Table V) :=
  match nodes with
  | [] => Done t
  | (id, n) :: nodes => if sel n then t ← insert_all (accepted_routes n) (val id) t; fill nodes t else fill nodes t
  end.

Definition weight (nodes : list (Z * PeerNode)) : nat := sum_list_with (fun p => length (accepted_routes (snd p))) nodes.

Lemma fill_ok nodes t M :
  rt_repr t M -> rsize M + Z.of_nat (weight nodes) < U64 ->
  exists t' M', fill nodes t = Done t' /\ rt_repr t' M' /\
    (forall k v, at_key M' k = Some v ->
       at_key M k = Some v \/ exists id n, v = val id /\ (id, n) ∈ nodes /\ sel n = true /\ k ∈ map rkey (accepted_routes n)) /\
    (forall k, is_Some (at_key M k) \/ (exists id n, (id, n) ∈ nodes /\ sel n = true /\ k ∈ map rkey (accepted_routes n)) -> is_Some (at_key M' k)).
Proof.
  revert t M. induction nodes as [|[id n] nodes IH]; intros t M Hr Hsz; cbn [fill].
  { exists t, M. split_and!; [done..|by left|]. intros k [Hk|(id & n & Hin & _)]; [done|by apply not_elem_of_nil in Hin]. }
  cbn [weight sum_list_with snd] in Hsz. fold (weight nodes) in Hsz. destruct (sel n) eqn:Es.
  - destruct (insert_all_ok (accepted_routes n) (val id) t M Hr) as (t1 & M1 & -> & Hr1 & Hsz1 & Hk1); [lia|]. cbn [mbind outcome_bind].
    destruct (IH t1 M1 Hr1) as (t' & M' & E' & Hr' & Ha & Hb); [lia|]. exists t', M'. split_and!; [done..| |].
    + intros k v Hv. destruct (Ha k v Hv) as [H1|(j & m & -> & Hin & Hm & Hkm)]; [|right; exists j, m; split_and!; [done|by right|done..]].
      rewrite Hk1 in H1. case_decide; [|by left]. injection H1 as <-. right. exists id, n. split_and!; [done|by left|done..].
    + intros k Hk. apply Hb. rewrite Hk1. case_decide as Hd; [left; by eexists|]. destruct Hk as [?|(j & m & [[= -> ->]|Hin]%elem_of_cons & Hm & Hkm)]; [by left|done|].
      right. eauto.
  - destruct (IH t M Hr) as (t' & M' & E' & Hr' & Ha & Hb); [lia|]. exists t', M'. split_and!; [done..| |].
    + intros k v Hv. destruct (Ha k v Hv) as [H1|(j & m & -> & Hin & Hm & Hkm)]; [by left|]. right. exists j, m. split_and!; [done|by right|done..].
    + intros k [?|(j & m & [[= -> ->]|Hin]%elem_of_cons & Hm & Hkm)]; [by apply Hb; left|congruence|]. apply Hb. right. eauto.
Qed.

Lemma entries_perm {A} (m : gmap Z A) : hash_entries m ≡ₚ map_to_list m.
Proof.
  apply NoDup_Permutation; [|apply NoDup_map_to_list|].
  - unfold hash_entries. assert (Hnd : NoDup (hash_keys m)) by (rewrite hash_keys_perm; apply NoDup_fst_map_to_list).
    induction Hnd as [|k l Hk Hl IH]; [constructor|]. rewrite omap_cons_eq. destruct (m !! k) as [v|]; simpl; [|done].
    constructor; [|done]. intros (j & Hj & Hm)%list_elem_of_omap. destruct (m !! j); [|done]. injection Hm as -> ->. done.
  - intros [k v]. rewrite elem_of_hash_entries, elem_of_map_to_list. done.
Qed.

Lemma fill_built db :
  Z.of_nat (routes_total (peers db)) + 1 < U64 -> exists t, fill (hash_entries (peers db)) SplitStackTable.EMPTY = Done t /\ built t db.
Proof.
  intros Hsz. assert (Hw : weight (hash_entries (peers db)) = routes_total (peers db)) by (unfold weight, routes_total; by rewrite entries_perm).
  destruct (fill_ok (hash_entries (peers db)) SplitStackTable.EMPTY no_routes split_empty) as (t & M & E' & Hr & Ha & Hb);
    [rewrite Hw; change (rsize no_routes) with 0; lia|]. exists t. split; [done|]. exists M. split_and!; [done|..].
  - intros k v [Hv|(id & n & -> & Hin & Hs & Hk)]%Ha; [unfold at_key, RoutingTable.sel, no_routes in Hv; by destruct k as [[] k]|].
    exists id. split; [done|]. exists n. by apply elem_of_hash_entries in Hin.
  - intros id k (n & Hn & Hs & Hk). apply Hb. right. exists id, n. by rewrite elem_of_hash_entries.
Qed.

Lemma built_empty db : peers db = ∅ -> built SplitStackTable.EMPTY db.
Proof.
  intros Hp. exists no_routes. split_and!; [apply split_empty|by intros [[] k] v|]. intros id k (n & Hn & _). by rewrite Hp in Hn.
Qed.

Lemma built_peers t db db' : peers db = peers db' -> built t db -> built t db'.
Proof. intros Hp (M & Hr & H1 & H2). exists M. unfold accepts in *. rewrite <- Hp. done. Qed.

(** The answer is a peer with a longest accepted route for the address. *)
Definition longest_owner db (a : IpAddr) (o : option V) : Prop :=
  match o with
  | Some v => exists id n r, v = val id /\ peers db !! id = Some n /\ sel n = true /\ r ∈ accepted_routes n /\ net_contains r a = true /\
      forall id' n' r', peers db !! id' = Some n' -> sel n' = true -> r' ∈ accepted_routes n' -> net_contains r' a = true -> (net_prefix_len r' <= net_prefix_len r)%nat
  | None => forall id n r, peers db !! id = Some n -> sel n = true -> r ∈ accepted_routes n -> net_contains r a = false
  end.

Lemma built_longest db M a :
  (forall k v, at_key M k = Some v -> exists id, v = val id /\ accepts db id k) -> (forall id k, accepts db id k -> is_Some (at_key M k)) ->
  addr_ok a -> longest_owner db a (head (rmatches M a)).
Proof.
  intros H1 H2 Ha. pose proof (head_longest M a Ha) as Hl.
  assert (Hacc : forall id n r, peers db !! id = Some n -> sel n = true -> r ∈ accepted_routes n -> is_Some (rget M r)).
  { intros id n r Hn Hs Hr. apply (H2 id (rkey r)). exists n. split_and!; [done..|]. by apply list_elem_of_fmap_2. }
  destruct (head (rmatches M a)) as [v|]; cbn [longest_owner].
  - destruct Hl as (p & Hc & Hp & Hmax). destruct (H1 (rkey p) v Hp) as (id & -> & n & Hn & Hs & (r & Hrk & Hr)%list_elem_of_fmap).
    injection Hrk as Hf Hk. assert (Hlen : net_prefix_len r = net_prefix_len p) by (rewrite <- !key_length; congruence).
    exists id, n, r. split_and!; [done..| |].
    + apply net_contains_spec in Hc as [Hcf Hck]; [|done]. apply net_contains_spec; [done|]. rewrite <- Hf, <- Hk, Hlen. done.
    + intros id' n' r' Hn' Hs' Hr' Hc'. destruct (Nat.le_gt_cases (net_prefix_len r') (net_prefix_len r)) as [|Hgt]; [done|]. exfalso.
      destruct (Hacc id' n' r' Hn' Hs' Hr') as [w Hw]. rewrite (Hmax r' Hc') in Hw; [done|lia].
  - intros id n r Hn Hs Hr. apply not_true_iff_false. intros Hc. destruct (Hacc id n r Hn Hs Hr) as [w Hw]. by rewrite (Hl r Hc) in Hw.
Qed.

Lemma built_lookup t db a : built t db -> addr_ok a -> exists o, rt_lookup t a = Done o /\ longest_owner db a o.
Proof. intros (M & Hr & H1 & H2) Ha. exists (head (rmatches M a)). split; [by apply rt_lookup_spec|by apply built_longest]. Qed.

End Tables.

Lemma source_loop_fill nodes t : source_loop nodes t = fill (fun id => id) (fun _ => true) nodes t.
Proof.
  revert t. induction nodes as [|[id n] nodes IH]; intros t; cbn [source_loop fill]; [done|]. destruct (insert_all _ _ _); [|done]. cbn [mbind outcome_bind]. apply IH.
Qed.

Definition has_region (n : PeerNode) : bool := match derp_region n with Some _ => true | None => false end.

Lemma routes_loop_fill ask nodes u t t' :
  fill Wireguard has_region nodes t = Done t' -> exists u', routes_loop ask nodes u t = Done (u', t').
Proof.
  revert u t. induction nodes as [|[id n] nodes IH]; intros u t E'; cbn [routes_loop fill] in *; [injection E' as <-; by eexists|].
  unfold has_region in E' at 1. destruct (derp_region n); [|by apply IH]. destruct (insert_all _ _ _); [|done]. cbn [mbind outcome_bind] in *. by apply IH.
Qed.

Lemma source_handle_ok st : room st -> exists t, source_handle st = Done t /\ built (fun id => id) (fun _ => true) t (db_peers st).
Proof. intros Hr. unfold source_handle. rewrite source_loop_fill. by apply fill_built. Qed.

Lemma routes_handle_ok ask st : room st -> exists u t, routes_handle ask st = Done (u, t) /\ built Wireguard has_region t (db_peers st).
Proof.
  intros Hr. destruct (fill_built Wireguard has_region (db_peers st) Hr) as (t & E' & Hb). destruct (routes_loop_fill ask _ ∅ _ _ E') as (u & Eu). by exists u, t.
Qed.

Lemma self_handle_ok dt n : Z.of_nat (length (accepted_routes n)) + 1 < U64 -> exists t M, self_handle dt n = Done t /\ rt_repr t M.
Proof.
  intros Hr. destruct (insert_all_ok (accepted_routes n) (ToOverlay dt) SplitStackTable.EMPTY no_routes split_empty) as (t & M & E' & Ht & _); [change (rsize no_routes) with 0; lia|].
  by exists t, M.
Qed.

(** ** From published states to tables *)

(** The database of a published state, or the empty one before the first. *)
Definition snapshot (hist : list PeerState) db : Prop := peers db = ∅ \/ exists st, st ∈ hist /\ peers db = peers (db_peers st).

Lemma snapshot_grow hist st db : snapshot hist db -> snapshot (hist ++ [st]) db.
Proof. intros [?|(s & Hs & ?)]; [by left|]. right. exists s. split; [set_solver|done]. Qed.

Section Pipe.
Context {V : Type} (val : Z -> V) (sel : PeerNode -> bool).

(** An updater with the states in its mailbox, the tables on their way and the one in use. *)
Record pipe (hist box : list PeerState) (sent : list (Table V)) (cur : Table V) db : Prop := {
  pi_box st : st ∈ box -> st ∈ hist;
  pi_built t : t ∈ cur :: sent -> exists db0, snapshot hist db0 /\ built val sel t db0;
  pi_latest : match last box with
              | Some st => peers (db_peers st) = peers db
              | None => built val sel (default cur (last sent)) db
              end;
}.

Lemma pipe_empty : pipe [] [] [] SplitStackTable.EMPTY default_db.
Proof.
  split; [set_solver| |by apply built_empty]. intros t ->%list_elem_of_singleton. exists default_db. split; [by left|by apply built_empty].
Qed.

Lemma pipe_publish hist box sent cur db st : pipe hist box sent cur db -> pipe (hist ++ [st]) (box ++ [st]) sent cur (db_peers st).
Proof.
  intros [P1 P2 P3]. split.
  - intros s. rewrite !elem_of_app. intros [Hs|Hs]; [left; by apply P1|by right].
  - intros t Ht. destruct (P2 t Ht) as (d & Hd & Hb). exists d. split; [by apply snapshot_grow|done].
  - by rewrite last_snoc.
Qed.

Lemma pipe_handle hist st box sent cur db t :
  pipe hist (st :: box) sent cur db -> built val sel t (db_peers st) -> pipe hist box (sent ++ [t]) cur db.
Proof.
  intros [P1 P2 P3] Ht. split.
  - intros s Hs. apply P1. by right.
  - intros t'. rewrite app_comm_cons, elem_of_app, list_elem_of_singleton. intros [H| ->]; [by apply P2|]. exists (db_peers st). split; [|done].
    right. exists st. split; [apply P1; by left|done].
  - rewrite last_snoc. destruct box as [|s box]; [cbn in P3 |- *; by eapply built_peers|]. rewrite last_cons_cons in P3. destruct (last (s :: box)) eqn:El; [done|]. by apply last_None in El.
Qed.

Lemma pipe_receive hist box t sent cur db : pipe hist box (t :: sent) cur db -> pipe hist box sent t db.
Proof.
  intros [P1 P2 P3]. split; [done|intros t' Ht; apply P2; by right|]. destruct (last box); [done|]. destruct sent as [|t' sent]; [done|]. rewrite last_cons_cons in P3.
  destruct (last (t' :: sent)) eqn:El; [done|]. by apply last_None in El.
Qed.

Lemma pipe_db hist box sent cur db db' : peers db = peers db' -> pipe hist box sent cur db -> pipe hist box sent cur db'.
Proof. intros Hp [P1 P2 P3]. split; [done..|]. destruct (last box); [congruence|by eapply built_peers]. Qed.

End Pipe.

(** ** The tunnel follows the published states *)

(** What a published state says about the step from [db]. *)
Record changes db st : Prop := {
  ch_upsert id : id ∈ upserts st -> is_Some (peers (db_peers st) !! id);
  ch_delete id : id ∈ deletions st -> peers (db_peers st) !! id = None;
  ch_other id : id ∉ upserts st -> id ∉ deletions st -> peers (db_peers st) !! id = peers db !! id;
}.

Fixpoint chain db (sts : list PeerState) db' : Prop :=
  match sts with
  | [] => peers db = peers db'
  | st :: sts => changes db st /\ chain (db_peers st) sts db'
  end.

Lemma changes_peers db db' st : peers db = peers db' -> changes db st -> changes db' st.
Proof. intros Hp [H1 H2 H3]. split; [done..|]. by rewrite <- Hp. Qed.

Lemma chain_snoc db sts db' st : chain db sts db' -> changes db' st -> chain db (sts ++ [st]) (db_peers st).
Proof.
  revert db. induction sts as [|s sts IH]; intros db; cbn [chain app]; [|intros [? ?]; auto].
  intros Hp Hc. split; [|done]. by eapply changes_peers.
Qed.

Lemma chain_db db sts db' db'' : peers db' = peers db'' -> chain db sts db' -> chain db sts db''.
Proof. revert db. induction sts as [|s sts IH]; intros db Hp; cbn [chain]; [congruence|]. intros [? ?]. auto. Qed.

Lemma delta_changes ups dels B db B' db' : delta ups dels B db B' db' -> changes db (mkPeerState ups dels db').
Proof. intros [[_ _ _ Ho] Hu Hd]. split; cbn [upserts deletions db_peers]; [done..|]. intros id Hu' Hd'. apply Ho. set_solver. Qed.

(** The tunnel has the peers of the database. *)
Definition synced (t : E) db : Prop := forall id, peer_key t id = node_key <$> peers db !! id.

Lemma elem_of_set_order (s : gset Z) id : id ∈ set_order s <-> id ∈ s.
Proof.
  unfold set_order. rewrite hash_keys_perm. rewrite list_elem_of_fmap. split.
  - intros ([j []] & -> & Hj). apply elem_of_map_to_list, lookup_gset_to_gmap_Some in Hj as [? _]. done.
  - intros Hid. exists (id, tt). split; [done|]. by apply elem_of_map_to_list, lookup_gset_to_gmap_Some.
Qed.

Lemma upsert_peers_ok db ids (cur : Z -> option bytes) t :
  tunnel_ok t -> (forall j, peer_key t j = cur j) -> (forall id, id ∈ ids -> is_Some (peers db !! id)) ->
  (forall id id' n n', peers db !! id = Some n -> peers db !! id' = Some n' -> node_key n = node_key n' -> id = id') ->
  (forall id n j, peers db !! id = Some n -> cur j = Some (node_key n) -> j = id) ->
  exists t', upsert_peers db ids t = Done (tt, t') /\ tunnel_ok t' /\
    forall j, peer_key t' j = if decide (j ∈ ids) then node_key <$> peers db !! j else cur j.
Proof.
  intros Ht Hcur Hin Hu Hf. revert cur t Ht Hcur Hf. induction ids as [|id ids IH]; intros cur t Ht Hcur Hf; cbn [upsert_peers].
  { exists t. split_and!; [done..|]. intros j. rewrite decide_False by apply not_elem_of_nil. apply Hcur. }
  destruct (Hin id) as [n Hn]; [by left|]. unfold mbind, ST_bind, get. cbn [lookup]. rewrite decide_True by (rewrite Hn; by eexists).
  cbn [mbind outcome_bind st_lift option_bind]. rewrite Hn. cbn [mbind option_bind unwrap st_lift snd].
  destruct (upsert_total id (WgPeer.mkConfig (node_key n) (zeroes 32)) t Ht) as (o & t1 & -> & Ht1 & Hk1); [done| |].
  { intros j Hne Hj. cbn in Hj. rewrite Hcur in Hj. by apply Hne, (Hf id n j). }
  cbn [WgPeer.key] in Hk1. destruct (IH ltac:(intros; apply Hin; by right) (fun j => if decide (j = id) then Some (node_key n) else cur j) t1 Ht1) as (t' & E' & Ht' & Hk').
  - intros j. rewrite Hk1. by case_decide.
  - intros id' n' j Hn' Hj. cbn in Hj. case_decide; [subst|by eapply Hf]. injection Hj as Hj. by eapply Hu.
  - exists t'. split_and!; [done..|]. intros j. rewrite Hk'. destruct (decide (j ∈ ids)) as [Hj|Hj]; [by rewrite decide_True by (by right)|].
    destruct (decide (j = id)) as [->|Hne]; [rewrite decide_True by left; by rewrite Hn|]. rewrite decide_False; [done|]. rewrite elem_of_cons. tauto.
Qed.

Lemma remove_peers_ok ids t :
  tunnel_ok t -> exists t', remove_peers ids t = Done (tt, t') /\ tunnel_ok t' /\
    forall j, peer_key t' j = if decide (j ∈ ids) then None else peer_key t j.
Proof.
  revert t. induction ids as [|id ids IH]; intros t Ht; cbn [remove_peers].
  { exists t. split_and!; [done..|]. intros j. by rewrite decide_False by apply not_elem_of_nil. }
  unfold mbind, ST_bind. destruct (remove_total id t Ht) as (b & t1 & -> & Ht1 & Hk1). destruct (IH t1 Ht1) as (t' & E' & Ht' & Hk').
  exists t'. split_and!; [done..|]. intros j. rewrite Hk', Hk1. destruct (decide (j ∈ ids)) as [Hj|Hj]; [by rewrite decide_True by (by right)|].
  destruct (decide (j = id)) as [->|Hne]; [by rewrite decide_True by left|]. rewrite decide_False; [done|]. rewrite elem_of_cons. tauto.
Qed.

Lemma apply_peers_ok hist st db t :
  tunnel_ok t -> synced t db -> changes db st -> keys_owned hist -> st ∈ hist -> snapshot hist db ->
  exists t', apply_peers st t = Done (tt, t') /\ tunnel_ok t' /\ synced t' (db_peers st).
Proof.
  intros Ht Hs Hc Hk Hst Hdb. destruct (upsert_peers_ok (db_peers st) (set_order (upserts st)) (fun id => node_key <$> peers db !! id) t Ht Hs) as (t1 & E1 & Ht1 & Hk1).
  - intros id Hid%elem_of_set_order. by apply (ch_upsert _ _ Hc).
  - intros id id' n n' Hn Hn' Heq. by apply (Hk st st id id' n n').
  - intros id n j Hn Hj. destruct (peers db !! j) as [m|] eqn:Hm; [|done]. injection Hj as Hj. destruct Hdb as [Hp|(s & Hs' & Hp)]; [by rewrite Hp in Hm|].
    rewrite Hp in Hm. by apply (Hk s st j id m n).
  - destruct (remove_peers_ok (set_order (deletions st)) t1 Ht1) as (t2 & E2 & Ht2 & Hk2). exists t2. unfold apply_peers, mbind, ST_bind. rewrite E1.
    split_and!; [done..|]. intros id. rewrite Hk2. destruct (decide (id ∈ set_order (deletions st))) as [Hd|Hd].
    + apply elem_of_set_order in Hd. by rewrite (ch_delete _ _ Hc).
    + rewrite Hk1. destruct (decide (id ∈ set_order (upserts st))) as [Hu|Hu]; [done|].
      rewrite elem_of_set_order in Hd, Hu. by rewrite (ch_other _ _ Hc).
Qed.

(** ** Filters *)

(** The filter answers, and grants only what a rule of the updates grants. *)
Definition enforces (us : list Update) (f : DynFilter) : Prop :=
  filter_total f /\ forall info, info_ok info -> matches f info [] = Done true ->
    exists A rule, apply_updates (∅ : gmap string (list Rule)) us = Done A /\ live A rule /\ rule_matches rule info [] = true.

Lemma enforces_drop_all : enforces [] (as_dyn DropAll).
Proof. split; [intros info _; by eexists|]. intros info _ [=]. Qed.

(** An update of both halves of the checking filter. *)
Section Checking.
Context {P C : Type} `{!FilterStorage P} `{!FilterStorage C}.
Implicit Types (p : P) (c : C).

(** A change that both filters make. *)
Definition both (fp : P -> outcome P) (fc : C -> outcome C) (f : CheckingFilter -> outcome CheckingFilter) : Prop :=
  forall p c p' c', fp p = Done p' -> fc c = Done c' -> f (mkChecking p c) = Done (mkChecking p' c').

Lemma both_remove name : both (fun p => PacketFilter.remove p name) (fun c => PacketFilter.remove c name) (fun f => PacketFilter.remove f name).
Proof. intros p c p' c' Hp Hc. cbn. by rewrite Hp, Hc. Qed.
Lemma both_insert name rs : both (fun p => insert_dyn p name rs) (fun c => insert_dyn c name rs) (fun f => insert_dyn f name rs).
Proof. intros p c p' c' Hp Hc. cbn. by rewrite Hp, Hc. Qed.
Lemma both_clear : both PacketFilter.clear PacketFilter.clear PacketFilter.clear.
Proof. intros p c p' c' Hp Hc. cbn. by rewrite Hp, Hc. Qed.
Lemma both_ret : both mret mret mret.
Proof. by intros p c p' c' [= <-] [= <-]. Qed.

Lemma both_bind fp fc f gp gc g :
  both fp fc f -> both gp gc g -> both (fun p => p ← fp p; gp p) (fun c => c ← fc c; gc c) (fun x => x ← f x; g x).
Proof.
  intros Hf Hg p c p' c' Ep Ec. destruct (fp p) as [p1|] eqn:Ep1; [|done]. destruct (fc c) as [c1|] eqn:Ec1; [|done].
  cbn [mbind outcome_bind] in *. rewrite (Hf p c p1 c1) by done. cbn [mbind outcome_bind]. by apply Hg.
Qed.

Lemma both_rulesets l : both (fun p => apply_rulesets p l) (fun c => apply_rulesets c l) (fun f => apply_rulesets f l).
Proof.
  induction l as [|[name rs] l IH]; cbn [apply_rulesets]; [apply both_ret|].
  destruct rs as [[|r rs]|]; [apply (both_bind _ _ _ _ _ _ (both_remove name) IH)|apply (both_bind _ _ _ _ _ _ (both_insert name (r :: rs)) IH)|
    apply (both_bind _ _ _ _ _ _ (both_remove name) IH)].
Qed.

Lemma checking_update pf l :
  both (fun p => PacketFilter.apply_update p pf l) (fun c => PacketFilter.apply_update c pf l) (fun f => PacketFilter.apply_update f pf l).
Proof.
  unfold PacketFilter.apply_update, apply_update_dyn. destruct (should_clear_storage l); [|destruct pf as [rs|]];
    [apply (both_bind _ _ _ _ _ _ both_clear (both_rulesets _))|apply (both_bind _ _ _ _ _ _ (both_insert _ rs) (both_rulesets _))|
     apply (both_bind _ _ _ _ _ _ both_ret (both_rulesets _))].
Qed.

End Checking.

Lemma updates_weight_snoc us u : updates_weight (us ++ [u]) = updates_weight us + update_weight u.
Proof.
  induction us as [|v us IH]; [cbn; lia|]. change (updates_weight ((v :: us) ++ [u])) with (update_weight v + updates_weight (us ++ [u])).
  change (updates_weight (v :: us)) with (update_weight v + updates_weight us). lia.
Qed.

Lemma apply_updates_snoc {F} `{!FilterStorage F} (f f' : F) us u :
  apply_updates f us = Done f' -> apply_updates f (us ++ [u]) = PacketFilter.apply_update f' (fst u) (snd u).
Proof.
  revert f. induction us as [|v us IH]; intros f; cbn [app apply_updates].
  - intros [= <-]. by destruct (PacketFilter.apply_update f u.1 u.2).
  - destruct (PacketFilter.apply_update f v.1 v.2) as [f1|]; [|done]. cbn [mbind outcome_bind]. apply IH.
Qed.

(** The filter of the updater after the updates it has applied. *)
Definition filter_current (us : list Update) (pf : CheckingFilter (P := gmap string (list Rule)) (C := BartFilter.BartFilter (Table IdSet))) : Prop :=
  updates_weight us + 1 < U64 /\ apply_updates ∅ us = Done (primary pf) /\ refines (checked pf) (updates_weight us) (primary pf).

Lemma filter_step us u pf :
  filter_current us pf -> update_ok u -> updates_weight (us ++ [u]) + 1 < U64 ->
  exists pf', filter_handle u pf = Done pf' /\ filter_current (us ++ [u]) pf' /\ enforces (us ++ [u]) (as_dyn pf').
Proof.
  intros (Hw & Ha & Hr) Hu Hw'. rewrite updates_weight_snoc in Hw'. destruct pf as [A c]. cbn [primary checked] in *.
  destruct (refines_update u c _ A Hr Hu (updates_weight_nonneg us) Hw') as (c' & A' & Ec & EA & Hr'). exists (mkChecking A' c').
  pose proof (apply_updates_snoc _ _ us u Ha) as Es. rewrite EA in Es.
  split_and!; [by apply checking_update|split_and!; [by rewrite updates_weight_snoc|done|by rewrite updates_weight_snoc]|].
  destruct Hr' as [Hwf' _]. assert (Hm : forall info, info_ok info -> exists b, matches (as_dyn (mkChecking A' c')) info [] = Done b /\
    (b = true <-> exists rule, live A' rule /\ rule_matches rule info [] = true)).
  { intros info Hi. destruct (map_matches_spec A' info []) as (b & Eb & Hb). destruct (match_spec c' _ info [] Hwf' Hi) as (o & b' & _ & Eb' & _).
    exists b. split; [|done]. unfold as_dyn. cbn [matches dyn_filter dyn_matches checking_filter primary checked]. by rewrite Eb, Eb'. }
  split; [intros info Hi; destruct (Hm info Hi) as (b & Eb & _); by exists b|]. intros info Hi Ht. destruct (Hm info Hi) as (b & Eb & Hb).
  rewrite Eb in Ht. injection Ht as ->. destruct (proj1 Hb eq_refl) as (rule & Hl & Hrm). by exists A', rule.
Qed.

(** ** The invariant *)

Definition peers_of (m : DpMsg) : option PeerState := match m with PeersUpdate st => Some st | _ => None end.
Definition source_of (m : DpMsg) : option (Table Z) := match m with SourceFilterState t => Some t | _ => None end.
Definition routes_of (m : DpMsg) : option (Table OutAction) := match m with PeerRouteUpdate _ t => Some t | _ => None end.
Definition self_of (m : DpMsg) : option (Table InAction) := match m with SelfRouteUpdate t => Some t | _ => None end.
Definition filter_of (m : DpMsg) : option DynFilter := match m with PacketFilterState f => Some f | _ => None end.
Definition state_of (m : StateUpdate + PeerState) : option PeerState := match m with inr st => Some st | inl _ => None end.

Abbreviation source_pipe := (pipe (fun id => id) (fun _ => true)).
Abbreviation routes_pipe := (pipe Wireguard has_region).
Abbreviation System := (System (E := E)).

Record inv (s : System) : Prop := {
  in_bound : exists B, bound B (peer_db (tracker s)) /\
    forall st id n, st ∈ published s -> peers (db_peers st) !! id = Some n -> B !! id = Some (stable_id n);
  in_keys : keys_owned (published s);
  in_room st : st ∈ published s -> room st;
  in_tunnel : tunnel_ok (tunnel (plane s));
  in_timer : timer_ok (plane s);
  in_peers : exists cur, snapshot (published s) cur /\ synced (tunnel (plane s)) cur /\
    chain cur (omap peers_of (plane_mail s)) (peer_db (tracker s));
  in_mail st : st ∈ omap peers_of (plane_mail s) -> st ∈ published s;
  in_source : source_pipe (published s) (source_mail s) (omap source_of (plane_mail s)) (src_filter_in (plane s)) (peer_db (tracker s));
  in_routes : routes_pipe (published s) (omap state_of (routes_mail s)) (omap routes_of (plane_mail s)) (or_out (plane s)) (peer_db (tracker s));
  in_self u : inl u ∈ routes_mail s -> self_room u;
  in_in t : t ∈ or_in (plane s) :: omap self_of (plane_mail s) -> exists M, rt_repr t M;
  in_pf : filter_current (applied s) (pf_state s);
  in_filters f : f ∈ packet_filter (plane s) :: omap filter_of (plane_mail s) -> exists us, us `prefix_of` applied s /\ enforces us f;
}.

Lemma start_inv t : tunnel_ok t -> (forall id, peer_key t id = None) -> inv (start t).
Proof.
  intros Ht Hk. split; cbn; try done.
  - exists ∅. split; [apply bound_default|by intros st id n ?%not_elem_of_nil].
  - intros st st' id id' n n' ?%not_elem_of_nil. done.
  - by intros st ?%not_elem_of_nil.
  - split; cbn; [apply Scheduler.default_inv| |done]. intros i x Hx. by rewrite lookup_empty in Hx.
  - exists default_db. split_and!; [by left| |done]. intros id. by rewrite Hk.
  - apply pipe_empty.
  - apply pipe_empty.
  - by intros u ?%not_elem_of_nil.
  - intros t' ->%list_elem_of_singleton. exists no_routes. apply split_empty.
  - split_and!; [done..|]. apply BartFilterProof.start_refines.
  - intros f ->%list_elem_of_singleton. exists []. split; [done|apply enforces_drop_all].
Qed.

(** The data plane is well-formed for routes that come from a published state. *)
Lemma inv_dp s :
  inv s -> exists M db, dp_ok M (plane s) /\ snapshot (published s) db /\
    forall a, addr_ok a -> longest_owner (fun id => id) (fun _ => true) db a (best (r_src M) a).
Proof.
  intros Hi. destruct (pi_built _ _ _ _ _ _ _ (in_source s Hi) (src_filter_in (plane s))) as (db & Hs & M1 & R1 & H1 & H1'); [by left|].
  destruct (pi_built _ _ _ _ _ _ _ (in_routes s Hi) (or_out (plane s))) as (db2 & _ & M2 & R2 & _); [by left|].
  destruct (in_in s Hi (or_in (plane s))) as (M3 & R3); [by left|]. destruct (in_filters s Hi (packet_filter (plane s))) as (us & _ & [Hf _]); [by left|].
  exists (mkRouting M2 M1 M3), db. split_and!; [|done|intros a Ha; by apply built_longest]. split; [by apply in_tunnel|done..|by apply in_timer].
Qed.

(** *** Steps *)

Lemma inv_traffic s dp' :
  inv s -> tunnel_ok (tunnel dp') -> timer_ok dp' -> same_but_events (with_tunnel (plane s) (tunnel dp')) dp' ->
  (forall j, peer_key (tunnel dp') j = peer_key (tunnel (plane s)) j) -> inv (set_plane dp' (plane_mail s) s).
Proof.
  intros [] Ht Hm Hs Hk. unfold same_but_events in Hs.
  assert (Hf : or_out dp' = or_out (plane s) /\ src_filter_in dp' = src_filter_in (plane s) /\ or_in dp' = or_in (plane s) /\ packet_filter dp' = packet_filter (plane s))
    by (by rewrite Hs). destruct Hf as (F1 & F2 & F3 & F4). split; cbn; rewrite ?F1, ?F2, ?F3, ?F4; try done.
  destruct in_peers0 as (cur & H1 & H2 & H3). exists cur. split_and!; [done| |done]. intros id. by rewrite Hk.
Qed.

Lemma inv_inbound ps r dp s : inv s -> can_recv ps (tunnel (plane s)) -> process_inbound ps (plane s) = Done (r, dp) -> inv (set_plane dp (plane_mail s) s).
Proof.
  intros Hi Hc Ep. destruct (inv_dp s Hi) as (M & db & Hdp & _). destruct (inbound_ok M (plane s) ps Hdp Hc) as (rc & r' & dp' & Er & E' & Hdp' & Hs & _).
  assert (dp = dp') as -> by congruence. apply inv_traffic; [done|apply Hdp'|apply Hdp'|done|]. intros j. exact (recv_keys ps _ _ _ j (in_tunnel s Hi) Er).
Qed.

Lemma inv_outbound ps r dp s :
  inv s -> (forall batches, outbound_batches (plane s) ps = Done batches -> can_send batches (tunnel (plane s))) ->
  process_outbound ps (plane s) = Done (r, dp) -> inv (set_plane dp (plane_mail s) s).
Proof.
  intros Hi Hc Ep. destruct (inv_dp s Hi) as (M & db & Hdp & _). destruct (outbound_ok M (plane s) ps Hdp Hc) as (b & sent & r' & dp' & _ & _ & Es & E' & Hdp' & Hs & _).
  assert (dp = dp') as -> by congruence. apply inv_traffic; [done|apply Hdp'|apply Hdp'|done|]. intros j. exact (send_keys b _ _ _ j (in_tunnel s Hi) Es).
Qed.

Lemma inv_events now r dp s : inv s -> can_dispatch now (tunnel (plane s)) -> process_events now (plane s) = Done (r, dp) -> inv (set_plane dp (plane_mail s) s).
Proof.
  intros Hi Hc Ep. destruct (inv_dp s Hi) as (M & db & Hdp & _). destruct (events_ok M (plane s) now Hdp Hc) as (r' & dp' & E' & Hdp' & Hs & _ & Hd).
  assert (dp = dp') as -> by congruence. apply inv_traffic; [done|apply Hdp'|apply Hdp'|done|]. intros j.
  destruct Hd as [(res & _ & Ed & _)|(_ & -> & _)]; [|done]. exact (dispatch_keys now _ _ _ j (in_tunnel s Hi) Ed).
Qed.

(** The tracker without a new state. *)
Lemma inv_tracker t mail s : inv s -> peer_db t = peer_db (tracker s) -> inv (set_tracker t mail s).
Proof. intros [] Ht. split; cbn; rewrite ?Ht; try done. Qed.

Lemma inv_publish u mail st replies t s :
  inv s -> tracker_handle u (tracker s) = Done ((Some st, replies), t) -> keys_owned (published s ++ [st]) -> room st ->
  inv (publish_peers st (set_tracker t mail s)).
Proof.
  intros [] E' Hk Hr. destruct in_bound0 as (B & HB & Hpub).
  destruct (handle_delta u B (tracker s) (Some st) replies t HB E') as (Hst & _ & B' & Hd). destruct (dl_advance _ _ _ _ _ _ Hd) as [Hb Hg _ _].
  assert (Hc : changes (peer_db (tracker s)) st).
  { destruct st as [us ds db]. cbn in *. subst db. by eapply delta_changes. }
  split; cbn; rewrite ?omap_app_eq; cbn [omap list_omap peers_of source_of routes_of self_of filter_of state_of]; rewrite ?app_nil_r; try done.
  - exists B'. split; [done|]. intros s' id n [Hin|Heq]%elem_of_app Hn.
    + eapply lookup_weaken; [by eapply Hpub|done].
    + apply list_elem_of_singleton in Heq as ->. rewrite Hst in Hn. by apply (bd_node _ _ Hb).
  - intros s' [Hin|Heq]%elem_of_app; [by apply in_room0|]. by apply list_elem_of_singleton in Heq as ->.
  - destruct in_peers0 as (cur & H1 & H2 & H3). exists cur. split_and!; [by apply snapshot_grow|done|]. rewrite <- Hst. by eapply chain_snoc.
  - intros s' [Hin|Heq]%elem_of_app; [apply elem_of_app; left; by apply in_mail0|]. by apply elem_of_app; right.
  - rewrite <- Hst. by apply (pipe_publish _ _ _ _ _ _ (peer_db (tracker s))).
  - rewrite <- Hst. by apply (pipe_publish _ _ _ _ _ _ (peer_db (tracker s))).
  - intros v [Hin|Heq]%elem_of_app; [by apply in_self0|]. by apply list_elem_of_singleton in Heq.
Qed.

Lemma inv_source st mail t s :
  inv s -> source_mail s = st :: mail -> source_handle st = Done t -> inv (post (SourceFilterState t) (set_source_mail mail s)).
Proof.
  intros [] Em E'. rewrite Em in in_source0. assert (Hst : room st) by (apply in_room0, (pi_box _ _ _ _ _ _ _ in_source0); by left).
  destruct (source_handle_ok st Hst) as (t' & Et & Hb). assert (t' = t) as -> by congruence.
  split; cbn; rewrite ?omap_app_eq; cbn [omap list_omap peers_of source_of routes_of self_of filter_of]; rewrite ?app_nil_r; try done.
  by eapply pipe_handle.
Qed.

Lemma inv_routes ask st mail u t s :
  inv s -> routes_mail s = inr st :: mail -> routes_handle ask st = Done (u, t) -> inv (post (PeerRouteUpdate u t) (set_routes_mail mail s)).
Proof.
  intros [] Em E'. rewrite Em in in_routes0. change (omap state_of (inr st :: mail)) with (st :: omap state_of mail) in in_routes0.
  assert (Hst : room st) by (apply in_room0, (pi_box _ _ _ _ _ _ _ in_routes0); by left).
  destruct (routes_handle_ok ask st Hst) as (u' & t' & Et & Hb). assert (t' = t) as -> by congruence.
  split; cbn; rewrite ?omap_app_eq; cbn [omap list_omap peers_of source_of routes_of self_of filter_of]; rewrite ?app_nil_r; try done.
  - by eapply pipe_handle.
  - intros v Hv. apply in_self0. rewrite Em. by right.
Qed.

Lemma inv_self_none u mail s : inv s -> routes_mail s = inl u :: mail -> inv (set_routes_mail mail s).
Proof.
  intros [] Em. rewrite Em in in_routes0. split; cbn; try done. intros v Hv. apply in_self0. rewrite Em. by right.
Qed.

Lemma inv_self dt u n mail t s :
  inv s -> routes_mail s = inl u :: mail -> self_node u = Some n -> self_handle dt n = Done t -> inv (post (SelfRouteUpdate t) (set_routes_mail mail s)).
Proof.
  intros Hi Em Hn E'. assert (Hr : self_room u) by (apply (in_self s Hi); rewrite Em; by left).
  destruct (self_handle_ok dt n (Hr n Hn)) as (t' & M & Et & Ht). assert (t' = t) as -> by congruence. apply (inv_self_none u mail) in Hi as []; [|done]. cbn in *.
  split; cbn; rewrite ?omap_app_eq; cbn [omap list_omap peers_of source_of routes_of self_of filter_of]; rewrite ?app_nil_r; try done.
  intros t'. rewrite app_comm_cons. intros [Hin|Heq]%elem_of_app; [by apply in_in0|]. apply list_elem_of_singleton in Heq as ->. by exists M.
Qed.

Lemma inv_filter_none mail s : inv s -> inv (set_filter_mail mail s).
Proof. intros []. by split. Qed.

Lemma inv_filter mail fu pf s :
  inv s -> update_ok fu -> updates_weight (applied s ++ [fu]) + 1 < U64 -> filter_handle fu (pf_state s) = Done pf ->
  inv (post (PacketFilterState (as_dyn pf)) (set_filter pf fu (set_filter_mail mail s))).
Proof.
  intros [] Hu Hw E'. destruct (filter_step _ fu _ in_pf0 Hu Hw) as (pf' & Ef & Hc & He). assert (pf' = pf) as -> by congruence.
  split; cbn; rewrite ?omap_app_eq; cbn [omap list_omap peers_of source_of routes_of self_of filter_of]; rewrite ?app_nil_r; try done.
  intros f. rewrite app_comm_cons. intros [Hin|Heq]%elem_of_app.
  - destruct (in_filters0 f Hin) as (us & Hp & Hf). exists us. split; [by apply prefix_app_r|done].
  - apply list_elem_of_singleton in Heq as ->. by exists (applied s ++ [fu]).
Qed.

Lemma timer_same (dp dp' : DataPlane E) : events dp' = events dp -> tunnel_next dp' = tunnel_next dp -> timer_ok dp -> timer_ok dp'.
Proof. intros He Hn []. split; rewrite ?He, ?Hn; done. Qed.

Lemma inv_plane m mail dp s : inv s -> plane_mail s = m :: mail -> dp_handle m (plane s) = Done dp -> inv (set_plane dp mail s).
Proof.
  intros Hi Em E'. pose proof Hi as []. rewrite Em in *.
  destruct m as [u t|t|f|t|st]; cbn [dp_handle] in E'; try (injection E' as <-).
  - split; cbn; try done; [by apply (timer_same (plane s))|by eapply pipe_receive].
  - split; cbn; try done; [by apply (timer_same (plane s))|]. intros t' Ht'. apply in_in0. by right.
  - split; cbn; try done; [by apply (timer_same (plane s))|]. intros f' Hf'. apply in_filters0. by right.
  - split; cbn; try done; [by apply (timer_same (plane s))|by eapply pipe_receive].
  - destruct in_peers0 as (cur & H1 & H2 & [Hc Hch]).
    assert (Hst : st ∈ published s) by (apply in_mail0; by left).
    destruct (apply_peers_ok (published s) st cur (tunnel (plane s)) in_tunnel0 H2 Hc in_keys0 Hst H1) as (t & Et & Ht & Hs).
    rewrite Et in E'. cbn [mbind outcome_bind] in E'. injection E' as <-. split; cbn; try done.
    + by apply timer_tunnel.
    + exists (db_peers st). split_and!; [right; by exists st|done|done].
    + intros s' Hs'. apply in_mail0. by right.
Qed.

Lemma runtime_step_inv dt s s' : step dt s s' -> inv s -> inv s'.
Proof.
  intros Hst Hi. destruct Hst as [u Hu|q sd rs t Er|u mail rs t Em Eh|u mail st rs t Em Eh Hk Hr|st mail t Em Eh|ask st mail ul ol Em Eh|u n mail t Em Hn Eh|u mail Em Hn|
    u mail fu pf Em Hf Hu Hw Eh|u mail Em Hf|m mail dp Em Eh|ps r dp Hc Ep|ps r dp Hc Ep|now r dp Hc Ep].
  - pose proof Hi as []. split; cbn; try done.
    + rewrite omap_app_eq. cbn [omap list_omap state_of]. by rewrite app_nil_r.
    + intros v [Hin|Heq]%elem_of_app; [by apply in_self0|]. by apply list_elem_of_singleton in Heq as [= ->].
  - apply inv_tracker; [done|]. unfold request in Er. destruct sd as [sd|]; [|by injection Er as _ <-]. destruct (seen_state_update (tracker s)).
    + destruct (answer _ _) as [r|]; [|done]. by injection Er as _ <-.
    + by injection Er as _ <-.
  - apply inv_tracker; [done|]. destruct (in_bound s Hi) as (B & HB & _). by rewrite (handle_delta u B _ None rs t HB Eh).
  - by eapply inv_publish.
  - by eapply inv_source.
  - by eapply inv_routes.
  - by eapply inv_self.
  - by eapply inv_self_none.
  - by apply inv_filter.
  - by apply inv_filter_none.
  - by eapply inv_plane.
  - by eapply inv_inbound.
  - by eapply inv_outbound.
  - by eapply inv_events.
Qed.

(** Systems that start with a tunnel without peers. *)
Inductive reachable (dt : Z) : System -> Prop :=
| reachable_start t : tunnel_ok t -> (forall id, peer_key t id = None) -> reachable dt (start t)
| reachable_step s s' : reachable dt s -> step dt s s' -> reachable dt s'.

Lemma runtime_reachable_inv dt s : reachable dt s -> inv s.
Proof. induction 1 as [t Ht Hk|s s' _ IH Hst]; [by apply start_inv|by eapply runtime_step_inv]. Qed.

End Spec.
End RuntimeSpec.
