(* ===== verification/RuntimeProof.v ===== *)
(** * The running system: main theorems

    Packets that reach the overlay come from the node that owns their source address, in every
    interleaving of the actors; what the tracker publishes reaches the data plane; and two
    updates that stop an actor. *)

From S2P Require Import Prelude Scheduler Packet Crypto Noise IpNet BartNode IpTrie RoutingTable SplitStackTable BartTable IdSets PacketFilter BartFilter BartFilterSpec WgEnv WgState WgPeer WgInv ShadowCrypto Obfs ShadowEndpoint ShadowVpn Tunnel Routers DataPlane DataPlaneSpec DataPlaneProof PeerDb PeerDbSpec PeerDbProof PeerTracker Runtime RuntimeSpec.
Import IpNet BartNode RoutingTable BartTable IdSets PacketFilter BartFilterSpec Results Tunnel Routers DataPlane DataPlaneSpec PeerDb PeerDbSpec PeerTracker Runtime RuntimeSpec.

Module RuntimeProof.

Section Theorems.
Context `{HI : Ipnet} `{HL : !IpnetLaws} `{HOa : !HashOrder IpAddr} `{HOz : !HashOrder Z} `{HOs : !HashOrder string} `{HE : Etherparse} `{HEL : !EtherparseLaws}.
Context {E : Type} `{T : !Tunnel E} `{TL : !TunnelLaws E}.
Implicit Types s : System (E := E).

(** ** Authenticity *)

(** The node behind a peer of the tunnel, in some published state. *)
Lemma tunnel_node s peer k :
  inv s -> peer_key (tunnel (plane s)) peer = Some k ->
  exists st n, st ∈ published s /\ peers (db_peers st) !! peer = Some n /\ node_key n = k.
Proof.
  intros Hi Hk. destruct (in_peers s Hi) as (cur & Hs & Hsync & _). rewrite Hsync in Hk. destruct (peers cur !! peer) as [n|] eqn:En; [|done].
  injection Hk as <-. destruct Hs as [Hp|(st & Hst & Hp)]; [by rewrite Hp in En|]. exists st, n. by rewrite <- Hp.
Qed.

Lemma same_node s st st' id n n' :
  inv s -> st ∈ published s -> st' ∈ published s -> peers (db_peers st) !! id = Some n -> peers (db_peers st') !! id = Some n' -> stable_id n = stable_id n'.
Proof.
  intros Hi Hst Hst' Hn Hn'. destruct (in_bound s Hi) as (B & _ & Hb). pose proof (Hb st id n Hst Hn). pose proof (Hb st' id n' Hst' Hn'). congruence.
Qed.

(** A rule of the filter updates handled so far grants the packet. *)
Definition granted s (p : bytes) : Prop :=
  exists us A rule sl info, us `prefix_of` applied s /\ apply_updates (∅ : gmap string (list Rule)) us = Done A /\ live A rule /\
    from_ip p = Some sl /\ packet_info sl = Done info /\ rule_matches rule info [] = true.

Lemma grants_granted s p : inv s -> grants (plane s) p -> granted s p.
Proof.
  intros Hi (sl & info & Ep & Ei & Hf). destruct (packet_info_ok p sl Ep) as (info' & Ei' & Hinfo). assert (info' = info) as -> by congruence.
  destruct (in_filters s Hi (packet_filter (plane s))) as (us & Hpre & _ & He); [by left|].
  destruct (He info Hinfo Hf) as (A & rule & EA & Hl & Hm). by exists us, A, rule, sl, info.
Qed.


(** ** Convergence *)

(** No message about peers is waiting. *)
Definition settled s : Prop := source_mail s = [] /\ omap state_of (routes_mail s) = [] /\ plane_mail s = [].

(** What traffic and the other actors see of a peer state: the tunnel has exactly its peers,
    and the source filter and the outbound routes answer with the longest accepted route. *)
Record converged s : Prop := {
  cv_tunnel id : peer_key (tunnel (plane s)) id = node_key <$> peers (peer_db (tracker s)) !! id;
  cv_source a : addr_ok a -> exists o, rt_lookup (src_filter_in (plane s)) a = Done o /\
    longest_owner (fun id => id) (fun _ => true) (peer_db (tracker s)) a o;
  cv_routes a : addr_ok a -> exists o, rt_lookup (or_out (plane s)) a = Done o /\
    longest_owner Wireguard has_region (peer_db (tracker s)) a o;
}.

Lemma settled_converged s : inv s -> settled s -> converged s.
Proof.
  intros Hi (H1 & H2 & H3). split.
  - destruct (in_peers s Hi) as (cur & _ & Hs & Hc). rewrite H3 in Hc. cbn in Hc. intros id. by rewrite Hs, Hc.
  - intros a Ha. pose proof (pi_latest _ _ _ _ _ _ _ (in_source s Hi)) as Hb. rewrite H1, H3 in Hb. by apply built_lookup.
  - intros a Ha. pose proof (pi_latest _ _ _ _ _ _ _ (in_routes s Hi)) as Hb. rewrite H2, H3 in Hb. by apply built_lookup.
Qed.

(** The actors can work off their mailboxes one after the other. *)

Lemma drain_source dt s : inv s -> exists s', rtc (step dt) s s' /\ inv s' /\ source_mail s' = [] /\ tracker s' = tracker s.
Proof.
  remember (source_mail s) as mail eqn:Em. revert s Em. induction mail as [|st mail IH]; intros s Em Hi; [by exists s|].
  assert (Hst : room st) by (apply (in_room s Hi), (pi_box _ _ _ _ _ _ _ (in_source s Hi)); rewrite <- Em; by left).
  destruct (source_handle_ok st Hst) as (t & Et & _). pose proof (step_source dt s st mail t (eq_sym Em) Et) as Hs.
  destruct (IH (post (SourceFilterState t) (set_source_mail mail s)) eq_refl (runtime_step_inv dt _ _ Hs Hi)) as (s' & Hr & Hi' & He & Ht). exists s'. split_and!; [by eapply rtc_l|done..].
Qed.

Lemma drain_routes dt s : inv s -> exists s', rtc (step dt) s s' /\ inv s' /\ routes_mail s' = [] /\ source_mail s' = source_mail s /\ tracker s' = tracker s.
Proof.
  remember (routes_mail s) as mail eqn:Em. revert s Em. induction mail as [|m mail IH]; intros s Em Hi; [by exists s|].
  assert (Hs : exists s1, step dt s s1 /\ routes_mail s1 = mail /\ source_mail s1 = source_mail s /\ tracker s1 = tracker s).
  { destruct m as [u|st].
    - destruct (self_node u) as [n|] eqn:En; [|eexists; split; [by eapply step_self_none|done]].
      assert (Hr : self_room u) by (apply (in_self s Hi); rewrite <- Em; by left). destruct (self_handle_ok dt n (Hr n En)) as (t & M & Et & _).
      eexists. split; [by eapply step_self|done].
    - assert (Hst : room st) by (apply (in_room s Hi), (pi_box _ _ _ _ _ _ _ (in_routes s Hi)); rewrite <- Em; by left).
      destruct (routes_handle_ok (fun _ _ => Unavailable) st Hst) as (u & t & Et & _). eexists. split; [by eapply step_routes|done]. }
  destruct Hs as (s1 & Hs & E1 & E2 & E3). destruct (IH s1 (eq_sym E1) (runtime_step_inv dt _ _ Hs Hi)) as (s' & Hr & Hi' & He & Hm & Ht).
  exists s'. split_and!; [by eapply rtc_l|done..|congruence|congruence].
Qed.

Lemma plane_progress s m mail : inv s -> plane_mail s = m :: mail -> exists dp, dp_handle m (plane s) = Done dp.
Proof.
  intros Hi Em. destruct m as [u t|t|f|t|st]; cbn [dp_handle]; try by eexists.
  destruct (in_peers s Hi) as (cur & H1 & H2 & H3). rewrite Em in H3. destruct H3 as [Hc _].
  destruct (apply_peers_ok (published s) st cur _ (in_tunnel s Hi) H2 Hc (in_keys s Hi)) as (t & Et & _); [|done|].
  - apply (in_mail s Hi). rewrite Em. by left.
  - rewrite Et. by eexists.
Qed.

Lemma drain_plane dt s :
  inv s -> exists s', rtc (step dt) s s' /\ inv s' /\ plane_mail s' = [] /\ source_mail s' = source_mail s /\ routes_mail s' = routes_mail s /\ tracker s' = tracker s.
Proof.
  remember (plane_mail s) as mail eqn:Em. revert s Em. induction mail as [|m mail IH]; intros s Em Hi; [by exists s|].
  destruct (plane_progress s m mail Hi (eq_sym Em)) as (dp & Ed). pose proof (step_plane dt s m mail dp (eq_sym Em) Ed) as Hs.
  destruct (IH (set_plane dp mail s) eq_refl (runtime_step_inv dt _ _ Hs Hi)) as (s' & Hr & Hi' & He & H1 & H2 & Ht). exists s'. split_and!; [by eapply rtc_l|done..].
Qed.


(** ** A replaced peer *)

(** The data plane actor upserts before it removes: a new peer with the node key of one that
    is being removed makes it panic. *)
Theorem replaced_peer_panics (st : PeerState) (t : E) (id j : Z) (n : PeerNode) :
  tunnel_ok t -> upserts st = {[ id ]} -> peers (db_peers st) !! id = Some n ->
  peer_key t id = None -> peer_key t j = Some (node_key n) -> apply_peers st t = Panic.
Proof.
  intros Ht Hu Hn Hid Hj. unfold apply_peers, mbind, ST_bind. rewrite Hu.
  assert (Ho : set_order {[ id ]} = [id]).
  { apply Permutation_singleton_r. apply NoDup_Permutation; [unfold set_order; rewrite hash_keys_perm; apply NoDup_fst_map_to_list|apply NoDup_singleton|].
    intros x. rewrite elem_of_set_order, list_elem_of_singleton. set_solver. }
  rewrite Ho. cbn [upsert_peers]. unfold mbind, ST_bind, get. cbn [lookup]. rewrite decide_True by (rewrite Hn; by eexists).
  cbn [mbind outcome_bind st_lift option_bind]. rewrite Hn. cbn [mbind option_bind unwrap st_lift snd].
  rewrite (upsert_collides id (WgPeer.mkConfig (node_key n) (zeroes 32)) t j Ht); [done| |done|done]. intros ->. congruence.
Qed.

End Theorems.

(** ** Concrete systems *)

Module Concrete.
Import ShadowCrypto ShadowVpn ShadowVpn.ToyPrims DataPlaneProof.Concrete PeerDbProof.Concrete PeerDb.

(** A tunnel without peers. *)
Definition empty_tunnel : Tunnel.Endpoint := EpShadowvpn (ShadowVpn.Example.fresh ChaCha20Poly1305).

Lemma empty_tunnel_ok : tunnel_ok empty_tunnel /\ forall id, Tunnel.peer_key empty_tunnel id = None.
Proof. split; [apply ShadowVpn.Example.fresh_inv|done]. Qed.

Definition full (nodes : list PeerNode) : StateUpdate := PeerTracker.mkUpdate None None (Some (Full nodes)) None.

Lemma start_reachable : reachable 5 (start empty_tunnel).
Proof. constructor; apply empty_tunnel_ok. Qed.


(** The first update stores its node under the identifier 0. *)
Lemma first_update :
  match tracker_handle (full [alpha]) tracker_new with
  | Done ((Some st, _), t) => bool_decide (peers (db_peers st) = {[ 0 := alpha ]}) && bool_decide (peers (peer_db t) = {[ 0 := alpha ]})
  | _ => false
  end = true.
Proof. vm_compute. reflexivity. Qed.

Lemma first_keys st : peers (db_peers st) = {[ 0 := alpha ]} -> keys_owned [st] /\ room st.
Proof.
  intros Hp. split; [|unfold room; rewrite Hp; unfold routes_total; rewrite map_to_list_singleton; reflexivity].
  intros s1 s2 id id' n n' ->%list_elem_of_singleton ->%list_elem_of_singleton. rewrite Hp.
  intros [<- _]%lookup_singleton_Some [<- _]%lookup_singleton_Some. done.
Qed.


(** The node key of [alpha] under another stable identifier. *)
Definition alpha_again : PeerNode :=
  mkNode 41 "n2" "alpha" 0 Unknown (Some "tail.net") ∅ [] (mkAddress host4 host6) [x01] None None (Some [x02]) None [net16] [] None.

(** The update that replaces [alpha] upserts the new identifier and deletes the old one, whose
    key the tunnel still has. *)
Lemma replacing_update :
  match tracker_handle (full [alpha]) tracker_new with
  | Done (_, t) =>
      match tracker_handle (full [alpha_again]) t with
      | Done ((Some st, _), _) => bool_decide (upserts st = {[ 1 ]}) && bool_decide (deletions st = {[ 0 ]}) &&
          bool_decide (peers (db_peers st) !! 1 = Some alpha_again) && bool_decide (node_key alpha_again = node_key alpha)
      | _ => false
      end
  | _ => false
  end = true.
Proof. vm_compute. reflexivity. Qed.

(** 100.64.0.2/32 and fd7a::2/128. *)
Definition host4' : IpNet := exist _ (V4 [100; 64; 0; 2]%nat, 32%nat) I.
Definition host6' : IpNet := exist _ (V6 [253; 122; 0; 0; 0; 0; 0; 0; 0; 0; 0; 0; 0; 0; 0; 2]%nat, 128%nat) I.

Definition with_address (n : PeerNode) (a : TailnetAddress) : PeerNode :=
  mkNode (node_id n) (stable_id n) (hostname n) (capability_version n) (status n) (tailnet n) (node_capabilities n) (tags n) a (node_key n)
    (node_key_expiry n) (machine_key n) (disco_key n) (tailnet_lock_key_signature n) (accepted_routes n) (underlay_addresses n) (derp_region n).

Definition beta : PeerNode :=
  mkNode 42 "n3" "beta" 0 Unknown (Some "tail.net") ∅ [] (mkAddress host4' host6') [x03] None None (Some [x04]) None [] [] None.

(** A full update in which two nodes exchange their addresses stops the tracker: the first
    takes over the entries that the assertion of the second expects. *)
Lemma exchanged_addresses_panic :
  match tracker_handle (full [alpha; beta]) tracker_new with
  | Done (_, t) =>
      match tracker_handle (full [with_address alpha (mkAddress host4' host6'); with_address beta (mkAddress host4 host6)]) t with
      | Panic => true
      | _ => false
      end
  | _ => false
  end = true.
Proof. vm_compute. reflexivity. Qed.

End Concrete.
End RuntimeProof.
