(* ===== verification/KvValue.v ===== *)
(** * Versioned values (ts_kv_store/src/storage.rs, ts_kv_store/src/transactions.rs)

    Transaction identifiers and the two-slot values of the store.  The debug assertions of
    the source are panics of the model. *)

From S2P Require Import Prelude.

Module KvValue.

(** A [NonZeroU64]. *)
Abbreviation TxnId := Z.

Definition FIRST : TxnId := 1.

(** [checked_add(1).unwrap()] *)
Definition next (self : TxnId) : outcome TxnId := add_w 64 self 1.

(** [debug_assert!] and [assert!] *)
Definition assert (b : bool) : outcome unit := if b then Done tt else Panic.

Record VersionedValue (T : Type) : Type := mkVV {
  slot_a : option (TxnId * T);
  slot_b : option (TxnId * T);
}.
Arguments mkVV {T} _ _.
Arguments slot_a {T} _.
Arguments slot_b {T} _.

Definition default_value {T} : VersionedValue T := mkVV None None.

(** What a reference into a value points at. *)
Inductive Slot := SlotA | SlotB.

Section Value.
Context {T : Type}.
Implicit Types self : VersionedValue T.

Definition new_value (t : T) (id : TxnId) : VersionedValue T := mkVV (Some (id, t)) None.

(** A write through a reference to the value in a slot. *)
Definition write_slot self (s : Slot) (t : T) : VersionedValue T :=
  match s with
  | SlotA => mkVV (match slot_a self with Some (id, _) => Some (id, t) | None => None end) (slot_b self)
  | SlotB => mkVV (slot_a self) (match slot_b self with Some (id, _) => Some (id, t) | None => None end)
  end.

Definition gc_slot (txn_id : TxnId) (o : option (TxnId * T)) : option (TxnId * T) :=
  match o with Some (id, t) => if decide (id = txn_id) then None else Some (id, t) | None => None end.

Definition gc_value self (txn_id : TxnId) : VersionedValue T :=
  mkVV (gc_slot txn_id (slot_a self)) (gc_slot txn_id (slot_b self)).

Definition value_is_empty self : bool :=
  match slot_a self, slot_b self with None, None => true | _, _ => false end.

Definition internal_clone self (txn_id : TxnId) : outcome (option (Slot * T) * VersionedValue T) :=
  match slot_a self, slot_b self with
  | None, None => mret (None, self)
  | Some (aid, a), Some (bid, b) =>
      if decide (txn_id = aid) then mret (Some (SlotA, a), self)
      else if decide (txn_id = bid) then mret (Some (SlotB, b), self)
      else if decide (bid < aid) then
        _ ← assert ((aid <? txn_id) && (bid <? txn_id));
        mret (Some (SlotB, a), mkVV (Some (aid, a)) (Some (txn_id, a)))
      else
        _ ← assert ((aid <? txn_id) && (bid <? txn_id));
        mret (Some (SlotA, b), mkVV (Some (txn_id, b)) (Some (bid, b)))
  | Some (aid, a), None =>
      if decide (txn_id = aid) then mret (Some (SlotA, a), self)
      else mret (Some (SlotB, a), mkVV (Some (aid, a)) (Some (txn_id, a)))
  | None, Some (bid, b) =>
      if decide (txn_id = bid) then mret (Some (SlotB, b), self)
      else mret (Some (SlotA, b), mkVV (Some (txn_id, b)) (Some (bid, b)))
  end.

(** The slot that [get] and [get_mut] choose. *)
Definition visible_slot self (id : TxnId) : outcome (option (Slot * T)) :=
  match slot_a self, slot_b self with
  | Some (aid, a), Some (bid, b) =>
      if decide (aid <= id) then
        if decide (bid <= id) then
          _ ← assert (negb (aid =? bid));
          mret (if decide (bid < aid) then Some (SlotA, a) else Some (SlotB, b))
        else mret (Some (SlotA, a))
      else if decide (bid <= id) then mret (Some (SlotB, b))
      else mret None
  | Some (aid, a), None => mret (if decide (aid <= id) then Some (SlotA, a) else None)
  | None, Some (bid, b) => mret (if decide (bid <= id) then Some (SlotB, b) else None)
  | None, None => mret None
  end.

Definition get_value self (id : TxnId) : outcome (option T) := o ← visible_slot self id; mret (option_map snd o).

Definition get_value_mut self (id : TxnId) : outcome (option (Slot * T)) := visible_slot self id.

Definition take_value self (id : TxnId) : outcome (option T * VersionedValue T) :=
  match slot_a self, slot_b self with
  | Some (aid, a), Some (bid, b) =>
      if decide (aid <= id /\ bid <= id) then
        _ ← assert (negb (aid =? bid));
        mret (if decide (bid < aid) then (Some a, mkVV None (slot_b self)) else (Some b, mkVV (slot_a self) None))
      else if decide (aid <= id) then mret (Some a, mkVV None (slot_b self))
      else if decide (bid <= id) then mret (Some b, mkVV (slot_a self) None)
      else mret (None, self)
  | Some (aid, a), None => mret (if decide (aid <= id) then (Some a, mkVV None None) else (None, self))
  | None, Some (bid, b) => mret (if decide (bid <= id) then (Some b, mkVV None None) else (None, self))
  | None, None => mret (None, self)
  end.

Definition set_value self (value : T) (id : TxnId) : VersionedValue T :=
  match slot_a self, slot_b self with
  | Some (aid, a), Some (bid, b) =>
      if decide (id = aid) then mkVV (Some (aid, value)) (slot_b self)
      else if decide (id = bid) then mkVV (slot_a self) (Some (bid, value))
      else if decide (bid < aid) then mkVV (slot_a self) (Some (id, value))
      else mkVV (Some (id, value)) (slot_b self)
  | Some (aid, a), None =>
      if decide (id = aid) then mkVV (Some (aid, value)) None else mkVV (slot_a self) (Some (id, value))
  | None, Some (bid, b) =>
      if decide (id = bid) then mkVV None (Some (bid, value)) else mkVV (Some (id, value)) (slot_b self)
  | None, None => mkVV (Some (id, value)) None
  end.

(** ** What a value holds

    [committed] is the last committed transaction and [pending] the one in progress, if any.
    A well-formed value has distinct versions, each committed or of the pending transaction. *)

Definition version_ok (committed : TxnId) (pending : option TxnId) (id : TxnId) : Prop :=
  id <= committed \/ pending = Some id.

Definition value_ok (committed : TxnId) (pending : option TxnId) self : Prop :=
  (forall id t, slot_a self = Some (id, t) -> version_ok committed pending id) /\
  (forall id t, slot_b self = Some (id, t) -> version_ok committed pending id) /\
  (forall ida a idb b, slot_a self = Some (ida, a) -> slot_b self = Some (idb, b) -> ida <> idb).

(** The newest version up to [id]. *)
Definition seen self (id : TxnId) : option T :=
  match slot_a self, slot_b self with
  | Some (aid, a), Some (bid, b) =>
      if decide (aid <= id) then
        if decide (bid <= id) then if decide (bid < aid) then Some a else Some b else Some a
      else if decide (bid <= id) then Some b else None
  | Some (aid, a), None => if decide (aid <= id) then Some a else None
  | None, Some (bid, b) => if decide (bid <= id) then Some b else None
  | None, None => None
  end.

(** Whether a value has a version of a transaction. *)
Definition has_version self (id : TxnId) : bool :=
  bool_decide (fst <$> slot_a self = Some id) || bool_decide (fst <$> slot_b self = Some id).

End Value.

(** Instantiate the conditions on the versions of a value whose slots are known. *)
Ltac solve_versions :=
  repeat match goal with
         | H : forall id t, Some (?i, ?x) = Some (id, t) -> _ |- _ => specialize (H i x eq_refl)
         | H : forall id t, None = Some (id, t) -> _ |- _ => clear H
         | H : forall ida a idb b, Some (?i, ?x) = Some (ida, a) -> Some (?j, ?y) = Some (idb, b) -> _ |- _ =>
             specialize (H i x j y eq_refl eq_refl)
         | H : forall ida a idb b, None = _ -> _ |- _ => clear H
         | H : forall ida a idb b, _ -> None = _ -> _ |- _ => clear H
         | H : _ <= _ \/ _ = _ |- _ => destruct H as [H|H]; [|injection H as <- || discriminate H]
         end.

(** The conditions on the versions of a value with known slots. *)
Ltac check_versions := split_and!; intros; simplify_eq; try lia; (left; lia) || (right; congruence).

Section Laws.
Context {T : Type} (committed : TxnId) (pending : option TxnId).
Implicit Types self : VersionedValue T.

(** The transaction that operations run as. *)
Abbreviation current := (default committed pending).

Context (Hpending : forall id, pending = Some id -> committed < id).

Lemma version_le id : version_ok committed pending id -> id <= current.
Proof. intros [H|H]; [destruct pending as [p|]; simpl; [specialize (Hpending p eq_refl); lia|lia]|by rewrite H]. Qed.

Lemma visible_slot_spec self id :
  value_ok committed pending self ->
  exists o, visible_slot self id = Done o /\ option_map snd o = seen self id /\
    forall s t, o = Some (s, t) ->
      (forall t', seen (write_slot self s t') id = Some t') /\
      match s with SlotA => exists i, slot_a self = Some (i, t) /\ i <= id | SlotB => exists i, slot_b self = Some (i, t) /\ i <= id end.
Proof.
  intros (Ha & Hb & Hd). unfold visible_slot, seen, write_slot, assert.
  destruct self as [[[aid a]|] [[bid b]|]]; cbn [slot_a slot_b] in *.
  - specialize (Hd _ _ _ _ eq_refl eq_refl). rewrite (proj2 (Z.eqb_neq aid bid)) by done. cbn [negb mbind outcome_bind].
    repeat case_decide; eexists; (split; [reflexivity|]); (split; [done|]); intros s t [= <- <-]; cbn [slot_a slot_b];
      (split; [intros t'; repeat case_decide; done || lia|eexists; split; [done|lia]]).
  - case_decide; eexists; (split; [reflexivity|]); (split; [done|]); intros s t [= <- <-]; cbn [slot_a slot_b].
    split; [intros t'; by rewrite decide_True|by eexists].
  - case_decide; eexists; (split; [reflexivity|]); (split; [done|]); intros s t [= <- <-]; cbn [slot_a slot_b].
    split; [intros t'; by rewrite decide_True|by eexists].
  - by exists None.
Qed.

Lemma get_value_spec self id : value_ok committed pending self -> get_value self id = Done (seen self id).
Proof. intros H. unfold get_value. destruct (visible_slot_spec self id H) as (o & -> & E & _). cbn. by rewrite E. Qed.

(** The value and the committed versions after a write of the current transaction. *)
Definition written self (self' : VersionedValue T) (t : T) : Prop :=
  value_ok committed pending self' /\ seen self' current = Some t /\
  (is_Some pending -> seen self' committed = seen self committed).

Lemma set_value_spec self t : value_ok committed pending self -> written self (set_value self t current) t.
Proof.
  intros (Ha & Hb & Hd). unfold written, value_ok, set_value, seen, version_ok in *.
  destruct pending as [p|]; [specialize (Hpending p eq_refl)|clear Hpending]; cbn [default from_option id] in *;
  destruct self as [[[aid a]|] [[bid b]|]]; cbn [slot_a slot_b] in *; solve_versions.
  all: repeat case_decide; try lia; cbn [slot_a slot_b]; (split; [check_versions|]).
  all: repeat case_decide; try lia; split; [done|by intros [? ?]].
Qed.

Lemma internal_clone_spec self :
  value_ok committed pending self ->
  exists o self', internal_clone self current = Done (o, self') /\ option_map snd o = seen self current /\
    (o = None -> self' = self) /\
    forall s t, o = Some (s, t) -> written self self' t /\ forall t', written self (write_slot self' s t') t'.
Proof.
  intros (Ha & Hb & Hd). unfold written, value_ok, internal_clone, write_slot, seen, version_ok, assert in *.
  destruct pending as [p|]; [specialize (Hpending p eq_refl)|clear Hpending]; cbn [default from_option id] in *;
  destruct self as [[[aid a]|] [[bid b]|]]; cbn [slot_a slot_b] in *; solve_versions.
  all: repeat (case_decide; try lia).
  all: repeat match goal with |- context [(?a <? ?b)%Z] => rewrite (proj2 (Z.ltb_lt a b)) by lia end; cbn [andb mbind outcome_bind].
  all: eexists _, _; (split; [reflexivity|]); (split; [done|]); (split; [done|]); intros s t [= <- <-]; cbn [slot_a slot_b].
  all: split; [|intros t']; (split; [check_versions|]); cbn [slot_a slot_b].
  all: repeat (case_decide; try lia); split; [done|by intros [? ?]].
Qed.

Lemma take_value_spec self id : value_ok committed pending self -> exists self', take_value self id = Done (seen self id, self').
Proof.
  intros (_ & _ & Hd). unfold take_value, seen, assert. destruct self as [[[aid a]|] [[bid b]|]]; cbn [slot_a slot_b] in *; solve_versions.
  - rewrite (proj2 (Z.eqb_neq aid bid)) by done. cbn [negb mbind outcome_bind]. repeat case_decide; eauto; lia.
  - case_decide; eauto.
  - case_decide; eauto.
  - eauto.
Qed.

(** A write through the reference that [get_mut] returns, for a value with one version. *)
Lemma write_single self t t' id :
  self = new_value t id -> visible_slot self id = Done (Some (SlotA, t)) /\ write_slot self SlotA t' = new_value t' id.
Proof. intros ->. unfold visible_slot, new_value. cbn [slot_a slot_b]. by rewrite decide_True by lia. Qed.

End Laws.

(** ** The end of a transaction *)

Section End_.
Context {T : Type} (committed txn : TxnId) (Htxn : committed < txn).
Implicit Types self : VersionedValue T.

Lemma seen_new (t : T) id id' : seen (new_value t id) id' = if decide (id <= id') then Some t else None.
Proof. done. Qed.

Lemma seen_empty self id : value_is_empty self = true -> seen self id = None.
Proof. by destruct self as [[?|] [?|]]. Qed.

Lemma gc_value_spec self :
  value_ok committed (Some txn) self ->
  value_ok committed None (gc_value self txn) /\ seen (gc_value self txn) committed = seen self committed.
Proof.
  intros (Ha & Hb & Hd). unfold value_ok, gc_value, gc_slot, seen, version_ok in *.
  destruct self as [[[aid a]|] [[bid b]|]]; cbn [slot_a slot_b] in *; solve_versions.
  all: repeat case_decide; cbn [slot_a slot_b]; (split; [split_and!; intros; simplify_eq; naive_solver lia|]).
  all: repeat case_decide; done || naive_solver lia.
Qed.

Lemma no_version self :
  value_ok committed (Some txn) self -> has_version self txn = false -> value_ok committed None self.
Proof.
  intros (Ha & Hb & Hd) [Hna Hnb]%orb_false_iff. apply bool_decide_eq_false in Hna, Hnb.
  split_and!; [| |done].
  - intros id t E. destruct (Ha id t E) as [H|H]; [by left|]. rewrite E in Hna. naive_solver.
  - intros id t E. destruct (Hb id t E) as [H|H]; [by left|]. rewrite E in Hnb. naive_solver.
Qed.

Lemma commit_value self : value_ok committed (Some txn) self -> value_ok txn None self.
Proof.
  intros (Ha & Hb & Hd). split_and!; [| |done].
  - intros id t E. left. destruct (Ha id t E) as [H|H]; [lia|naive_solver lia].
  - intros id t E. left. destruct (Hb id t E) as [H|H]; [lia|naive_solver lia].
Qed.

Lemma begin_value self : value_ok committed None self -> value_ok committed (Some txn) self.
Proof.
  intros (Ha & Hb & Hd). split_and!; [| |done].
  - intros id t E. left. by destruct (Ha id t E).
  - intros id t E. left. by destruct (Hb id t E).
Qed.

(** Without versions of the transaction, it sees the committed value. *)
Lemma seen_committed self id : value_ok committed None self -> committed <= id -> seen self id = seen self committed.
Proof.
  intros (Ha & Hb & Hd) Hle. unfold seen, version_ok in *. destruct self as [[[aid a]|] [[bid b]|]]; cbn [slot_a slot_b] in *; solve_versions;
    repeat case_decide; done || naive_solver lia.
Qed.

Lemma gc_no_version self : has_version self txn = false -> gc_value self txn = self.
Proof.
  intros [Ha Hb]%orb_false_iff. apply bool_decide_eq_false in Ha, Hb. unfold gc_value, gc_slot.
  destruct self as [[[aid a]|] [[bid b]|]]; cbn [slot_a slot_b] in *; repeat case_decide; done || naive_solver.
Qed.

Lemma gc_value_idem self : gc_value (gc_value self txn) txn = gc_value self txn.
Proof.
  unfold gc_value, gc_slot. destruct self as [[[aid a]|] [[bid b]|]]; cbn [slot_a slot_b]; repeat case_decide; done.
Qed.

Lemma no_pending_version self : value_ok committed None self -> has_version self txn = false.
Proof.
  intros (Ha & Hb & _). apply orb_false_iff. split; apply bool_decide_eq_false; intros E.
  - destruct (slot_a self) as [[i x]|]; [|done]. injection E as ->. destruct (Ha _ _ eq_refl); [lia|done].
  - destruct (slot_b self) as [[i x]|]; [|done]. injection E as ->. destruct (Hb _ _ eq_refl); [lia|done].
Qed.

Lemma committed_visible self : value_ok committed None self -> value_is_empty self = false -> is_Some (seen self committed).
Proof.
  intros (Ha & Hb & _) He. unfold seen, version_ok in *. destruct self as [[[aid a]|] [[bid b]|]]; cbn [slot_a slot_b] in *; solve_versions;
    repeat case_decide; eauto; naive_solver lia.
Qed.

End End_.
End KvValue.
