(* ===== verification/KvTable.v ===== *)
(** * Tables of the key-value store (ts_kv_store/src/storage.rs, schema.rs)

    Delete masks, tables over two-slot values and the indexes of a table.  The iteration
    order of a [HashMap] is a parameter; a closure that gets a reference to a value is a
    function that returns its result and what it wrote. *)

From S2P Require Import Prelude KvValue.
Import KvValue.

Module KvTable.

Abbreviation Owner := string.

Inductive Error := AlreadyInit (owner : Owner) | TransactionFailed.

(** ** Delete masks *)

Inductive DeleteMask (K V : Type) `{Countable K} : Type :=
| MaskNone
| MaskAll (txn_id : TxnId) (present : gmap K (VersionedValue V))
| MaskSome (txn_id : TxnId) (removed : gset K).
Arguments MaskNone {K V _ _}.
Arguments MaskAll {K V _ _} _ _.
Arguments MaskSome {K V _ _} _ _.

Inductive MaskStatus (T : Type) : Type :=
| Unknown
| Removed
| Overwritten (t : T).
Arguments Unknown {T}.
Arguments Removed {T}.
Arguments Overwritten {T} _.

Inductive MaskInsertResult (V : Type) : Type :=
| NotWritten
| Written (old : option V).
Arguments NotWritten {V}.
Arguments Written {V} _.

Section Mask.
Context {K V : Type} `{Countable K}.
Implicit Types self : DeleteMask K V.

Definition check_txn_id self (txn_id : TxnId) : bool :=
  match self with
  | MaskNone => true
  | MaskAll self_id _ | MaskSome self_id _ => self_id =? txn_id
  end.

Definition mask_clear self (txn_id : TxnId) : outcome (DeleteMask K V) :=
  _ ← assert (check_txn_id self txn_id);
  mret (MaskAll txn_id ∅).

Definition mask_remove self (k : K) (txn_id : TxnId) (data : gmap K (VersionedValue V))
    : outcome (option V * DeleteMask K V) :=
  _ ← assert (check_txn_id self txn_id);
  o ← match data !! k with Some v => get_value v txn_id | None => mret None end;
  let present := match o with Some _ => true | None => false end in
  match self with
  | MaskNone => mret (None, if present then MaskSome txn_id {[ k ]} else MaskNone)
  | MaskAll id present_rows =>
      o ← match present_rows !! k with
          | Some v => '(o, _) ← take_value v txn_id; mret o
          | None => mret None
          end;
      mret (o, MaskAll id (base.delete k present_rows))
  | MaskSome id removed => mret (None, MaskSome id (if present then {[ k ]} ∪ removed else removed))
  end.

Definition mask_get_mut self (k : K) (txn_id : TxnId) : outcome (MaskStatus (Slot * V)) :=
  _ ← assert (check_txn_id self txn_id);
  match self with
  | MaskAll self_id present =>
      if decide (self_id = txn_id) then
        match present !! k with
        | Some v =>
            o ← get_value_mut v txn_id;
            mret (match o with Some x => Overwritten x | None => Unknown end)
        | None => mret Removed
        end
      else mret Unknown
  | MaskSome self_id removed =>
      if decide (self_id = txn_id) then mret (if decide (k ∈ removed) then Removed else Unknown)
      else mret Unknown
  | MaskNone => mret Unknown
  end.

Definition mask_get self (k : K) (txn_id : TxnId) : outcome (MaskStatus V) :=
  _ ← assert (check_txn_id self txn_id);
  match self with
  | MaskAll self_id present =>
      if decide (self_id = txn_id) then
        match present !! k with
        | Some v =>
            o ← get_value v txn_id;
            mret (match o with Some x => Overwritten x | None => Unknown end)
        | None => mret Removed
        end
      else mret Unknown
  | MaskSome self_id removed =>
      if decide (self_id = txn_id) then mret (if decide (k ∈ removed) then Removed else Unknown)
      else mret Unknown
  | MaskNone => mret Unknown
  end.

Definition mask_insert self (k : K) (v : V) (txn_id : TxnId) : outcome (MaskInsertResult V * DeleteMask K V) :=
  _ ← assert (check_txn_id self txn_id);
  match self with
  | MaskNone => mret (NotWritten, MaskNone)
  | MaskAll id present =>
      o ← match present !! k with
          | Some v => '(o, _) ← take_value v txn_id; mret o
          | None => mret None
          end;
      mret (Written o, MaskAll id (<[k := new_value v txn_id]> present))
  | MaskSome id removed => mret (NotWritten, MaskSome id (removed ∖ {[ k ]}))
  end.

End Mask.

(** ** Indexes (the trait [IndexStorage] and what [tables!] generates for index tables) *)

Class IndexStorage (K V I : Type) : Type := {
  idx_default : I;
  idx_clear : I -> TxnId -> TxnId -> outcome I;
  idx_on_insert : I -> K -> V -> TxnId -> TxnId -> outcome I;
  idx_on_remove : I -> V -> TxnId -> TxnId -> outcome I;
  idx_check : I -> TxnId -> option Error;
  idx_commit : I -> TxnId -> outcome I;
  idx_gc : I -> TxnId -> outcome I;
}.

(** ** Tables *)

Record Table (K V I : Type) `{Countable K} : Type := mkTable {
  owner : option Owner;
  data : gmap K (VersionedValue V);
  delete_mask : DeleteMask K V;
  modified : option (TxnId * list K);
  indexes : I;
}.
Arguments mkTable {K V I _ _} _ _ _ _ _.
Arguments owner {K V I _ _} _.
Arguments data {K V I _ _} _.
Arguments delete_mask {K V I _ _} _.
Arguments modified {K V I _ _} _.
Arguments indexes {K V I _ _} _.

(** [record_mutation] *)
Definition record_mutation {K} (modified : option (TxnId * list K)) (key : K) (txn_id max_committed_id : TxnId)
    : outcome (option (TxnId * list K)) :=
  if decide (txn_id = max_committed_id) then mret modified
  else
    match modified with
    | Some (id, keys) => _ ← assert (id =? txn_id); mret (Some (id, keys ++ [key]))
    | None => mret (Some (txn_id, [key]))
    end.

Section Table.
Context {K V I : Type} `{Countable K} `{HO : !HashOrder K} `{HX : !IndexStorage K V I}.
Implicit Types self : Table K V I.

Definition default_table : Table K V I := mkTable None ∅ MaskNone None idx_default.

Definition try_set_owner self (owner' : Owner) : (unit + Error) * Table K V I :=
  match owner self with
  | Some o => (inr (AlreadyInit o), self)
  | None => (inl tt, mkTable (Some owner') (data self) (delete_mask self) (modified self) (indexes self))
  end.

Definition assert_or_set_owner self (owner' : Owner) : outcome (Table K V I) :=
  match owner self with
  | Some prev_owner => _ ← assert (bool_decide (prev_owner = owner')); mret self
  | None => mret (mkTable (Some owner') (data self) (delete_mask self) (modified self) (indexes self))
  end.

Definition assert_owner self (owner' : Owner) : outcome unit :=
  match owner self with
  | Some prev_owner => assert (bool_decide (prev_owner = owner'))
  | None => mret tt
  end.

(** The loop of [gc_txn] over the keys modified. *)
Fixpoint gc_keys (keys : list K) (data : gmap K (VersionedValue V)) (txn_id : TxnId) : gmap K (VersionedValue V) :=
  match keys with
  | [] => data
  | k :: keys =>
      let data :=
        match data !! k with
        | Some value =>
            let value := gc_value value txn_id in
            if value_is_empty value then base.delete k data else <[k := value]> data
        | None => data
        end in
      gc_keys keys data txn_id
  end.

Definition gc_table self (txn_id : TxnId) : outcome (Table K V I) :=
  match modified self with
  | None => mret (mkTable (owner self) (data self) MaskNone None (indexes self))
  | Some (id, keys) =>
      _ ← assert (id =? txn_id);
      mret (mkTable (owner self) (gc_keys keys (data self) txn_id) MaskNone None (indexes self))
  end.

Definition check_txn_consistency self (txn_id : TxnId) : option Error :=
  let modified_ok := match modified self with Some (id, _) => id =? txn_id | None => true end in
  if negb modified_ok then Some TransactionFailed
  else
    match delete_mask self with
    | MaskAll dm_id _ => if dm_id =? txn_id then None else Some TransactionFailed
    | MaskSome dm_id _ => if dm_id =? txn_id then None else Some TransactionFailed
    | MaskNone => None
    end.

Definition commit_table self (txn_id : TxnId) : outcome (Table K V I) :=
  _ ← match modified self with Some (id, _) => assert (id =? txn_id) | None => mret tt end;
  match delete_mask self with
  | MaskAll dm_id rows =>
      _ ← assert (dm_id =? txn_id);
      mret (mkTable (owner self) rows MaskNone None (indexes self))
  | MaskSome dm_id removed =>
      _ ← assert (dm_id =? txn_id);
      mret (mkTable (owner self) (foldr base.delete (data self) (elements removed)) MaskNone None (indexes self))
  | MaskNone => mret (mkTable (owner self) (data self) MaskNone None (indexes self))
  end.

(** The rows of a map visible to a transaction, in the order of the map. *)
Fixpoint visible_rows (rows : gmap K (VersionedValue V)) (keys : list K) (txn_id : TxnId) : outcome (list (K * V)) :=
  match keys with
  | [] => mret []
  | k :: keys =>
      o ← match rows !! k with Some v => get_value v txn_id | None => mret None end;
      l ← visible_rows rows keys txn_id;
      mret (match o with Some v => (k, v) :: l | None => l end)
  end.

Definition iter_data self (txn_id : TxnId) : outcome (list (K * V)) :=
  visible_rows (data self) (hash_keys (data self)) txn_id.

(** [usize] subtraction. *)
Definition sub_len (a b : nat) : outcome nat := if decide (b <= a)%nat then Done (a - b)%nat else Panic.

Definition table_len self (txn_id : TxnId) : outcome nat :=
  match delete_mask self with
  | MaskNone => l ← iter_data self txn_id; mret (length l)
  | MaskAll _ pending => mret (size pending)
  | MaskSome _ removed => l ← iter_data self txn_id; sub_len (length l) (size removed)
  end.

Definition table_is_empty self (txn_id : TxnId) : outcome bool :=
  match delete_mask self with
  | MaskNone => l ← iter_data self txn_id; mret (length l =? 0)%nat
  | MaskAll _ pending => mret (size pending =? 0)%nat
  | MaskSome _ removed =>
      if decide (size (data self) = 0%nat) then mret true
      else l ← iter_data self txn_id; n ← sub_len (length l) (size removed); mret (n =? 0)%nat
  end.

(** All items of a [TableIterator]. *)
Definition table_iter self (txn_id : TxnId) : outcome (list (K * V)) :=
  let rows := match delete_mask self with MaskNone | MaskSome _ _ => data self | MaskAll _ pending => pending end in
  let keys := hash_keys rows in
  match delete_mask self with
  | MaskNone | MaskAll _ _ => visible_rows rows keys txn_id
  | MaskSome _ removed => visible_rows rows (filter (fun k => k ∉ removed) keys) txn_id
  end.

Definition get_from_table (mask : DeleteMask K V) (data : gmap K (VersionedValue V)) (key : K) (txn_id : TxnId)
    : outcome (option V) :=
  s ← mask_get mask key txn_id;
  match s with
  | Unknown => match data !! key with Some v => get_value v txn_id | None => mret None end
  | Removed => mret None
  | Overwritten v => mret (Some v)
  end.

Definition table_get self (key : K) (txn_id : TxnId) : outcome (option V) :=
  get_from_table (delete_mask self) (data self) key txn_id.

(** Change a row through a reference: [put] writes the value back. *)
Definition change_row {A} self (key : K) (value : V) (put : V -> Table K V I -> Table K V I) (f : V -> A * V)
    (txn_id max_committed_id : TxnId) : outcome (A * Table K V I) :=
  ix ← idx_on_remove (indexes self) value txn_id max_committed_id;
  m ← record_mutation (modified self) key txn_id max_committed_id;
  let '(result, value) := f value in
  let self := put value (mkTable (owner self) (data self) (delete_mask self) m ix) in
  ix ← idx_on_insert (indexes self) key value txn_id max_committed_id;
  mret (result, mkTable (owner self) (data self) (delete_mask self) (modified self) ix).

(** Writes through the references of [internal_clone] on a row and of [DeleteMask::get_mut]. *)
Definition put_data (key : K) (row : VersionedValue V) (s : Slot) (value : V) self : Table K V I :=
  mkTable (owner self) (<[key := write_slot row s value]> (data self)) (delete_mask self) (modified self) (indexes self).

Definition put_mask (key : K) (row : VersionedValue V) (s : Slot) (value : V) self : Table K V I :=
  let mask := match delete_mask self with
              | MaskAll id present => MaskAll id (<[key := write_slot row s value]> present)
              | m => m
              end in
  mkTable (owner self) (data self) mask (modified self) (indexes self).

(** Clone the visible version of a row for the transaction. *)
Definition clone_row self (key : K) (txn_id : TxnId) : outcome (option (Slot * V * VersionedValue V) * Table K V I) :=
  match data self !! key with
  | None => mret (None, self)
  | Some row =>
      '(o, row) ← internal_clone row txn_id;
      let self := mkTable (owner self) (<[key := row]> (data self)) (delete_mask self) (modified self) (indexes self) in
      mret (match o with Some (s, v) => Some (s, v, row) | None => None end, self)
  end.

Definition mask_row self (key : K) : option (VersionedValue V) :=
  match delete_mask self with MaskAll _ present => present !! key | _ => None end.

Definition table_with_mut {A} self (key : K) (f : V -> A * V) (txn_id max_committed_id : TxnId)
    : outcome (option A * Table K V I) :=
  s ← mask_get_mut (delete_mask self) key txn_id;
  match s with
  | Unknown =>
      '(o, self) ← clone_row self key txn_id;
      match o with
      | None => mret (None, self)
      | Some (s, v, row) =>
          '(r, self) ← change_row self key v (put_data key row s) f txn_id max_committed_id;
          mret (Some r, self)
      end
  | Removed => mret (None, self)
  | Overwritten (s, v) =>
      row ← unwrap (mask_row self key);
      '(r, self) ← change_row self key v (put_mask key row s) f txn_id max_committed_id;
      mret (Some r, self)
  end.

(** One step of [for_each_mut], under each kind of mask. *)
Definition visit_row self (key : K) (f : K -> V -> V) (txn_id max_committed_id : TxnId) : outcome (Table K V I) :=
  let apply v := (tt, f key v) in
  match delete_mask self with
  | MaskNone =>
      '(o, self) ← clone_row self key txn_id;
      match o with
      | None => mret self
      | Some (s, v, row) => '(_, self) ← change_row self key v (put_data key row s) apply txn_id max_committed_id; mret self
      end
  | MaskAll _ pending =>
      match pending !! key with
      | None => mret self
      | Some row =>
          o ← get_value_mut row txn_id;
          match o with
          | None => mret self
          | Some (s, v) => '(_, self) ← change_row self key v (put_mask key row s) apply txn_id max_committed_id; mret self
          end
      end
  | MaskSome _ removed =>
      '(o, self) ← clone_row self key txn_id;
      match o with
      | None => mret self
      | Some (s, v, row) =>
          if decide (key ∈ removed) then mret self
          else '(_, self) ← change_row self key v (put_data key row s) apply txn_id max_committed_id; mret self
      end
  end.

Fixpoint visit_rows self (keys : list K) (f : K -> V -> V) (txn_id max_committed_id : TxnId) : outcome (Table K V I) :=
  match keys with
  | [] => mret self
  | k :: keys => self ← visit_row self k f txn_id max_committed_id; visit_rows self keys f txn_id max_committed_id
  end.

Definition table_for_each_mut self (f : K -> V -> V) (txn_id max_committed_id : TxnId) : outcome (Table K V I) :=
  let keys := match delete_mask self with MaskAll _ pending => hash_keys pending | _ => hash_keys (data self) end in
  visit_rows self keys f txn_id max_committed_id.

Definition table_insert self (key : K) (value : V) (txn_id max_committed_id : TxnId) : outcome (Table K V I) :=
  old ← get_from_table (delete_mask self) (data self) key txn_id;
  ix ← match old with
       | Some old_value => idx_on_remove (indexes self) old_value txn_id max_committed_id
       | None => mret (indexes self)
       end;
  ix ← idx_on_insert ix key value txn_id max_committed_id;
  '(r, mask) ← mask_insert (delete_mask self) key value txn_id;
  match r with
  | NotWritten =>
      m ← record_mutation (modified self) key txn_id max_committed_id;
      let entry := default default_value (data self !! key) in
      mret (mkTable (owner self) (<[key := set_value entry value txn_id]> (data self)) mask m ix)
  | Written _ => mret (mkTable (owner self) (data self) mask (modified self) ix)
  end.

Definition table_remove self (key : K) (txn_id max_committed_id : TxnId) : outcome (Table K V I) :=
  if decide (txn_id = max_committed_id) then
    o ← match data self !! key with Some v => '(o, _) ← take_value v txn_id; mret o | None => mret None end;
    ix ← match o with
         | Some value => idx_on_remove (indexes self) value txn_id max_committed_id
         | None => mret (indexes self)
         end;
    mret (mkTable (owner self) (base.delete key (data self)) (delete_mask self) (modified self) ix)
  else if decide (max_committed_id < txn_id) then
    '(dm_result, mask) ← mask_remove (delete_mask self) key txn_id (data self);
    o ← match dm_result with
        | Some v => mret (Some v)
        | None => match data self !! key with Some v => get_value v txn_id | None => mret None end
        end;
    ix ← match o with
         | Some value => idx_on_remove (indexes self) value txn_id max_committed_id
         | None => mret (indexes self)
         end;
    mret (mkTable (owner self) (data self) mask (modified self) ix)
  else Panic.

Definition table_clear self (txn_id max_committed_id : TxnId) : outcome (Table K V I) :=
  '(rows, mask) ←
    (if decide (txn_id = max_committed_id) then mret (∅, delete_mask self)
     else if decide (max_committed_id < txn_id) then m ← mask_clear (delete_mask self) txn_id; mret (data self, m)
     else Panic);
  ix ← idx_clear (indexes self) txn_id max_committed_id;
  mret (mkTable (owner self) rows mask (modified self) ix).

End Table.

(** ** Index tables *)

(** [impl IndexStorage for ()] *)
#[global] Instance no_index {K V} : IndexStorage K V unit := {|
  idx_default := tt;
  idx_clear _ _ _ := mret tt;
  idx_on_insert _ _ _ _ _ := mret tt;
  idx_on_remove _ _ _ _ := mret tt;
  idx_check _ _ := None;
  idx_commit _ _ := mret tt;
  idx_gc _ _ := mret tt;
|}.

(** The index keys of a value: the closure or field of an [index(..)] declaration. *)
Class IndexKeys (V F : Type) : Type := index_keys : V -> list F.

Section Index.
Context {K V F : Type} `{Countable F} `{HO : !HashOrder F} `{HF : !IndexKeys V F}.

Abbreviation Index := (Table F K unit).

Fixpoint index_insert_all (ix : Index) (fs : list F) (key : K) (txn_id max_committed_id : TxnId) : outcome Index :=
  match fs with
  | [] => mret ix
  | f :: fs => ix ← table_insert ix f key txn_id max_committed_id; index_insert_all ix fs key txn_id max_committed_id
  end.

Fixpoint index_remove_all (ix : Index) (fs : list F) (txn_id max_committed_id : TxnId) : outcome Index :=
  match fs with
  | [] => mret ix
  | f :: fs => ix ← table_remove ix f txn_id max_committed_id; index_remove_all ix fs txn_id max_committed_id
  end.

#[global] Instance table_index : IndexStorage K V Index := {|
  idx_default := default_table;
  idx_clear := table_clear;
  idx_on_insert ix key value := index_insert_all ix (index_keys value) key;
  idx_on_remove ix value := index_remove_all ix (index_keys value);
  idx_check := check_txn_consistency;
  idx_commit := commit_table;
  idx_gc := gc_table;
|}.

End Index.

(** Several indexes of one table are visited in turn. *)
#[global] Instance pair_index {K V I J} `{!IndexStorage K V I} `{!IndexStorage K V J} : IndexStorage K V (I * J) := {|
  idx_default := (idx_default (K := K) (V := V), idx_default (K := K) (V := V));
  idx_clear '(i, j) txn_id max_id := i ← idx_clear (K := K) (V := V) i txn_id max_id; j ← idx_clear (K := K) (V := V) j txn_id max_id; mret (i, j);
  idx_on_insert '(i, j) key value txn_id max_id :=
    i ← idx_on_insert i key value txn_id max_id; j ← idx_on_insert j key value txn_id max_id; mret (i, j);
  idx_on_remove '(i, j) value txn_id max_id :=
    i ← idx_on_remove (K := K) i value txn_id max_id; j ← idx_on_remove (K := K) j value txn_id max_id; mret (i, j);
  idx_check '(i, j) txn_id := match idx_check (K := K) (V := V) i txn_id with Some e => Some e | None => idx_check (K := K) (V := V) j txn_id end;
  idx_commit '(i, j) txn_id := i ← idx_commit (K := K) (V := V) i txn_id; j ← idx_commit (K := K) (V := V) j txn_id; mret (i, j);
  idx_gc '(i, j) txn_id := i ← idx_gc (K := K) (V := V) i txn_id; j ← idx_gc (K := K) (V := V) j txn_id; mret (i, j);
|}.

End KvTable.
