(* ===== verification/KvTableSpec.v ===== *)
(** * Tables keep a committed map and a map of the pending transaction

    [committed_rows] is what the last commit left in a table, [view] what the current
    transaction sees.  Every operation changes the view like a finite map; within a
    transaction the committed rows stay, a commit makes the view the committed rows and a
    rollback makes the committed rows the view. *)

From S2P Require Import Prelude KvValue KvTable.
Import KvValue KvTable.

Module KvTableSpec.

(** A pending transaction is newer than the committed one. *)
Definition pending_ok (committed : TxnId) (pending : option TxnId) : Prop :=
  forall id, pending = Some id -> committed < id.

(** ** What the indexes of a table promise *)

Class IndexLaws (K V I : Type) `{HX : !IndexStorage K V I} : Type := {
  iview : Type;
  iv_empty : iview;
  iv_insert : iview -> K -> V -> iview;
  iv_remove : iview -> V -> iview;
  idx_ok : TxnId -> option TxnId -> I -> Prop;
  idx_view : I -> TxnId -> iview;
  idx_committed : I -> TxnId -> iview;
  idx_default_spec c : idx_ok c None idx_default /\ idx_view idx_default c = iv_empty;
  idx_clear_spec c p i :
    pending_ok c p -> idx_ok c p i ->
    exists i', idx_clear i (default c p) c = Done i' /\ idx_ok c p i' /\ idx_view i' (default c p) = iv_empty /\
      (is_Some p -> idx_committed i' c = idx_committed i c);
  idx_on_insert_spec c p i k v :
    pending_ok c p -> idx_ok c p i ->
    exists i', idx_on_insert i k v (default c p) c = Done i' /\ idx_ok c p i' /\
      idx_view i' (default c p) = iv_insert (idx_view i (default c p)) k v /\
      (is_Some p -> idx_committed i' c = idx_committed i c);
  idx_on_remove_spec c p i v :
    pending_ok c p -> idx_ok c p i ->
    exists i', idx_on_remove i v (default c p) c = Done i' /\ idx_ok c p i' /\
      idx_view i' (default c p) = iv_remove (idx_view i (default c p)) v /\
      (is_Some p -> idx_committed i' c = idx_committed i c);
  idx_check_spec c id i : idx_ok c (Some id) i -> idx_check i id = None;
  idx_commit_spec c id i :
    c < id -> idx_ok c (Some id) i ->
    exists i', idx_commit i id = Done i' /\ idx_ok id None i' /\ idx_view i' id = idx_view i id;
  idx_gc_spec c id i :
    c < id -> idx_ok c (Some id) i ->
    exists i', idx_gc i id = Done i' /\ idx_ok c None i' /\ idx_view i' c = idx_committed i c;
  idx_begin_spec c id i :
    c < id -> idx_ok c None i -> idx_ok c (Some id) i /\ idx_view i id = idx_view i c /\ idx_committed i c = idx_view i c;
}.

Section Spec.
Context {K V I : Type} `{Countable K} `{HO : !HashOrder K} `{HX : !IndexStorage K V I} `{HL : !IndexLaws K V I}.
Implicit Types t : Table K V I.
Implicit Types rows : gmap K (VersionedValue V).

Definition rows_seen rows (id : TxnId) : gmap K V := omap (fun v => seen v id) rows.

Definition view t (id : TxnId) : gmap K V :=
  match delete_mask t with
  | MaskNone => rows_seen (data t) id
  | MaskAll _ pending => rows_seen pending id
  | MaskSome _ removed => filter (fun kv => fst kv ∉ removed) (rows_seen (data t) id)
  end.

Definition committed_rows t (c : TxnId) : gmap K V := rows_seen (data t) c.

Definition mask_ok (id : TxnId) rows (m : DeleteMask K V) : Prop :=
  match m with
  | MaskNone => True
  | MaskAll i pending => i = id /\ forall k v, pending !! k = Some v -> exists x, v = new_value x id
  | MaskSome i removed => i = id /\ forall k, k ∈ removed -> is_Some (rows_seen rows id !! k)
  end.

Definition modified_keys t : list K := match modified t with Some (_, ks) => ks | None => [] end.

(** Only recorded rows have a version of the transaction. *)
Definition recorded (id : TxnId) rows (ks : list K) : Prop :=
  forall k v, rows !! k = Some v -> has_version v id = true -> k ∈ ks.

Record table_ok (c : TxnId) (p : option TxnId) t : Prop := {
  ok_rows : forall k v, data t !! k = Some v -> value_ok c p v;
  ok_mask : match p with None => delete_mask t = MaskNone | Some id => mask_ok id (data t) (delete_mask t) end;
  ok_modified : match p with
                | None => modified t = None
                | Some id => (forall i ks, modified t = Some (i, ks) -> i = id) /\ recorded id (data t) (modified_keys t)
                end;
  ok_indexes : idx_ok c p (indexes t);
}.

Lemma rows_seen_lookup rows id k : rows_seen rows id !! k = rows !! k ≫= fun v => seen v id.
Proof. apply lookup_omap. Qed.

Lemma rows_seen_insert rows id k v x : seen v id = Some x -> rows_seen (<[k := v]> rows) id = <[k := x]> (rows_seen rows id).
Proof.
  intros E. apply map_eq. intros j. rewrite rows_seen_lookup. destruct (decide (j = k)) as [->|Hne].
  - rewrite !lookup_insert_eq. simpl. by rewrite E.
  - rewrite !lookup_insert_ne by done. by rewrite rows_seen_lookup.
Qed.

Lemma rows_seen_same rows id k v :
  seen v id = rows_seen rows id !! k -> rows_seen (<[k := v]> rows) id = rows_seen rows id.
Proof.
  intros E. apply map_eq. intros j. rewrite rows_seen_lookup. destruct (decide (j = k)) as [->|Hne].
  - rewrite lookup_insert_eq. simpl. by rewrite E.
  - rewrite lookup_insert_ne by done. by rewrite rows_seen_lookup.
Qed.

Lemma rows_seen_delete rows id k : rows_seen (base.delete k rows) id = base.delete k (rows_seen rows id).
Proof.
  apply map_eq. intros j. rewrite rows_seen_lookup. destruct (decide (j = k)) as [->|Hne].
  - by rewrite !lookup_delete_eq.
  - rewrite !lookup_delete_ne by done. by rewrite rows_seen_lookup.
Qed.

Lemma view_lookup t id k :
  view t id !! k =
    match delete_mask t with
    | MaskNone => rows_seen (data t) id !! k
    | MaskAll _ pending => rows_seen pending id !! k
    | MaskSome _ removed => if decide (k ∈ removed) then None else rows_seen (data t) id !! k
    end.
Proof.
  unfold view. destruct (delete_mask t) as [|i pending|i removed]; [done..|].
  destruct (decide (k ∈ removed)) as [Hk|Hk].
  - apply map_lookup_filter_None. right. intros x _ Hx. by apply Hx.
  - destruct (rows_seen (data t) id !! k) as [x|] eqn:E; [by apply map_lookup_filter_Some|].
    apply map_lookup_filter_None. by left.
Qed.

Implicit Types c : TxnId.
Implicit Types p : option TxnId.

Lemma cur_cases c p : pending_ok c p -> (p = None /\ default c p = c) \/ (exists id, p = Some id /\ default c p = id /\ c < id).
Proof. intros Hp. destruct p as [id|]; [right; exists id|left; done]. split_and!; [done..|by apply Hp]. Qed.

Lemma get_row c p rows k id :
  (forall k v, rows !! k = Some v -> value_ok c p v) ->
  match rows !! k with Some v => get_value v id | None => mret None end = Done (rows_seen rows id !! k).
Proof.
  intros Hr. rewrite rows_seen_lookup. destruct (rows !! k) as [v|] eqn:E; [|done]. simpl.
  by apply (get_value_spec c p), (Hr k).
Qed.

Lemma check_ok c p t : table_ok c p t -> check_txn_id (delete_mask t) (default c p) = true.
Proof.
  intros [_ Hm _ _]. destruct p as [id|]; [|by rewrite Hm]. simpl in *.
  destruct (delete_mask t) as [|i ?|i ?]; [done|..]; destruct Hm as [-> _]; apply Z.eqb_refl.
Qed.

Lemma seen_own (x : V) id : seen (new_value x id) id = Some x.
Proof. rewrite seen_new. by rewrite decide_True. Qed.

Lemma table_get_spec c p t k : table_ok c p t -> table_get t k (default c p) = Done (view t (default c p) !! k).
Proof.
  intros Ht. pose proof (check_ok c p t Ht) as Hck. destruct Ht as [Hr Hm _ _].
  unfold table_get, get_from_table, mask_get. rewrite Hck, view_lookup. cbn [assert mbind outcome_bind].
  destruct p as [id|]; cbn [from_option Datatypes.id] in *.
  - unfold mask_ok in Hm. destruct (delete_mask t) as [|i pending|i removed].
    + cbn [mbind outcome_bind]. by apply (get_row c (Some id)).
    + destruct Hm as [-> Hm]. rewrite decide_True by done. rewrite rows_seen_lookup.
      destruct (pending !! k) as [v|] eqn:E; [|done]. destruct (Hm k v E) as [x ->].
      rewrite (get_value_spec c (Some id)) by (split_and!; [intros ? ? [= <- <-]; by right|done..]).
      cbn [mbind outcome_bind option_bind]. by rewrite seen_own.
    + destruct Hm as [-> _]. rewrite decide_True by done. destruct (decide (k ∈ removed)); [done|].
      cbn [mbind outcome_bind]. by apply (get_row c (Some id)).
  - rewrite Hm. cbn [mbind outcome_bind]. by apply (get_row c None).
Qed.

(** ** Writes *)

(** A table with its indexes, as a transaction sees it and as the last commit left it. *)
Definition full_view t (id : TxnId) : gmap K V * iview := (view t id, idx_view (indexes t) id).
Definition full_committed t c : gmap K V * iview := (committed_rows t c, idx_committed (indexes t) c).

(** [t'] results from [t] by an operation that leaves the current transaction with [S]. *)
Definition steps_to c p t t' (S : gmap K V * iview) : Prop :=
  table_ok c p t' /\ full_view t' (default c p) = S /\
  (is_Some p -> full_committed t' c = full_committed t c) /\ owner t' = owner t.

Lemma record_ok c p t k :
  pending_ok c p -> table_ok c p t ->
  exists m, record_mutation (modified t) k (default c p) c = Done m /\
    match p with None => m = None | Some id => m = Some (id, modified_keys t ++ [k]) end.
Proof.
  intros Hp [_ _ Hm _]. unfold record_mutation, modified_keys. destruct p as [id|]; cbn [from_option Datatypes.id].
  - specialize (Hp id eq_refl). rewrite decide_False by lia. destruct Hm as [Hm _].
    destruct (modified t) as [[i ks]|]; [|by eexists]. specialize (Hm i ks eq_refl) as ->. rewrite Z.eqb_refl. by eexists.
  - rewrite decide_True by done. by eexists.
Qed.

Definition unmask (m : DeleteMask K V) (k : K) : DeleteMask K V :=
  match m with MaskSome i removed => MaskSome i (removed ∖ {[ k ]}) | m => m end.

Lemma default_row_ok c p t k : table_ok c p t -> value_ok c p (default default_value (data t !! k)).
Proof. intros [Hr _ _ _]. destruct (data t !! k) as [v|] eqn:E; [by apply (Hr k)|]. by split_and!. Qed.

(** A row of the data is written. *)
Lemma write_row c p t k row x m ix :
  pending_ok c p -> table_ok c p t -> idx_ok c p ix ->
  written c p (default default_value (data t !! k)) row x ->
  record_mutation (modified t) k (default c p) c = Done m ->
  (forall i pending, delete_mask t <> MaskAll i pending) ->
  let t' := mkTable (owner t) (<[k := row]> (data t)) (unmask (delete_mask t) k) m ix in
  table_ok c p t' /\ view t' (default c p) = <[k := x]> (view t (default c p)) /\
  (is_Some p -> committed_rows t' c = committed_rows t c).
Proof.
  intros Hp Ht Hix (Hvo & Hseen & Hcom) Hrec Hna t'. destruct (record_ok c p t k Hp Ht) as (m' & E & Hm').
  rewrite Hrec in E. injection E as <-. destruct Ht as [Hr Hm Hmod _]. split_and!.
  - constructor; cbn [data delete_mask modified indexes t']; [| | |done].
    + intros j v [[-> <-]|[Hne Hj]]%lookup_insert_Some; [done|by apply (Hr j)].
    + destruct p as [id|]; [|by rewrite Hm]. unfold mask_ok, unmask in *.
      destruct (delete_mask t) as [|i pending|i removed]; [done|done|]. destruct Hm as [-> Hm]. split; [done|].
      intros j [Hj Hjk]%elem_of_difference. rewrite rows_seen_lookup, lookup_insert_ne by set_solver.
      rewrite <- rows_seen_lookup. by apply Hm.
    + destruct p as [id|]; [|done]. destruct Hmod as [_ Hrd]. subst m. split; [by intros ? ? [= <- <-]|].
      intros j v Hj Hv. cbn [modified_keys modified]. apply lookup_insert_Some in Hj as [[-> <-]|[Hne Hj]]; [set_solver|].
      apply elem_of_app. left. by apply (Hrd j v).
  - apply map_eq. intros j. rewrite view_lookup. cbn [delete_mask data t']. rewrite (rows_seen_insert _ _ _ _ x) by done.
    destruct (decide (j = k)) as [->|Hne].
    + destruct (delete_mask t) as [|i pending|i removed]; cbn [unmask].
      * by rewrite !lookup_insert_eq.
      * by destruct (Hna i pending).
      * rewrite decide_False by set_solver. by rewrite !lookup_insert_eq.
    + rewrite (lookup_insert_ne (view t _)), view_lookup by done. destruct (delete_mask t) as [|i pending|i removed]; cbn [unmask].
      * by rewrite lookup_insert_ne.
      * by destruct (Hna i pending).
      * rewrite lookup_insert_ne by done. destruct (decide (j ∈ removed)); [by rewrite decide_True by set_solver|by rewrite decide_False by set_solver].
  - intros Hs. unfold committed_rows. cbn [data t']. apply rows_seen_same. rewrite (Hcom Hs), rows_seen_lookup.
    by destruct (data t !! k).
Qed.

(** A row of the delete mask is written. *)
Lemma write_mask c id t k x pending m ix :
  table_ok c (Some id) t -> idx_ok c (Some id) ix ->
  delete_mask t = MaskAll id pending ->
  (m = modified t \/ m = Some (id, modified_keys t ++ [k])) ->
  let t' := mkTable (owner t) (data t) (MaskAll id (<[k := new_value x id]> pending)) m ix in
  table_ok c (Some id) t' /\ view t' id = <[k := x]> (view t id) /\ committed_rows t' c = committed_rows t c.
Proof.
  intros [Hr Hm [Hmod Hrd] _] Hix Hd Hmm t'. rewrite Hd in Hm. destruct Hm as [_ Hm]. split_and!; [|by unfold view; rewrite Hd; cbn [delete_mask t']; rewrite (rows_seen_insert _ _ _ _ x) by apply seen_own|done].
  constructor; cbn [data delete_mask modified indexes t']; [done| | |done].
  - split; [done|]. intros j v [[-> <-]|[Hne Hj]]%lookup_insert_Some; [by eexists|by apply (Hm j)].
  - destruct Hmm as [->| ->]; [done|]. split; [by intros ? ? [= <- <-]|].
    intros j v Hj Hv. cbn [modified_keys modified]. apply elem_of_app. left. by apply (Hrd j v).
Qed.

Definition a_insert (S : gmap K V * iview) (k : K) (v : V) : gmap K V * iview :=
  (<[k := v]> (fst S), iv_insert (match fst S !! k with Some old => iv_remove (snd S) old | None => snd S end) k v).

(** The index after the row of [k], if any, is dropped from it. *)
Lemma drop_index c p ix (old : option V) :
  pending_ok c p -> idx_ok c p ix ->
  exists ix', match old with Some o => idx_on_remove ix o (default c p) c | None => mret ix end = Done ix' /\ idx_ok c p ix' /\
    idx_view ix' (default c p) = match old with Some o => iv_remove (idx_view ix (default c p)) o | None => idx_view ix (default c p) end /\
    (is_Some p -> idx_committed ix' c = idx_committed ix c).
Proof. intros Hp Hi. destruct old as [o|]; [by apply idx_on_remove_spec|]. by exists ix. Qed.

Lemma table_insert_spec c p t k v :
  pending_ok c p -> table_ok c p t ->
  exists t', table_insert t k v (default c p) c = Done t' /\ steps_to c p t t' (a_insert (full_view t (default c p)) k v).
Proof.
  intros Hp Ht. pose proof (table_get_spec c p t k Ht) as Hget. unfold table_get in Hget. unfold table_insert. rewrite Hget.
  cbn [mbind outcome_bind].
  destruct (drop_index c p (indexes t) (view t (default c p) !! k) Hp (ok_indexes _ _ _ Ht)) as (ix1 & -> & Hi1 & Hv1 & Hc1).
  cbn [mbind outcome_bind].
  destruct (idx_on_insert_spec c p ix1 k v Hp Hi1) as (ix2 & -> & Hi2 & Hv2 & Hc2). cbn [mbind outcome_bind].
  unfold mask_insert. rewrite (check_ok c p t Ht). cbn [assert mbind outcome_bind].
  assert (Hfull : forall t', table_ok c p t' -> indexes t' = ix2 -> owner t' = owner t ->
    view t' (default c p) = <[k := v]> (view t (default c p)) -> (is_Some p -> committed_rows t' c = committed_rows t c) ->
    steps_to c p t t' (a_insert (full_view t (default c p)) k v)).
  { intros t' Hok Hix How Hvw Hcm. split_and!; [done| | |done].
    - unfold full_view, a_insert. cbn [fst snd]. rewrite Hix, Hvw, Hv2, Hv1. done.
    - intros Hs. unfold full_committed. rewrite Hix, Hcm, Hc2, Hc1 by done. done. }
  assert (Hdata : (forall i pending, delete_mask t <> MaskAll i pending) ->
    exists t', (m ← record_mutation (modified t) k (default c p) c;
      mret (mkTable (owner t) (<[k := set_value (default default_value (data t !! k)) v (default c p)]> (data t)) (unmask (delete_mask t) k) m ix2))
      = Done t' /\ steps_to c p t t' (a_insert (full_view t (default c p)) k v)).
  { intros Hna. destruct (record_ok c p t k Hp Ht) as (m & Em & _). rewrite Em. eexists. split; [reflexivity|].
    destruct (write_row c p t k (set_value (default default_value (data t !! k)) v (default c p)) v m ix2) as (H1 & H2 & H3); [done..| |done|done|by apply Hfull].
    apply set_value_spec; [done|by apply default_row_ok]. }
  destruct (delete_mask t) as [|i pending|i removed] eqn:Ed; [apply Hdata; done| |apply Hdata; done].
  clear Hdata. destruct p as [id|]; [|by rewrite (ok_mask _ _ _ Ht) in Ed].
  pose proof (ok_mask _ _ _ Ht) as Hm. rewrite Ed in Hm. destruct Hm as [-> Hm]. cbn [from_option Datatypes.id] in *.
  assert (exists o, match pending !! k with Some v0 => '(o, _) ← take_value v0 id; mret o | None => mret None end = Done o) as [o ->].
  { destruct (pending !! k) as [row|] eqn:Er; [|by eexists]. destruct (Hm k row Er) as [x ->].
    unfold take_value, new_value. cbn [slot_a slot_b]. rewrite decide_True by lia. by eexists. }
  cbn [mbind outcome_bind]. eexists. split; [reflexivity|].
  destruct (write_mask c id t k v pending (modified t) ix2) as (H1 & H2 & H3); [done..|by left|]. by apply Hfull.
Qed.

(** ** Removals *)

(** A removal drops [o] from the indexes: the row removed or, if the transaction does not
    see the key, a row of the data hidden from it. *)
Definition dropped t (id : TxnId) (k : K) (o : option V) : Prop :=
  o = view t id !! k \/ view t id !! k = None /\ o = rows_seen (data t) id !! k.

Definition a_remove (S : gmap K V * iview) (k : K) (o : option V) : gmap K V * iview :=
  (base.delete k (fst S), match o with Some old => iv_remove (snd S) old | None => snd S end).

Definition set_parts t rows (m : DeleteMask K V) (ix : I) : Table K V I := mkTable (owner t) rows m (modified t) ix.

Lemma remove_raw c t k ix :
  table_ok c None t -> idx_ok c None ix ->
  let t' := set_parts t (base.delete k (data t)) (delete_mask t) ix in
  table_ok c None t' /\ view t' c = base.delete k (view t c).
Proof.
  intros [Hr Hm Hmod _] Hix t'. split.
  - constructor; [|done..]. intros j v Hj. cbn [data t' set_parts] in Hj. apply lookup_delete_Some in Hj as [_ Hj]. by apply (Hr j).
  - unfold view. cbn [delete_mask data t' set_parts]. rewrite Hm. apply rows_seen_delete.
Qed.

(** The mask after a removal in a transaction. *)
Lemma mask_remove_spec c id t k :
  c < id -> table_ok c (Some id) t ->
  exists dm m, mask_remove (delete_mask t) k id (data t) = Done (dm, m) /\
    dropped t id k (match dm with Some v => Some v | None => rows_seen (data t) id !! k end) /\
    forall ix, idx_ok c (Some id) ix ->
      let t' := set_parts t (data t) m ix in
      table_ok c (Some id) t' /\ view t' id = base.delete k (view t id).
Proof.
  intros Hlt Ht. pose proof (check_ok c (Some id) t Ht) as Hck. destruct Ht as [Hr Hm Hmod _]. unfold mask_remove. cbn [from_option Datatypes.id] in Hck.
  rewrite Hck. cbn [assert mbind outcome_bind]. rewrite (get_row c (Some id)) by done. cbn [mbind outcome_bind]. unfold mask_ok in Hm.
  assert (Hview : forall m ix, view (set_parts t (data t) m ix) id = base.delete k (view t id) <->
    forall j, view (set_parts t (data t) m ix) id !! j = if decide (j = k) then None else view t id !! j).
  { intros m ix. split.
    - intros -> j. destruct (decide (j = k)) as [->|Hne]; [apply lookup_delete_eq|by apply lookup_delete_ne].
    - intros E. apply map_eq. intros j. rewrite E. destruct (decide (j = k)) as [->|Hne]; [by rewrite lookup_delete_eq|by rewrite lookup_delete_ne]. }
  destruct (delete_mask t) as [|i pending|i removed] eqn:Ed.
  - eexists None, _. split; [reflexivity|]. split; [left; by rewrite view_lookup, Ed|]. intros ix Hix.
    destruct (rows_seen (data t) id !! k) as [x|] eqn:Ek; (split; [constructor; [done| |done..]|apply Hview; intros j; rewrite !view_lookup; cbn [delete_mask data set_parts]; rewrite ?Ed]).
    + split; [done|]. intros j ->%elem_of_singleton. cbn [data set_parts]. by rewrite Ek.
    + destruct (decide (j = k)) as [->|Hne]; [by rewrite decide_True by set_solver|by rewrite decide_False by set_solver].
    + done.
    + destruct (decide (j = k)) as [->|Hne]; done.
  - destruct Hm as [-> Hm].
    assert (match pending !! k with Some v => '(o, _) ← take_value v id; mret o | None => mret None end = Done (rows_seen pending id !! k)) as ->.
    { rewrite rows_seen_lookup. destruct (pending !! k) as [row|] eqn:Er; [|done]. destruct (Hm k row Er) as [x ->].
      cbn [mbind option_bind]. rewrite seen_own. unfold take_value, new_value. cbn [slot_a slot_b]. rewrite decide_True by lia. done. }
    cbn [mbind outcome_bind]. eexists _, _. split; [reflexivity|]. split.
    + unfold dropped. rewrite view_lookup, Ed. destruct (rows_seen pending id !! k); [by left|by right].
    + intros ix Hix. split; [constructor; [done| |done..]|].
      * split; [done|]. intros j v [_ Hj]%lookup_delete_Some. by apply (Hm j).
      * unfold view. cbn [delete_mask set_parts]. rewrite Ed. apply rows_seen_delete.
  - destruct Hm as [-> Hm]. eexists None, _. split; [reflexivity|]. split.
    + unfold dropped. rewrite view_lookup, Ed. case_decide; [by right|by left].
    + intros ix Hix. split; [constructor; [done| |done..]|].
      * split; [done|]. intros j Hj. destruct (rows_seen (data t) id !! k) as [x|] eqn:Ek; [|by apply Hm].
        apply elem_of_union in Hj as [->%elem_of_singleton|Hj]; cbn [data set_parts]; [by rewrite Ek|by apply Hm].
      * apply Hview. intros j. rewrite !view_lookup. cbn [delete_mask data set_parts]. rewrite Ed.
        destruct (rows_seen (data t) id !! k) as [x|] eqn:Ek; destruct (decide (j = k)) as [->|Hne]; repeat case_decide; set_solver.
Qed.

Lemma table_remove_spec c p t k :
  pending_ok c p -> table_ok c p t ->
  exists t' o, table_remove t k (default c p) c = Done t' /\ dropped t (default c p) k o /\
    (p = None -> o = view t c !! k) /\ steps_to c p t t' (a_remove (full_view t (default c p)) k o).
Proof.
  intros Hp Ht. unfold table_remove. destruct p as [id|]; cbn [from_option Datatypes.id].
  - specialize (Hp id eq_refl) as Hlt. rewrite decide_False, decide_True by lia.
    destruct (mask_remove_spec c id t k Hlt Ht) as (dm & m & -> & Hd & Hm). cbn [mbind outcome_bind].
    set (o := match dm with Some v => Some v | None => rows_seen (data t) id !! k end) in *.
    assert (match dm with Some v => mret (Some v) | None => match data t !! k with Some v => get_value v id | None => mret None end end = Done o) as ->.
    { unfold o. destruct dm as [x|]; [done|]. apply (get_row c (Some id)), (ok_rows _ _ _ Ht). }
    cbn [mbind outcome_bind]. destruct (drop_index c (Some id) (indexes t) o Hp (ok_indexes _ _ _ Ht)) as (ix & E & Hi & Hv & Hc).
    cbn [from_option Datatypes.id] in *. rewrite E. cbn [mbind outcome_bind]. eexists _, o. split; [reflexivity|]. split; [done|]. split; [done|].
    destruct (Hm ix Hi) as [H1 H2]. split_and!; [done| | |done].
    + unfold full_view, a_remove. cbn [fst snd]. rewrite <- Hv. f_equal. exact H2.
    + intros Hs. unfold full_committed. cbn [indexes set_parts]. f_equal. by apply Hc.
  - rewrite decide_True by done.
    assert (match data t !! k with Some v => '(o, _) ← take_value v c; mret o | None => mret None end = Done (view t c !! k)) as ->.
    { rewrite view_lookup, (ok_mask _ _ _ Ht), rows_seen_lookup. destruct (data t !! k) as [v|] eqn:E; [|done]. simpl.
      destruct (take_value_spec c None v c (ok_rows _ _ _ Ht k v E)) as [v' ->]. done. }
    cbn [mbind outcome_bind]. destruct (drop_index c None (indexes t) (view t c !! k) Hp (ok_indexes _ _ _ Ht)) as (ix & E & Hi & Hv & Hc).
    cbn [from_option Datatypes.id] in E. rewrite E. cbn [mbind outcome_bind]. eexists _, _. split; [reflexivity|]. split; [by left|]. split; [done|].
    destruct (remove_raw c t k ix Ht Hi) as [H1 H2]. split_and!; [done| |by intros [? ?]|done].
    unfold full_view, a_remove. cbn [fst snd from_option Datatypes.id]. f_equal; [exact H2|exact Hv].
Qed.

Definition a_clear : gmap K V * iview := (∅, iv_empty).

Lemma a_clear_eq id : (rows_seen ∅ id, iv_empty) = a_clear.
Proof. unfold a_clear, rows_seen. by rewrite omap_empty. Qed.

Lemma table_clear_spec c p t :
  pending_ok c p -> table_ok c p t ->
  exists t', table_clear t (default c p) c = Done t' /\ steps_to c p t t' a_clear.
Proof.
  intros Hp Ht. pose proof (check_ok c p t Ht) as Hck. destruct (idx_clear_spec c p (indexes t) Hp (ok_indexes _ _ _ Ht)) as (ix & E & Hi & Hv & Hc).
  unfold table_clear. destruct p as [id|]; cbn [from_option Datatypes.id] in *.
  - specialize (Hp id eq_refl) as Hlt. rewrite decide_False, decide_True by lia. unfold mask_clear. rewrite Hck.
    cbn [assert mbind outcome_bind]. rewrite E. cbn [mbind outcome_bind]. eexists. split; [reflexivity|]. split_and!; [|by rewrite <- (a_clear_eq id), <- Hv|intros Hs; unfold full_committed; f_equal; by apply Hc|done].
    destruct Ht as [Hr Hm Hmod _]. by constructor.
  - rewrite decide_True by done. cbn [mbind outcome_bind]. rewrite E. cbn [mbind outcome_bind]. eexists. split; [reflexivity|].
    destruct Ht as [Hr Hm Hmod _]. split_and!; [| |by intros [? ?]|done].
    + constructor; [|done..]. intros j v Hj. cbn [data] in Hj. by rewrite lookup_empty in Hj.
    + unfold full_view, view. cbn [delete_mask data indexes from_option]. rewrite Hm, Hv. by rewrite <- (a_clear_eq c).
Qed.

(** ** Changes in place *)

Definition a_change (S : gmap K V * iview) (k : K) (old v : V) : gmap K V * iview :=
  (<[k := v]> (fst S), iv_insert (iv_remove (snd S) old) k v).

Definition a_with_mut {A} (S : gmap K V * iview) (k : K) (f : V -> A * V) : option A * (gmap K V * iview) :=
  match fst S !! k with
  | None => (None, S)
  | Some v => let '(a, v') := f v in (Some a, a_change S k v v')
  end.

Lemma unmask_id (m : DeleteMask K V) k :
  match m with MaskSome _ removed => k ∉ removed | _ => True end -> unmask m k = m.
Proof. destruct m as [| |i removed]; [done..|]. intros Hk. simpl. f_equal. set_solver. Qed.

(** A change through a reference into the data. *)
Lemma change_data c p t k row s v {A} (f : V -> A * V) :
  pending_ok c p -> table_ok c p t ->
  match delete_mask t with MaskNone => True | MaskAll _ _ => False | MaskSome _ removed => k ∉ removed end ->
  (forall v', written c p (default default_value (data t !! k)) (write_slot row s v') v') ->
  let t1 := mkTable (owner t) (<[k := row]> (data t)) (delete_mask t) (modified t) (indexes t) in
  exists t', change_row t1 k v (put_data k row s) f (default c p) c = Done (fst (f v), t') /\
    steps_to c p t t' (a_change (full_view t (default c p)) k v (snd (f v))).
Proof.
  intros Hp Ht Hmask Hw t1. unfold change_row. cbn [owner data delete_mask modified indexes t1].
  destruct (idx_on_remove_spec c p (indexes t) v Hp (ok_indexes _ _ _ Ht)) as (ix1 & -> & Hi1 & Hv1 & Hc1). cbn [mbind outcome_bind].
  destruct (record_ok c p t k Hp Ht) as (m & Em & _). rewrite Em. cbn [mbind outcome_bind].
  destruct (f v) as [a v']. cbn [fst snd put_data indexes owner data delete_mask modified].
  destruct (idx_on_insert_spec c p ix1 k v' Hp Hi1) as (ix2 & -> & Hi2 & Hv2 & Hc2). cbn [mbind outcome_bind].
  eexists. split; [reflexivity|]. rewrite insert_insert_eq.
  destruct (write_row c p t k (write_slot row s v') v' m ix2 Hp Ht Hi2 (Hw v') Em) as (H1 & H2 & H3).
  { intros i pending E. by rewrite E in Hmask. }
  rewrite unmask_id in H1, H2, H3 by (by destruct (delete_mask t)).
  split_and!; [done| | |done].
  - unfold full_view, a_change. cbn [fst snd indexes]. rewrite Hv2, Hv1. f_equal. exact H2.
  - intros Hs. unfold full_committed. cbn [indexes]. rewrite Hc2, Hc1 by done. f_equal. by apply H3.
Qed.

(** A change through a reference into the delete mask. *)
Lemma change_mask c id t k x pending {A} (f : V -> A * V) :
  c < id -> table_ok c (Some id) t -> delete_mask t = MaskAll id pending ->
  exists t', change_row t k x (put_mask k (new_value x id) SlotA) f id c = Done (fst (f x), t') /\
    steps_to c (Some id) t t' (a_change (full_view t id) k x (snd (f x))).
Proof.
  intros Hlt Ht Hmask. assert (Hp : pending_ok c (Some id)) by (by intros ? [= <-]). unfold change_row.
  destruct (idx_on_remove_spec c (Some id) (indexes t) x Hp (ok_indexes _ _ _ Ht)) as (ix1 & E1 & Hi1 & Hv1 & Hc1).
  cbn [from_option Datatypes.id] in E1, Hv1. rewrite E1. cbn [mbind outcome_bind].
  destruct (record_ok c (Some id) t k Hp Ht) as (m & Em & Hm). cbn [from_option Datatypes.id] in Em. rewrite Em. cbn [mbind outcome_bind].
  destruct (f x) as [a v']. cbn [fst snd put_mask indexes owner data delete_mask modified].
  destruct (idx_on_insert_spec c (Some id) ix1 k v' Hp Hi1) as (ix2 & E2 & Hi2 & Hv2 & Hc2).
  cbn [from_option Datatypes.id] in E2, Hv2. rewrite E2. cbn [mbind outcome_bind].
  eexists. split; [reflexivity|]. rewrite Hmask. change (write_slot (new_value x id) SlotA v') with (new_value v' id).
  destruct (write_mask c id t k v' pending m ix2 Ht Hi2 Hmask (or_intror Hm)) as (H1 & H2 & H3).
  split_and!; [done| | |done].
  - unfold full_view, a_change. cbn [fst snd indexes from_option Datatypes.id]. rewrite Hv2, Hv1. f_equal. exact H2.
  - intros Hs. unfold full_committed. cbn [indexes]. rewrite Hc2, Hc1 by done. by rewrite H3.
Qed.

(** Cloning the version of a row that the transaction sees. *)
Lemma clone_row_spec c p t k :
  pending_ok c p -> table_ok c p t ->
  match rows_seen (data t) (default c p) !! k with
  | None => clone_row t k (default c p) = Done (None, t)
  | Some v => exists s row, clone_row t k (default c p) =
        Done (Some (s, v, row), mkTable (owner t) (<[k := row]> (data t)) (delete_mask t) (modified t) (indexes t)) /\
      (forall v', written c p (default default_value (data t !! k)) (write_slot row s v') v') /\
      written c p (default default_value (data t !! k)) row v
  end.
Proof.
  intros Hp Ht. rewrite rows_seen_lookup. unfold clone_row. destruct (data t !! k) as [row0|] eqn:E; cbn [mbind option_bind default from_option Datatypes.id]; [|done].
  destruct (internal_clone_spec c p Hp row0 (ok_rows _ _ _ Ht k row0 E)) as (o & row & Ec & Ho & Hnone & Hw). rewrite Ec. cbn [mbind outcome_bind].
  destruct o as [[s v]|]; cbn [option_map snd] in Ho; rewrite <- Ho.
  - destruct (Hw s v eq_refl) as [Hw0 Hw1]. by eexists s, row.
  - rewrite (Hnone eq_refl). rewrite insert_id by done. by destruct t.
Qed.

Lemma mask_get_mut_spec c p t k :
  table_ok c p t ->
  mask_get_mut (delete_mask t) k (default c p) = Done
    match delete_mask t with
    | MaskNone => Unknown
    | MaskAll _ pending => match rows_seen pending (default c p) !! k with Some x => Overwritten (SlotA, x) | None => Removed end
    | MaskSome _ removed => if decide (k ∈ removed) then Removed else Unknown
    end /\
  forall i pending x, delete_mask t = MaskAll i pending -> rows_seen pending (default c p) !! k = Some x ->
    p = Some i /\ mask_row t k = Some (new_value x i).
Proof.
  intros Ht. pose proof (check_ok c p t Ht) as Hck. pose proof (ok_mask _ _ _ Ht) as Hm. unfold mask_get_mut, mask_row. rewrite Hck. cbn [assert mbind outcome_bind].
  destruct p as [id|]; cbn [from_option Datatypes.id] in *; [|rewrite Hm; by split].
  unfold mask_ok in Hm. destruct (delete_mask t) as [|i pending|i removed]; [by split| |].
  - destruct Hm as [-> Hm]. rewrite decide_True by done. rewrite rows_seen_lookup. split.
    + destruct (pending !! k) as [row|] eqn:Er; [|done]. destruct (Hm k row Er) as [x ->].
      unfold get_value_mut. rewrite (proj1 (write_single (new_value x id) x x id eq_refl)). cbn [mbind outcome_bind option_bind].
      by rewrite seen_own.
    + intros i rows x [= <- <-] Hx. split; [done|]. rewrite rows_seen_lookup in Hx. destruct (pending !! k) as [row|] eqn:Er; [|done].
      destruct (Hm k row Er) as [y ->]. cbn [mbind option_bind] in Hx. rewrite seen_own in Hx. by injection Hx as ->.
  - destruct Hm as [-> _]. rewrite decide_True by done. by split.
Qed.

Lemma table_with_mut_spec c p t k {A} (f : V -> A * V) :
  pending_ok c p -> table_ok c p t ->
  let r := a_with_mut (full_view t (default c p)) k f in
  exists t', table_with_mut t k f (default c p) c = Done (fst r, t') /\ steps_to c p t t' (snd r).
Proof.
  intros Hp Ht. cbv zeta. unfold table_with_mut, a_with_mut. destruct (mask_get_mut_spec c p t k Ht) as [-> Hover]. cbn [mbind outcome_bind].
  cbn [full_view fst]. rewrite view_lookup. pose proof (clone_row_spec c p t k Hp Ht) as Hclone.
  assert (Hsame : steps_to c p t t (full_view t (default c p))) by (by split_and!).
  assert (Hun : match delete_mask t with MaskNone => True | MaskAll _ _ => False | MaskSome _ removed => k ∉ removed end ->
    let r := match rows_seen (data t) (default c p) !! k with
             | Some v => let '(a, v') := f v in (Some a, a_change (full_view t (default c p)) k v v')
             | None => (None, full_view t (default c p)) end in
    exists t', ('(o, self) ← clone_row t k (default c p);
      match o with None => mret (None, self) | Some (s, v, row) =>
        '(x, self) ← change_row self k v (put_data k row s) f (default c p) c; mret (Some x, self) end) = Done (fst r, t') /\ steps_to c p t t' (snd r)).
  { intros Hmask. destruct (rows_seen (data t) (default c p) !! k) as [v|].
    - destruct Hclone as (s & row & -> & Hw & _). cbn [mbind outcome_bind].
      destruct (change_data c p t k row s v f Hp Ht Hmask Hw) as (t' & -> & Hst). cbn [mbind outcome_bind].
      destruct (f v) as [a v']. by exists t'.
    - rewrite Hclone. cbn [mbind outcome_bind]. by exists t. }
  destruct (delete_mask t) as [|i pending|i removed] eqn:Ed; [by apply Hun| |case_decide; [by exists t|by apply Hun]].
  destruct (rows_seen pending (default c p) !! k) as [x|] eqn:Ex; [|by exists t].
  destruct (Hover i pending x eq_refl Ex) as [-> Hrow]. rewrite Hrow. cbn [unwrap mbind outcome_bind from_option Datatypes.id].
  destruct (change_mask c i t k x pending f) as (t' & -> & Hst); [by apply Hp|done|done|]. cbn [mbind outcome_bind].
  destruct (f x) as [a v']. by exists t'.
Qed.

(** ** Visiting all rows *)

Definition a_visit (f : K -> V -> V) (S : gmap K V * iview) (k : K) : gmap K V * iview :=
  snd (a_with_mut S k (fun v => (tt, f k v))).

(** No row is hidden by its key: the transaction has removed none since it last cleared. *)
Definition no_removed t : Prop := match delete_mask t with MaskSome _ _ => False | _ => True end.

Lemma steps_trans c p t t1 t2 S1 S2 : steps_to c p t t1 S1 -> steps_to c p t1 t2 S2 -> steps_to c p t t2 S2.
Proof.
  intros (_ & _ & Hc1 & Ho1) (H2 & Hv2 & Hc2 & Ho2). split_and!; [done..| |congruence].
  intros Hs. by rewrite Hc2, Hc1.
Qed.

Lemma change_row_mask {A} t k v put (f : V -> A * V) id c r t' :
  (forall v t, no_removed (put v t) <-> no_removed t) ->
  change_row t k v put f id c = Done (r, t') -> no_removed t -> no_removed t'.
Proof.
  intros Hput. unfold change_row. destruct (idx_on_remove _ _ _ _) as [ix|]; [|done]. cbn [mbind outcome_bind].
  destruct (record_mutation _ _ _ _) as [m|]; [|done]. cbn [mbind outcome_bind]. destruct (f v) as [a v'].
  destruct (idx_on_insert _ _ _ _ _) as [ix'|]; [|done]. cbn [mbind outcome_bind]. intros [= <- <-] Hn.
  apply (Hput v' (mkTable (owner t) (data t) (delete_mask t) m ix)) in Hn. done.
Qed.

Lemma put_data_mask (k : K) row s v t : no_removed (put_data k row s v t) <-> no_removed t.
Proof. done. Qed.

Lemma put_mask_mask (k : K) row s v t : no_removed (put_mask k row s v t) <-> no_removed t.
Proof. unfold no_removed, put_mask. cbn [delete_mask]. by destruct (delete_mask t). Qed.

Lemma visit_row_spec c p t k f :
  pending_ok c p -> table_ok c p t -> no_removed t ->
  exists t', visit_row t k f (default c p) c = Done t' /\ no_removed t' /\
    steps_to c p t t' (a_visit f (full_view t (default c p)) k).
Proof.
  intros Hp Ht Hn. unfold visit_row, a_visit, a_with_mut. cbn [full_view fst]. rewrite view_lookup.
  pose proof (clone_row_spec c p t k Hp Ht) as Hclone. pose proof (ok_mask _ _ _ Ht) as Hm.
  assert (Hsame : steps_to c p t t (full_view t (default c p))) by (by split_and!).
  destruct (delete_mask t) as [|i pending|i removed] eqn:Ed; [| |by unfold no_removed in Hn; rewrite Ed in Hn].
  - destruct (rows_seen (data t) (default c p) !! k) as [v|].
    + destruct Hclone as (s & row & E & Hw & _). rewrite E. cbn [mbind outcome_bind].
      destruct (change_data c p t k row s v (fun v => (tt, f k v)) Hp Ht) as (t' & Ec & Hst); [by rewrite Ed|done|].
      rewrite Ed in Ec. rewrite Ec. cbn [mbind outcome_bind fst snd] in *. exists t'. split_and!; [done| |done].
      eapply (change_row_mask _ k v); [intros; apply put_data_mask|exact Ec|done].
    + rewrite Hclone. by exists t.
  - destruct p as [id|]; [|done]. cbn [from_option Datatypes.id] in *. destruct Hm as [-> Hm]. rewrite rows_seen_lookup.
    destruct (pending !! k) as [row|] eqn:Er; [|by exists t]. destruct (Hm k row Er) as [x ->].
    unfold get_value_mut. rewrite (proj1 (write_single (new_value x id) x x id eq_refl)). cbn [mbind outcome_bind option_bind].
    rewrite seen_own. destruct (change_mask c id t k x pending (fun v => (tt, f k v)) (Hp id eq_refl) Ht Ed) as (t' & Ec & Hst).
    rewrite Ec. cbn [mbind outcome_bind fst snd] in *. exists t'. split_and!; [done| |done].
    eapply (change_row_mask _ k x); [intros; apply put_mask_mask|exact Ec|by unfold no_removed; rewrite Ed].
Qed.

Lemma visit_rows_spec c p ks t f :
  pending_ok c p -> table_ok c p t -> no_removed t ->
  exists t', visit_rows t ks f (default c p) c = Done t' /\
    steps_to c p t t' (foldl (a_visit f) (full_view t (default c p)) ks).
Proof.
  intros Hp. revert t. induction ks as [|k ks IH]; intros t Ht Hn; [by exists t|].
  destruct (visit_row_spec c p t k f Hp Ht Hn) as (t1 & E1 & Hn1 & H1). cbn [visit_rows foldl]. rewrite E1. cbn [mbind outcome_bind].
  pose proof H1 as (Ht1 & Hv1 & _). destruct (IH t1 Ht1 Hn1) as (t2 & E2 & H2). exists t2. split; [done|].
  rewrite Hv1 in H2. by eapply steps_trans.
Qed.

(** Every row is visited once. *)
Lemma foldl_visit f ks (S : gmap K V * iview) :
  NoDup ks -> forall k, fst (foldl (a_visit f) S ks) !! k = if decide (k ∈ ks) then f k <$> fst S !! k else fst S !! k.
Proof.
  revert S. induction ks as [|j ks IH]; intros S Hnd k; [by rewrite decide_False by set_solver|].
  apply NoDup_cons in Hnd as [Hj Hnd]. cbn [foldl]. rewrite IH by done.
  assert (Hv : forall k, fst (a_visit f S j) !! k = if decide (k = j) then f j <$> fst S !! j else fst S !! k).
  { intros k'. unfold a_visit, a_with_mut. destruct (fst S !! j) as [v|] eqn:E; cbn [snd a_change fst fmap option_fmap option_map].
    - destruct (decide (k' = j)) as [->|Hne]; [by rewrite lookup_insert_eq|by rewrite lookup_insert_ne].
    - case_decide; [congruence|done]. }
  rewrite !Hv. destruct (decide (k = j)) as [->|Hne].
  - by rewrite decide_False, decide_True by set_solver.
  - destruct (decide (k ∈ ks)); [by rewrite decide_True by set_solver|by rewrite decide_False by set_solver].
Qed.

Definition mask_rows t : gmap K (VersionedValue V) :=
  match delete_mask t with MaskAll _ pending => pending | _ => data t end.

Lemma hash_keys_nodup rows : NoDup (hash_keys rows) /\ forall k, k ∈ hash_keys rows <-> is_Some (rows !! k).
Proof.
  split.
  - rewrite (hash_keys_perm rows). apply NoDup_fst_map_to_list.
  - intros k. rewrite (hash_keys_perm rows). rewrite list_elem_of_fmap. split.
    + intros ([k' v] & -> & Hkv). apply elem_of_map_to_list in Hkv. by exists v.
    + intros [v Hv]. exists (k, v). split; [done|]. by apply elem_of_map_to_list.
Qed.

(** [ks] lists every row once. *)
Definition visits (ks : list K) (rows : gmap K V) : Prop := NoDup ks /\ forall k, is_Some (rows !! k) -> k ∈ ks.

Lemma table_for_each_spec c p t f :
  pending_ok c p -> table_ok c p t -> no_removed t ->
  exists t' ks, table_for_each_mut t f (default c p) c = Done t' /\ visits ks (view t (default c p)) /\
    steps_to c p t t' (foldl (a_visit f) (full_view t (default c p)) ks).
Proof.
  intros Hp Ht Hn. destruct (visit_rows_spec c p (hash_keys (mask_rows t)) t f Hp Ht Hn) as (t' & E & Hst).
  exists t', (hash_keys (mask_rows t)). destruct (hash_keys_nodup (mask_rows t)) as [Hnd Hks]. split; [|split; [split; [done|]|done]].
  - unfold table_for_each_mut, mask_rows in *. by destruct (delete_mask t).
  - intros k. rewrite Hks, view_lookup. unfold mask_rows, no_removed in *.
    destruct (delete_mask t); [| |done]; rewrite rows_seen_lookup; destruct (_ !! k) eqn:E'; eauto; by intros [? ?].
Qed.

(** ** Reading all rows *)

Lemma visible_rows_spec c p rows ks id :
  (forall k v, rows !! k = Some v -> value_ok c p v) ->
  visible_rows rows ks id = Done (omap (fun k => pair k <$> rows_seen rows id !! k) ks).
Proof.
  intros Hr. induction ks as [|k ks IH]; [done|]. cbn [visible_rows]. rewrite (get_row c p) by done. cbn [mbind outcome_bind].
  rewrite IH. cbn [mbind outcome_bind]. cbn [omap list_omap]. by destruct (rows_seen rows id !! k).
Qed.

Lemma omap_keys (m : gmap K V) ks :
  NoDup ks -> (forall k, is_Some (m !! k) -> k ∈ ks) -> omap (fun k => pair k <$> m !! k) ks ≡ₚ map_to_list m.
Proof.
  intros Hnd Hks. apply NoDup_Permutation.
  - induction Hnd as [|k ks Hk Hnd IH]; [constructor|]. clear Hks. cbn [omap list_omap].
    assert (IH' : NoDup (omap (fun k => pair k <$> m !! k) ks)).
    { clear -Hnd. induction Hnd as [|k ks Hk Hnd IH]; [constructor|]. cbn [omap list_omap]. destruct (m !! k) as [v|]; cbn [fmap option_fmap option_map]; [|done].
      constructor; [|done]. intros (j & Hj & E)%list_elem_of_omap. destruct (m !! j); [|done]. injection E as -> _. done. }
    destruct (m !! k) as [v|]; cbn [fmap option_fmap option_map]; [|done]. constructor; [|done].
    intros (j & Hj & E)%list_elem_of_omap. destruct (m !! j); [|done]. injection E as -> _. done.
  - apply NoDup_map_to_list.
  - intros [k v]. rewrite elem_of_map_to_list, list_elem_of_omap. split.
    + intros (j & Hj & E). destruct (m !! j) as [x|] eqn:Ej; [|done]. by injection E as <- <-.
    + intros E. exists k. split; [by apply Hks|]. by rewrite E.
Qed.

Lemma mask_rows_ok c p t : table_ok c p t -> forall k v, mask_rows t !! k = Some v -> value_ok c p v.
Proof.
  intros [Hr Hm _ _] k v Hv. unfold mask_rows in Hv. destruct p as [id|]; [|rewrite Hm in Hv; by apply (Hr k)].
  unfold mask_ok in Hm. destruct (delete_mask t) as [|i pending|i removed]; [by apply (Hr k)| |by apply (Hr k)].
  destruct Hm as [-> Hm]. destruct (Hm k v Hv) as [x ->]. split_and!; [intros ? ? [= <- <-]; by right|done..].
Qed.

Lemma table_iter_spec c p t :
  table_ok c p t -> exists l, table_iter t (default c p) = Done l /\ l ≡ₚ map_to_list (view t (default c p)).
Proof.
  intros Ht. pose proof (mask_rows_ok c p t Ht) as Hr. destruct (hash_keys_nodup (mask_rows t)) as [Hnd Hks].
  unfold table_iter, mask_rows, view in *. destruct (delete_mask t) as [|i pending|i removed].
  - rewrite (visible_rows_spec c p) by done. eexists. split; [reflexivity|]. apply omap_keys; [done|].
    intros k. rewrite rows_seen_lookup, Hks. destruct (data t !! k); [done|by intros [? ?]].
  - rewrite (visible_rows_spec c p) by done. eexists. split; [reflexivity|]. apply omap_keys; [done|].
    intros k. rewrite rows_seen_lookup, Hks. destruct (pending !! k); [done|by intros [? ?]].
  - rewrite (visible_rows_spec c p) by done. eexists. split; [reflexivity|].
    rewrite <- omap_keys with (ks := filter (fun k => k ∉ removed) (hash_keys (data t))).
    + rewrite (omap_ext_in (fun k => pair k <$> rows_seen (data t) (default c p) !! k)
        (fun k => pair k <$> filter (fun kv => fst kv ∉ removed) (rows_seen (data t) (default c p)) !! k)); [done|].
      intros k [Hk _]%list_elem_of_filter. f_equal.
      destruct (rows_seen (data t) _ !! k) as [x|] eqn:E; [by symmetry; apply map_lookup_filter_Some|].
      symmetry. apply map_lookup_filter_None. by left.
    + by apply NoDup_filter.
    + intros k [x [Hx Hk]%map_lookup_filter_Some]. apply list_elem_of_filter. split; [done|]. apply Hks.
      rewrite rows_seen_lookup in Hx. by destruct (data t !! k).
Qed.

Lemma iter_data_spec c p t :
  table_ok c p t -> exists l, iter_data t (default c p) = Done l /\ length l = size (rows_seen (data t) (default c p)).
Proof.
  intros [Hr _ _ _]. unfold iter_data. rewrite (visible_rows_spec c p) by done. eexists. split; [reflexivity|].
  destruct (hash_keys_nodup (data t)) as [Hnd Hks]. rewrite omap_keys; [apply length_map_to_list|done|].
  intros k. rewrite rows_seen_lookup, Hks. destruct (data t !! k); [eauto|by intros [? ?]].
Qed.

Lemma size_filter_removed (m : gmap K V) (removed : gset K) :
  (forall k, k ∈ removed -> is_Some (m !! k)) ->
  (size m = size (filter (fun kv => fst kv ∉ removed) m) + size removed)%nat.
Proof.
  revert m. induction removed as [|k removed Hk IH] using set_ind_L; intros m Hm.
  - rewrite size_empty, map_filter_id; [lia|]. set_solver.
  - destruct (Hm k ltac:(set_solver)) as [v Hv]. rewrite size_union, size_singleton by set_solver.
    specialize (IH (base.delete k m)). rewrite map_size_delete, Hv in IH.
    assert (size m <> 0%nat) by (apply map_size_ne_0_lookup_2 with k; by exists v).
    replace (filter (fun kv => fst kv ∉ {[ k ]} ∪ removed) m) with (filter (fun kv => fst kv ∉ removed) (base.delete k m)).
    + enough (forall j, j ∈ removed -> is_Some (base.delete k m !! j)) by (specialize (IH ltac:(done)); lia).
      intros j Hj. rewrite lookup_delete_ne by set_solver. apply Hm. set_solver.
    + apply map_eq. intros j. apply option_eq. intros x. rewrite !map_lookup_filter_Some, lookup_delete_Some. set_solver.
Qed.

Lemma size_rows_seen_new (pending : gmap K (VersionedValue V)) id :
  (forall k v, pending !! k = Some v -> exists x, v = new_value x id) -> size (rows_seen pending id) = size pending.
Proof.
  intros Hm. rewrite <- !size_dom. f_equal. apply set_eq. intros k. rewrite !elem_of_dom, rows_seen_lookup.
  destruct (pending !! k) as [v|] eqn:E; [|by split; intros [? ?]]. destruct (Hm k v E) as [x ->]. cbn [mbind option_bind].
  rewrite seen_own. split; eauto.
Qed.

Lemma table_len_spec c p t : table_ok c p t -> table_len t (default c p) = Done (size (view t (default c p))).
Proof.
  intros Ht. destruct (iter_data_spec c p t Ht) as (l & El & Hl). pose proof (ok_mask _ _ _ Ht) as Hm. unfold table_len, view.
  destruct p as [id|]; cbn [from_option Datatypes.id] in *; [|rewrite Hm, El; cbn [mbind outcome_bind]; by rewrite Hl].
  unfold mask_ok in Hm. destruct (delete_mask t) as [|i pending|i removed].
  - rewrite El. cbn [mbind outcome_bind]. by rewrite Hl.
  - destruct Hm as [-> Hm]. by rewrite size_rows_seen_new.
  - destruct Hm as [-> Hm]. rewrite El. cbn [mbind outcome_bind]. pose proof (size_filter_removed _ _ Hm).
    unfold sub_len. rewrite decide_True by lia. f_equal. lia.
Qed.

Lemma table_is_empty_spec c p t :
  table_ok c p t -> table_is_empty t (default c p) = Done (size (view t (default c p)) =? 0)%nat.
Proof.
  intros Ht. pose proof (table_len_spec c p t Ht) as Hlen. unfold table_len, table_is_empty, view in *.
  destruct (delete_mask t) as [|i pending|i removed].
  - destruct (iter_data t _) as [l|]; [|done]. injection Hlen as <-. done.
  - by injection Hlen as ->.
  - case_decide as Hd.
    + apply map_size_empty_inv in Hd. rewrite Hd. unfold rows_seen. by rewrite omap_empty, map_filter_empty.
    + destruct (iter_data t _) as [l|]; [|done]. cbn [mbind outcome_bind] in *. rewrite Hlen. done.
Qed.

(** ** The end of a transaction *)

Lemma foldr_delete_lookup rows (l : list K) k : foldr base.delete rows l !! k = if decide (k ∈ l) then None else rows !! k.
Proof.
  induction l as [|j l IH]; [by rewrite decide_False by set_solver|]. cbn [foldr]. destruct (decide (k = j)) as [->|Hne].
  - rewrite lookup_delete_eq. by rewrite decide_True by set_solver.
  - rewrite lookup_delete_ne, IH by done. destruct (decide (k ∈ l)); [by rewrite decide_True by set_solver|by rewrite decide_False by set_solver].
Qed.

(** A table without transaction state. *)
Definition idle_rows c t : Prop :=
  (forall k v, data t !! k = Some v -> value_ok c None v) /\ delete_mask t = MaskNone /\ modified t = None.

Lemma check_rows c id t : table_ok c (Some id) t -> check_txn_consistency t id = None.
Proof.
  intros [_ Hm [Hmod _] _]. unfold check_txn_consistency, mask_ok in *.
  assert (match modified t with Some (i, _) => i =? id | None => true end = true) as ->.
  { destruct (modified t) as [[i ks]|]; [|done]. specialize (Hmod i ks eq_refl) as ->. apply Z.eqb_refl. }
  destruct (delete_mask t); [done| |]; destruct Hm as [-> _]; by rewrite Z.eqb_refl.
Qed.

Lemma commit_rows c id t :
  c < id -> table_ok c (Some id) t ->
  exists t', commit_table t id = Done t' /\ idle_rows id t' /\ rows_seen (data t') id = view t id /\
    indexes t' = indexes t /\ owner t' = owner t.
Proof.
  intros Hlt [Hr Hm [Hmod _] _]. unfold commit_table, idle_rows, view.
  assert (match modified t with Some (i, _) => assert (i =? id) | None => mret tt end = Done tt) as ->.
  { destruct (modified t) as [[i ks]|]; [|done]. specialize (Hmod i ks eq_refl) as ->. by rewrite Z.eqb_refl. }
  cbn [mbind outcome_bind]. unfold mask_ok in Hm. destruct (delete_mask t) as [|i pending|i removed].
  - eexists. split; [reflexivity|]. split_and!; [|done..]. intros k v Hv. by eapply commit_value, (Hr k).
  - destruct Hm as [-> Hm]. rewrite Z.eqb_refl. eexists. split; [reflexivity|]. split_and!; [|done..].
    intros k v Hv. destruct (Hm k v Hv) as [x ->]. split_and!; [intros ? ? [= <- <-]; by left|done..].
  - destruct Hm as [-> Hm]. rewrite Z.eqb_refl. eexists. split; [reflexivity|]. split_and!; [|done| | |done..].
    + intros k v. cbn [data]. rewrite foldr_delete_lookup. case_decide; [done|]. intros Hv. by eapply commit_value, (Hr k).
    + done.
    + apply map_eq. intros k. cbn [data]. rewrite rows_seen_lookup, foldr_delete_lookup.
      pose proof (view_lookup (mkTable None (data t) (MaskSome id removed) None (indexes t)) id k) as Hv. unfold view in Hv. cbn [delete_mask data] in Hv.
      rewrite Hv, rows_seen_lookup. destruct (decide (k ∈ removed)) as [Hk|Hk].
      * by rewrite decide_True by (by apply elem_of_elements).
      * by rewrite decide_False by (by rewrite elem_of_elements).
Qed.

Lemma gc_keys_spec c id ks rows :
  c < id -> (forall k v, rows !! k = Some v -> value_ok c (Some id) v) ->
  let rows' := gc_keys ks rows id in
  rows_seen rows' c = rows_seen rows c /\
  forall k v, rows' !! k = Some v -> value_ok c (Some id) v /\ (k ∈ ks \/ rows !! k = Some v) /\ (k ∈ ks -> value_ok c None v).
Proof.
  intros Hlt. cbv zeta. revert rows. induction ks as [|k ks IH]; intros rows Hr; [split; [done|]; intros j v Hj; split_and!; [by apply (Hr j)|by right|set_solver]|].
  cbn [gc_keys]. set (rows1 := match rows !! k with Some v => _ | None => rows end).
  assert (H1 : rows_seen rows1 c = rows_seen rows c /\
    forall j v, rows1 !! j = Some v -> value_ok c (Some id) v /\ (j = k \/ rows !! j = Some v) /\ (j = k -> value_ok c None v)).
  { unfold rows1. destruct (rows !! k) as [v0|] eqn:E0.
    2: { split; [done|]. intros j v Hj. split_and!; [by apply (Hr j)|by right|]. intros ->. congruence. }
    destruct (gc_value_spec c id Hlt v0 (Hr k v0 E0)) as [Hok Hs].
    destruct (value_is_empty (gc_value v0 id)) eqn:Ee.
    - split.
      + rewrite rows_seen_delete. apply delete_id. rewrite rows_seen_lookup, E0. cbn [mbind option_bind]. rewrite <- Hs. by apply seen_empty.
      + intros j v [Hne Hj]%lookup_delete_Some. split_and!; [by apply (Hr j)|by right|congruence].
    - split.
      + apply rows_seen_same. rewrite rows_seen_lookup, E0. exact Hs.
      + intros j v [[-> <-]|[Hne Hj]]%lookup_insert_Some; [|split_and!; [by apply (Hr j)|by right|congruence]].
        split_and!; [by apply begin_value|by left|done]. }
  destruct H1 as [Hs1 H1]. destruct (IH rows1) as [Hs2 H2]; [intros j v Hj; by apply (H1 j)|]. split; [congruence|].
  intros j v Hj. destruct (H2 j v Hj) as (Hv & Hc & Hks). split; [done|]. destruct (decide (j ∈ ks)) as [Hin|Hout].
  - split; [left; set_solver|]. intros _. by apply Hks.
  - destruct Hc as [Hc|Hc]; [done|]. destruct (H1 j v Hc) as (_ & [->|Hc'] & Hk).
    + split; [left; set_solver|]. intros _. by apply Hk.
    + split; [by right|]. intros [->|Hin]%elem_of_cons; [by apply Hk|done].
Qed.

Lemma gc_rows c id t :
  c < id -> table_ok c (Some id) t ->
  exists t', gc_table t id = Done t' /\ idle_rows c t' /\ rows_seen (data t') c = committed_rows t c /\
    indexes t' = indexes t /\ owner t' = owner t.
Proof.
  intros Hlt [Hr Hm [Hmod Hrd] _]. unfold gc_table, idle_rows, recorded, modified_keys in *. destruct (modified t) as [[i ks]|].
  - specialize (Hmod i ks eq_refl) as ->. rewrite Z.eqb_refl. cbn [assert mbind outcome_bind]. eexists. split; [reflexivity|]. cbn [data delete_mask modified].
    destruct (gc_keys_spec c id ks (data t) Hlt Hr) as [Hs Hk]. split_and!; [|done..].
    intros k v Hv. destruct (Hk k v Hv) as (Hok & [Hin|Hsame] & Hgc); [by apply Hgc|].
    destruct (has_version v id) eqn:Ev; [apply Hgc, (Hrd k v Hsame Ev)|by eapply no_version].
  - eexists. split; [reflexivity|]. split_and!; [|done..]. cbn [data]. intros k v Hv.
    destruct (has_version v id) eqn:Ev; [by specialize (Hrd k v Hv Ev); set_solver|]. eapply no_version; [by apply (Hr k)|done].
Qed.

Lemma begin_rows c id t :
  c < id -> table_ok c None t -> idx_ok c (Some id) (indexes t) ->
  table_ok c (Some id) t /\ view t id = view t c /\ committed_rows t c = view t c.
Proof.
  intros Hlt [Hr Hm Hmod _] Hix. assert (Hv : view t id = view t c).
  { unfold view. rewrite Hm. apply map_eq. intros k. rewrite !rows_seen_lookup. destruct (data t !! k) as [v|] eqn:E; [|done].
    cbn [mbind option_bind]. apply (seen_committed c); [by apply (Hr k)|lia]. }
  split_and!; [|done|by unfold view; rewrite Hm]. constructor; [| | |done].
  - intros k v Hk. by apply begin_value, (Hr k).
  - by rewrite Hm.
  - unfold modified_keys. rewrite Hmod. split; [done|]. intros k v Hk. by rewrite (no_pending_version c id) by (done || by apply (Hr k)).
Qed.

Lemma idle_ok c t : idle_rows c t -> idx_ok c None (indexes t) -> table_ok c None t.
Proof. intros (Hr & Hm & Hmod) Hix. by constructor. Qed.

Lemma idle_view c t : idle_rows c t -> view t c = rows_seen (data t) c.
Proof. intros (_ & Hm & _). unfold view. by rewrite Hm. Qed.

Lemma default_table_ok c : table_ok c None (default_table (K := K) (V := V) (I := I)) /\ full_view default_table c = a_clear.
Proof.
  destruct (idx_default_spec (K := K) (V := V) (I := I) c) as [Hok Hv]. split.
  - constructor; [|done..]. intros k v Hk. cbn [data default_table] in Hk. by rewrite lookup_empty in Hk.
  - unfold full_view. rewrite <- (a_clear_eq c), <- Hv. reflexivity.
Qed.

End Spec.
End KvTableSpec.
