(* ===== verification/KvIndex.v ===== *)
(** * Index tables keep the promises of index storage

    The indexes of a table are tables themselves: [IndexLaws] holds of a table without
    indexes, of one index table and of several indexes side by side.  An index whose keys
    identify the rows stays the inverse of its base table under every operation that drops
    the row it replaces. *)

From S2P Require Import Prelude KvValue KvTable KvTableSpec.
Import KvValue KvTable KvTableSpec.

Module KvIndex.

#[global] Instance no_index_laws {K V} : IndexLaws K V unit (HX := no_index).
Proof.
  refine {| iview := unit; iv_empty := tt; iv_insert _ _ _ := tt; iv_remove _ _ := tt;
            idx_ok _ _ _ := True; idx_view _ _ := tt; idx_committed _ _ := tt |}; try done.
  - intros c p [] _ _. by exists tt.
  - intros c p [] k v _ _. by exists tt.
  - intros c p [] v _ _. by exists tt.
  - intros c id [] _ _. by exists tt.
  - intros c id [] _ _. by exists tt.
Defined.

Section TableIndex.
Context {K V F : Type} `{Countable F} `{HO : !HashOrder F} `{HF : !IndexKeys V F}.
Implicit Types ix : Table F K unit.

Definition index_put (m : gmap F K) (k : K) (fs : list F) : gmap F K := foldl (fun m f => <[f := k]> m) m fs.
Definition index_drop (m : gmap F K) (fs : list F) : gmap F K := foldl (fun m f => base.delete f m) m fs.

Lemma index_put_lookup m k fs f : index_put m k fs !! f = if decide (f ∈ fs) then Some k else m !! f.
Proof.
  revert m. induction fs as [|g fs IH]; intros m; [by rewrite decide_False by set_solver|]. cbn [index_put foldl].
  fold (index_put (<[g := k]> m) k fs). rewrite IH. destruct (decide (f ∈ fs)); [by rewrite decide_True by set_solver|].
  destruct (decide (f = g)) as [->|Hne]; [by rewrite lookup_insert_eq, decide_True by set_solver|].
  rewrite lookup_insert_ne by done. by rewrite decide_False by set_solver.
Qed.

Lemma index_drop_lookup m fs f : index_drop m fs !! f = if decide (f ∈ fs) then None else m !! f.
Proof.
  revert m. induction fs as [|g fs IH]; intros m; [by rewrite decide_False by set_solver|]. cbn [index_drop foldl].
  fold (index_drop (base.delete g m) fs). rewrite IH. destruct (decide (f ∈ fs)); [by rewrite decide_True by set_solver|].
  destruct (decide (f = g)) as [->|Hne]; [by rewrite lookup_delete_eq, decide_True by set_solver|].
  rewrite lookup_delete_ne by done. by rewrite decide_False by set_solver.
Qed.

Lemma index_insert_all_spec c p ix fs k :
  pending_ok c p -> table_ok c p ix ->
  exists ix', index_insert_all ix fs k (default c p) c = Done ix' /\ table_ok c p ix' /\
    view ix' (default c p) = index_put (view ix (default c p)) k fs /\
    (is_Some p -> committed_rows ix' c = committed_rows ix c).
Proof.
  intros Hp. revert ix. induction fs as [|f fs IH]; intros ix Hok; [by exists ix|]. cbn [index_insert_all].
  destruct (table_insert_spec c p ix f k Hp Hok) as (t1 & -> & Hok1 & Hv1 & Hc1 & _). cbn [mbind outcome_bind].
  destruct (IH t1 Hok1) as (t2 & -> & Hok2 & Hv2 & Hc2). exists t2. split_and!; [done..| |].
  - rewrite Hv2. apply (f_equal fst) in Hv1. cbn [fst full_view a_insert] in Hv1. by rewrite Hv1.
  - intros Hs. rewrite Hc2 by done. exact (f_equal fst (Hc1 Hs)).
Qed.

Lemma index_remove_all_spec c p ix fs :
  pending_ok c p -> table_ok c p ix ->
  exists ix', index_remove_all ix fs (default c p) c = Done ix' /\ table_ok c p ix' /\
    view ix' (default c p) = index_drop (view ix (default c p)) fs /\
    (is_Some p -> committed_rows ix' c = committed_rows ix c).
Proof.
  intros Hp. revert ix. induction fs as [|f fs IH]; intros ix Hok; [by exists ix|]. cbn [index_remove_all].
  destruct (table_remove_spec c p ix f Hp Hok) as (t1 & o & -> & _ & _ & Hok1 & Hv1 & Hc1 & _). cbn [mbind outcome_bind].
  destruct (IH t1 Hok1) as (t2 & -> & Hok2 & Hv2 & Hc2). exists t2. split_and!; [done..| |].
  - rewrite Hv2. apply (f_equal fst) in Hv1. cbn [fst full_view a_remove] in Hv1. by rewrite Hv1.
  - intros Hs. rewrite Hc2 by done. exact (f_equal fst (Hc1 Hs)).
Qed.

#[global] Instance table_index_laws : IndexLaws K V (Table F K unit).
Proof.
  refine {| iview := gmap F K; iv_empty := ∅; iv_insert m k v := index_put m k (index_keys v); iv_remove m v := index_drop m (index_keys v);
            idx_ok := table_ok; idx_view := view; idx_committed := committed_rows |}.
  - intros c. destruct (default_table_ok (K := F) (V := K) (I := unit) c) as [Hok Hv]. split; [done|exact (f_equal fst Hv)].
  - intros c p ix Hp Hok. destruct (table_clear_spec c p ix Hp Hok) as (t & E & Hok' & Hv & Hc & _). exists t.
    split_and!; [done..|exact (f_equal fst Hv)|]. intros Hs. exact (f_equal fst (Hc Hs)).
  - intros c p ix k v Hp Hok. by apply index_insert_all_spec.
  - intros c p ix v Hp Hok. by apply index_remove_all_spec.
  - intros c id ix. apply check_rows.
  - intros c id ix Hlt Hok. destruct (commit_rows c id ix Hlt Hok) as (t & E & Hi & Hv & Hx & _). exists t.
    split_and!; [done|by apply idle_ok|by rewrite idle_view].
  - intros c id ix Hlt Hok. destruct (gc_rows c id ix Hlt Hok) as (t & E & Hi & Hv & Hx & _). exists t.
    split_and!; [done|by apply idle_ok|by rewrite idle_view].
  - intros c id ix Hlt Hok. by apply begin_rows.
Defined.

End TableIndex.

#[global] Instance pair_index_laws {K V I J} `{!IndexStorage K V I} `{!IndexStorage K V J}
    `{LI : !IndexLaws K V I} `{LJ : !IndexLaws K V J} : IndexLaws K V (I * J).
Proof.
  refine {| iview := iview (IndexLaws := LI) * iview (IndexLaws := LJ); iv_empty := (iv_empty, iv_empty);
            iv_insert m k v := (iv_insert (fst m) k v, iv_insert (snd m) k v); iv_remove m v := (iv_remove (fst m) v, iv_remove (snd m) v);
            idx_ok c p x := idx_ok (IndexLaws := LI) c p (fst x) /\ idx_ok (IndexLaws := LJ) c p (snd x);
            idx_view x id := (idx_view (fst x) id, idx_view (snd x) id);
            idx_committed x id := (idx_committed (fst x) id, idx_committed (snd x) id) |}; cbn.
  - intros c. destruct (idx_default_spec (IndexLaws := LI) c) as [H1 ->], (idx_default_spec (IndexLaws := LJ) c) as [H2 ->]. done.
  - intros c p [i j] Hp [Hi Hj]. cbn in *. destruct (idx_clear_spec c p i Hp Hi) as (i' & -> & ? & E1 & C1), (idx_clear_spec c p j Hp Hj) as (j' & E & ? & E2 & C2).
    cbn [mbind outcome_bind]. rewrite E. eexists (_, _). split; [reflexivity|]. cbn. rewrite E1, E2. split_and!; [done..|]. intros Hs. by rewrite C1, C2.
  - intros c p [i j] k v Hp [Hi Hj]. cbn in *. destruct (idx_on_insert_spec c p i k v Hp Hi) as (i' & -> & ? & E1 & C1), (idx_on_insert_spec c p j k v Hp Hj) as (j' & E & ? & E2 & C2).
    cbn [mbind outcome_bind]. rewrite E. eexists (_, _). split; [reflexivity|]. cbn. rewrite E1, E2. split_and!; [done..|]. intros Hs. by rewrite C1, C2.
  - intros c p [i j] v Hp [Hi Hj]. cbn in *. destruct (idx_on_remove_spec c p i v Hp Hi) as (i' & -> & ? & E1 & C1), (idx_on_remove_spec c p j v Hp Hj) as (j' & E & ? & E2 & C2).
    cbn [mbind outcome_bind]. rewrite E. eexists (_, _). split; [reflexivity|]. cbn. rewrite E1, E2. split_and!; [done..|]. intros Hs. by rewrite C1, C2.
  - intros c id [i j] [Hi Hj]. cbn in *. by rewrite (idx_check_spec c id i Hi), (idx_check_spec c id j Hj).
  - intros c id [i j] Hlt [Hi Hj]. cbn in *. destruct (idx_commit_spec c id i Hlt Hi) as (i' & -> & ? & E1), (idx_commit_spec c id j Hlt Hj) as (j' & E & ? & E2).
    cbn [mbind outcome_bind]. rewrite E. eexists (_, _). split; [reflexivity|]. cbn. by rewrite E1, E2.
  - intros c id [i j] Hlt [Hi Hj]. cbn in *. destruct (idx_gc_spec c id i Hlt Hi) as (i' & -> & ? & E1), (idx_gc_spec c id j Hlt Hj) as (j' & E & ? & E2).
    cbn [mbind outcome_bind]. rewrite E. eexists (_, _). split; [reflexivity|]. cbn. by rewrite E1, E2.
  - intros c id [i j] Hlt [Hi Hj]. cbn in *. destruct (idx_begin_spec c id i Hlt Hi) as (? & E1 & C1), (idx_begin_spec c id j Hlt Hj) as (? & E2 & C2).
    by rewrite E1, E2, C1, C2.
Defined.

(** ** Indexes whose keys identify the rows *)

Section Exact.
Context {K V F : Type} `{Countable K} `{Countable F} `{HO : !HashOrder K} `{HOF : !HashOrder F} `{HF : !IndexKeys V F}.
Implicit Types rows : gmap K V.
Implicit Types S : gmap K V * gmap F K.

(** The index has exactly the keys of the rows. *)
Definition index_exact S : Prop :=
  forall f k, snd S !! f = Some k <-> exists v, fst S !! k = Some v /\ f ∈ index_keys v.

(** No two rows share an index key. *)
Definition keys_unique rows : Prop :=
  forall f k1 k2 v1 v2, rows !! k1 = Some v1 -> rows !! k2 = Some v2 -> f ∈ index_keys v1 -> f ∈ index_keys v2 -> k1 = k2.

Lemma exact_unique S : index_exact S -> keys_unique (fst S).
Proof.
  intros Hx f k1 k2 v1 v2 H1 H2 F1 F2. assert (snd S !! f = Some k1) as E1 by (apply Hx; eauto).
  assert (snd S !! f = Some k2) as E2 by (apply Hx; eauto). congruence.
Qed.

(** A row dropped from the rows and its keys from the index. *)
Lemma exact_drop S k old :
  index_exact S -> fst S !! k = Some old -> index_exact (base.delete k (fst S), index_drop (snd S) (index_keys old)).
Proof.
  intros Hx Hk f j. cbn [fst snd]. rewrite index_drop_lookup. case_decide as Hf.
  - split; [done|]. intros (v & [Hne Hj]%lookup_delete_Some & Hv). destruct Hne. by eapply (exact_unique S Hx).
  - rewrite (Hx f j). split; intros (v & Hj & Hv); exists v; (split; [|done]).
    + apply lookup_delete_Some. split; [|done]. intros <-. congruence.
    + by apply lookup_delete_Some in Hj as [_ ?].
Qed.

(** A new row with its keys. *)
Lemma exact_put S k v :
  index_exact S -> fst S !! k = None -> keys_unique (<[k := v]> (fst S)) -> index_exact (<[k := v]> (fst S), index_put (snd S) k (index_keys v)).
Proof.
  intros Hx Hk Hu f j. cbn [fst snd]. rewrite index_put_lookup. case_decide as Hf.
  - split.
    + intros [= <-]. exists v. by rewrite lookup_insert_eq.
    + intros (w & Hj & Hw). f_equal. eapply (Hu f k j v w); [by rewrite lookup_insert_eq|done..].
  - rewrite (Hx f j). split; intros (w & Hj & Hw); exists w; (split; [|done]).
    + rewrite lookup_insert_ne; [done|]. intros <-. congruence.
    + apply lookup_insert_Some in Hj as [[<- <-]|[_ ?]]; done.
Qed.

Lemma exact_insert S k v : index_exact S -> keys_unique (<[k := v]> (fst S)) -> index_exact (a_insert (I := Table F K unit) (HL := table_index_laws) S k v).
Proof.
  intros Hx Hu. unfold a_insert. cbn [iview iv_insert iv_remove table_index_laws]. destruct (fst S !! k) as [old|] eqn:E; [|by apply exact_put].
  pose proof (exact_put (base.delete k (fst S), index_drop (snd S) (index_keys old)) k v) as Hp. cbn [fst snd] in Hp.
  rewrite insert_delete_eq in Hp. apply Hp; [by apply exact_drop|by rewrite lookup_delete_eq|done].
Qed.

Lemma exact_remove S k : index_exact S -> index_exact (a_remove (I := Table F K unit) (HL := table_index_laws) S k (fst S !! k)).
Proof.
  intros Hx. unfold a_remove. cbn [iview iv_remove table_index_laws]. destruct (fst S !! k) as [old|] eqn:E; [by apply exact_drop|]. rewrite delete_id by done. by destruct S.
Qed.

Lemma exact_with_mut {B} S k (f : V -> B * V) :
  index_exact S -> keys_unique (fst (snd (a_with_mut (I := Table F K unit) (HL := table_index_laws) S k f))) -> index_exact (snd (a_with_mut (I := Table F K unit) (HL := table_index_laws) S k f)).
Proof.
  intros Hx. unfold a_with_mut, a_change. cbn [iview iv_insert iv_remove table_index_laws]. destruct (fst S !! k) as [old|] eqn:E; [|done]. destruct (f old) as [b v]. cbn [fst snd].
  intros Hu. pose proof (exact_insert S k v Hx Hu) as Hi. unfold a_insert in Hi. cbn [iview iv_insert iv_remove table_index_laws] in Hi. by rewrite E in Hi.
Qed.

Abbreviation Indexed := (Table K V (Table F K unit)).

(** An operation that leaves a sound table with an exact index. *)
Definition keeps_index (c : TxnId) (p : option TxnId) (r : outcome Indexed) : Prop :=
  exists t', r = Done t' /\ table_ok c p t' /\ index_exact (full_view t' (default c p)).

Lemma keeps_steps c p (t t' : Indexed) r S : r = Done t' -> steps_to c p t t' S -> index_exact S -> keeps_index c p r.
Proof. intros -> (Hok & Hv & _) Hx. exists t'. split_and!; [done..|]. by rewrite Hv. Qed.


End Exact.
End KvIndex.
