(* ===== verification/KvStorage.v ===== *)
(** * The storage of the key-value store and its operations

    [ts_kv_store/src/storage.rs] ([Storage]: singletons, tables, the pending transaction),
    the storage that [schema.rs]'s [tables!] generates ([GeneratedStorage], [TableDesc],
    [IndexDesc]), the singletons that [singleton!] declares, the operations of
    [operations.rs] and the two ways to call them: directly ([raw.rs]) and in a transaction
    ([transactions.rs]).  The store is behind one lock, so that its calls are a sequence. *)

From S2P Require Import Prelude KvValue KvTable.

Import KvValue KvTable.

Module KvStorage.

Abbreviation TypeId := Z.

(** ** Singleton values *)

(** [SinValue] over [A], the values of type [dyn Any]. *)
Inductive SinValue (A : Type) : Type :=
| SinNone
| SinU64 (v : Z)
| SinBox (v : A)
| SinArc (v : A)
| SinRef (v : A).
Arguments SinNone {A}.
Arguments SinU64 {A} _.
Arguments SinBox {A} _.
Arguments SinArc {A} _.
Arguments SinRef {A} _.

(** [dyn Any]: a value of type [T] is recovered from what it was coerced to. *)
Class Downcast (A T : Type) : Type := {
  upcast : T -> A;
  downcast : A -> option T;
  downcast_upcast v : downcast (upcast v) = Some v;
}.

(** What [singleton!] generates: the type's id, [Singleton::to_value] and
    [Singleton::from_value_ref]. *)
Record Singleton (A T : Type) : Type := mkSingleton {
  sin_key : TypeId;
  to_value : T -> SinValue A;
  from_value_ref : SinValue A -> outcome T;
}.
Arguments mkSingleton {A T} _ _ _.
Arguments sin_key {A T} _.
Arguments to_value {A T} _ _.
Arguments from_value_ref {A T} _ _.

Definition singleton_u64 {A} (key : TypeId) : Singleton A Z :=
  mkSingleton key SinU64 (fun value => match value with SinU64 v => mret v | _ => Panic end).

Section Declared.
Context {A T : Type} `{!Downcast A T}.

Definition singleton_box (key : TypeId) : Singleton A T :=
  mkSingleton key (fun v => SinBox (upcast v)) (fun value => match value with SinBox a => unwrap (downcast a) | _ => Panic end).

Definition singleton_arc (key : TypeId) : Singleton A T :=
  mkSingleton key (fun v => SinArc (upcast v)) (fun value => match value with SinArc a => unwrap (downcast a) | _ => Panic end).

Definition singleton_ref (key : TypeId) : Singleton A T :=
  mkSingleton key (fun v => SinRef (upcast v)) (fun value => match value with SinRef a => unwrap (downcast a) | _ => Panic end).

Definition from_value_arc (value : SinValue A) : outcome T :=
  match value with SinArc a => unwrap (downcast a) | _ => Panic end.

End Declared.

(** ** The tables of a store *)

(** [GeneratedStorage]: the consistency checks of all tables, then their commits. *)
Class GeneratedStorage (TS : Type) : Type := {
  gs_default : TS;
  gs_check : TS -> TxnId -> option Error;
  gs_commit : TS -> TxnId -> outcome TS;
  gs_gc : TS -> TxnId -> outcome TS;
}.

Definition set_indexes {K V I} `{Countable K} (t : Table K V I) (ix : I) : Table K V I :=
  mkTable (owner t) (data t) (delete_mask t) (modified t) ix.

(** A table, then its indexes. *)
#[global] Instance table_storage {K V I} `{Countable K} `{!HashOrder K} `{!IndexStorage K V I} : GeneratedStorage (Table K V I) := {|
  gs_default := default_table;
  gs_check t txn_id :=
    match check_txn_consistency t txn_id with Some e => Some e | None => idx_check (K := K) (V := V) (indexes t) txn_id end;
  gs_commit t txn_id :=
    t ← commit_table t txn_id; ix ← idx_commit (K := K) (V := V) (indexes t) txn_id; mret (set_indexes t ix);
  gs_gc t txn_id :=
    t ← gc_table t txn_id; ix ← idx_gc (K := K) (V := V) (indexes t) txn_id; mret (set_indexes t ix);
|}.

(** The tables of a schema in turn. *)
#[global] Instance pair_storage {S T} `{!GeneratedStorage S} `{!GeneratedStorage T} : GeneratedStorage (S * T) := {|
  gs_default := (gs_default, gs_default);
  gs_check '(s, t) txn_id := match gs_check s txn_id with Some e => Some e | None => gs_check t txn_id end;
  gs_commit '(s, t) txn_id := s ← gs_commit s txn_id; t ← gs_commit t txn_id; mret (s, t);
  gs_gc '(s, t) txn_id := s ← gs_gc s txn_id; t ← gs_gc t txn_id; mret (s, t);
|}.

Definition commit_txn {TS} `{!GeneratedStorage TS} (self : TS) (txn_id : TxnId) : outcome ((unit + Error) * TS) :=
  match gs_check self txn_id with
  | Some e => mret (inr e, self)
  | None => self ← gs_commit self txn_id; mret (inl tt, self)
  end.

(** [TableDesc]: where a table is in the storage. *)
Class TableDesc (TS K V I : Type) `{Countable K} : Type := {
  get_table : TS -> Table K V I;
  set_table : TS -> Table K V I -> TS;
}.

(** [IndexDesc]: where an index is among the indexes of its base table. *)
Class IndexDesc (I F K : Type) `{Countable F} : Type := {
  get_index : I -> Table F K unit;
  set_index : I -> Table F K unit -> I;
}.

(** ** Storage *)

Record Storage (TS A : Type) : Type := mkStorage {
  singletons : gmap TypeId (Owner * VersionedValue (SinValue A));
  tables : TS;
  committed : TxnId;
  pending_txn : option (TxnId * list TypeId);
  next_txn : TxnId;
}.
Arguments mkStorage {TS A} _ _ _ _ _.
Arguments singletons {TS A} _.
Arguments tables {TS A} _.
Arguments committed {TS A} _.
Arguments pending_txn {TS A} _.
Arguments next_txn {TS A} _.

Section Storage.
Context {TS A : Type} `{GS : !GeneratedStorage TS}.
Implicit Types self : Storage TS A.

Definition set_tables self (t : TS) : Storage TS A :=
  mkStorage (singletons self) t (committed self) (pending_txn self) (next_txn self).

Definition set_singletons self (m : gmap TypeId (Owner * VersionedValue (SinValue A))) : Storage TS A :=
  mkStorage m (tables self) (committed self) (pending_txn self) (next_txn self).

Definition new_storage : outcome (Storage TS A) :=
  next ← next FIRST; mret (mkStorage ∅ gs_default FIRST None next).

Definition current_txn self : option TxnId := fst <$> pending_txn self.

Definition txn_id self : TxnId := default (committed self) (current_txn self).

Definition max_committed_id self : TxnId := committed self.

Definition record_singleton self (key : TypeId) (txn_id : TxnId) : outcome (Storage TS A) :=
  if decide (committed self = txn_id) then mret self
  else
    match pending_txn self with
    | Some (id, modified) =>
        _ ← assert (id =? txn_id);
        mret (mkStorage (singletons self) (tables self) (committed self) (Some (id, modified ++ [key])) (next_txn self))
    | None => mret self
    end.

Definition insert_singleton {T} (D : Singleton A T) self (owner : Owner) (value : T) (txn_id : TxnId) : outcome (Storage TS A) :=
  self ← record_singleton self (sin_key D) txn_id;
  mret (set_singletons self
    match singletons self !! sin_key D with
    | Some (o, v) => <[sin_key D := (o, set_value v (to_value D value) txn_id)]> (singletons self)
    | None => <[sin_key D := (owner, new_value (to_value D value) txn_id)]> (singletons self)
    end).

Definition remove_singleton self (key : TypeId) (txn_id : TxnId) : outcome (Storage TS A) :=
  self ← record_singleton self key txn_id;
  mret match singletons self !! key with
       | Some (o, v) => set_singletons self (<[key := (o, set_value v SinNone txn_id)]> (singletons self))
       | None => self
       end.

Definition map_singleton_value {T} (value : option (VersionedValue (SinValue A))) (id : TxnId) (f : SinValue A -> outcome T)
    : outcome (option T) :=
  match value with
  | None => mret None
  | Some v =>
      o ← get_value v id;
      match o with
      | None => mret None
      | Some SinNone => mret None
      | Some v => x ← f v; mret (Some x)
      end
  end.

Definition get_singleton_value {T} (D : Singleton A T) self (txn_id : TxnId) : outcome (option T) :=
  map_singleton_value (snd <$> singletons self !! sin_key D) txn_id (from_value_ref D).

Definition get_singleton_arc {T} `{!Downcast A T} self (key : TypeId) (txn_id : TxnId) : outcome (option T) :=
  map_singleton_value (snd <$> singletons self !! key) txn_id from_value_arc.

Definition get_singleton_owner self (key : TypeId) : option Owner := fst <$> singletons self !! key.

Definition begin_transaction self : outcome (TxnId * Storage TS A) :=
  let new_txn_id := next_txn self in
  next ← next new_txn_id;
  mret (new_txn_id, mkStorage (singletons self) (tables self) (committed self) (Some (new_txn_id, [])) next).

Definition commit_transaction self (txn_id : TxnId) : outcome ((unit + Error) * Storage TS A) :=
  match pending_txn self with
  | None => mret (inr TransactionFailed, self)
  | Some (pending, _) =>
      if decide (pending = txn_id) then
        '(r, t) ← commit_txn (tables self) txn_id;
        match r with
        | inr e => mret (inr e, set_tables self t)
        | inl _ => mret (inl tt, mkStorage (singletons self) t pending None (next_txn self))
        end
      else mret (inr TransactionFailed, self)
  end.

(** The loop of [clear_transaction] over the singletons modified. *)
Fixpoint gc_singletons (modified : list TypeId) (m : gmap TypeId (Owner * VersionedValue (SinValue A))) (id : TxnId)
    : gmap TypeId (Owner * VersionedValue (SinValue A)) :=
  match modified with
  | [] => m
  | k :: modified =>
      let m :=
        match m !! k with
        | None => m
        | Some (o, v) => let v := gc_value v id in if value_is_empty v then base.delete k m else <[k := (o, v)]> m
        end in
      gc_singletons modified m id
  end.

Definition clear_transaction self : outcome (Storage TS A) :=
  match pending_txn self with
  | None => mret self
  | Some (id, modified) =>
      let m := gc_singletons modified (singletons self) id in
      t ← gs_gc (tables self) id;
      mret (mkStorage m t (committed self) None (next_txn self))
  end.

Definition rollback_transaction self (txn_id : TxnId) : outcome (Storage TS A) :=
  match pending_txn self with
  | None => mret self
  | Some (pending, _) => if decide (pending = txn_id) then clear_transaction self else mret self
  end.

(** ** The lock of the store *)

(** [get_read_lock]: with a transaction pending the read guard is still held when
    [RwLock::write] is called, which then blocks for ever or panics. *)
Definition get_read_lock self : outcome (Storage TS A) :=
  match current_txn self with None => mret self | Some _ => Panic end.

Definition get_write_lock self : outcome (Storage TS A) := clear_transaction self.

End Storage.
End KvStorage.
