(* ===== verification/KvOps.v ===== *)
(** * The operations of the key-value store

    The generic operations of [ts_kv_store/src/operations.rs] on singletons, tables and
    indexed tables, the programs that call them, the direct calls of [raw.rs] and
    [index.rs], which take the store's lock each, and the transactions of
    [transactions.rs], which hold it.  An operation reads or changes the storage that its
    guard holds; a reference into the storage is the value it points to. *)

From S2P Require Import Prelude KvValue KvTable KvStorage.
Import KvValue KvTable KvStorage.

Module KvOps.

Section Ops.
Context {TS A : Type} `{GS : !GeneratedStorage TS}.
Implicit Types storage : Storage TS A.

(** ** Singletons *)

Section Singletons.
Context {T : Type} (D : Singleton A T).

Definition singleton_get storage : outcome (option T) := get_singleton_value D storage (txn_id storage).

Definition singleton_get_arc `{!Downcast A T} storage : outcome (option T) :=
  get_singleton_arc storage (sin_key D) (txn_id storage).

Definition singleton_with {B} storage (f : T -> B) : outcome (option B) :=
  o ← get_singleton_value D storage (txn_id storage); mret (option_map f o).

(** The free function [assert_owner] of [operations.rs]. *)
Definition assert_singleton_owner storage (owner : Owner) (key : TypeId) : outcome unit :=
  match get_singleton_owner storage key with
  | Some prev_owner => assert (bool_decide (prev_owner = owner))
  | None => mret tt
  end.

Definition singleton_insert storage (owner : Owner) (value : T) : outcome (Storage TS A) :=
  _ ← assert_singleton_owner storage owner (sin_key D);
  insert_singleton D storage owner value (txn_id storage).

Definition singleton_remove storage (owner : Owner) : outcome (Storage TS A) :=
  _ ← assert_singleton_owner storage owner (sin_key D);
  remove_singleton storage (sin_key D) (txn_id storage).

End Singletons.

(** ** Tables *)

Section Tables.
Context {K V I : Type} `{Countable K} `{HO : !HashOrder K} `{HX : !IndexStorage K V I} (D : TableDesc TS K V I).

Definition the_table storage : Table K V I := get_table (tables storage).
Definition with_table storage (t : Table K V I) : Storage TS A := set_tables storage (set_table (tables storage) t).

Definition tabular_len storage : outcome nat := table_len (the_table storage) (txn_id storage).
Definition tabular_is_empty storage : outcome bool := table_is_empty (the_table storage) (txn_id storage).
Definition tabular_get storage (key : K) : outcome (option V) := table_get (the_table storage) key (txn_id storage).

Definition tabular_with {B} storage (key : K) (f : V -> B) : outcome (option B) :=
  value ← table_get (the_table storage) key (txn_id storage); mret (option_map f value).

(** [TableIterator]: the pairs that [next] returns until the end. *)
Definition tabular_iter storage : outcome (list (K * V)) := table_iter (the_table storage) (txn_id storage).
Definition tabular_keys storage : outcome (list K) := l ← tabular_iter storage; mret (map fst l).
Definition tabular_values storage : outcome (list V) := l ← tabular_iter storage; mret (map snd l).

Definition tabular_init storage (owner : Owner) : (unit + Error) * Storage TS A :=
  let '(r, table) := try_set_owner (the_table storage) owner in (r, with_table storage table).

Definition tabular_clear storage (owner : Owner) : outcome (Storage TS A) :=
  table ← assert_or_set_owner (the_table storage) owner;
  table ← table_clear table (txn_id storage) (max_committed_id storage);
  mret (with_table storage table).

Definition tabular_insert storage (key : K) (value : V) (owner : Owner) : outcome (Storage TS A) :=
  table ← assert_or_set_owner (the_table storage) owner;
  table ← table_insert table key value (txn_id storage) (max_committed_id storage);
  mret (with_table storage table).

Definition tabular_with_mut {B} storage (key : K) (f : V -> B * V) (owner : Owner) : outcome (option B * Storage TS A) :=
  _ ← assert_owner (the_table storage) owner;
  '(r, table) ← table_with_mut (the_table storage) key f (txn_id storage) (max_committed_id storage);
  mret (r, with_table storage table).

Definition tabular_remove storage (key : K) (owner : Owner) : outcome (Storage TS A) :=
  _ ← assert_owner (the_table storage) owner;
  table ← table_remove (the_table storage) key (txn_id storage) (max_committed_id storage);
  mret (with_table storage table).

Definition tabular_for_each_mut storage (f : K -> V -> V) (owner : Owner) : outcome (Storage TS A) :=
  _ ← assert_owner (the_table storage) owner;
  table ← table_for_each_mut (the_table storage) f (txn_id storage) (max_committed_id storage);
  mret (with_table storage table).

(** ** Tables accessed by an index *)

Section Indexes.
Context {F : Type} `{Countable F} `{HOF : !HashOrder F} (X : IndexDesc I F K).

Definition the_index storage : Table F K unit := get_index (indexes (the_table storage)).

Definition indexed_len storage : outcome nat := table_len (the_table storage) (txn_id storage).
Definition indexed_is_empty storage : outcome bool := table_is_empty (the_table storage) (txn_id storage).

Definition indexed_get storage (key : F) : outcome (option V) :=
  base_key ← table_get (the_index storage) key (txn_id storage);
  match base_key with
  | None => mret None
  | Some base_key => table_get (the_table storage) base_key (txn_id storage)
  end.

Definition indexed_with {B} storage (key : F) (f : V -> B) : outcome (option B) :=
  value ← indexed_get storage key; mret (option_map f value).

(** [IndexIterator]: the iteration ends at an entry whose row is not in the base table. *)
Fixpoint index_rows storage (entries : list (F * K)) : outcome (list (F * V)) :=
  match entries with
  | [] => mret []
  | (k, bk) :: entries =>
      v ← table_get (the_table storage) bk (txn_id storage);
      match v with
      | None => mret []
      | Some v => l ← index_rows storage entries; mret ((k, v) :: l)
      end
  end.

Definition indexed_iter storage : outcome (list (F * V)) :=
  entries ← table_iter (the_index storage) (txn_id storage); index_rows storage entries.

Definition indexed_keys storage : outcome (list F) :=
  entries ← table_iter (the_index storage) (txn_id storage); mret (map fst entries).

Definition indexed_values storage : outcome (list V) := l ← indexed_iter storage; mret (map snd l).

Definition indexed_with_mut {B} storage (key : F) (f : V -> B * V) (owner : Owner) : outcome (option B * Storage TS A) :=
  _ ← assert_owner (the_table storage) owner;
  base_key ← table_get (the_index storage) key (txn_id storage);
  match base_key with
  | None => mret (None, storage)
  | Some base_key =>
      '(r, base) ← table_with_mut (the_table storage) base_key f (txn_id storage) (max_committed_id storage);
      mret (r, with_table storage base)
  end.

Definition indexed_remove storage (key : F) (owner : Owner) : outcome (Storage TS A) :=
  _ ← assert_owner (the_table storage) owner;
  base_key ← table_get (the_index storage) key (txn_id storage);
  match base_key with
  | None => mret storage
  | Some base_key =>
      base ← table_remove (the_table storage) base_key (txn_id storage) (max_committed_id storage);
      index ← table_remove (get_index (indexes base)) key (txn_id storage) (max_committed_id storage);
      mret (with_table storage (set_indexes base (set_index (indexes base) index)))
  end.

End Indexes.
End Tables.

(** ** Transactions *)

(** [KvStore::begin_transaction]: the lock, then a new transaction on the storage. *)
Definition begin_txn storage : outcome (TxnId * Storage TS A) :=
  storage ← get_write_lock storage; begin_transaction storage.

(** [Transaction::commit] consumes the transaction, which is dropped: [Drop] rolls back what
    is still pending. *)
Definition commit_and_drop storage (id : TxnId) : outcome ((unit + Error) * Storage TS A) :=
  '(r, storage) ← commit_transaction storage id;
  storage ← rollback_transaction storage id;
  mret (r, storage).

(** [Drop for Transaction] *)
Definition drop_txn storage (id : TxnId) : outcome (Storage TS A) := rollback_transaction storage id.

End Ops.
End KvOps.
