(* ===== verification/KvLaws.v ===== *)
(** * What a generated storage promises

    [GeneratedStorageLaws] states a schema's tables against an abstract view: what the
    current transaction sees, what the last commit left and the owners.  It holds of one
    table with its indexes and of schemas side by side; [TableDescLaws] and [IndexDescLaws]
    say which part of the view a table or an index descriptor selects. *)

From S2P Require Import Prelude KvValue KvTable KvTableSpec KvIndex KvStorage.
Import KvValue KvTable KvTableSpec KvIndex KvStorage.

Module KvLaws.

Class GeneratedStorageLaws (TS : Type) `{GS : !GeneratedStorage TS} : Type := {
  gview : Type;
  gowners : Type;
  gempty : gview;
  gunowned : gowners;
  gs_ok : TxnId -> option TxnId -> TS -> Prop;
  gs_view : TS -> TxnId -> gview;
  gs_committed : TS -> TxnId -> gview;
  gs_owners : TS -> gowners;
  gs_default_spec c : gs_ok c None gs_default /\ gs_view gs_default c = gempty /\ gs_owners gs_default = gunowned;
  gs_check_spec c id s : gs_ok c (Some id) s -> gs_check s id = None;
  gs_commit_spec c id s :
    c < id -> gs_ok c (Some id) s ->
    exists s', gs_commit s id = Done s' /\ gs_ok id None s' /\ gs_view s' id = gs_view s id /\ gs_owners s' = gs_owners s;
  gs_gc_spec c id s :
    c < id -> gs_ok c (Some id) s ->
    exists s', gs_gc s id = Done s' /\ gs_ok c None s' /\ gs_view s' c = gs_committed s c /\ gs_owners s' = gs_owners s;
  gs_begin_spec c id s :
    c < id -> gs_ok c None s -> gs_ok c (Some id) s /\ gs_view s id = gs_view s c /\ gs_committed s c = gs_view s c;
}.

Class TableDescLaws (TS K V I : Type) `{Countable K} `{HX : !IndexStorage K V I} `{HL : !IndexLaws K V I}
    `{GS : !GeneratedStorage TS} `{GL : !GeneratedStorageLaws TS} (D : TableDesc TS K V I) : Type := {
  sel : gview -> gmap K V * iview;
  put : gview -> gmap K V * iview -> gview;
  sel_owner : gowners -> option Owner;
  put_owner : gowners -> option Owner -> gowners;
  sel_put g S : sel (put g S) = S;
  put_sel g : put g (sel g) = g;
  sel_put_owner g o : sel_owner (put_owner g o) = o;
  put_sel_owner g : put_owner g (sel_owner g) = g;
  desc_ok c p s : gs_ok c p s -> table_ok c p (get_table s);
  desc_view s id : full_view (get_table s) id = sel (gs_view s id);
  desc_owner s : owner (get_table s) = sel_owner (gs_owners s);
  desc_set c p s t :
    gs_ok c p s -> table_ok c p t -> (is_Some p -> full_committed t c = full_committed (get_table s) c) ->
    gs_ok c p (set_table s t) /\
    gs_view (set_table s t) (default c p) = put (gs_view s (default c p)) (full_view t (default c p)) /\
    (is_Some p -> gs_committed (set_table s t) c = gs_committed s c) /\
    gs_owners (set_table s t) = put_owner (gs_owners s) (owner t);
}.

Class IndexDescLaws (I F K V : Type) `{Countable F} `{HOF : !HashOrder F} `{HX : !IndexStorage K V I} `{HL : !IndexLaws K V I}
    (X : IndexDesc I F K) : Type := {
  isel : iview -> gmap F K;
  idel : iview -> F -> iview;
  index_ok c p i : idx_ok c p i -> table_ok c p (get_index i);
  index_view i id : view (get_index i) id = isel (idx_view i id);
  index_remove c p i f :
    pending_ok c p -> idx_ok c p i ->
    exists t, table_remove (get_index i) f (default c p) c = Done t /\ idx_ok c p (set_index i t) /\
      idx_view (set_index i t) (default c p) = idel (idx_view i (default c p)) f /\
      (is_Some p -> idx_committed (set_index i t) c = idx_committed i c);
  isel_idel iv f : isel (idel iv f) = base.delete f (isel iv);
}.

(** ** One table *)

Section OneTable.
Context {K V I : Type} `{Countable K} `{HO : !HashOrder K} `{HX : !IndexStorage K V I} `{HL : !IndexLaws K V I}.
Implicit Types t : Table K V I.

Lemma with_indexes c p t ix : table_ok c p t -> idx_ok c p ix -> table_ok c p (set_indexes t ix).
Proof. intros [Hr Hm Hmod _] Hix. by constructor. Qed.

Lemma idle_indexes c t ix : idle_rows c t -> idx_ok c None ix -> table_ok c None (set_indexes t ix).
Proof. intros (Hr & Hm & Hmod) Hix. by constructor. Qed.

Lemma idle_full_view c t ix : idle_rows c t -> full_view (set_indexes t ix) c = (rows_seen (data t) c, idx_view ix c).
Proof. intros (_ & Hm & _). unfold full_view, view. cbn [delete_mask set_indexes data indexes]. by rewrite Hm. Qed.

#[global] Instance table_storage_laws : GeneratedStorageLaws (Table K V I).
Proof.
  refine {| gview := gmap K V * iview; gowners := option Owner; gempty := a_clear; gunowned := None;
            gs_ok := table_ok; gs_view := full_view; gs_committed := full_committed; gs_owners := owner |}.
  - intros c. destruct (default_table_ok (K := K) (V := V) (I := I) c). done.
  - intros c id t Ht. cbn. rewrite (check_rows c id t Ht). apply (idx_check_spec c id _ (ok_indexes _ _ _ Ht)).
  - intros c id t Hlt Ht. destruct (commit_rows c id t Hlt Ht) as (t' & E & Hi & Hv & Hx & Ho).
    destruct (idx_commit_spec c id _ Hlt (ok_indexes _ _ _ Ht)) as (ix & Ex & Hok & Hvx).
    exists (set_indexes t' ix). cbn. rewrite E. cbn [mbind outcome_bind]. rewrite Hx, Ex. split_and!; [done|by apply idle_indexes| |done].
    rewrite idle_full_view by done. by rewrite Hv, Hvx.
  - intros c id t Hlt Ht. destruct (gc_rows c id t Hlt Ht) as (t' & E & Hi & Hv & Hx & Ho).
    destruct (idx_gc_spec c id _ Hlt (ok_indexes _ _ _ Ht)) as (ix & Ex & Hok & Hvx).
    exists (set_indexes t' ix). cbn. rewrite E. cbn [mbind outcome_bind]. rewrite Hx, Ex. split_and!; [done|by apply idle_indexes| |done].
    rewrite idle_full_view by done. by rewrite Hv, Hvx.
  - intros c id t Hlt Ht. destruct (idx_begin_spec c id _ Hlt (ok_indexes _ _ _ Ht)) as (Hix & Ev & Ec).
    destruct (begin_rows c id t Hlt Ht Hix) as (Hok & Hv & Hc). split; [done|]. unfold full_view, full_committed. by rewrite Hv, Hc, Ev, Ec.
Defined.

#[global] Instance this_table : TableDesc (Table K V I) K V I := {| get_table t := t; set_table _ t := t |}.

#[global] Instance this_table_laws : TableDescLaws (Table K V I) K V I this_table.
Proof.
  unshelve eapply (Build_TableDescLaws (Table K V I) K V I _ _ HX HL _ table_storage_laws this_table
    (fun g => g) (fun _ S => S) (fun o => o) (fun _ o => o)); try (intros; reflexivity).
  - intros c p t Ht. exact Ht.
  - intros c p s t Hs Ht Hc. split_and!; [exact Ht|reflexivity|exact Hc|reflexivity].
Defined.

End OneTable.

(** ** Several tables *)

Section Pair.
Context {S T : Type} {GS : GeneratedStorage S} {GT : GeneratedStorage T}.
Context {LS : GeneratedStorageLaws S (GS := GS)} {LT : GeneratedStorageLaws T (GS := GT)}.

#[global] Instance pair_storage_laws : GeneratedStorageLaws (S * T).
Proof.
  refine {| gview := gview (TS := S) * gview (TS := T); gowners := gowners (TS := S) * gowners (TS := T);
            gempty := (gempty, gempty); gunowned := (gunowned, gunowned);
            gs_ok c p x := gs_ok c p (fst x) /\ gs_ok c p (snd x);
            gs_view x id := (gs_view (fst x) id, gs_view (snd x) id);
            gs_committed x id := (gs_committed (fst x) id, gs_committed (snd x) id);
            gs_owners x := (gs_owners (fst x), gs_owners (snd x)) |}; cbn.
  - intros c. destruct (gs_default_spec (TS := S) c) as (? & -> & ->), (gs_default_spec (TS := T) c) as (? & -> & ->). done.
  - intros c id [s t] [Hs Ht]. cbn in *. by rewrite (gs_check_spec c id s Hs), (gs_check_spec c id t Ht).
  - intros c id [s t] Hlt [Hs Ht]. cbn in *.
    destruct (gs_commit_spec c id s Hlt Hs) as (s' & -> & ? & E1 & O1), (gs_commit_spec c id t Hlt Ht) as (t' & E & ? & E2 & O2).
    cbn [mbind outcome_bind]. rewrite E. eexists (_, _). split; [reflexivity|]. cbn. by rewrite E1, E2, O1, O2.
  - intros c id [s t] Hlt [Hs Ht]. cbn in *.
    destruct (gs_gc_spec c id s Hlt Hs) as (s' & -> & ? & E1 & O1), (gs_gc_spec c id t Hlt Ht) as (t' & E & ? & E2 & O2).
    cbn [mbind outcome_bind]. rewrite E. eexists (_, _). split; [reflexivity|]. cbn. by rewrite E1, E2, O1, O2.
  - intros c id [s t] Hlt [Hs Ht]. cbn in *.
    destruct (gs_begin_spec c id s Hlt Hs) as (? & -> & ->), (gs_begin_spec c id t Hlt Ht) as (? & -> & ->). done.
Defined.

Context {K V I : Type} `{Countable K} `{HX : !IndexStorage K V I} `{HL : !IndexLaws K V I}.

Definition in_first (D : TableDesc S K V I) : TableDesc (S * T) K V I :=
  {| get_table x := get_table (fst x); set_table x t := (set_table (fst x) t, snd x) |}.
Definition in_second (D : TableDesc T K V I) : TableDesc (S * T) K V I :=
  {| get_table x := get_table (snd x); set_table x t := (fst x, set_table (snd x) t) |}.

Definition in_first_laws (D : TableDesc S K V I) (L : TableDescLaws S K V I D) : TableDescLaws (S * T) K V I (in_first D).
Proof.
  unshelve eapply (Build_TableDescLaws (S * T) K V I _ _ HX HL _ pair_storage_laws (in_first D)
    (fun g => sel (TableDescLaws := L) (fst g)) (fun g x => (put (TableDescLaws := L) (fst g) x, snd g))
    (fun g => sel_owner (TableDescLaws := L) (fst g)) (fun g o => (put_owner (TableDescLaws := L) (fst g) o, snd g))); cbn.
  - intros g x. apply sel_put.
  - intros [g h]. cbn. by rewrite put_sel.
  - intros g x. apply sel_put_owner.
  - intros [g h]. cbn. by rewrite put_sel_owner.
  - intros c p [s t] [Hs _]. by apply desc_ok.
  - intros [s t] id. apply desc_view.
  - intros [s t]. apply desc_owner.
  - intros c p [s t] x [Hs Ht] Hx Hc. cbn in *. destruct (desc_set c p s x Hs Hx Hc) as (? & -> & E & ->). split_and!; [done..| |done].
    intros Hp. by rewrite E.
Defined.

Definition in_second_laws (D : TableDesc T K V I) (L : TableDescLaws T K V I D) : TableDescLaws (S * T) K V I (in_second D).
Proof.
  unshelve eapply (Build_TableDescLaws (S * T) K V I _ _ HX HL _ pair_storage_laws (in_second D)
    (fun g => sel (TableDescLaws := L) (snd g)) (fun g x => (fst g, put (TableDescLaws := L) (snd g) x))
    (fun g => sel_owner (TableDescLaws := L) (snd g)) (fun g o => (fst g, put_owner (TableDescLaws := L) (snd g) o))); cbn.
  - intros g x. apply sel_put.
  - intros [g h]. cbn. by rewrite put_sel.
  - intros g x. apply sel_put_owner.
  - intros [g h]. cbn. by rewrite put_sel_owner.
  - intros c p [s t] [_ Hs]. by apply desc_ok.
  - intros [s t] id. apply desc_view.
  - intros [s t]. apply desc_owner.
  - intros c p [s t] x [Hs Ht] Hx Hc. cbn in *. destruct (desc_set c p t x Ht Hx Hc) as (? & -> & E & ->). split_and!; [done..| |done].
    intros Hp. by rewrite E.
Defined.

End Pair.

(** ** Index descriptors *)

Section Index.
Context {K V F : Type} `{Countable F} `{HO : !HashOrder F} `{HF : !IndexKeys V F}.

#[global] Instance this_index : IndexDesc (Table F K unit) F K := {| get_index i := i; set_index _ t := t |}.

#[global] Instance this_index_laws : IndexDescLaws (Table F K unit) F K V this_index.
Proof.
  unshelve eapply (Build_IndexDescLaws (Table F K unit) F K V _ _ HO _ table_index_laws this_index
    (fun m => m) (fun m f => base.delete f m)); try (intros; reflexivity).
  - intros c p i Hi. exact Hi.
  - intros c p i f Hp Hi. destruct (table_remove_spec c p i f Hp Hi) as (t & o & E & _ & _ & Hok & Hv & Hc & _). exists t.
    split_and!; [done..|exact (f_equal fst Hv)|]. intros Hs. exact (f_equal fst (Hc Hs)).
Defined.

End Index.
End KvLaws.
