(* ===== verification/KvStore.v ===== *)
(** * Programs over the key-value store and their specification

    A program calls the operations of a table, of an index or of a singleton, each call
    chosen from the results of those before.  A script runs direct calls and transactions
    one after the other.  The specification keeps finite maps: what the store holds, the
    owners of the tables and the number of transaction ids left. *)

From S2P Require Import Prelude KvValue KvTable KvTableSpec KvIndex KvStorage KvOps KvLaws.
Import KvValue KvTable KvTableSpec KvIndex KvStorage KvOps KvLaws.

Module KvStore.

(** ** Calls *)

Inductive TabOp (K V : Type) : Type -> Type :=
| TInit : TabOp K V (unit + Error)
| TLen : TabOp K V nat
| TIsEmpty : TabOp K V bool
| TGet (key : K) : TabOp K V (option V)
| TWith {B} (key : K) (f : V -> B) : TabOp K V (option B)
| TIter : TabOp K V (list (K * V))
| TClear : TabOp K V unit
| TInsert (key : K) (value : V) : TabOp K V unit
| TWithMut {B} (key : K) (f : V -> B * V) : TabOp K V (option B)
| TRemove (key : K) : TabOp K V unit.
Arguments TInit {K V}.
Arguments TLen {K V}.
Arguments TIsEmpty {K V}.
Arguments TGet {K V} _.
Arguments TWith {K V B} _ _.
Arguments TIter {K V}.
Arguments TClear {K V}.
Arguments TInsert {K V} _ _.
Arguments TWithMut {K V B} _ _.
Arguments TRemove {K V} _.

Inductive IdxOp (F V : Type) : Type -> Type :=
| IGet (key : F) : IdxOp F V (option V)
| IWith {B} (key : F) (f : V -> B) : IdxOp F V (option B)
| IIter : IdxOp F V (list (F * V))
| IKeys : IdxOp F V (list F)
| IWithMut {B} (key : F) (f : V -> B * V) : IdxOp F V (option B)
| IRemove (key : F) : IdxOp F V unit.
Arguments IGet {F V} _.
Arguments IWith {F V B} _ _.
Arguments IIter {F V}.
Arguments IKeys {F V}.
Arguments IWithMut {F V B} _ _.
Arguments IRemove {F V} _.

Inductive SinOp (T : Type) : Type -> Type :=
| SGet : SinOp T (option T)
| SWith {B} (f : T -> B) : SinOp T (option B)
| SInsert (value : T) : SinOp T unit
| SRemove : SinOp T unit.
Arguments SGet {T}.
Arguments SWith {T B} _.
Arguments SInsert {T} _.
Arguments SRemove {T}.

Definition tab_reads {K V X} (o : TabOp K V X) : bool :=
  match o with TLen | TIsEmpty | TGet _ | TWith _ _ | TIter => true | _ => false end.
Definition idx_reads {F V X} (o : IdxOp F V X) : bool :=
  match o with IGet _ | IWith _ _ | IIter | IKeys => true | _ => false end.
Definition sin_reads {T X} (o : SinOp T X) : bool :=
  match o with SGet | SWith _ => true | _ => false end.

Section Store.
Context {TS A : Type} {GS : GeneratedStorage TS} {GL : GeneratedStorageLaws TS (GS := GS)}.
Implicit Types s : Storage TS A.

Definition reading {X} s (m : outcome X) : outcome (X * Storage TS A) := x ← m; mret (x, s).
Definition writing (m : outcome (Storage TS A)) : outcome (unit * Storage TS A) := s ← m; mret (tt, s).

Section Run.
Context {K V I : Type} `{Countable K} {HO : HashOrder K} {HX : IndexStorage K V I} (D : TableDesc TS K V I).

Definition run_tab {X} (owner : Owner) (o : TabOp K V X) : Storage TS A -> outcome (X * Storage TS A) :=
  match o in TabOp _ _ X return Storage TS A -> outcome (X * Storage TS A) with
  | TInit => fun s => mret (tabular_init D s owner)
  | TLen => fun s => reading s (tabular_len D s)
  | TIsEmpty => fun s => reading s (tabular_is_empty D s)
  | TGet key => fun s => reading s (tabular_get D s key)
  | TWith key f => fun s => reading s (tabular_with D s key f)
  | TIter => fun s => reading s (tabular_iter D s)
  | TClear => fun s => writing (tabular_clear D s owner)
  | TInsert key value => fun s => writing (tabular_insert D s key value owner)
  | TWithMut key f => fun s => tabular_with_mut D s key f owner
  | TRemove key => fun s => writing (tabular_remove D s key owner)
  end.

Context {F : Type} `{Countable F} {HOF : HashOrder F} (Y : IndexDesc I F K).

Definition run_idx {X} (owner : Owner) (o : IdxOp F V X) : Storage TS A -> outcome (X * Storage TS A) :=
  match o in IdxOp _ _ X return Storage TS A -> outcome (X * Storage TS A) with
  | IGet key => fun s => reading s (indexed_get D Y s key)
  | IWith key f => fun s => reading s (indexed_with D Y s key f)
  | IIter => fun s => reading s (indexed_iter D Y s)
  | IKeys => fun s => reading s (indexed_keys D Y s)
  | IWithMut key f => fun s => indexed_with_mut D Y s key f owner
  | IRemove key => fun s => writing (indexed_remove D Y s key owner)
  end.

End Run.

Definition run_sin {T X} (D : Singleton A T) (owner : Owner) (o : SinOp T X) : Storage TS A -> outcome (X * Storage TS A) :=
  match o in SinOp _ X return Storage TS A -> outcome (X * Storage TS A) with
  | SGet => fun s => reading s (singleton_get D s)
  | SWith f => fun s => reading s (singleton_with D s f)
  | SInsert value => fun s => writing (singleton_insert D s owner value)
  | SRemove => fun s => writing (singleton_remove D s owner)
  end.

(** An operation of one table, index or singleton of the schema. *)
Inductive Cmd : Type -> Type :=
| Tab {K V I X} `{Countable K} {HO : HashOrder K} {HX : IndexStorage K V I} {HL : IndexLaws K V I (HX := HX)}
    (D : TableDesc TS K V I) (L : TableDescLaws TS K V I D) (o : TabOp K V X) : Cmd X
| Idx {K V I F X} `{Countable K} {HO : HashOrder K} {HX : IndexStorage K V I} {HL : IndexLaws K V I (HX := HX)}
    `{Countable F} {HOF : HashOrder F} (D : TableDesc TS K V I) (L : TableDescLaws TS K V I D)
    (Y : IndexDesc I F K) (LY : IndexDescLaws I F K V Y) (o : IdxOp F V X) : Cmd X
| Sin {T X} (D : Singleton A T) (o : SinOp T X) : Cmd X.

Definition run_cmd {X} (owner : Owner) (c : Cmd X) : Storage TS A -> outcome (X * Storage TS A) :=
  match c in Cmd X return Storage TS A -> outcome (X * Storage TS A) with
  | Tab D _ o => run_tab D owner o
  | Idx D _ Y _ o => run_idx D Y owner o
  | Sin D o => run_sin D owner o
  end.

Definition reads {X} (c : Cmd X) : bool :=
  match c with Tab _ _ o => tab_reads o | Idx _ _ _ _ o => idx_reads o | Sin _ o => sin_reads o end.

Inductive Prog (X : Type) : Type :=
| Return (x : X)
| Do {Y} (c : Cmd Y) (rest : Y -> Prog X).
Arguments Return {X} _.
Arguments Do {X Y} _ _.

Fixpoint run_prog {X} (owner : Owner) (p : Prog X) s : outcome (X * Storage TS A) :=
  match p with
  | Return x => mret (x, s)
  | Do c rest => '(y, s) ← run_cmd owner c s; run_prog owner (rest y) s
  end.

(** A direct call takes the lock it needs. *)
Definition run_raw {X} (owner : Owner) (c : Cmd X) s : outcome (X * Storage TS A) :=
  s ← (if reads c then get_read_lock s else get_write_lock s); run_cmd owner c s.

(** A transaction runs a program, then commits it or drops it. *)
Definition run_txn {X} (owner : Owner) (p : Prog X) (commit : X -> bool) s
    : outcome ((X * option (unit + Error)) * Storage TS A) :=
  '(id, s) ← begin_txn s;
  '(x, s) ← run_prog owner p s;
  if commit x then '(r, s) ← commit_and_drop s id; mret ((x, Some r), s)
  else s ← drop_txn s id; mret ((x, None), s).

Inductive Call : Type -> Type :=
| Raw {X} (owner : Owner) (c : Cmd X) : Call X
| ForEachMut {K V I} `{Countable K} {HO : HashOrder K} {HX : IndexStorage K V I} {HL : IndexLaws K V I (HX := HX)}
    (D : TableDesc TS K V I) (L : TableDescLaws TS K V I D) (owner : Owner) (f : K -> V -> V) : Call unit
| Txn {X} (owner : Owner) (p : Prog X) (commit : X -> bool) : Call (X * option (unit + Error)).

Definition run_call {X} (c : Call X) : Storage TS A -> outcome (X * Storage TS A) :=
  match c in Call X return Storage TS A -> outcome (X * Storage TS A) with
  | Raw owner c => run_raw owner c
  | ForEachMut D _ owner f => fun s => s ← get_write_lock s; writing (tabular_for_each_mut D s f owner)
  | Txn owner p commit => run_txn owner p commit
  end.

Inductive Script (X : Type) : Type :=
| Finish (x : X)
| Then {Y} (c : Call Y) (rest : Y -> Script X).
Arguments Finish {X} _.
Arguments Then {X Y} _ _.

Fixpoint run_script {X} (p : Script X) s : outcome (X * Storage TS A) :=
  match p with
  | Finish x => mret (x, s)
  | Then c rest => '(y, s) ← run_call c s; run_script (rest y) s
  end.

Definition run_new {X} (p : Script X) : outcome (X * Storage TS A) := s ← new_storage; run_script p s.

End Store.
Arguments Return {TS A GS GL X} _.
Arguments Do {TS A GS GL X Y} _ _.
Arguments Finish {TS A GS GL X} _.
Arguments Then {TS A GS GL X Y} _ _.
End KvStore.
