(* ===== verification/KvStoreSpec.v ===== *)
(** * The key-value store refines finite maps

    Scripts of direct calls and transactions return what finite maps return: a committed
    transaction has the effect of its program, a dropped one none but for table owners, and
    a call panics only for an owner that does not match, a singleton stored with another
    type or when the transaction ids are used up. *)

From S2P Require Import Prelude KvValue KvTable KvTableSpec KvIndex KvStorage KvOps KvLaws KvStore.
Import KvValue KvTable KvTableSpec KvIndex KvStorage KvOps KvLaws KvStore.

Module KvStoreSpec.

(** ** The specification of the calls *)

Definition owner_ok (o : option Owner) (owner : Owner) : bool :=
  match o with Some prev => bool_decide (prev = owner) | None => true end.

Section Tables.
Context {K V I : Type} `{Countable K} {HX : IndexStorage K V I} {HL : IndexLaws K V I (HX := HX)}.

(** The row that a removal drops from the indexes is the row it removes; a removal in a
    transaction may find no row and drop another value. *)
Definition removes (raw : bool) (rows : gmap K V) (k : K) (o : option V) : Prop :=
  o = rows !! k \/ raw = false /\ rows !! k = None.

Definition TabResult X : Type := outcome (X * (gmap K V * iview) * option Owner).

Definition tab_spec {X} (raw : bool) (owner : Owner) (o : TabOp K V X) (S : gmap K V * iview) (own : option Owner) : TabResult X -> Prop :=
  match o in TabOp _ _ X return TabResult X -> Prop with
  | TInit => fun R => R = Done match own with Some o => (inr (AlreadyInit o), S, own) | None => (inl tt, S, Some owner) end
  | TLen => fun R => R = Done (size (fst S), S, own)
  | TIsEmpty => fun R => R = Done ((size (fst S) =? 0)%nat, S, own)
  | TGet key => fun R => R = Done (fst S !! key, S, own)
  | TWith key f => fun R => R = Done (option_map f (fst S !! key), S, own)
  | TIter => fun R => exists l, l ≡ₚ map_to_list (fst S) /\ R = Done (l, S, own)
  | TClear => fun R => R = if owner_ok own owner then Done (tt, a_clear, Some owner) else Panic
  | TInsert key value => fun R => R = if owner_ok own owner then Done (tt, a_insert S key value, Some owner) else Panic
  | TWithMut key f => fun R =>
      R = if owner_ok own owner then let r := a_with_mut S key f in Done (fst r, snd r, own) else Panic
  | TRemove key => fun R =>
      if owner_ok own owner then exists o, removes raw (fst S) key o /\ R = Done (tt, a_remove S key o, own) else R = Panic
  end.

Context {F : Type} `{Countable F} {HOF : HashOrder F} {Y : IndexDesc I F K} (LY : IndexDescLaws I F K V Y).

(** The rows of index entries up to the first entry without a row. *)
Fixpoint entry_rows (rows : gmap K V) (entries : list (F * K)) : list (F * V) :=
  match entries with
  | [] => []
  | (f, k) :: entries => match rows !! k with None => [] | Some v => (f, v) :: entry_rows rows entries end
  end.

Definition idx_spec {X} (raw : bool) (owner : Owner) (o : IdxOp F V X) (S : gmap K V * iview) (own : option Owner) : TabResult X -> Prop :=
  let ix := isel (snd S) in
  match o in IdxOp _ _ X return TabResult X -> Prop with
  | IGet key => fun R => R = Done (ix !! key ≫= fun k => fst S !! k, S, own)
  | IWith key f => fun R => R = Done (option_map f (ix !! key ≫= fun k => fst S !! k), S, own)
  | IIter => fun R => exists l, l ≡ₚ map_to_list ix /\ R = Done (entry_rows (fst S) l, S, own)
  | IKeys => fun R => exists l, l ≡ₚ map_to_list ix /\ R = Done (map fst l, S, own)
  | IWithMut key f => fun R =>
      R = if owner_ok own owner then
            match ix !! key with
            | None => Done (None, S, own)
            | Some k => let r := a_with_mut S k f in Done (fst r, snd r, own)
            end
          else Panic
  | IRemove key => fun R =>
      if owner_ok own owner then
        match ix !! key with
        | None => R = Done (tt, S, own)
        | Some k => exists o, removes raw (fst S) k o /\
            R = Done (tt, (fst (a_remove S k o), idel (snd (a_remove S k o)) key), own)
        end
      else R = Panic
  end.

End Tables.

Section Store.
Context {TS A : Type} {GS : GeneratedStorage TS} {GL : GeneratedStorageLaws TS (GS := GS)}.
Implicit Types s : Storage TS A.

Abbreviation Sins := (gmap TypeId (Owner * SinValue A)).

Definition sin_value {T} (D : Singleton A T) (m : Sins) : outcome (option T) :=
  match m !! sin_key D with
  | None | Some (_, SinNone) => mret None
  | Some (_, v) => x ← from_value_ref D v; mret (Some x)
  end.

Definition SinResult X : Type := outcome (X * Sins).

Definition sin_spec {T X} (D : Singleton A T) (owner : Owner) (o : SinOp T X) (m : Sins) : SinResult X :=
  match o in SinOp _ X return SinResult X with
  | SGet => x ← sin_value D m; mret (x, m)
  | SWith f => x ← sin_value D m; mret (option_map f x, m)
  | SInsert v =>
      let own := fst <$> m !! sin_key D in
      if owner_ok own owner then mret (tt, <[sin_key D := (default owner own, to_value D v)]> m) else Panic
  | SRemove =>
      let own := fst <$> m !! sin_key D in
      if owner_ok own owner then mret (tt, match own with Some o => <[sin_key D := (o, SinNone)]> m | None => m end) else Panic
  end.

(** What a store holds for its callers. *)
Record AView : Type := mkAView { a_sin : Sins; a_tab : gview; a_owners : gowners }.

Definition lift_tab {K V I X} `{Countable K} {HX : IndexStorage K V I} {HL : IndexLaws K V I (HX := HX)}
    {D : TableDesc TS K V I} (L : TableDescLaws TS K V I D) (a : AView) (R : TabResult X) : outcome (X * AView) :=
  '(x, w, o) ← R; mret (x, mkAView (a_sin a) (put (a_tab a) w) (put_owner (a_owners a) o)).

Definition cmd_spec {X} (raw : bool) (owner : Owner) (c : Cmd X) (a : AView) : outcome (X * AView) -> Prop :=
  match c in Cmd X return outcome (X * AView) -> Prop with
  | Tab D L o => fun R => exists R0, tab_spec raw owner o (sel (a_tab a)) (sel_owner (a_owners a)) R0 /\ R = lift_tab L a R0
  | Idx D L Y LY o => fun R => exists R0, idx_spec LY raw owner o (sel (a_tab a)) (sel_owner (a_owners a)) R0 /\ R = lift_tab L a R0
  | Sin D o => fun R => R = ('(x, m) ← sin_spec D owner o (a_sin a); mret (x, mkAView m (a_tab a) (a_owners a)))
  end.

Fixpoint prog_spec {X} (owner : Owner) (p : Prog X) (a : AView) (R : outcome (X * AView)) : Prop :=
  match p with
  | Return x => R = Done (x, a)
  | Do c rest =>
      cmd_spec false owner c a Panic /\ R = Panic \/
      exists y a', cmd_spec false owner c a (Done (y, a')) /\ prog_spec owner (rest y) a' R
  end.

(** A store between calls: its contents and the id of the next transaction. *)
Record AStore : Type := mkAStore { a_view : AView; a_next : TxnId }.

Definition new_view : AView := mkAView ∅ gempty gunowned.

(** A committed transaction leaves the contents of its program, a dropped one the contents
    before it, but for the owners of the tables. *)
Definition txn_spec {X} (owner : Owner) (p : Prog X) (commit : X -> bool) (a : AStore) (R : outcome ((X * option (unit + Error)) * AStore)) : Prop :=
  if decide (a_next a + 1 < 2 ^ 64) then
    prog_spec owner p (a_view a) Panic /\ R = Panic \/
    exists x v, prog_spec owner p (a_view a) (Done (x, v)) /\
      R = if commit x then Done ((x, Some (inl tt)), mkAStore v (a_next a + 1))
          else Done ((x, None), mkAStore (mkAView (a_sin (a_view a)) (a_tab (a_view a)) (a_owners v)) (a_next a + 1))
  else R = Panic.

Definition call_spec {X} (c : Call X) (a : AStore) : outcome (X * AStore) -> Prop :=
  match c in Call X return outcome (X * AStore) -> Prop with
  | Raw owner c => fun R => exists R0, cmd_spec true owner c (a_view a) R0 /\ R = ('(x, v) ← R0; mret (x, mkAStore v (a_next a)))
  | ForEachMut D L owner f => fun R =>
      let S := sel (a_tab (a_view a)) in
      if owner_ok (sel_owner (a_owners (a_view a))) owner then
        exists ks, visits ks (fst S) /\
          R = Done (tt, mkAStore (mkAView (a_sin (a_view a)) (put (a_tab (a_view a)) (foldl (a_visit f) S ks)) (a_owners (a_view a))) (a_next a))
      else R = Panic
  | Txn owner p commit => txn_spec owner p commit a
  end.

Fixpoint script_spec {X} (p : Script X) (a : AStore) (R : outcome (X * AStore)) : Prop :=
  match p with
  | Finish x => R = Done (x, a)
  | Then c rest =>
      call_spec c a Panic /\ R = Panic \/ exists y a', call_spec c a (Done (y, a')) /\ script_spec (rest y) a' R
  end.

End Store.
End KvStoreSpec.
