(* ===== verification/KvStoreProof.v ===== *)
(** * The refinement proof of the key-value store

    [store_ok] is the invariant of the storage between operations; every operation of a
    program keeps it and steps the view of the current transaction like the specification,
    and leaves the view of the last commit. *)

From S2P Require Import Prelude KvValue KvTable KvTableSpec KvIndex KvStorage KvOps KvLaws KvStore KvStoreSpec.
Import KvValue KvTable KvTableSpec KvIndex KvStorage KvOps KvLaws KvStore KvStoreSpec.

Module KvStoreProof.
Section Proof.
Context {TS A : Type} {GS : GeneratedStorage TS} {GL : GeneratedStorageLaws TS (GS := GS)}.
Implicit Types s : Storage TS A.
Implicit Types m : gmap TypeId (Owner * VersionedValue (SinValue A)).
Implicit Types c : TxnId.
Implicit Types p : option TxnId.

(** ** The invariant *)

Definition sins_seen m (id : TxnId) : gmap TypeId (Owner * SinValue A) := omap (fun x => pair (fst x) <$> seen (snd x) id) m.

(** The singletons: both versions in order, one visible, and only recorded ones with a
    version of the transaction. *)
Record sins_ok c p m (modified : list TypeId) : Prop := {
  sins_rows : forall k o v, m !! k = Some (o, v) -> value_ok c p v;
  sins_visible : forall k o v, m !! k = Some (o, v) -> is_Some (seen v (default c p));
  sins_recorded : forall k o v id, m !! k = Some (o, v) -> p = Some id -> has_version v id = true -> k ∈ modified;
}.

Definition modified_sins s : list TypeId := match pending_txn s with Some (_, ks) => ks | None => [] end.

Record store_ok p s : Prop := {
  so_current : current_txn s = p;
  so_pending : pending_ok (committed s) p;
  so_next : default (committed s) p < next_txn s;
  so_tables : gs_ok (committed s) p (tables s);
  so_sins : sins_ok (committed s) p (singletons s) (modified_sins s);
}.

Definition cur_view s : AView (TS := TS) (A := A) := mkAView (sins_seen (singletons s) (txn_id s)) (gs_view (tables s) (txn_id s)) (gs_owners (tables s)).

(** What a rollback restores. *)
Definition saved s : gmap TypeId (Owner * SinValue A) * gview :=
  (sins_seen (singletons s) (committed s), gs_committed (tables s) (committed s)).

(** [s'] results from [s] by an operation of a call. *)
Definition leads p s s' (a : AView (TS := TS) (A := A)) : Prop :=
  store_ok p s' /\ cur_view s' = a /\ (is_Some p -> saved s' = saved s) /\ next_txn s' = next_txn s /\ committed s' = committed s.

Lemma txn_id_eq p s : store_ok p s -> txn_id s = default (committed s) p.
Proof. intros Hs. unfold txn_id. by rewrite (so_current _ _ Hs). Qed.

Lemma leads_refl p s : store_ok p s -> leads p s s (cur_view s).
Proof. by intros Hs. Qed.

Lemma leads_trans p s s1 s2 a1 a2 : leads p s s1 a1 -> leads p s1 s2 a2 -> leads p s s2 a2.
Proof.
  intros (_ & _ & H1 & N1 & C1) (Hs & Hv & H2 & N2 & C2). split_and!; [done..| |congruence|congruence].
  intros Hp. by rewrite H2, H1.
Qed.

(** ** Singletons *)

Lemma sins_lookup m id k : sins_seen m id !! k = m !! k ≫= fun x => pair (fst x) <$> seen (snd x) id.
Proof. apply lookup_omap. Qed.

Lemma sins_insert m id k o v x : seen v id = Some x -> sins_seen (<[k := (o, v)]> m) id = <[k := (o, x)]> (sins_seen m id).
Proof.
  intros E. apply map_eq. intros j. rewrite sins_lookup. destruct (decide (j = k)) as [->|Hne].
  - rewrite !lookup_insert_eq. cbn. by rewrite E.
  - rewrite !lookup_insert_ne by done. by rewrite sins_lookup.
Qed.

Lemma sins_same m id k o v : (pair o <$> seen v id) = sins_seen m id !! k -> sins_seen (<[k := (o, v)]> m) id = sins_seen m id.
Proof.
  intros E. apply map_eq. intros j. rewrite sins_lookup. destruct (decide (j = k)) as [->|Hne].
  - rewrite lookup_insert_eq. exact E.
  - rewrite lookup_insert_ne by done. by rewrite sins_lookup.
Qed.

(** [s1] is [s] with the key recorded. *)
Definition records s s1 (k : TypeId) p : Prop :=
  singletons s1 = singletons s /\ tables s1 = tables s /\ committed s1 = committed s /\ next_txn s1 = next_txn s /\
  current_txn s1 = p /\ (is_Some p -> k ∈ modified_sins s1) /\ modified_sins s ⊆ modified_sins s1.

Lemma record_spec p s k : store_ok p s -> exists s1, record_singleton s k (txn_id s) = Done s1 /\ records s s1 k p.
Proof.
  intros Hs. pose proof (so_current _ _ Hs) as Hc. pose proof (so_pending _ _ Hs) as Hp. rewrite (txn_id_eq _ _ Hs).
  unfold record_singleton, records. unfold current_txn, modified_sins in *. destruct (pending_txn s) as [[id ks]|] eqn:Ep; cbn in Hc; subst p; cbn [from_option Datatypes.id].
  - specialize (Hp id eq_refl). rewrite decide_False by lia. rewrite Z.eqb_refl. cbn [assert mbind outcome_bind].
    eexists. split; [reflexivity|]. cbn. split_and!; [done..|set_solver|set_solver].
  - rewrite decide_True by done. exists s. rewrite Ep. cbn. split_and!; [done..|by intros [? ?]|set_solver].
Qed.

Lemma write_sin p s s1 k o v x :
  store_ok p s -> records s s1 k p -> (forall o' v', singletons s !! k = Some (o', v') -> o' = o) ->
  written (committed s) p (default default_value (snd <$> singletons s !! k)) v x ->
  leads p s (set_singletons s1 (<[k := (o, v)]> (singletons s)))
    (mkAView (<[k := (o, x)]> (sins_seen (singletons s) (txn_id s))) (gs_view (tables s) (txn_id s)) (gs_owners (tables s))).
Proof.
  intros Hs (E1 & E2 & E3 & E4 & E5 & Hk & Hsub) Hown (Hok & Hx & Hold). pose proof (txn_id_eq _ _ Hs) as Ht.
  assert (Ht1 : txn_id (set_singletons s1 (<[k := (o, v)]> (singletons s))) = txn_id s).
  { rewrite Ht. unfold txn_id. change (current_txn (set_singletons s1 _)) with (current_txn s1). rewrite E5. cbn [committed set_singletons]. by rewrite E3. }
  pose proof (so_sins _ _ Hs) as [Hr Hv Hm]. split_and!; cbn [set_singletons committed next_txn]; [|..|done|done].
  - constructor; cbn [set_singletons committed next_txn tables singletons]; rewrite ?E1, ?E2, ?E3, ?E4.
    1: done. 1,2,3: by apply Hs. constructor.
    + intros j o' v' [[<- [= <- <-]]|[Hne Hj]]%lookup_insert_Some; [done|by eapply Hr].
    + intros j o' v' [[<- [= <- <-]]|[Hne Hj]]%lookup_insert_Some; [by eexists|by eapply Hv].
    + intros j o' v' id [[<- [= <- <-]]|[Hne Hj]]%lookup_insert_Some Hp Hver; [apply Hk; by exists id|]. apply Hsub. by eapply Hm.
  - unfold cur_view. rewrite Ht1. cbn [set_singletons singletons tables]. rewrite E2. f_equal. rewrite Ht. by apply sins_insert.
  - intros Hp. unfold saved. cbn [set_singletons singletons tables committed]. rewrite E2, E3. f_equal.
    apply sins_same. rewrite (Hold Hp), sins_lookup. destruct (singletons s !! k) as [[o' v']|] eqn:E; [|done].
    cbn. by rewrite (Hown o' v' eq_refl).
Qed.

Lemma record_leads p s s1 k : store_ok p s -> records s s1 k p -> leads p s s1 (cur_view s).
Proof.
  intros Hs (E1 & E2 & E3 & E4 & E5 & _ & Hsub). pose proof (txn_id_eq _ _ Hs) as Ht. pose proof (so_sins _ _ Hs) as [Hr Hv Hm].
  assert (Ht1 : txn_id s1 = txn_id s) by (unfold txn_id in *; by rewrite E5, E3).
  split_and!; [|by unfold cur_view; rewrite Ht1, E1, E2|by intros _; unfold saved; rewrite E1, E2, E3|done|done].
  constructor; rewrite ?E1, ?E2, ?E3, ?E4; [done| | | |]; try by apply Hs.
  constructor; [done..|]. intros j o v id Hj Hp Hver. apply Hsub. by eapply Hm.
Qed.

(** The outcome of an operation on [s] and the outcome of its specification. *)
Definition agrees {X} p s (r : outcome (X * Storage TS A)) (R : outcome (X * AView (TS := TS) (A := A))) : Prop :=
  match r, R with
  | Done (x, s'), Done (x', a) => x = x' /\ leads p s s' a
  | Panic, Panic => True
  | _, _ => False
  end.

Lemma get_singleton_ok {T} (D : Singleton A T) p s :
  store_ok p s -> get_singleton_value D s (txn_id s) = sin_value D (sins_seen (singletons s) (txn_id s)).
Proof.
  intros Hs. unfold get_singleton_value, map_singleton_value, sin_value. rewrite sins_lookup.
  destruct (singletons s !! sin_key D) as [[o v]|] eqn:E; [|done]. cbn [fmap option_fmap option_map snd fst mbind option_bind].
  rewrite (get_value_spec (committed s) p v) by (by eapply sins_rows, E; apply Hs). cbn [mbind outcome_bind].
  destruct (seen v (txn_id s)) as [[| | | |]|]; done.
Qed.

Lemma sin_owner p s k : store_ok p s -> fst <$> sins_seen (singletons s) (txn_id s) !! k = get_singleton_owner s k.
Proof.
  intros Hs. unfold get_singleton_owner. rewrite sins_lookup. destruct (singletons s !! k) as [[o v]|] eqn:E; [|done].
  cbn [fmap option_fmap option_map snd fst mbind option_bind].
  destruct (sins_visible _ _ _ _ (so_sins _ _ Hs) k o v E) as [x Hx]. rewrite (txn_id_eq _ _ Hs), Hx. done.
Qed.

Lemma assert_singleton_owner_eq s owner k :
  assert_singleton_owner s owner k = if owner_ok (get_singleton_owner s k) owner then Done tt else Panic.
Proof. unfold assert_singleton_owner, owner_ok. by destruct (get_singleton_owner s k). Qed.

Lemma run_sin_ok {T X} (D : Singleton A T) p s owner (o : SinOp T X) :
  store_ok p s ->
  agrees p s (run_sin D owner o s)
    ('(x, m) ← sin_spec D owner o (a_sin (cur_view s)); mret (x, mkAView m (a_tab (cur_view s)) (a_owners (cur_view s)))).
Proof.
  intros Hs. pose proof (leads_refl p s Hs) as Hrefl. destruct o as [|B f|value|]; cbn [run_sin sin_spec a_sin cur_view]; unfold reading, writing.
  - unfold singleton_get. rewrite (get_singleton_ok D p s Hs). by destruct (sin_value D _).
  - unfold singleton_with. rewrite (get_singleton_ok D p s Hs). by destruct (sin_value D _).
  - unfold singleton_insert. rewrite (sin_owner p s _ Hs), assert_singleton_owner_eq.
    destruct (owner_ok (get_singleton_owner s (sin_key D)) owner); [|done]. cbn [mbind outcome_bind]. unfold insert_singleton.
    destruct (record_spec p s (sin_key D) Hs) as (s1 & -> & Hrec). cbn [mbind outcome_bind]. unfold get_singleton_owner.
    pose proof Hrec as (E1 & _). rewrite E1.
    destruct (singletons s !! sin_key D) as [[o v]|] eqn:E; cbn [fmap option_fmap option_map from_option fst Datatypes.id]; (split; [done|]); apply write_sin; try done.
    + intros o' v'. rewrite E. congruence.
    + rewrite E. cbn. rewrite (txn_id_eq _ _ Hs). eapply set_value_spec; [apply Hs|]. eapply sins_rows; [apply Hs|done].
    + intros o' v'. by rewrite E.
    + rewrite E. cbn. rewrite (txn_id_eq _ _ Hs). apply (set_value_spec _ _ (so_pending _ _ Hs) default_value). done.
  - unfold singleton_remove. rewrite (sin_owner p s _ Hs), assert_singleton_owner_eq.
    destruct (owner_ok (get_singleton_owner s (sin_key D)) owner); [|done]. cbn [mbind outcome_bind]. unfold remove_singleton.
    destruct (record_spec p s (sin_key D) Hs) as (s1 & -> & Hrec). cbn [mbind outcome_bind]. unfold get_singleton_owner.
    pose proof Hrec as (E1 & _). rewrite E1.
    destruct (singletons s !! sin_key D) as [[o v]|] eqn:E; cbn [fmap option_fmap option_map from_option fst Datatypes.id]; (split; [done|]).
    + apply write_sin; try done; [intros o' v'; rewrite E; congruence|].
      rewrite E. cbn. rewrite (txn_id_eq _ _ Hs). eapply set_value_spec; [apply Hs|]. eapply sins_rows; [apply Hs|done].
    + by apply record_leads with (sin_key D).
Qed.

(** ** Tables *)

Section Tables.
Context {K V I : Type} `{Countable K} {HO : HashOrder K} {HX : IndexStorage K V I} {HL : IndexLaws K V I (HX := HX)}.
Context (D : TableDesc TS K V I) (L : TableDescLaws TS K V I D).

Lemma the_table_ok p s : store_ok p s -> table_ok (committed s) p (the_table D s).
Proof. intros Hs. apply desc_ok, (so_tables _ _ Hs). Qed.

Lemma the_table_view s id : full_view (the_table D s) id = sel (gs_view (tables s) id).
Proof. apply desc_view. Qed.

Lemma the_table_rows s id : view (the_table D s) id = fst (sel (gs_view (tables s) id)).
Proof. by rewrite <- the_table_view. Qed.

Lemma set_leads p s t :
  store_ok p s -> table_ok (committed s) p t ->
  (is_Some p -> full_committed t (committed s) = full_committed (the_table D s) (committed s)) ->
  leads p s (with_table D s t)
    (mkAView (a_sin (cur_view s)) (put (a_tab (cur_view s)) (full_view t (txn_id s))) (put_owner (a_owners (cur_view s)) (owner t))).
Proof.
  intros Hs Ht Hc. destruct (desc_set (committed s) p (tables s) t (so_tables _ _ Hs) Ht Hc) as (H1 & H2 & H3 & H4).
  split_and!; [|..|done|done].
  - destruct Hs as [Hcur Hp Hn _ Hsin]. by constructor.
  - unfold cur_view. change (txn_id (with_table D s t)) with (txn_id s). cbn [with_table set_tables singletons tables a_sin a_tab a_owners].
    rewrite H4. f_equal. by rewrite (txn_id_eq _ _ Hs).
  - intros Hp. unfold saved. cbn [with_table set_tables singletons tables committed]. by rewrite (H3 Hp).
Qed.

(** A table that an operation stepped, put back. *)
Lemma steps_leads p s t t' S own :
  store_ok p s -> table_ok (committed s) p t -> full_committed t (committed s) = full_committed (the_table D s) (committed s) ->
  owner t = own -> steps_to (committed s) p t t' S ->
  leads p s (with_table D s t') (mkAView (a_sin (cur_view s)) (put (a_tab (cur_view s)) S) (put_owner (a_owners (cur_view s)) own)).
Proof.
  intros Hs Ht Hc Ho (Hok & Hv & Hcm & How). rewrite <- Hv, <- Ho, <- How, <- (txn_id_eq _ _ Hs).
  apply set_leads; [done..|]. intros Hp. by rewrite Hcm, Hc.
Qed.

Definition own_table (t : Table K V I) (o : option Owner) : Table K V I := mkTable o (data t) (delete_mask t) (modified t) (indexes t).

Lemma own_table_ok c p t o : table_ok c p t -> table_ok c p (own_table t o).
Proof. intros [Hr Hm Hmod Hix]. by constructor. Qed.

Lemma assert_or_set_eq (t : Table K V I) owner :
  assert_or_set_owner t owner = if owner_ok (KvTable.owner t) owner then Done (own_table t (Some owner)) else Panic.
Proof.
  unfold assert_or_set_owner, owner_ok, own_table. destruct t as [[o|] dt dm md ix]; cbn; [|done]. destruct (decide (o = owner)) as [->|Hne].
  - by rewrite bool_decide_eq_true_2.
  - by rewrite bool_decide_eq_false_2.
Qed.

Lemma assert_owner_eq (t : Table K V I) owner : assert_owner t owner = if owner_ok (KvTable.owner t) owner then Done tt else Panic.
Proof. unfold assert_owner, owner_ok. by destruct (KvTable.owner t). Qed.

Lemma read_agrees {X} p s (m : outcome X) x :
  store_ok p s -> m = Done x ->
  agrees p s (reading s m) (lift_tab L (cur_view s) (Done (x, sel (a_tab (cur_view s)), sel_owner (a_owners (cur_view s))))).
Proof. intros Hs ->. cbn. rewrite put_sel, put_sel_owner. by split; [|apply leads_refl]. Qed.

Lemma the_table_owner s : owner (the_table D s) = sel_owner (a_owners (cur_view s)).
Proof. apply desc_owner. Qed.

Lemma init_agrees p s owner :
  store_ok p s ->
  agrees p s (mret (tabular_init D s owner))
    (lift_tab L (cur_view s) (Done match sel_owner (a_owners (cur_view s)) with
      | Some o => (inr (AlreadyInit o), sel (a_tab (cur_view s)), sel_owner (a_owners (cur_view s)))
      | None => (inl tt, sel (a_tab (cur_view s)), Some owner)
      end)).
Proof.
  intros Hs. pose proof (the_table_ok p s Hs) as Ht. pose proof (the_table_owner s) as Ho.
  unfold tabular_init, try_set_owner. destruct (KvTable.owner (the_table D s)) as [o|] eqn:E; rewrite <- Ho; cbn; (split; [done|]).
  - rewrite <- E. rewrite <- (the_table_view s (txn_id s)). by apply set_leads.
  - rewrite <- (the_table_view s (txn_id s)). apply (set_leads p s (own_table (the_table D s) (Some owner))); [done|by apply own_table_ok|done].
Qed.

(** The table before a write, with its owner set. *)
Lemma write_agrees p s owner (f : Table K V I -> outcome (Table K V I)) S :
  store_ok p s -> 
  (forall t, table_ok (committed s) p t -> full_view t (txn_id s) = sel (a_tab (cur_view s)) ->
     exists t', f t = Done t' /\ steps_to (committed s) p t t' S) ->
  agrees p s (writing (t ← assert_or_set_owner (the_table D s) owner; t ← f t; mret (with_table D s t)))
    (lift_tab L (cur_view s) (if owner_ok (sel_owner (a_owners (cur_view s))) owner then Done (tt, S, Some owner) else Panic)).
Proof.
  intros Hs Hf. pose proof (the_table_ok p s Hs) as Ht. rewrite assert_or_set_eq. unfold the_table at 1. rewrite desc_owner.
  change (gs_owners (tables s)) with (a_owners (cur_view s)). destruct (owner_ok _ owner); [|done]. cbn [mbind outcome_bind].
  destruct (Hf (own_table (the_table D s) (Some owner))) as (t' & -> & Hst); [by apply own_table_ok|apply desc_view|].
  cbn. split; [done|]. by apply (steps_leads p s (own_table (the_table D s) (Some owner))); [|apply own_table_ok| | |].
Qed.

Lemma removes_dropped p s k o :
  store_ok p s -> dropped (the_table D s) (txn_id s) k o -> (p = None -> o = view (the_table D s) (committed s) !! k) ->
  removes (bool_decide (p = None)) (fst (sel (a_tab (cur_view s)))) k o.
Proof.
  intros Hs Hd Hn. unfold dropped in Hd. rewrite the_table_rows in Hd. destruct Hd as [Hd|[Hd _]]; [by left|].
  destruct p as [id|]; [by right|]. left. rewrite (Hn eq_refl), the_table_rows. cbn [cur_view a_tab]. by rewrite (txn_id_eq _ _ Hs).
Qed.

Lemma run_tab_ok {X} p s owner (o : TabOp K V X) :
  store_ok p s -> exists R, tab_spec (bool_decide (p = None)) owner o (sel (a_tab (cur_view s))) (sel_owner (a_owners (cur_view s))) R /\
    agrees p s (run_tab D owner o s) (lift_tab L (cur_view s) R).
Proof.
  intros Hs. pose proof (the_table_ok p s Hs) as Ht. pose proof (so_pending _ _ Hs) as Hp. pose proof (txn_id_eq _ _ Hs) as Hid.
  pose proof (the_table_rows s (txn_id s)) as Hrows. change (gs_view (tables s) (txn_id s)) with (a_tab (cur_view s)) in Hrows.
  destruct o as [| | |key|B key f| | |key value|B key f|key]; cbn [tab_spec run_tab].
  - eexists. split; [reflexivity|].
    apply init_agrees. done.
  - eexists. split; [reflexivity|]. apply read_agrees; [done|]. unfold tabular_len. rewrite <- Hrows, Hid. by apply table_len_spec.
  - eexists. split; [reflexivity|]. apply read_agrees; [done|]. unfold tabular_is_empty. rewrite <- Hrows, Hid. by apply table_is_empty_spec.
  - eexists. split; [reflexivity|]. apply read_agrees; [done|]. unfold tabular_get. rewrite <- Hrows, Hid. by apply table_get_spec.
  - eexists. split; [reflexivity|]. apply read_agrees; [done|]. unfold tabular_with. rewrite <- Hrows, Hid. by rewrite table_get_spec.
  - destruct (table_iter_spec _ _ _ Ht) as (l & El & Hl). rewrite <- Hid, Hrows in Hl. rewrite <- Hid in El.
    eexists. split; [by exists l|]. by apply read_agrees.
  - eexists. split; [reflexivity|]. apply write_agrees; [done|]. intros t Hok _. rewrite Hid. by apply table_clear_spec.
  - eexists. split; [reflexivity|]. apply write_agrees; [done|]. intros t Hok Hv. rewrite <- Hv, Hid. by apply table_insert_spec.
  - destruct (table_with_mut_spec (committed s) p _ key f Hp Ht) as (t' & E & Hst). rewrite <- Hid, the_table_view in E, Hst.
    eexists. split; [reflexivity|]. unfold tabular_with_mut. rewrite assert_owner_eq, the_table_owner. destruct (owner_ok _ owner); [|done].
    cbn [mbind outcome_bind]. unfold max_committed_id. rewrite E. split; [done|]. by apply (steps_leads p s (the_table D s)); [..|apply the_table_owner|].
  - destruct (table_remove_spec (committed s) p _ key Hp Ht) as (t' & o & E & Hd & Hn & Hst). rewrite <- Hid in E, Hd, Hst. rewrite the_table_view in Hst.
    unfold tabular_remove. rewrite assert_owner_eq, the_table_owner. destruct (owner_ok _ owner); [|by eexists].
    eexists. split; [exists o; split; [by apply removes_dropped|reflexivity]|]. cbn [mbind outcome_bind]. unfold max_committed_id. rewrite E. split; [done|].
    by apply (steps_leads p s (the_table D s)); [..|apply the_table_owner|].
Qed.

(** ** Indexes *)

Context {F : Type} `{Countable F} {HOF : HashOrder F} (Y : IndexDesc I F K) (LY : IndexDescLaws I F K V Y).

Lemma the_index_ok p s : store_ok p s -> table_ok (committed s) p (the_index D Y s).
Proof. intros Hs. apply index_ok, (ok_indexes _ _ _ (the_table_ok p s Hs)). Qed.

Lemma the_index_view s id : view (the_index D Y s) id = isel (snd (sel (gs_view (tables s) id))).
Proof. unfold the_index. by rewrite index_view, <- the_table_view. Qed.

Lemma index_get_ok p s f :
  store_ok p s -> table_get (the_index D Y s) f (txn_id s) = Done (isel (snd (sel (a_tab (cur_view s)))) !! f).
Proof.
  intros Hs. rewrite (txn_id_eq _ _ Hs), (table_get_spec _ _ _ _ (the_index_ok p s Hs)), the_index_view. by rewrite <- (txn_id_eq _ _ Hs).
Qed.

Lemma row_get_ok p s k : store_ok p s -> table_get (the_table D s) k (txn_id s) = Done (fst (sel (a_tab (cur_view s))) !! k).
Proof.
  intros Hs. rewrite (txn_id_eq _ _ Hs), (table_get_spec _ _ _ _ (the_table_ok p s Hs)), the_table_rows. by rewrite <- (txn_id_eq _ _ Hs).
Qed.

Lemma indexed_get_ok p s f :
  store_ok p s ->
  indexed_get D Y s f = Done (isel (snd (sel (a_tab (cur_view s)))) !! f ≫= fun k => fst (sel (a_tab (cur_view s))) !! k).
Proof.
  intros Hs. unfold indexed_get. rewrite (index_get_ok p) by done. cbn [mbind outcome_bind].
  destruct (isel _ !! f) as [k|]; [|done]. by rewrite (row_get_ok p).
Qed.

Lemma index_rows_ok p s (entries : list (F * K)) :
  store_ok p s -> index_rows D s entries = Done (entry_rows (fst (sel (a_tab (cur_view s)))) entries).
Proof.
  intros Hs. induction entries as [|[f k] entries IH]; [done|]. cbn [index_rows entry_rows]. rewrite (row_get_ok p) by done. cbn [mbind outcome_bind].
  destruct (_ !! k) as [v|]; [|done]. by rewrite IH.
Qed.

Lemma index_iter_ok p s :
  store_ok p s -> exists l, table_iter (the_index D Y s) (txn_id s) = Done l /\ l ≡ₚ map_to_list (isel (snd (sel (a_tab (cur_view s))))).
Proof.
  intros Hs. rewrite (txn_id_eq _ _ Hs). destruct (table_iter_spec _ _ _ (the_index_ok p s Hs)) as (l & El & Hl).
  exists l. split; [done|]. rewrite the_index_view in Hl. cbn [cur_view a_tab]. by rewrite (txn_id_eq _ _ Hs).
Qed.

(** The second removal of [IndexedOpsMut::remove], from the index itself. *)
Lemma index_entry_removed p s t f (S : gmap K V * iview) :
  store_ok p s -> steps_to (committed s) p (the_table D s) t S ->
  exists ix, table_remove (get_index (indexes t)) f (txn_id s) (committed s) = Done ix /\
    steps_to (committed s) p (the_table D s) (set_indexes t (set_index (indexes t) ix)) (fst S, idel (snd S) f).
Proof.
  intros Hs (Hok & Hv & Hc & Ho). rewrite (txn_id_eq _ _ Hs).
  destruct (index_remove (committed s) p (indexes t) f (so_pending _ _ Hs) (ok_indexes _ _ _ Hok)) as (ix & E & Hix & Hvx & Hcx).
  exists ix. split; [exact E|]. subst S. split_and!; [by apply with_indexes|by unfold full_view; cbn [fst snd indexes set_indexes]; rewrite Hvx| |done].
  intros Hp. specialize (Hc Hp). unfold full_committed in *. cbn [indexes set_indexes]. by rewrite (Hcx Hp).
Qed.

Lemma run_idx_ok {X} p s owner (o : IdxOp F V X) :
  store_ok p s -> exists R, idx_spec LY (bool_decide (p = None)) owner o (sel (a_tab (cur_view s))) (sel_owner (a_owners (cur_view s))) R /\
    agrees p s (run_idx D Y owner o s) (lift_tab L (cur_view s) R).
Proof.
  intros Hs. pose proof (the_table_ok p s Hs) as Ht. pose proof (so_pending _ _ Hs) as Hp. pose proof (txn_id_eq _ _ Hs) as Hid.
  assert (Hsame : agrees p s (Done (tt, s)) (lift_tab L (cur_view s) (Done (tt, sel (a_tab (cur_view s)), sel_owner (a_owners (cur_view s))))))
    by (by apply (read_agrees p s (Done tt) tt)).
  destruct o as [key|B key f| | |B key f|key]; cbn [idx_spec run_idx].
  - eexists. split; [reflexivity|]. apply read_agrees; [done|]. by apply (indexed_get_ok p).
  - eexists. split; [reflexivity|]. apply read_agrees; [done|]. unfold indexed_with. by rewrite (indexed_get_ok p).
  - destruct (index_iter_ok p s Hs) as (l & El & Hl). eexists. split; [by exists l|]. apply read_agrees; [done|].
    unfold indexed_iter. rewrite El. by apply (index_rows_ok p).
  - destruct (index_iter_ok p s Hs) as (l & El & Hl). eexists. split; [by exists l|]. apply read_agrees; [done|].
    unfold indexed_keys. by rewrite El.
  - eexists. split; [reflexivity|]. unfold indexed_with_mut. rewrite assert_owner_eq, the_table_owner. destruct (owner_ok _ owner); [|done].
    cbn [mbind outcome_bind]. rewrite (index_get_ok p) by done. cbn [mbind outcome_bind]. destruct (isel _ !! key) as [k|].
    2: { cbn. rewrite put_sel, put_sel_owner. split; [done|by apply leads_refl]. }
    destruct (table_with_mut_spec (committed s) p _ k f Hp Ht) as (t' & E & Hst). rewrite <- Hid, the_table_view in E, Hst.
    unfold max_committed_id. rewrite E. split; [done|]. by apply (steps_leads p s (the_table D s)); [..|apply the_table_owner|].
  - unfold indexed_remove. rewrite assert_owner_eq, the_table_owner. destruct (owner_ok _ owner); [|by eexists].
    cbn [mbind outcome_bind]. rewrite (index_get_ok p) by done. cbn [mbind outcome_bind]. destruct (isel _ !! key) as [k|].
    2: { eexists. split; [reflexivity|]. exact Hsame. }
    destruct (table_remove_spec (committed s) p _ k Hp Ht) as (t' & o & E & Hd & Hn & Hst). rewrite <- Hid in E, Hd, Hst. rewrite the_table_view in Hst.
    destruct (index_entry_removed p s t' key _ Hs Hst) as (ix & Ex & Hsx).
    eexists. split; [exists o; split; [by apply removes_dropped|reflexivity]|]. unfold max_committed_id. rewrite E. cbn [mbind outcome_bind]. rewrite Ex.
    split; [done|]. by apply (steps_leads p s (the_table D s)); [..|apply the_table_owner|].
Qed.

End Tables.

(** ** Programs *)

Lemma run_cmd_ok {X} p s owner (c : Cmd X) :
  store_ok p s -> exists R, cmd_spec (bool_decide (p = None)) owner c (cur_view s) R /\ agrees p s (run_cmd owner c s) R.
Proof.
  intros Hs. destruct c as [K V I X ? ? HO HX HL D L o|K V I F X ? ? HO HX HL ? ? HOF D L Y LY o|T X D o]; cbn [cmd_spec run_cmd].
  - destruct (run_tab_ok D L p s owner o Hs) as (R & HR & Ha). eexists. split; [by exists R|done].
  - destruct (run_idx_ok D L Y LY p s owner o Hs) as (R & HR & Ha). eexists. split; [by exists R|done].
  - eexists. split; [reflexivity|]. by apply run_sin_ok.
Qed.

Lemma run_prog_ok {X} id s owner (prog : Prog X) :
  store_ok (Some id) s -> exists R, prog_spec owner prog (cur_view s) R /\ agrees (Some id) s (run_prog owner prog s) R.
Proof.
  revert s. induction prog as [x|Y c rest IH]; intros s Hs; cbn [prog_spec run_prog].
  - eexists. split; [reflexivity|]. by split; [|apply leads_refl].
  - destruct (run_cmd_ok (Some id) s owner c Hs) as (R & HR & Ha). rewrite bool_decide_eq_false_2 in HR by done.
    destruct (run_cmd owner c s) as [[y s1]|], R as [[y' a1]|]; cbn in Ha; try done.
    + destruct Ha as [<- Hl]. pose proof Hl as (Hs1 & <- & _). destruct (IH y s1 Hs1) as (R & HR' & Ha). exists R.
      split; [right; by exists y, (cur_view s1)|]. cbn [mbind outcome_bind].
      destruct (run_prog owner (rest y) s1) as [[x s2]|], R as [[x' a2]|]; cbn in Ha |- *; try done.
      destruct Ha as [-> Hl2]. split; [done|]. by eapply leads_trans.
    + exists Panic. split; [by left|done].
Qed.

(** ** Transactions *)

Lemma begin_sins c id m : c < id -> sins_ok c None m [] -> sins_ok c (Some id) m [] /\ sins_seen m id = sins_seen m c.
Proof.
  intros Hlt [Hr Hv _].
  assert (Hseen : forall k o v, m !! k = Some (o, v) -> seen v id = seen v c).
  { intros k o v Hk. apply (seen_committed c); [by eapply Hr|lia]. }
  split; [constructor|].
  - intros k o v Hk. by eapply begin_value, Hr.
  - intros k o v Hk. cbn. rewrite (Hseen k o v Hk). by eapply Hv.
  - intros k o v id' Hk [= <-]. by rewrite (no_pending_version c id) by (done || by eapply Hr).
  - apply map_eq. intros k. rewrite !sins_lookup. destruct (m !! k) as [[o v]|] eqn:E; [|done]. cbn. by rewrite (Hseen k o v E).
Qed.

(** One singleton of the loop of [clear_transaction]. *)
Definition gc_one m (k : TypeId) (id : TxnId) : gmap TypeId (Owner * VersionedValue (SinValue A)) :=
  match m !! k with
  | None => m
  | Some (o, v) => let v := gc_value v id in if value_is_empty v then base.delete k m else <[k := (o, v)]> m
  end.

Lemma gc_one_lookup m k id j :
  gc_one m k id !! j =
    if decide (j = k) then m !! k ≫= fun x => let v := gc_value (snd x) id in if value_is_empty v then None else Some (fst x, v) else m !! j.
Proof.
  unfold gc_one. destruct (m !! k) as [[o v]|] eqn:E; cbn [mbind option_bind fst snd].
  - destruct (decide (j = k)) as [->|Hne]; destruct (value_is_empty (gc_value v id)).
    + by rewrite lookup_delete_eq.
    + by rewrite lookup_insert_eq.
    + by rewrite lookup_delete_ne.
    + by rewrite lookup_insert_ne.
  - by destruct (decide (j = k)) as [->|].
Qed.

(** The rows after the loop over [ks]: collected for the keys of [ks], unchanged otherwise. *)
Lemma gc_singletons_lookup m ks id j :
  (forall k o v, m !! k = Some (o, v) -> value_is_empty v = false) ->
  gc_singletons ks m id !! j = if decide (j ∈ ks) then gc_one m j id !! j else m !! j.
Proof.
  revert m. induction ks as [|k ks IH]; intros m Hm; [by rewrite decide_False by set_solver|].
  change (gc_singletons (k :: ks) m id) with (gc_singletons ks (gc_one m k id) id). rewrite IH.
  - rewrite !gc_one_lookup. destruct (decide (j = k)) as [->|Hne].
    + rewrite (decide_True (P := k ∈ k :: ks)) by set_solver. rewrite !(decide_True (P := k = k)) by done.
      destruct (decide (k ∈ ks)); [|done].
      destruct (m !! k) as [[o v]|] eqn:E; [|done]. cbn [mbind option_bind fst snd].
      destruct (value_is_empty (gc_value v id)) eqn:Ee; [done|]. cbn [mbind option_bind fst snd]. by rewrite gc_value_idem, Ee.
    + rewrite !(decide_True (P := j = j)) by done.
      destruct (decide (j ∈ ks)); [rewrite (decide_True (P := j ∈ k :: ks)) by set_solver|rewrite (decide_False (P := j ∈ k :: ks)) by set_solver]; done.
  - intros j' o v. rewrite gc_one_lookup. destruct (decide (j' = k)); [|by apply Hm]. destruct (m !! k) as [[o' v']|]; [|done].
    cbn [mbind option_bind fst snd]. destruct (value_is_empty (gc_value v' id)) eqn:Ee; [done|]. by intros [= <- <-].
Qed.

Lemma gc_sins c id m ks :
  c < id -> sins_ok c (Some id) m ks ->
  sins_ok c None (gc_singletons ks m id) [] /\ sins_seen (gc_singletons ks m id) c = sins_seen m c.
Proof.
  intros Hlt [Hr Hv Hrec].
  assert (Hne : forall k o v, m !! k = Some (o, v) -> value_is_empty v = false).
  { intros k o v Hk. destruct (value_is_empty v) eqn:E; [|done]. destruct (Hv k o v Hk) as [x Hx]. by rewrite seen_empty in Hx. }
  assert (Hg : forall k, gc_singletons ks m id !! k = m !! k ≫= fun x => let v := gc_value (snd x) id in if value_is_empty v then None else Some (fst x, v)).
  { intros k. rewrite gc_singletons_lookup, gc_one_lookup by done. rewrite (decide_True (P := k = k)) by done. case_decide as Hk; [done|].
    destruct (m !! k) as [[o v]|] eqn:E; [|done]. cbn [mbind option_bind fst snd].
    assert (has_version v id = false) by (destruct (has_version v id) eqn:Ev; [|done]; by destruct Hk; eapply Hrec).
    by rewrite gc_no_version, (Hne k o v E). }
  split; [constructor; [|..|done]|].
  - intros k o v. rewrite Hg. destruct (m !! k) as [[o' v']|] eqn:E; [|done]. cbn [mbind option_bind fst snd].
    destruct (value_is_empty _); [done|]. intros [= <- <-]. by eapply gc_value_spec, Hr.
  - intros k o v. rewrite Hg. destruct (m !! k) as [[o' v']|] eqn:E; [|done]. cbn [mbind option_bind fst snd from_option].
    destruct (value_is_empty _) eqn:Ee; [done|]. intros [= <- <-]. apply committed_visible; [by eapply gc_value_spec, Hr|done].
  - apply map_eq. intros k. rewrite !sins_lookup, Hg. destruct (m !! k) as [[o' v']|] eqn:E; [|done]. cbn [mbind option_bind fst snd].
    destruct (gc_value_spec c id Hlt v' (Hr k o' v' E)) as [_ <-].
    destruct (value_is_empty (gc_value v' id)) eqn:Ee; [by rewrite seen_empty|done].
Qed.

Lemma cur_view_mk m (t : TS) c q n :
  cur_view (mkStorage m t c q n) = let id := default c (fst <$> q) in mkAView (sins_seen m id) (gs_view t id) (gs_owners t).
Proof. done. Qed.

Lemma cur_view_eq p s :
  store_ok p s -> cur_view s = let id := default (committed s) p in mkAView (sins_seen (singletons s) id) (gs_view (tables s) id) (gs_owners (tables s)).
Proof. intros Hs. unfold cur_view. by rewrite (txn_id_eq _ _ Hs). Qed.

Lemma idle_pending s : store_ok None s -> pending_txn s = None.
Proof. intros Hs. pose proof (so_current _ _ Hs) as E. unfold current_txn in E. by destruct (pending_txn s). Qed.

Lemma idle_sins s : store_ok None s -> sins_ok (committed s) None (singletons s) [].
Proof. intros Hs. pose proof (so_sins _ _ Hs) as H. unfold modified_sins in H. by rewrite idle_pending in H. Qed.

Lemma idle_locks s : store_ok None s -> get_read_lock s = Done s /\ get_write_lock s = Done s.
Proof.
  intros Hs. unfold get_read_lock, get_write_lock, clear_transaction. by rewrite (so_current _ _ Hs), (idle_pending s Hs).
Qed.

(** A new transaction sees what the store holds and would restore it. *)
Lemma begin_ok s :
  store_ok None s ->
  if decide (next_txn s + 1 < 2 ^ 64) then
    exists s1, begin_txn s = Done (next_txn s, s1) /\ store_ok (Some (next_txn s)) s1 /\ cur_view s1 = cur_view s /\
      saved s1 = (a_sin (cur_view s), a_tab (cur_view s)) /\ next_txn s1 = next_txn s + 1 /\ committed s1 = committed s
  else begin_txn s = Panic.
Proof.
  intros Hs. unfold begin_txn. destruct (idle_locks s Hs) as [_ ->]. cbn [mbind outcome_bind]. unfold begin_transaction, next, add_w.
  pose proof (so_next _ _ Hs) as Hlt. cbn in Hlt. pose proof (txn_id_eq _ _ Hs) as Hid. cbn in Hid.
  case_decide as Hd; [rewrite (proj2 (Z.ltb_lt _ _) Hd)|rewrite (proj2 (Z.ltb_ge _ _)) by lia; done].
  cbn [mbind outcome_bind]. eexists. split; [reflexivity|].
  destruct (begin_sins _ _ _ Hlt (idle_sins s Hs)) as [H1 H2]. destruct (gs_begin_spec _ _ _ Hlt (so_tables _ _ Hs)) as (H3 & H4 & H5).
  split_and!; [|..|done|done].
  - constructor; cbn; [done| |lia|done|done]. by intros id [= <-].
  - rewrite cur_view_mk, (cur_view_eq _ _ Hs). cbn. by rewrite H2, H4.
  - rewrite (cur_view_eq _ _ Hs). unfold saved. cbn [singletons tables committed a_sin a_tab from_option]. by rewrite H5.
Qed.

Lemma drop_ok id s :
  store_ok (Some id) s ->
  exists s', drop_txn s id = Done s' /\ store_ok None s' /\
    cur_view s' = mkAView (fst (saved s)) (snd (saved s)) (a_owners (cur_view s)) /\ next_txn s' = next_txn s.
Proof.
  intros Hs. pose proof (so_current _ _ Hs) as Hc. unfold current_txn in Hc. pose proof (so_pending _ _ Hs id eq_refl) as Hlt.
  unfold drop_txn, rollback_transaction, clear_transaction. pose proof (so_sins _ _ Hs) as Hsin. unfold modified_sins in Hsin.
  destruct (pending_txn s) as [[i ks]|]; [|done]. injection Hc as ->. rewrite decide_True by done.
  destruct (gs_gc_spec _ _ _ Hlt (so_tables _ _ Hs)) as (t & -> & H1 & H2 & H3). cbn [mbind outcome_bind].
  destruct (gc_sins _ _ _ _ Hlt Hsin) as [H4 H5]. eexists. split; [reflexivity|]. split_and!; [| |done].
  - constructor; cbn; [done|done| |done|done]. pose proof (so_next _ _ Hs) as Hn. cbn in Hn. lia.
  - rewrite cur_view_mk. cbn. by rewrite H2, H3, H5.
Qed.

Lemma commit_ok id s :
  store_ok (Some id) s ->
  exists s', commit_and_drop s id = Done (inl tt, s') /\ store_ok None s' /\ cur_view s' = cur_view s /\ next_txn s' = next_txn s.
Proof.
  intros Hs. pose proof (so_current _ _ Hs) as Hc. unfold current_txn in Hc. pose proof (so_pending _ _ Hs id eq_refl) as Hlt.
  pose proof (txn_id_eq _ _ Hs) as Hid. cbn in Hid. pose proof (so_sins _ _ Hs) as [Hr Hv _].
  unfold commit_and_drop, commit_transaction, commit_txn. destruct (pending_txn s) as [[i ks]|]; [|done]. injection Hc as ->. rewrite decide_True by done.
  rewrite (gs_check_spec _ _ _ (so_tables _ _ Hs)).
  destruct (gs_commit_spec _ _ _ Hlt (so_tables _ _ Hs)) as (t & -> & H1 & H2 & H3). cbn [mbind outcome_bind].
  cbn [rollback_transaction pending_txn]. eexists. split; [reflexivity|]. split_and!; [| |done].
  - constructor; cbn; [done|done|apply (so_next _ _ Hs)|done|]. constructor; [| |done].
    + intros k o v Hk. by eapply commit_value, Hr.
    + intros k o v Hk. by eapply Hv.
  - rewrite cur_view_mk, (cur_view_eq _ _ Hs). cbn. by rewrite H2, H3.
Qed.

(** ** Scripts *)

Definition astore s : AStore (TS := TS) (A := A) := mkAStore (cur_view s) (next_txn s).

(** The outcome of a call on an idle store and the outcome of its specification. *)
Definition call_agrees {X} (r : outcome (X * Storage TS A)) (R : outcome (X * AStore (TS := TS) (A := A))) : Prop :=
  match r, R with
  | Done (x, s), Done (x', a) => x = x' /\ store_ok None s /\ astore s = a
  | Panic, Panic => True
  | _, _ => False
  end.

Lemma run_txn_ok {X} s owner (p : Prog X) commit :
  store_ok None s -> exists R, txn_spec owner p commit (astore s) R /\ call_agrees (run_txn owner p commit s) R.
Proof.
  intros Hs. pose proof (begin_ok s Hs) as Hb. unfold txn_spec, run_txn. cbn [a_next a_view astore]. case_decide; [|rewrite Hb; by exists Panic].
  destruct Hb as (s1 & -> & Hs1 & Hv1 & Hsv1 & Hn1 & _). cbn [mbind outcome_bind]. rewrite <- Hv1.
  destruct (run_prog_ok _ s1 owner p Hs1) as (R & HR & Ha).
  destruct (run_prog owner p s1) as [[x s2]|], R as [[x' v]|]; cbn in Ha; try done; [|exists Panic; split; [by left|done]].
  destruct Ha as [<- (Hs2 & <- & Hsv2 & Hn2 & _)]. cbn [mbind outcome_bind]. eexists. split; [right; exists x, (cur_view s2); split; [done|reflexivity]|].
  destruct (commit x).
  - destruct (commit_ok _ s2 Hs2) as (s3 & -> & Hs3 & Hv3 & Hn3). cbn. split_and!; [done..|]. unfold astore. by rewrite Hv3, Hn3, Hn2, Hn1.
  - destruct (drop_ok _ s2 Hs2) as (s3 & -> & Hs3 & Hv3 & Hn3). cbn. split_and!; [done..|]. unfold astore.
    rewrite Hv3, Hn3, Hn2, Hn1, (Hsv2 ltac:(by eexists)), Hsv1. by rewrite <- Hv1.
Qed.

Lemma leads_call {X} s (r : outcome (X * Storage TS A)) R :
  store_ok None s -> agrees None s r R -> call_agrees r ('(x, v) ← R; mret (x, mkAStore v (next_txn s))).
Proof.
  intros Hs Ha. destruct r as [[x s']|], R as [[x' v]|]; cbn in Ha |- *; try done.
  destruct Ha as [-> (Hs' & <- & _ & Hn & _)]. split_and!; [done..|]. unfold astore. by rewrite Hn.
Qed.

Lemma run_call_ok {X} s (c : Call X) : store_ok None s -> exists R, call_spec c (astore s) R /\ call_agrees (run_call c s) R.
Proof.
  intros Hs. destruct (idle_locks s Hs) as [Hrl Hwl].
  destruct c as [X owner c|K V I ? ? HO HX HL D L owner f|X owner p commit]; cbn [run_call call_spec]; [| |by apply run_txn_ok].
  - destruct (run_cmd_ok None s owner c Hs) as (R & HR & Ha). rewrite bool_decide_eq_true_2 in HR by done.
    eexists. split; [by exists R|]. unfold run_raw. assert ((if reads c then get_read_lock s else get_write_lock s) = Done s) as -> by (by destruct (reads c)).
    by apply leads_call.
  - rewrite Hwl. cbn [mbind outcome_bind]. unfold tabular_for_each_mut. rewrite assert_owner_eq, (the_table_owner D L).
    cbn [a_view astore]. destruct (owner_ok _ owner); [|by eexists]. cbn [mbind outcome_bind]. pose proof (the_table_ok D L None s Hs) as Ht.
    assert (Hn : no_removed (the_table D s)) by (unfold no_removed; by rewrite (ok_mask _ _ _ Ht)).
    destruct (table_for_each_spec (committed s) None (the_table D s) f (so_pending _ _ Hs) Ht Hn) as (t' & ks & E & Hks & Hst).
    rewrite <- (txn_id_eq _ _ Hs) in E, Hks, Hst. rewrite (the_table_rows D L) in Hks. rewrite (the_table_view D L) in Hst.
    eexists. split; [exists ks; split; [done|reflexivity]|]. unfold max_committed_id. rewrite E. cbn [writing mbind outcome_bind].
    apply (leads_call s (Done (tt, _)) (Done (tt, _)) Hs). split; [done|].
    pose proof (steps_leads D L None s _ _ _ _ Hs Ht eq_refl eq_refl Hst) as Hl. by rewrite (the_table_owner D L), put_sel_owner in Hl.
Qed.

Lemma run_script_ok {X} (p : Script X) s :
  store_ok None s -> exists R, script_spec p (astore s) R /\ call_agrees (run_script p s) R.
Proof.
  revert s. induction p as [x|Y c rest IH]; intros s Hs; cbn [script_spec run_script]; [by eexists|].
  destruct (run_call_ok s c Hs) as (R & HR & Ha).
  destruct (run_call c s) as [[y s1]|], R as [[y' a1]|]; cbn in Ha; try done; [|exists Panic; split; [by left|done]].
  destruct Ha as (<- & Hs1 & <-). destruct (IH y s1 Hs1) as (R & HR' & Ha). exists R. split; [right; by exists y, (astore s1)|done].
Qed.

Lemma new_ok : exists s, new_storage = Done s /\ store_ok None s /\ astore s = mkAStore new_view 2.
Proof.
  eexists. split; [reflexivity|]. destruct (gs_default_spec (TS := TS) FIRST) as (H1 & H2 & H3). split.
  - constructor; cbn; [done..|constructor; by intros k o v Hk].
  - unfold astore. rewrite cur_view_mk. cbn. rewrite H2, H3. unfold sins_seen. by rewrite omap_empty.
Qed.

End Proof.


End KvStoreProof.
